(* ===== verification/_CoqProject ===== *)
-Q . S2P
Prelude.v
Machine.v
Utf8.v
Diagnostics.v
Lexer.v
LexerProps.v
LexerShift.v
LexerRoundTrip.v
StateM.v
BTree.v
Limits.v
Ast.v
Hir.v
Mir.v
Cfg.v
CfgProps.v
Layout.v
LayoutProps.v
LayoutCache.v
LayoutTotal.v
Mono.v
MonoProps.v
MonoTypes.v
MonoNeeds.v
MonoCollect.v
MonoSymbols.v
MonoExamples.v
Parser.v
ParserForm.v
ParserLogic.v
ParserTotal.v
ParserProps.v
ParserPrint.v
ParserRun.v
ParserRoundTrip.v
ParserFindings.v
Formatter.v
FormatterProps.v
Captures.v
Effects.v
EffectsSpec.v
EffectsProps.v
EffectsCollect.v
ConstEval.v
ConstEvalProps.v
ConstFold.v
Expansion.v
ExpansionProps.v
ExpansionTotal.v
Resolver.v
ResolverSpec.v
ResolverProps.v
ResolverDecides.v
ResolverProgram.v
Frontend.v
FrontendExamples.v
Link.v
LinkProps.v
LinkScope.v
LinkNames.v
Paths.v
Manifest.v
ManifestProps.v
Migrate.v
MigrateProps.v
Package.v
PackageProps.v
Loader.v
LoaderProps.v
ProjectExamples.v
DataFormat.v
DataCodec.v
DataPages.v
DataStore.v
DataWal.v
DataRecovery.v
DataSafety.v
DataProps.v
