(* ===== verification/Prelude.v ===== *)
(** * A verification development of the DISP compiler

    DISP ([src/compiler], Rust) is a compiler and runtime for a small systems language.  A
    program travels through the lexer, the parser, macro expansion, name resolution, the type
    and ownership checkers, the capability (effect) analysis, constant evaluation and
    folding, the high-level IR, the mid-level IR (control-flow graphs), and then either the
    interpreter or the native backend (monomorphization, layouts, calling convention, C code).  Next to
    it stands the store of the language's [data] declarations: a paged file format with a
    write-ahead log.  This library models the parts that are pure logic or a state machine,
    and proves what the rest of the system relies on.

    ** Files and the code they model

    - [Prelude], [Machine], [Utf8], [StateM], [BTree]: the language the models are written
      in.  [outcome] separates a value, an error value and a panic; [Machine] has
      fixed-width integers, bytes and slices; [SM] is a method that updates [self] and may
      fail; [BTree] is an ordered map.
    - [Diagnostics] (diagnostics.rs): spans, diagnostics, their text and JSON renderings,
      the map from lines of the concatenated program back to its files.
    - [Limits] (limits.rs): every resource limit and the C prelude that exports them.
    - [Lexer], with [LexerProps], [LexerShift], [LexerRoundTrip] (lexer.rs and the line
      bookkeeping of project.rs).
    - [Ast] (ast.rs, data) and [Captures] (ast.rs, the analysis of closure captures).
    - [Effects] (effects.rs), with [EffectsSpec] (the authority model of CAPABILITIES.md, over
      the syntax), [EffectsProps] (the fixpoint) and [EffectsCollect] (the collector, and
      what the analysis decides).
    - [ConstEval], with [ConstEvalProps], [ConstFold] (const_eval.rs).
    - [Hir], [Mir] (the data types of hir.rs and mir.rs).
    - [Cfg], [CfgProps] (cfg.rs): the graph of a function body and its traversals.
    - [Layout], with [LayoutProps], [LayoutCache], [LayoutTotal] (backend/layout.rs,
      backend/target.rs, the classification of backend/abi.rs).
    - [Mono] (backend/mono.rs, the lowering of backend/abi.rs), with [MonoProps],
      [MonoTypes], [MonoNeeds] (the instances a program needs, without the worklist),
      [MonoCollect], [MonoSymbols], [MonoExamples].
    - [Parser] (parser.rs), with [ParserForm] (the shape of a parsed program),
      [ParserLogic] (specifications of parsing methods), [ParserTotal] (one lemma per
      method), [ParserProps], [ParserPrint], [ParserRun], [ParserRoundTrip],
      [ParserFindings].
    - [Formatter], [FormatterProps] (formatter.rs).
    - [Expansion] (expansion.rs), with [ExpansionProps] (alternative patterns) and
      [ExpansionTotal].
    - [Resolver] (resolver.rs), with [ResolverSpec] (lexical scoping, without the
      resolver's state), [ResolverProps] and [ResolverDecides] (the state of the resolver
      agrees with a scope, and each method decides its part), [ResolverProgram].
    - [Frontend], [FrontendExamples] (lib.rs, validate_source up to the resolver).
    - [Link] (project.rs, the linker and its renamer), with [LinkProps], [LinkScope] (what
      modules declare, export and see, without the linker's tables) and [LinkNames].
    - [Paths] (std::path and the file system the compiler reads), [Manifest],
      [ManifestProps], [Migrate], [MigrateProps] (project.rs, manifests), [Package],
      [PackageProps] (package.rs), [Loader], [LoaderProps] (project.rs, the loader),
      [ProjectExamples].
    - [DataFormat], [DataCodec], [DataPages], [DataStore], [DataWal], [DataRecovery],
      [DataSafety], [DataProps] (data_store.rs).

    Every definition that models code keeps the source's name where Rocq allows it; where
    two parts use one name, a prefix tells them apart ([HStruct], [MFunction], ...).

    ** What the theorems show

    - C1-C7, the data store: under failing system calls and torn writes, any session of
      loads and commits refines an atomic register of snapshots (C1, C2), a commit without
      faults succeeds (C3), nothing panics (C4), the page codec is a round trip (C5; it is
      also canonical), replaying the log rebuilds the image (C6); C7 is a limit the encoder
      and the decoder disagree on, and [DataProps] has two more places where the code does
      not do what it means to.
    - C8: JSON escaping loses nothing.  C9-C11, the lexer: its spans are exact and ordered,
      diagnostics map back to module lines, printed tokens lex back to themselves.
    - C12-C14, the parser: on every source lexing and parsing return, with a program or with
      diagnostics and never a panic; what they return is well formed; and the canonical
      printing of an operator expression parses back to it, so precedence and associativity
      are exactly those of the printer.  [ParserFindings] has inputs on which it loses
      information.
    - C15: formatting a formatted source changes nothing.
    - C16-C19, the front end: from any source text the passes up to the resolver compose
      without a panic or an internal error (C16); the resolver's mutable scope stacks decide
      an abstract account of lexical scoping (C17); expansion returns within its limits and
      leaves neither macro calls nor alternative patterns (C18), and splitting an
      alternative pattern preserves what it matches, in order (C19).  [FrontendExamples] has
      programs that escape the expansion budget.
    - C20: a closure captures exactly its free uses, with the strongest mode.
    - C21-C24, constants: operators are exact at their width, evaluation refines a
      denotational meaning and stays within the limits, and folding preserves evaluation.
    - C25, effects: what the analysis reports and refuses is right by the authority model of
      CAPABILITIES.md, and complete but for method calls on receivers that are not plain
      names ([EffectsCollect] has the program that slips through).
    - C26-C28, control flow: reachability, reverse postorder and cycles are exact.
    - C29-C31, layouts: the cache is transparent, every layout describes its type, and the
      engine terminates on programs without generics.
    - C32-C35, monomorphization: the instances (C32) and types (C34) collected are exactly
      those the program needs, matching finds the least solution (C33), and symbols tell
      instances apart where the encoding is faithful (C35).  [MonoExamples] has programs the
      backend fails on.
    - C36-C40, projects: linking gives every mention the item its module sees (C36), loading
      returns and loads each module once, from the file the entry or an import means (C37),
      the package graph is the acyclic graph of what the project depends on (C38), package
      digests are taken of a faithful encoding (C39), and migration keeps the meaning of a
      manifest (C40).  [ProjectExamples] has modules whose linked program differs from what
      they say.

    ** Bounds and fuel

    Recursion that is not structural takes a fuel, and running out of it is a value of its
    own, never a result.  The lexer's loop gets the number of characters left plus one, the
    parser's loops and recursion one more than the weight of the tokens left (a [>>], which
    may close two type lists, weighs two), the effect propagation ten rounds per function
    plus one, [Cfg.reachable] one step per edge plus two, [Cfg.visit] the number of blocks
    plus two, the monomorphization worklist the limit of instances times the references of
    a body; theorems show these are enough.  The layout engine and [collect_type] have no
    bound in the code: their fuel is an argument, and C31 gives one that suffices without
    generics.  Expansion nests one level per depth of macro calls; it is given
    [MAX_EXPANSION_DEPTH] and one more, where the code itself stops, and C18 includes that
    they are enough.  Modules and packages nest at most [module_levels] and [package_levels]
    deep, one more than where the code stops; the directories of a package are not bounded in
    the code, so their number is an argument, and the theorems assume that it is enough.

    The data store's faults are failing calls, short and torn writes and crashes between
    calls; a disk that reorders writes across a flush is not in the model.  Floats are the
    IEEE binary64 of [SpecFloat].  The Unicode tables the lexer and the parser use,
    the debug text of a token in an error message, SHA-256 and the contents of the file
    system are parameters.

    ** Not modelled

    The type and ownership checkers and the lowerings to the two IRs (tree walks of several
    thousand lines each, with rules for every library type of the language), the interpreter
    (its values are sockets, threads, processes and databases), the code generators and the
    runtime (text whose meaning is that of a C compiler or a processor), cryptography,
    sandboxing, SQLite and the process host (wrappers of third-party code or the operating
    system), the creation of a project directory and the writing of a lock file, and the
    drivers. *)

From stdpp Require Export base gmap strings list.
From Stdlib Require Export ZArith Lia.

#[global] Open Scope Z_scope.

(** ** Outcomes of Rust code

    A fallible Rust function either returns a value, returns an error value, or
    panics (an out-of-range slice, an arithmetic underflow, [expect] on [None]).
    The three are kept apart, so that "never panics" is a theorem. *)
Inductive outcome (E A : Type) : Type :=
| Ok (a : A)
| Err (e : E)
| Panic.
Arguments Ok {E A} a.
Arguments Err {E A} e.
Arguments Panic {E A}.

#[export] Instance outcome_ret {E} : MRet (outcome E) := λ A a, Ok a.
#[export] Instance outcome_bind {E} : MBind (outcome E) := λ A B f m,
  match m with Ok a => f a | Err e => Err e | Panic => Panic end.
#[export] Instance outcome_fmap {E} : FMap (outcome E) := λ A B f m,
  match m with Ok a => Ok (f a) | Err e => Err e | Panic => Panic end.

Definition is_ok {E A} (m : outcome E A) : bool :=
  match m with Ok _ => true | _ => false end.
Definition is_panic {E A} (m : outcome E A) : bool :=
  match m with Panic => true | _ => false end.

(** [map_err] of Rust's [Result]. *)
Definition map_err {E F A} (f : E → F) (m : outcome E A) : outcome F A :=
  match m with Ok a => Ok a | Err e => Err (f e) | Panic => Panic end.

(** [ok_or_else] of Rust's [Option]. *)
Definition ok_or {E A} (o : option A) (e : E) : outcome E A :=
  match o with Some a => Ok a | None => Err e end.

(** [expect]/[unwrap] of Rust's [Option]. *)
Definition expect {E A} (o : option A) : outcome E A :=
  match o with Some a => Ok a | None => Panic end.

(** A guarded early return: [if c { return Err(e); }]. *)
Definition bail_if {E} (c : bool) (e : E) : outcome E unit :=
  if c then Err e else Ok tt.

(** A [for] loop over a slice whose body may leave with [?]. *)
Fixpoint for_each {E A S} (body : S → A → outcome E S) (l : list A) (s : S) : outcome E S :=
  match l with
  | [] => Ok s
  | a :: l => s' ← body s a; for_each body l s'
  end.

(** A [for _ in 0..n] loop whose body may leave with [?]. *)
Fixpoint repeat_n {E S} (n : nat) (body : S → outcome E S) (s : S) : outcome E S :=
  match n with
  | O => Ok s
  | S n => s' ← body s; repeat_n n body s'
  end.

(** ** Lemmas on outcomes *)

Lemma outcome_bind_ok {E A B} (m : outcome E A) (f : A → outcome E B) b :
  m ≫= f = Ok b ↔ ∃ a, m = Ok a ∧ f a = Ok b.
Proof.
  split.
  - destruct m; [|discriminate..]. intros H; eauto.
  - intros (a & -> & H). exact H.
Qed.

(** The reduction rules of the monad, as equations to rewrite with. *)
Lemma bind_Ok {E A B} (a : A) (f : A → outcome E B) : Ok a ≫= f = f a.
Proof. done. Qed.
Lemma bail_if_false {E} (e : E) : bail_if false e = Ok tt.
Proof. done. Qed.
Lemma bail_if_pass {E} c (e : E) : c = false → bail_if c e = Ok tt.
Proof. by intros ->. Qed.

Lemma bail_if_ok {E} c (e : E) u : bail_if c e = Ok u ↔ c = false.
Proof. destruct c; simpl; [|destruct u]; split; congruence. Qed.

Lemma for_each_app {E A S} (body : S → A → outcome E S) l1 l2 s :
  for_each body (l1 ++ l2) s = s' ← for_each body l1 s; for_each body l2 s'.
Proof.
  revert s; induction l1 as [|a l1 IH]; intros s; simpl; [done|].
  destruct (body s a); simpl; [apply IH|done|done].
Qed.

Lemma for_each_ext {E A S} (f g : S → A → outcome E S) l s :
  (∀ s a, f s a = g s a) → for_each f l s = for_each g l s.
Proof.
  intros H. revert s. induction l as [|a l IH]; intros s; simpl; [done|]. rewrite H.
  destruct (g s a); simpl; auto.
Qed.

Lemma for_each_inv {E A S} (I : S → Prop) (body : S → A → outcome E S) l s s' :
  (∀ s a s', a ∈ l → I s → body s a = Ok s' → I s') →
  I s → for_each body l s = Ok s' → I s'.
Proof.
  revert s; induction l as [|a l IH]; intros s Hstep HI; simpl.
  - intros [= <-]; done.
  - intros (s1 & H1 & H2)%outcome_bind_ok.
    eapply IH; [|eapply Hstep; [left| |]|]; eauto.
    intros; eapply Hstep; eauto; by right.
Qed.

Lemma repeat_n_inv {E S} (I : S → Prop) n (body : S → outcome E S) s s' :
  (∀ s s', I s → body s = Ok s' → I s') →
  I s → repeat_n n body s = Ok s' → I s'.
Proof.
  revert s; induction n as [|n IH]; intros s Hstep HI; simpl.
  - by intros [= <-].
  - intros (s1 & H1 & H2)%outcome_bind_ok; eauto.
Qed.

(** A proper suffix changes a string. *)
Lemma append_nil_r (s : string) : s +:+ "" = s.
Proof. induction s as [|c s IH]; [done|]. exact (f_equal (String c) IH). Qed.
Lemma append_neq (s t : string) : t ≠ ""%string → s ≠ s +:+ t.
Proof.
  intros Ht H. apply Ht. apply (inj (String.append s)). by rewrite append_nil_r.
Qed.

(** ** Panic freedom with a postcondition

    [safe m Q]: [m] does not panic, and a value it returns satisfies [Q]. *)
Definition safe {E A} (m : outcome E A) (Q : A → Prop) : Prop :=
  match m with Ok a => Q a | Err _ => True | Panic => False end.

Lemma safe_no_panic {E A} (m : outcome E A) Q : safe m Q → m ≠ Panic.
Proof. by destruct m. Qed.

Lemma safe_post {E A} (m : outcome E A) Q a : safe m Q → m = Ok a → Q a.
Proof. by intros H ->. Qed.

Lemma safe_mono {E A} (m : outcome E A) (Q R : A → Prop) :
  safe m Q → (∀ a, Q a → R a) → safe m R.
Proof. destruct m; simpl; auto. Qed.

Lemma safe_bind {E A B} (m : outcome E A) (f : A → outcome E B) Q R :
  safe m Q → (∀ a, m = Ok a → Q a → safe (f a) R) → safe (m ≫= f) R.
Proof. destruct m; simpl; auto. Qed.

Lemma safe_bail_if {E} c (e : E) : safe (bail_if c e) (λ _, c = false).
Proof. by destruct c. Qed.

Lemma safe_ok_or {E A} (o : option A) (e : E) : safe (ok_or o e) (λ a, o = Some a).
Proof. by destruct o. Qed.

Lemma safe_for_each {E A S} (I : S → Prop) (body : S → A → outcome E S) l s :
  (∀ s a, a ∈ l → I s → safe (body s a) I) → I s → safe (for_each body l s) I.
Proof.
  revert s; induction l as [|a l IH]; intros s Hstep HI; simpl; [done|].
  eapply safe_bind; [apply Hstep; [by left|done]|]. intros s' _ HI'.
  apply IH; [|done]. intros; apply Hstep; [by right|done].
Qed.

Lemma safe_repeat_n {E S} (I : S → Prop) n (body : S → outcome E S) s :
  (∀ s, I s → safe (body s) I) → I s → safe (repeat_n n body s) I.
Proof.
  intros Hstep. revert s; induction n as [|n IH]; intros s HI; simpl; [done|].
  eapply safe_bind; [by apply Hstep|]. auto.
Qed.

(** ** Tactics of the development *)

(** Invert a chain of monadic binds that returned [Ok]. *)
Ltac inv_ok H :=
  repeat match type of H with
  | (_ ≫= _) = Ok _ =>
      let a := fresh "v" in let H1 := fresh "Hv" in
      apply outcome_bind_ok in H as (a & H1 & H)
  | (match ?p with pair _ _ => _ end) = Ok _ =>
      let a := fresh "v" in let b := fresh "v" in destruct p as [a b]
  end.

(** Replace the variable a hypothesis defines. *)
Ltac subst_lhs H := match type of H with ?x = _ => subst x end.

(** Reflect the boolean tests of the code into propositions. *)
Ltac reflect_bools :=
  repeat match goal with
  | H : bail_if _ _ = Ok _ |- _ => apply bail_if_ok in H
  | H : (_ && _)%bool = true |- _ => apply andb_true_iff in H as [? ?]
  | H : (_ || _)%bool = false |- _ => apply orb_false_iff in H as [? ?]
  | H : negb _ = true |- _ => apply negb_true_iff in H
  | H : negb _ = false |- _ => apply negb_false_iff in H
  | H : bool_decide _ = true |- _ => apply bool_decide_eq_true in H
  | H : bool_decide _ = false |- _ => apply bool_decide_eq_false in H
  | H : (_ <=? _) = true |- _ => apply Z.leb_le in H
  | H : (_ <=? _) = false |- _ => apply Z.leb_gt in H
  | H : (_ <? _) = true |- _ => apply Z.ltb_lt in H
  | H : (_ <? _) = false |- _ => apply Z.ltb_ge in H
  | H : (_ >? _) = true |- _ => rewrite Z.gtb_ltb in H
  | H : (_ >? _) = false |- _ => rewrite Z.gtb_ltb in H
  | H : (_ >=? _) = true |- _ => rewrite Z.geb_leb in H
  | H : (_ >=? _) = false |- _ => rewrite Z.geb_leb in H
  | H : (_ =? _) = true |- _ => apply Z.eqb_eq in H
  | H : (_ =? _) = false |- _ => apply Z.eqb_neq in H
  end.


Create HintDb disp discriminated.
#[export] Hint Resolve safe_bail_if safe_ok_or : disp.

(** Step through a monadic chain that must not panic; calls whose [safe] lemma
    is in the hint database are discharged. *)
Ltac safe_step :=
  match goal with
  | |- safe (_ ≫= _) _ =>
      eapply safe_bind; [solve [eauto with disp]|];
      let a := fresh "v" in let He := fresh "He" in let Hq := fresh "Hq" in
      intros a He Hq; cbv beta in Hq
  | |- safe (match ?p with pair _ _ => _ end) _ =>
      let a := fresh "v" in let b := fresh "v" in destruct p as [a b];
      simpl fst in *; simpl snd in *; destruct_and?
  | |- safe (Ok _) _ => cbn [safe]
  | |- safe (Err _) _ => exact I
  | |- safe (if ?b then _ else _) _ => let E := fresh "Hif" in destruct b eqn:E
  end.
Ltac safe_steps := repeat (cbv beta; safe_step).
