(* ===== verification/Machine.v ===== *)
(** * Machine-level data: fixed-width integers, bytes, slices and UTF-8

    The target is the 64-bit platform the native backend supports
    ([backend/target.rs]), so [usize] is 64 bits wide.  Every integer is a [Z]
    kept in its range by the operation that produced it; a [u8] buffer is a
    [list byte]; a Rust [String] is the [string] of its UTF-8 bytes. *)

From Stdlib Require Export Strings.Byte.
From stdpp Require pretty.
From S2P Require Import Prelude.

(** ** Fixed-width integers *)

Definition U32_MAX : Z := 2 ^ 32 - 1.
Definition U64_MAX : Z := 2 ^ 64 - 1.
Definition USIZE_MAX : Z := U64_MAX.
Definition U128_MAX : Z := 2 ^ 128 - 1.

(** [u32::try_from], [u64::try_from], [usize::try_from]. *)
Definition try_from (max value : Z) : option Z :=
  if (0 <=? value) && (value <=? max) then Some value else None.

Definition checked_add (max a b : Z) : option Z := try_from max (a + b).
Definition checked_mul (max a b : Z) : option Z := try_from max (a * b).
Definition saturating_add (max a b : Z) : Z := Z.min max (a + b).
Definition saturating_mul (max a b : Z) : Z := Z.min max (a * b).
Definition saturating_sub (a b : Z) : Z := Z.max 0 (a - b).
Definition wrapping_mul (width a b : Z) : Z := (a * b) mod 2 ^ width.

(** [a - b] on an unsigned type: an underflow is a panic. *)
Definition unsigned_sub {E} (a b : Z) : outcome E Z :=
  if b <=? a then Ok (a - b) else Panic.

(** [div_ceil]. *)
Definition div_ceil (a b : Z) : Z := (a + b - 1) / b.

(** ** Bytes *)

Definition byte_of_Z (z : Z) : byte := default x00 (Byte.of_N (Z.to_N (z mod 256))).
Definition Z_of_byte (b : byte) : Z := Z.of_N (Byte.to_N b).

#[export] Instance byte_eq_dec : EqDecision byte := Byte.byte_eq_dec.

(** [to_le_bytes] of an [n]-byte integer and its inverse [from_le_bytes]. *)
Fixpoint to_le_bytes (n : nat) (z : Z) : list byte :=
  match n with
  | O => []
  | S n => byte_of_Z z :: to_le_bytes n (z / 256)
  end.
Fixpoint from_le_bytes (bs : list byte) : Z :=
  match bs with
  | [] => 0
  | b :: bs => Z_of_byte b + 256 * from_le_bytes bs
  end.

(** ** Slices *)

Definition zlen {A} (l : list A) : Z := Z.of_nat (length l).
Definition ztake {A} (n : Z) (l : list A) : list A := take (Z.to_nat n) l.
Definition zdrop {A} (n : Z) (l : list A) : list A := drop (Z.to_nat n) l.
Definition sub_list {A} (l : list A) (a b : Z) : list A := ztake (b - a) (zdrop a l).
Definition zeros (n : Z) : list byte := replicate (Z.to_nat n) x00.

(** [&l[a..b]]: panics unless [a <= b <= l.len()]. *)
Definition slice {E A} (l : list A) (a b : Z) : outcome E (list A) :=
  if (0 <=? a) && (a <=? b) && (b <=? zlen l) then Ok (sub_list l a b) else Panic.

(** [l[i]]: panics unless [i < l.len()]. *)
Definition index {E A} (l : list A) (i : Z) : outcome E A :=
  if 0 <=? i then expect (l !! Z.to_nat i) else Panic.

(** [l.get(a..b)]. *)
Definition get_range {A} (l : list A) (a b : Z) : option (list A) :=
  if (0 <=? a) && (a <=? b) && (b <=? zlen l) then Some (sub_list l a b) else None.

(** [out[a..b].copy_from_slice(src)]: panics when the range is out of bounds or
    its length differs from [src]'s. *)
Definition copy_into {E A} (out : list A) (a b : Z) (src : list A) : outcome E (list A) :=
  if (0 <=? a) && (a <=? b) && (b <=? zlen out) && (b - a =? zlen src)
  then Ok (ztake a out ++ src ++ zdrop b out) else Panic.

(** ** UTF-8 *)

(** A Rust [char] is a Unicode scalar value. *)
Abbreviation char := Z (only parsing).
Definition is_scalar (c : char) : bool :=
  (0 <=? c) && (c <=? 0x10FFFF) && negb ((0xD800 <=? c) && (c <=? 0xDFFF)).

Definition chr (a : Ascii.ascii) : char := Z.of_N (Ascii.N_of_ascii a).

(** [char::encode_utf8]. *)
Definition encode_char (c : char) : list byte :=
  if c <? 0x80 then [byte_of_Z c]
  else if c <? 0x800 then
    [byte_of_Z (0xC0 + c / 0x40); byte_of_Z (0x80 + c mod 0x40)]
  else if c <? 0x10000 then
    [byte_of_Z (0xE0 + c / 0x1000); byte_of_Z (0x80 + c / 0x40 mod 0x40);
     byte_of_Z (0x80 + c mod 0x40)]
  else
    [byte_of_Z (0xF0 + c / 0x40000); byte_of_Z (0x80 + c / 0x1000 mod 0x40);
     byte_of_Z (0x80 + c / 0x40 mod 0x40); byte_of_Z (0x80 + c mod 0x40)].

Definition is_continuation (b : byte) : bool :=
  (0x80 <=? Z_of_byte b) && (Z_of_byte b <=? 0xBF).
Definition in_bytes (lo hi : Z) (b : byte) : bool :=
  (lo <=? Z_of_byte b) && (Z_of_byte b <=? hi).

(** [core::str::from_utf8]: the well-formed byte sequences of the Unicode
    standard (table 3-7), the ones the Rust validator accepts. *)
Fixpoint utf8_valid (bs : list byte) : bool :=
  match bs with
  | [] => true
  | b :: r =>
    if in_bytes 0 0x7F b then utf8_valid r
    else if in_bytes 0xC2 0xDF b then
      match r with c1 :: r => is_continuation c1 && utf8_valid r | _ => false end
    else if in_bytes 0xE0 0xEF b then
      match r with
      | c1 :: c2 :: r =>
        (if Z_of_byte b =? 0xE0 then in_bytes 0xA0 0xBF c1
         else if Z_of_byte b =? 0xED then in_bytes 0x80 0x9F c1
         else is_continuation c1)
        && is_continuation c2 && utf8_valid r
      | _ => false
      end
    else if in_bytes 0xF0 0xF4 b then
      match r with
      | c1 :: c2 :: c3 :: r =>
        (if Z_of_byte b =? 0xF0 then in_bytes 0x90 0xBF c1
         else if Z_of_byte b =? 0xF4 then in_bytes 0x80 0x8F c1
         else is_continuation c1)
        && is_continuation c2 && is_continuation c3 && utf8_valid r
      | _ => false
      end
    else false
  end.

(** [str::as_bytes] and the string over given bytes. *)
Definition as_bytes (s : string) : list byte := String.list_byte_of_string s.
Definition of_bytes (bs : list byte) : string := String.string_of_list_byte bs.
Definition str_len (s : string) : Z := zlen (as_bytes s).

(** [String::from_utf8]. *)
Definition from_utf8 (bs : list byte) : option string :=
  if utf8_valid bs then Some (of_bytes bs) else None.

(** [String::push]. *)
Definition push_char (s : string) (c : char) : string :=
  String.append s (of_bytes (encode_char c)).

(** The decimal rendering of an integer by [format!]. *)
Definition display_Z (n : Z) : string := pretty.pretty n.

(** ** Lemmas *)

Lemma Z_of_byte_range b : 0 <= Z_of_byte b < 256.
Proof. unfold Z_of_byte. pose proof (Byte.to_N_bounded b). lia. Qed.

Lemma Z_of_byte_of_Z z : Z_of_byte (byte_of_Z z) = z mod 256.
Proof.
  unfold Z_of_byte, byte_of_Z.
  pose proof (Z.mod_pos_bound z 256 eq_refl).
  destruct (Byte.of_N (Z.to_N (z mod 256))) as [b|] eqn:Hb; simpl.
  - apply Byte.to_of_N in Hb. lia.
  - apply Byte.of_N_None_iff in Hb. lia.
Qed.

Lemma byte_of_Z_of_byte b : byte_of_Z (Z_of_byte b) = b.
Proof.
  unfold byte_of_Z. rewrite Z.mod_small by apply Z_of_byte_range.
  unfold Z_of_byte. by rewrite N2Z.id, Byte.of_to_N.
Qed.

Lemma Z_of_byte_inj b1 b2 : Z_of_byte b1 = Z_of_byte b2 → b1 = b2.
Proof. intros H. by rewrite <- (byte_of_Z_of_byte b1), H, byte_of_Z_of_byte. Qed.

Lemma length_to_le_bytes n z : length (to_le_bytes n z) = n.
Proof. revert z; induction n; intros; simpl; auto. Qed.

Lemma zlen_to_le_bytes n z : zlen (to_le_bytes n z) = Z.of_nat n.
Proof. unfold zlen. by rewrite length_to_le_bytes. Qed.

Lemma from_to_le_bytes n z :
  0 <= z < 256 ^ Z.of_nat n → from_le_bytes (to_le_bytes n z) = z.
Proof.
  revert z; induction n as [|n IH]; intros z Hz.
  - simpl in *. lia.
  - cbn [to_le_bytes from_le_bytes]. rewrite Z_of_byte_of_Z.
    rewrite Nat2Z.inj_succ, Z.pow_succ_r in Hz by lia.
    rewrite IH; [pose proof (Z.div_mod z 256); lia|].
    split; [apply Z.div_pos; lia|]. apply Z.div_lt_upper_bound; lia.
Qed.

Lemma from_le_bytes_range bs : 0 <= from_le_bytes bs < 256 ^ zlen bs.
Proof.
  induction bs as [|b bs IH].
  - change (0 <= 0 < 1). lia.
  - unfold zlen in *. cbn [from_le_bytes length].
    rewrite Nat2Z.inj_succ, Z.pow_succ_r by lia.
    pose proof (Z_of_byte_range b). lia.
Qed.

Lemma try_from_some max v w : try_from max v = Some w ↔ v = w ∧ 0 <= v <= max.
Proof.
  unfold try_from. destruct ((0 <=? v) && (v <=? max)) eqn:E; split.
  - intros [= ->]. reflect_bools. lia.
  - by intros [-> _].
  - done.
  - intros [-> H]. exfalso. assert ((0 <=? w) && (w <=? max) = true); [|congruence].
    apply andb_true_iff; split; apply Z.leb_le; lia.
Qed.

Lemma try_from_in max v : 0 <= v <= max → try_from max v = Some v.
Proof. intros. by apply try_from_some. Qed.

(** *** Lengths and slices *)

Lemma zlen_nonneg {A} (l : list A) : 0 <= zlen l.
Proof. unfold zlen. lia. Qed.
Lemma zlen_nil {A} : zlen (@nil A) = 0.
Proof. done. Qed.
Lemma zlen_cons {A} (a : A) l : zlen (a :: l) = 1 + zlen l.
Proof. unfold zlen. simpl length. lia. Qed.
Lemma zlen_app {A} (l1 l2 : list A) : zlen (l1 ++ l2) = zlen l1 + zlen l2.
Proof. unfold zlen. rewrite length_app. lia. Qed.
Lemma zlen_zeros n : 0 <= n → zlen (zeros n) = n.
Proof. intros. unfold zlen, zeros. rewrite length_replicate. lia. Qed.
Lemma zlen_ztake {A} n (l : list A) : 0 <= n <= zlen l → zlen (ztake n l) = n.
Proof. unfold zlen, ztake. intros. rewrite length_take. lia. Qed.
Lemma zlen_zdrop {A} n (l : list A) : 0 <= n <= zlen l → zlen (zdrop n l) = zlen l - n.
Proof. unfold zlen, zdrop. intros. rewrite length_drop. lia. Qed.
Lemma zlen_sub_list {A} (l : list A) a b :
  0 <= a <= b → b <= zlen l → zlen (sub_list l a b) = b - a.
Proof. intros. unfold sub_list. rewrite zlen_ztake; [done|]. rewrite zlen_zdrop; lia. Qed.

Create Rewrite HintDb zlen.
#[export] Hint Rewrite @zlen_nil @zlen_cons @zlen_app zlen_to_le_bytes : zlen.

Lemma ztake_app_l {A} n (l1 l2 : list A) : n = zlen l1 → ztake n (l1 ++ l2) = l1.
Proof. intros ->. unfold ztake, zlen. apply take_app_length'. lia. Qed.
Lemma zdrop_app_l {A} n (l1 l2 : list A) : n = zlen l1 → zdrop n (l1 ++ l2) = l2.
Proof. intros ->. unfold zdrop, zlen. apply drop_app_length'. lia. Qed.
Lemma ztake_all {A} n (l : list A) : n = zlen l → ztake n l = l.
Proof. intros ->. unfold ztake, zlen. apply take_ge. lia. Qed.
Lemma zdrop_0 {A} (l : list A) : zdrop 0 l = l.
Proof. done. Qed.
Lemma ztake_zdrop {A} n (l : list A) : ztake n l ++ zdrop n l = l.
Proof. apply take_drop. Qed.

(** The head segment of a concatenation. *)
Lemma sub_list_head {A} (l1 l2 : list A) b :
  b = zlen l1 → sub_list (l1 ++ l2) 0 b = l1.
Proof. intros ->. unfold sub_list. rewrite zdrop_0. apply ztake_app_l. lia. Qed.

(** Skip a segment that ends before the range begins. *)
Lemma sub_list_skip {A} (l1 l2 : list A) a b n :
  n = zlen l1 → n <= a → sub_list (l1 ++ l2) a b = sub_list l2 (a - n) (b - n).
Proof.
  intros -> Ha. unfold sub_list. f_equal; [lia|].
  unfold zdrop, zlen in *. rewrite drop_app_ge by lia. f_equal. lia.
Qed.

Lemma sub_list_all {A} (l : list A) b : b = zlen l → sub_list l 0 b = l.
Proof. intros ->. unfold sub_list. rewrite zdrop_0. apply ztake_all. lia. Qed.

(** A middle segment. *)
Lemma sub_list_mid {A} (l1 l2 l3 : list A) a b :
  a = zlen l1 → b = zlen l1 + zlen l2 → sub_list (l1 ++ l2 ++ l3) a b = l2.
Proof.
  intros -> ->. rewrite (sub_list_skip _ _ _ _ (zlen l1)) by lia.
  rewrite Z.sub_diag. apply sub_list_head. lia.
Qed.

Lemma sub_list_app_l {A} (l1 l2 : list A) a b :
  0 <= a → b <= zlen l1 → sub_list (l1 ++ l2) a b = sub_list l1 a b.
Proof.
  intros Ha Hb. unfold sub_list, ztake, zdrop, zlen in *.
  destruct (decide (a <= Z.of_nat (length l1))).
  - rewrite drop_app_le by lia. rewrite take_app_le; [done|]. rewrite length_drop. lia.
  - replace (Z.to_nat (b - a)) with 0%nat by lia. done.
Qed.

Lemma slice_ok {E A} (l : list A) a b :
  0 <= a <= b → b <= zlen l → @slice E A l a b = Ok (sub_list l a b).
Proof.
  intros. unfold slice.
  rewrite (proj2 (Z.leb_le 0 a)), (proj2 (Z.leb_le a b)), (proj2 (Z.leb_le b _)) by lia.
  done.
Qed.

Lemma copy_into_ok {E A} (l1 l2 l3 src : list A) a b :
  a = zlen l1 → b = a + zlen l2 → zlen src = zlen l2 →
  @copy_into E A (l1 ++ l2 ++ l3) a b src = Ok (l1 ++ src ++ l3).
Proof.
  intros -> -> Hs. unfold copy_into.
  pose proof (zlen_nonneg l1). pose proof (zlen_nonneg l2). pose proof (zlen_nonneg l3).
  rewrite !zlen_app.
  rewrite !(proj2 (Z.leb_le _ _)), (proj2 (Z.eqb_eq _ _)) by lia. simpl.
  rewrite ztake_app_l by done. rewrite (app_assoc l1 l2 l3), zdrop_app_l; [done|].
  rewrite zlen_app. lia.
Qed.

Lemma zeros_add n m : 0 <= n → 0 <= m → zeros (n + m) = zeros n ++ zeros m.
Proof. intros. unfold zeros. rewrite Z2Nat.inj_add by done. apply replicate_add. Qed.

(** Splitting off the first [n] bytes of a list. *)
Lemma zlen_split {A} n (l : list A) :
  0 <= n <= zlen l → ∃ l1 l2, l = l1 ++ l2 ∧ zlen l1 = n ∧ zlen l2 = zlen l - n.
Proof.
  intros H. exists (ztake n l), (zdrop n l).
  rewrite ztake_zdrop, zlen_ztake, zlen_zdrop by done. done.
Qed.

(** *** Strings and their bytes *)

Lemma of_as_bytes s : of_bytes (as_bytes s) = s.
Proof. apply String.string_of_list_byte_of_string. Qed.
Lemma as_of_bytes bs : as_bytes (of_bytes bs) = bs.
Proof. apply String.list_byte_of_string_of_list_byte. Qed.

Lemma from_utf8_as_bytes s :
  utf8_valid (as_bytes s) = true → from_utf8 (as_bytes s) = Some s.
Proof. intros H. unfold from_utf8. by rewrite H, of_as_bytes. Qed.

Lemma from_utf8_some bs s :
  from_utf8 bs = Some s → as_bytes s = bs ∧ utf8_valid (as_bytes s) = true.
Proof.
  unfold from_utf8. destruct (utf8_valid bs) eqn:E; [|done].
  intros [= <-]. by rewrite as_of_bytes.
Qed.

Arguments to_le_bytes : simpl never.
Arguments zeros : simpl never.
Arguments byte_of_Z : simpl never.
Arguments Z_of_byte : simpl never.
Arguments zlen : simpl never.
Arguments slice : simpl never.
Arguments copy_into : simpl never.
Arguments get_range : simpl never.
Arguments sub_list : simpl never.
