(* ===== verification/Utf8.v ===== *)
(** * Characters of a Rust string

    [str::chars] and the collection of characters back into a [String]; on Unicode
    scalar values the two are inverse. *)

From S2P Require Import Prelude Machine.
#[local] Open Scope string_scope.
#[local] Open Scope list_scope.
#[local] Open Scope Z_scope.

(** [str::chars]: decodes one scalar value per step; the bytes of a [str] are valid
    UTF-8, so the lead byte determines how many bytes follow. *)
Definition lead_length (b : Z) : nat :=
  if b <? 0x80 then 0 else if b <? 0xE0 then 1 else if b <? 0xF0 then 2 else 3.

Definition continuation (acc : Z) (b : byte) : Z := acc * 0x40 + (Z_of_byte b) mod 0x40.

Definition lead_bits (b : Z) : Z :=
  if b <? 0x80 then b else if b <? 0xE0 then b - 0xC0
  else if b <? 0xF0 then b - 0xE0 else b - 0xF0.

(** State: the value read so far and how many continuation bytes it still needs. *)
Fixpoint decode_from (acc : Z) (need : nat) (bs : list byte) : list char :=
  match bs with
  | [] => []
  | b :: bs =>
    match need with
    | O =>
      let n := lead_length (Z_of_byte b) in
      let v := lead_bits (Z_of_byte b) in
      match n with O => v :: decode_from 0 0 bs | S _ => decode_from v n bs end
    | S O => continuation acc b :: decode_from 0 0 bs
    | S need => decode_from (continuation acc b) need bs
    end
  end.

Definition chars (s : string) : list char := decode_from 0 0 (as_bytes s).

(** Collecting characters into a [String]. *)
Definition of_chars (l : list char) : string := of_bytes (concat (map encode_char l)).

(** ** Lemmas *)

Lemma Z_byte_small z : 0 <= z < 256 → Z_of_byte (byte_of_Z z) = z.
Proof. intros. rewrite Z_of_byte_of_Z. by apply Z.mod_small. Qed.

Lemma is_scalar_range c : is_scalar c = true → 0 <= c <= 0x10FFFF.
Proof. unfold is_scalar. intros. reflect_bools. lia. Qed.

Lemma decode_lead z bs n v :
  0 <= z < 256 → lead_length z = n → lead_bits z = v →
  decode_from 0 0 (byte_of_Z z :: bs) =
  match n with O => v :: decode_from 0 0 bs | S _ => decode_from v n bs end.
Proof. intros Hz <- <-. cbn [decode_from]. by rewrite Z_byte_small. Qed.

Lemma continuation_byte acc z :
  0 <= z < 0x40 → continuation acc (byte_of_Z (0x80 + z)) = acc * 0x40 + z.
Proof.
  intros. unfold continuation. rewrite Z_byte_small by lia.
  replace (0x80 + z) with (z + 2 * 0x40) by lia. rewrite Z.mod_add by lia.
  by rewrite Z.mod_small by lia.
Qed.

Ltac lead_case :=
  unfold lead_length, lead_bits;
  repeat match goal with |- context [?a <? ?b] => destruct (Z.ltb_spec a b); try lia end; done.

Lemma decode_encode_char c bs :
  is_scalar c = true → decode_from 0 0 (encode_char c ++ bs) = c :: decode_from 0 0 bs.
Proof.
  intros Hc%is_scalar_range. unfold encode_char.
  pose proof (Z.mod_pos_bound c 0x40). pose proof (Z.mod_pos_bound (c / 0x40) 0x40).
  pose proof (Z.mod_pos_bound (c / 0x1000) 0x40).
  pose proof (Z.div_mod c 0x40). pose proof (Z.div_mod (c / 0x40) 0x40).
  pose proof (Z.div_mod (c / 0x1000) 0x40).
  assert (c / 0x1000 = c / 0x40 / 0x40) as E1 by (rewrite Z.div_div by lia; done).
  assert (c / 0x40000 = c / 0x1000 / 0x40) as E2 by (rewrite Z.div_div by lia; done).
  destruct (Z.ltb_spec c 0x80); [|destruct (Z.ltb_spec c 0x800); [|destruct (Z.ltb_spec c 0x10000)]];
    cbn [app].
  - by rewrite (decode_lead c _ 0 c) by (lia || lead_case).
  - rewrite (decode_lead _ _ 1 (c / 0x40)) by (lia || lead_case). cbn [decode_from].
    rewrite continuation_byte by lia. f_equal. lia.
  - rewrite (decode_lead _ _ 2 (c / 0x1000)) by (lia || lead_case). cbn [decode_from].
    rewrite !continuation_byte by lia. f_equal. lia.
  - rewrite (decode_lead _ _ 3 (c / 0x40000)) by (lia || lead_case). cbn [decode_from].
    rewrite !continuation_byte by lia. f_equal. lia.
Qed.

Definition scalars (l : list char) : Prop := Forall (λ c, is_scalar c = true) l.

Lemma chars_of_chars l : scalars l → chars (of_chars l) = l.
Proof.
  unfold chars, of_chars. rewrite as_of_bytes. induction 1 as [|c l Hc _ IH]; [done|].
  cbn [map concat]. rewrite decode_encode_char by done. by rewrite IH.
Qed.

Lemma of_chars_inj l1 l2 : scalars l1 → scalars l2 → of_chars l1 = of_chars l2 → l1 = l2.
Proof. intros H1 H2 H. by rewrite <- (chars_of_chars l1), H, chars_of_chars. Qed.

(** Appending a character. *)
Lemma as_bytes_append s t : as_bytes (String.append s t) = as_bytes s ++ as_bytes t.
Proof.
  unfold as_bytes. induction s as [|a s IH]; [done|].
  change (String.append (String a s) t) with (String a (String.append s t)).
  cbn. f_equal. exact IH.
Qed.

Lemma bytes_inj s t : as_bytes s = as_bytes t → s = t.
Proof. intros H. by rewrite <- (of_as_bytes s), H, of_as_bytes. Qed.

Lemma push_char_of_chars l c : push_char (of_chars l) c = of_chars (l ++ [c]).
Proof.
  apply bytes_inj. unfold push_char, of_chars. rewrite as_bytes_append, !as_of_bytes.
  rewrite map_app, concat_app. cbn. by rewrite app_nil_r.
Qed.

Lemma of_chars_app l1 l2 : of_chars (l1 ++ l2) = String.append (of_chars l1) (of_chars l2).
Proof.
  apply bytes_inj. unfold of_chars. rewrite as_bytes_append, !as_of_bytes.
  by rewrite map_app, concat_app.
Qed.

(** ASCII text is its own sequence of characters. *)
Definition ascii_chars (s : string) : list char := map chr (String.list_ascii_of_string s).
