(* ===== verification/Diagnostics.v ===== *)
(** * Diagnostics ([compiler/src/diagnostics.rs])

    Source positions and spans, diagnostics, their text and JSON renderings, and the
    map from lines of the merged program back to the lines of each file. *)

From Stdlib Require Import Ascii.
From S2P Require Import Prelude Machine Utf8.
#[local] Open Scope string_scope.
#[local] Open Scope list_scope.
#[local] Open Scope Z_scope.

Record Position := mkPosition { line : Z; column : Z }.
Record Span := mkSpan { start : Position; end_ : Position }.

#[export] Instance Position_eq_dec : EqDecision Position.
Proof. solve_decision. Defined.
#[export] Instance Span_eq_dec : EqDecision Span.
Proof. solve_decision. Defined.

Definition point (l c : Z) : Span := mkSpan (mkPosition l c) (mkPosition l c).
Definition through (s other : Span) : Span := mkSpan (start s) (end_ other).

(** The order [derive(PartialOrd)] gives positions. *)
Definition pos_le (p q : Position) : Prop :=
  line p < line q ∨ (line p = line q ∧ column p <= column q).
Definition pos_lt (p q : Position) : Prop :=
  line p < line q ∨ (line p = line q ∧ column p < column q).

Inductive DiagnosticKind := Lex | Parse | Resolve | Type_ | Runtime | Internal | Backend.
#[export] Instance DiagnosticKind_eq_dec : EqDecision DiagnosticKind.
Proof. solve_decision. Defined.

Definition code (k : DiagnosticKind) : string :=
  match k with
  | Lex => "DISP-LEX-0001"
  | Parse => "DISP-PARSE-0001"
  | Resolve => "DISP-RESOLVE-0001"
  | Type_ => "DISP-TYPE-0001"
  | Runtime => "DISP-RUNTIME-0001"
  | Internal => "DISP-INTERNAL-0001"
  | Backend => "DISP-BACKEND-0001"
  end.

Definition label (k : DiagnosticKind) : string :=
  match k with
  | Lex => "lexer"
  | Parse => "parser"
  | Resolve => "resolver"
  | Type_ => "type"
  | Runtime => "runtime"
  | Internal => "internal compiler"
  | Backend => "native backend"
  end.

Record Diagnostic := mkDiagnostic {
  diag_kind : DiagnosticKind;
  diag_message : string;
  diag_span : Span;
  diag_help : option string;
  diag_file : option string }.
#[export] Instance Diagnostic_eq_dec : EqDecision Diagnostic.
Proof. solve_decision. Defined.

Definition new_diagnostic (k : DiagnosticKind) (m : string) (s : Span) : Diagnostic :=
  mkDiagnostic k m s None None.
Definition with_help (d : Diagnostic) (h : string) : Diagnostic :=
  mkDiagnostic (diag_kind d) (diag_message d) (diag_span d) (Some h) (diag_file d).
Definition with_file (d : Diagnostic) (f : string) : Diagnostic :=
  mkDiagnostic (diag_kind d) (diag_message d) (diag_span d) (diag_help d) (Some f).

(** ** Source map *)

Record SourceFile := mkSourceFile {
  sf_path : string;
  sf_identity_path : string;
  sf_start_line : Z;
  sf_end_line : Z }.
Record SourceMap := mkSourceMap { map_files : list SourceFile }.

Definition covers (source : SourceFile) (d : Diagnostic) : bool :=
  (line (start (diag_span d)) >=? sf_start_line source)
  && (line (start (diag_span d)) <=? sf_end_line source).

(** [remap]: [source.start_line - 1] panics on a file that starts at line 0. *)
Definition remap (m : SourceMap) (d : Diagnostic) : outcome Empty_set Diagnostic :=
  match diag_file d with
  | Some _ => Ok d
  | None =>
    match List.find (λ source, covers source d) (map_files m) with
    | None => Ok d
    | Some source =>
      offset ← unsigned_sub (sf_start_line source) 1;
      let s := diag_span d in
      let span := mkSpan
        (mkPosition (saturating_sub (line (start s)) offset) (column (start s)))
        (mkPosition (saturating_sub (line (end_ s)) offset) (column (end_ s))) in
      Ok (mkDiagnostic (diag_kind d) (diag_message d) span (diag_help d) (Some (sf_path source)))
    end
  end.

(** ** Rendering *)

Definition quote : string := String "034"%char EmptyString.
Definition backslash : string := String "092"%char EmptyString.

Definition hex_digit (n : Z) : ascii :=
  Ascii.ascii_of_N (Z.to_N (if n <? 10 then 48 + n else 87 + n)).

(** [write!(escaped, "\\u{:04x}", character as u32)] for a control character. *)
Definition unicode_escape (c : char) : string :=
  backslash +:+ "u00" +:+ String (hex_digit (c / 16)) (String (hex_digit (c mod 16)) EmptyString).

Definition escape_char (c : char) : string :=
  if c =? 0x22 then backslash +:+ quote
  else if c =? 0x5c then backslash +:+ backslash
  else if c =? 0x08 then backslash +:+ "b"
  else if c =? 0x0c then backslash +:+ "f"
  else if c =? 0x0a then backslash +:+ "n"
  else if c =? 0x0d then backslash +:+ "r"
  else if c =? 0x09 then backslash +:+ "t"
  else if c <=? 0x1f then unicode_escape c
  else of_bytes (encode_char c).

Definition escape_json (value : string) : string :=
  fold_left (λ escaped c, escaped +:+ escape_char c) (chars value) "".

Definition newline : string := String "010"%char EmptyString.

Definition render (d : Diagnostic) (file : string) : string :=
  let file := default file (diag_file d) in
  let rendered :=
    file +:+ ":" +:+ display_Z (line (start (diag_span d))) +:+ ":"
    +:+ display_Z (column (start (diag_span d))) +:+ ": " +:+ label (diag_kind d)
    +:+ " error: " +:+ diag_message d in
  match diag_help d with
  | Some help => rendered +:+ newline +:+ "help: " +:+ help
  | None => rendered
  end.

Definition display (d : Diagnostic) : string :=
  label (diag_kind d) +:+ " error at " +:+ display_Z (line (start (diag_span d))) +:+ ":"
  +:+ display_Z (column (start (diag_span d))) +:+ ": " +:+ diag_message d.

(** A JSON string literal and an object member, as the format strings write them. *)
Definition json_string (s : string) : string := quote +:+ s +:+ quote.
Definition member (name value : string) : string := json_string name +:+ ":" +:+ value.
Definition object (members : list string) : string :=
  "{" +:+ String.concat "," members +:+ "}".
Definition position_json (p : Position) : string :=
  object [member "line" (display_Z (line p)); member "column" (display_Z (column p))].

Definition render_json (d : Diagnostic) (file : string) : string :=
  let file := default file (diag_file d) in
  let help := match diag_help d with
              | Some help => json_string (escape_json help)
              | None => "null"
              end in
  object [member "schema" (json_string "disp.diagnostic.v1");
          member "code" (json_string (code (diag_kind d)));
          member "severity" (json_string "error");
          member "stage" (json_string (label (diag_kind d)));
          member "message" (json_string (escape_json (diag_message d)));
          member "file" (json_string (escape_json file));
          member "span" (object [member "start" (position_json (start (diag_span d)));
                                 member "end" (position_json (end_ (diag_span d)))]);
          member "help" help].

Definition render_driver_json (c message : string) : string :=
  object [member "schema" (json_string "disp.diagnostic.v1");
          member "code" (json_string (escape_json c));
          member "severity" (json_string "error");
          member "stage" (json_string "driver");
          member "message" (json_string (escape_json message));
          member "file" "null"; member "span" "null"; member "help" "null"].

(** ** JSON strings

    A reader of the body of a JSON string (RFC 8259), up to and including the closing
    quote; the reference against which the escaping is checked. *)

Definition hex_value (c : char) : option Z :=
  if (48 <=? c) && (c <=? 57) then Some (c - 48)
  else if (97 <=? c) && (c <=? 102) then Some (c - 87)
  else if (65 <=? c) && (c <=? 70) then Some (c - 55)
  else None.

Definition simple_escape (c : char) : option char :=
  if (c =? 0x22) || (c =? 0x5c) || (c =? 0x2f) then Some c
  else if c =? 98 then Some 0x08 else if c =? 102 then Some 0x0c
  else if c =? 110 then Some 0x0a else if c =? 114 then Some 0x0d
  else if c =? 116 then Some 0x09 else None.

Fixpoint read_json_string (l : list char) : option (list char * list char) :=
  match l with
  | [] => None
  | c :: l =>
    if c =? 0x22 then Some ([], l)
    else if c =? 0x5c then
      match l with
      | e :: l =>
        if e =? 117 then
          match l with
          | h1 :: h2 :: h3 :: h4 :: l =>
            d1 ← hex_value h1; d2 ← hex_value h2; d3 ← hex_value h3; d4 ← hex_value h4;
            '(v, rest) ← read_json_string l;
            Some ((d1 * 4096 + d2 * 256 + d3 * 16 + d4) :: v, rest)
          | _ => None
          end
        else
          d ← simple_escape e;
          '(v, rest) ← read_json_string l;
          Some (d :: v, rest)
      | [] => None
      end
    else if c <? 0x20 then None
    else '(v, rest) ← read_json_string l; Some (c :: v, rest)
  end.

(** The characters [escape_char] emits. *)
Definition escape_chars (c : char) : list char :=
  if c =? 0x22 then [0x5c; 0x22] else if c =? 0x5c then [0x5c; 0x5c]
  else if c =? 0x08 then [0x5c; 98] else if c =? 0x0c then [0x5c; 102]
  else if c =? 0x0a then [0x5c; 110] else if c =? 0x0d then [0x5c; 114]
  else if c =? 0x09 then [0x5c; 116]
  else if c <=? 0x1f then
    [0x5c; 117; 48; 48; Z.of_N (Ascii.N_of_ascii (hex_digit (c / 16)));
     Z.of_N (Ascii.N_of_ascii (hex_digit (c mod 16)))]
  else [c].

(** A decidable fact about the control characters, checked on each of them. *)
Lemma control_char (P : Z → Prop) `{!∀ c, Decision (P c)} c :
  forallb (λ c, bool_decide (P c)) (map Z.of_nat (seq 0 32)) = true → 0 <= c <= 0x1f → P c.
Proof.
  rewrite forallb_forall. intros Hall Hc. apply (bool_decide_eq_true_1 (P c)), Hall, in_map_iff.
  exists (Z.to_nat c). split; [lia|]. apply in_seq. lia.
Qed.

Lemma escape_char_chars c : 0 <= c → escape_char c = of_chars (escape_chars c).
Proof.
  intros Hc. unfold escape_char, escape_chars.
  repeat match goal with |- context [if ?b then _ else _] => destruct b eqn:?; [try reflexivity|] end.
  - apply Z.leb_le in Heqb6.
    apply (control_char (λ c, unicode_escape c = of_chars
      [0x5c; 117; 48; 48; Z.of_N (Ascii.N_of_ascii (hex_digit (c / 16)));
       Z.of_N (Ascii.N_of_ascii (hex_digit (c mod 16)))])); [vm_compute; reflexivity|lia].
  - unfold of_chars. cbn. by rewrite app_nil_r.
Qed.

Lemma escape_json_chars l :
  scalars l → escape_json (of_chars l) = of_chars (concat (map escape_chars l)).
Proof.
  intros Hl. unfold escape_json. rewrite chars_of_chars by done.
  assert (∀ acc, fold_left (λ escaped c, escaped +:+ escape_char c) l (of_chars acc)
    = of_chars (acc ++ concat (map escape_chars l))) as H; [|exact (H [])].
  induction Hl as [|c l Hc Hl IH]; intros acc; cbn [fold_left map concat].
  - by rewrite app_nil_r.
  - apply is_scalar_range in Hc. rewrite escape_char_chars by lia.
    rewrite <- of_chars_app, IH. by rewrite app_assoc.
Qed.

Lemma escape_chars_scalars l : scalars l → scalars (concat (map escape_chars l)).
Proof.
  induction 1 as [|c l Hc Hl IH]; [constructor|]. cbn [map concat].
  apply Forall_app; split; [|done]. unfold escape_chars.
  repeat match goal with |- context [if ?b then _ else _] => destruct b eqn:?; [try (repeat constructor; fail)|] end.
  - apply is_scalar_range in Hc as Hr. apply Z.leb_le in Heqb6.
    apply (control_char (λ c, Forall (λ c, is_scalar c = true)
      [0x5c; 117; 48; 48; Z.of_N (Ascii.N_of_ascii (hex_digit (c / 16)));
       Z.of_N (Ascii.N_of_ascii (hex_digit (c mod 16)))])); [vm_compute; reflexivity|lia].
  - by repeat constructor.
Qed.

(** Reading back one escaped character. *)
Lemma read_escape_chars c l :
  is_scalar c = true →
  read_json_string (escape_chars c ++ l) = '(v, rest) ← read_json_string l; Some (c :: v, rest).
Proof.
  intros Hc%is_scalar_range. unfold escape_chars.
  destruct (Z.eqb_spec c 0x22) as [->|H1]; [done|]. destruct (Z.eqb_spec c 0x5c) as [->|H2]; [done|].
  destruct (Z.eqb_spec c 0x08) as [->|H3]; [done|]. destruct (Z.eqb_spec c 0x0c) as [->|H4]; [done|].
  destruct (Z.eqb_spec c 0x0a) as [->|H5]; [done|]. destruct (Z.eqb_spec c 0x0d) as [->|H6]; [done|].
  destruct (Z.eqb_spec c 0x09) as [->|H7]; [done|].
  destruct (Z.leb_spec c 0x1f) as [H8|H8].
  - set (a := Z.of_N (Ascii.N_of_ascii (hex_digit (c / 16)))).
    set (b := Z.of_N (Ascii.N_of_ascii (hex_digit (c mod 16)))).
    assert (hex_value a = Some (c / 16) ∧ hex_value b = Some (c mod 16)) as [Ha Hb].
    { split.
      - apply (control_char (λ c, hex_value (Z.of_N (Ascii.N_of_ascii (hex_digit (c / 16))))
          = Some (c / 16))); [vm_compute; reflexivity|lia].
      - apply (control_char (λ c, hex_value (Z.of_N (Ascii.N_of_ascii (hex_digit (c mod 16))))
          = Some (c mod 16))); [vm_compute; reflexivity|lia]. }
    clearbody a b. cbn [app read_json_string]. cbn. rewrite Ha, Hb. cbn.
    destruct (read_json_string l) as [[v rest]|]; cbn; [|done].
    repeat f_equal. pose proof (Z.div_mod c 16). lia.
  - cbn [app read_json_string]. rewrite (proj2 (Z.eqb_neq c 0x22)), (proj2 (Z.eqb_neq c 0x5c)) by done.
    by rewrite (proj2 (Z.ltb_ge c 0x20)) by lia.
Qed.

Lemma read_escaped l rest :
  scalars l → read_json_string (concat (map escape_chars l) ++ 0x22 :: rest) = Some (l, rest).
Proof.
  induction 1 as [|c l Hc Hl IH]; [done|]. cbn [map concat]. rewrite <- app_assoc.
  rewrite read_escape_chars by done. by rewrite IH.
Qed.

(** C8: Escaped text cannot leave its JSON string: a JSON reader at the opening
    quote of an escaped field reads back exactly the original text and stops at the
    closing quote the renderer wrote, whatever the text contains. *)
Theorem escape_json_round_trip text rest :
  scalars text → scalars rest →
  read_json_string (chars (escape_json (of_chars text) +:+ quote +:+ of_chars rest))
  = Some (text, rest).
Proof.
  intros Ht Hr. rewrite escape_json_chars by done.
  change quote with (of_chars [0x22]). rewrite <- !of_chars_app, chars_of_chars.
  - by apply read_escaped.
  - apply Forall_app; split; [by apply escape_chars_scalars|]. by constructor.
Qed.

Lemma escape_json_round_trip_witness :
  read_json_string (chars (escape_json (of_chars [0x61; 0x22; 0x0a; 1; 0x1F600])
    +:+ quote +:+ of_chars [0x2c; 0x7d]))
  = Some ([0x61; 0x22; 0x0a; 1; 0x1F600], [0x2c; 0x7d]).
Proof. apply escape_json_round_trip; by repeat constructor. Defined.
