(* ===== verification/Lexer.v ===== *)
(** * The lexer ([compiler/src/lexer.rs])

    The source is a vector of characters with a cursor and a position.  Loops run on
    fuel bounded by the characters left; running out of fuel and indexing past the
    end both yield [Panic], so panic freedom also says that the loops terminate. *)

From Stdlib Require Import Ascii.
From Stdlib Require Import Floats.SpecFloat.
From S2P Require Import Prelude Machine Utf8 Diagnostics.
#[local] Open Scope string_scope.
#[local] Open Scope list_scope.
#[local] Open Scope Z_scope.

(** ** Tokens *)

Abbreviation f64 := spec_float.

Inductive TokenKind :=
| Let | Var | Const | Fn | Return | If | Else | Match | For | In | While | Loop | Break
| Continue | Struct | Enum | Trait | Impl | TypeKw | Module_ | Use | As | Pub | Async | Await
| Spawn | Parallel | Move | Mut | Unsafe | Extern | Export | Data | Transaction | Page
| Component | Style | State | Route | Comptime | True_ | False_
| Identifier (s : string) | Integer (n : Z) | Float (f : f64) | String_ (s : string)
| Character (c : char)
| Plus | Minus | Star | Slash | Percent | Equal | EqualEqual | Bang | BangEqual | Less
| LessEqual | Greater | GreaterEqual | And | AndAnd | Or | OrOr | Caret | Tilde | PlusEqual
| MinusEqual | StarEqual | SlashEqual | ShiftLeft | ShiftRight | Arrow | FatArrow | Question
| LeftParen | RightParen | LeftBrace | RightBrace | LeftBracket | RightBracket | Comma | Dot
| Colon | Semicolon | Range | RangeInclusive | Eof.

Record Token := mkToken { token_kind : TokenKind; token_span : Span }.

#[export] Instance f64_eq_dec : EqDecision f64.
Proof. solve_decision. Defined.
#[export] Instance TokenKind_eq_dec : EqDecision TokenKind.
Proof. solve_decision. Defined.
#[export] Instance Token_eq_dec : EqDecision Token.
Proof. solve_decision. Defined.

(** ** Unicode tables

    [unicode_ident] and [unicode_normalization] are external crates. *)
Class Unicode := {
  is_xid_start : char → bool;
  is_xid_continue : char → bool;
  nfc : string → string }.

(** [char::is_whitespace]: the Unicode property [White_Space]. *)
Definition is_whitespace (c : char) : bool :=
  ((9 <=? c) && (c <=? 13)) || (c =? 0x20) || (c =? 0x85) || (c =? 0xA0) || (c =? 0x1680)
  || ((0x2000 <=? c) && (c <=? 0x200A)) || (c =? 0x2028) || (c =? 0x2029) || (c =? 0x202F)
  || (c =? 0x205F) || (c =? 0x3000).

Definition is_ascii_digit (c : char) : bool := (48 <=? c) && (c <=? 57).

(** ** Numbers *)

(** [str::parse::<u128>] on a non-empty run of digits. *)
Definition digits_value (l : list char) : Z := fold_left (λ v c, 10 * v + (c - 48)) l 0.
Definition parse_u128 (digits : list char) : option Z := try_from U128_MAX (digits_value digits).

(** The binary64 value nearest to [m * 10 ^ e], ties to even, overflowing to infinity:
    what [str::parse::<f64>] returns for a decimal literal. *)
Definition decimal_to_f64 (m : Z) (e : Z) : f64 :=
  match m with
  | Zpos p =>
    if 0 <=? e then binary_normalize 53 1024 (m * 10 ^ e) 0 false
    else
      match 10 ^ (- e) with
      | Zpos q =>
        let '(mz, ez, lz) := SFdiv_core_binary 53 1024 (Zpos p) 0 (Zpos q) 0 in
        binary_round_aux 53 1024 false mz ez lz
      | _ => S754_nan
      end
  | _ => S754_zero false
  end.

(** [str::parse::<f64>] on digits, an optional fraction and an optional exponent. *)
Fixpoint split_at_char (p : char → bool) (l : list char) : list char * option (char * list char) :=
  match l with
  | [] => ([], None)
  | c :: l => if p c then ([], Some (c, l))
              else let '(a, b) := split_at_char p l in (c :: a, b)
  end.
Definition parse_f64 (l : list char) : f64 :=
  let '(mantissa, exponent) := split_at_char (λ c, (c =? 101) || (c =? 69)) l in
  let '(whole, fraction) := split_at_char (λ c, c =? 46) mantissa in
  let fraction := match fraction with Some (_, f) => f | None => [] end in
  let exponent :=
    match exponent with
    | Some (_, 43 :: ds) => digits_value ds
    | Some (_, 45 :: ds) => - digits_value ds
    | Some (_, ds) => digits_value ds
    | None => 0
    end in
  decimal_to_f64 (digits_value (whole ++ fraction)) (exponent - zlen fraction).

(** ** The lexer state *)

Record Lexer := mkLexer { source : list char; current : nat; position : Position }.

Definition with_start_line (src : string) (start_line : Z) : Lexer :=
  mkLexer (chars src) 0 (mkPosition start_line 1).
Definition new (src : string) : Lexer := with_start_line src 1.

(** A method of the lexer that may return a diagnostic. *)
Definition L (A : Type) : Type := Lexer → outcome Diagnostic (A * Lexer).
#[export] Instance L_ret : MRet L := λ A a l, Ok (a, l).
#[export] Instance L_bind : MBind L := λ A B f m l,
  '(a, l') ← m l; f a l'.

Definition fail {A} (d : Diagnostic) : L A := λ _, Err d.
Definition get_position : L Position := λ l, Ok (position l, l).

Definition peek : L (option char) := λ l, Ok (source l !! current l, l).
Definition peek_next : L (option char) := λ l, Ok (source l !! S (current l), l).
Definition is_at_end : L bool := λ l, Ok (bool_decide (length (source l) <= current l)%nat, l).

Definition advance_position (c : char) (p : Position) : Position :=
  if c =? 10 then mkPosition (line p + 1) 1 else mkPosition (line p) (column p + 1).

Definition advance : L char := λ l,
  match source l !! current l with
  | Some c => Ok (c, mkLexer (source l) (S (current l)) (advance_position c (position l)))
  | None => Panic
  end.

Definition match_char (expected : char) : L bool :=
  p ← peek;
  if bool_decide (p ≠ Some expected) then mret false
  else _ ← advance; mret true.

Definition compound (next : char) (combined single : TokenKind) : L TokenKind :=
  m ← match_char next; mret (if (m : bool) then combined else single).

(** One more than the characters left. *)
Definition with_fuel {A} (f : nat → L A) : L A := λ l,
  f (S (length (source l) - current l))%nat l.

Definition char_text (c : char) : string := of_chars [c].
Definition lex_error {A} (m : string) (start : Position) : L A :=
  p ← get_position; fail (new_diagnostic Lex m (mkSpan start p)).

(** ** Whitespace and comments *)

Fixpoint skip_line_comment (fuel : nat) : L unit :=
  match fuel with
  | O => λ _, Panic
  | S fuel =>
    p ← peek;
    match p with
    | Some c => if c =? 10 then mret tt else _ ← advance; skip_line_comment fuel
    | None => mret tt
    end
  end.

(** The loop over a block comment; returns the nesting depth it ended with. *)
Fixpoint skip_block_comment (fuel : nat) (depth : Z) : L Z :=
  match fuel with
  | O => λ _, Panic
  | S fuel =>
    e ← is_at_end;
    if (depth =? 0) || e then mret depth
    else
      p ← peek; q ← peek_next;
      if bool_decide (p = Some 47) && bool_decide (q = Some 42) then
        _ ← advance; _ ← advance; skip_block_comment fuel (depth + 1)
      else if bool_decide (p = Some 42) && bool_decide (q = Some 47) then
        _ ← advance; _ ← advance; skip_block_comment fuel (depth - 1)
      else
        _ ← advance; skip_block_comment fuel depth
  end.

Fixpoint skip_whitespace_and_comments (fuel : nat) : L unit :=
  match fuel with
  | O => λ _, Panic
  | S fuel =>
    p ← peek; q ← peek_next;
    match p with
    | Some c =>
      if is_whitespace c then _ ← advance; skip_whitespace_and_comments fuel
      else if (c =? 47) && bool_decide (q = Some 47) then
        _ ← with_fuel skip_line_comment; skip_whitespace_and_comments fuel
      else if (c =? 47) && bool_decide (q = Some 42) then
        start ← get_position;
        _ ← advance; _ ← advance;
        depth ← with_fuel (λ fuel, skip_block_comment fuel 1);
        if depth =? 0 then skip_whitespace_and_comments fuel
        else lex_error "unterminated block comment" start
      else mret tt
    | None => mret tt
    end
  end.

(** ** Literals *)

Definition read_escape (start : Position) : L char :=
  e ← is_at_end;
  if (e : bool) then lex_error "incomplete escape sequence" start
  else
    escaped ← advance;
    if escaped =? chr "n" then mret 10
    else if escaped =? chr "r" then mret 13
    else if escaped =? chr "t" then mret 9
    else if escaped =? chr "0" then mret 0
    else if escaped =? 92 then mret 92
    else if escaped =? 34 then mret 34
    else if escaped =? 39 then mret 39
    else lex_error ("unknown escape sequence `" +:+ backslash +:+ char_text escaped +:+ "`") start.

Fixpoint read_string (fuel : nat) (start : Position) (value : string) : L string :=
  match fuel with
  | O => λ _, Panic
  | S fuel =>
    e ← is_at_end;
    if (e : bool) then lex_error "unterminated string literal at end of file" start
    else
      c ← advance;
      if c =? 34 then mret value
      else if c =? 92 then
        v ← read_escape start; read_string fuel start (push_char value v)
      else if c =? 10 then lex_error "unterminated string literal" start
      else read_string fuel start (push_char value c)
  end.

Definition read_character (start : Position) : L char :=
  e ← is_at_end; p ← peek;
  if e || bool_decide (p = Some 10) then lex_error "unterminated character literal" start
  else
    value ← (if bool_decide (p = Some 92) then _ ← advance; read_escape start else advance);
    m ← match_char 39;
    if (m : bool) then mret value
    else lex_error "character literal must contain exactly one Unicode scalar value" start.

Definition invalid_number {A} (value : string) (start : Position) (reason : string) : L A :=
  lex_error ("invalid numeric literal `" +:+ value +:+ "`: " +:+ reason) start.

Definition is_digit_opt (p : option char) : bool :=
  match p with Some c => is_ascii_digit c | None => false end.

Fixpoint read_digit_run (fuel : nat) (start : Position) (previous_was_separator : bool)
    (value : string) : L string :=
  match fuel with
  | O => λ _, Panic
  | S fuel =>
    p ← peek; q ← peek_next;
    match p with
    | None => mret value
    | Some c =>
      if is_ascii_digit c then
        c ← advance; read_digit_run fuel start false (push_char value c)
      else if c =? chr "_" then
        if previous_was_separator || negb (is_digit_opt q) then
          c ← advance;
          invalid_number (push_char value c) start "numeric separators must appear between digits"
        else c ← advance; read_digit_run fuel start true (push_char value c)
      else mret value
    end
  end.

(** [value.replace('_', "")]. *)
Definition without_separators (value : string) : list char :=
  List.filter (λ c, negb (c =? chr "_")) (chars value).

(** The fraction part: (value, is_float). *)
Definition read_fraction (start : Position) (value : string) : L (string * bool) :=
  p ← peek; q ← peek_next;
  if bool_decide (p = Some 46) && is_digit_opt q then
    c ← advance;
    first_fraction ← advance;
    value ← with_fuel (λ fuel,
      read_digit_run fuel start false (push_char (push_char value c) first_fraction));
    mret (value, true)
  else mret (value, false).

Definition read_exponent (start : Position) (value : string) : L (string * bool) :=
  p ← peek;
  if bool_decide (p = Some (chr "e")) || bool_decide (p = Some (chr "E")) then
    c ← advance;
    s ← peek;
    value ← (if bool_decide (s = Some 43) || bool_decide (s = Some 45)
             then sign ← advance; mret (push_char (push_char value c) sign)
             else mret (push_char value c));
    d ← peek;
    if negb (is_digit_opt d) then invalid_number value start "exponent requires digits"
    else
      digit ← advance;
      value ← with_fuel (λ fuel, read_digit_run fuel start false (push_char value digit));
      mret (value, true)
  else mret (value, false).

(** [clean.parse::<f64>()] accepts every literal of this shape. *)
Definition read_number (first : char) (start : Position) : L TokenKind :=
  value ← with_fuel (λ fuel, read_digit_run fuel start false (char_text first));
  '(value, fractional) ← read_fraction start value;
  '(value, exponential) ← read_exponent start value;
  let clean := without_separators value in
  if fractional || exponential then mret (Float (parse_f64 clean))
  else
    match parse_u128 clean with
    | Some n => mret (Integer n)
    | None => invalid_number value start "integer value is outside the `int` range"
    end.

(** ** Identifiers, keywords and the main loop *)

Definition keywords : list (string * TokenKind) :=
  [("let", Let); ("var", Var); ("const", Const); ("fn", Fn); ("return", Return); ("if", If);
   ("else", Else); ("match", Match); ("for", For); ("in", In); ("while", While); ("loop", Loop);
   ("break", Break); ("continue", Continue); ("struct", Struct); ("enum", Enum); ("trait", Trait);
   ("impl", Impl); ("type", TypeKw); ("module", Module_); ("use", Use); ("as", As); ("pub", Pub);
   ("async", Async); ("await", Await); ("spawn", Spawn); ("parallel", Parallel); ("move", Move);
   ("mut", Mut); ("unsafe", Unsafe); ("extern", Extern); ("export", Export); ("data", Data);
   ("transaction", Transaction); ("page", Page); ("component", Component); ("style", Style);
   ("state", State); ("route", Route); ("comptime", Comptime); ("true", True_); ("false", False_)].

Definition keyword (value : string) : option TokenKind :=
  snd <$> List.find (λ kw, String.eqb (fst kw) value) keywords.

Section lexer.
Context `{Unicode}.

Definition is_identifier_start (c : char) : bool := (c =? chr "_") || is_xid_start c.
Definition is_identifier_continue (c : char) : bool := (c =? chr "_") || is_xid_continue c.

Fixpoint read_identifier_rest (fuel : nat) (value : string) : L string :=
  match fuel with
  | O => λ _, Panic
  | S fuel =>
    p ← peek;
    match p with
    | Some c =>
      if is_identifier_continue c then
        c ← advance; read_identifier_rest fuel (push_char value c)
      else mret value
    | None => mret value
    end
  end.

Definition read_identifier (first : char) (start : Position) : L TokenKind :=
  value ← with_fuel (λ fuel, read_identifier_rest fuel (char_text first));
  let normalized := nfc value in
  if negb (String.eqb normalized value) then
    p ← get_position;
    fail (with_help
      (new_diagnostic Lex ("identifier `" +:+ value +:+ "` is not in Unicode NFC form")
        (mkSpan start p))
      ("write the identifier as `" +:+ normalized +:+ "`"))
  else
    match keyword value with
    | Some k => mret k
    | None => mret (Identifier value)
    end.

(** The [match] on the first character of a token. *)
Definition read_token (c : char) (start : Position) : L TokenKind :=
  if c =? chr "(" then mret LeftParen
  else if c =? chr ")" then mret RightParen
  else if c =? chr "{" then mret LeftBrace
  else if c =? chr "}" then mret RightBrace
  else if c =? chr "[" then mret LeftBracket
  else if c =? chr "]" then mret RightBracket
  else if c =? chr "," then mret Comma
  else if c =? chr ":" then mret Colon
  else if c =? chr ";" then mret Semicolon
  else if c =? chr "+" then compound (chr "=") PlusEqual Plus
  else if c =? chr "-" then
    m ← match_char (chr ">");
    if (m : bool) then mret Arrow else compound (chr "=") MinusEqual Minus
  else if c =? chr "*" then compound (chr "=") StarEqual Star
  else if c =? chr "/" then compound (chr "=") SlashEqual Slash
  else if c =? chr "%" then mret Percent
  else if c =? chr "=" then
    m ← match_char (chr ">");
    if (m : bool) then mret FatArrow else compound (chr "=") EqualEqual Equal
  else if c =? chr "!" then compound (chr "=") BangEqual Bang
  else if c =? chr "<" then
    m ← match_char (chr "=");
    if (m : bool) then mret LessEqual else compound (chr "<") ShiftLeft Less
  else if c =? chr ">" then
    m ← match_char (chr "=");
    if (m : bool) then mret GreaterEqual else compound (chr ">") ShiftRight Greater
  else if c =? chr "&" then compound (chr "&") AndAnd And
  else if c =? chr "|" then compound (chr "|") OrOr Or
  else if c =? chr "^" then mret Caret
  else if c =? chr "~" then mret Tilde
  else if c =? chr "?" then mret Question
  else if c =? chr "." then
    m ← match_char (chr ".");
    if (m : bool) then compound (chr "=") RangeInclusive Range else mret Dot
  else if c =? 34 then
    s ← with_fuel (λ fuel, read_string fuel start ""); mret (String_ s)
  else if c =? 39 then v ← read_character start; mret (Character v)
  else if is_ascii_digit c then read_number c start
  else if is_identifier_start c then read_identifier c start
  else lex_error ("unexpected character `" +:+ char_text c +:+ "`") start.

(** The [while] loop of [tokenize]. *)
Fixpoint tokenize_loop (fuel : nat) (tokens : list Token) : L (list Token) :=
  match fuel with
  | O => λ _, Panic
  | S fuel =>
    e ← is_at_end;
    if (e : bool) then mret tokens
    else
      _ ← with_fuel skip_whitespace_and_comments;
      e ← is_at_end;
      if (e : bool) then mret tokens
      else
        start ← get_position;
        character ← advance;
        kind ← read_token character start;
        p ← get_position;
        tokenize_loop fuel (tokens ++ [mkToken kind (mkSpan start p)])
  end.

Definition tokenize : L (list Token) :=
  tokens ← with_fuel (λ fuel, tokenize_loop fuel []);
  p ← get_position;
  mret (tokens ++ [mkToken Eof (mkSpan p p)]).

(** [Lexer::new(source).tokenize()] *)
Definition lex (src : string) : outcome Diagnostic (list Token) :=
  '(tokens, _) ← tokenize (new src); Ok tokens.
End lexer.
