(* ===== verification/LexerProps.v ===== *)
(** * Correctness of the lexer

    The lexer returns on every source, the spans it reports are the exact positions
    of the characters it consumed, and printing a sequence of tokens and lexing the
    text gives the sequence back. *)

From Stdlib Require Import Ascii.
From S2P Require Import Prelude Machine Utf8 Diagnostics Lexer.
#[local] Open Scope string_scope.
#[local] Open Scope list_scope.
#[local] Open Scope Z_scope.

(** ** Progress of the cursor *)

Definition wf (l : Lexer) : Prop := (current l <= length (source l))%nat.
Definition remaining (l : Lexer) : nat := (length (source l) - current l)%nat.

(** The position after reading [cs] from [p]. *)
Definition move (p : Position) (cs : list char) : Position :=
  fold_left (λ p c, advance_position c p) cs p.

(** [l'] is [l] after it consumed the characters between the two cursors. *)
Definition ahead (l l' : Lexer) : Prop :=
  source l' = source l ∧ (current l <= current l' <= length (source l))%nat ∧
  position l' = move (position l) (drop (current l) (take (current l') (source l))).

Lemma ahead_refl l : wf l → ahead l l.
Proof.
  intros Hl. split; [done|]. split; [unfold wf in *; lia|].
  rewrite drop_ge; [done|]. rewrite length_take. lia.
Qed.

Lemma take_segment {A} (s : list A) (a b c : nat) :
  (a <= b <= c)%nat → drop a (take c s) = drop a (take b s) ++ drop b (take c s).
Proof.
  intros H. rewrite <- (take_drop b (take c s)) at 1. rewrite take_take.
  replace (Nat.min b c) with b by lia.
  destruct (decide (b <= length s)%nat).
  - rewrite drop_app_le; [done|]. rewrite length_take. lia.
  - rewrite (drop_ge (take c s) b) by (rewrite length_take; lia). by rewrite !app_nil_r.
Qed.

Lemma ahead_trans l1 l2 l3 : ahead l1 l2 → ahead l2 l3 → ahead l1 l3.
Proof.
  intros (Hs1 & Hc1 & Hp1) (Hs2 & Hc2 & Hp2). rewrite Hs1 in Hs2, Hc2, Hp2.
  split; [congruence|]. split; [lia|].
  rewrite Hp2, Hp1, (take_segment _ (current l1) (current l2) (current l3)) by lia.
  unfold move. by rewrite fold_left_app.
Qed.

Lemma ahead_wf l l' : ahead l l' → wf l'.
Proof. intros (Hs & Hc & _). unfold wf. rewrite Hs. lia. Qed.

(** [lsafe m l Q]: [m] does not panic at [l]; on success it only moved ahead, to a
    state and a value that satisfy [Q]. *)
Definition lsafe {A} (m : L A) (l : Lexer) (Q : A → Lexer → Prop) : Prop :=
  match m l with Ok (a, l') => ahead l l' ∧ Q a l' | Err _ => True | Panic => False end.

Lemma lsafe_bind {A B} (m : L A) (f : A → L B) l (Q : A → Lexer → Prop) R :
  lsafe m l Q → (∀ a l', ahead l l' → Q a l' → lsafe (f a) l' R) → lsafe (m ≫= f) l R.
Proof.
  unfold lsafe, mbind, L_bind. destruct (m l) as [[a l']|e|]; cbn; [|done|done].
  intros [Ha Hq] Hf. specialize (Hf a l' Ha Hq). destruct (f a l') as [[b l'']|e|]; [|done|done].
  destruct Hf as [Ha' Hr]. split; [by eapply ahead_trans|done].
Qed.

Lemma lsafe_ret {A} (a : A) l (Q : A → Lexer → Prop) : wf l → Q a l → lsafe (mret a) l Q.
Proof. intros Hl Hq. split; [by apply ahead_refl|done]. Qed.

Lemma lsafe_mono {A} (m : L A) l (Q R : A → Lexer → Prop) :
  lsafe m l Q → (∀ a l', ahead l l' → Q a l' → R a l') → lsafe m l R.
Proof. unfold lsafe. destruct (m l) as [[a l']|e|]; naive_solver. Qed.

Lemma lsafe_error {A} m start l (Q : A → Lexer → Prop) : lsafe (lex_error m start) l Q.
Proof. done. Qed.
Lemma lsafe_fail {A} d l (Q : A → Lexer → Prop) : lsafe (fail d) l Q.
Proof. done. Qed.

Lemma lsafe_peek l : wf l → lsafe peek l (λ p l', l' = l ∧ p = source l !! current l).
Proof. intros. split; [by apply ahead_refl|done]. Qed.
Lemma lsafe_peek_next l : wf l → lsafe peek_next l (λ p l', l' = l ∧ p = source l !! S (current l)).
Proof. intros. split; [by apply ahead_refl|done]. Qed.
Lemma lsafe_is_at_end l :
  wf l → lsafe is_at_end l (λ b l', l' = l ∧ b = bool_decide (length (source l) <= current l)%nat).
Proof. intros. split; [by apply ahead_refl|done]. Qed.
Lemma lsafe_get_position l : wf l → lsafe get_position l (λ p l', l' = l ∧ p = position l).
Proof. intros. split; [by apply ahead_refl|done]. Qed.

Lemma lsafe_advance l :
  (current l < length (source l))%nat →
  lsafe advance l (λ c l', source l !! current l = Some c ∧ current l' = S (current l)).
Proof.
  intros Hl. unfold lsafe, advance. destruct (source l !! current l) as [c|] eqn:Hc.
  - split; [|done]. split; [done|]. cbn. split; [lia|].
    rewrite (take_S_r _ _ c) by done. rewrite drop_app_ge by (rewrite length_take; lia).
    rewrite length_take. by replace (current l - Nat.min (current l) (length (source l)))%nat with 0%nat by lia.
  - apply lookup_ge_None in Hc. lia.
Qed.

(** The cursor moves by at most the characters left. *)
Lemma ahead_remaining l l' : ahead l l' → (remaining l' + current l' = remaining l + current l)%nat.
Proof. intros (Hs & Hc & _). unfold remaining. rewrite Hs. lia. Qed.
Lemma ahead_current l l' : ahead l l' → (current l <= current l')%nat.
Proof. intros (_ & Hc & _). lia. Qed.

Lemma lsafe_with_fuel {A} (f : nat → L A) l Q :
  lsafe (f (S (remaining l))) l Q → lsafe (with_fuel f) l Q.
Proof. done. Qed.

Lemma in_range l c : source l !! current l = Some c → (current l < length (source l))%nat.
Proof. apply lookup_lt_Some. Qed.

Lemma is_digit_opt_some p : is_digit_opt p = true ↔ ∃ c, p = Some c ∧ is_ascii_digit c = true.
Proof. destruct p as [c|]; cbn; naive_solver. Qed.

(** One step of a method: the primitive calls, branching, and returning. *)
Ltac lx_known Ha :=
  let Hw := fresh "Hw" in pose proof (ahead_wf _ _ Ha) as Hw;
  let Hm := fresh "Hm" in pose proof (ahead_remaining _ _ Ha) as Hm;
  let Hn := fresh "Hn" in pose proof (ahead_current _ _ Ha) as Hn.
Ltac lx_in_range :=
  reflect_bools;
  repeat match goal with
  | H : (_ || _)%bool = true |- _ => apply orb_true_iff in H as [H|H]; reflect_bools
  | H : is_digit_opt _ = true |- _ => apply is_digit_opt_some in H as (? & H & _)
  end;
  repeat match goal with H : source _ !! _ = Some _ |- _ => apply lookup_lt_Some in H end;
  unfold remaining, wf in *; lia.
Ltac lx_step :=
  match goal with
  | |- lsafe (peek ≫= _) _ _ =>
      eapply lsafe_bind; [apply lsafe_peek; assumption|]; intros ? ? _ [-> ->]; cbv beta
  | |- lsafe (peek_next ≫= _) _ _ =>
      eapply lsafe_bind; [apply lsafe_peek_next; assumption|]; intros ? ? _ [-> ->]; cbv beta
  | |- lsafe (is_at_end ≫= _) _ _ =>
      eapply lsafe_bind; [apply lsafe_is_at_end; assumption|]; intros ? ? _ [-> ->]; cbv beta
  | |- lsafe (get_position ≫= _) _ _ =>
      eapply lsafe_bind; [apply lsafe_get_position; assumption|]; intros ? ? _ [-> ->]; cbv beta
  | |- lsafe (advance ≫= _) _ _ =>
      eapply lsafe_bind; [apply lsafe_advance; lx_in_range|];
      let Ha := fresh "Ha" in let Hc := fresh "Hc" in let Hk := fresh "Hk" in
      intros ? ? Ha [Hc Hk]; lx_known Ha; cbv beta
  | |- lsafe advance _ _ => eapply lsafe_mono; [apply lsafe_advance; lx_in_range|]
  | |- lsafe (mret _) _ _ => apply lsafe_ret; [assumption|]
  | |- lsafe (lex_error _ _) _ _ => exact I
  | |- lsafe (invalid_number _ _ _) _ _ => exact I
  | |- lsafe (fail _) _ _ => exact I
  | |- lsafe (match source ?l !! current ?l with _ => _ end) _ _ =>
      let E := fresh "E" in destruct (source l !! current l) eqn:E
  | |- lsafe (if ?b then _ else _) _ _ => let E := fresh "E" in destruct b eqn:E
  end.
Ltac lx := repeat lx_step.

(** ** Every method terminates without panicking *)

Lemma skip_line_comment_safe fuel l :
  wf l → (remaining l < fuel)%nat →
  lsafe (skip_line_comment fuel) l (λ _ l', ∀ c, source l !! current l = Some c → c ≠ 10 →
    (current l < current l')%nat).
Proof.
  revert l; induction fuel as [|fuel IH]; intros l Hl Hf; [lia|]. cbn [skip_line_comment].
  lx.
  - reflect_bools. intros c Hc. congruence.
  - eapply lsafe_mono; [apply IH; [done|lia]|]. intros _ n1 Ha' _ c _ _.
    apply ahead_current in Ha'. lia.
  - intros c. congruence.
Qed.

Lemma skip_block_comment_safe fuel depth l :
  wf l → (remaining l < fuel)%nat → lsafe (skip_block_comment fuel depth) l (λ _ _, True).
Proof.
  revert depth l; induction fuel as [|fuel IH]; intros depth l Hl Hf; [lia|].
  cbn [skip_block_comment]. lx; try done; apply IH; (done || lia).
Qed.

Lemma skip_whitespace_and_comments_safe fuel l :
  wf l → (remaining l < fuel)%nat → lsafe (skip_whitespace_and_comments fuel) l (λ _ _, True).
Proof.
  revert l; induction fuel as [|fuel IH]; intros l Hl Hf; [lia|].
  cbn [skip_whitespace_and_comments]. lx; try done.
  - apply IH; [done|lia].
  - eapply lsafe_bind; [apply lsafe_with_fuel, skip_line_comment_safe; [done|lia]|].
    intros u n1 Ha0 Hp. lx_known Ha0. apply IH; [done|]. reflect_bools.
    match goal with E : source l !! current l = Some _ |- _ => specialize (Hp _ E) end. lia.
  - eapply lsafe_bind; [apply lsafe_with_fuel, skip_block_comment_safe; [done|lia]|].
    intros d n1 Ha1 _. lx_known Ha1. lx. apply IH; [done|lia].
Qed.

Lemma read_escape_safe start l :
  wf l → lsafe (read_escape start) l (λ _ l', (current l < current l')%nat).
Proof. intros Hl. unfold read_escape. lx; lia. Qed.

Lemma read_string_safe fuel start value l :
  wf l → (remaining l < fuel)%nat → lsafe (read_string fuel start value) l (λ _ _, True).
Proof.
  revert value l; induction fuel as [|fuel IH]; intros value l Hl Hf; [lia|]. cbn [read_string].
  lx; try done.
  - eapply lsafe_bind; [by apply read_escape_safe|]. intros v n1 Ha1 Hlt. lx_known Ha1.
    apply IH; [done|lia].
  - apply IH; [done|lia].
Qed.

Lemma match_char_safe c l :
  wf l → lsafe (match_char c) l (λ _ _, True).
Proof.
  intros Hl. unfold match_char. lx_step. destruct (bool_decide _) eqn:E; [by lx|].
  apply bool_decide_eq_false, dec_stable in E. by lx.
Qed.

Lemma compound_safe c k1 k2 l : wf l → lsafe (compound c k1 k2) l (λ _ _, True).
Proof.
  intros Hl. unfold compound. eapply lsafe_bind; [by apply match_char_safe|].
  intros b n1 Ha1 _. lx_known Ha1. by lx.
Qed.

Lemma read_character_safe start l : wf l → lsafe (read_character start) l (λ _ _, True).
Proof.
  intros Hl. unfold read_character. lx; try done.
  eapply (lsafe_bind _ _ _ (λ _ _, True)).
  - lx; [|done]. eapply lsafe_mono; [by apply read_escape_safe|done].
  - intros v n1 Ha1 _. lx_known Ha1. eapply lsafe_bind; [by apply match_char_safe|].
    intros b n2 Ha2 _. lx_known Ha2. by lx.
Qed.

Lemma read_digit_run_safe fuel start prev value l :
  wf l → (remaining l < fuel)%nat → lsafe (read_digit_run fuel start prev value) l (λ _ _, True).
Proof.
  revert prev value l; induction fuel as [|fuel IH]; intros prev value l Hl Hf; [lia|].
  cbn [read_digit_run]. lx; try done; apply IH; (done || lia).
Qed.

Lemma read_fraction_safe start value l : wf l → lsafe (read_fraction start value) l (λ _ _, True).
Proof.
  intros Hl. unfold read_fraction. lx; try done.
  eapply lsafe_bind; [apply lsafe_with_fuel, read_digit_run_safe; [done|lia]|].
  intros v n1 Ha1 _. lx_known Ha1. by lx.
Qed.

Lemma read_exponent_safe start value l : wf l → lsafe (read_exponent start value) l (λ _ _, True).
Proof.
  intros Hl. unfold read_exponent. lx; try done.
  eapply (lsafe_bind _ _ _ (λ _ _, True)); [by lx|].
  intros v n1 Ha1 _. lx_known Ha1. lx.
  eapply lsafe_bind; [apply lsafe_with_fuel, read_digit_run_safe; [done|lia]|].
  intros w n2 Ha2 _. lx_known Ha2. by lx.
Qed.

Lemma read_number_safe c start l : wf l → lsafe (read_number c start) l (λ _ _, True).
Proof.
  intros Hl. unfold read_number.
  eapply lsafe_bind; [apply lsafe_with_fuel, read_digit_run_safe; [done|lia]|].
  intros v n1 Ha1 _. lx_known Ha1.
  eapply lsafe_bind; [by apply read_fraction_safe|]. intros [v1 f1] n2 Ha2 _. lx_known Ha2.
  eapply lsafe_bind; [by apply read_exponent_safe|]. intros [v2 f2] n3 Ha3 _. lx_known Ha3.
  cbv zeta. destruct (_ || _); [by lx|]. destruct (parse_u128 _); by lx.
Qed.

Section unicode.
Context `{Unicode}.

Lemma read_identifier_rest_safe fuel value l :
  wf l → (remaining l < fuel)%nat → lsafe (read_identifier_rest fuel value) l (λ _ _, True).
Proof.
  revert value l; induction fuel as [|fuel IH]; intros value l Hl Hf; [lia|].
  cbn [read_identifier_rest]. lx; try done; apply IH; (done || lia).
Qed.

Lemma read_identifier_safe c start l : wf l → lsafe (read_identifier c start) l (λ _ _, True).
Proof.
  intros Hl. unfold read_identifier.
  eapply lsafe_bind; [apply lsafe_with_fuel, read_identifier_rest_safe; [done|lia]|].
  intros v n1 Ha1 _. lx_known Ha1. cbv zeta. destruct (negb _); [by lx|].
  destruct (keyword v); by lx.
Qed.

Lemma match_then_safe c (a b : L TokenKind) l :
  wf l → (∀ l, wf l → lsafe a l (λ _ _, True)) → (∀ l, wf l → lsafe b l (λ _ _, True)) →
  lsafe (m ← match_char c; if (m : bool) then a else b) l (λ _ _, True).
Proof.
  intros Hl Ha Hb. eapply lsafe_bind; [by apply match_char_safe|].
  intros m n1 Ha1 _. lx_known Ha1. destruct m; auto.
Qed.

Lemma read_token_safe c start l : wf l → lsafe (read_token c start) l (λ _ _, True).
Proof.
  intros Hl. unfold read_token.
  repeat match goal with |- lsafe (if ?b then _ else _) _ _ => destruct b end;
    try (by lx); try (by apply compound_safe); try (by apply read_number_safe);
    try (by apply read_identifier_safe);
    try (apply match_then_safe; [done|..]; intros n Hn; first [by lx | by apply compound_safe]).
  - eapply lsafe_bind; [apply lsafe_with_fuel, read_string_safe; [done|lia]|].
    intros v n1 Ha1 _. lx_known Ha1. by lx.
  - eapply lsafe_bind; [by apply read_character_safe|]. intros v n1 Ha1 _. lx_known Ha1. by lx.
Qed.

(** ** Spans *)

(** The position of the [k]-th character of the source. *)
Definition pos_of (p0 : Position) (src : list char) (k : nat) : Position := move p0 (take k src).

(** Tokens that lie in order between the offsets [k] and [k'], each spanning at least
    one character and reporting the positions of its first character and of the
    character after it. *)
Inductive spans (p0 : Position) (src : list char) : nat → list Token → nat → Prop :=
| spans_nil k k' : (k <= k')%nat → spans p0 src k [] k'
| spans_cons k a b k' kind ts :
    (k <= a < b)%nat → (b <= length src)%nat → spans p0 src b ts k' →
    spans p0 src k (mkToken kind (mkSpan (pos_of p0 src a) (pos_of p0 src b)) :: ts) k'.

Lemma spans_snoc p0 src k ts m a b kind :
  spans p0 src k ts m → (m <= a < b)%nat → (b <= length src)%nat →
  spans p0 src k (ts ++ [mkToken kind (mkSpan (pos_of p0 src a) (pos_of p0 src b))]) b.
Proof.
  induction 1 as [k k' Hk|k a' b' k' kind' ts Ha Hb _ IH]; intros Hab Hlen; cbn.
  - constructor; [lia|done|]. by constructor.
  - constructor; auto.
Qed.

Lemma spans_end p0 src k ts m m' : spans p0 src k ts m → (m <= m')%nat → spans p0 src k ts m'.
Proof. induction 1; intros; constructor; auto; lia. Qed.

Definition positioned (p0 : Position) (l : Lexer) : Prop :=
  position l = pos_of p0 (source l) (current l).

Lemma ahead_positioned p0 l l' : ahead l l' → positioned p0 l → positioned p0 l'.
Proof.
  intros (Hs & Hc & Hp) Hl. unfold positioned, pos_of in *. rewrite Hp, Hl, Hs.
  unfold move. rewrite <- fold_left_app. f_equal.
  rewrite <- (take_drop (current l) (take (current l') (source l))) at 2.
  rewrite take_take. by replace (Nat.min (current l) (current l')) with (current l) by lia.
Qed.

Lemma tokenize_loop_safe p0 fuel tokens l :
  wf l → positioned p0 l → (remaining l < fuel)%nat →
  spans p0 (source l) 0 tokens (current l) →
  lsafe (tokenize_loop fuel tokens) l (λ ts l',
    current l' = length (source l) ∧ spans p0 (source l) 0 ts (length (source l))).
Proof.
  revert tokens l; induction fuel as [|fuel IH]; intros tokens l Hl Hpos Hf Hts; [lia|].
  assert (∀ l', ahead l l' → bool_decide (length (source l') <= current l')%nat = true →
    current l' = length (source l) ∧ spans p0 (source l) 0 tokens (length (source l))) as Hend.
  { intros l' (Hs & Hc & _) E. reflect_bools. rewrite Hs in E. split; [lia|].
    eapply spans_end; [exact Hts|lia]. }
  cbn [tokenize_loop]. lx_step. lx_step.
  { apply lsafe_ret; [done|]. apply Hend; [by apply ahead_refl|done]. }
  eapply lsafe_bind; [apply lsafe_with_fuel, skip_whitespace_and_comments_safe; [done|lia]|].
  intros _ l1 Ha1 _. lx_known Ha1. lx_step. lx_step.
  { apply lsafe_ret; [done|]. by apply Hend. }
  lx_step. lx_step.
  match goal with H : ahead l1 ?x |- _ => rename x into l2; rename H into Ha2 end.
  eapply lsafe_bind; [by apply read_token_safe|]. intros kind l3 Ha3 _. lx_known Ha3. lx_step.
  assert (ahead l l3) as Ha by (eapply ahead_trans; [exact Ha1|]; eapply ahead_trans; done).
  pose proof (proj1 Ha1) as Hs1. pose proof (proj1 Ha) as Hs3.
  assert (position l1 = pos_of p0 (source l) (current l1)) as ->.
  { rewrite <- Hs1. by eapply ahead_positioned. }
  assert (position l3 = pos_of p0 (source l) (current l3)) as Hp3.
  { rewrite <- Hs3. by eapply ahead_positioned. }
  rewrite Hp3. rewrite <- Hs3. apply IH; [done| |lia|].
  - by eapply ahead_positioned.
  - rewrite Hs3. apply spans_snoc with (current l); [done|lia|].
    unfold wf in *. rewrite Hs3 in *. done.
Qed.

Lemma tokenize_safe src start_line :
  lsafe tokenize (with_start_line src start_line) (λ tokens _, ∃ ts,
    let p0 := mkPosition start_line 1 in let n := length (chars src) in
    tokens = ts ++ [mkToken Eof (mkSpan (pos_of p0 (chars src) n) (pos_of p0 (chars src) n))] ∧
    spans p0 (chars src) 0 ts n).
Proof.
  set (l := with_start_line src start_line). set (p0 := mkPosition start_line 1).
  assert (wf l) as Hl by (unfold wf; cbn; lia).
  assert (positioned p0 l) as Hp by done.
  unfold tokenize. eapply lsafe_bind.
  { apply lsafe_with_fuel, (tokenize_loop_safe p0); [done|done|lia|]. constructor. cbn. lia. }
  intros ts l1 Ha [Hend Hts]. lx_known Ha. lx_step. apply lsafe_ret; [done|].
  exists ts. cbn in Hend, Hts. split; [|done].
  apply (ahead_positioned p0) in Ha as Hp1; [|done]. unfold positioned in Hp1.
  destruct Ha as (Hs & _). by rewrite Hp1, Hs, Hend.
Qed.

(** The lexer terminates on every source text, without an out-of-range access,
    with tokens or with a diagnostic. *)
Theorem lexer_total src start_line : tokenize (with_start_line src start_line) ≠ Panic.
Proof.
  pose proof (tokenize_safe src start_line) as Hs. unfold lsafe in Hs.
  by destruct (tokenize _).
Qed.

(** C9: The tokens of a source come in source order without overlap, every token
    but the last covers at least one character, each span holds exactly the positions
    of the token's first character and of the one after its last, and the last token
    is the end-of-file token at the end of the source. *)
Theorem lexer_spans src start_line tokens l :
  tokenize (with_start_line src start_line) = Ok (tokens, l) →
  let p0 := mkPosition start_line 1 in let n := length (chars src) in
  ∃ ts, tokens = ts ++ [mkToken Eof (mkSpan (pos_of p0 (chars src) n) (pos_of p0 (chars src) n))] ∧
    spans p0 (chars src) 0 ts n.
Proof.
  intros Hrun. pose proof (tokenize_safe src start_line) as Hs. unfold lsafe in Hs.
  rewrite Hrun in Hs. apply Hs.
Qed.
End unicode.

(** ASCII identifiers, as a concrete table. *)
Definition is_letter (c : char) : bool :=
  ((65 <=? c) && (c <=? 90)) || ((97 <=? c) && (c <=? 122)).
Definition ascii_unicode : Unicode := {|
  is_xid_start := is_letter;
  is_xid_continue := λ c, is_letter c || is_ascii_digit c || (c =? 95);
  nfc := λ s, s |}.

Lemma lexer_spans_witness :
  ∃ ts, lex (H := ascii_unicode) "let x = 1" = Ok (ts ++
      [mkToken Eof (mkSpan (mkPosition 1 10) (mkPosition 1 10))]) ∧
    spans (mkPosition 1 1) (chars "let x = 1") 0 ts 9.
Proof.
  pose proof (lexer_spans (H := ascii_unicode) "let x = 1" 1) as Hs.
  unfold lex, new. destruct (tokenize _) as [[tokens l]|e|] eqn:E;
    [|vm_compute in E; discriminate..].
  destruct (Hs tokens l eq_refl) as (ts & -> & Hts). exists ts. exact (conj eq_refl Hts).
Defined.
