(* ===== verification/LexerShift.v ===== *)
(** * Source lines across modules

    A project lexes every module with its own range of global lines and maps
    diagnostics back ([compiler/src/project.rs], [SourceMap::remap]).  Lexing is
    invariant under a shift of the start line, so the mapped diagnostic is the one the
    module would get on its own. *)

From Stdlib Require Import Ascii.
From S2P Require Import Prelude Machine Utf8 Diagnostics Lexer LexerProps.
#[local] Open Scope string_scope.
#[local] Open Scope list_scope.
#[local] Open Scope Z_scope.

(** ** Registration of a module's lines ([project.rs], loading of a module) *)

(** The line bookkeeping of the project loader: [next_line] and [sources]. *)
Record Lines := mkLines { next_line : Z; sources : list SourceFile }.
Definition initial_lines : Lines := mkLines 1 [].

Definition line_count (source : string) : Z :=
  zlen (List.filter (λ b, Z_of_byte b =? 10) (as_bytes source)) + 1.

(** Returns the start line the module is lexed with. *)
Definition register (st : Lines) (path identity source : string) : Z * Lines :=
  let start_line := next_line st in
  let end_line := start_line + line_count source in
  (start_line, mkLines (end_line + 2)
     (sources st ++ [mkSourceFile path identity start_line end_line])).

(** ** Shifting lines *)

Definition shift_pos (k : Z) (p : Position) : Position := mkPosition (line p + k) (column p).
Definition shift_span (k : Z) (s : Span) : Span := mkSpan (shift_pos k (start s)) (shift_pos k (end_ s)).
Definition shift_diag (k : Z) (d : Diagnostic) : Diagnostic :=
  mkDiagnostic (diag_kind d) (diag_message d) (shift_span k (diag_span d)) (diag_help d) (diag_file d).
Definition shift_token (k : Z) (t : Token) : Token :=
  mkToken (token_kind t) (shift_span k (token_span t)).
Definition shift (k : Z) (l : Lexer) : Lexer :=
  mkLexer (source l) (current l) (shift_pos k (position l)).

Section shifting.
Context (k : Z).

(** [m1] does from the shifted state what [m2] does, up to the shift. *)
Definition shifted {A} (f : A → A) (m1 m2 : L A) : Prop := ∀ l,
  m1 (shift k l) = match m2 l with
                   | Ok (a, l') => Ok (f a, shift k l')
                   | Err d => Err (shift_diag k d)
                   | Panic => Panic
                   end.

Lemma shifted_bind {A B} (g : A → A) (f : B → B) (m1 m2 : L A) (f1 f2 : A → L B) :
  shifted g m1 m2 → (∀ a, shifted f (f1 (g a)) (f2 a)) → shifted f (m1 ≫= f1) (m2 ≫= f2).
Proof.
  intros Hm Hf l. unfold mbind, L_bind. rewrite (Hm l).
  destruct (m2 l) as [[a l']|d|]; cbn; [apply Hf|done|done].
Qed.

Lemma shifted_bind_id {A B} (f : B → B) (m1 m2 : L A) (f1 f2 : A → L B) :
  shifted id m1 m2 → (∀ a, shifted f (f1 a) (f2 a)) → shifted f (m1 ≫= f1) (m2 ≫= f2).
Proof. intros Hm Hf. by apply (shifted_bind id). Qed.

Lemma shifted_ret {A} (f : A → A) a : shifted f (mret (f a)) (mret a).
Proof. done. Qed.
Lemma shifted_ret_id {A} (a : A) : shifted id (mret a) (mret a).
Proof. done. Qed.
Lemma shifted_peek : shifted id peek peek.
Proof. done. Qed.
Lemma shifted_peek_next : shifted id peek_next peek_next.
Proof. done. Qed.
Lemma shifted_is_at_end : shifted id is_at_end is_at_end.
Proof. done. Qed.
Lemma shifted_get_position : shifted (shift_pos k) get_position get_position.
Proof. done. Qed.
Lemma shifted_panic {A} (f : A → A) : shifted f (λ _, Panic) (λ _, Panic).
Proof. done. Qed.

Lemma shifted_advance : shifted id advance advance.
Proof.
  intros l. unfold advance. cbn. destruct (source l !! current l) as [c|]; [|done].
  unfold shift, advance_position. cbn. destruct (c =? 10); cbn; repeat f_equal; try lia.
  unfold shift_pos; cbn. f_equal; lia.
Qed.

Lemma shifted_with_fuel {A} (f : A → A) (m1 m2 : nat → L A) :
  (∀ n, shifted f (m1 n) (m2 n)) → shifted f (with_fuel m1) (with_fuel m2).
Proof. intros Hm l. apply Hm. Qed.

Lemma shifted_error {A} (f : A → A) m start :
  shifted f (lex_error m (shift_pos k start)) (lex_error m start).
Proof. done. Qed.
Lemma shifted_invalid {A} (f : A → A) v start r :
  shifted f (invalid_number v (shift_pos k start) r) (invalid_number v start r).
Proof. done. Qed.
End shifting.

Create HintDb shifted discriminated.
#[export] Hint Resolve shifted_ret_id shifted_peek shifted_peek_next shifted_is_at_end
  shifted_get_position shifted_advance shifted_error shifted_invalid shifted_panic : shifted.

(** Push a shift through a method, branch by branch. *)
Ltac sh_step :=
  match goal with
  | |- shifted _ _ (get_position ≫= _) (get_position ≫= _) =>
      eapply shifted_bind; [apply shifted_get_position|intros ?; cbv beta]
  | |- shifted _ _ (_ ≫= _) (_ ≫= _) =>
      eapply shifted_bind_id; [solve [eauto with shifted]|intros ?; cbv beta]
  | |- shifted _ _ (if ?b then _ else _) (if ?b then _ else _) => destruct b
  | |- shifted _ _ (match ?o with Some _ => _ | None => _ end) _ => destruct o
  | |- shifted _ _ (match ?o with (_, _) => _ end) _ => destruct o
  | |- _ => solve [eauto with shifted]
  end.
Ltac sh := cbv zeta; repeat (sh_step; cbv zeta).

Section methods.
Context (k : Z).

Lemma shifted_skip_line n : shifted k id (skip_line_comment n) (skip_line_comment n).
Proof. induction n; cbn; sh. Qed.
Lemma shifted_skip_block n d : shifted k id (skip_block_comment n d) (skip_block_comment n d).
Proof. revert d; induction n; intros d; cbn; sh. Qed.
#[local] Hint Resolve shifted_skip_line shifted_skip_block shifted_with_fuel : shifted.

Lemma shifted_skip n :
  shifted k id (skip_whitespace_and_comments n) (skip_whitespace_and_comments n).
Proof.
  induction n; cbn; sh.
Qed.
Lemma shifted_match_char c : shifted k id (match_char c) (match_char c).
Proof. unfold match_char. sh. Qed.
#[local] Hint Resolve shifted_match_char : shifted.
Lemma shifted_compound c a b : shifted k id (compound c a b) (compound c a b).
Proof. unfold compound. sh. Qed.
Lemma shifted_escape start : shifted k id (read_escape (shift_pos k start)) (read_escape start).
Proof. unfold read_escape. sh. Qed.
#[local] Hint Resolve shifted_compound shifted_escape : shifted.
Lemma shifted_string n start v :
  shifted k id (read_string n (shift_pos k start) v) (read_string n start v).
Proof. revert v; induction n; intros v; cbn; sh. Qed.
Lemma shifted_character start :
  shifted k id (read_character (shift_pos k start)) (read_character start).
Proof.
  unfold read_character. sh. eapply shifted_bind_id; [sh|intros v; sh].
Qed.
Lemma shifted_digits n start p v :
  shifted k id (read_digit_run n (shift_pos k start) p v) (read_digit_run n start p v).
Proof. revert p v; induction n; intros p v; cbn; sh. Qed.
#[local] Hint Resolve shifted_string shifted_character shifted_digits : shifted.
Lemma shifted_fraction start v :
  shifted k id (read_fraction (shift_pos k start) v) (read_fraction start v).
Proof. unfold read_fraction. sh. Qed.
Lemma shifted_exponent start v :
  shifted k id (read_exponent (shift_pos k start) v) (read_exponent start v).
Proof. unfold read_exponent. sh. eapply shifted_bind_id; [sh|intros w; sh]. Qed.
#[local] Hint Resolve shifted_fraction shifted_exponent : shifted.
Lemma shifted_number c start :
  shifted k id (read_number c (shift_pos k start)) (read_number c start).
Proof. unfold read_number. sh. Qed.

Context `{Unicode}.
Lemma shifted_identifier_rest n v : shifted k id (read_identifier_rest n v) (read_identifier_rest n v).
Proof. revert v; induction n; intros v; cbn; sh. Qed.
#[local] Hint Resolve shifted_number shifted_identifier_rest : shifted.
Lemma shifted_identifier c start :
  shifted k id (read_identifier c (shift_pos k start)) (read_identifier c start).
Proof. unfold read_identifier. sh. done. Qed.
#[local] Hint Resolve shifted_identifier : shifted.
Lemma shifted_token c start : shifted k id (read_token c (shift_pos k start)) (read_token c start).
Proof. unfold read_token. sh. Qed.
#[local] Hint Resolve shifted_token shifted_skip : shifted.

Lemma shifted_loop n ts :
  shifted k (map (shift_token k)) (tokenize_loop n (map (shift_token k) ts)) (tokenize_loop n ts).
Proof.
  revert ts; induction n as [|n IH]; intros ts; cbn; [done|]. sh; [apply shifted_ret..|].
  match goal with |- shifted _ _ (tokenize_loop n (_ ++ [?t])) (tokenize_loop n (ts ++ [?u])) =>
    change [t] with (map (shift_token k) [u]) end.
  rewrite <- map_app. apply IH.
Qed.

Lemma shifted_tokenize : shifted k (map (shift_token k)) tokenize tokenize.
Proof.
  unfold tokenize. eapply shifted_bind; [apply shifted_with_fuel; intros; apply (shifted_loop _ [])|].
  intros ts. sh. match goal with |- shifted _ _ (mret (_ ++ [?t])) (mret (ts ++ [?u])) =>
    change [t] with (map (shift_token k) [u]) end.
  rewrite <- map_app. apply shifted_ret.
Qed.
End methods.

(** ** Where a diagnostic starts *)

(** An error of [m] carries no file and starts at [start]. *)
Definition errs_at {A} (m : L A) (start_ : Position) : Prop := ∀ l d,
  m l = Err d → start (diag_span d) = start_ ∧ diag_file d = None.

Lemma errs_bind {A B} (m : L A) (f : A → L B) p :
  errs_at m p → (∀ a, errs_at (f a) p) → errs_at (m ≫= f) p.
Proof.
  intros Hm Hf l d. unfold mbind, L_bind. destruct (m l) as [[a l']|e|] eqn:E; cbn; [apply Hf| |done].
  intros [= ->]. by eapply Hm.
Qed.
Lemma errs_ret {A} (a : A) p : errs_at (mret a) p.
Proof. done. Qed.
Lemma errs_peek p : errs_at peek p.
Proof. done. Qed.
Lemma errs_peek_next p : errs_at peek_next p.
Proof. done. Qed.
Lemma errs_is_at_end p : errs_at is_at_end p.
Proof. done. Qed.
Lemma errs_get_position p : errs_at get_position p.
Proof. done. Qed.
Lemma errs_advance p : errs_at advance p.
Proof. intros l d. unfold advance. by destruct (_ !! _). Qed.
Lemma errs_error {A} m p : errs_at (@lex_error A m p) p.
Proof. by intros l d [= <-]. Qed.
Lemma errs_invalid {A} v p r : errs_at (@invalid_number A v p r) p.
Proof. apply errs_error. Qed.
Lemma errs_panic {A} p : errs_at (λ _, @Panic Diagnostic (A * Lexer)) p.
Proof. done. Qed.
Lemma errs_with_fuel {A} (m : nat → L A) p : (∀ n, errs_at (m n) p) → errs_at (with_fuel m) p.
Proof. intros Hm l d. apply Hm. Qed.

Create HintDb errs discriminated.
#[export] Hint Resolve errs_ret errs_peek errs_peek_next errs_is_at_end errs_get_position
  errs_advance errs_error errs_invalid errs_panic errs_with_fuel : errs.
Ltac er_step :=
  match goal with
  | |- errs_at (_ ≫= _) _ => apply errs_bind; [|intros ?; cbv beta]
  | |- errs_at (if ?b then _ else _) _ => destruct b
  | |- errs_at (match ?o with Some _ => _ | None => _ end) _ => destruct o
  | |- errs_at (match ?o with (_, _) => _ end) _ => destruct o
  | |- _ => solve [eauto with errs]
  end.
Ltac er := cbv zeta; repeat (er_step; cbv zeta).

Lemma errs_match_char c p : errs_at (match_char c) p.
Proof. unfold match_char. er. Qed.
#[export] Hint Resolve errs_match_char : errs.
Lemma errs_compound c a b p : errs_at (compound c a b) p.
Proof. unfold compound. er. Qed.
Lemma errs_escape p : errs_at (read_escape p) p.
Proof. unfold read_escape. er. Qed.
#[export] Hint Resolve errs_compound errs_escape : errs.
Lemma errs_string n p v : errs_at (read_string n p v) p.
Proof. revert v; induction n; intros v; cbn; er. Qed.
Lemma errs_character p : errs_at (read_character p) p.
Proof. unfold read_character. er. Qed.
Lemma errs_digits n p b v : errs_at (read_digit_run n p b v) p.
Proof. revert b v; induction n; intros b v; cbn; er. Qed.
#[export] Hint Resolve errs_string errs_character errs_digits : errs.
Lemma errs_number c p : errs_at (read_number c p) p.
Proof. unfold read_number, read_fraction, read_exponent. er. Qed.
#[export] Hint Resolve errs_number : errs.

Lemma errs_identifier_rest `{Unicode} n v p : errs_at (read_identifier_rest n v) p.
Proof. revert v; induction n; intros v; cbn; er. Qed.
#[export] Hint Resolve errs_identifier_rest : errs.
Lemma errs_identifier `{Unicode} c p : errs_at (read_identifier c p) p.
Proof. unfold read_identifier. er. by intros l d [= <-]. Qed.
#[export] Hint Resolve errs_identifier : errs.
Lemma errs_token `{Unicode} c p : errs_at (read_token c p) p.
Proof. unfold read_token. er. Qed.

(** An error of [m] at [l] starts at a position reached from [l0]. *)
Definition errs_from {A} (l0 : Lexer) (m : L A) (l : Lexer) : Prop := ∀ d,
  m l = Err d → ∃ l', ahead l0 l' ∧ start (diag_span d) = position l' ∧ diag_file d = None.

Lemma errs_from_bind {A B} l0 (m : L A) (f : A → L B) l Q :
  errs_from l0 m l → lsafe m l Q → (∀ a l', ahead l l' → Q a l' → errs_from l0 (f a) l') →
  errs_from l0 (m ≫= f) l.
Proof.
  intros Hm Hs Hf d. unfold mbind, L_bind, lsafe in *.
  destruct (m l) as [[a l']|e|] eqn:E; cbn; [|by intros [= ->]; apply Hm|done].
  destruct Hs as [Ha Hq]. by apply Hf.
Qed.

Lemma errs_from_at {A} l0 l1 (m : L A) l :
  errs_at m (position l1) → ahead l0 l1 → errs_from l0 m l.
Proof. intros Hm Ha d Hd. apply Hm in Hd as [-> ?]. by exists l1. Qed.

(** Calls that report no error themselves. *)
Lemma errs_from_total {A} l0 (m : L A) l : (∀ p, errs_at m p) → wf l0 → errs_from l0 m l.
Proof. intros Hm Hl. eapply errs_from_at; [apply Hm|by apply ahead_refl]. Qed.

Lemma errs_from_with_fuel {A} l0 (f : nat → L A) l :
  errs_from l0 (f (S (remaining l))) l → errs_from l0 (with_fuel f) l.
Proof. done. Qed.

Lemma errs_skip_line n p : errs_at (skip_line_comment n) p.
Proof. induction n; cbn; er. Qed.
Lemma errs_skip_block n d p : errs_at (skip_block_comment n d) p.
Proof. revert d; induction n; intros d; cbn; er. Qed.
#[export] Hint Resolve errs_skip_line errs_skip_block : errs.

Ltac ef_total := apply errs_from_total; [by eauto with errs|eauto using ahead_wf].
Ltac ef_call lem :=
  eapply errs_from_bind; [ef_total|apply lem|]; cbv beta;
  let a := fresh "a" in let l := fresh "l" in let Ha := fresh "Ha" in let Hq := fresh "Hq" in
  intros a l Ha Hq; lx_known Ha.

Lemma lsafe_advance_at l c :
  source l !! current l = Some c → lsafe advance l (λ _ l', current l' = S (current l)).
Proof.
  intros Hc. eapply lsafe_mono; [apply lsafe_advance; by eapply in_range|]. by intros ? ? _ [].
Qed.

Lemma errs_from_skip l0 n l :
  ahead l0 l → wf l0 → (remaining l < n)%nat →
  errs_from l0 (skip_whitespace_and_comments n) l.
Proof.
  revert l; induction n as [|n IH]; intros l Hl0 Hw0 Hf; [lia|]. pose proof (ahead_wf _ _ Hl0) as Hl.
  cbn [skip_whitespace_and_comments].
  ef_call (lsafe_peek l Hl). destruct Hq as [-> ->].
  ef_call (lsafe_peek_next l Hl). destruct Hq as [-> ->].
  destruct (source l !! current l) as [c|] eqn:Hc; [|ef_total].
  destruct (is_whitespace c).
  { ef_call (lsafe_advance_at l c Hc). apply IH; [by eapply ahead_trans|done|lia]. }
  destruct ((c =? 47) && bool_decide (_ = Some 47)) eqn:Eline.
  { ef_call (lsafe_with_fuel skip_line_comment l _ (skip_line_comment_safe _ l Hl (Nat.lt_succ_diag_r _))).
    apply IH; [by eapply ahead_trans|done|]. reflect_bools. specialize (Hq c Hc). lia. }
  destruct ((c =? 47) && bool_decide (_ = Some 42)) eqn:Eblock; [|ef_total].
  ef_call (lsafe_get_position l Hl). destruct Hq as [-> ->].
  ef_call (lsafe_advance_at l c Hc). reflect_bools.
  eapply errs_from_bind; [ef_total|apply lsafe_advance; lx_in_range|]. intros x m2 Hx2 [_ Hk2].
  lx_known Hx2. ef_call (lsafe_with_fuel (λ fuel, skip_block_comment fuel 1) m2 _
    (skip_block_comment_safe _ 1 m2 ltac:(done) (Nat.lt_succ_diag_r _))).
  destruct (_ =? 0).
  - apply IH; [eauto 6 using ahead_trans|done|lia].
  - apply (errs_from_at _ l); [apply errs_error|done].
Qed.

Lemma errs_from_loop `{Unicode} l0 n ts l :
  ahead l0 l → wf l0 → (remaining l < n)%nat → errs_from l0 (tokenize_loop n ts) l.
Proof.
  revert ts l; induction n as [|n IH]; intros ts l Hl0 Hw0 Hf; [lia|].
  pose proof (ahead_wf _ _ Hl0) as Hl. cbn [tokenize_loop].
  ef_call (lsafe_is_at_end l Hl). destruct Hq as [-> ->]. destruct (bool_decide _); [ef_total|].
  eapply errs_from_bind; [apply errs_from_with_fuel, errs_from_skip; [done|done|lia]
    |apply lsafe_with_fuel, skip_whitespace_and_comments_safe; [done|lia]|].
  intros u m1 Hx1 _. lx_known Hx1.
  eapply errs_from_bind; [ef_total|by apply lsafe_is_at_end|]. intros e m2 _ [-> ->].
  destruct (bool_decide _) eqn:E; [ef_total|].
  eapply errs_from_bind; [ef_total|by apply lsafe_get_position|]. intros p m2 _ [-> ->].
  eapply errs_from_bind; [ef_total|apply lsafe_advance; lx_in_range|]. intros c m2 Hx2 [Hc Hk].
  lx_known Hx2.
  eapply errs_from_bind; [|by apply read_token_safe|].
  { apply (errs_from_at _ m1); [apply errs_token|by eapply ahead_trans]. }
  intros kind m3 Hx3 _. lx_known Hx3.
  eapply errs_from_bind; [ef_total|by apply lsafe_get_position|]. intros p m4 _ [-> ->].
  apply IH; [eauto 6 using ahead_trans|done|lia].
Qed.

Lemma errs_from_tokenize `{Unicode} l : wf l → errs_from l tokenize l.
Proof.
  intros Hl. unfold tokenize. intros d. unfold mbind, L_bind.
  destruct (with_fuel _ l) as [[ts l']|e|] eqn:E; cbn; [done| |done]. intros [= ->].
  unfold with_fuel in E. by apply (errs_from_loop l _ [] l) in E; [|apply ahead_refl|done|unfold remaining; lia].
Qed.

(** ** Lines never decrease *)

(** [m] ends, or reports an error whose span ends, at no earlier line. *)
Definition later {A} (m : L A) : Prop := ∀ l,
  match m l with
  | Ok (_, l') => line (position l) <= line (position l')
  | Err d => line (position l) <= line (end_ (diag_span d))
  | Panic => True
  end.

Lemma later_bind {A B} (m : L A) (f : A → L B) : later m → (∀ a, later (f a)) → later (m ≫= f).
Proof.
  intros Hm Hf l. specialize (Hm l). unfold mbind, L_bind.
  destruct (m l) as [[a l']|d|]; cbn; [|done|done]. specialize (Hf a l').
  destruct (f a l') as [[b l'']|d|]; [lia|lia|done].
Qed.
Lemma later_ret {A} (a : A) : later (mret a).
Proof. intros l. cbn. lia. Qed.
Lemma later_peek : later peek.
Proof. intros l. cbn. lia. Qed.
Lemma later_peek_next : later peek_next.
Proof. intros l. cbn. lia. Qed.
Lemma later_is_at_end : later is_at_end.
Proof. intros l. cbn. lia. Qed.
Lemma later_get_position : later get_position.
Proof. intros l. cbn. lia. Qed.
Lemma later_advance : later advance.
Proof.
  intros l. unfold advance. destruct (_ !! _) as [c|]; [|done]. cbn.
  unfold advance_position. destruct (c =? 10); cbn; lia.
Qed.
Lemma later_error {A} m p : later (@lex_error A m p).
Proof. intros l. change (line (position l) <= line (position l)). lia. Qed.
Lemma later_invalid {A} v p r : later (@invalid_number A v p r).
Proof. apply later_error. Qed.
Lemma later_panic {A} : later (λ _, @Panic Diagnostic (A * Lexer)).
Proof. done. Qed.
Lemma later_with_fuel {A} (m : nat → L A) : (∀ n, later (m n)) → later (with_fuel m).
Proof. intros Hm l. apply Hm. Qed.

Create HintDb later discriminated.
#[export] Hint Resolve later_ret later_peek later_peek_next later_is_at_end later_get_position
  later_advance later_error later_invalid later_panic later_with_fuel : later.
Ltac la_step :=
  match goal with
  | |- later (_ ≫= _) => apply later_bind; [|intros ?; cbv beta]
  | |- later (if ?b then _ else _) => destruct b
  | |- later (match ?o with Some _ => _ | None => _ end) => destruct o
  | |- later (match ?o with (_, _) => _ end) => destruct o
  | |- _ => solve [eauto with later]
  end.
Ltac la := cbv zeta; repeat (la_step; cbv zeta).

Lemma later_skip_line n : later (skip_line_comment n).
Proof. induction n; cbn; la. Qed.
Lemma later_skip_block n d : later (skip_block_comment n d).
Proof. revert d; induction n; intros d; cbn; la. Qed.
#[export] Hint Resolve later_skip_line later_skip_block : later.
Lemma later_skip n : later (skip_whitespace_and_comments n).
Proof. induction n; cbn; la. Qed.
Lemma later_match_char c : later (match_char c).
Proof. unfold match_char. la. Qed.
#[export] Hint Resolve later_skip later_match_char : later.
Lemma later_compound c a b : later (compound c a b).
Proof. unfold compound. la. Qed.
Lemma later_string n p v : later (read_string n p v).
Proof. revert v; induction n; intros v; cbn; unfold read_escape; la. Qed.
Lemma later_digits n p b v : later (read_digit_run n p b v).
Proof. revert b v; induction n; intros b v; cbn; la. Qed.
#[export] Hint Resolve later_compound later_string later_digits : later.
Lemma later_number c p : later (read_number c p).
Proof. unfold read_number, read_fraction, read_exponent. la. Qed.
Lemma later_identifier_rest `{Unicode} n v : later (read_identifier_rest n v).
Proof. revert v; induction n; intros v; cbn; la. Qed.
#[export] Hint Resolve later_number later_identifier_rest : later.
Lemma later_identifier `{Unicode} c p : later (read_identifier c p).
Proof.
  unfold read_identifier. apply later_bind; [eauto with later|]. intros v. cbv zeta.
  destruct (negb _); [intros l; change (line (position l) <= line (position l)); lia|la].
Qed.
#[export] Hint Resolve later_identifier : later.
Lemma later_token `{Unicode} c p : later (read_token c p).
Proof. unfold read_token, read_character, read_escape. la. Qed.
#[export] Hint Resolve later_token : later.
Lemma later_loop `{Unicode} n ts : later (tokenize_loop n ts).
Proof. revert ts; induction n; intros ts; cbn; la. Qed.
#[export] Hint Resolve later_loop : later.
Lemma later_tokenize `{Unicode} : later tokenize.
Proof. unfold tokenize. la. Qed.

(** ** Lines of a module *)

Definition newlines (cs : list char) : Z := zlen (List.filter (λ c, c =? 10) cs).

Lemma newlines_nonneg cs : 0 <= newlines cs.
Proof. apply zlen_nonneg. Qed.
Lemma newlines_app a b : newlines (a ++ b) = newlines a + newlines b.
Proof. unfold newlines. by rewrite List.filter_app, zlen_app. Qed.

Lemma line_move p cs : line (move p cs) = line p + newlines cs.
Proof.
  revert p; induction cs as [|c cs IH]; intros p; cbn; [unfold newlines; cbn; rewrite zlen_nil; lia|].
  unfold move in *. rewrite IH. unfold newlines, advance_position. cbn.
  destruct (c =? 10); cbn; rewrite ?zlen_cons; lia.
Qed.

Lemma newline_bytes c :
  is_scalar c = true →
  zlen (List.filter (λ b, Z_of_byte b =? 10) (encode_char c)) = if c =? 10 then 1 else 0.
Proof.
  intros Hc%is_scalar_range. unfold encode_char.
  pose proof (Z.mod_pos_bound c 0x40). pose proof (Z.mod_pos_bound (c / 0x40) 0x40).
  pose proof (Z.mod_pos_bound (c / 0x1000) 0x40).
  pose proof (Z.div_mod c 0x40). pose proof (Z.div_mod (c / 0x40) 0x40).
  pose proof (Z.div_mod (c / 0x1000) 0x40).
  assert (c / 0x1000 = c / 0x40 / 0x40) by (rewrite Z.div_div by lia; done).
  assert (c / 0x40000 = c / 0x1000 / 0x40) by (rewrite Z.div_div by lia; done).
  destruct (Z.ltb_spec c 0x80); [|destruct (Z.ltb_spec c 0x800); [|destruct (Z.ltb_spec c 0x10000)]];
    cbn [List.filter].
  - rewrite Z_byte_small by lia. by destruct (c =? 10).
  - rewrite (Z_byte_small (0xC0 + _)), (Z_byte_small (0x80 + _)) by lia.
    by rewrite !(proj2 (Z.eqb_neq _ _)) by lia.
  - rewrite (Z_byte_small (0xE0 + _)), !(Z_byte_small (0x80 + _)) by lia.
    by rewrite !(proj2 (Z.eqb_neq _ _)) by lia.
  - rewrite (Z_byte_small (0xF0 + _)), !(Z_byte_small (0x80 + _)) by lia.
    by rewrite !(proj2 (Z.eqb_neq _ _)) by lia.
Qed.

(** The loader counts newline bytes; the lexer counts newline characters. *)
Lemma line_count_chars cs : scalars cs → line_count (of_chars cs) = newlines cs + 1.
Proof.
  intros Hcs. unfold line_count, of_chars. rewrite as_of_bytes. f_equal.
  induction Hcs as [|c cs Hc _ IH]; [done|]. cbn [map concat].
  rewrite List.filter_app, zlen_app, newline_bytes, IH by done.
  unfold newlines. cbn. destruct (c =? 10); [rewrite zlen_cons|]; lia.
Qed.

Definition register_all (st : Lines) (modules : list (string * string * string)) : Lines :=
  fold_left (λ st m, (register st m.1.1 m.1.2 m.2).2) modules st.

(** The ranges handed out so far end below [next_line]. *)
Definition lines_ok (st : Lines) : Prop :=
  1 <= next_line st ∧
  Forall (λ f, 1 <= sf_start_line f ∧ sf_end_line f + 2 <= next_line st) (sources st).

Lemma register_ok st p i src : lines_ok st → lines_ok (register st p i src).2.
Proof.
  intros [Hn Hf]. unfold register, line_count. cbn.
  pose proof (zlen_nonneg (List.filter (λ b, Z_of_byte b =? 10) (as_bytes src))).
  split; cbn; [lia|]. apply Forall_app; split.
  - eapply Forall_impl; [exact Hf|]. cbn. intros f []. lia.
  - repeat constructor; cbn; lia.
Qed.

Lemma register_all_ok modules st : lines_ok st → lines_ok (register_all st modules).
Proof.
  revert st; induction modules as [|m modules IH]; intros st Hst; [done|].
  cbn. apply IH, register_ok, Hst.
Qed.

Lemma register_all_prefix modules st :
  ∃ more, sources (register_all st modules) = sources st ++ more.
Proof.
  revert st; induction modules as [|m modules IH]; intros st; [exists []; by rewrite app_nil_r|].
  destruct (IH (register st m.1.1 m.1.2 m.2).2) as [more Hmore].
  exists ([mkSourceFile m.1.1 m.1.2 (next_line st) (next_line st + line_count m.2)] ++ more).
  rewrite app_assoc. exact Hmore.
Qed.

Lemma find_skip {A} (f : A → bool) l1 l2 :
  (∀ x, x ∈ l1 → f x = false) → List.find f (l1 ++ l2) = List.find f l2.
Proof.
  induction l1 as [|x l1 IH]; intros Hf; [done|]. cbn. rewrite Hf by left.
  apply IH. intros y Hy. apply Hf. by right.
Qed.

Lemma remap_in_range files more st path id src d k :
  lines_ok st → files = sources st → k = next_line st - 1 →
  diag_file d = None →
  1 <= line (start (diag_span d)) <= line_count src → 0 <= line (end_ (diag_span d)) →
  remap (mkSourceMap (sources (register st path id src).2 ++ more)) (shift_diag k d)
  = Ok (with_file d path).
Proof.
  intros [Hn Hf] -> -> Hfile Hline Hend. unfold remap. cbn [shift_diag diag_file]. rewrite Hfile.
  unfold register. cbn [sources map_files snd]. rewrite <- app_assoc.
  rewrite find_skip.
  2:{ intros f Hin. rewrite Forall_forall in Hf. destruct (Hf f Hin) as [_ He].
      unfold covers. cbn. apply andb_false_iff. right. apply Z.leb_gt. lia. }
  cbn [List.find app].
  assert (covers (mkSourceFile path id (next_line st) (next_line st + line_count src))
    (shift_diag (next_line st - 1) d) = true) as ->.
  { unfold covers. cbn. rewrite Z.geb_leb, !(proj2 (Z.leb_le _ _)) by lia. done. }
  unfold unsigned_sub. cbn [sf_start_line sf_path]. rewrite (proj2 (Z.leb_le _ _)) by lia.
  rewrite bind_Ok. unfold with_file, shift_diag, shift_span, shift_pos, saturating_sub. cbn.
  destruct d as [kd m [[l1 c1] [l2 c2]] h f]. cbn in *. do 2 f_equal.
  f_equal; f_equal; lia.
Qed.

(** Every diagnostic of the lexer lies on a line of its source. *)
Lemma tokenize_error_lines `{Unicode} cs d :
  tokenize (new (of_chars cs)) = Err d → scalars cs →
  diag_file d = None ∧ 1 <= line (start (diag_span d)) <= newlines cs + 1 ∧
  1 <= line (end_ (diag_span d)).
Proof.
  intros Hd Hcs. pose proof (later_tokenize (new (of_chars cs))) as Hlater. rewrite Hd in Hlater.
  cbn in Hlater. assert (wf (new (of_chars cs))) as Hw by (unfold wf; cbn; lia).
  destruct (errs_from_tokenize _ Hw d Hd) as (l' & (Hs & Hc & Hp) & Hst & Hf).
  split; [done|]. split; [|done]. rewrite Hst, Hp, line_move. cbn. rewrite chars_of_chars by done.
  pose proof (newlines_nonneg (drop 0 (take (current l') cs))).
  pose proof (newlines_nonneg (drop (current l') cs)) as Hrest.
  rewrite drop_0 in *. rewrite <- (take_drop (current l') cs) at 3. rewrite newlines_app. lia.
Qed.

(** C10: A diagnostic of the lexer for a module of a project, lexed at the global
    lines the loader reserved for it, maps back to the file of the module and to the
    very diagnostic the module gets when it is lexed alone, however many modules come
    before and after it. *)
Theorem module_diagnostics_remap `{Unicode} before after path id cs d :
  scalars cs →
  let st := register_all initial_lines before in
  let '(start_line, st1) := register st path id (of_chars cs) in
  tokenize (with_start_line (of_chars cs) start_line) = Err d →
  ∃ d0, tokenize (new (of_chars cs)) = Err d0 ∧
    remap (mkSourceMap (sources (register_all st1 after))) d = Ok (with_file d0 path).
Proof.
  intros Hcs st. destruct (register st path id (of_chars cs)) as [start_line st1] eqn:Hreg.
  assert (lines_ok st) as Hst by (apply register_all_ok; by split).
  assert (start_line = next_line st) as -> by (by injection Hreg).
  assert (st1 = (register st path id (of_chars cs)).2) as -> by (by rewrite Hreg).
  intros Hd. assert (with_start_line (of_chars cs) (next_line st)
    = shift (next_line st - 1) (new (of_chars cs))) as Hsh.
  { unfold shift, new, with_start_line, shift_pos. cbn. repeat f_equal. lia. }
  rewrite Hsh, (shifted_tokenize (next_line st - 1)) in Hd.
  destruct (tokenize (new (of_chars cs))) as [[ts l]|d0|] eqn:E0; [done| |done].
  injection Hd as <-. exists d0. split; [done|].
  destruct (tokenize_error_lines cs d0 E0 Hcs) as (Hf & Hl & He).
  destruct (register_all_prefix after (register st path id (of_chars cs)).2) as [more ->].
  apply (remap_in_range (sources st)); try done; [rewrite line_count_chars by done|]; lia.
Qed.

(** A module with a character no token starts with, lexed from line 4 on. *)
Definition bad_module : list char := ascii_chars "let x =
 $".
Definition bad_diagnostic : Diagnostic :=
  match tokenize (H := ascii_unicode) (with_start_line (of_chars bad_module) 4) with
  | Err d => d
  | _ => new_diagnostic Lex "" (point 0 0)
  end.

Lemma module_diagnostics_remap_witness :
  ∃ d0, tokenize (H := ascii_unicode) (new (of_chars bad_module)) = Err d0 ∧
    remap (mkSourceMap (sources (register_all
      (register (register_all initial_lines [("a", "a", "fn")]) "b" "b" (of_chars bad_module)).2
      [("c", "c", "")]))) bad_diagnostic = Ok (with_file d0 "b").
Proof.
  apply (module_diagnostics_remap (H := ascii_unicode) [("a", "a", "fn")] [("c", "c", "")]
    "b" "b" bad_module bad_diagnostic).
  - repeat constructor.
  - vm_compute. reflexivity.
Defined.
