(* ===== verification/LexerRoundTrip.v ===== *)
(** * Lexing printed tokens

    What each token looks like in source text, and the proof that text made of such
    spellings, each followed by a space, lexes back to the tokens it spells. *)

From Stdlib Require Import Ascii.
From S2P Require Import Prelude Machine Utf8 Diagnostics Lexer LexerProps.
#[local] Open Scope string_scope.
#[local] Open Scope list_scope.
#[local] Open Scope Z_scope.

(** ** What the lexer relies on of the Unicode tables

    The ASCII part of [XID_Start] and [XID_Continue], and that ASCII text is in
    normalization form C (Unicode Standard Annexes 31 and 15), and that no
    identifier starts with white space (Annex 44). *)
Class UnicodeLaws `{Unicode} : Prop := {
  xid_start_ascii : ∀ c, 0 <= c < 128 → is_xid_start c = is_letter c;
  xid_continue_ascii : ∀ c, 0 <= c < 128 →
    is_xid_continue c = is_letter c || is_ascii_digit c || (c =? 95);
  xid_start_not_whitespace : ∀ c, is_xid_start c = true → is_whitespace c = false;
  nfc_ascii : ∀ l, Forall (λ c, 0 <= c < 128) l → nfc (of_chars l) = of_chars l }.

#[export] Instance ascii_unicode_laws : @UnicodeLaws ascii_unicode.
Proof.
  split; [done|done| |done]. cbn. unfold is_letter, is_whitespace. intros c Hc.
  repeat match goal with |- (_ || _)%bool = false => apply orb_false_iff; split end;
    repeat match goal with |- context [?a <=? ?b] => destruct (Z.leb_spec a b)
    | |- context [?a =? ?b] => destruct (Z.eqb_spec a b) end; try done;
    exfalso; apply orb_true_iff in Hc as [Hc|Hc]; reflect_bools; lia.
Qed.

(** ** Reading from the characters left *)

Definition rest_of (l : Lexer) : list char := drop (current l) (source l).

(** From any state with [r] left, [m] succeeds with a value and a rest in [Q]. *)
Definition reads {A} (m : L A) (r : list char) (Q : A → list char → Prop) : Prop :=
  ∀ l, rest_of l = r → ∃ a l', m l = Ok (a, l') ∧ Q a (rest_of l').

Lemma reads_bind {A B} (m : L A) (f : A → L B) r Q R :
  reads m r Q → (∀ a r', Q a r' → reads (f a) r' R) → reads (m ≫= f) r R.
Proof.
  intros Hm Hf l Hl. destruct (Hm l Hl) as (a & l' & Ha & Hq).
  destruct (Hf a _ Hq l' eq_refl) as (b & l'' & Hb & Hr).
  exists b, l''. split; [|done]. unfold mbind, L_bind. by rewrite Ha.
Qed.

Lemma reads_ret {A} (a : A) r (Q : A → list char → Prop) : Q a r → reads (mret a) r Q.
Proof. intros Hq l Hl. exists a, l. split; [done|]. by rewrite Hl. Qed.

Lemma reads_mono {A} (m : L A) r (Q R : A → list char → Prop) :
  reads m r Q → (∀ a r', Q a r' → R a r') → reads m r R.
Proof. intros Hm Hq l Hl. destruct (Hm l Hl) as (a & l' & ? & ?). eauto 6. Qed.

Lemma lookup_rest l i : source l !! (current l + i)%nat = rest_of l !! i.
Proof. unfold rest_of. by rewrite lookup_drop. Qed.

Lemma reads_peek r : reads peek r (λ p r', p = head r ∧ r' = r).
Proof.
  intros l Hl. eexists _, l. split; [done|]. split; [|done].
  rewrite <- (Nat.add_0_r (current l)), lookup_rest, Hl. by destruct r.
Qed.
Lemma reads_peek_next r : reads peek_next r (λ p r', p = head (tail r) ∧ r' = r).
Proof.
  intros l Hl. eexists _, l. split; [done|]. split; [|done].
  rewrite <- Nat.add_1_r, lookup_rest, Hl. by destruct r as [|? []].
Qed.
Lemma reads_is_at_end r : reads is_at_end r (λ b r', b = bool_decide (r = []) ∧ r' = r).
Proof.
  intros l Hl. eexists _, l. split; [done|]. split; [|done]. apply bool_decide_ext.
  rewrite <- Hl. unfold rest_of. split; [apply drop_ge|].
  intros H%(f_equal length). rewrite length_drop in H. cbn in H. lia.
Qed.
Lemma reads_get_position r : reads get_position r (λ _ r', r' = r).
Proof. intros l Hl. by eexists _, l. Qed.
Lemma reads_advance c r : reads advance (c :: r) (λ a r', a = c ∧ r' = r).
Proof.
  intros l Hl. unfold advance.
  pose proof (lookup_rest l 0) as Hc. rewrite Hl, Nat.add_0_r in Hc. cbn in Hc. rewrite Hc.
  eexists _, _. split; [done|]. split; [done|]. unfold rest_of in *. cbn.
  rewrite <- Nat.add_1_r, <- drop_drop, Hl. done.
Qed.
Lemma reads_with_fuel {A} (m : nat → L A) r Q :
  reads (m (S (length r))) r Q → reads (with_fuel m) r Q.
Proof.
  intros Hm l Hl. unfold with_fuel. replace (length (source l) - current l)%nat with (length r);
    [by apply Hm|]. rewrite <- Hl. unfold rest_of. by rewrite length_drop.
Qed.

Ltac rd_step :=
  match goal with
  | |- reads (peek ≫= _) _ _ => eapply reads_bind; [apply reads_peek|]; intros ? ? [-> ->]; cbn [head tail]
  | |- reads (peek_next ≫= _) _ _ =>
      eapply reads_bind; [apply reads_peek_next|]; intros ? ? [-> ->]; cbn [head tail]
  | |- reads (is_at_end ≫= _) _ _ =>
      eapply reads_bind; [apply reads_is_at_end|]; intros ? ? [-> ->]; cbn [head tail]
  | |- reads (get_position ≫= _) _ _ =>
      eapply reads_bind; [apply reads_get_position|]; intros ? ? ->; cbn [head tail]
  | |- reads (advance ≫= _) (_ :: _) _ =>
      eapply reads_bind; [apply reads_advance|]; intros ? ? [-> ->]; cbn [head tail]
  | |- reads advance (_ :: _) _ => eapply reads_mono; [apply reads_advance|]
  | |- reads (mret _) _ _ => apply reads_ret
  end.

(** ** Spellings *)

(** Keywords and punctuation. *)
Definition punctuation : list (string * TokenKind) :=
  [("(", LeftParen); (")", RightParen); ("{", LeftBrace); ("}", RightBrace); ("[", LeftBracket);
   ("]", RightBracket); (",", Comma); (":", Colon); (";", Semicolon); ("+=", PlusEqual); ("+", Plus);
   ("->", Arrow); ("-=", MinusEqual); ("-", Minus); ("*=", StarEqual); ("*", Star);
   ("/=", SlashEqual); ("/", Slash); ("%", Percent); ("=>", FatArrow); ("==", EqualEqual);
   ("=", Equal); ("!=", BangEqual); ("!", Bang); ("<=", LessEqual); ("<<", ShiftLeft); ("<", Less);
   (">=", GreaterEqual); (">>", ShiftRight); (">", Greater); ("&&", AndAnd); ("&", And); ("||", OrOr);
   ("|", Or); ("^", Caret); ("~", Tilde); ("?", Question); ("..=", RangeInclusive); ("..", Range);
   (".", Dot)].

(** The characters a string or character literal writes for [c]. *)
Definition spell_char (c : char) : list char :=
  if c =? 34 then [92; 34] else if c =? 92 then [92; 92] else if c =? 39 then [92; 39]
  else if c =? 10 then [92; 110] else [c].

Inductive spells `{Unicode} : TokenKind → list char → Prop :=
| spells_punctuation s k : (s, k) ∈ punctuation → spells k (ascii_chars s)
| spells_keyword s k : (s, k) ∈ keywords → spells k (ascii_chars s)
| spells_identifier c cs :
    is_identifier_start c = true → 0 <= c → Forall (λ c, is_identifier_continue c = true) cs →
    nfc (of_chars (c :: cs)) = of_chars (c :: cs) → keyword (of_chars (c :: cs)) = None →
    spells (Identifier (of_chars (c :: cs))) (c :: cs)
| spells_integer c cs :
    scalars (c :: cs) → Forall (λ c, is_ascii_digit c = true) (c :: cs) →
    digits_value (c :: cs) <= U128_MAX →
    spells (Integer (digits_value (c :: cs))) (c :: cs)
| spells_string cs : spells (String_ (of_chars cs)) ([34] ++ concat (map spell_char cs) ++ [34])
| spells_character c : spells (Character c) ([39] ++ spell_char c ++ [39]).

(** ** Reading a spelling back *)

Lemma reads_match_yes c r : reads (match_char c) (c :: r) (λ b r', b = true ∧ r' = r).
Proof.
  unfold match_char. rd_step. rewrite bool_decide_eq_false_2 by (intros H; by apply H).
  rd_step. by rd_step.
Qed.
Lemma reads_match_no c d r : d ≠ c → reads (match_char c) (d :: r) (λ b r', b = false ∧ r' = d :: r).
Proof.
  intros Hd. unfold match_char. rd_step. rewrite bool_decide_eq_true_2 by congruence. by rd_step.
Qed.
Lemma reads_compound_yes c k1 k2 r :
  reads (compound c k1 k2) (c :: r) (λ k r', k = k1 ∧ r' = r).
Proof.
  eapply reads_bind; [apply reads_match_yes|]. intros b r' [-> ->]. by rd_step.
Qed.
Lemma reads_compound_no c k1 k2 d r :
  d ≠ c → reads (compound c k1 k2) (d :: r) (λ k r', k = k2 ∧ r' = d :: r).
Proof.
  intros Hd. eapply reads_bind; [by apply reads_match_no|]. intros b r' [-> ->]. by rd_step.
Qed.

Ltac rd_if :=
  repeat match goal with
  | |- reads (if ?b then _ else _) _ _ =>
      let b' := eval vm_compute in b in
      lazymatch b' with true => change b with true | false => change b with false end; cbv iota
  end.
Ltac rd_punct :=
  repeat first
  [ rd_step; done
  | apply reads_compound_yes
  | apply reads_compound_no; done
  | eapply reads_bind; [apply reads_match_yes|]; intros ? ? [-> ->]; cbv beta iota
  | eapply reads_bind; [apply reads_match_no; done|]; intros ? ? [-> ->]; cbv beta iota ].

Section spelled.
Context `{UnicodeLaws}.

Lemma read_punctuation s k r start :
  (s, k) ∈ punctuation → match ascii_chars s with
  | c :: t => reads (read_token c start) (t ++ 32 :: r) (λ k' r', k' = k ∧ r' = 32 :: r)
  | [] => False
  end.
Proof.
  intros Hin. unfold punctuation in Hin.
  repeat (apply elem_of_cons in Hin as [[= -> ->]|Hin]; [|]); [..|by apply elem_of_nil in Hin];
    cbn [ascii_chars String.list_ascii_of_string map app]; unfold read_token; rd_if; rd_punct.
Qed.

(** The tests of [read_token] that a character fails. *)
Ltac rt_skip H :=
  repeat match goal with
  | |- (if (?c =? ?k) then _ else _) = _ =>
      replace (c =? k) with false by
        (symmetry; apply Z.eqb_neq; intros ->; vm_compute in H; naive_solver congruence)
  end.

Lemma read_token_identifier c start :
  ((c =? 95) || is_letter c || (128 <=? c) = true) → is_identifier_start c = true →
  read_token c start = read_identifier c start.
Proof.
  intros Hc Hs. unfold read_token. rt_skip Hc.
  assert (is_ascii_digit c = false) as ->.
  { unfold is_ascii_digit, is_letter in *. apply andb_false_iff.
    destruct (Z.leb_spec 48 c); [|by left]. right. apply Z.leb_gt.
    repeat (apply orb_true_iff in Hc as [Hc|Hc]); reflect_bools; lia. }
  by rewrite Hs.
Qed.

Lemma identifier_start_shape c :
  is_identifier_start c = true → 0 <= c → (c =? 95) || is_letter c || (128 <=? c) = true.
Proof.
  unfold is_identifier_start. intros Hs Hc. change (chr "_") with 95 in Hs.
  destruct (Z.leb_spec 128 c); [by rewrite !orb_true_r|]. rewrite orb_false_r.
  destruct (c =? 95); [done|]. cbn in *. by rewrite <- xid_start_ascii by lia.
Qed.

Lemma space_ends_identifier : is_identifier_continue 32 = false.
Proof. unfold is_identifier_continue. by rewrite xid_continue_ascii. Qed.

Lemma read_identifier_chars cs : ∀ acc r n,
  Forall (λ c, is_identifier_continue c = true) cs → (length cs < n)%nat →
  reads (read_identifier_rest n (of_chars acc)) (cs ++ 32 :: r)
    (λ v r', v = of_chars (acc ++ cs) ∧ r' = 32 :: r).
Proof.
  induction cs as [|c cs IH]; intros acc r n Hcs Hn; destruct n as [|n]; try (cbn in Hn; lia);
    cbn [read_identifier_rest app].
  - rd_step. rewrite space_ends_identifier. rd_step. by rewrite app_nil_r.
  - apply Forall_cons in Hcs as [Hc Hcs]. rd_step. rewrite Hc. rd_step.
    rewrite push_char_of_chars. eapply reads_mono; [apply IH; [done|cbn in Hn; lia]|].
    cbv beta. intros v r' [-> ->]. by rewrite <- app_assoc.
Qed.

(** The shared end of identifiers and keywords. *)
Lemma read_identifier_word c cs r start :
  Forall (λ c, is_identifier_continue c = true) cs →
  nfc (of_chars (c :: cs)) = of_chars (c :: cs) →
  reads (read_identifier c start) (cs ++ 32 :: r) (λ k r',
    k = default (Identifier (of_chars (c :: cs))) (keyword (of_chars (c :: cs))) ∧ r' = 32 :: r).
Proof.
  intros Hcs Hn. unfold read_identifier.
  eapply reads_bind; [apply reads_with_fuel, (read_identifier_chars cs [c]); [done|]|].
  { rewrite length_app. cbn. lia. }
  cbv beta. intros v r' [-> ->]. cbn [app]. cbv zeta. rewrite Hn, String.eqb_refl. cbn [negb].
  destruct (keyword _); by rd_step.
Qed.

Definition ascii_word (c : char) (cs : list char) : bool :=
  (is_letter c) && forallb is_letter cs.

Lemma is_letter_ascii c : is_letter c = true → 0 <= c < 128.
Proof.
  unfold is_letter. intros Hc. apply orb_true_iff in Hc as [Hc|Hc]; reflect_bools; lia.
Qed.

Lemma read_keyword s k r start :
  (s, k) ∈ keywords → match ascii_chars s with
  | c :: t => reads (read_token c start) (t ++ 32 :: r) (λ k' r', k' = k ∧ r' = 32 :: r)
  | [] => False
  end.
Proof.
  intros Hin.
  assert (match ascii_chars s with c :: t => ascii_word c t | [] => false end = true ∧
    keyword (of_chars (ascii_chars s)) = Some k) as [Hw Hk].
  { unfold keywords in Hin.
    repeat (apply elem_of_cons in Hin as [[= -> ->]|Hin]; [by vm_compute|]). by apply elem_of_nil in Hin. }
  destruct (ascii_chars s) as [|c cs]; [done|]. unfold ascii_word in Hw.
  apply andb_true_iff in Hw as [Hc Hcs]. apply Is_true_true, forallb_True in Hcs.
  pose proof (is_letter_ascii c Hc) as Hr.
  assert (Forall (λ c, 0 <= c < 128) cs) as Hascii.
  { eapply Forall_impl; [exact Hcs|]. intros x Hx%Is_true_true. by apply is_letter_ascii. }
  rewrite read_token_identifier; [|by rewrite Hc, orb_true_r| ].
  2:{ unfold is_identifier_start. rewrite xid_start_ascii by done. by rewrite Hc, orb_true_r. }
  eapply reads_mono; [apply read_identifier_word|].
  - eapply Forall_impl; [exact Hcs|]. intros x Hx%Is_true_true. unfold is_identifier_continue.
    rewrite xid_continue_ascii by (by apply is_letter_ascii). by rewrite Hx, !orb_true_l, orb_true_r.
  - apply nfc_ascii. by constructor.
  - cbv beta. rewrite Hk. done.
Qed.

(** ** Literals *)

Lemma read_digits cs : ∀ acc r n start b,
  Forall (λ c, is_ascii_digit c = true) cs → (length cs < n)%nat →
  reads (read_digit_run n start b (of_chars acc)) (cs ++ 32 :: r)
    (λ v r', v = of_chars (acc ++ cs) ∧ r' = 32 :: r).
Proof.
  induction cs as [|c cs IH]; intros acc r n start b Hcs Hn; destruct n as [|n]; try (cbn in Hn; lia);
    cbn [read_digit_run app].
  - rd_step. rd_step. cbn. apply reads_ret. by rewrite app_nil_r.
  - apply Forall_cons in Hcs as [Hc Hcs]. rd_step. rd_step. rewrite Hc. rd_step.
    rewrite push_char_of_chars. eapply reads_mono; [apply IH; [done|cbn in Hn; lia]|].
    cbv beta. intros v r' [-> ->]. by rewrite <- app_assoc.
Qed.

Lemma digit_range c : is_ascii_digit c = true → 48 <= c <= 57.
Proof. unfold is_ascii_digit. intros. reflect_bools. lia. Qed.

Lemma read_token_number c start :
  is_ascii_digit c = true → read_token c start = read_number c start.
Proof.
  intros Hc. unfold read_token. rt_skip Hc. by rewrite Hc.
Qed.

Lemma without_separators_digits cs :
  scalars cs → Forall (λ c, is_ascii_digit c = true) cs → without_separators (of_chars cs) = cs.
Proof.
  intros Hs Hd. unfold without_separators. rewrite chars_of_chars by done. clear Hs.
  induction Hd as [|c cs Hc _ IH]; [done|]. cbn [List.filter]. change (chr "_") with 95.
  apply digit_range in Hc. rewrite (proj2 (Z.eqb_neq c 95)) by lia. cbn [negb]. f_equal. exact IH.
Qed.

Lemma digits_value_nonneg cs : Forall (λ c, is_ascii_digit c = true) cs → 0 <= digits_value cs.
Proof.
  unfold digits_value. intros Hd. assert (∀ a, 0 <= a → 0 <= fold_left (λ v c, 10 * v + (c - 48)) cs a)
    as Hf; [|apply Hf; lia].
  induction Hd as [|c cs Hc _ IH]; intros a Ha; [done|]. cbn. apply IH.
  apply digit_range in Hc. lia.
Qed.

Lemma read_integer c cs r start :
  scalars (c :: cs) → Forall (λ c, is_ascii_digit c = true) (c :: cs) →
  digits_value (c :: cs) <= U128_MAX →
  reads (read_token c start) (cs ++ 32 :: r)
    (λ k r', k = Integer (digits_value (c :: cs)) ∧ r' = 32 :: r).
Proof.
  intros Hs Hd Hmax. pose proof (digits_value_nonneg _ Hd) as Hpos.
  pose proof (Forall_inv Hd) as Hc. pose proof (Forall_inv_tail Hd) as Hcs.
  rewrite read_token_number by done. unfold read_number.
  eapply reads_bind; [apply reads_with_fuel, (read_digits cs [c]); [done|]|].
  { rewrite length_app. cbn. lia. }
  cbv beta. intros v r' [-> ->]. cbn [app].
  eapply (reads_bind _ _ _ (λ x r', x = (of_chars (c :: cs), false) ∧ r' = 32 :: r)).
  { unfold read_fraction. rd_step. rd_step. rewrite bool_decide_eq_false_2 by done. cbn [andb]. by rd_step. }
  intros x r' [-> ->]. cbv beta iota.
  eapply (reads_bind _ _ _ (λ x r', x = (of_chars (c :: cs), false) ∧ r' = 32 :: r)).
  { unfold read_exponent. rd_step. rewrite !bool_decide_eq_false_2 by done. cbn [orb]. by rd_step. }
  intros x r' [-> ->]. cbv beta iota. cbv zeta. cbn [orb].
  rewrite without_separators_digits by done. unfold parse_u128. rewrite try_from_in by done.
  by rd_step.
Qed.

(** An escape that [spell_char] writes. *)
Lemma read_escape_spelled c e r start :
  (c, e) ∈ [(34, 34); (92, 92); (39, 39); (10, 110)] →
  reads (read_escape start) (e :: r) (λ v r', v = c ∧ r' = r).
Proof.
  intros Hin. unfold read_escape. rd_step. rewrite bool_decide_eq_false_2 by done. rd_step.
  repeat (apply elem_of_cons in Hin as [[= -> ->]|Hin]); [..|by apply elem_of_nil in Hin];
    rd_if; by rd_step.
Qed.

Lemma spell_char_cases c :
  (∃ e, spell_char c = [92; e] ∧ (c, e) ∈ [(34, 34); (92, 92); (39, 39); (10, 110)]) ∨
  (spell_char c = [c] ∧ c ≠ 34 ∧ c ≠ 92 ∧ c ≠ 39 ∧ c ≠ 10).
Proof.
  unfold spell_char.
  destruct (Z.eqb_spec c 34) as [->|]; [left; exists 34; split; [done|set_solver]|].
  destruct (Z.eqb_spec c 92) as [->|]; [left; exists 92; split; [done|set_solver]|].
  destruct (Z.eqb_spec c 39) as [->|]; [left; exists 39; split; [done|set_solver]|].
  destruct (Z.eqb_spec c 10) as [->|]; [left; exists 110; split; [done|set_solver]|].
  by right.
Qed.

Lemma read_string_chars cs : ∀ acc r n start,
  (length (concat (map spell_char cs)) < n)%nat →
  reads (read_string n start (of_chars acc)) (concat (map spell_char cs) ++ 34 :: r)
    (λ v r', v = of_chars (acc ++ cs) ∧ r' = r).
Proof.
  induction cs as [|c cs IH]; intros acc r n start Hn; destruct n as [|n]; try lia;
    cbn [read_string map concat app] in *.
  - rd_step. rewrite bool_decide_eq_false_2 by done. rd_step. rd_if. rd_step. by rewrite app_nil_r.
  - destruct (spell_char_cases c) as [(e & He & Hin)|(He & H1 & H2 & H3 & H4)]; rewrite He in *;
      cbn [app] in *; rd_step; rewrite bool_decide_eq_false_2 by done; rd_step.
    + rd_if. eapply reads_bind; [by apply read_escape_spelled|]. intros v r' [-> ->].
      rewrite push_char_of_chars. eapply reads_mono; [apply IH; cbn in Hn; lia|].
      cbv beta. intros v r' [-> ->]. by rewrite <- app_assoc.
    + rewrite (proj2 (Z.eqb_neq c 34)), (proj2 (Z.eqb_neq c 92)), (proj2 (Z.eqb_neq c 10)) by done.
      rewrite push_char_of_chars. eapply reads_mono; [apply IH; cbn in Hn; lia|].
      cbv beta. intros v r' [-> ->]. by rewrite <- app_assoc.
Qed.

Lemma read_string_token cs r start :
  reads (read_token 34 start) ((concat (map spell_char cs) ++ [34]) ++ 32 :: r)
    (λ k r', k = String_ (of_chars cs) ∧ r' = 32 :: r).
Proof.
  unfold read_token. rd_if. rewrite <- app_assoc. cbn [app].
  eapply reads_bind; [apply reads_with_fuel, (read_string_chars cs [])|].
  { rewrite length_app. cbn. lia. }
  cbv beta. intros v r' [-> ->]. by rd_step.
Qed.

Lemma read_character_token c r start :
  reads (read_token 39 start) ((spell_char c ++ [39]) ++ 32 :: r)
    (λ k r', k = Character c ∧ r' = 32 :: r).
Proof.
  unfold read_token. rd_if. rewrite <- app_assoc. cbn [app].
  eapply (reads_bind _ _ _ (λ v r', v = c ∧ r' = 32 :: r)); [|intros v r' [-> ->]; by rd_step].
  unfold read_character.
  assert (∀ r1, reads (m ← match_char 39; if (m : bool) then mret c
    else lex_error "character literal must contain exactly one Unicode scalar value" start)
    (39 :: r1) (λ v r', v = c ∧ r' = r1)) as Hclose.
  { intros r1. eapply reads_bind; [apply reads_match_yes|]. intros b r' [-> ->]. by rd_step. }
  destruct (spell_char_cases c) as [(e & He & Hin)|(He & H1 & H2 & H3 & H4)]; rewrite He; cbn [app];
    rd_step; rd_step; rewrite !(bool_decide_eq_false_2 (_ = [])) by done; cbn [orb].
  - rewrite bool_decide_eq_false_2 by done. rewrite bool_decide_eq_true_2 by done.
    eapply (reads_bind _ _ _ (λ v r', v = c ∧ r' = 39 :: 32 :: r)).
    + rd_step. by apply read_escape_spelled.
    + intros v r' [-> ->]. apply Hclose.
  - rewrite !bool_decide_eq_false_2 by congruence.
    eapply (reads_bind _ _ _ (λ v r', v = c ∧ r' = 39 :: 32 :: r)).
    + rd_step. by intros a r' [-> ->].
    + intros v r' [-> ->]. apply Hclose.
Qed.

(** Every spelling is read as its token, up to the space after it. *)
Lemma read_spelled k text r start :
  spells k text → match text with
  | c :: t => reads (read_token c start) (t ++ 32 :: r) (λ k' r', k' = k ∧ r' = 32 :: r)
  | [] => False
  end.
Proof.
  intros Hs. destruct Hs as [s k Hin|s k Hin|c cs Hc Hpos Hcs Hn Hk|c cs Hs Hd Hmax|cs|c].
  - by apply read_punctuation.
  - by apply read_keyword.
  - rewrite read_token_identifier by (try done; by apply identifier_start_shape).
    eapply reads_mono; [by apply read_identifier_word|]. cbv beta. by rewrite Hk.
  - by apply read_integer.
  - apply read_string_token.
  - apply read_character_token.
Qed.

(** Text at which neither white space nor a comment starts. *)
Definition solid (r : list char) : Prop :=
  match r with
  | [] => True
  | c :: t => is_whitespace c = false ∧ (c = 47 → head t ≠ Some 47 ∧ head t ≠ Some 42)
  end.

Lemma letter_solid c t : is_letter c = true → solid (c :: t).
Proof.
  intros Hc. pose proof (xid_start_not_whitespace c) as Hx. pose proof (is_letter_ascii c Hc).
  rewrite xid_start_ascii in Hx by done. split; [auto|]. intros ->. done.
Qed.

Lemma spelled_solid k text r : spells k text → solid (text ++ 32 :: r).
Proof.
  intros Hs. destruct Hs as [s k Hin|s k Hin|c cs Hc Hpos Hcs Hn Hk|c cs Hs Hd Hmax|cs|c].
  - unfold punctuation in Hin.
    repeat (apply elem_of_cons in Hin as [[= -> ->]|Hin]; [by split; [|intros [=]]|]).
    by apply elem_of_nil in Hin.
  - assert (match ascii_chars s with c :: t => ascii_word c t | [] => false end = true) as Hw.
    { unfold keywords in Hin.
      repeat (apply elem_of_cons in Hin as [[= -> ->]|Hin]; [by vm_compute|]). by apply elem_of_nil in Hin. }
    destruct (ascii_chars s) as [|c cs]; [done|]. apply andb_true_iff in Hw as [Hc _].
    by apply letter_solid.
  - cbn [app]. unfold is_identifier_start in Hc. change (chr "_") with 95 in Hc.
    apply orb_true_iff in Hc as [Hc|Hc]; [apply Z.eqb_eq in Hc as ->; split; [done|lia]|].
    split; [by apply xid_start_not_whitespace|]. intros ->. by rewrite xid_start_ascii in Hc.
  - apply Forall_inv, digit_range in Hd. cbn [app]. split; [|lia].
    unfold is_whitespace. repeat (apply orb_false_iff; split); 
      repeat match goal with |- context [?a <=? ?b] => destruct (Z.leb_spec a b)
      | |- context [?a =? ?b] => destruct (Z.eqb_spec a b) end; try done; lia.
  - split; [done|lia].
  - split; [done|lia].
Qed.

Lemma skip_solid n r :
  solid r → reads (skip_whitespace_and_comments (S n)) r (λ _ r', r' = r).
Proof.
  intros Hr. cbn [skip_whitespace_and_comments]. rd_step. rd_step.
  destruct r as [|c t]; cbn [head tail]; [by rd_step|]. destruct Hr as [-> Hc].
  destruct (Z.eqb_spec c 47) as [->|]; cbn [andb]; [|by rd_step].
  destruct (Hc eq_refl) as [H1 H2]. rewrite !bool_decide_eq_false_2 by done. by rd_step.
Qed.

Lemma skip_space n r :
  solid r → reads (skip_whitespace_and_comments (S (S n))) (32 :: r) (λ _ r', r' = r).
Proof.
  intros Hr. set (m := S n). cbn [skip_whitespace_and_comments]. rd_step. rd_step. cbn [is_whitespace].
  change (is_whitespace 32) with true. cbv iota. rd_step. by apply skip_solid.
Qed.

(** Spellings, each followed by a space. *)
Definition printed (texts : list (list char)) : list char :=
  concat (map (λ t, t ++ [32]) texts).

Lemma printed_solid kinds texts : Forall2 spells kinds texts → solid (printed texts).
Proof.
  intros Hs. destruct Hs as [|k t kinds texts Hk Hs]; [done|]. unfold printed. cbn [map concat].
  rewrite <- app_assoc. by eapply (spelled_solid k).
Qed.

(** One space may be left in front of the spellings still to be read. *)
Lemma tokenize_printed kinds texts : Forall2 spells kinds texts → ∀ n tokens r,
  (r = printed texts ∨ r = 32 :: printed texts) → (length r < n)%nat →
  reads (tokenize_loop n tokens) r
    (λ ts r', map token_kind ts = map token_kind tokens ++ kinds ∧ r' = []).
Proof.
  induction 1 as [|k text kinds texts Hk Hs IH]; intros n tokens r Hr Hn.
  - destruct n as [|n]; [lia|]. cbn [tokenize_loop]. rd_step.
    destruct Hr as [-> | ->]; cbn [printed map concat] in *.
    + rewrite bool_decide_eq_true_2 by done. rd_step. by rewrite app_nil_r.
    + rewrite bool_decide_eq_false_2 by done.
      eapply reads_bind; [apply reads_with_fuel, (skip_space _ []); done|]. intros _ r ->.
      rd_step. rewrite bool_decide_eq_true_2 by done. rd_step. by rewrite app_nil_r.
  - destruct n as [|n]; [lia|].
    assert (solid (printed (text :: texts))) as Hsolid
      by (eapply (printed_solid (k :: kinds)); by constructor).
    pose proof (λ start, read_spelled k text (printed texts) start Hk) as Hread.
    destruct text as [|c t]; [destruct (Hread (mkPosition 0 0))|].
    assert (printed ((c :: t) :: texts) = c :: t ++ 32 :: printed texts) as Hp.
    { unfold printed. cbn [map concat app]. by rewrite <- app_assoc. }
    rewrite Hp in *. cbn [tokenize_loop]. rd_step.
    rewrite bool_decide_eq_false_2 by (destruct Hr as [-> | ->]; done).
    eapply (reads_bind _ _ _ (λ _ r', r' = c :: t ++ 32 :: printed texts)).
    { apply reads_with_fuel. destruct Hr as [-> | ->]; [by apply skip_solid|by apply skip_space]. }
    intros _ r' ->. rd_step. rewrite bool_decide_eq_false_2 by done. rd_step. rd_step.
    eapply reads_bind; [apply Hread|]. cbv beta. intros k' r' [-> ->]. rd_step.
    eapply reads_mono; [apply IH; [by right|]|].
    + destruct Hr as [-> | ->]; cbn in *; rewrite ?length_app in *; cbn in *; lia.
    + cbv beta. intros ts r' [Hts ->]. split; [|done]. rewrite Hts, map_app. cbn.
      by rewrite <- app_assoc.
Qed.

(** C11: Printing any sequence of tokens (keywords, punctuation, identifiers, integers,
    string and character literals; no floats, and no separators between digits) with a space
    after each and lexing the text gives
    exactly these tokens back, followed by the end of file. *)
Theorem lex_printed kinds texts :
  Forall2 spells kinds texts → scalars (printed texts) →
  ∃ tokens, lex (of_chars (printed texts)) = Ok tokens ∧ map token_kind tokens = kinds ++ [Eof].
Proof.
  intros Hs Hsc. unfold lex.
  assert (rest_of (new (of_chars (printed texts))) = printed texts) as Hr
    by (unfold rest_of; cbn; by apply chars_of_chars).
  assert (reads tokenize (printed texts)
    (λ ts r', map token_kind ts = kinds ++ [Eof])) as Htok.
  { unfold tokenize. eapply reads_bind.
    - apply reads_with_fuel, (tokenize_printed kinds texts Hs); [by left|lia].
    - cbv beta. intros ts r' [Hts ->]. rd_step. rd_step. rewrite map_app, Hts. done. }
  destruct (Htok _ Hr) as (ts & l' & -> & Hk). by exists ts.
Qed.
End spelled.

Lemma lex_printed_witness :
  ∃ tokens, lex (H := ascii_unicode) (of_chars (printed
      [ascii_chars "let"; ascii_chars "x1"; ascii_chars "="; ascii_chars "0042"; [39; 92; 110; 39]]))
    = Ok tokens ∧
    map token_kind tokens = [Let; Identifier "x1"; Equal; Integer 42; Character 10; Eof].
Proof.
  apply (lex_printed (H := ascii_unicode) [Let; Identifier "x1"; Equal; Integer 42; Character 10]).
  - constructor; [|constructor; [|constructor; [|constructor; [|constructor; [|constructor]]]]].
    + apply (spells_keyword (H := ascii_unicode) "let" Let). unfold keywords. left.
    + apply (spells_identifier (H := ascii_unicode) 120 [49]); try reflexivity; [lia|].
      repeat constructor.
    + apply (spells_punctuation (H := ascii_unicode) "=" Equal). unfold punctuation. set_solver.
    + apply (spells_integer (H := ascii_unicode) 48 [48; 52; 50]); [repeat constructor|repeat constructor|].
      vm_compute. discriminate.
    + apply (spells_character (H := ascii_unicode) 10).
  - repeat constructor.
Defined.

(** ** Bounds of literals *)

(** Every value [m] returns satisfies [P]. *)
Definition returns {A} (m : L A) (P : A → Prop) : Prop := ∀ l a l', m l = Ok (a, l') → P a.

Lemma returns_bind {A B} (m : L A) (f : A → L B) P : (∀ a, returns (f a) P) → returns (m ≫= f) P.
Proof.
  intros Hf l b l'. unfold mbind, L_bind. destruct (m l) as [[a l1]|e|]; cbn; [apply Hf|done|done].
Qed.
Lemma returns_ret {A} (a : A) (P : A → Prop) : P a → returns (mret a) P.
Proof. by intros Hp l b l' [= <- <-]. Qed.
Lemma returns_error {A} m p (P : A → Prop) : returns (lex_error m p) P.
Proof. done. Qed.
Lemma returns_invalid {A} v p r (P : A → Prop) : returns (invalid_number v p r) P.
Proof. done. Qed.

Ltac ret_step :=
  match goal with
  | |- returns (_ ≫= _) _ => apply returns_bind; intros ?; cbv beta
  | |- returns (if ?b then _ else _) _ => destruct b
  | |- returns (match ?o with Some _ => _ | None => _ end) _ => destruct o eqn:?
  | |- returns (match ?o with (_, _) => _ end) _ => destruct o
  | |- returns (mret _) _ => apply returns_ret
  | |- returns _ _ => first [apply returns_error | apply returns_invalid | by intros ? ? ? [=]]
  end.
Ltac rets := cbv zeta; repeat (ret_step; cbv zeta).

(** An integer token fits [u128]. *)
Definition in_u128 (k : TokenKind) : Prop :=
  match k with Integer n => 0 <= n <= U128_MAX | _ => True end.

Lemma keyword_in_u128 v k : keyword v = Some k → in_u128 k.
Proof.
  unfold keyword. intros Hk. apply fmap_Some in Hk as (kw & Hf & ->).
  apply find_some in Hf as [Hin _].
  assert (forallb (λ kw, match snd kw with Integer _ => false | _ => true end) keywords = true)
    as Hall by (vm_compute; reflexivity).
  rewrite forallb_forall in Hall. specialize (Hall kw Hin). by destruct (snd kw).
Qed.

Lemma read_token_in_u128 `{Unicode} c start : returns (read_token c start) in_u128.
Proof.
  unfold read_token, read_number, read_identifier, compound. rets; try done;
    first [by repeat case_match | by eapply keyword_in_u128 | by unfold parse_u128 in *;
      match goal with H : try_from _ _ = Some _ |- _ => apply try_from_some in H as [<- ?] end].
Qed.

Lemma tokenize_loop_in_u128 `{Unicode} n : ∀ ts,
  Forall (λ t, in_u128 (token_kind t)) ts →
  returns (tokenize_loop n ts) (Forall (λ t, in_u128 (token_kind t))).
Proof.
  induction n as [|n IH]; intros ts Hts; cbn [tokenize_loop]; [done|].
  ret_step. ret_step; [by ret_step|]. ret_step. ret_step. ret_step; [by ret_step|].
  apply returns_bind. intros p. apply returns_bind. intros c l res l'. unfold mbind, L_bind.
  destruct (read_token c p l) as [[k l1]|e|] eqn:E; cbn; [|done|done]. apply IH.
  apply Forall_app; split; [done|]. repeat constructor. cbn. by eapply read_token_in_u128.
Qed.

(** Every integer token of a lexed source fits the 128-bit unsigned range; a
    larger literal is refused, not wrapped. *)
Theorem integer_tokens_in_range `{Unicode} src tokens :
  lex src = Ok tokens → Forall (λ t, in_u128 (token_kind t)) tokens.
Proof.
  unfold lex, tokenize. intros Hl. inv_ok Hl. unfold mbind at 1, L_bind at 1 in Hv.
  destruct (with_fuel _ _) as [[ts l1]|e|] eqn:E; cbn in Hv; [|done|done].
  injection Hv as <- <-. injection Hl as <-.
  apply Forall_app; split; [|by repeat constructor].
  eapply tokenize_loop_in_u128; [constructor|exact E].
Qed.

Lemma integer_tokens_in_range_witness :
  Forall (λ t, in_u128 (token_kind t))
    (match lex (H := ascii_unicode) "340282366920938463463374607431768211455" with
     | Ok ts => ts | _ => [] end).
Proof.
  apply (integer_tokens_in_range (H := ascii_unicode) "340282366920938463463374607431768211455").
  vm_compute. reflexivity.
Defined.

(** The diagnostic for a float literal out of range is never given: a literal
    beyond the largest finite value lexes as infinity. *)
Theorem float_overflow_is_infinity :
  option_map (map token_kind)
    (match lex (H := ascii_unicode) "1e999" with Ok ts => Some ts | _ => None end)
  = Some [Float (SpecFloat.S754_infinity false); Eof].
Proof. vm_compute. reflexivity. Qed.
