(* ===== verification/StateM.v ===== *)
(** * Methods that read and update [self] and may fail

    [SM S E A]: code that runs on a state [S] and returns a value, returns an error (which
    the caller propagates with [?], so that the state it leaves is not observed), or
    panics. *)

From S2P Require Import Prelude.

Definition SM (S E A : Type) : Type := S → outcome E (A * S).

#[export] Instance SM_ret {S E} : MRet (SM S E) := λ A a s, Ok (a, s).
#[export] Instance SM_bind {S E} : MBind (SM S E) := λ A B f m s, '(a, s') ← m s; f a s'.

Section operations.
Context {S E : Type}.

Definition gets {A} (f : S → A) : SM S E A := λ s, Ok (f s, s).
Definition modify (f : S → S) : SM S E unit := λ s, Ok (tt, f s).
Definition throw {A} (e : E) : SM S E A := λ _, Err e.
Definition panic {A} : SM S E A := λ _, Panic.
Definition lift {A} (m : outcome E A) : SM S E A := λ s, a ← m; Ok (a, s).

(** A [for] loop that collects what its body returns. *)
Fixpoint mapS {A B} (f : A → SM S E B) (l : list A) : SM S E (list B) :=
  match l with
  | [] => mret []
  | a :: l => b ← f a; bs ← mapS f l; mret (b :: bs)
  end.

(** A [for] loop that only changes the state. *)
Fixpoint iterS {A} (f : A → SM S E unit) (l : list A) : SM S E unit :=
  match l with
  | [] => mret tt
  | a :: l => _ ← f a; iterS f l
  end.

(** A [for] loop that also carries a value. *)
Fixpoint foldS {A B} (f : B → A → SM S E B) (l : list A) (b : B) : SM S E B :=
  match l with
  | [] => mret b
  | a :: l => b ← f b a; foldS f l b
  end.

(** [if let Some(a) = o { f(a) }]. *)
Definition optS {A B} (f : A → SM S E B) (o : option A) : SM S E (option B) :=
  match o with
  | Some a => b ← f a; mret (Some b)
  | None => mret None
  end.
Definition whenS {A} (f : A → SM S E unit) (o : option A) : SM S E unit :=
  match o with Some a => f a | None => mret tt end.

(** ** Lemmas *)

Lemma SM_bind_ok {A B} (m : SM S E A) (f : A → SM S E B) s b s'' :
  (m ≫= f) s = Ok (b, s'') ↔ ∃ a s', m s = Ok (a, s') ∧ f a s' = Ok (b, s'').
Proof.
  unfold mbind, SM_bind. rewrite outcome_bind_ok. split.
  - intros ([a s'] & H1 & H2); eauto.
  - intros (a & s' & H1 & H2). by exists (a, s').
Qed.

(** The rule to run the first step of a sequence. *)
Lemma SM_bind_run {A B} (m : SM S E A) (f : A → SM S E B) s a s' :
  m s = Ok (a, s') → (m ≫= f) s = f a s'.
Proof. unfold mbind, SM_bind. by intros ->. Qed.

Lemma SM_bind_assoc {A B C} (m : SM S E A) (f : A → SM S E B) (g : B → SM S E C) s :
  ((m ≫= f) ≫= g) s = (m ≫= λ a, f a ≫= g) s.
Proof. unfold mbind, SM_bind. by destruct (m s) as [ [] | | ]. Qed.

(** [keeps m Q]: whatever [m] returns from [s], its result and the state it leaves are
    related to [s] by [Q]. *)
Definition keeps {A} (m : SM S E A) (Q : S → A → S → Prop) : Prop :=
  ∀ s a s', m s = Ok (a, s') → Q s a s'.

Lemma keeps_mono {A} (m : SM S E A) (Q R : S → A → S → Prop) :
  keeps m Q → (∀ s a s', Q s a s' → R s a s') → keeps m R.
Proof. intros H HQR s a s' Hm. auto. Qed.

(** A transitive relation on states that every step keeps is kept by the whole. *)
Section frame.
Context (R : S → S → Prop) `{!PreOrder R}.

Definition framed {A} (m : SM S E A) : Prop := keeps m (λ s _ s', R s s').

Lemma framed_ret {A} (a : A) : framed (mret a).
Proof. by intros s ? ? [= <- <-]. Qed.
Lemma framed_throw {A} (e : E) : framed (throw (A:=A) e).
Proof. by intros s a s'. Qed.
Lemma framed_gets {A} (f : S → A) : framed (gets f).
Proof. by intros s ? ? [= <- <-]. Qed.
Lemma framed_panic {A} : framed (panic (A:=A)).
Proof. by intros s a s'. Qed.
Lemma framed_lift {A} (m : outcome E A) : framed (lift m).
Proof. intros s a s'. unfold lift. destruct m; simpl; [|done..]. by intros [= <- <-]. Qed.

Lemma framed_bind {A B} (m : SM S E A) (f : A → SM S E B) :
  framed m → (∀ a, framed (f a)) → framed (m ≫= f).
Proof.
  intros Hm Hf s b s'' (a & s' & H1 & H2)%SM_bind_ok.
  etransitivity; [by eapply Hm|]. by eapply Hf.
Qed.

Lemma framed_iterS {A} (f : A → SM S E unit) l :
  Forall (λ a, framed (f a)) l → framed (iterS f l).
Proof. induction 1; simpl; [apply framed_ret|]. by apply framed_bind. Qed.

Lemma framed_mapS {A B} (f : A → SM S E B) l :
  Forall (λ a, framed (f a)) l → framed (mapS f l).
Proof.
  induction 1; simpl; [apply framed_ret|]. apply framed_bind; [done|]. intros b.
  apply framed_bind; [done|]. intros bs. apply framed_ret.
Qed.
End frame.

(** ** Specifications with an invariant

    [ensures Q m]: started in a state that satisfies [I], [m] does not panic; an error it
    returns satisfies [F]; a value satisfies [Q] and leaves a state that satisfies [I]. *)
Section invariant.
Context (I : S → Prop) (F : E → Prop).

Definition ensures {A} (Q : A → Prop) (m : SM S E A) : Prop := ∀ s, I s →
  match m s with Ok (a, s') => I s' ∧ Q a | Err e => F e | Panic => False end.

Lemma ensures_mono {A} (Q R : A → Prop) m :
  ensures Q m → (∀ a, Q a → R a) → ensures R m.
Proof.
  intros Hm HQR s Hs. specialize (Hm s Hs). destruct (m s) as [ [] | | ]; [|done..].
  destruct Hm; auto.
Qed.

Lemma ensures_ret {A} (Q : A → Prop) a : Q a → ensures Q (mret a).
Proof. by intros HQ s Hs. Qed.
Lemma ensures_throw {A} (Q : A → Prop) e : F e → ensures Q (throw e).
Proof. by intros HF s Hs. Qed.
Lemma ensures_gets {A} (Q : A → Prop) f : (∀ s, I s → Q (f s)) → ensures Q (gets f).
Proof. intros HQ s Hs. simpl. auto. Qed.
Lemma ensures_modify (Q : unit → Prop) f : (∀ s, I s → I (f s)) → Q tt → ensures Q (modify f).
Proof. intros HI HQ s Hs. simpl. auto. Qed.
Lemma ensures_lift {A} (Q : A → Prop) m :
  match m with Ok a => Q a | Err e => F e | Panic => False end → ensures Q (lift m).
Proof. intros Hm s Hs. unfold lift. by destruct m. Qed.

Lemma ensures_bind {A B} (Q : A → Prop) (R : B → Prop) m f :
  ensures Q m → (∀ a, Q a → ensures R (f a)) → ensures R (m ≫= f).
Proof.
  intros Hm Hf s Hs. specialize (Hm s Hs). unfold mbind, SM_bind.
  destruct (m s) as [ [a s'] | | ]; simpl; [|done..]. destruct Hm. by apply Hf.
Qed.

Lemma ensures_if {A} (Q : A → Prop) (b : bool) m1 m2 :
  (b = true → ensures Q m1) → (b = false → ensures Q m2) → ensures Q (if b then m1 else m2).
Proof. destruct b; auto. Qed.

Lemma ensures_mapS {A B} (Q : B → Prop) (f : A → SM S E B) l :
  Forall (λ a, ensures Q (f a)) l → ensures (Forall Q) (mapS f l).
Proof.
  induction 1; simpl; [by apply ensures_ret|].
  eapply ensures_bind; [done|]. intros b Hb.
  eapply ensures_bind; [done|]. intros bs Hbs. apply ensures_ret. by constructor.
Qed.

Lemma ensures_foldS {A B} (Q : B → Prop) (f : B → A → SM S E B) l b :
  Forall (λ a, ∀ b, Q b → ensures Q (f b a)) l → Q b → ensures Q (foldS f l b).
Proof.
  intros Hl. revert b. induction Hl; simpl; intros b Hb; [by apply ensures_ret|].
  eapply ensures_bind; eauto.
Qed.

Lemma ensures_iterS {A} (f : A → SM S E unit) l :
  Forall (λ a, ensures (λ _, True) (f a)) l → ensures (λ _, True) (iterS f l).
Proof.
  induction 1; simpl; [by apply ensures_ret|]. eapply ensures_bind; [done|]. auto.
Qed.

Lemma ensures_optS {A B} (Q : B → Prop) (f : A → SM S E B) o :
  (∀ a, o = Some a → ensures Q (f a)) →
  ensures (λ o, match o with Some b => Q b | None => True end) (optS f o).
Proof.
  destruct o; simpl; intros H; [|by apply ensures_ret].
  eapply ensures_bind; [by apply H|]. intros b Hb. by apply ensures_ret.
Qed.

Lemma ensures_whenS {A} (f : A → SM S E unit) o :
  (∀ a, o = Some a → ensures (λ _, True) (f a)) → ensures (λ _, True) (whenS f o).
Proof. destruct o; simpl; intros H; [by apply H|by apply ensures_ret]. Qed.

(** What a run from a good state returns. *)
Lemma ensures_ok {A} (Q : A → Prop) m s a s' :
  ensures Q m → I s → m s = Ok (a, s') → I s' ∧ Q a.
Proof. intros Hm Hs Heq. specialize (Hm s Hs). by rewrite Heq in Hm. Qed.
End invariant.

(** ** Runs that do not panic

    [safe (m s) Q], where the postcondition relates the result and the state left. *)

Lemma safe_bindS {A B} (m : SM S E A) (f : A → SM S E B) s (Q : A → S → Prop)
    (R : B * S → Prop) :
  safe (m s) (λ '(a, s'), Q a s') → (∀ a s', Q a s' → safe (f a s') R) →
  safe ((m ≫= f) s) R.
Proof.
  unfold mbind, SM_bind. destruct (m s) as [ [a s'] | | ]; simpl; [|done..]. auto.
Qed.

(** A step that leaves the state as it is. *)
Lemma safe_liftS {A B} (m : outcome E A) (f : A → SM S E B) s (Q : A → Prop) (R : B * S → Prop) :
  safe m Q → (∀ a, m = Ok a → Q a → safe (f a s) R) → safe ((lift m ≫= f) s) R.
Proof. unfold mbind, SM_bind, lift. destruct m; simpl; auto. Qed.

(** A loop with an invariant on the elements seen, the value carried and the state. *)
Lemma safe_foldS {A B} (f : B → A → SM S E B) (I : list A → B → S → Prop) l b s :
  (∀ done a rest b s, l = done ++ a :: rest → I done b s →
     safe (f b a s) (λ '(b', s'), I (done ++ [a]) b' s')) →
  I [] b s → safe (foldS f l b s) (λ '(b', s'), I l b' s').
Proof.
  intros Hstep. cut (∀ rest done b s, l = done ++ rest → I done b s →
    safe (foldS f rest b s) (λ '(b', s'), I l b' s')); [intros H; by apply (H l [])|].
  induction rest as [|a rest IH]; intros done b' s' ->; simpl.
  { by rewrite app_nil_r. }
  intros HI. eapply safe_bindS; [by apply (Hstep done a rest)|]. intros b'' s'' HI'.
  apply (IH (done ++ [a])); [by rewrite <- app_assoc|done].
Qed.

Lemma safe_iterS {A} (f : A → SM S E unit) (I : list A → S → Prop) l s :
  (∀ done a rest s, l = done ++ a :: rest → I done s →
     safe (f a s) (λ '(_, s'), I (done ++ [a]) s')) →
  I [] s → safe (iterS f l s) (λ '(_, s'), I l s').
Proof.
  intros Hstep. cut (∀ rest done s, l = done ++ rest → I done s →
    safe (iterS f rest s) (λ '(_, s'), I l s')); [intros H; by apply (H l [])|].
  induction rest as [|a rest IH]; intros done s' ->; simpl.
  { by rewrite app_nil_r. }
  intros HI. eapply safe_bindS; [by apply (Hstep done a rest)|]. intros [] s'' HI'.
  apply (IH (done ++ [a])); [by rewrite <- app_assoc|done].
Qed.
End operations.
