(* ===== verification/BTree.v ===== *)
(** * Ordered string maps

    Rust's [BTreeMap<String, V>]: a map whose iteration order is the byte order of its
    keys.  A map is the list of its entries in that order; [bt_insert] keeps it
    strictly increasing. *)

From Stdlib Require Import Sorted.
From S2P Require Import Prelude.

Definition btree (V : Type) : Type := list (string * V).

Fixpoint bt_get {V} (k : string) (m : btree V) : option V :=
  match m with
  | [] => None
  | (k', v) :: m => if String.eqb k k' then Some v else bt_get k m
  end.

(** [BTreeMap::insert], which replaces the value of a key that is present. *)
Fixpoint bt_insert {V} (k : string) (v : V) (m : btree V) : btree V :=
  match m with
  | [] => [(k, v)]
  | (k', v') :: m' =>
    match String.compare k k' with
    | Lt => (k, v) :: m
    | Eq => (k, v) :: m'
    | Gt => (k', v') :: bt_insert k v m'
    end
  end.

(** [BTreeMap::remove]. *)
Fixpoint bt_remove {V} (k : string) (m : btree V) : btree V :=
  match m with
  | [] => []
  | (k', v) :: m => if String.eqb k k' then m else (k', v) :: bt_remove k m
  end.

Definition str_lt (s t : string) : Prop := String.compare s t = Lt.
Definition bt_sorted {V} (m : btree V) : Prop :=
  StronglySorted (λ a b, str_lt (fst a) (fst b)) m.

(** ** Order *)

Lemma str_lt_trans : Transitive str_lt.
Proof.
  intros x. induction x as [|a x IH]; intros [|b y] [|c z]; unfold str_lt; simpl; try done.
  unfold Ascii.compare.
  destruct (N.compare_spec (Ascii.N_of_ascii a) (Ascii.N_of_ascii b)) as [E1|E1|E1]; [| |done];
  destruct (N.compare_spec (Ascii.N_of_ascii b) (Ascii.N_of_ascii c)) as [E2|E2|E2]; try done;
  intros H1 H2.
  - rewrite E1, E2, N.compare_refl. by eapply IH.
  - rewrite E1. by rewrite (proj2 (N.compare_lt_iff _ _) E2).
  - rewrite <- E2. by rewrite (proj2 (N.compare_lt_iff _ _) E1).
  - by rewrite (proj2 (N.compare_lt_iff _ _) (N.lt_trans _ _ _ E1 E2)).
Qed.

Lemma str_lt_irrefl s : ¬ str_lt s s.
Proof.
  unfold str_lt. induction s as [|a s IH]; simpl; [done|].
  unfold Ascii.compare. by rewrite N.compare_refl.
Qed.

Lemma str_compare_gt s t : String.compare s t = Gt → str_lt t s.
Proof.
  intros H. unfold str_lt. rewrite String.compare_antisym, H. done.
Qed.

(** ** Lookups *)

Lemma bt_get_insert {V} k k' (v : V) m :
  bt_get k (bt_insert k' v m) = if String.eqb k k' then Some v else bt_get k m.
Proof.
  induction m as [|[j w] m IH]; simpl; [done|].
  destruct (String.compare k' j) eqn:E; simpl.
  - apply String.compare_eq_iff in E as ->. by destruct (String.eqb k j).
  - done.
  - rewrite IH. destruct (String.eqb_spec k j) as [->|]; [|done].
    destruct (String.eqb_spec j k') as [->|]; [|done].
    apply str_compare_gt, str_lt_irrefl in E. done.
Qed.

Lemma bt_get_not_in {V} k (m : btree V) : k ∉ m.*1 → bt_get k m = None.
Proof.
  induction m as [|[j w] m IH]; simpl; [done|]. intros [Hj Hm]%not_elem_of_cons.
  rewrite (proj2 (String.eqb_neq k j) Hj). auto.
Qed.

Lemma bt_get_is_Some {V} k (m : btree V) : is_Some (bt_get k m) ↔ k ∈ m.*1.
Proof.
  induction m as [|[j w] m IH]; simpl.
  - split; [by intros []|]. by intros ?%not_elem_of_nil.
  - rewrite elem_of_cons, <- IH. destruct (String.eqb_spec k j); naive_solver.
Qed.

(** ** The order is kept *)

Lemma bt_insert_keys {V} k (v : V) m j : j ∈ (bt_insert k v m).*1 → j = k ∨ j ∈ m.*1.
Proof.
  induction m as [|[i w] m IH]; simpl; [rewrite list_elem_of_singleton; auto|].
  destruct (String.compare k i) eqn:E; simpl; rewrite !elem_of_cons; naive_solver.
Qed.

Lemma bt_sorted_cons {V} k (v : V) m :
  bt_sorted ((k, v) :: m) ↔ bt_sorted m ∧ Forall (str_lt k) m.*1.
Proof.
  unfold bt_sorted. rewrite Forall_fmap. split.
  - intros H. by inversion H.
  - intros [??]. by constructor.
Qed.

Lemma bt_insert_sorted {V} k (v : V) m : bt_sorted m → bt_sorted (bt_insert k v m).
Proof.
  induction m as [|[j w] m IH]; simpl.
  - intros _. apply bt_sorted_cons. split; constructor.
  - intros [Hm Hj]%bt_sorted_cons. destruct (String.compare k j) eqn:E.
    + apply String.compare_eq_iff in E as ->. by apply bt_sorted_cons.
    + apply bt_sorted_cons. split; [by apply bt_sorted_cons|]. simpl.
      constructor; [done|]. eapply Forall_impl; [exact Hj|].
      intros i. by apply str_lt_trans.
    + apply bt_sorted_cons. split; [by apply IH|]. apply str_compare_gt in E.
      apply Forall_forall. intros i [->|Hi]%bt_insert_keys; [done|].
      rewrite Forall_forall in Hj. auto.
Qed.

(** Inserting the entries of an ordered map one by one rebuilds it. *)
Lemma bt_insert_last {V} (m : btree V) k v :
  Forall (λ j, str_lt j k) m.*1 → bt_insert k v m = m ++ [(k, v)].
Proof.
  induction m as [|[j w] m IH]; simpl; [done|]. intros [Hj Hm]%Forall_cons.
  destruct (String.compare k j) eqn:E.
  - apply String.compare_eq_iff in E as ->. by apply str_lt_irrefl in Hj.
  - by destruct (str_lt_irrefl k (str_lt_trans _ _ _ E Hj)).
  - by rewrite IH.
Qed.

Lemma bt_sorted_app_last {V} (m : btree V) k v :
  bt_sorted (m ++ [(k, v)]) → Forall (λ j, str_lt j k) m.*1.
Proof.
  induction m as [|[j w] m IH]; simpl; [constructor|].
  intros [Hm Hj]%bt_sorted_cons. constructor; [|auto].
  rewrite fmap_app, Forall_app in Hj. destruct Hj as [_ Hj]. by inversion Hj.
Qed.

Lemma bt_sorted_app_l {V} (m m' : btree V) : bt_sorted (m ++ m') → bt_sorted m.
Proof.
  induction m as [|[j w] m IH]; simpl; [constructor|].
  intros [Hm Hj]%bt_sorted_cons. apply bt_sorted_cons. split; [auto|].
  rewrite fmap_app, Forall_app in Hj. by destruct Hj.
Qed.

#[export] Hint Resolve bt_insert_sorted : disp.
