(* ===== verification/Limits.v ===== *)
(** * Resource limits ([compiler/src/limits.rs])

    The safety limits of the compiler and the runtime, and the C preprocessor lines that
    hand the runtime defaults to native code. *)

From S2P Require Import Prelude Machine.
#[local] Open Scope string_scope.
#[local] Open Scope Z_scope.


(** Compiler input and work budgets *)
Definition MAX_SOURCE_BYTES : Z := 16 * 1024 * 1024.
Definition MAX_PROJECT_MODULES : Z := 1024.
Definition MAX_PROJECT_BYTES : Z := 64 * 1024 * 1024.
Definition MAX_MODULE_DEPTH : Z := 128.
Definition MAX_MANIFEST_BYTES : Z := 64 * 1024.
Definition MAX_PACKAGES : Z := 512.
Definition MAX_DEPENDENCY_DEPTH : Z := 128.
Definition MAX_PACKAGE_FILES : Z := 16384.
Definition MAX_PACKAGE_SOURCE_BYTES : Z := 256 * 1024 * 1024.
Definition MAX_LOCKFILE_BYTES : Z := 4 * 1024 * 1024.
Definition MAX_EXPANSION_DEPTH : Z := 64.
Definition MAX_GENERATED_NODES : Z := 65536.
Definition MAX_REPEAT_COUNT : Z := 4096.
Definition MAX_CONST_STEPS : Z := 100000.
Definition MAX_CONST_DEPTH : Z := 128.
Definition MAX_CONST_VALUE_NODES : Z := 65536.
Definition MAX_CONST_STRING_BYTES : Z := 1024 * 1024.
Definition MAX_EXPRESSION_DEPTH : Z := 32.
Definition MAX_OPERATOR_CHAIN : Z := 256.
Definition MAX_CALL_CHAIN : Z := 256.
Definition MAX_MONOMORPHIZATIONS : Z := 16384.
Definition MAX_GENERATED_C_BYTES : Z := 256 * 1024 * 1024.
Definition MAX_GENERATED_HEADER_BYTES : Z := 16 * 1024 * 1024.

(** Runtime defaults, which a deployment may lower *)
Definition DEFAULT_RUNTIME_MEMORY_BYTES : Z := 256 * 1024 * 1024.
Definition DEFAULT_RUNTIME_STEPS : Z := 100000000.
Definition DEFAULT_RUNTIME_OUTPUT_BYTES : Z := 16 * 1024 * 1024.
Definition DEFAULT_RUNTIME_CALL_DEPTH : Z := 32.
Definition DEFAULT_RUNTIME_TASKS : Z := 4096.
Definition DEFAULT_RUNTIME_THREADS : Z := 256.
Definition DEFAULT_RUNTIME_PROCESS_STARTS : Z := 256.
Definition DEFAULT_RUNTIME_HANDLES : Z := 4096.
Definition DEFAULT_RUNTIME_FILE_WRITE_BYTES : Z := 64 * 1024 * 1024.

(** OS-enforced child-tree sandbox defaults *)
Definition DEFAULT_CHILD_MEMORY_BYTES : Z := 512 * 1024 * 1024.
Definition DEFAULT_CHILD_CPU_MILLIS : Z := 60000.
Definition DEFAULT_CHILD_PROCESSES : Z := 64.
Definition DEFAULT_CHILD_WALL_MILLIS : Z := 24 * 60 * 60 * 1000.
Definition DEFAULT_TOOL_MEMORY_BYTES : Z := 2 * 1024 * 1024 * 1024.
Definition DEFAULT_TOOL_CPU_MILLIS : Z := 5 * 60 * 1000.
Definition DEFAULT_TOOL_PROCESSES : Z := 256.
Definition DEFAULT_TOOL_WALL_MILLIS : Z := 10 * 60 * 1000.
Definition DEFAULT_TOOL_OUTPUT_BYTES : Z := 16 * 1024 * 1024.
Definition DEFAULT_COMPONENT_MEMORY_BYTES : Z := 256 * 1024 * 1024.
Definition DEFAULT_COMPONENT_CPU_MILLIS : Z := 10000.
Definition DEFAULT_COMPONENT_PROCESSES : Z := 8.
Definition DEFAULT_COMPONENT_WALL_MILLIS : Z := 30000.
Definition DEFAULT_COMPONENT_OUTPUT_BYTES : Z := 16 * 1024 * 1024.

(** Protocol, storage, and child-process boundaries shared by both engines *)
Definition URL_BYTES : Z := 8192.
Definition JSON_BYTES : Z := 16 * 1024 * 1024.
Definition JSON_DEPTH : Z := 128.
Definition JSON_OBJECT_KEYS : Z := 4096.
Definition HTTP_HEADER_BYTES : Z := 64 * 1024.
Definition HTTP_BODY_BYTES : Z := 16 * 1024 * 1024.
Definition HTTP_REDIRECTS : Z := 10.
Definition HTTP_HEADERS : Z := 100.
Definition DATABASE_SQL_BYTES : Z := 1024 * 1024.
Definition DATABASE_ROWS : Z := 100000.
Definition DATABASE_COLUMNS : Z := 4096.
Definition PROCESS_ARGUMENTS : Z := 4096.
Definition PROCESS_ARGUMENT_BYTES : Z := 1024 * 1024.
Definition PROCESS_STREAM_BYTES : Z := 16 * 1024 * 1024.
Definition COMPONENT_MESSAGE_BYTES : Z := 8 * 1024 * 1024.
Definition TCP_READ_BYTES : Z := 16 * 1024 * 1024.
Definition UDP_RECEIVE_BYTES : Z := 65535.
Definition UDP_PAYLOAD_BYTES : Z := 65507.
Definition TYPE_CHECKER_STACK_BYTES : Z := 16 * 1024 * 1024.
Definition INTERPRETER_STACK_BYTES : Z := 32 * 1024 * 1024.

(** ** The native prelude *)

Definition newline : string := String (Ascii.ascii_of_nat 10) EmptyString.

(** The macros of the prelude with their values, in order. *)
Definition prelude_macros : list (string * Z) :=
  [ ("DISP_DEFAULT_MAX_MEMORY_BYTES", DEFAULT_RUNTIME_MEMORY_BYTES);
    ("DISP_DEFAULT_MAX_STEPS", DEFAULT_RUNTIME_STEPS);
    ("DISP_DEFAULT_MAX_OUTPUT_BYTES", DEFAULT_RUNTIME_OUTPUT_BYTES);
    ("DISP_DEFAULT_MAX_CALL_DEPTH", DEFAULT_RUNTIME_CALL_DEPTH);
    ("DISP_DEFAULT_MAX_TASKS", DEFAULT_RUNTIME_TASKS);
    ("DISP_DEFAULT_MAX_THREADS", DEFAULT_RUNTIME_THREADS);
    ("DISP_DEFAULT_MAX_PROCESS_STARTS", DEFAULT_RUNTIME_PROCESS_STARTS);
    ("DISP_DEFAULT_MAX_HANDLES", DEFAULT_RUNTIME_HANDLES);
    ("DISP_DEFAULT_MAX_FILE_WRITE_BYTES", DEFAULT_RUNTIME_FILE_WRITE_BYTES);
    ("DISP_DEFAULT_CHILD_MEMORY_BYTES", DEFAULT_CHILD_MEMORY_BYTES);
    ("DISP_DEFAULT_CHILD_CPU_MILLIS", DEFAULT_CHILD_CPU_MILLIS);
    ("DISP_DEFAULT_CHILD_PROCESSES", DEFAULT_CHILD_PROCESSES);
    ("DISP_DEFAULT_CHILD_WALL_MILLIS", DEFAULT_CHILD_WALL_MILLIS);
    ("DISP_URL_LIMIT", URL_BYTES);
    ("DISP_JSON_LIMIT", JSON_BYTES);
    ("DISP_JSON_DEPTH_LIMIT", JSON_DEPTH);
    ("DISP_JSON_KEY_LIMIT", JSON_OBJECT_KEYS);
    ("DISP_HTTP_HEADER_LIMIT", HTTP_HEADER_BYTES);
    ("DISP_HTTP_BODY_LIMIT", HTTP_BODY_BYTES);
    ("DISP_HTTP_REDIRECT_LIMIT", HTTP_REDIRECTS);
    ("DISP_HTTP_HEADER_COUNT_LIMIT", HTTP_HEADERS);
    ("DISP_DATABASE_SQL_LIMIT", DATABASE_SQL_BYTES);
    ("DISP_DATABASE_ROW_LIMIT", DATABASE_ROWS);
    ("DISP_DATABASE_COLUMN_LIMIT", DATABASE_COLUMNS);
    ("DISP_PROCESS_MAX_ARGUMENTS", PROCESS_ARGUMENTS);
    ("DISP_PROCESS_MAX_ARGUMENT_BYTES", PROCESS_ARGUMENT_BYTES);
    ("DISP_PROCESS_MAX_CAPTURE", PROCESS_STREAM_BYTES);
    ("DISP_TCP_READ_LIMIT", TCP_READ_BYTES);
    ("DISP_UDP_RECEIVE_LIMIT", UDP_RECEIVE_BYTES);
    ("DISP_UDP_PAYLOAD_LIMIT", UDP_PAYLOAD_BYTES) ].

Definition define_macro (macro : string * Z) : string :=
  "#define " +:+ fst macro +:+ " " +:+ display_Z (snd macro) +:+ "ULL" +:+ newline.

Definition native_prelude : string :=
  "#ifndef _WIN32" +:+ newline +:+ "#ifndef _GNU_SOURCE" +:+ newline
  +:+ "#define _GNU_SOURCE" +:+ newline +:+ "#endif" +:+ newline +:+ "#endif" +:+ newline
  +:+ foldr String.append "" (map define_macro prelude_macros).
