(* ===== verification/Ast.v ===== *)
(** * The syntax tree ([compiler/src/ast.rs])

    The data types of a parsed program and the analysis of closure captures.  The enums
    and the structs the expressions are made of are one mutual inductive type, nested in
    lists, options and [Spanned]; a struct of that group is a type with one constructor.
    Constructors carry the initial of their type ([EArray], [SBinding], [PWildcard]). *)

From Stdlib Require Import Floats.SpecFloat.
From S2P Require Import Prelude Machine Diagnostics BTree.
#[local] Open Scope string_scope.
#[local] Open Scope list_scope.
#[local] Open Scope Z_scope.

Abbreviation f64 := spec_float.

Record Spanned (T : Type) : Type := mkSpanned { node : T; span : Span }.
Arguments mkSpanned {T} node span.
Arguments node {T} _.
Arguments span {T} _.

Scheme All for list.
Scheme All for option.
Scheme All for Spanned.
Scheme All for prod.

(** ** Types and operators *)

Inductive TypeQualifier :=
| Owned | SharedReference | MutableReference | RawConstPointer | RawMutPointer.

Inductive TypeName : Type :=
| mkTypeName (name : string) (arguments : list TypeName) (qualifier : TypeQualifier)
    (span : Span).

Definition type_name (t : TypeName) : string :=
  match t with mkTypeName n _ _ _ => n end.
Definition type_arguments (t : TypeName) : list TypeName :=
  match t with mkTypeName _ a _ _ => a end.
Definition type_qualifier (t : TypeName) : TypeQualifier :=
  match t with mkTypeName _ _ q _ => q end.

Definition type_span (t : TypeName) : Span :=
  match t with mkTypeName _ _ _ s => s end.

Inductive BindingKind := BLet | BVar | BConst.

Inductive UnaryOperator := Negate | Not.

Inductive AssignmentOperator := AAssign | AAdd | ASubtract | AMultiply | ADivide.

Inductive BinaryOperator :=
| BAdd | BSubtract | BMultiply | BDivide | BRemainder | BEqual | BNotEqual | BLess
| BLessEqual | BGreater | BGreaterEqual | BAnd | BOr.

#[export] Instance TypeQualifier_eq_dec : EqDecision TypeQualifier.
Proof. solve_decision. Defined.
#[export] Instance BindingKind_eq_dec : EqDecision BindingKind.
Proof. solve_decision. Defined.
#[export] Instance UnaryOperator_eq_dec : EqDecision UnaryOperator.
Proof. solve_decision. Defined.
#[export] Instance AssignmentOperator_eq_dec : EqDecision AssignmentOperator.
Proof. solve_decision. Defined.
#[export] Instance BinaryOperator_eq_dec : EqDecision BinaryOperator.
Proof. solve_decision. Defined.

(** ** Capabilities *)

Inductive Capability :=
| FileSystem | Network | Process | Foreign | RawMemory | DeviceIo | Timer | Random | Gpu | Ui.
#[export] Instance Capability_eq_dec : EqDecision Capability.
Proof. solve_decision. Defined.

Definition Capability_ALL : list Capability :=
  [FileSystem; Network; Process; Foreign; RawMemory; DeviceIo; Timer; Random; Gpu; Ui].

Definition capability_name (c : Capability) : string :=
  match c with
  | FileSystem => "FileSystem"
  | Network => "Network"
  | Process => "Process"
  | Foreign => "Foreign"
  | RawMemory => "RawMemory"
  | DeviceIo => "DeviceIo"
  | Timer => "Timer"
  | Random => "Random"
  | Gpu => "Gpu"
  | Ui => "Ui"
  end.

Definition capability_from_name (name : string) : option Capability :=
  List.find (λ c, String.eqb (capability_name c) name) Capability_ALL.

Record CapabilityUse := mkCapabilityUse { use_capability : Capability; use_span : Span }.

(** ** Patterns *)

Inductive Pattern : Type :=
| PWildcard
| PBinding (name : string)
| PInteger (value : Z)
| PNegativeInteger (value : Z)
| PString (value : string)
| PCharacter (value : char)
| PBool (value : bool)
| POr (alternatives : list (Spanned Pattern))
| PStruct (type_name : string) (fields : list StructPatternField) (rest : bool)
| PVariant (type_name : option string) (variant : string) (arguments : list (Spanned Pattern))
with StructPatternField : Type :=
| mkStructPatternField (name : string) (name_span : Span) (pattern : Spanned Pattern).

Definition pattern_field_name (f : StructPatternField) : string :=
  match f with mkStructPatternField n _ _ => n end.
Definition pattern_field_pattern (f : StructPatternField) : Spanned Pattern :=
  match f with mkStructPatternField _ _ p => p end.

(** ** Expressions and statements *)

Inductive DataQueryKind := Rows | Count | Exists | Sum | Average | Min | Max.
#[export] Instance DataQueryKind_eq_dec : EqDecision DataQueryKind.
Proof. solve_decision. Defined.

Definition data_query_name (k : DataQueryKind) : string :=
  match k with
  | Rows => "find"
  | Count => "count"
  | Exists => "exists"
  | Sum => "sum"
  | Average => "average"
  | Min => "min"
  | Max => "max"
  end.

Record Param := mkParam {
  parameter_name : string;
  parameter_name_span : Span;
  parameter_ty : TypeName }.

Inductive Expression : Type :=
| EArray (values : list (Spanned Expression))
| EInteger (value : Z)
| EFloat (value : f64)
| EString (value : string)
| ECharacter (value : char)
| EBool (value : bool)
| EDataStore (path : option (Spanned Expression))
| EDataWrite (value store : Spanned Expression) (replace : bool)
| EDataQuery (kind : DataQueryKind) (schema : string) (schema_span : Span)
    (aggregate : option (Spanned Expression)) (store : Spanned Expression)
    (predicate : option (Spanned Expression)) (order : option DataOrder)
    (limit : option (Spanned Expression))
| EDataRemove (schema : string) (schema_span : Span) (store predicate : Spanned Expression)
| EClosure (move_captures : bool) (parameters : list Param) (return_type : option TypeName)
    (body : ClosureBody)
| EIdentifier (name : string)
| EStructConstruct (name : string) (name_span : Span) (fields : list StructFieldValue)
| EFieldAccess (object : Spanned Expression) (field : string) (field_span : Span)
| EIndex (object index : Spanned Expression)
| ESubslice (object start end_ : Spanned Expression)
| EMatch (value : Spanned Expression) (arms : list MatchArm)
| ETry (value : Spanned Expression)
| EAwait (value : Spanned Expression)
| ESpawn (value : Spanned Expression)
| EMove (value : Spanned Expression)
| EBorrow (mutable : bool) (target : Spanned Expression)
| EDereference (value : Spanned Expression)
| EUnary (operator : UnaryOperator) (operand : Spanned Expression)
| EBinary (left : Spanned Expression) (operator : BinaryOperator) (right : Spanned Expression)
| ECall (callee : Spanned Expression) (arguments : list (Spanned Expression))
with DataOrder : Type :=
| mkDataOrder (key : Spanned Expression) (descending : bool) (span : Span)
with ClosureBody : Type :=
| CExpression (value : Spanned Expression)
| CBlock (block : Block)
with StructFieldValue : Type :=
| mkStructFieldValue (name : string) (name_span : Span) (value : Spanned Expression)
with MatchArm : Type :=
| mkMatchArm (pattern : Spanned Pattern) (alternative_group : option Z)
    (guard : option (Spanned Expression)) (value : Spanned Expression) (span : Span)
with Statement : Type :=
| SBinding (kind : BindingKind) (name : string) (name_span : Span)
    (annotation : option TypeName) (value : option (Spanned Expression))
| SAssignment (name : string) (name_span : Span) (operator : AssignmentOperator)
    (value : Spanned Expression)
| SPlaceAssignment (target : Spanned Expression) (operator : AssignmentOperator)
    (value : Spanned Expression)
| SExpression (value : Spanned Expression)
| SReturn (value : option (Spanned Expression))
| SIf (condition : Spanned Expression) (then_branch : Block) (else_branch : option Block)
| SWhile (condition : Spanned Expression) (body : Block)
| SFor (name : string) (name_span : Span) (start end_ : Spanned Expression) (inclusive : bool)
    (body : Block)
| SForEach (name : string) (name_span : Span) (iterable : Spanned Expression) (body : Block)
| SLoop (body : Block)
| SUnsafe (capabilities : option (list CapabilityUse)) (body : Block)
| SBreak
| SContinue
with Block : Type :=
| mkBlock (statements : list (Spanned Statement)) (span : Span).

Abbreviation Expr := (Spanned Expression).
Abbreviation Stmt := (Spanned Statement).

Definition block_statements (b : Block) : list Stmt :=
  match b with mkBlock s _ => s end.
Definition block_span (b : Block) : Span :=
  match b with mkBlock _ s => s end.

(** ** Declarations *)

Record ModuleDeclaration := mkModuleDeclaration {
  module_path : list (Spanned string);
  module_span : Span }.

Record ImportItem := mkImportItem {
  item_name : string;
  item_name_span : Span;
  item_alias : string;
  item_alias_span : Span;
  item_span : Span }.

Record ImportDeclaration := mkImportDeclaration {
  import_path : list (Spanned string);
  import_items : option (list ImportItem);
  import_public : bool;
  import_span : Span }.

Record GenericParameter := mkGenericParameter {
  generic_name : string;
  generic_name_span : Span;
  generic_constraints : list TypeName }.

Record FieldDeclaration := mkFieldDeclaration {
  field_name : string;
  field_name_span : Span;
  field_ty : TypeName;
  field_primary : bool;
  field_unique : bool;
  field_indexed : bool;
  field_migration_from : option (Spanned string);
  field_migration_default : option Expr }.

Inductive DataConstraintKind := Unique | Index.

Record DataConstraintDeclaration := mkDataConstraintDeclaration {
  constraint_name : string;
  constraint_name_span : Span;
  constraint_kind : DataConstraintKind;
  constraint_fields : list (Spanned string);
  constraint_span : Span }.

Record StructDeclaration := mkStructDeclaration {
  struct_name : string;
  struct_name_span : Span;
  struct_data : bool;
  struct_c_abi : bool;
  struct_generics : list GenericParameter;
  struct_fields : list FieldDeclaration;
  struct_data_constraints : list DataConstraintDeclaration;
  struct_span : Span }.

Record VariantDeclaration := mkVariantDeclaration {
  variant_name : string;
  variant_name_span : Span;
  variant_payload : list TypeName }.

Record EnumDeclaration := mkEnumDeclaration {
  enum_name : string;
  enum_name_span : Span;
  enum_generics : list GenericParameter;
  enum_variants : list VariantDeclaration;
  enum_span : Span }.

Inductive ExternalAbi := AbiC.

Record ExternalFunction := mkExternalFunction {
  external_abi : ExternalAbi;
  external_library : option string;
  external_link_name : string }.

Record Function := mkFunction {
  fn_asynchronous : bool;
  fn_name : string;
  fn_name_span : Span;
  fn_generics : list GenericParameter;
  fn_parameters : list Param;
  fn_return_type : option TypeName;
  fn_capabilities : option (list CapabilityUse);
  fn_body : Block;
  fn_external : option ExternalFunction;
  fn_exported : bool;
  fn_span : Span }.

Record FunctionSignature := mkFunctionSignature {
  sig_asynchronous : bool;
  sig_name : string;
  sig_name_span : Span;
  sig_generics : list GenericParameter;
  sig_parameters : list Param;
  sig_return_type : option TypeName;
  sig_capabilities : option (list CapabilityUse);
  sig_span : Span }.

Record TraitDeclaration := mkTraitDeclaration {
  trait_name : string;
  trait_name_span : Span;
  trait_generics : list GenericParameter;
  trait_associated_types : list (string * Span);
  trait_methods : list FunctionSignature;
  trait_span : Span }.

Record Implementation := mkImplementation {
  impl_generics : list GenericParameter;
  impl_trait_name : option TypeName;
  impl_target : TypeName;
  impl_associated_types : list (string * TypeName * Span);
  impl_methods : list Function;
  impl_span : Span }.

Record Program := mkProgram {
  program_source_files : list SourceFile;
  program_module : option ModuleDeclaration;
  program_imports : list ImportDeclaration;
  program_public_items : list (Spanned string);
  program_structs : list StructDeclaration;
  program_enums : list EnumDeclaration;
  program_traits : list TraitDeclaration;
  program_implementations : list Implementation;
  program_functions : list Function }.

(** ** Induction over the syntax

    The mutual principle: each nested occurrence carries its hypothesis through
    [list_all], [option_all] and [Spanned_all]. *)

Scheme Pattern_mind := Induction for Pattern Sort Prop
with StructPatternField_mind := Induction for StructPatternField Sort Prop.

Scheme Expression_mind := Induction for Expression Sort Prop
with DataOrder_mind := Induction for DataOrder Sort Prop
with ClosureBody_mind := Induction for ClosureBody Sort Prop
with StructFieldValue_mind := Induction for StructFieldValue Sort Prop
with MatchArm_mind := Induction for MatchArm Sort Prop
with Statement_mind := Induction for Statement Sort Prop
with Block_mind := Induction for Block Sort Prop.

Combined Scheme syntax_mind from Expression_mind, DataOrder_mind, ClosureBody_mind,
  StructFieldValue_mind, MatchArm_mind, Statement_mind, Block_mind.

Lemma Spanned_all_node {T : Set} (P : T → Prop) s : Spanned_all T P s → P (node s).
Proof. by destruct 1. Qed.

Lemma list_all_Forall {A : Set} (P : A → Prop) l : list_all A P l → Forall P l.
Proof. induction 1; constructor; auto. Qed.

Lemma list_all_node {T : Set} (P : T → Prop) l :
  list_all (Spanned T) (Spanned_all T P) l → Forall (λ s, P (node s)) l.
Proof. induction 1; constructor; [by apply (Spanned_all_node P)|done]. Qed.

Lemma list_all_snd {A B : Set} (P : B → Prop) l :
  list_all (A * B) (prod_all A (λ _, unit) B P) l → Forall (λ p, P (snd p)) l.
Proof. induction 1 as [|? [] ]; constructor; auto. Qed.

Definition on_some {A} (P : A → Prop) (o : option A) : Prop :=
  match o with Some a => P a | None => True end.

Lemma option_all_Some {A : Set} (P : A → Prop) o : option_all A P o → on_some P o.
Proof. by destruct 1. Qed.

Lemma option_all_node {T : Set} (P : T → Prop) o :
  option_all (Spanned T) (Spanned_all T P) o → on_some (λ s, P (node s)) o.
Proof. destruct 1; [by apply (Spanned_all_node P)|done]. Qed.

(** Turn the hypotheses of the principle into facts on nodes, [Forall]s and subterms. *)
Ltac nested :=
  repeat match goal with
  | H : _ |- _ =>
      first [ apply Spanned_all_node in H
            | apply list_all_node in H
            | apply list_all_Forall in H
            | apply option_all_node in H
            | apply option_all_Some in H ]
  end.

Scheme TypeName_mind := Induction for TypeName Sort Prop.

Lemma type_induction (P : TypeName → Prop) :
  (∀ name arguments qualifier s, Forall P arguments →
     P (mkTypeName name arguments qualifier s)) → ∀ ty, P ty.
Proof. intros H ty. induction ty using TypeName_mind; nested. by apply H. Qed.

(** ** Capability names *)

Lemma capability_from_name_spec name c :
  capability_from_name name = Some c ↔ capability_name c = name.
Proof.
  split.
  - intros [_ H]%List.find_some. by apply String.eqb_eq.
  - intros <-. by destruct c.
Qed.
