(* ===== verification/Hir.v ===== *)
(** * The high-level intermediate representation ([compiler/src/hir.rs])

    The data types of a lowered program, as the native backend reads them: the types of
    values, declarations, and the typed bodies of functions.  Identities ([FunctionId],
    [StructId], ...) are indices, kept as [nat]; a variant, which is only compared, as [Z].  Constructors of types carry a [T],
    of expressions an [X], of statements an [H] (for "high-level"). *)

From S2P Require Import Prelude Machine Diagnostics Ast.
#[local] Open Scope string_scope.
#[local] Open Scope list_scope.
#[local] Open Scope Z_scope.

(** ** Identities *)

Abbreviation FunctionId := nat (only parsing).
Abbreviation HLocalId := nat (only parsing).
Abbreviation TypeId := nat (only parsing).
Abbreviation StructId := nat (only parsing).
Abbreviation EnumId := nat (only parsing).
Abbreviation VariantId := Z (only parsing).
Abbreviation TraitId := nat (only parsing).
Abbreviation ImplId := nat (only parsing).
Abbreviation DataPlanId := nat (only parsing).

(** ** Types of values *)

Inductive Ty : Set :=
| TUnit | TBool | TChar | TString | TStr | TCString | TCStr | TMemory | TSecretBytes
| TAeadEnvelope | TEd25519SigningKey | TPath | TUrl | TJson | TIpAddress | TSocketAddress
| TTcpStream | TTlsStream | THttpRequest | THttpResponse | TTcpListener | TUdpSocket
| TUdpDatagram | TInstant | TDuration | TProcessCommand | TChildProcess | TProcessOutput
| TDatabase | TDataStore
| TArray (element : Ty) (length : Z)
| TSlice (element : Ty)
| TList (element : Ty)
| TMap (key value : Ty)
| TSet (element : Ty)
| TThread (result : Ty)
| TFuture (result : Ty)
| TTask (result : Ty)
| TMutex (value : Ty)
| TMutexGuard (value : Ty)
| TChannel (value : Ty)
| TAtomicInt
| TInt (signed : bool) (width : option Z)
| TFloat (width : Z)
| TReference (mutable : bool) (inner : Ty)
| TRawPointer (mutable : bool) (inner : Ty)
| TMemoryPointer (mutable : bool) (inner : Ty)
| TStruct (id : StructId) (arguments : list Ty)
| TEnum (id : EnumId) (arguments : list Ty)
| TOption (inner : Ty)
| TResult (ok error : Ty)
| TGeneric (name : string)
| TFunction (arguments : list Ty) (result : Ty)
| TCFunction (arguments : list Ty) (result : Ty)
| TCRegistration
| TUnknown.

#[export] Instance Ty_eq_dec : EqDecision Ty.
Proof.
  unfold EqDecision, Decision. fix go 1.
  assert (gos : ∀ xs ys : list Ty, {xs = ys} + {xs ≠ ys}) by exact (List.list_eq_dec go).
  intros x y. decide equality; solve [apply gos | apply go | clear go gos; apply (decide _)].
Defined.

(** Induction over types, with the hypothesis on every argument of a constructor. *)
Section induction.
Context (P : Ty → Prop).
Context (leaf : ∀ t, match t with
  | TArray _ _ | TSlice _ | TList _ | TMap _ _ | TSet _ | TThread _ | TFuture _ | TTask _
  | TMutex _ | TMutexGuard _ | TChannel _ | TReference _ _ | TRawPointer _ _
  | TMemoryPointer _ _ | TStruct _ _ | TEnum _ _ | TOption _ | TResult _ _
  | TFunction _ _ | TCFunction _ _ => True
  | _ => P t
  end).
Context (one : ∀ c t, c ∈ [TSlice; TList; TSet; TThread; TFuture; TTask; TMutex; TMutexGuard;
  TChannel; TOption] → P t → P (c t)).
Context (array : ∀ t n, P t → P (TArray t n)).
Context (pointer : ∀ c b t, c ∈ [TReference; TRawPointer; TMemoryPointer] → P t → P (c b t)).
Context (two : ∀ c t u, c ∈ [TMap; TResult] → P t → P u → P (c t u)).
Context (named : ∀ c n ts, c ∈ [TStruct; TEnum] → Forall P ts → P (c n ts)).
Context (arrow : ∀ c ts t, c ∈ [TFunction; TCFunction] → Forall P ts → P t → P (c ts t)).

Lemma Ty_nested_ind t : P t.
Proof.
  revert t. fix IH 1. intros t.
  assert (IHs : ∀ ts, Forall P ts) by (fix IHs 1; intros [|u ts]; constructor; auto).
  pose proof (leaf t) as Hl.
  destruct t; try exact Hl; clear Hl.
  - apply array, IH.
  - apply one; [set_solver|apply IH].
  - apply one; [set_solver|apply IH].
  - apply two; [set_solver|apply IH..].
  - apply one; [set_solver|apply IH].
  - apply one; [set_solver|apply IH].
  - apply one; [set_solver|apply IH].
  - apply one; [set_solver|apply IH].
  - apply one; [set_solver|apply IH].
  - apply one; [set_solver|apply IH].
  - apply one; [set_solver|apply IH].
  - apply pointer; [set_solver|apply IH].
  - apply pointer; [set_solver|apply IH].
  - apply pointer; [set_solver|apply IH].
  - apply named; [set_solver|apply IHs].
  - apply named; [set_solver|apply IHs].
  - apply one; [set_solver|apply IH].
  - apply two; [set_solver|apply IH..].
  - apply arrow; [set_solver|apply IHs|apply IH].
  - apply arrow; [set_solver|apply IHs|apply IH].
Qed.
End induction.

(** ** Constants and typed data expressions *)

Inductive HConstant : Type :=
| KSigned (value : Z) (width : option Z)
| KUnsigned (value : Z) (width : option Z)
| KFloat (value : f64) (width : Z)
| KBool (value : bool)
| KChar (value : char)
| KString (value : string)
| KUnit.

Inductive DataExprKind : Type :=
| DField (index : Z)
| DParameter (index : Z)
| DConstant (value : HConstant)
| DUnary (operator : UnaryOperator) (operand : DataExpr)
| DBinary (operator : BinaryOperator) (left right : DataExpr)
with DataExpr : Type :=
| mkDataExpr (kind : DataExprKind) (ty : Ty) (span : Span).

Inductive DataOperation : Type :=
| DAdd (replace : bool)
| DFind (predicate : option DataExpr) (order : option (DataExpr * bool))
    (limit_argument : option Z)
| DAggregate (kind : DataQueryKind) (value predicate : option DataExpr)
| DRemove (predicate : DataExpr).

Record DataPlan := mkDataPlan {
  plan_schema : StructId;
  plan_operation : DataOperation;
  plan_span : Span }.

(** ** Declarations *)

Record HField := mkHField {
  hf_index : Z;
  hf_name : string;
  hf_ty : Ty;
  hf_primary : bool;
  hf_unique : bool;
  hf_indexed : bool;
  hf_migration_from : option string;
  hf_migration_default : option HConstant;
  hf_span : Span }.

Record HDataConstraint := mkHDataConstraint {
  hdc_name : string;
  hdc_unique : bool;
  hdc_fields : list Z;
  hdc_span : Span }.

Record HStruct := mkHStruct {
  hs_id : StructId;
  hs_type_id : TypeId;
  hs_name : string;
  hs_data : bool;
  hs_c_abi : bool;
  hs_fields : list HField;
  hs_data_constraints : list HDataConstraint;
  hs_span : Span;
  hs_generic_parameters : list string }.

Record HVariant := mkHVariant {
  hv_id : VariantId;
  hv_index : Z;
  hv_name : string;
  hv_payload : list Ty;
  hv_span : Span }.

Record HEnum := mkHEnum {
  he_id : EnumId;
  he_type_id : TypeId;
  he_name : string;
  he_variants : list HVariant;
  he_span : Span;
  he_generic_parameters : list string }.

Record HTrait := mkHTrait { ht_id : TraitId; ht_name : string; ht_span : Span }.

Record HImplementation := mkHImplementation {
  hi_id : ImplId;
  hi_trait_id : option TraitId;
  hi_target : Ty;
  hi_methods : list FunctionId;
  hi_span : Span;
  hi_generic_parameters : list string }.

Record HLocal := mkHLocal {
  hl_id : HLocalId;
  hl_name : string;
  hl_ty : Ty;
  hl_mutable : bool;
  hl_parameter : bool;
  hl_span : Span }.

(** ** Bodies of functions *)

Inductive CallTarget : Type :=
| CTFunction (function : FunctionId)
| CTTraitMethod (trait_id : TraitId) (method : nat)
| CTCallable
| CTForeignCallable
| CTIntrinsic (name : string)
| CTData (plan : DataPlanId).

Inductive ReceiverMode := RMove | RShared | RMutable.

Inductive HPattern : Type :=
| HPWildcard
| HPBinding (local : HLocalId)
| HPConstant (value : HConstant)
| HPStruct (struct_id : StructId) (fields : list (Z * HPattern))
| HPVariant (enum_id : EnumId) (variant_id : VariantId) (arguments : list HPattern).

Inductive HExprKind : Type :=
| XArray (values : list HExpr)
| XIndex (object index : HExpr)
| XSubslice (object start end_ : HExpr)
| XConstant (value : HConstant)
| XLocal (local : HLocalId)
| XFunction (function : FunctionId)
| XClosure (function : FunctionId) (captures : list HExpr)
| XStruct (id : StructId) (fields : list (Z * HExpr))
| XVariant (enum_id : EnumId) (variant_id : VariantId)
| XEnumConstruct (enum_id : EnumId) (variant_id : VariantId) (payload : list HExpr)
| XField (object : HExpr) (index : Z)
| XMatch (value : HExpr) (arms : list HMatchArm)
| XTry (value : HExpr)
| XAwait (value : HExpr)
| XSpawn (call : HCall)
| XMove (place : HPlace)
| XBorrow (mutable : bool) (place : HPlace)
| XDereference (value : HExpr) (raw : bool)
| XUnary (operator : UnaryOperator) (operand : HExpr)
| XBinary (left : HExpr) (operator : BinaryOperator) (right : HExpr)
| XCall (call : HCall)
with HExpr : Type :=
| mkHExpr (kind : HExprKind) (ty : Ty) (span : Span)
with HCall : Type :=
| mkHCall (target : CallTarget) (arguments : list HExpr) (receiver : option ReceiverMode)
    (substitutions : list Ty)
with HMatchArm : Type :=
| mkHMatchArm (pattern : HPattern) (guard : option HExpr) (value : HExpr) (span : Span)
with HPlace : Type :=
| mkHPlace (local : HLocalId) (projections : list HProjection)
with HProjection : Type :=
| HPField (index : Z)
| HPSafeDereference
| HPRawDereference
| HPVariantField (variant : VariantId) (index : Z)
| HPIndex (index : HExpr)
| HPSubslice (start end_ : HExpr).

Inductive HStatementKind : Type :=
| HLet (local : HLocalId) (value : option HExpr)
| HAssign (target : HPlace) (operator : AssignmentOperator) (value : HExpr)
| HExpression (value : HExpr)
| HReturn (value : option HExpr)
| HIf (condition : HExpr) (then_block : HBlock) (else_block : option HBlock)
| HWhile (condition : HExpr) (body : HBlock)
| HFor (local : HLocalId) (start end_ : HExpr) (inclusive : bool) (body : HBlock)
| HForEach (local : HLocalId) (iterable : HExpr) (body : HBlock)
| HLoop (body : HBlock)
| HUnsafe (capabilities : option (list Capability)) (body : HBlock)
| HBreak
| HContinue
with HStatement : Type :=
| mkHStatement (kind : HStatementKind) (span : Span)
with HBlock : Type :=
| mkHBlock (statements : list HStatement) (span : Span).

Record HFunction := mkHFunction {
  hfn_id : FunctionId;
  hfn_name : string;
  hfn_parameters : list HLocalId;
  hfn_capture_count : Z;
  hfn_asynchronous : bool;
  hfn_locals : list HLocal;
  hfn_return_type : Ty;
  hfn_body : HBlock;
  hfn_generic_parameters : list string;
  hfn_owner_impl : option ImplId;
  hfn_external : option ExternalFunction;
  hfn_exported : bool;
  hfn_span : Span }.

Record HProgram := mkHProgram {
  hp_source_files : list SourceFile;
  hp_structs : list HStruct;
  hp_enums : list HEnum;
  hp_traits : list HTrait;
  hp_implementations : list HImplementation;
  hp_functions : list HFunction;
  hp_copy_types : gset TypeId;
  hp_data_plans : list DataPlan }.

(** ** Copy types *)

Fixpoint is_copy (program : HProgram) (ty : Ty) : bool :=
  match ty with
  | TUnit | TBool | TChar | TInt _ _ | TFloat _ | TInstant | TDuration | TIpAddress
  | TReference _ _ | TRawPointer _ _ | TMemoryPointer _ _ | TCFunction _ _ => true
  | TStruct id _ => bool_decide (id ∈ hp_copy_types program)
  | TEnum id _ =>
      bool_decide ((length (hp_structs program) + id)%nat ∈ hp_copy_types program)
  | TOption inner => is_copy program inner
  | TResult ok error => is_copy program ok && is_copy program error
  | TArray element _ => is_copy program element
  | TSlice _ | TStr | TCStr => true
  | TString | TCString | TMemory | TSecretBytes | TAeadEnvelope | TEd25519SigningKey | TPath
  | TUrl | TJson | TSocketAddress | TTcpStream | TTlsStream | THttpRequest | THttpResponse
  | TTcpListener | TUdpSocket | TUdpDatagram | TList _ | TMap _ _ | TSet _ | TThread _
  | TFuture _ | TTask _ | TMutex _ | TMutexGuard _ | TChannel _ | TAtomicInt
  | TProcessCommand | TChildProcess | TProcessOutput | TDatabase | TDataStore | TGeneric _
  | TFunction _ _ | TCRegistration | TUnknown => false
  end.

(** ** The identities of the built-in variants *)

Definition stable_builtin (name : string) : Z :=
  foldl (λ hash byte, (wrapping_mul 64 hash 31 + Z.of_N (Ascii.N_of_ascii byte)) mod 2 ^ 64)
    17 (String.list_ascii_of_string name) mod 100000.
Definition builtin_variant (name : string) : VariantId := stable_builtin name.
