(* ===== verification/Mir.v ===== *)
(** * The mid-level intermediate representation ([compiler/src/mir.rs])

    The data types of control-flow-graph bodies: places and their projections, operands,
    right-hand sides, statements, terminators, blocks, functions and programs.  Block and
    local identities are indices. *)

From S2P Require Import Prelude Machine Diagnostics Ast Hir.
#[local] Open Scope string_scope.
#[local] Open Scope list_scope.
#[local] Open Scope Z_scope.

Abbreviation LocalId := nat (only parsing).
Abbreviation BlockId := nat (only parsing).

Inductive MProjection : Type :=
| MField (index : nat)
| MSafeDereference
| MRawDereference
| MVariantField (variant : VariantId) (index : nat)
| MIndex (index : LocalId) (span : Span)
| MSubslice (start end_ : LocalId) (span : Span).

Record MPlace := mkMPlace { place_local : LocalId; place_projections : list MProjection }.

Inductive MConstant : Type :=
| MSigned (value : Z) (width : option Z)
| MUnsigned (value : Z) (width : option Z)
| MFloat (value : f64) (width : Z)
| MBool (value : bool)
| MChar (value : char)
| MString (value : string)
| MUnit.

Inductive Operand : Type :=
| OMove (place : MPlace)
| OCopy (place : MPlace)
| OConstant (value : MConstant).

Inductive AggregateKind :=
| AggArray
| AggStruct (id : StructId)
| AggEnum (id : EnumId) (variant : VariantId).

Inductive Rvalue : Type :=
| RvUse (operand : Operand)
| RvFunction (function : FunctionId)
| RvClosure (function : FunctionId) (captures : list Operand)
| RvUnaryOp (operator : UnaryOperator) (operand : Operand)
| RvBinaryOp (operator : BinaryOperator) (left right : Operand)
| RvAggregate (kind : AggregateKind) (operands : list Operand)
| RvBorrowShared (place : MPlace)
| RvBorrowMut (place : MPlace)
| RvRawAddress (mutable : bool) (place : MPlace)
| RvDiscriminant (place : MPlace)
| RvLen (place : MPlace)
| RvCast (operand : Operand) (target : Ty).

Inductive MStatementKind : Type :=
| StorageLive (local : LocalId)
| StorageDead (local : LocalId)
| MAssign (place : MPlace) (value : Rvalue)
| SetDropFlag (local : LocalId) (initialized : bool)
| MDrop (place : MPlace) (flag : option LocalId)
| Nop.

Record MStatement := mkMStatement { ms_kind : MStatementKind; ms_span : Span }.

Inductive Terminator : Type :=
| Goto (target : BlockId)
| SwitchBool (condition : Operand) (true_block false_block : BlockId)
| SwitchValue (discriminant : Operand) (targets : list (MConstant * BlockId))
    (otherwise : BlockId)
| SwitchEnum (discriminant : Operand) (targets : list (VariantId * BlockId))
    (otherwise : BlockId)
| TCall (target : CallTarget) (arguments : list Operand) (destination : MPlace)
    (next : BlockId) (unwind : option BlockId) (substitutions : list Ty) (span : Span)
| TSpawn (target : FunctionId) (arguments : list Operand) (destination : MPlace)
    (next : BlockId) (substitutions : list Ty) (span : Span)
| TAwait (future : Operand) (destination : MPlace) (next : BlockId) (span : Span)
| TReturn
| TUnreachable.

Record BasicBlock := mkBasicBlock {
  bb_statements : list MStatement;
  bb_terminator : Terminator }.

Inductive LocalKind := LReturn | LArgument | LUser | LTemporary | LDropFlag.
#[export] Instance LocalKind_eq_dec : EqDecision LocalKind.
Proof. solve_decision. Defined.

Record MLocal := mkMLocal {
  ml_id : LocalId;
  ml_name : string;
  ml_ty : Ty;
  ml_kind : LocalKind;
  ml_span : Span;
  ml_needs_drop : bool;
  ml_mutable : bool }.

Record MFunction := mkMFunction {
  mf_id : FunctionId;
  mf_name : string;
  mf_locals : list MLocal;
  mf_argument_count : nat;
  mf_capture_count : nat;
  mf_asynchronous : bool;
  mf_return_local : LocalId;
  mf_blocks : list BasicBlock;
  mf_span : Span;
  mf_generic_parameters : list string;
  mf_external : option ExternalFunction;
  mf_exported : bool }.

Record MProgram := mkMProgram {
  mp_source_files : list SourceFile;
  mp_functions : list MFunction;
  mp_structs : list HStruct;
  mp_enums : list HEnum;
  mp_implementations : list HImplementation;
  mp_traits : list HTrait;
  mp_data_plans : list DataPlan }.
