(* ===== verification/Cfg.v ===== *)
(** * Control-flow graphs ([compiler/src/cfg.rs])

    The graph of a function body and its traversals.  The two traversals are loops over a
    graph that may have cycles, so their definitions take a fuel; [Err tt] is a traversal
    that ran out of it, and the theorems show that the fuel the operations pass is enough.
    A block identity that is out of range is a panic, as indexing a [Vec] is. *)

From stdpp Require Import sorting relations.
From S2P Require Import Prelude Machine Diagnostics Ast Hir Mir.
#[local] Open Scope list_scope.
#[local] Open Scope nat_scope.

Record ControlFlowGraph := mkCfg {
  cfg_successors : list (list BlockId);
  cfg_predecessors : list (list BlockId) }.

(** ** Construction *)

Definition terminator_targets (t : Terminator) : list BlockId :=
  match t with
  | Goto target => [target]
  | SwitchBool _ true_block false_block => [true_block; false_block]
  | SwitchValue _ targets otherwise => targets.*2 ++ [otherwise]
  | SwitchEnum _ targets otherwise => targets.*2 ++ [otherwise]
  | TCall _ _ _ next unwind _ _ => next :: option_list unwind
  | TSpawn _ _ _ next _ _ => [next]
  | TAwait _ _ next _ => [next]
  | TReturn | TUnreachable => []
  end.

(** [Vec::dedup]: drops repetitions that follow each other. *)
Fixpoint dedup (l : list nat) : list nat :=
  match l with
  | [] => []
  | x :: l' =>
    match l' with
    | [] => [x]
    | y :: _ => if x =? y then dedup l' else x :: dedup l'
    end
  end.

Definition sort_dedup (l : list nat) : list nat := dedup (merge_sort (≤) l).

Definition push_edge (source : nat) (predecessors : list (list nat)) (target : nat)
    : outcome unit (list (list nat)) :=
  es ← expect (predecessors !! target);
  Ok (<[target := es ++ [source]]> predecessors).

Definition push_edges (predecessors : list (list nat)) (row : nat * list nat)
    : outcome unit (list (list nat)) :=
  for_each (push_edge row.1) row.2 predecessors.

Definition cfg_new (function : MFunction) : outcome unit ControlFlowGraph :=
  let blocks := mf_blocks function in
  let successors := (λ b, sort_dedup (terminator_targets (bb_terminator b))) <$> blocks in
  predecessors ←
    for_each push_edges (imap pair successors) (replicate (length blocks) []);
  Ok (mkCfg successors (sort_dedup <$> predecessors)).

(** ** Queries *)

Definition successors (g : ControlFlowGraph) (b : BlockId) : outcome unit (list BlockId) :=
  expect (cfg_successors g !! b).
Definition predecessors (g : ControlFlowGraph) (b : BlockId) : outcome unit (list BlockId) :=
  expect (cfg_predecessors g !! b).

(** The loop of [reachable]; the top of the stack is the head of the list. *)
Fixpoint reachable_loop (fuel : nat) (g : ControlFlowGraph) (seen : gset nat)
    (stack : list BlockId) : outcome unit (gset nat) :=
  match fuel with
  | O => Err tt
  | S fuel =>
    match stack with
    | [] => Ok seen
    | block :: stack =>
      if bool_decide (block ∈ seen) then reachable_loop fuel g seen stack
      else
        es ← successors g block;
        reachable_loop fuel g ({[block]} ∪ seen) (reverse es ++ stack)
    end
  end.

(** Every block pushes its edges at most once. *)
Definition reachable (g : ControlFlowGraph) : outcome unit (gset nat) :=
  reachable_loop (2 + length (concat (cfg_successors g))) g ∅ [0].

Definition unreachable (g : ControlFlowGraph) : outcome unit (list BlockId) :=
  r ← reachable g;
  Ok (filter (λ b, b ∉ r) (seq 0 (length (cfg_successors g)))).

(** [visit]: every nested call has entered one more block. *)
Fixpoint visit (fuel : nat) (g : ControlFlowGraph) (st : gset nat * list BlockId)
    (block : BlockId) : outcome unit (gset nat * list BlockId) :=
  match fuel with
  | O => Err tt
  | S fuel =>
    if bool_decide (block ∈ st.1) then Ok st
    else
      es ← successors g block;
      st' ← for_each (visit fuel g) es ({[block]} ∪ st.1, st.2);
      Ok (st'.1, st'.2 ++ [block])
  end.

Definition reverse_postorder (g : ControlFlowGraph) : outcome unit (list BlockId) :=
  st ← visit (2 + length (cfg_successors g)) g (∅, []) 0;
  Ok (reverse st.2).

Definition positions (order : list BlockId) : gmap nat nat :=
  foldl (λ m row, <[row.2 := row.1]> m) ∅ (imap pair order).

Definition has_back_edge (g : ControlFlowGraph) : outcome unit bool :=
  order ← reverse_postorder g;
  let position := positions order in
  Ok (existsb (λ row,
        existsb (λ target,
          match position !! target, position !! row.1 with
          | Some t, Some s => t <=? s
          | _, _ => false
          end) row.2)
      (imap pair (cfg_successors g))).

(** ** Lemmas: the graph that is built *)

(** Where control may go when a block ends: one rule for each way to leave it. *)
Inductive may_enter : Terminator → BlockId → Prop :=
| enter_goto v : may_enter (Goto v) v
| enter_true c v w : may_enter (SwitchBool c v w) v
| enter_false c w v : may_enter (SwitchBool c w v) v
| enter_value d cases c v w : (c, v) ∈ cases → may_enter (SwitchValue d cases w) v
| enter_no_value d cases v : may_enter (SwitchValue d cases v) v
| enter_variant d cases c v w : (c, v) ∈ cases → may_enter (SwitchEnum d cases w) v
| enter_no_variant d cases v : may_enter (SwitchEnum d cases v) v
| enter_returned t args p v unwind tys s : may_enter (TCall t args p v unwind tys s) v
| enter_unwound t args p next v tys s : may_enter (TCall t args p next (Some v) tys s) v
| enter_spawned f args p v tys s : may_enter (TSpawn f args p v tys s) v
| enter_awaited o p v s : may_enter (TAwait o p v s) v.

(** Control may pass from [u] to [v]. *)
Definition flows (f : MFunction) (u v : BlockId) : Prop :=
  ∃ b, mf_blocks f !! u = Some b ∧ may_enter (bb_terminator b) v.

#[local] Hint Constructors may_enter : core.

Lemma terminator_targets_exact t v : v ∈ terminator_targets t ↔ may_enter t v.
Proof.
  split.
  - destruct t as [| | d cases o|d cases o|? ? ? ? [u|]| | | |]; simpl;
      rewrite ?elem_of_app, ?list_elem_of_fmap, ?elem_of_cons, ?elem_of_nil;
      intros H; destruct_or? H; try (destruct H as ([c w] & -> & H)); subst; eauto; done.
  - destruct 1; simpl; rewrite ?elem_of_app, ?list_elem_of_fmap, ?elem_of_cons; auto;
      left; by exists (c, v).
Qed.

Lemma flows_targets f u v : flows f u v ↔
  ∃ b, mf_blocks f !! u = Some b ∧ v ∈ terminator_targets (bb_terminator b).
Proof. unfold flows. by setoid_rewrite terminator_targets_exact. Qed.

(** Every target is a block, and there is an entry block. *)
Definition well_formed (f : MFunction) : Prop :=
  0 < length (mf_blocks f) ∧ ∀ u v, flows f u v → v < length (mf_blocks f).

#[export] Instance well_formed_dec f : Decision (well_formed f).
Proof.
  refine (cast_if (decide (0 < length (mf_blocks f) ∧
    Forall (λ b, Forall (λ v, v < length (mf_blocks f)) (terminator_targets (bb_terminator b)))
      (mf_blocks f)))).
  - destruct a as [H0 H]. split; [done|]. intros u v (b & Hb & Hv)%flows_targets.
    by eapply Forall_forall in H; [eapply Forall_forall in H|eapply list_elem_of_lookup_2].
  - intros [H0 H]. contradict n. split; [done|].
    apply Forall_forall. intros b [u Hu]%list_elem_of_lookup_1.
    apply Forall_forall. intros v Hv. apply (H u v), flows_targets. by exists b.
Defined.

Lemma elem_of_dedup x l : x ∈ dedup l ↔ x ∈ l.
Proof.
  induction l as [|y [|z l] IH]; [done..|]. change (dedup (y :: z :: l)) with
    (if y =? z then dedup (z :: l) else y :: dedup (z :: l)).
  destruct (Nat.eqb_spec y z) as [->|_]; rewrite ?elem_of_cons, IH, ?elem_of_cons; tauto.
Qed.

Lemma elem_of_sort_dedup x l : x ∈ sort_dedup l ↔ x ∈ l.
Proof. unfold sort_dedup. rewrite elem_of_dedup. by rewrite merge_sort_Permutation. Qed.

(** Row [u] of an adjacency list holds [v]. *)
Definition linked (rows : list (list nat)) (u v : nat) : Prop :=
  ∃ es, rows !! u = Some es ∧ v ∈ es.

Lemma linked_sort_dedup {A} (f : A → list nat) (l : list A) u v :
  linked ((λ a, sort_dedup (f a)) <$> l) u v ↔ ∃ a, l !! u = Some a ∧ v ∈ f a.
Proof.
  unfold linked. setoid_rewrite list_lookup_fmap_Some. split.
  - intros (es & (a & -> & Ha) & Hv). exists a. by rewrite elem_of_sort_dedup in Hv.
  - intros (a & Ha & Hv). eexists. split; [by exists a|]. by rewrite elem_of_sort_dedup.
Qed.

Lemma push_edge_spec source target rows : target < length rows →
  ∃ rows', push_edge source rows target = Ok rows' ∧ length rows' = length rows ∧
    ∀ u v, linked rows' u v ↔ linked rows u v ∨ (u = target ∧ v = source).
Proof.
  intros Ht. destruct (lookup_lt_is_Some_2 rows target Ht) as [es Hes].
  unfold push_edge. rewrite Hes. simpl. eexists. split; [done|]. split.
  { by rewrite length_insert. }
  intros u v. unfold linked. destruct (decide (u = target)) as [->|Hne].
  - rewrite list_lookup_insert_eq by done. rewrite Hes. split.
    + intros (l & [= <-] & Hl). rewrite elem_of_app, list_elem_of_singleton in Hl.
      destruct Hl; eauto.
    + intros [(l & [= <-] & Hl)|[_ ->]]; eexists; (split; [done|]);
        rewrite elem_of_app, list_elem_of_singleton; auto.
  - rewrite list_lookup_insert_ne by done. naive_solver.
Qed.

(** A loop that only adds links: what it adds is the union of what its steps add. *)
Lemma for_each_links {A} (body : list (list nat) → A → outcome unit (list (list nat)))
    (adds : A → nat → nat → Prop) (good : nat → A → Prop) items rows :
  (∀ a rows, good (length rows) a → ∃ rows', body rows a = Ok rows' ∧
     length rows' = length rows ∧ ∀ u v, linked rows' u v ↔ linked rows u v ∨ adds a u v) →
  Forall (good (length rows)) items →
  ∃ rows', for_each body items rows = Ok rows' ∧ length rows' = length rows ∧
    ∀ u v, linked rows' u v ↔ linked rows u v ∨ ∃ a, a ∈ items ∧ adds a u v.
Proof.
  intros Hbody. revert rows. induction items as [|a items IH]; intros rows Hgood; simpl.
  - eexists. split_and!; [done..|]. set_solver.
  - apply Forall_cons in Hgood as [Ha Hgood].
    destruct (Hbody a rows Ha) as (rows1 & -> & Hlen1 & Hl1). simpl.
    destruct (IH rows1) as (rows2 & -> & Hlen2 & Hl2); [by rewrite Hlen1|].
    eexists. split_and!; [done|by rewrite Hlen2|].
    intros u v. rewrite Hl2, Hl1. set_solver.
Qed.

Lemma push_edges_spec row rows : Forall (λ v, v < length rows) row.2 →
  ∃ rows', push_edges rows row = Ok rows' ∧ length rows' = length rows ∧
    ∀ u v, linked rows' u v ↔ linked rows u v ∨ (v = row.1 ∧ u ∈ row.2).
Proof.
  intros H. destruct (for_each_links (push_edge row.1) (λ t u v, u = t ∧ v = row.1)
    (λ n t, t < n) row.2 rows) as (rows' & H1 & H2 & H3); [|done|].
  { intros t rows0. by apply push_edge_spec. }
  exists rows'. split_and!; [done..|]. intros u v. rewrite H3. set_solver.
Qed.

Lemma elem_of_imap_pair {A} (l : list A) i a : (i, a) ∈ imap pair l ↔ l !! i = Some a.
Proof.
  rewrite list_elem_of_lookup. setoid_rewrite list_lookup_imap_Some. split.
  - by intros (j & x & Hx & [= <- <-]).
  - intros H. by exists i, a.
Qed.

Lemma linked_empty n u v : ¬ linked (replicate n []) u v.
Proof. intros (es & [-> _]%lookup_replicate & H). set_solver. Qed.

(** Edges of the graph are the flows of the function, in both directions. *)
Lemma cfg_new_spec f : well_formed f →
  ∃ g, cfg_new f = Ok g ∧ length (cfg_successors g) = length (mf_blocks f) ∧
    length (cfg_predecessors g) = length (mf_blocks f) ∧
    (∀ u v, linked (cfg_successors g) u v ↔ flows f u v) ∧
    (∀ u v, linked (cfg_predecessors g) v u ↔ flows f u v).
Proof.
  intros [_ Hwf]. unfold cfg_new.
  set (succ := _ <$> mf_blocks f).
  assert (Hsucc : ∀ u v, linked succ u v ↔ flows f u v)
    by (intros; rewrite flows_targets;
        apply (linked_sort_dedup (λ b, terminator_targets (bb_terminator b)))).
  destruct (for_each_links push_edges (λ row u v, v = row.1 ∧ u ∈ row.2)
    (λ n row, Forall (λ v, v < n) row.2) (imap pair succ)
    (replicate (length (mf_blocks f)) [])) as (rows & -> & Hlen & Hrows).
  { intros row rows. apply push_edges_spec. }
  { rewrite length_replicate. apply Forall_forall. intros [u es] Hu%elem_of_imap_pair.
    apply Forall_forall. intros v Hv. apply (Hwf u), Hsucc. by exists es. }
  rewrite length_replicate in Hlen. simpl. eexists. split; [done|]. simpl.
  split; [by unfold succ; rewrite length_fmap|]. split; [by rewrite length_fmap|].
  split; [done|]. intros u v. rewrite <- Hsucc.
  etransitivity; [exact (linked_sort_dedup id rows v u)|].
  change (linked rows v u ↔ linked succ u v). rewrite Hrows. split.
  - intros [[]%linked_empty|([w es] & Hes%elem_of_imap_pair & -> & Hv)]. by exists es.
  - intros (es & Hes & Hv). right. exists (u, es). by rewrite elem_of_imap_pair.
Qed.

(** ** Lemmas: the loop of [reachable] *)

(** The edges out of the blocks that have not been entered. *)
Fixpoint pending_edges (i : nat) (rows : list (list nat)) (seen : gset nat) : nat :=
  match rows with
  | [] => 0
  | es :: rows =>
    (if bool_decide (i ∈ seen) then 0 else length es) + pending_edges (S i) rows seen
  end.

Lemma pending_edges_other i j rows seen : j < i →
  pending_edges i rows ({[j]} ∪ seen) = pending_edges i rows seen.
Proof.
  revert i. induction rows as [|es rows IH]; intros i Hj; simpl; [done|].
  rewrite IH by lia. f_equal.
  by rewrite (bool_decide_ext (i ∈ {[j]} ∪ seen) (i ∈ seen)) by (set_solver by lia).
Qed.

Lemma pending_edges_enter i k rows seen es : rows !! k = Some es → i + k ∉ seen →
  pending_edges i rows ({[i + k]} ∪ seen) + length es = pending_edges i rows seen.
Proof.
  revert i k. induction rows as [|es' rows IH]; intros i [|k]; simpl; try done.
  - intros [= ->]. rewrite Nat.add_0_r. intros Hi.
    rewrite pending_edges_other by lia. rewrite bool_decide_true by set_solver.
    rewrite bool_decide_false by done. lia.
  - intros Hk Hi. rewrite <- Nat.add_succ_comm in Hi |- *.
    rewrite <- (IH (S i) k) by done.
    rewrite (bool_decide_ext (i ∈ {[S i + k]} ∪ seen) (i ∈ seen)) by (set_solver by lia). lia.
Qed.

Lemma pending_edges_empty i rows : pending_edges i rows ∅ = length (concat rows).
Proof.
  revert i. induction rows as [|es rows IH]; intros i; simpl; [done|].
  by rewrite IH, length_app, bool_decide_false by set_solver.
Qed.

Section traversal.
Context (g : ControlFlowGraph).
Let edge : relation nat := linked (cfg_successors g).
Context (entry : 0 < length (cfg_successors g)).
Context (in_range : ∀ u v, edge u v → v < length (cfg_successors g)).

Lemma reach_in_range u v :
  rtc edge u v → u < length (cfg_successors g) → v < length (cfg_successors g).
Proof. intros [->|(w & _ & H)]%rtc_inv_r Hu; [done|]. by eapply in_range. Qed.

Lemma successors_ok b : b < length (cfg_successors g) →
  ∃ es, successors g b = Ok es ∧ cfg_successors g !! b = Some es ∧ ∀ v, v ∈ es ↔ edge b v.
Proof.
  intros [es Hes]%lookup_lt_is_Some_2. exists es. unfold successors. rewrite Hes.
  split_and!; [done..|]. intros v. unfold edge, linked. rewrite Hes. naive_solver.
Qed.

Record searching (seen : gset nat) (stack : list nat) : Prop := {
  searching_reached x : x ∈ seen ∨ x ∈ stack → rtc edge 0 x;
  searching_closed x y : x ∈ seen → edge x y → y ∈ seen ∨ y ∈ stack;
  searching_entry : 0 ∈ seen ∨ 0 ∈ stack }.

Lemma searching_done seen : searching seen [] → ∀ x, x ∈ seen ↔ rtc edge 0 x.
Proof.
  intros [H1 H2 H3] x. split; [by auto|]. revert x. apply rtc_ind_r; [set_solver|].
  intros x y _ Hxy IH. specialize (H2 x y IH Hxy). set_solver.
Qed.

Lemma searching_skip seen b stack :
  searching seen (b :: stack) → b ∈ seen → searching seen stack.
Proof.
  intros [H1 H2 H3] Hb. split; [set_solver| |set_solver].
  intros x y Hx Hy. destruct (H2 x y Hx Hy); set_solver.
Qed.

Lemma searching_enter seen b stack es : (∀ v, v ∈ es ↔ edge b v) →
  searching seen (b :: stack) → searching ({[b]} ∪ seen) (reverse es ++ stack).
Proof.
  intros Hes [H1 H2 H3].
  assert (Hb : rtc edge 0 b) by set_solver.
  split.
  - intros x. rewrite elem_of_app, elem_of_reverse, Hes, elem_of_union, elem_of_singleton.
    intros [[->|?]|[?|?]]; [done|set_solver| |set_solver]. by eapply rtc_r.
  - intros x y. rewrite elem_of_app, elem_of_reverse, Hes, !elem_of_union, !elem_of_singleton.
    intros [->|Hx] Hy; [by auto|]. destruct (H2 x y Hx Hy); set_solver.
  - rewrite elem_of_app, elem_of_reverse. set_solver.
Qed.

Lemma reachable_loop_spec fuel seen stack : searching seen stack →
  length stack + pending_edges 0 (cfg_successors g) seen < fuel →
  ∃ s, reachable_loop fuel g seen stack = Ok s ∧ ∀ x, x ∈ s ↔ rtc edge 0 x.
Proof.
  revert seen stack. induction fuel as [|fuel IH]; intros seen stack Hs Hf; [lia|]. simpl.
  destruct stack as [|b stack].
  { exists seen. split; [done|]. by apply searching_done. }
  simpl in Hf. case_bool_decide as Hb.
  { apply IH; [by eapply searching_skip|lia]. }
  destruct (successors_ok b) as (es & -> & Hes & Hedge).
  { eapply reach_in_range; [apply Hs; set_solver|done]. }
  simpl. apply IH; [by apply searching_enter|].
  pose proof (pending_edges_enter 0 b _ seen es Hes Hb) as Hp. simpl in Hp.
  rewrite length_app, length_reverse. lia.
Qed.

Lemma reachable_spec :
  ∃ s, reachable g = Ok s ∧ ∀ x, x ∈ s ↔ rtc edge 0 x.
Proof.
  apply reachable_loop_spec.
  - split; set_solver by eauto using rtc_refl.
  - rewrite pending_edges_empty. simpl. lia.
Qed.

(** ** Lemmas: the depth-first search of [reverse_postorder] *)

Record ordered (seen : gset nat) (order : list nat) : Prop := {
  ordered_nodup : NoDup order;
  ordered_seen x : x ∈ order → x ∈ seen;
  ordered_reached x : x ∈ seen → rtc edge 0 x;
  ordered_edges i x y : order !! i = Some x → edge x y →
    (∃ j, j < i ∧ order !! j = Some y) ∨ (y ∈ seen ∧ rtc edge y x) }.

(** Every block entered in the meantime has been finished. *)
Definition extends (seen : gset nat) (order : list nat) (seen' : gset nat)
    (order' : list nat) : Prop :=
  ∃ new, order' = order ++ new ∧ (∀ x, x ∈ seen' ↔ x ∈ seen ∨ x ∈ new) ∧
    ∀ x, x ∈ new → x ∉ seen.

(** The blocks that have been entered and not left all lead to [b]. *)
Definition leads_to (seen : gset nat) (order : list nat) (b : nat) : Prop :=
  ∀ x, x ∈ seen → x ∉ order → rtc edge x b.

Lemma extends_refl seen order : extends seen order seen order.
Proof. exists []. rewrite app_nil_r. set_solver. Qed.

Lemma extends_trans s1 o1 s2 o2 s3 o3 :
  extends s1 o1 s2 o2 → extends s2 o2 s3 o3 → extends s1 o1 s3 o3.
Proof.
  intros (n1 & -> & H1 & H2) (n2 & -> & H3 & H4). exists (n1 ++ n2).
  rewrite (assoc_L (++)). split; [done|]. set_solver.
Qed.

Lemma leads_to_extends s o s' o' b : extends s o s' o' → leads_to s o b → leads_to s' o' b.
Proof. intros (new & -> & H1 & H2) H x. rewrite H1, elem_of_app. set_solver. Qed.

Lemma extends_subseteq s o s' o' : extends s o s' o' → s ⊆ s'.
Proof. intros (new & _ & H & _). set_solver. Qed.

Lemma ordered_size seen order : ordered seen order → size seen <= length (cfg_successors g).
Proof.
  intros H. rewrite <- (size_set_seq (C:=gset nat) 0 (length (cfg_successors g))).
  apply subseteq_size. intros x Hx%(ordered_reached _ _ H). apply elem_of_set_seq.
  split; [lia|]. by eapply reach_in_range.
Qed.

Lemma ordered_enter seen order b : ordered seen order → rtc edge 0 b →
  ordered ({[b]} ∪ seen) order.
Proof.
  intros [H1 H2 H3 H4] Hb. split; [done|set_solver..|].
  intros i x y Hi Hy. destruct (H4 i x y Hi Hy); set_solver.
Qed.

Lemma ordered_finish seen order b (es : list nat) : (∀ v, v ∈ es ↔ edge b v) →
  ordered seen order → leads_to seen order b → b ∈ seen → b ∉ order →
  (∀ v, v ∈ es → v ∈ seen) → ordered seen (order ++ [b]).
Proof.
  intros Hes [H1 H2 H3 H4] Hlead Hb Hnew Hall. split; [|set_solver|done|].
  - apply NoDup_app. split_and!; [done|set_solver|apply NoDup_singleton].
  - intros i x y [Hi|[Hi Hx]]%lookup_app_Some Hy.
    + destruct (H4 i x y Hi Hy) as [(j & Hj & Hy')|]; [|by auto].
      left. exists j. split; [done|]. by apply lookup_app_l_Some.
    + apply list_lookup_singleton_Some in Hx as [Hx <-].
      destruct (decide (y ∈ order)) as [Ho|Ho]; [|right; split; [by apply Hall, Hes|apply Hlead; [by apply Hall, Hes|done]]].
      apply list_elem_of_lookup_1 in Ho as [j Hj]. left. exists j.
      split; [apply lookup_lt_Some in Hj; lia|]. by apply lookup_app_l_Some.
Qed.

(** What a visit of [b] from [(seen, order)] does. *)
Definition visited (m : outcome unit (gset nat * list nat)) (seen : gset nat)
    (order : list nat) (bs : list nat) : Prop :=
  ∃ seen' order', m = Ok (seen', order') ∧ ordered seen' order' ∧
    extends seen order seen' order' ∧ ∀ b, b ∈ bs → b ∈ seen'.

Definition visits (fuel : nat) : Prop := ∀ seen order b,
  ordered seen order → rtc edge 0 b → leads_to seen order b →
  length (cfg_successors g) < fuel + size seen →
  visited (visit fuel g (seen, order) b) seen order [b].

Lemma visit_all fuel seen order b es : visits fuel →
  (∀ v, v ∈ es → edge b v) → ordered seen order → rtc edge 0 b → leads_to seen order b →
  length (cfg_successors g) < fuel + size seen →
  visited (for_each (visit fuel g) es (seen, order)) seen order es.
Proof.
  intros Hvisit. revert seen order.
  induction es as [|v es IH]; intros seen order Hes Hord Hb Hlead Hf; simpl.
  - exists seen, order. split_and!; [done|done|apply extends_refl|set_solver].
  - assert (Hv : edge b v) by set_solver.
    destruct (Hvisit seen order v) as (s1 & o1 & -> & Ho1 & He1 & Hs1);
      [done|by eapply rtc_r| |done|].
    { intros x Hx Ho. eapply rtc_r; [by apply Hlead|done]. }
    simpl. destruct (IH s1 o1) as (s2 & o2 & -> & Ho2 & He2 & Hs2); [set_solver|done..| | |].
    { by eapply leads_to_extends. }
    { pose proof (subseteq_size _ _ (extends_subseteq _ _ _ _ He1)). lia. }
    exists s2, o2. split_and!; [done|done|by eapply extends_trans|].
    apply extends_subseteq in He2. set_solver.
Qed.

Lemma visit_spec fuel : visits fuel.
Proof.
  induction fuel as [|fuel IH]; intros seen order b Hord Hb Hlead Hf.
  { pose proof (ordered_size _ _ Hord). lia. }
  simpl. case_bool_decide as Hin; simpl in Hin.
  { exists seen, order. split_and!; [done|done|apply extends_refl|set_solver]. }
  destruct (successors_ok b) as (es & -> & _ & Hedge); [by eapply reach_in_range|].
  simpl. destruct (visit_all fuel ({[b]} ∪ seen) order b es IH)
    as (s1 & o1 & -> & Ho1 & (new & -> & Hs1 & Hnew) & Hall).
  { set_solver. }
  { by apply ordered_enter. }
  { done. }
  { intros x [->%elem_of_singleton|Hx]%elem_of_union Ho; [done|by apply Hlead]. }
  { rewrite size_union by set_solver. rewrite size_singleton. lia. }
  exists s1, ((order ++ new) ++ [b]). split_and!; [done| | |].
  - apply (ordered_finish _ _ _ es Hedge); [done| | | |set_solver].
    + intros x. rewrite Hs1. set_solver by eauto using rtc_refl.
    + set_solver.
    + pose proof (ordered_seen _ _ Hord). set_solver.
  - exists (new ++ [b]). rewrite (assoc_L (++)). split; [done|]. set_solver.
  - set_solver.
Qed.

Lemma visit_last fuel seen order b seen' order' : b ∉ seen →
  visit (S fuel) g (seen, order) b = Ok (seen', order') → last order' = Some b.
Proof.
  intros Hb. simpl. rewrite bool_decide_false by done. intros H. inv_ok H.
  injection H as _ <-. apply last_snoc.
Qed.

(** The finishing order of a search from the entry. *)
Lemma postorder_spec : ∃ seen order,
  visit (2 + length (cfg_successors g)) g (∅, []) 0 = Ok (seen, order) ∧
  NoDup order ∧ (∀ x, x ∈ order ↔ rtc edge 0 x) ∧ last order = Some 0 ∧
  ∀ i x y, order !! i = Some x → edge x y →
    (∃ j, j < i ∧ order !! j = Some y) ∨ rtc edge y x.
Proof.
  destruct (visit_spec (2 + length (cfg_successors g)) ∅ [] 0)
    as (seen & order & Hv & Hord & (new & Hnew & Hseen & _) & H0).
  { split; [constructor|set_solver..]. }
  { done. }
  { intros x. set_solver. }
  { lia. }
  simpl in Hnew. subst new. destruct Hord as [H1 H2 H3 H4].
  exists seen, order. split_and!; [done|done| | |].
  - intros x. split; [by auto|]. revert x. apply rtc_ind_r; [set_solver|].
    intros x y _ Hxy IH. apply list_elem_of_lookup_1 in IH as [i Hi].
    destruct (H4 i x y Hi Hxy) as [(j & _ & Hj)|[Hy _]]; [|set_solver].
    by eapply list_elem_of_lookup_2.
  - eapply visit_last; [|exact Hv]. set_solver.
  - intros i x y Hi Hy. destruct (H4 i x y Hi Hy) as [|[_ ?]]; auto.
Qed.
End traversal.

Lemma positions_snoc order b :
  positions (order ++ [b]) = <[b := length order]> (positions order).
Proof. unfold positions. rewrite imap_app, foldl_app. simpl. by rewrite Nat.add_0_r. Qed.

Lemma positions_spec order b i : NoDup order → positions order !! b = Some i ↔ order !! i = Some b.
Proof.
  induction order as [|a order IH] using rev_ind; intros Hnd.
  { unfold positions. simpl. by rewrite lookup_empty. }
  apply NoDup_app in Hnd as (Hnd & Ha & _).
  rewrite positions_snoc, lookup_insert_Some, lookup_app_Some, IH by done.
  rewrite list_lookup_singleton_Some. split.
  - intros [[-> <-]|[Hne Hi]]; [right; split; [lia|by rewrite Nat.sub_diag]|by left].
  - intros [Hi|(Hi & Hz & ->)]; [right|left; split; [done|lia]]. split; [|done].
    intros ->. eapply Ha; [by eapply list_elem_of_lookup_2|set_solver].
Qed.
