(* ===== verification/CfgProps.v ===== *)
(** * What the traversals of a control-flow graph compute

    On a function whose terminators name blocks that exist, [reachable] returns the blocks
    control can get to, [reverse_postorder] lists them once, the entry first, and
    [has_back_edge] decides whether control can come back to a block it has left. *)

From stdpp Require Import sorting relations.
From S2P Require Import Prelude Machine Diagnostics Ast Hir Mir Cfg.
#[local] Open Scope list_scope.
#[local] Open Scope nat_scope.

Lemma flows_rtc g f u v : (∀ u v, linked (cfg_successors g) u v ↔ flows f u v) →
  rtc (linked (cfg_successors g)) u v ↔ rtc (flows f) u v.
Proof. intros H. split; apply rtc_subrel; intros ?? ?; by apply H. Qed.

(** C26: on a function whose terminators only name existing blocks, construction and
    [reachable] return, [reachable] is exactly the set of blocks that control flow can
    reach from the entry, and [unreachable] lists exactly the other blocks. *)
Theorem reachable_exact f : well_formed f →
  ∃ g r dead, cfg_new f = Ok g ∧ reachable g = Ok r ∧ unreachable g = Ok dead ∧
    (∀ b, b ∈ r ↔ rtc (flows f) 0 b) ∧
    (∀ b, b ∈ dead ↔ b < length (mf_blocks f) ∧ ¬ rtc (flows f) 0 b).
Proof.
  intros Hwf. destruct (cfg_new_spec f Hwf) as (g & Hg & Hlen & _ & Hs & _).
  destruct Hwf as [H0 Hwf]. destruct (reachable_spec g) as (r & Hr & Hreach).
  { by rewrite Hlen. }
  { intros u v Huv%Hs. rewrite Hlen. eauto. }
  assert (Hflow : ∀ b, b ∈ r ↔ rtc (flows f) 0 b)
    by (intros b; by rewrite Hreach, flows_rtc).
  eexists g, r, _. split; [done|]. split; [done|]. unfold unreachable. rewrite Hr.
  split; [done|]. split; [done|]. intros b.
  rewrite list_elem_of_filter, elem_of_seq, Hflow, Hlen. naive_solver lia.
Qed.

(** The order [reverse_postorder] returns, on the flows of the function. *)
Lemma reverse_postorder_spec f : well_formed f →
  ∃ g order, cfg_new f = Ok g ∧ length (cfg_successors g) = length (mf_blocks f) ∧
    (∀ u v, linked (cfg_successors g) u v ↔ flows f u v) ∧
    reverse_postorder g = Ok order ∧ NoDup order ∧ head order = Some 0 ∧
    (∀ b, b ∈ order ↔ rtc (flows f) 0 b) ∧
    (∀ i j u v, order !! i = Some u → order !! j = Some v → flows f u v → j <= i →
       rtc (flows f) v u).
Proof.
  intros Hwf. destruct (cfg_new_spec f Hwf) as (g & Hg & Hlen & _ & Hs & _).
  destruct Hwf as [H0 Hwf].
  destruct (postorder_spec g) as (seen & order & Hv & Hnd & Hmem & Hlast & Hedges).
  { by rewrite Hlen. }
  { intros u v Huv%Hs. rewrite Hlen. eauto. }
  exists g, (reverse order). unfold reverse_postorder. rewrite Hv.
  split_and!; [done..| | | |].
  - by rewrite reverse_Permutation.
  - by rewrite head_reverse.
  - intros b. rewrite elem_of_reverse, Hmem. by apply flows_rtc.
  - intros i j u v Hi Hj Huv Hji.
    apply reverse_lookup_Some in Hi as [Hi Hil], Hj as [Hj Hjl].
    destruct (Hedges _ u v Hi) as [(k & Hk & Hkv)|]; [by apply Hs| |by apply (flows_rtc g)].
    pose proof (NoDup_lookup _ _ _ _ Hnd Hkv Hj). lia.
Qed.

(** C27: [reverse_postorder] returns every reachable block exactly once, with the entry
    first; a flow that does not go forward in the order closes a cycle, so on an acyclic
    body the order is topological. *)
Theorem reverse_postorder_topological f : well_formed f →
  ∃ g order, cfg_new f = Ok g ∧ reverse_postorder g = Ok order ∧ NoDup order ∧
    head order = Some 0 ∧ (∀ b, b ∈ order ↔ rtc (flows f) 0 b) ∧
    ∀ i j u v, order !! i = Some u → order !! j = Some v → flows f u v →
      i < j ∨ tc (flows f) u u.
Proof.
  intros (g & order & Hg & _ & _ & Ho & Hnd & Hhd & Hmem & Hback)%reverse_postorder_spec.
  exists g, order. split_and!; [done..|]. intros i j u v Hi Hj Huv.
  destruct (decide (i < j)) as [|Hij]; [by left|right].
  eapply tc_rtc_r; [by apply tc_once|]. eapply (Hback i j); eauto. lia.
Qed.

(** The test of [has_back_edge]. *)
Lemma back_edge_found (order : list nat) (rows : list (list nat)) : NoDup order →
  existsb (λ row, existsb (λ target,
      match positions order !! target, positions order !! row.1 with
      | Some t, Some s => t <=? s
      | _, _ => false
      end) row.2) (imap pair rows) = true
  ↔ ∃ i j u v, order !! i = Some u ∧ order !! j = Some v ∧ linked rows u v ∧ j <= i.
Proof.
  intros Hnd. rewrite existsb_exists. setoid_rewrite existsb_exists. split.
  - intros ([u es] & Hu & v & Hv & Hpos). simpl in *.
    apply list_elem_of_In, elem_of_imap_pair in Hu. apply list_elem_of_In in Hv.
    destruct (positions order !! v) as [j|] eqn:Hj; [|done].
    destruct (positions order !! u) as [i|] eqn:Hi; [|done].
    apply Nat.leb_le in Hpos. apply positions_spec in Hi, Hj; [|done..].
    exists i, j, u, v. split_and!; [done..|by exists es|done].
  - intros (i & j & u & v & Hi & Hj & (es & Hes & Hv) & Hji).
    exists (u, es). split; [by apply list_elem_of_In, elem_of_imap_pair|].
    exists v. split; [by apply list_elem_of_In|]. simpl.
    apply positions_spec in Hi, Hj; [|done..]. rewrite Hi, Hj. by apply Nat.leb_le.
Qed.

(** Along flows that all go forward in an order, positions grow. *)
Lemma forward_positions f (order : list nat) u v i :
  (∀ b, b ∈ order ↔ rtc (flows f) 0 b) →
  (∀ i j u v, order !! i = Some u → order !! j = Some v → flows f u v → i < j) →
  tc (flows f) u v → order !! i = Some u → ∃ j, order !! j = Some v ∧ i < j.
Proof.
  intros Hmem Hfw Huv. revert i. induction Huv as [u v Huv|u w v Huw _ IH]; intros i Hi.
  - assert (Hv : v ∈ order).
    { apply Hmem. eapply rtc_r; [|done]. apply Hmem. by eapply list_elem_of_lookup_2. }
    apply list_elem_of_lookup_1 in Hv as [j Hj]. eauto.
  - assert (Hw : w ∈ order).
    { apply Hmem. eapply rtc_r; [|done]. apply Hmem. by eapply list_elem_of_lookup_2. }
    apply list_elem_of_lookup_1 in Hw as [k Hk].
    destruct (IH k Hk) as (j & Hj & Hkj). exists j. split; [done|].
    pose proof (Hfw _ _ _ _ Hi Hk Huw). lia.
Qed.

(** C28: [has_back_edge] returns true exactly when a reachable block lies on a cycle. *)
Theorem has_back_edge_iff_cycle f : well_formed f →
  ∃ g cyclic, cfg_new f = Ok g ∧ has_back_edge g = Ok cyclic ∧
    (cyclic = true ↔ ∃ b, rtc (flows f) 0 b ∧ tc (flows f) b b).
Proof.
  intros (g & order & Hg & _ & Hs & Ho & Hnd & _ & Hmem & Hback)%reverse_postorder_spec.
  eexists g, _. split; [done|]. unfold has_back_edge. rewrite Ho. split; [done|].
  match goal with |- ?c = true ↔ _ => set (cyclic := c) end.
  pose proof (back_edge_found order (cfg_successors g) Hnd) as Hc. fold cyclic in Hc. split.
  - intros (i & j & u & v & Hi & Hj & Huv%Hs & Hji)%Hc. exists u. split.
    + apply Hmem. by eapply list_elem_of_lookup_2.
    + eapply tc_rtc_r; [by apply tc_once|]. by eapply (Hback i j).
  - intros (b & Hb & Hcycle). destruct cyclic; [done|exfalso].
    apply Hmem, list_elem_of_lookup_1 in Hb as [i Hi].
    destruct (forward_positions f order b b i) as (j & Hj & Hij); [done| |done|done|].
    + intros i' j' u v Hi' Hj' Huv. destruct (decide (i' < j')) as [|Hn]; [done|].
      enough (false = true) by done. apply Hc. exists i', j', u, v.
      rewrite Hs. split_and!; [done..|lia].
    + pose proof (NoDup_lookup _ _ _ _ Hnd Hi Hj). lia.
Qed.

(** ** A concrete body: a loop with an exit, and a dead block *)

Definition demo_block (t : Terminator) : BasicBlock := mkBasicBlock [] t.
Definition demo_loop : MFunction :=
  mkMFunction 0 "demo" [] 0 0 false 0
    [demo_block (Goto 1);
     demo_block (SwitchBool (OConstant (MBool true)) 2 3);
     demo_block (Goto 1);
     demo_block TReturn;
     demo_block (Goto 3)]
    (point 1 1) [] None false.

Lemma reachable_exact_witness : well_formed demo_loop ∧
  ∃ g r dead, cfg_new demo_loop = Ok g ∧ reachable g = Ok r ∧ unreachable g = Ok dead ∧
    (∀ b, b ∈ r ↔ rtc (flows demo_loop) 0 b) ∧
    (∀ b, b ∈ dead ↔ b < length (mf_blocks demo_loop) ∧ ¬ rtc (flows demo_loop) 0 b).
Proof.
  assert (H : well_formed demo_loop) by (apply (bool_decide_unpack _); vm_compute; exact I).
  split; [exact H|]. exact (reachable_exact demo_loop H).
Defined.

Lemma reverse_postorder_topological_witness : well_formed demo_loop ∧
  ∃ g order, cfg_new demo_loop = Ok g ∧ reverse_postorder g = Ok order ∧ NoDup order ∧
    head order = Some 0 ∧ (∀ b, b ∈ order ↔ rtc (flows demo_loop) 0 b) ∧
    ∀ i j u v, order !! i = Some u → order !! j = Some v → flows demo_loop u v →
      i < j ∨ tc (flows demo_loop) u u.
Proof.
  assert (H : well_formed demo_loop) by (apply (bool_decide_unpack _); vm_compute; exact I).
  split; [exact H|]. exact (reverse_postorder_topological demo_loop H).
Defined.

Lemma has_back_edge_iff_cycle_witness : well_formed demo_loop ∧
  ∃ g cyclic, cfg_new demo_loop = Ok g ∧ has_back_edge g = Ok cyclic ∧
    (cyclic = true ↔ ∃ b, rtc (flows demo_loop) 0 b ∧ tc (flows demo_loop) b b).
Proof.
  assert (H : well_formed demo_loop) by (apply (bool_decide_unpack _); vm_compute; exact I).
  split; [exact H|]. exact (has_back_edge_iff_cycle demo_loop H).
Defined.

(** The traversals of that body, evaluated. *)
Example demo_loop_runs :
  (g ← cfg_new demo_loop;
   order ← reverse_postorder g; dead ← unreachable g; cyclic ← has_back_edge g;
   Ok (order, dead, cyclic, cfg_predecessors g))
  = Ok ([0; 1; 3; 2], [4], true, [[]; [0; 2]; [1]; [1; 4]; []]).
Proof. vm_compute. reflexivity. Qed.
