(* ===== verification/Layout.v ===== *)
(** * Native layouts ([compiler/src/backend/layout.rs], [target.rs], [abi.rs])

    The size, alignment and field offsets of every type of a program.  The engine caches
    what it has computed and keeps the set of types it is working on, so that a type that
    contains itself by value is an error.  A generic type may contain ever larger
    instances of itself, on which the engine recurses without end: [layout] takes a fuel,
    and [Diverges] is an engine that ran out of it.

    Sizes and offsets are [u64].  Whether an unchecked operation that overflows panics or
    wraps around is a property of the build, [overflow_checks]. *)

From S2P Require Import Prelude Machine Diagnostics StateM Ast Hir Mir.
#[local] Open Scope string_scope.
#[local] Open Scope list_scope.
#[local] Open Scope Z_scope.

(** ** Targets *)

Inductive Architecture := X86_64.
Inductive OperatingSystem := Windows | Linux.
Inductive Endian := Little.

Record Target := mkTarget {
  architecture : Architecture;
  operating_system : OperatingSystem;
  endian : Endian;
  pointer_width : Z;
  pointer_alignment : Z }.

(** What [cfg!] says about the platform the compiler runs on. *)
Record Platform := mkPlatform {
  target_os_windows : bool;
  target_os_linux : bool;
  target_arch_x86_64 : bool }.

Definition host (p : Platform) : outcome Diagnostic Target :=
  let operating_system :=
    if target_os_windows p then Some Windows
    else if target_os_linux p then Some Linux else None in
  match target_arch_x86_64 p, operating_system with
  | true, Some os => Ok (mkTarget X86_64 os Little 64 8)
  | _, _ => Err (new_diagnostic Backend
      "native backend currently supports only Windows and Linux x86-64" (point 1 1))
  end.

(** ** Layouts *)

Record Layout := mkLayout {
  lay_size : Z;
  lay_align : Z;
  lay_fields : list Z;
  lay_payload_offset : option Z;
  lay_discriminant_size : Z }.
#[export] Instance Layout_eq_dec : EqDecision Layout.
Proof. solve_decision. Defined.

(** An error of the engine, or a recursion without end. *)
Inductive failure := Fails (d : Diagnostic) | Diverges.

Definition layout_error (message : string) : failure :=
  Fails (new_diagnostic Backend message (point 1 1)).

Record Engine := mkEngine {
  eng_cache : list (Ty * Layout);
  eng_active : list Ty }.

Fixpoint cache_get (ty : Ty) (cache : list (Ty * Layout)) : option Layout :=
  match cache with
  | [] => None
  | (t, l) :: cache => if decide (ty = t) then Some l else cache_get ty cache
  end.

Definition activate (ty : Ty) (e : Engine) : Engine :=
  mkEngine (eng_cache e) (ty :: eng_active e).
Definition finish (ty : Ty) (l : Layout) (e : Engine) : Engine :=
  mkEngine ((ty, l) :: eng_cache e) (filter (λ t, t ≠ ty) (eng_active e)).

(** ** Substitution of generic parameters *)

(** [HashMap<String, Type>]; [zip(...).collect()] keeps the last binding of a name. *)
Definition type_arguments_of (generic_parameters : list string) (arguments : list Ty)
    : gmap string Ty :=
  foldl (λ m row, <[row.1 := row.2]> m) ∅ (zip generic_parameters arguments).

Definition declaration_type_arguments (declaration : HStruct) (arguments : list Ty) :=
  type_arguments_of (hs_generic_parameters declaration) arguments.
Definition enum_type_arguments (declaration : HEnum) (arguments : list Ty) :=
  type_arguments_of (he_generic_parameters declaration) arguments.

Fixpoint substitute (ty : Ty) (substitutions : gmap string Ty) : Ty :=
  match ty with
  | TGeneric name => default ty (substitutions !! name)
  | TReference mutable inner => TReference mutable (substitute inner substitutions)
  | TRawPointer mutable inner => TRawPointer mutable (substitute inner substitutions)
  | TMemoryPointer mutable inner => TMemoryPointer mutable (substitute inner substitutions)
  | TStruct id args => TStruct id (map (λ x, substitute x substitutions) args)
  | TEnum id args => TEnum id (map (λ x, substitute x substitutions) args)
  | TOption x => TOption (substitute x substitutions)
  | TResult a b => TResult (substitute a substitutions) (substitute b substitutions)
  | TFunction args result =>
      TFunction (map (λ x, substitute x substitutions) args) (substitute result substitutions)
  | TCFunction args result =>
      TCFunction (map (λ x, substitute x substitutions) args) (substitute result substitutions)
  | TArray element length => TArray (substitute element substitutions) length
  | TSlice element => TSlice (substitute element substitutions)
  | TList element => TList (substitute element substitutions)
  | TThread result => TThread (substitute result substitutions)
  | TMutex value => TMutex (substitute value substitutions)
  | TMutexGuard value => TMutexGuard (substitute value substitutions)
  | TChannel value => TChannel (substitute value substitutions)
  | _ => ty
  end.

Section engine.
Context (overflow_checks : bool).

(** ** Arithmetic of [u64] *)

Definition u64_result {E} (exact : Z) : outcome E Z :=
  if exact <=? U64_MAX then Ok exact
  else if overflow_checks then Panic else Ok (exact mod 2 ^ 64).

Definition add_u64 {E} (a b : Z) : outcome E Z := u64_result (a + b).
Definition mul_u64 {E} (a b : Z) : outcome E Z := u64_result (a * b).

Definition scalar (size align : Z) : Layout := mkLayout size (Z.max align 1) [] None 0.

(** [value.div_ceil(align) * align]; a division by zero panics. *)
Definition align_to {E} (value align : Z) : outcome E Z :=
  if align =? 0 then Panic else mul_u64 (div_ceil value align) align.

(** The loop of [aggregate_layout]: the offsets so far and the size. *)
Definition place_field (st : list Z * Z) (field : Layout)
    : outcome failure (list Z * Z) :=
  size ← align_to st.2 (lay_align field);
  next ← add_u64 size (lay_size field);
  Ok (st.1 ++ [size], next).

Definition max_by (f : Layout → Z) (otherwise : Z) (l : list Layout) : Z :=
  match l with
  | [] => otherwise
  | x :: l => foldl (λ m y, Z.max m (f y)) (f x) l
  end.

Definition aggregate_layout (fields : list Layout) : outcome failure Layout :=
  let align := max_by lay_align 1 fields in
  st ← for_each place_field fields ([], 0);
  size ← align_to st.2 align;
  Ok (mkLayout size align st.1 None 0).

Definition aggregate (sizes : list Z) : outcome failure Layout :=
  aggregate_layout (map (λ size, scalar size size) sizes).

Definition discriminant_width (variants : Z) : Z :=
  if variants <=? 256 then 1 else if variants <=? 65536 then 2 else 4.

Definition enum_layout (variants : list Layout) : outcome failure Layout :=
  let payload_align := max_by lay_align 1 variants in
  let payload_size := max_by lay_size 0 variants in
  let discriminant_size := discriminant_width (zlen variants) in
  payload_offset ← align_to discriminant_size payload_align;
  let align := Z.max payload_align discriminant_size in
  total ← add_u64 payload_offset payload_size;
  size ← align_to total align;
  Ok (mkLayout size align [] (Some payload_offset) discriminant_size).

(** [(0..length).map(|index| element.size * index)]. *)
Fixpoint array_offsets (size : Z) (index : Z) (count : nat) : outcome failure (list Z) :=
  match count with
  | O => Ok []
  | S count =>
    offset ← mul_u64 size index;
    rest ← array_offsets size (index + 1) count;
    Ok (offset :: rest)
  end.

Definition array_layout (element : Layout) (length : Z) : outcome failure Layout :=
  size ← ok_or (checked_mul U64_MAX (lay_size element) length)
           (layout_error "array layout size overflow");
  fields ← array_offsets (lay_size element) 0 (Z.to_nat length);
  Ok (mkLayout size (lay_align element) fields None 0).

(** ** The engine *)

Context (target : Target) (program : HProgram).

Definition generic_names : gset string :=
  list_to_set (concat (map hfn_generic_parameters (hp_functions program))
    ++ concat (map hs_generic_parameters (hp_structs program))
    ++ concat (map he_generic_parameters (hp_enums program))).

Let ptr := pointer_alignment target.
Let word : Layout := scalar (pointer_width target / 8) (pointer_alignment target).

Definition layout_variant {S} (self : Ty → SM S failure Layout) (substitutions : gmap string Ty)
    (variant : HVariant) : SM S failure Layout :=
  fields ← mapS (λ ty, self (substitute ty substitutions)) (hv_payload variant);
  lift (aggregate_layout fields).

(** The [match] of [layout]; [self] is the recursive call, on whatever state it keeps. *)
Definition layout_match {S} (self : Ty → SM S failure Layout) (ty : Ty)
    : SM S failure Layout :=
  match ty with
  | TUnit => mret (scalar 0 1)
  | TBool => mret (scalar 1 1)
  | TChar => mret (scalar 4 4)
  | TString | TCString | TMemory | TSecretBytes | TAeadEnvelope | TEd25519SigningKey | TPath
  | TUrl | TJson => lift (aggregate [ptr; ptr; ptr])
  | TIpAddress => lift (aggregate_layout [scalar 16 1; scalar 1 1])
  | TSocketAddress => lift (aggregate [ptr; ptr; 2])
  | TTcpStream | TTlsStream | THttpRequest | THttpResponse | TTcpListener | TUdpSocket =>
      mret word
  | TUdpDatagram =>
      address ← self TSocketAddress;
      lift (aggregate_layout [address; word; word; word])
  | TStr => lift (aggregate [ptr; ptr])
  | TCStr => mret word
  | TArray element length =>
      element ← self element;
      lift (array_layout element length)
  | TSlice _ => lift (aggregate [ptr; ptr])
  | TList _ => lift (aggregate [ptr; ptr; ptr])
  | TMap _ _ => lift (aggregate [ptr; ptr; ptr; ptr; ptr])
  | TSet _ => lift (aggregate [ptr; ptr; ptr; ptr])
  | TThread _ => lift (aggregate [ptr; ptr])
  | TFuture _ => lift (aggregate [ptr; ptr; ptr])
  | TTask _ => mret word
  | TMutex _ | TMutexGuard _ | TChannel _ | TAtomicInt => lift (aggregate [ptr])
  | TInstant | TDuration => mret (scalar 8 8)
  | TProcessCommand => lift (aggregate
      [ptr; ptr; ptr; ptr; ptr; ptr; ptr; ptr; ptr; 1; ptr; ptr; ptr; ptr; 1; ptr; ptr; ptr;
       8; 1])
  | TChildProcess => mret word
  | TDatabase | TDataStore => mret word
  | TProcessOutput => lift (aggregate [8; ptr; ptr; ptr; ptr])
  | TInt _ width =>
      let bytes := default (pointer_width target) width / 8 in
      mret (scalar bytes (Z.min bytes 16))
  | TFloat width => let bytes := width / 8 in mret (scalar bytes bytes)
  | TFunction _ _ => lift (aggregate_layout [word; word; word])
  | TCRegistration => lift (aggregate [ptr; ptr; ptr; 1])
  | TReference _ _ | TRawPointer _ _ | TCFunction _ _ => mret word
  | TMemoryPointer _ _ => lift (aggregate_layout [word; word; word; word; word])
  | TStruct id arguments =>
      declaration ← lift (ok_or (hp_structs program !! id)
                            (layout_error "unknown struct in layout"));
      let substitutions := declaration_type_arguments declaration arguments in
      layouts ← mapS (λ field, self (substitute (hf_ty field) substitutions))
                  (hs_fields declaration);
      lift (aggregate_layout layouts)
  | TEnum id arguments =>
      declaration ← lift (ok_or (hp_enums program !! id)
                            (layout_error "unknown enum in layout"));
      let substitutions := enum_type_arguments declaration arguments in
      variants ← mapS (layout_variant self substitutions) (he_variants declaration);
      lift (enum_layout variants)
  | TOption inner =>
      inner ← self inner;
      lift (enum_layout [scalar 0 1; inner])
  | TResult ok error =>
      ok ← self ok;
      error ← self error;
      lift (enum_layout [ok; error])
  | TGeneric name =>
      if bool_decide (name ∈ generic_names)
      then throw (layout_error ("unresolved generic `" +:+ name
                                +:+ "` has no concrete layout"))
      else lift (aggregate [ptr; ptr; ptr])
  | TUnknown => throw (layout_error "unknown type has no native layout")
  end.

Fixpoint layout (fuel : nat) (ty : Ty) : SM Engine failure Layout :=
  match fuel with
  | O => throw Diverges
  | S fuel =>
    cached ← gets (λ e, cache_get ty (eng_cache e));
    match cached with
    | Some l => mret l
    | None =>
      active ← gets eng_active;
      if bool_decide (ty ∈ active)
      then throw (layout_error "recursive by-value type has infinite native layout")
      else
        _ ← modify (activate ty);
        l ← layout_match (layout fuel) ty;
        _ ← modify (finish ty l);
        mret l
    end
  end.

Definition engine_new : Engine := mkEngine [] [].
End engine.

(** ** Passing modes of the native calling convention *)

Inductive PassMode := PIgnore | PDirect | PIndirect.
#[export] Instance PassMode_eq_dec : EqDecision PassMode.
Proof. solve_decision. Defined.

Record FunctionAbi := mkFunctionAbi { abi_arguments : list PassMode; abi_result : PassMode }.

Definition classify (l : Layout) : PassMode :=
  if lay_size l =? 0 then PIgnore
  else if bool_decide (lay_size l ∈ [1; 2; 4; 8]) then PDirect else PIndirect.
