(* ===== verification/LayoutProps.v ===== *)
(** * Native layouts are sound, whatever the engine has cached *)

From S2P Require Import Prelude Machine Diagnostics StateM Ast Hir Mir Layout.
#[local] Open Scope string_scope.
#[local] Open Scope list_scope.
#[local] Open Scope Z_scope.

(** ** Alignments *)

Definition pow2 (a : Z) : Prop := a ∈ [1; 2; 4; 8; 16].
#[export] Instance pow2_dec a : Decision (pow2 a) := decide (a ∈ [1; 2; 4; 8; 16]).

Lemma pow2_pos a : pow2 a → 1 <= a.
Proof. unfold pow2. set_solver by lia. Qed.

Lemma pow2_divide a b : pow2 a → pow2 b → a <= b → (a | b).
Proof.
  unfold pow2. rewrite !elem_of_cons, !elem_of_nil. intros Ha Hb Hab.
  destruct Ha as [->|[->|[->|[->|[->|[]]]]]]; destruct Hb as [->|[->|[->|[->|[->|[]]]]]];
    try lia; apply Z.mod_divide; done.
Qed.

Lemma align_to_spec {E} v a r : 0 <= v → 1 <= a → align_to (E:=E) true v a = Ok r →
  v <= r < v + a ∧ (a | r) ∧ r <= U64_MAX.
Proof.
  intros Hv Ha. unfold align_to, mul_u64, u64_result, div_ceil.
  destruct (Z.eqb_spec a 0); [lia|]. destruct (Z.leb_spec ((v + a - 1) / a * a) U64_MAX); [|done].
  intros [= <-]. split; [|split; [apply Z.divide_factor_r|done]].
  pose proof (Z.div_mod (v + a - 1) a). pose proof (Z.mod_pos_bound (v + a - 1) a). lia.
Qed.

Lemma add_u64_spec {E} a b r : add_u64 (E:=E) true a b = Ok r → r = a + b ∧ r <= U64_MAX.
Proof.
  unfold add_u64, u64_result. destruct (Z.leb_spec (a + b) U64_MAX); [|done]. naive_solver.
Qed.

Lemma max_by_cons f d x l :
  max_by f d (x :: l) = match l with [] => f x | _ => Z.max (f x) (max_by f d l) end.
Proof.
  unfold max_by. destruct l as [|y l]; [done|]. simpl.
  generalize (f x) (f y). induction l as [|z l IH]; intros m n; simpl; [done|].
  by rewrite <- Z.max_assoc, IH.
Qed.

Lemma max_by_ge f d l x : x ∈ l → f x <= max_by f d l.
Proof.
  induction l as [|y l IH]; [by intros ?%not_elem_of_nil|].
  rewrite max_by_cons. intros [->|Hx]%elem_of_cons; [destruct l; lia|].
  specialize (IH Hx). destruct l; [by apply not_elem_of_nil in Hx|lia].
Qed.

Lemma max_by_of (P : Z → Prop) f d l : P d → Forall (λ x, P (f x)) l → P (max_by f d l).
Proof.
  intros Hd. induction 1 as [|y l Hy Hl IH]; [done|]. rewrite max_by_cons.
  destruct l; [done|]. by destruct (Z.max_spec (f y) (max_by f d (l :: l0))) as [[_ ->]|[_ ->]].
Qed.

(** ** Aggregates *)

(** A layout that can be placed in an array: its size is a multiple of its alignment. *)
Record solid (l : Layout) : Prop := {
  solid_align : pow2 (lay_align l);
  solid_size : 0 <= lay_size l <= U64_MAX;
  solid_multiple : (lay_align l | lay_size l) }.

#[export] Instance solid_dec l : Decision (solid l).
Proof.
  refine (cast_if (decide (pow2 (lay_align l) ∧ (0 <= lay_size l ∧ lay_size l <= U64_MAX) ∧
    lay_size l mod lay_align l = 0))).
  - destruct a as (Ha & Hs & Hm). split; [done..|]. apply Z.mod_divide; [|done].
    pose proof (pow2_pos _ Ha). lia.
  - intros [Ha Hs Hm]. contradict n. split_and!; [done|lia|lia|].
    apply Z.mod_divide; [|done]. pose proof (pow2_pos _ Ha). lia.
Defined.

(** Offsets for a sequence of fields, in order, each at the first place its alignment
    allows; the last index is where the fields end. *)
Inductive placed : list Layout → list Z → Z → Prop :=
| placed_nil : placed [] [] 0
| placed_snoc fs os e f o :
    placed fs os e → (lay_align f | o) → e <= o < e + lay_align f →
    placed (fs ++ [f]) (os ++ [o]) (o + lay_size f).

Lemma placed_length fs os e : placed fs os e → length os = length fs.
Proof. induction 1; rewrite ?length_app; simpl; lia. Qed.

Lemma placed_nonneg fs os e : Forall solid fs → placed fs os e → 0 <= e.
Proof.
  intros Hs. induction 1 as [|fs os e f o _ IH]; [done|].
  apply Forall_app in Hs as [Hs [[_ ? _] _]%Forall_cons]. specialize (IH Hs). lia.
Qed.

Lemma place_fields_spec fs fs0 os0 e0 os e : Forall solid (fs0 ++ fs) →
  placed fs0 os0 e0 → for_each (place_field true) fs (os0, e0) = Ok (os, e) →
  placed (fs0 ++ fs) os e.
Proof.
  revert fs0 os0 e0. induction fs as [|f fs IH]; intros fs0 os0 e0 Hs Hp; simpl.
  { intros [= <- <-]. by rewrite app_nil_r. }
  intros H. inv_ok H. unfold place_field in Hv. simpl in Hv. inv_ok Hv.
  injection Hv as <-. apply add_u64_spec in Hv1 as [-> _].
  pose proof Hs as Hs'. apply Forall_app in Hs' as [Hs0 [[Hf _ _] _]%Forall_cons].
  apply align_to_spec in Hv0 as (? & ? & _); [|exact (placed_nonneg _ _ _ Hs0 Hp)|by apply pow2_pos].
  rewrite cons_middle, (assoc_L (++)) in *. eapply IH; [done| |done].
  by apply (placed_snoc _ _ e0).
Qed.

(** What [placed] means for two fields of the aggregate. *)
Lemma placed_fields fs os e : Forall solid fs → placed fs os e →
  ∀ i f o, fs !! i = Some f → os !! i = Some o →
    (lay_align f | o) ∧ 0 <= o ∧ o + lay_size f <= e ∧
    ∀ j f' o', (i < j)%nat → fs !! j = Some f' → os !! j = Some o' → o + lay_size f <= o'.
Proof.
  intros Hs. induction 1 as [|fs os e g q Hp IH Hq1 Hq2]; intros i f o; [done|].
  apply Forall_app in Hs as [Hs Hg]. specialize (IH Hs).
  pose proof (placed_length _ _ _ Hp) as Hlen. pose proof (placed_nonneg _ _ _ Hs Hp).
  assert (Hg2 : 0 <= lay_size g) by (apply Forall_cons in Hg as [[_ ? _] _]; lia).
  intros [Hi|[Hi [Hi' <-]%list_lookup_singleton_Some]]%lookup_app_Some
    [Ho|[Ho [Ho' <-]%list_lookup_singleton_Some]]%lookup_app_Some;
    try (apply lookup_lt_Some in Hi; lia); try (apply lookup_lt_Some in Ho; lia).
  - destruct (IH i f o Hi Ho) as (H1 & H2 & H3 & H4). split_and!; [done|done|lia|].
    intros j f' o' Hij [Hj|[Hj [Hj' <-]%list_lookup_singleton_Some]]%lookup_app_Some
      [Hoj|[Hoj [Hoj' <-]%list_lookup_singleton_Some]]%lookup_app_Some;
      try (apply lookup_lt_Some in Hj; lia); try (apply lookup_lt_Some in Hoj; lia); [eauto|lia].
  - split_and!; [done|lia|lia|]. intros j f' o' Hij Hj%lookup_lt_Some.
    rewrite length_app in Hj. simpl in Hj. lia.
Qed.

(** Every field of the aggregate [l] is aligned, inside [l], and after the previous ones;
    [l] itself ends less than one alignment after its last field. *)
Definition aggregates (fs : list Layout) (l : Layout) : Prop :=
  solid l ∧ Forall (λ f, (lay_align f | lay_align l)) fs ∧
  ∃ e, placed fs (lay_fields l) e ∧ e <= lay_size l < e + lay_align l.

Lemma aggregate_layout_spec fs l : Forall solid fs →
  aggregate_layout true fs = Ok l → aggregates fs l.
Proof.
  intros Hs H. unfold aggregate_layout in H. inv_ok H.
  destruct v as [os e]. apply (place_fields_spec fs [] [] 0) in Hv as Hp; [|done|constructor].
  injection H as <-. assert (Ha : pow2 (max_by lay_align 1 fs)).
  { apply max_by_of; [set_solver|]. eapply Forall_impl; [exact Hs|]. by intros ? []. }
  pose proof (placed_nonneg _ _ _ Hs Hp).
  apply align_to_spec in Hv0 as (H1 & H2 & H3); simpl in *; [|done|by apply pow2_pos].
  split; [split; simpl; [done|lia|done]|]. split; simpl; [|by exists e].
  apply Forall_forall. intros f Hf. apply pow2_divide; [|done|by apply max_by_ge].
  rewrite Forall_forall in Hs. by destruct (Hs f Hf).
Qed.

(** ** Tagged unions and arrays *)

(** The tag and the payload of every variant fit into [l] without overlapping, the payload
    offset suits every variant, and the tag tells the variants apart (for fewer than
    [2 ^ 32] of them, the most a [u32] tag can tell apart). *)
Definition tagged (vs : list Layout) (l : Layout) : Prop :=
  solid l ∧ lay_discriminant_size l ∈ [1; 2; 4] ∧
  (zlen vs <= 2 ^ 32 → zlen vs <= 256 ^ lay_discriminant_size l) ∧
  ∃ o, lay_payload_offset l = Some o ∧ lay_discriminant_size l <= o ∧
    Forall (λ v, (lay_align v | o) ∧ (lay_align v | lay_align l) ∧
                 o + lay_size v <= lay_size l) vs.

Lemma discriminant_width_spec n : discriminant_width n ∈ [1; 2; 4] ∧
  (n <= 2 ^ 32 → n <= 256 ^ discriminant_width n).
Proof.
  unfold discriminant_width.
  destruct (Z.leb_spec n 256); [|destruct (Z.leb_spec n 65536)]; (split; [set_solver|lia]).
Qed.

Lemma enum_layout_spec vs l : Forall solid vs → enum_layout true vs = Ok l → tagged vs l.
Proof.
  intros Hs H. unfold enum_layout in H. inv_ok H. injection H as <-.
  destruct (discriminant_width_spec (zlen vs)) as [Hd Hd'].
  set (d := discriminant_width (zlen vs)) in *. set (a := max_by lay_align 1 vs) in *.
  assert (Ha : pow2 a).
  { apply max_by_of; [set_solver|]. eapply Forall_impl; [exact Hs|]. by intros ? []. }
  assert (Hd2 : pow2 d) by (unfold pow2; set_solver).
  pose proof (pow2_pos _ Ha). pose proof (pow2_pos _ Hd2).
  assert (Hm : pow2 (Z.max a d)) by (by destruct (Z.max_spec a d) as [[_ ->]|[_ ->]]).
  apply align_to_spec in Hv as (H1 & H2 & H3); [|lia..].
  apply add_u64_spec in Hv0 as [-> H4].
  assert (H5 : 0 <= max_by lay_size 0 vs).
  { apply max_by_of; [done|]. eapply Forall_impl; [exact Hs|]. intros ? [_ ? _]. lia. }
  apply align_to_spec in Hv1 as (H6 & H7 & H8); [|lia..].
  split; [split; simpl; [done|lia|done]|]. split; [done|]. split; [done|].
  exists v. split; [done|]. split; [simpl; lia|]. apply Forall_forall. intros x Hx.
  rewrite Forall_forall in Hs. destruct (Hs x Hx) as [Hx1 Hx2 Hx3].
  pose proof (max_by_ge lay_align 1 vs x Hx) as Hxa. fold a in Hxa.
  pose proof (max_by_ge lay_size 0 vs x Hx).
  split; [|split]; simpl; [|apply pow2_divide; [done|done|lia]|lia].
  etransitivity; [by apply (pow2_divide _ a)|done].
Qed.

(** [n] elements one after the other. *)
Definition arranged (element : Layout) (n : Z) (l : Layout) : Prop :=
  solid l ∧ lay_align l = lay_align element ∧ lay_size l = lay_size element * n ∧
  zlen (lay_fields l) = n ∧
  ∀ i o, lay_fields l !! i = Some o → o = lay_size element * Z.of_nat i.

Lemma array_offsets_spec size index count os : array_offsets true size index count = Ok os →
  length os = count ∧ ∀ i o, os !! i = Some o → o = size * (index + Z.of_nat i).
Proof.
  revert index os. induction count as [|count IH]; intros index os; simpl.
  { by intros [= <-]. }
  intros H. inv_ok H. injection H as <-. apply IH in Hv0 as [<- Hos]. split; [done|].
  intros [|i] o; simpl.
  - intros [= <-]. unfold mul_u64, u64_result in Hv.
    destruct (size * index <=? U64_MAX); [|done]. injection Hv as <-. f_equal. lia.
  - intros ->%Hos. f_equal. lia.
Qed.

Lemma array_layout_spec element n l : 0 <= n → solid element →
  array_layout true element n = Ok l → arranged element n l.
Proof.
  intros Hn [H1 H2 H3] H. unfold array_layout in H. inv_ok H. injection H as <-.
  unfold checked_mul, try_from in Hv.
  destruct ((0 <=? lay_size element * n) && (lay_size element * n <=? U64_MAX)) eqn:E; [|done].
  injection Hv as <-. reflect_bools. apply array_offsets_spec in Hv0 as [Hlen Hos].
  split; [split; simpl; [done|lia|by apply Z.divide_mul_l]|].
  split_and!; [done|done|unfold zlen; simpl; rewrite Hlen; lia|exact Hos].
Qed.

(** ** Types the front end produces *)

Fixpoint sane (ty : Ty) : bool :=
  match ty with
  | TInt _ (Some w) => bool_decide (w ∈ [8; 16; 32; 64; 128])
  | TFloat w => bool_decide (w ∈ [32; 64])
  | TArray element n => (0 <=? n) && sane element
  | TSlice t | TList t | TSet t | TThread t | TFuture t | TTask t | TMutex t
  | TMutexGuard t | TChannel t | TReference _ t | TRawPointer _ t | TMemoryPointer _ t
  | TOption t => sane t
  | TMap t u | TResult t u => sane t && sane u
  | TStruct _ ts | TEnum _ ts => forallb sane ts
  | TFunction ts t | TCFunction ts t => forallb sane ts && sane t
  | _ => true
  end.

Definition sane_program (program : HProgram) : bool :=
  forallb (λ d, forallb (λ f, sane (hf_ty f)) (hs_fields d)) (hp_structs program)
  && forallb (λ d, forallb (λ v, forallb sane (hv_payload v)) (he_variants d))
       (hp_enums program).

Definition sane_map (m : gmap string Ty) : Prop := ∀ x t, m !! x = Some t → sane t = true.

Lemma forallb_map_sane (m : gmap string Ty) ts :
  Forall (λ t, sane t = true → sane (substitute t m) = true) ts →
  forallb sane ts = true → forallb sane (map (λ x, substitute x m) ts) = true.
Proof.
  induction 1 as [|t ts Ht Hts IH]; simpl; [done|].
  intros [??]%andb_true_iff. apply andb_true_iff. auto.
Qed.

Lemma substitute_sane m ty : sane_map m → sane ty = true → sane (substitute ty m) = true.
Proof.
  intros Hm. revert ty.
  apply (Ty_nested_ind (λ ty, sane ty = true → sane (substitute ty m) = true));
    [|intros c t Hc IH|intros t n IH|intros c b t Hc IH|intros c t u Hc IHt IHu|intros c n ts Hc IH|intros c ts t Hc IHs IH].
  - intros []; try done. simpl. destruct (m !! name) eqn:E; [|done]. eauto.
  - rewrite !elem_of_cons, elem_of_nil in Hc. destruct_or! Hc; subst; simpl; auto; done.
  - simpl. rewrite !andb_true_iff. naive_solver.
  - rewrite !elem_of_cons, elem_of_nil in Hc. destruct_or! Hc; subst; simpl; auto; done.
  - rewrite !elem_of_cons, elem_of_nil in Hc.
    destruct_or! Hc; subst; simpl; rewrite ?andb_true_iff; naive_solver.
  - rewrite !elem_of_cons, elem_of_nil in Hc.
    destruct_or! Hc; subst; simpl; auto using forallb_map_sane; done.
  - rewrite !elem_of_cons, elem_of_nil in Hc.
    destruct_or! Hc; subst; simpl; rewrite ?andb_true_iff; naive_solver eauto using forallb_map_sane.
Qed.

Lemma type_arguments_sane ps ts : forallb sane ts = true → sane_map (type_arguments_of ps ts).
Proof.
  unfold type_arguments_of. intros Hts.
  assert (H : Forall (λ row : string * Ty, sane row.2 = true) (zip ps ts)).
  { apply Forall_forall. intros [p t] Hpt%elem_of_zip_r. rewrite forallb_forall in Hts.
    by apply Hts, list_elem_of_In. }
  assert (H0 : sane_map ∅) by (intros x t; by rewrite lookup_empty).
  revert H0. generalize (∅ : gmap string Ty). induction H as [|row rows Hr Hrs IH]; simpl; [done|].
  intros m Hm. apply IH. intros x t [[_ <-]|[_ ?]]%lookup_insert_Some; eauto.
Qed.

(** ** The reference: the same recursion without a cache *)

Section reference.
Context (checks : bool) (target : Target) (program : HProgram).

Fixpoint uncached (fuel : nat) (ty : Ty) : SM unit failure Layout :=
  match fuel with
  | O => throw Diverges
  | S fuel => layout_match checks target program (uncached fuel) ty
  end.

Definition lays_out (ty : Ty) (l : Layout) : Prop :=
  ∃ fuel, uncached fuel ty tt = Ok (l, tt).
End reference.

Lemma lift_ok {S E A} (m : outcome E A) (s s' : S) a :
  lift m s = Ok (a, s') ↔ m = Ok a ∧ s' = s.
Proof. unfold lift. destruct m; simpl; naive_solver. Qed.

Lemma mapS_unit {E A B} (f : A → SM unit E B) l bs u :
  mapS f l u = Ok (bs, tt) ↔ Forall2 (λ a b, f a tt = Ok (b, tt)) l bs.
Proof.
  destruct u. revert bs. induction l as [|a l IH]; intros bs; simpl.
  { split; [by intros [= <-]|by inversion 1]. }
  split.
  - intros (b & [] & H1 & (bs' & [] & H2 & H3)%SM_bind_ok)%SM_bind_ok.
    injection H3 as <-. constructor; [done|by apply IH].
  - intros H. inversion H as [|? b ? bs' H1 H2]; subst.
    apply SM_bind_ok. exists b, tt. split; [done|]. apply IH in H2.
    apply SM_bind_ok. by exists bs', tt.
Qed.

(** Invert a chain of binds of stateful code that returned. *)
Ltac inv_sm H :=
  repeat match type of H with
  | (_ ≫= _) _ = Ok _ =>
      let a := fresh "x" in let s := fresh "s" in let H1 := fresh "Hx" in
      apply SM_bind_ok in H as (a & s & H1 & H)
  | lift _ _ = Ok _ => apply lift_ok in H as [H ?]
  end.

Lemma scalar_solid s a : pow2 a → 0 <= s <= U64_MAX → (a | s) → solid (scalar s a).
Proof.
  intros Ha Hs Hd. pose proof (pow2_pos _ Ha).
  unfold scalar. rewrite Z.max_l by lia. by split.
Qed.

Lemma aggregate_solid sizes l : Forall pow2 sizes → aggregate true sizes = Ok l → solid l.
Proof.
  intros Hs H. apply aggregate_layout_spec in H as [H _]; [done|].
  apply Forall_map. eapply Forall_impl; [exact Hs|]. intros a Ha. apply scalar_solid; [done| |done].
  unfold pow2, U64_MAX in *. set_solver by lia.
Qed.

(** Close a decidable goal by evaluation. *)
Ltac evaluate := apply (bool_decide_unpack _); vm_compute; exact I.

(** A [Forall] over a list that is written out, from hypotheses. *)
Ltac foralls := repeat first [apply Forall_nil_2 | apply Forall_cons_2; [done|]].

Section soundness.
Context (p : Platform) (target : Target) (program : HProgram).
Context (Hhost : host p = Ok target) (Hprogram : sane_program program = true).

Lemma host_pointers : pointer_width target = 64 ∧ pointer_alignment target = 8.
Proof.
  revert Hhost. unfold host. repeat case_match; try done; by intros [= <-].
Qed.

Lemma word_solid : solid (scalar (pointer_width target / 8) (pointer_alignment target)).
Proof.
  destruct host_pointers as [-> ->].
  apply scalar_solid; [unfold pow2; set_solver|by vm_compute|by exists 1].
Qed.

Lemma struct_sane id d args field : hp_structs program !! id = Some d →
  forallb sane args = true → field ∈ hs_fields d →
  sane (substitute (hf_ty field) (declaration_type_arguments d args)) = true.
Proof.
  intros Hd Ha Hf. apply substitute_sane; [by apply type_arguments_sane|].
  unfold sane_program in Hprogram. apply andb_true_iff in Hprogram as [H _].
  rewrite forallb_forall in H. specialize (H d). rewrite forallb_forall in H.
  apply H; [apply list_elem_of_In; by eapply list_elem_of_lookup_2|by apply list_elem_of_In].
Qed.

Lemma enum_sane id d args variant ty : hp_enums program !! id = Some d →
  forallb sane args = true → variant ∈ he_variants d → ty ∈ hv_payload variant →
  sane (substitute ty (enum_type_arguments d args)) = true.
Proof.
  intros Hd Ha Hv Ht. apply substitute_sane; [by apply type_arguments_sane|].
  unfold sane_program in Hprogram. apply andb_true_iff in Hprogram as [_ H].
  rewrite forallb_forall in H. specialize (H d). rewrite forallb_forall in H.
  specialize (H ltac:(apply list_elem_of_In; by eapply list_elem_of_lookup_2) variant).
  rewrite forallb_forall in H.
  apply H; by apply list_elem_of_In.
Qed.

Let ref := uncached true target program.

(** The components of a type have solid layouts by induction. *)
Lemma solids {A} fuel (f : A → Ty) l ls :
  (∀ ty l, sane ty = true → ref fuel ty tt = Ok (l, tt) → solid l) →
  (∀ a, a ∈ l → sane (f a) = true) →
  Forall2 (λ a b, ref fuel (f a) tt = Ok (b, tt)) l ls → Forall solid ls.
Proof.
  intros IH Hs H. apply Forall_forall. intros b [i Hb]%list_elem_of_lookup_1.
  destruct (Forall2_lookup_r _ _ _ _ _ H Hb) as (a & Ha & Hab).
  eapply IH; [|exact Hab]. apply Hs. by eapply list_elem_of_lookup_2.
Qed.

Lemma variant_solid fuel id d args variant l :
  (∀ ty l, sane ty = true → ref fuel ty tt = Ok (l, tt) → solid l) →
  hp_enums program !! id = Some d → forallb sane args = true → variant ∈ he_variants d →
  layout_variant true (ref fuel) (enum_type_arguments d args) variant tt = Ok (l, tt) →
  ∃ fs, Forall2 (λ ty f, ref fuel (substitute ty (enum_type_arguments d args)) tt = Ok (f, tt))
          (hv_payload variant) fs ∧ Forall solid fs ∧ aggregates fs l.
Proof.
  intros IH Hd Ha Hv H. unfold layout_variant in H. inv_sm H. destruct s.
  apply mapS_unit in Hx. exists x.
  assert (Hs : Forall solid x).
  { eapply solids; [exact IH| |exact Hx]. intros t Ht. by eapply enum_sane. }
  split_and!; [done..|]. by apply aggregate_layout_spec.
Qed.

Lemma int_solid signed width : sane (TInt signed width) = true →
  solid (scalar (default 64 width / 8) (Z.min (default 64 width / 8) 16)).
Proof.
  destruct width as [w|]; simpl; [|intros _; evaluate].
  rewrite bool_decide_eq_true, !elem_of_cons, elem_of_nil.
  intros Hw. destruct_or! Hw; subst; first [done | evaluate].
Qed.

Lemma float_solid width : sane (TFloat width) = true → solid (scalar (width / 8) (width / 8)).
Proof.
  simpl. rewrite bool_decide_eq_true, !elem_of_cons, elem_of_nil.
  intros Hw. destruct_or! Hw; subst; first [done | evaluate].
Qed.

Lemma uncached_solid fuel ty l :
  sane ty = true → ref fuel ty tt = Ok (l, tt) → solid l.
Proof.
  revert ty l. induction fuel as [|fuel IH]; intros ty l Hty H; [done|].
  pose proof word_solid as Hword. destruct host_pointers as [Hpw Hpa].
  unfold ref in H. cbn [uncached] in H. fold ref in H.
  destruct ty; cbn [layout_match] in H; inv_sm H; rewrite ?Hpa, ?Hpw in *;
    lazymatch goal with
    | H : aggregate _ _ = _ |- _ => apply aggregate_solid in H; [assumption|evaluate]
    | H : throw _ _ = _ |- _ => discriminate H
    | H : mret _ _ = Ok _ |- _ =>
        injection H as <-;
        first [exact Hword | by apply (int_solid signed) | by apply float_solid | evaluate]
    | _ => idtac
    end.
  - apply aggregate_layout_spec in H as [H _]; [done|evaluate].
  - destruct s. apply IH in Hx; [|done].
    apply aggregate_layout_spec in H as [H _]; [done|]. foralls.
  - simpl in Hty. apply andb_true_iff in Hty as [Hn Ht]. destruct s. apply IH in Hx; [|done].
    apply array_layout_spec in H as [H _]; [done|by apply Z.leb_le|done].
  - apply aggregate_layout_spec in H as [H _]; [done|]. foralls.
  - destruct (hp_structs program !! id) as [d|] eqn:Hd; [|done]. injection Hx as <-.
    destruct s0. apply mapS_unit in Hx0.
    apply aggregate_layout_spec in H as [H _]; [done|].
    eapply (solids fuel _ _ _ IH); [|exact Hx0]. intros f Hf. by eapply struct_sane.
  - destruct (hp_enums program !! id) as [d|] eqn:Hd; [|done]. injection Hx as <-.
    destruct s0. apply mapS_unit in Hx0.
    apply enum_layout_spec in H as [H _]; [done|]. apply Forall_forall.
    intros v [i Hi]%list_elem_of_lookup_1.
    destruct (Forall2_lookup_r _ _ _ _ _ Hx0 Hi) as (variant & Hv & Hl).
    eapply variant_solid in Hl as (_ & _ & _ & Hl & _);
      [done|exact IH|done|done|by eapply list_elem_of_lookup_2].
  - destruct s. apply IH in Hx; [|done]. apply enum_layout_spec in H as [H _]; [done|].
    apply Forall_cons_2; [evaluate|foralls].
  - simpl in Hty. apply andb_true_iff in Hty as [Ht Hu]. destruct s, s0.
    apply IH in Hx, Hx0; [|done..]. apply enum_layout_spec in H as [H _]; [done|].
    foralls.
  - case_bool_decide; [done|]. apply lift_ok in H as [H _].
    apply aggregate_solid in H; [done|evaluate].
  - apply aggregate_layout_spec in H as [H _]; [done|]. foralls.
Qed.
End soundness.
