(* ===== verification/LayoutCache.v ===== *)
(** * The cache of the layout engine is transparent

    The engine with its cache and its set of active types returns a layout exactly when
    the plain recursion [uncached] does, and the same one: a cached layout is never stale,
    and the test for recursive types only rejects types without a finite layout. *)

From S2P Require Import Prelude Machine Diagnostics StateM Ast Hir Mir Layout LayoutProps.
#[local] Open Scope string_scope.
#[local] Open Scope list_scope.
#[local] Open Scope Z_scope.

(** ** Two simulations between stateless and stateful code *)

Section simulation.
Context {S E : Type} (I : S → Prop).

(** Whatever [m] returns, [m'] returns too, from every state that satisfies [I]. *)
Definition follows {A} (m : SM unit E A) (m' : SM S E A) : Prop :=
  ∀ a e, m tt = Ok (a, tt) → I e → ∃ e', m' e = Ok (a, e') ∧ I e'.

Lemma follows_ret {A} (a : A) : follows (mret a) (mret a).
Proof. intros b e [= <-] He. by exists e. Qed.
Lemma follows_throw {A} x (m' : SM S E A) : follows (throw x) m'.
Proof. done. Qed.
Lemma follows_lift {A} (m : outcome E A) : follows (lift m) (lift m).
Proof. intros a e [H _]%lift_ok He. exists e. by rewrite lift_ok. Qed.
Lemma follows_bind {A B} (m : SM unit E A) m' (f : A → SM unit E B) f' :
  follows m m' → (∀ a, follows (f a) (f' a)) → follows (m ≫= f) (m' ≫= f').
Proof.
  intros Hm Hf b e (a & [] & H1 & H2)%SM_bind_ok He.
  destruct (Hm a e H1 He) as (e1 & H1' & He1). destruct (Hf a b e1 H2 He1) as (e2 & H2' & He2).
  exists e2. split; [|done]. apply SM_bind_ok. eauto.
Qed.
Lemma follows_mapS {A B} (f : A → SM unit E B) f' l :
  (∀ a, follows (f a) (f' a)) → follows (mapS f l) (mapS f' l).
Proof.
  intros Hf. induction l as [|a l IH]; simpl; [apply follows_ret|].
  apply follows_bind; [done|]. intros b. apply follows_bind; [done|]. intros bs.
  apply follows_ret.
Qed.

(** Whatever [m] returns, the stateless family [F] returns from some index on. *)
Definition limits_to {A} (m : SM S E A) (F : nat → SM unit E A) : Prop :=
  ∀ e a e', I e → m e = Ok (a, e') → I e' ∧ ∃ n, ∀ k, (n <= k)%nat → F k tt = Ok (a, tt).

Lemma limits_to_ret {A} (a : A) : limits_to (mret a) (λ _, mret a).
Proof. intros e b e' He [= <- <-]. split; [done|]. by exists O. Qed.
Lemma limits_to_throw {A} x (F : nat → SM unit E A) : limits_to (throw x) F.
Proof. done. Qed.
Lemma limits_to_lift {A} (m : outcome E A) : limits_to (lift m) (λ _, lift m).
Proof. intros e a e' He [-> ->]%lift_ok. split; [done|]. by exists O. Qed.
Lemma limits_to_bind {A B} (m : SM S E A) F (f : A → SM S E B) G :
  limits_to m F → (∀ a, limits_to (f a) (λ k, G k a)) →
  limits_to (m ≫= f) (λ k, F k ≫= G k).
Proof.
  intros Hm Hf e b e2 He (a & e1 & H1 & H2)%SM_bind_ok.
  destruct (Hm _ _ _ He H1) as [He1 [n1 Hn1]]. destruct (Hf a _ _ _ He1 H2) as [He2 [n2 Hn2]].
  split; [done|]. exists (Nat.max n1 n2). intros k Hk. apply SM_bind_ok. exists a, tt.
  split; [apply Hn1|apply Hn2]; lia.
Qed.
Lemma limits_to_mapS {A B} (f : A → SM S E B) G l :
  (∀ a, limits_to (f a) (λ k, G k a)) → limits_to (mapS f l) (λ k, mapS (G k) l).
Proof.
  intros Hf. induction l as [|a l IH]; simpl; [apply limits_to_ret|].
  apply (limits_to_bind _ (λ k, G k a) _ (λ k b, bs ← mapS (G k) l; mret (b :: bs)));
    [apply Hf|].
  intros b. apply (limits_to_bind _ (λ k, mapS (G k) l) _ (λ k bs, mret (b :: bs))); [done|].
  intros bs. apply limits_to_ret.
Qed.
End simulation.

(** Decompose a [limits_to] goal along the two programs. *)
Ltac limit_step H :=
  first
  [ apply limits_to_ret | apply limits_to_throw | apply limits_to_lift | apply H
  | lazymatch goal with
    | |- limits_to _ (?m ≫= ?f) (λ k, @?F k ≫= @?G k) =>
        apply (limits_to_bind _ m F f G); [|intros ?; cbn beta]
    | |- limits_to _ (mapS ?f ?l) (λ k, mapS (@?G k) ?l) =>
        apply (limits_to_mapS _ f G l); intros ?; cbn beta
    end
  | progress unfold layout_variant ].

Section cache.
Context (checks : bool) (target : Target) (program : HProgram).
Let step {S} := layout_match (S:=S) checks target program.
Let ref := uncached checks target program.

Lemma layout_match_follows {S} (I : S → Prop) self self' ty :
  (∀ t, follows I (self t) (self' t)) → follows I (step self ty) (step self' ty).
Proof.
  intros Hself. unfold step.
  destruct ty; cbn [layout_match]; try case_bool_decide;
    repeat first [ apply follows_ret | apply follows_throw | apply follows_lift | apply Hself
                 | apply follows_bind; [|intros ?] | apply follows_mapS; intros ?
                 | unfold layout_variant ].
Qed.

Lemma layout_match_limits {S} (I : S → Prop) self F ty :
  (∀ t, limits_to I (self t) (λ k, F k t)) → limits_to I (step self ty) (λ k, step (F k) ty).
Proof.
  intros Hself. unfold step.
  destruct ty; cbn [layout_match]; try case_bool_decide; repeat limit_step Hself.
Qed.

(** ** The reference *)

Lemma uncached_mono fuel fuel' ty l : (fuel <= fuel')%nat →
  ref fuel ty tt = Ok (l, tt) → ref fuel' ty tt = Ok (l, tt).
Proof.
  intros Hle. revert fuel' ty l Hle. induction fuel as [|fuel IH]; intros [|fuel'] ty l Hle;
    try done; [lia|]. intros H.
  destruct (layout_match_follows (λ _ : unit, True) (ref fuel) (ref fuel') ty) with (a := l)
    (e := tt) as ([] & H' & _); try done.
  intros t a [] Ht _. exists tt. split; [|done]. eapply IH; [lia|done].
Qed.

Lemma lays_out_unique ty l l' :
  lays_out checks target program ty l → lays_out checks target program ty l' → l = l'.
Proof.
  intros [n H] [n' H'].
  apply (uncached_mono n (Nat.max n n')) in H; [|lia].
  apply (uncached_mono n' (Nat.max n n')) in H'; [|lia]. unfold ref in *. congruence.
Qed.

(** ** The engine *)

(** Every cached layout is the layout of its type. *)
Definition coherent (e : Engine) : Prop :=
  ∀ t l, cache_get t (eng_cache e) = Some l → lays_out checks target program t l.

(** The engine between two calls, while the types [active] are being laid out. *)
Definition working (active : list Ty) (e : Engine) : Prop :=
  coherent e ∧ eng_active e = active.

Lemma filter_ne ty (l : list Ty) : ty ∉ l → filter (λ t, t ≠ ty) l = l.
Proof.
  induction l as [|t l IH]; [done|]. intros [Ht Hl]%not_elem_of_cons.
  rewrite filter_cons_True by naive_solver. by rewrite IH.
Qed.

Lemma finish_working ty l active e : ty ∉ active → lays_out checks target program ty l →
  working (ty :: active) e → working active (finish ty l e).
Proof.
  intros Hty Hl [Hc Ha]. split.
  - intros t l'. simpl. destruct (decide (t = ty)) as [->|]; [|apply Hc]. by intros [= <-].
  - unfold finish. simpl. rewrite Ha, filter_cons_False by naive_solver.
    by apply filter_ne.
Qed.

Lemma layout_sound fuel ty active :
  limits_to (working active) (layout checks target program fuel ty) (λ k, ref k ty).
Proof.
  revert ty active. induction fuel as [|fuel IH]; intros ty active e l e' He; [done|].
  simpl. intros (c & s & Hs & H)%SM_bind_ok. injection Hs as <- <-.
  destruct (cache_get ty (eng_cache e)) as [l'|] eqn:Hc.
  { injection H as <- <-. split; [done|]. destruct He as [He _].
    destruct (He _ _ Hc) as [n Hn]. exists n. intros k Hk. by eapply uncached_mono. }
  apply SM_bind_ok in H as (a & s & Hs & H). injection Hs as <- <-.
  destruct He as [He Ha]. rewrite Ha in H. case_bool_decide as Hin; [done|].
  apply SM_bind_ok in H as ([] & e1 & Hs & H). injection Hs as <-.
  apply SM_bind_ok in H as (l1 & e2 & H1 & H).
  apply SM_bind_ok in H as ([] & e3 & Hs & H). injection Hs as <-. injection H as <- <-.
  destruct (layout_match_limits (working (ty :: active)) _ _ ty (λ t, IH t (ty :: active))
    (activate ty e) l1 e2) as [He2 [n Hn]]; [|done|].
  { split; [exact He|]. simpl. by rewrite Ha. }
  assert (Hl : ∀ k, (S n <= k)%nat → ref k ty tt = Ok (l1, tt)).
  { intros [|k] Hk; [lia|]. apply Hn. lia. }
  split; [|by exists (S n)]. apply finish_working; [done| |done]. exists (S n). by apply Hl.
Qed.

(** Running the engine on a type it is not working on. *)
Lemma layout_enter fuel fuel' ty l e active :
  (∀ t, follows (working (ty :: active)) (ref fuel t) (layout checks target program fuel' t)) →
  ref (S fuel) ty tt = Ok (l, tt) → ty ∉ active → working active e →
  ∃ e', layout checks target program (S fuel') ty e = Ok (l, e') ∧ working active e'.
Proof.
  intros Hself H Hty He. assert (Hl : lays_out checks target program ty l) by (by exists (S fuel)).
  cbn [layout]. erewrite SM_bind_run by done.
  destruct (cache_get ty (eng_cache e)) as [l'|] eqn:Hc.
  { exists e. split; [|done]. destruct He as [He _].
    by rewrite (lays_out_unique ty l l' Hl (He _ _ Hc)). }
  destruct He as [He Ha]. erewrite SM_bind_run by done. rewrite Ha, bool_decide_false by done.
  erewrite SM_bind_run by done.
  destruct (layout_match_follows _ _ _ ty Hself l (activate ty e) H) as (e1 & He1 & Hw1).
  { split; [done|]. simpl. by rewrite Ha. }
  erewrite SM_bind_run by exact He1. erewrite SM_bind_run by done.
  eexists. split; [done|]. by apply finish_working.
Qed.

Lemma layout_complete fuel ty l e active :
  ref fuel ty tt = Ok (l, tt) →
  (∀ a l, a ∈ active → ref fuel a tt ≠ Ok (l, tt)) → working active e →
  ∀ fuel', (fuel <= fuel')%nat →
  ∃ e', layout checks target program fuel' ty e = Ok (l, e') ∧ working active e'.
Proof.
  revert ty l e active. induction fuel as [|fuel IH]; intros ty l e active H Hact He fuel' Hle;
    [done|].
  assert (Hless : ∀ a l, a ∈ active → ref fuel a tt ≠ Ok (l, tt)).
  { intros a l0 Ha Hl. apply (Hact a l0 Ha). eapply uncached_mono; [|exact Hl]. lia. }
  assert (Hcases : ref fuel ty tt = Ok (l, tt) ∨ ∀ l, ref fuel ty tt ≠ Ok (l, tt)).
  { destruct (ref fuel ty tt) as [[l' []]| |] eqn:Hl; [left|by right..].
    rewrite (lays_out_unique ty l' l); [done|by exists fuel|by exists (S fuel)]. }
  destruct Hcases as [Hl|Hmin]; [eapply IH; [done..|lia]|].
  destruct fuel' as [|fuel']; [lia|]. apply (layout_enter fuel); [|done| |done].
  - intros t a e1 Ht He1. eapply IH; [done| |done|lia].
    intros b lb [->|Hb]%elem_of_cons; [apply Hmin|by apply Hless].
  - intros Hin. by eapply Hact.
Qed.
End cache.

(** C29: the cache and the set of active types do not change what the engine computes.  An
    engine that is not working on a type and holds correct layouts returns only layouts of
    the plain recursion, stays so, and returns every layout that recursion has: caching is
    never stale, and no type with a finite layout is rejected as recursive. *)
Theorem layout_cache_transparent checks target program e ty :
  coherent checks target program e → eng_active e = [] →
  (∀ fuel l e', layout checks target program fuel ty e = Ok (l, e') →
     lays_out checks target program ty l ∧ coherent checks target program e' ∧
     eng_active e' = []) ∧
  (∀ l, lays_out checks target program ty l →
     ∃ fuel e', layout checks target program fuel ty e = Ok (l, e')).
Proof.
  intros Hc Ha. split.
  - intros fuel l e' H.
    destruct (layout_sound checks target program fuel ty [] e l e') as [[??] [n Hn]]; [by split|done|].
    split_and!; [|done..]. exists n. by apply Hn.
  - intros l [n Hn]. destruct (layout_complete checks target program n ty l e [] Hn)
      with (fuel' := n) as (e' & He' & _); [set_solver|by split|lia|].
    eauto.
Qed.

(** ** What a layout promises about a type *)

(** [l] is solid, and its parts are where the parts of [ty] go. *)
Definition describes (target : Target) (program : HProgram) (ty : Ty) (l : Layout) : Prop :=
  let lays := lays_out true target program in
  solid l ∧
  match ty with
  | TStruct id arguments => ∃ d fs, hp_structs program !! id = Some d ∧
      Forall2 (λ field f,
        lays (substitute (hf_ty field) (declaration_type_arguments d arguments)) f)
        (hs_fields d) fs ∧ aggregates fs l
  | TEnum id arguments => ∃ d vs, hp_enums program !! id = Some d ∧
      Forall2 (λ variant v, ∃ fs,
        Forall2 (λ t f, lays (substitute t (enum_type_arguments d arguments)) f)
          (hv_payload variant) fs ∧ aggregates fs v) (he_variants d) vs ∧ tagged vs l
  | TOption inner => ∃ v, lays inner v ∧ tagged [scalar 0 1; v] l
  | TResult ok error => ∃ v w, lays ok v ∧ lays error w ∧ tagged [v; w] l
  | TArray element n => ∃ v, lays element v ∧ arranged v n l
  | _ => True
  end.

Section describes.
Context (p : Platform) (target : Target) (program : HProgram).
Context (Hhost : host p = Ok target) (Hprogram : sane_program program = true).
Let ref := uncached true target program.

Lemma lays_from {A} fuel (f : A → Ty) l ls :
  Forall2 (λ a b, ref fuel (f a) tt = Ok (b, tt)) l ls →
  Forall2 (λ a b, lays_out true target program (f a) b) l ls.
Proof. intros H. eapply Forall2_impl; [exact H|]. intros a b Hab. by exists fuel. Qed.

Lemma uncached_describes fuel ty l :
  sane ty = true → ref fuel ty tt = Ok (l, tt) → describes target program ty l.
Proof.
  intros Hty H. split; [by eapply uncached_solid|].
  pose proof (uncached_solid p target program Hhost Hprogram) as Hsolid. fold ref in Hsolid.
  destruct fuel as [|fuel]; [done|]. specialize (Hsolid fuel).
  unfold ref in H. cbn [uncached] in H. fold ref in H.
  destruct ty; try done; cbn [layout_match] in H; inv_sm H; simpl in Hty.
  - apply andb_true_iff in Hty as [Hn Ht]. destruct s. exists x. split; [by exists fuel|].
    apply array_layout_spec; [by apply Z.leb_le|by eapply Hsolid|done].
  - destruct (hp_structs program !! id) as [d|] eqn:Hd; [|done]. injection Hx as <-.
    destruct s0. apply mapS_unit in Hx0. exists d, x0.
    split_and!; [done|by eapply (lays_from fuel)|]. apply aggregate_layout_spec; [|done].
    eapply (solids target program fuel _ _ _ Hsolid); [|exact Hx0].
    intros f Hf. by eapply struct_sane.
  - destruct (hp_enums program !! id) as [d|] eqn:Hd; [|done]. injection Hx as <-.
    destruct s0. apply mapS_unit in Hx0. exists d, x0.
    assert (Hvs : Forall2 (λ variant v, ∃ fs,
      Forall2 (λ t f, ref fuel (substitute t (enum_type_arguments d arguments)) tt = Ok (f, tt))
        (hv_payload variant) fs ∧ Forall solid fs ∧ aggregates fs v) (he_variants d) x0).
    { apply Forall2_same_length_lookup_2; [by eapply Forall2_length|].
      intros i variant v Hi Hv. eapply variant_solid; [done|exact Hsolid|done|done| |].
      - by eapply list_elem_of_lookup_2.
      - by eapply Forall2_lookup_lr in Hx0. }
    split_and!; [done| |apply enum_layout_spec; [|done]].
    + eapply Forall2_impl; [exact Hvs|]. intros variant v (fs & Hfs1 & _ & Hfs2).
      exists fs. split; [|done]. by eapply (lays_from fuel).
    + apply Forall_forall. intros v [i Hi]%list_elem_of_lookup_1.
      by destruct (Forall2_lookup_r _ _ _ _ _ Hvs Hi) as (_ & _ & _ & _ & _ & Hv & _).
  - destruct s. exists x. split; [by exists fuel|]. apply enum_layout_spec; [|done].
    apply Forall_cons_2; [evaluate|]. apply Forall_cons_2; [by eapply Hsolid|foralls].
  - apply andb_true_iff in Hty as [Ht Hu]. destruct s, s0. exists x, x0.
    split; [by exists fuel|]. split; [by exists fuel|]. apply enum_layout_spec; [|done].
    apply Forall_cons_2; [exact (Hsolid _ _ Ht Hx)|].
    apply Forall_cons_2; [exact (Hsolid _ _ Hu Hx0)|foralls].
Qed.
End describes.

(** C30: on a supported host, in a build that checks overflow, and for types
    with the widths of the language and array lengths that are not negative ([sane]), every layout the engine returns describes its
    type: sizes are multiples of power-of-two alignments and fit in
    64 bits; the fields of a struct are aligned, in order, disjoint and inside it with
    minimal padding; the tag of an enum tells its variants apart and does not overlap
    their payloads, which are aligned and fit; array elements are one size apart. *)
Theorem layout_describes p target program e ty fuel l e' :
  host p = Ok target → sane_program program = true → sane ty = true →
  coherent true target program e → eng_active e = [] →
  layout true target program fuel ty e = Ok (l, e') → describes target program ty l.
Proof.
  intros Hhost Hp Hty Hc Ha H.
  destruct (layout_sound true target program fuel ty [] e l e') as [_ [n Hn]]; [by split|done|].
  by eapply uncached_describes, Hn.
Qed.

(** ** A concrete program

    [struct Header { tag: u8, count: u32, next: Option<u64> }] and
    [enum Shape { Empty, Sized(u16, i128) }]. *)

Definition demo_field (name : string) (ty : Ty) : HField :=
  mkHField 0 name ty false false false None None (point 1 1).
Definition demo_header : HStruct :=
  mkHStruct 0 0 "Header" false false
    [demo_field "tag" (TInt false (Some 8)); demo_field "count" (TInt false (Some 32));
     demo_field "next" (TOption (TInt false (Some 64)))] [] (point 1 1) [].
Definition demo_shape : HEnum :=
  mkHEnum 0 1 "Shape"
    [mkHVariant 0 0 "Empty" [] (point 1 1);
     mkHVariant 1 1 "Sized" [TInt false (Some 16); TInt true (Some 128)] (point 1 1)]
    (point 1 1) [].
Definition demo_program : HProgram := mkHProgram [] [demo_header] [demo_shape] [] [] [] ∅ [].
Definition demo_platform : Platform := mkPlatform false true true.
Definition demo_target : Target := mkTarget X86_64 Linux Little 64 8.

Lemma coherent_new checks target program : coherent checks target program engine_new.
Proof. by intros t l. Qed.

Lemma demo_layouts :
  (header ← layout true demo_target demo_program 5 (TStruct 0 []);
   shape ← layout true demo_target demo_program 5 (TArray (TEnum 0 []) 2);
   mret (header, shape)) engine_new
  = Ok (mkLayout 24 8 [0; 4; 8] None 0, mkLayout 96 16 [0; 48] None 0,
        mkEngine
          [(TArray (TEnum 0 []) 2, mkLayout 96 16 [0; 48] None 0);
           (TEnum 0 [], mkLayout 48 16 [] (Some 16) 1);
           (TInt true (Some 128), mkLayout 16 16 [] None 0);
           (TInt false (Some 16), mkLayout 2 2 [] None 0);
           (TStruct 0 [], mkLayout 24 8 [0; 4; 8] None 0);
           (TOption (TInt false (Some 64)), mkLayout 16 8 [] (Some 8) 1);
           (TInt false (Some 64), mkLayout 8 8 [] None 0);
           (TInt false (Some 32), mkLayout 4 4 [] None 0);
           (TInt false (Some 8), mkLayout 1 1 [] None 0)] []).
Proof. vm_compute. reflexivity. Qed.

Lemma layout_cache_transparent_witness :
  coherent true demo_target demo_program engine_new ∧ eng_active engine_new = [] ∧
  (∀ fuel l e', layout true demo_target demo_program fuel (TStruct 0 []) engine_new = Ok (l, e') →
     lays_out true demo_target demo_program (TStruct 0 []) l ∧
     coherent true demo_target demo_program e' ∧ eng_active e' = []).
Proof.
  split; [apply coherent_new|]. split; [reflexivity|].
  apply (layout_cache_transparent true demo_target demo_program engine_new (TStruct 0 [])
    (coherent_new _ _ _) eq_refl).
Defined.

Lemma layout_describes_witness :
  host demo_platform = Ok demo_target ∧ sane_program demo_program = true ∧
  describes demo_target demo_program (TStruct 0 []) (mkLayout 24 8 [0; 4; 8] None 0).
Proof.
  split; [reflexivity|]. split; [vm_compute; reflexivity|].
  destruct (layout true demo_target demo_program 5 (TStruct 0 []) engine_new) as [[l e']| |] eqn:E;
    [|vm_compute in E; discriminate E..].
  assert (Hl : l = mkLayout 24 8 [0; 4; 8] None 0) by (vm_compute in E; congruence).
  rewrite <- Hl.
  refine (layout_describes demo_platform demo_target demo_program engine_new (TStruct 0 []) 5 l e'
    eq_refl _ eq_refl (coherent_new _ _ _) eq_refl E).
  vm_compute. reflexivity.
Defined.

(** In a build without overflow checks the size of a struct wraps around: two arrays of
    [2 ^ 63] bytes, which both have a layout, make a struct of size 0. *)
Fixpoint nested_array (levels : nat) : Ty :=
  match levels with
  | O => TInt false (Some 8)
  | S levels => TArray (nested_array levels) 8
  end.

Definition huge_program : HProgram :=
  mkHProgram [] [mkHStruct 0 0 "Huge" false false
    [demo_field "a" (nested_array 21); demo_field "b" (nested_array 21)] [] (point 1 1) []]
    [] [] [] [] ∅ [].

Example struct_size_wraps :
  ∃ e, layout false demo_target huge_program 30 (TStruct 0 []) engine_new
       = Ok (mkLayout 0 1 [0; 2 ^ 63] None 0, e)
  ∧ layout true demo_target huge_program 30 (TStruct 0 []) engine_new = Panic
  ∧ classify (mkLayout 0 1 [0; 2 ^ 63] None 0) = PIgnore.
Proof. eexists. vm_compute. auto. Qed.
