(* ===== verification/LayoutTotal.v ===== *)
(** * When the layout engine returns

    In a program without generic declarations the engine always returns a layout or an
    error: it can only work on the finitely many types the declarations mention, and never
    on one of them twice.  A generic declaration that contains a larger instance of itself
    defeats the test for recursive types, and the engine recurses for ever. *)

From S2P Require Import Prelude Machine Diagnostics StateM Ast Hir Mir Layout LayoutProps.
From S2P Require Import LayoutCache.
#[local] Open Scope string_scope.
#[local] Open Scope list_scope.
#[local] Open Scope Z_scope.

(** ** Code that does not run for ever *)

Section settles.
Context {S : Type} (I : S → Prop).

(** From a state that satisfies [I], [m] does not diverge, and keeps [I]. *)
Definition settles {A} (m : SM S failure A) : Prop :=
  ∀ e, I e → match m e with
             | Ok (_, e') => I e'
             | Err x => x ≠ Diverges
             | Panic => True
             end.

Lemma settles_ret {A} (a : A) : settles (mret a).
Proof. by intros e He. Qed.
Lemma settles_error {A} message : settles (throw (A:=A) (layout_error message)).
Proof. by intros e He. Qed.
Lemma settles_lift {A} (m : outcome failure A) : m ≠ Err Diverges → settles (lift m).
Proof. intros Hm e He. unfold lift. destruct m; simpl; [done|congruence|done]. Qed.
Lemma settles_bind {A B} (m : SM S failure A) (f : A → SM S failure B) :
  settles m → (∀ a, settles (f a)) → settles (m ≫= f).
Proof.
  intros Hm Hf e He. unfold mbind, SM_bind. specialize (Hm e He).
  destruct (m e) as [[a e']| |]; simpl; [by apply Hf|done..].
Qed.
Lemma settles_lookup {A B} (o : option A) message (f : A → SM S failure B) :
  (∀ a, o = Some a → settles (f a)) → settles (lift (ok_or o (layout_error message)) ≫= f).
Proof. intros Hf e He. destruct o as [a|]; [|done]. by apply (Hf a). Qed.
Lemma settles_mapS {A B} (f : A → SM S failure B) l :
  (∀ a, a ∈ l → settles (f a)) → settles (mapS f l).
Proof.
  induction l as [|a l IH]; intros Hf; simpl; [apply settles_ret|].
  apply settles_bind; [apply Hf; set_solver|]. intros b.
  apply settles_bind; [apply IH; set_solver|]. intros bs. apply settles_ret.
Qed.
End settles.

(** ** The arithmetic never diverges *)

Section arithmetic.
Context (checks : bool).

Lemma align_to_quiet v a : align_to (E:=failure) checks v a ≠ Err Diverges.
Proof. unfold align_to, mul_u64, u64_result. by repeat case_match. Qed.
Lemma add_u64_quiet a b : add_u64 (E:=failure) checks a b ≠ Err Diverges.
Proof. unfold add_u64, u64_result. by repeat case_match. Qed.
Lemma mul_u64_quiet a b : mul_u64 (E:=failure) checks a b ≠ Err Diverges.
Proof. unfold mul_u64, u64_result. by repeat case_match. Qed.

Lemma bind_quiet {A B} (m : outcome failure A) (f : A → outcome failure B) :
  m ≠ Err Diverges → (∀ a, f a ≠ Err Diverges) → m ≫= f ≠ Err Diverges.
Proof. destruct m; simpl; [auto|congruence|done]. Qed.

Lemma for_each_quiet {A T} (body : T → A → outcome failure T) l s :
  (∀ s a, body s a ≠ Err Diverges) → for_each body l s ≠ Err Diverges.
Proof.
  intros Hb. revert s. induction l as [|a l IH]; intros s; simpl; [done|]. by apply bind_quiet.
Qed.

Lemma aggregate_layout_quiet fs : aggregate_layout checks fs ≠ Err Diverges.
Proof.
  apply bind_quiet; [|intros ?; by apply bind_quiet; [apply align_to_quiet|]].
  apply for_each_quiet. intros s f. apply bind_quiet; [apply align_to_quiet|].
  intros ?. by apply bind_quiet; [apply add_u64_quiet|].
Qed.

Lemma enum_layout_quiet vs : enum_layout checks vs ≠ Err Diverges.
Proof.
  apply bind_quiet; [apply align_to_quiet|]. intros ?.
  apply bind_quiet; [apply add_u64_quiet|]. intros ?.
  by apply bind_quiet; [apply align_to_quiet|].
Qed.

Lemma array_layout_quiet element n : array_layout checks element n ≠ Err Diverges.
Proof.
  apply bind_quiet; [by destruct (checked_mul _ _ _)|]. intros ?. apply bind_quiet; [|done].
  generalize 0. induction (Z.to_nat n) as [|k IH]; intros i; simpl; [done|].
  apply bind_quiet; [apply mul_u64_quiet|]. intros ?. by apply bind_quiet.
Qed.
End arithmetic.

(** ** The types a non-generic program can ask for *)

Definition monomorphic (program : HProgram) : Prop :=
  Forall (λ d, hs_generic_parameters d = []) (hp_structs program) ∧
  Forall (λ d, he_generic_parameters d = []) (hp_enums program).

(** The types the engine calls itself on. *)
Definition components (program : HProgram) (ty : Ty) : list Ty :=
  match ty with
  | TUdpDatagram => [TSocketAddress]
  | TArray t _ | TOption t => [t]
  | TResult t u => [t; u]
  | TStruct id _ => from_option (λ d, map hf_ty (hs_fields d)) [] (hp_structs program !! id)
  | TEnum id _ =>
      from_option (λ d, concat (map hv_payload (he_variants d))) [] (hp_enums program !! id)
  | _ => []
  end.

(** A type and the types inside it that are laid out inline. *)
Fixpoint inline (ty : Ty) : list Ty :=
  ty :: match ty with
        | TUdpDatagram => [TSocketAddress]
        | TArray t _ | TOption t => inline t
        | TResult t u => inline t ++ inline u
        | _ => []
        end.

Definition universe (program : HProgram) (ty : Ty) : list Ty :=
  inline ty
  ++ concat (map (λ d, concat (map (λ f, inline (hf_ty f)) (hs_fields d))) (hp_structs program))
  ++ concat (map (λ d, concat (map (λ v, concat (map inline (hv_payload v)))
                            (he_variants d))) (hp_enums program)).

Lemma inline_self ty : ty ∈ inline ty.
Proof. destruct ty; simpl; apply elem_of_cons; by left. Qed.

Lemma elem_of_concat_map {A B} (f : A → list B) l b :
  b ∈ concat (map f l) ↔ ∃ a, a ∈ l ∧ b ∈ f a.
Proof.
  induction l as [|a l IH]; simpl; [set_solver|]. rewrite elem_of_app, IH. set_solver.
Qed.

(** A component is inside the type, or declared as a field. *)
Definition declared (program : HProgram) (u : Ty) : Prop :=
  (∃ d f, d ∈ hp_structs program ∧ f ∈ hs_fields d ∧ u ∈ inline (hf_ty f)) ∨
  (∃ d v t, d ∈ hp_enums program ∧ v ∈ he_variants d ∧ t ∈ hv_payload v ∧ u ∈ inline t).

Lemma elem_of_universe program ty u :
  u ∈ universe program ty ↔ u ∈ inline ty ∨ declared program u.
Proof.
  unfold universe, declared. rewrite !elem_of_app, !elem_of_concat_map.
  setoid_rewrite elem_of_concat_map. setoid_rewrite elem_of_concat_map. naive_solver.
Qed.

Lemma inline_trans ty t u : t ∈ inline ty → u ∈ inline t → u ∈ inline ty.
Proof.
  induction ty; intros [->|Ht]%elem_of_cons Hu; try done;
    try (by apply not_elem_of_nil in Ht); apply elem_of_cons; right.
  - apply list_elem_of_singleton in Ht as ->. done.
  - auto.
  - auto.
  - rewrite elem_of_app in Ht |- *. destruct Ht; auto.
Qed.

Lemma declared_components program t u : u ∈ components program t →
  declared program u ∨ u ∈ inline t.
Proof.
  destruct t; cbn [components]; try (by intros ?%not_elem_of_nil).
  - intros Hu. right. apply elem_of_cons. by right.
  - intros ->%list_elem_of_singleton. right. apply elem_of_cons. right. apply inline_self.
  - destruct (hp_structs program !! id) as [d|] eqn:Hd; [|by intros ?%not_elem_of_nil].
    intros (f & -> & Hf)%list_elem_of_fmap. left. left. exists d, f.
    split_and!; [by eapply list_elem_of_lookup_2|done|apply inline_self].
  - destruct (hp_enums program !! id) as [d|] eqn:Hd; [|by intros ?%not_elem_of_nil].
    intros (v & Hv & Hu)%elem_of_concat_map. left. right. exists d, v, u.
    split_and!; [by eapply list_elem_of_lookup_2|done|done|apply inline_self].
  - intros ->%list_elem_of_singleton. right. apply elem_of_cons. right. apply inline_self.
  - rewrite !elem_of_cons. intros [->|[->|?%not_elem_of_nil]]; [| |done]; right; simpl;
      rewrite elem_of_cons, elem_of_app; auto using inline_self.
Qed.

Lemma universe_closed program ty t u :
  t ∈ universe program ty → u ∈ components program t → u ∈ universe program ty.
Proof.
  rewrite !elem_of_universe. intros Ht [Hu|Hu]%declared_components; [by right|].
  destruct Ht as [Ht|[(d & f & Hd & Hf & Ht)|(d & v & w & Hd & Hv & Hw & Ht)]].
  - left. by eapply inline_trans.
  - right. left. exists d, f. split_and!; [done..|]. by eapply inline_trans.
  - right. right. exists d, v, w. split_and!; [done..|]. by eapply inline_trans.
Qed.

(** ** The engine returns *)

Lemma substitute_empty ty : substitute ty ∅ = ty.
Proof.
  revert ty. assert (Hmap : ∀ ts, Forall (λ t, substitute t ∅ = t) ts →
    map (λ x, substitute x ∅) ts = ts).
  { induction 1; simpl; congruence. }
  apply (Ty_nested_ind (λ ty, substitute ty ∅ = ty));
    [|intros c t Hc IH|intros t n IH|intros c b t Hc IH|intros c t u Hc IHt IHu
     |intros c n ts Hc IH|intros c ts t Hc IHs IH];
    try (rewrite !elem_of_cons, elem_of_nil in Hc; destruct_or! Hc; subst; simpl;
         try done; congruence || (rewrite Hmap by done; congruence)).
  - by intros [].
  - simpl. congruence.
Qed.

Section total.
Context (checks : bool) (target : Target) (program : HProgram).
Context (Hmono : monomorphic program).

Lemma struct_component id d args f : hp_structs program !! id = Some d → f ∈ hs_fields d →
  substitute (hf_ty f) (declaration_type_arguments d args) ∈ components program (TStruct id args).
Proof.
  intros Hd Hf. destruct Hmono as [Hs _]. rewrite Forall_forall in Hs.
  unfold declaration_type_arguments, type_arguments_of.
  rewrite (Hs d) by (by eapply list_elem_of_lookup_2). simpl. rewrite substitute_empty, Hd.
  simpl. by apply (list_elem_of_fmap_2 hf_ty).
Qed.

Lemma enum_component id d args v t : hp_enums program !! id = Some d → v ∈ he_variants d →
  t ∈ hv_payload v →
  substitute t (enum_type_arguments d args) ∈ components program (TEnum id args).
Proof.
  intros Hd Hv Ht. destruct Hmono as [_ Hs]. rewrite Forall_forall in Hs.
  unfold enum_type_arguments, type_arguments_of.
  rewrite (Hs d) by (by eapply list_elem_of_lookup_2). simpl. rewrite substitute_empty, Hd.
  simpl. apply elem_of_concat_map. eauto.
Qed.

Lemma layout_match_settles {S} (I : S → Prop) self ty :
  (∀ t, t ∈ components program ty → settles I (self t)) →
  settles I (layout_match checks target program self ty).
Proof.
  intros Hself. destruct ty; cbn [layout_match]; try case_bool_decide;
    try solve [ apply settles_ret | apply settles_error
              | apply settles_lift; apply aggregate_layout_quiet ].
  - apply settles_bind; [apply Hself; simpl; set_solver|]. intros ?.
    apply settles_lift, aggregate_layout_quiet.
  - apply settles_bind; [apply Hself; simpl; set_solver|]. intros ?.
    apply settles_lift, array_layout_quiet.
  - apply settles_lookup. intros d Hd. apply settles_bind.
    + apply settles_mapS. intros f Hf. by apply Hself, struct_component.
    + intros ?. apply settles_lift, aggregate_layout_quiet.
  - apply settles_lookup. intros d Hd. apply settles_bind.
    + apply settles_mapS. intros v Hv. apply settles_bind.
      * apply settles_mapS. intros t Ht. by eapply Hself, enum_component.
      * intros ?. apply settles_lift, aggregate_layout_quiet.
    + intros ?. apply settles_lift, enum_layout_quiet.
  - apply settles_bind; [apply Hself; simpl; set_solver|]. intros ?.
    apply settles_lift, enum_layout_quiet.
  - do 2 (apply settles_bind; [apply Hself; simpl; set_solver|]; intros ?).
    apply settles_lift, enum_layout_quiet.
Qed.

Lemma layout_settles root fuel ty active : ty ∈ universe program root →
  NoDup active → active ⊆ universe program root →
  (length (universe program root) < fuel + length active)%nat →
  settles (λ e, eng_active e = active) (layout checks target program fuel ty).
Proof.
  revert ty active. induction fuel as [|fuel IH]; intros ty active Hty Hnd Hsub Hf e He.
  { pose proof (submseteq_length _ _ (NoDup_submseteq _ _ Hnd Hsub)). lia. }
  cbn [layout]. erewrite SM_bind_run by done.
  destruct (cache_get ty (eng_cache e)) as [l|]; [done|]. erewrite SM_bind_run by done.
  rewrite He. case_bool_decide as Hin; [done|]. erewrite SM_bind_run by done.
  unfold mbind at 1, SM_bind at 1.
  pose proof (layout_match_settles (λ e, eng_active e = ty :: active)
    (layout checks target program fuel) ty) as Hm.
  specialize (Hm ltac:(intros t Ht; apply IH;
    [by eapply universe_closed|by constructor|set_solver|simpl; lia]) (activate ty e)).
  destruct (layout_match _ _ _ _ ty (activate ty e)) as [[l e1]| |];
    [|apply Hm; simpl; congruence|done].
  simpl. rewrite Hm by (simpl; congruence).
  rewrite filter_cons_False by naive_solver. by apply filter_ne.
Qed.
End total.

(** C31: in a program whose declarations are not generic, the engine returns on every type:
    a layout, an error, or the panic of an overflow check, within as many nested calls as
    there are types to ask for; a type that contains itself by value is an error. *)
Theorem layout_terminates checks target program ty e :
  monomorphic program → eng_active e = [] →
  layout checks target program (S (length (universe program ty))) ty e ≠ Err Diverges.
Proof.
  intros Hmono He.
  pose proof (layout_settles checks target program Hmono ty (S (length (universe program ty)))
    ty []) as H.
  specialize (H ltac:(apply elem_of_universe; left; apply inline_self) (NoDup_nil_2)
    ltac:(set_solver) ltac:(simpl; lia) e He).
  destruct (layout _ _ _ _ _ _); naive_solver.
Qed.

(** [struct List { rest: Option<List> }]: a type inside itself. *)
Definition knot_program : HProgram :=
  mkHProgram [] [mkHStruct 0 0 "List" false false
    [demo_field "rest" (TOption (TStruct 0 []))] [] (point 1 1) []] [] [] [] [] ∅ [].

Lemma layout_terminates_witness :
  monomorphic knot_program ∧ eng_active engine_new = [] ∧
  layout true demo_target knot_program (S (length (universe knot_program (TStruct 0 []))))
    (TStruct 0 []) engine_new ≠ Err Diverges ∧
  layout true demo_target knot_program (S (length (universe knot_program (TStruct 0 []))))
    (TStruct 0 []) engine_new
  = Err (layout_error "recursive by-value type has infinite native layout").
Proof.
  split; [split; repeat constructor|]. split; [reflexivity|]. split; [|vm_compute; reflexivity].
  apply (layout_terminates true demo_target knot_program (TStruct 0 []) engine_new);
    [split; repeat constructor|reflexivity].
Defined.

(** ** A generic type without end

    [struct Grow<T> { next: Grow<Option<T>> }] contains itself by value, but never the same
    instance twice: no bound on the nesting is enough for the engine to report it. *)

Definition grow_program : HProgram :=
  mkHProgram [] [mkHStruct 0 0 "Grow" false false
    [demo_field "next" (TStruct 0 [TOption (TGeneric "T")])] [] (point 1 1) ["T"]]
    [] [] [] [] ∅ [].

Fixpoint options (k : nat) : Ty :=
  match k with O => TBool | S k => TOption (options k) end.

Lemma options_inj j k : options j = options k → j = k.
Proof.
  revert k. induction j as [|j IH]; intros [|k]; simpl; try done. intros [= H]. f_equal. auto.
Qed.

Lemma SM_bind_err {S E A B} (m : SM S E A) (f : A → SM S E B) s x :
  m s = Err x → (m ≫= f) s = Err x.
Proof. unfold mbind, SM_bind. by intros ->. Qed.

Lemma grow_diverges fuel k cache active :
  (∀ t, cache_get t cache = None) → (∀ t, t ∈ active → ∃ j, (j < k)%nat ∧ t = TStruct 0 [options j]) →
  layout true demo_target grow_program fuel (TStruct 0 [options k]) (mkEngine cache active)
  = Err Diverges.
Proof.
  revert k active. induction fuel as [|fuel IH]; intros k active Hc Ha; [done|].
  cbn [layout]. erewrite SM_bind_run by done. simpl. rewrite Hc.
  erewrite SM_bind_run by done. simpl. rewrite bool_decide_false.
  2:{ intros (j & Hj & [= H%options_inj])%Ha. lia. }
  erewrite SM_bind_run by done. apply SM_bind_err. cbn [layout_match].
  erewrite SM_bind_run by done. do 2 apply SM_bind_err. apply (IH (S k)); [done|].
  intros t [->|(j & Hj & ->)%Ha]%elem_of_cons; [exists k|exists j]; split; auto with lia.
Qed.

(** However deep the engine may nest its calls, it needs more. *)
Lemma grow_never_returns fuel :
  layout true demo_target grow_program fuel (TStruct 0 [TBool]) engine_new = Err Diverges.
Proof. apply (grow_diverges fuel 0); [done|]. by intros t ?%not_elem_of_nil. Qed.
