(* ===== verification/Mono.v ===== *)
(** * Monomorphization ([compiler/src/backend/mono.rs]) and the native calling convention
      of its instances ([compiler/src/backend/abi.rs])

    The function instances and types a native program needs, found from [main] and the
    exported functions, and the symbols of the instances.  Errors are [Fails]; [Diverges]
    is a traversal that ran out of fuel: the worklist of instances has its own bound,
    [collect_type] follows types without one and takes its fuel as an argument. *)

From S2P Require Import Prelude Machine Utf8 Diagnostics StateM Limits Ast Hir Mir Layout.
#[local] Open Scope string_scope.
#[local] Open Scope list_scope.
#[local] Open Scope Z_scope.

(** ** The derived order of types *)

Definition then_with (c d : comparison) : comparison := match c with Eq => d | _ => c end.

Fixpoint list_compare {A} (cmp : A → A → comparison) (l k : list A) : comparison :=
  match l, k with
  | [], [] => Eq
  | [], _ :: _ => Lt
  | _ :: _, [] => Gt
  | x :: l, y :: k => then_with (cmp x y) (list_compare cmp l k)
  end.

Definition bool_compare (a b : bool) : comparison :=
  match a, b with false, true => Lt | true, false => Gt | _, _ => Eq end.

Definition option_compare {A} (cmp : A → A → comparison) (a b : option A) : comparison :=
  match a, b with
  | None, None => Eq
  | None, Some _ => Lt
  | Some _, None => Gt
  | Some x, Some y => cmp x y
  end.

(** The position of a constructor in the declaration of the enum. *)
Definition ty_tag (ty : Ty) : nat :=
  match ty with
  | TUnit => 0 | TBool => 1 | TChar => 2 | TString => 3 | TStr => 4 | TCString => 5
  | TCStr => 6 | TMemory => 7 | TSecretBytes => 8 | TAeadEnvelope => 9
  | TEd25519SigningKey => 10 | TPath => 11 | TUrl => 12 | TJson => 13 | TIpAddress => 14
  | TSocketAddress => 15 | TTcpStream => 16 | TTlsStream => 17 | THttpRequest => 18
  | THttpResponse => 19 | TTcpListener => 20 | TUdpSocket => 21 | TUdpDatagram => 22
  | TInstant => 23 | TDuration => 24 | TProcessCommand => 25 | TChildProcess => 26
  | TProcessOutput => 27 | TDatabase => 28 | TDataStore => 29 | TArray _ _ => 30
  | TSlice _ => 31 | TList _ => 32 | TMap _ _ => 33 | TSet _ => 34 | TThread _ => 35
  | TFuture _ => 36 | TTask _ => 37 | TMutex _ => 38 | TMutexGuard _ => 39 | TChannel _ => 40
  | TAtomicInt => 41 | TInt _ _ => 42 | TFloat _ => 43 | TReference _ _ => 44
  | TRawPointer _ _ => 45 | TMemoryPointer _ _ => 46 | TStruct _ _ => 47 | TEnum _ _ => 48
  | TOption _ => 49 | TResult _ _ => 50 | TGeneric _ => 51 | TFunction _ _ => 52
  | TCFunction _ _ => 53 | TCRegistration => 54 | TUnknown => 55
  end%nat.

Fixpoint ty_compare (a b : Ty) : comparison :=
  match a, b with
  | TArray x n, TArray y m => then_with (ty_compare x y) (Z.compare n m)
  | TSlice x, TSlice y | TList x, TList y | TSet x, TSet y | TThread x, TThread y
  | TFuture x, TFuture y | TTask x, TTask y | TMutex x, TMutex y
  | TMutexGuard x, TMutexGuard y | TChannel x, TChannel y | TOption x, TOption y =>
      ty_compare x y
  | TMap x u, TMap y v | TResult x u, TResult y v => then_with (ty_compare x y) (ty_compare u v)
  | TInt s w, TInt t v => then_with (bool_compare s t) (option_compare Z.compare w v)
  | TFloat w, TFloat v => Z.compare w v
  | TReference m x, TReference n y | TRawPointer m x, TRawPointer n y
  | TMemoryPointer m x, TMemoryPointer n y => then_with (bool_compare m n) (ty_compare x y)
  | TStruct i xs, TStruct j ys | TEnum i xs, TEnum j ys =>
      then_with (Nat.compare i j) (list_compare ty_compare xs ys)
  | TGeneric x, TGeneric y => String.compare x y
  | TFunction xs x, TFunction ys y | TCFunction xs x, TCFunction ys y =>
      then_with (list_compare ty_compare xs ys) (ty_compare x y)
  | _, _ => Nat.compare (ty_tag a) (ty_tag b)
  end.

(** ** Ordered sets: [BTreeSet] *)

Fixpoint set_insert {A} (cmp : A → A → comparison) (x : A) (l : list A) : list A :=
  match l with
  | [] => [x]
  | y :: l' =>
    match cmp x y with
    | Lt => x :: l
    | Eq => l
    | Gt => y :: set_insert cmp x l'
    end
  end.

Definition set_contains {A} (cmp : A → A → comparison) (x : A) (l : list A) : bool :=
  existsb (λ y, match cmp x y with Eq => true | _ => false end) l.

(** ** Instances *)

Record FunctionInstance := mkFunctionInstance {
  fi_function : FunctionId;
  fi_substitutions : list Ty }.
#[export] Instance FunctionInstance_eq_dec : EqDecision FunctionInstance.
Proof. solve_decision. Defined.

Record TypeInstance := mkTypeInstance { ti_ty : Ty }.
#[export] Instance TypeInstance_eq_dec : EqDecision TypeInstance.
Proof. solve_decision. Defined.

Definition instance_compare (a b : FunctionInstance) : comparison :=
  then_with (Nat.compare (fi_function a) (fi_function b))
    (list_compare ty_compare (fi_substitutions a) (fi_substitutions b)).
Definition type_instance_compare (a b : TypeInstance) : comparison :=
  ty_compare (ti_ty a) (ti_ty b).

Record MonoProgram := mkMonoProgram {
  mono_instances : list FunctionInstance;
  mono_types : list TypeInstance;
  mono_entry : FunctionInstance }.

Definition mono_error (message : string) : failure :=
  Fails (new_diagnostic Backend message (point 1 1)).

Definition mapping (function : MFunction) (instance : FunctionInstance) : gmap string Ty :=
  type_arguments_of (mf_generic_parameters function) (fi_substitutions instance).

(** ** Types of places and operands *)

Definition project_type (program : MProgram) (projection : MProjection) (ty : Ty) : option Ty :=
  match projection, ty with
  | MSafeDereference, TReference _ inner => Some inner
  | MSafeDereference, TMutexGuard inner => Some inner
  | MRawDereference, TRawPointer _ inner => Some inner
  | MRawDereference, TMemoryPointer _ inner => Some inner
  | MField index, TStruct id arguments =>
      declaration ← mp_structs program !! id;
      let substitutions := type_arguments_of (hs_generic_parameters declaration) arguments in
      field ← hs_fields declaration !! index;
      Some (substitute (hf_ty field) substitutions)
  | MVariantField variant index, TEnum id arguments =>
      declaration ← mp_enums program !! id;
      let substitutions := type_arguments_of (he_generic_parameters declaration) arguments in
      variant ← List.find (λ candidate, hv_id candidate =? variant) (he_variants declaration);
      payload ← hv_payload variant !! index;
      Some (substitute payload substitutions)
  | MVariantField variant O, TOption inner =>
      if variant =? builtin_variant "Some" then Some inner else None
  | MVariantField variant O, TResult ok error =>
      if variant =? builtin_variant "Ok" then Some ok
      else if variant =? builtin_variant "Err" then Some error
      else None
  | MIndex _ _, TArray element _ => Some element
  | MIndex _ _, (TSlice element | TList element | TSet element) => Some element
  | MSubslice _ _ _, TArray element _ => Some (TSlice element)
  | MSubslice _ _ _, (TSlice element | TList element) => Some (TSlice element)
  | MSubslice _ _ _, (TString | TStr) => Some TStr
  | _, _ => None
  end.

Definition projected_place_type (program : MProgram) (function : MFunction) (place : MPlace)
    : option Ty :=
  local ← mf_locals function !! place_local place;
  foldl (λ ty projection, ty ← ty; project_type program projection ty)
    (Some (ml_ty local)) (place_projections place).

Definition operand_type (program : MProgram) (function : MFunction) (operand : Operand)
    : option Ty :=
  match operand with
  | OMove place | OCopy place => projected_place_type program function place
  | OConstant constant =>
    Some match constant with
    | MSigned _ width => TInt true width
    | MUnsigned _ width => TInt false width
    | MFloat _ width => TFloat width
    | MBool _ => TBool
    | MChar _ => TChar
    | MString _ => TString
    | MUnit => TUnit
    end
  end.

(** ** Matching a generic type against a concrete one *)

(** [xs.iter().zip(ys).all(|(x, y)| match_type(x, y, inferred))]. *)
Fixpoint match_all (go : Ty → Ty → gmap string Ty → bool * gmap string Ty)
    (xs ys : list Ty) (inferred : gmap string Ty) : bool * gmap string Ty :=
  match xs, ys with
  | x :: xs, y :: ys =>
    let '(matched, inferred) := go x y inferred in
    if matched then match_all go xs ys inferred else (false, inferred)
  | _, _ => (true, inferred)
  end.

Fixpoint match_type (pattern concrete : Ty) (inferred : gmap string Ty)
    : bool * gmap string Ty :=
  let equal := (bool_decide (pattern = concrete), inferred) in
  match pattern, concrete with
  | TGeneric name, _ =>
    match inferred !! name with
    | Some previous =>
      if bool_decide (previous = concrete) then (true, <[name := concrete]> inferred)
      else (false, inferred)
    | None => (true, <[name := concrete]> inferred)
    end
  | TStruct a xs, TStruct b ys | TEnum a xs, TEnum b ys =>
    if (a =? b)%nat && (length xs =? length ys)%nat then match_all match_type xs ys inferred
    else (false, inferred)
  | TOption x, TOption y => match_type x y inferred
  | TReference a x, TReference b y =>
    if negb a || b then match_type x y inferred else equal
  | TRawPointer a x, TRawPointer b y | TMemoryPointer a x, TMemoryPointer b y =>
    if Bool.eqb a b then match_type x y inferred else equal
  | TArray x a, TArray y b => if a =? b then match_type x y inferred else equal
  | TSlice x, TSlice y | TList x, TList y | TSet x, TSet y | TThread x, TThread y
  | TFuture x, TFuture y | TTask x, TTask y | TMutex x, TMutex y
  | TMutexGuard x, TMutexGuard y | TChannel x, TChannel y => match_type x y inferred
  | TMap ak av, TMap bk bv | TResult ak av, TResult bk bv =>
    let '(matched, inferred) := match_type ak bk inferred in
    if matched then match_type av bv inferred else (false, inferred)
  | TCFunction parameters result, TCFunction actual_parameters actual_result =>
    if (length parameters =? length actual_parameters)%nat then
      let '(matched, inferred) := match_all match_type parameters actual_parameters inferred in
      if matched then match_type result actual_result inferred else (false, inferred)
    else equal
  | _, _ => equal
  end.

(** ** The instance a call goes to *)

Definition is_generic (ty : Ty) : bool := match ty with TGeneric _ => true | _ => false end.

(** Bind the parameters whose substitution is already concrete. *)
Definition supplied_bindings (names : list string) (supplied : list Ty) : gmap string Ty :=
  foldl (λ inferred row, if is_generic row.2 then inferred else <[row.1 := row.2]> inferred)
    ∅ (zip names supplied).

Definition infer_argument (program : MProgram) (caller : MFunction)
    (caller_map : gmap string Ty) (inferred : gmap string Ty) (row : MLocal * Operand)
    : outcome failure (gmap string Ty) :=
  match operand_type program caller row.2 with
  | Some actual =>
    let '(matched, inferred) :=
      match_type (ml_ty row.1) (substitute actual caller_map) inferred in
    if matched then Ok inferred
    else Err (mono_error "call arguments do not match during monomorphization")
  | None => Ok inferred
  end.

(** [names.iter().map(|name| inferred.get(name).cloned().ok_or_else(..)).collect()]. *)
Fixpoint lookup_all (message : string) (names : list string) (inferred : gmap string Ty)
    : outcome failure (list Ty) :=
  match names with
  | [] => Ok []
  | name :: names =>
    ty ← ok_or (inferred !! name) (mono_error message);
    tys ← lookup_all message names inferred;
    Ok (ty :: tys)
  end.

Definition is_argument (local : MLocal) : bool := bool_decide (ml_kind local = LArgument).

(** The loop over the implementations of a trait. *)
Fixpoint find_implementation (trait_id : TraitId) (method : nat) (receiver : Ty)
    (implementations : list HImplementation) : outcome failure (option FunctionInstance) :=
  match implementations with
  | [] => Err (mono_error "no concrete trait implementation during monomorphization")
  | implementation :: implementations =>
    if bool_decide (hi_trait_id implementation = Some trait_id) then
      let '(matched, inferred) := match_type (hi_target implementation) receiver ∅ in
      if matched then
        target ← ok_or (hi_methods implementation !! method)
                   (mono_error "trait implementation is missing resolved method");
        substitutions ←
          lookup_all "generic trait implementation did not infer all parameters"
            (hi_generic_parameters implementation) inferred;
        Ok (Some (mkFunctionInstance target substitutions))
      else find_implementation trait_id method receiver implementations
    else find_implementation trait_id method receiver implementations
  end.

Definition resolve_target (program : MProgram) (caller : MFunction)
    (instance : FunctionInstance) (target : CallTarget) (substitutions : list Ty)
    (arguments : list Operand) : outcome failure (option FunctionInstance) :=
  let caller_map := mapping caller instance in
  match target with
  | CTIntrinsic _ | CTData _ | CTCallable | CTForeignCallable => Ok None
  | CTFunction function =>
    callee ← ok_or (mp_functions program !! function)
               (mono_error "call targets an invalid function");
    let supplied := map (λ ty, substitute ty caller_map) substitutions in
    if forallb (λ ty, negb (is_generic ty)) supplied
    then Ok (Some (mkFunctionInstance function supplied))
    else
      inferred ←
        for_each (infer_argument program caller caller_map)
          (zip (List.filter is_argument (mf_locals callee)) arguments)
          (supplied_bindings (mf_generic_parameters callee) supplied);
      substitutions ←
        lookup_all "generic call did not infer all type parameters"
          (mf_generic_parameters callee) inferred;
      Ok (Some (mkFunctionInstance function substitutions))
  | CTTraitMethod trait_id method =>
    receiver ← ok_or (head arguments) (mono_error "trait call has no receiver");
    receiver_ty ←
      ok_or ((λ ty, substitute ty caller_map) <$> operand_type program caller receiver)
        (mono_error "trait receiver has no concrete type");
    let receiver_ty := match receiver_ty with TReference _ inner => inner | other => other end in
    find_implementation trait_id method receiver_ty (mp_implementations program)
  end.

(** ** The worklist of function instances *)

(** What a statement adds to the queue. *)
Definition statement_references (program : MProgram) (instance : FunctionInstance)
    (queue : list FunctionInstance) (statement : MStatement)
    : outcome failure (list FunctionInstance) :=
  match ms_kind statement with
  | MAssign _ (RvFunction target) =>
    target ← ok_or (mp_functions program !! target)
               (mono_error "function value references an invalid function identity");
    if bool_decide (mf_generic_parameters target = [])
    then Ok (queue ++ [mkFunctionInstance (mf_id target) []])
    else Err (mono_error "generic function value reached monomorphization without substitutions")
  | MAssign _ (RvClosure target _) =>
    target ← ok_or (mp_functions program !! target)
               (mono_error "closure references an invalid function identity");
    Ok (queue ++ [mkFunctionInstance (mf_id target) (fi_substitutions instance)])
  | _ => Ok queue
  end.

Definition terminator_references (program : MProgram) (function : MFunction)
    (instance : FunctionInstance) (terminator : Terminator)
    : outcome failure (list FunctionInstance) :=
  match terminator with
  | TCall target arguments _ _ _ substitutions _ =>
    next ← resolve_target program function instance target substitutions arguments;
    Ok (option_list next)
  | TSpawn target arguments _ _ substitutions _ =>
    next ← resolve_target program function instance (CTFunction target) substitutions arguments;
    Ok (option_list next)
  | _ => Ok []
  end.

Definition block_references (program : MProgram) (function : MFunction)
    (instance : FunctionInstance) (queue : list FunctionInstance) (block : BasicBlock)
    : outcome failure (list FunctionInstance) :=
  queue ← for_each (statement_references program instance) (bb_statements block) queue;
  next ← terminator_references program function instance (bb_terminator block);
  Ok (queue ++ next).

Definition arity_error (function : MFunction) : failure :=
  mono_error ("function `" +:+ mf_name function +:+ "` has unresolved generic substitutions").
Definition instance_limit_error : failure :=
  mono_error ("monomorphization exceeded " +:+ display_Z MAX_MONOMORPHIZATIONS
              +:+ " function instances").

(** One step for an instance that was not seen before: the queue it leaves. *)
Definition expand_instance (program : MProgram) (instance : FunctionInstance)
    (queue : list FunctionInstance) : outcome failure (list FunctionInstance) :=
  function ← ok_or (mp_functions program !! fi_function instance)
               (mono_error "monomorphization found an invalid function id");
  if (length (mf_generic_parameters function) =? length (fi_substitutions instance))%nat
  then for_each (block_references program function instance) (mf_blocks function) queue
  else Err (arity_error function).

Fixpoint collect_loop (fuel : nat) (program : MProgram) (queue seen : list FunctionInstance)
    : outcome failure (list FunctionInstance) :=
  match fuel with
  | O => Err Diverges
  | S fuel =>
    match queue with
    | [] => Ok seen
    | instance :: queue =>
      if set_contains instance_compare instance seen then collect_loop fuel program queue seen
      else
        let seen := set_insert instance_compare instance seen in
        if MAX_MONOMORPHIZATIONS <? zlen seen then Err instance_limit_error
        else
          queue ← expand_instance program instance queue;
          collect_loop fuel program queue seen
    end
  end.

(** An instance of a function pushes at most one instance per statement and one per
    terminator. *)
Definition body_weight (function : MFunction) : nat :=
  sum_list_with (λ block, S (length (bb_statements block))) (mf_blocks function).
Definition max_weight (program : MProgram) : nat :=
  max_list_with body_weight (mp_functions program).

Definition initial_queue (program : MProgram) (entry : FunctionInstance)
    : list FunctionInstance :=
  entry :: map (λ function, mkFunctionInstance (mf_id function) [])
             (List.filter mf_exported (mp_functions program)).

Definition collect_entry (program : MProgram) : outcome failure FunctionInstance :=
  main ← ok_or (List.find (λ function, String.eqb (mf_name function) "main")
                  (mp_functions program))
           (mono_error "native program has no main function");
  Ok (mkFunctionInstance (mf_id main) []).

Definition collect_instances (program : MProgram) (entry : FunctionInstance)
    : outcome failure (list FunctionInstance) :=
  let queue := initial_queue program entry in
  collect_loop
    (2 + length queue + Z.to_nat (MAX_MONOMORPHIZATIONS + 1) * max_weight program)
    program queue [].

(** ** The types the instances use *)

Section types.
Context (program : MProgram).

Definition mono_generic_names : gset string :=
  list_to_set (concat (map mf_generic_parameters (mp_functions program))
    ++ concat (map hs_generic_parameters (mp_structs program))
    ++ concat (map he_generic_parameters (mp_enums program))).

Abbreviation Types := (list TypeInstance).

(** Insert [ty], and continue with [more] unless it was there. *)
Definition record_type (ty : Ty) (more : Types → outcome failure Types) (types : Types)
    : outcome failure Types :=
  if set_contains type_instance_compare (mkTypeInstance ty) types then Ok types
  else more (set_insert type_instance_compare (mkTypeInstance ty) types).

Fixpoint collect_type (fuel : nat) (types : Types) (ty : Ty) : outcome failure Types :=
  match fuel with
  | O => Err Diverges
  | S fuel =>
    match ty with
    | TStruct id arguments =>
      record_type ty (λ types,
        declaration ← ok_or (mp_structs program !! id)
                        (mono_error "monomorphization found an invalid struct id");
        let substitutions := type_arguments_of (hs_generic_parameters declaration) arguments in
        for_each (λ types field, collect_type fuel types (substitute (hf_ty field) substitutions))
          (hs_fields declaration) types) types
    | TEnum id arguments =>
      record_type ty (λ types,
        declaration ← ok_or (mp_enums program !! id)
                        (mono_error "monomorphization found an invalid enum id");
        let substitutions := type_arguments_of (he_generic_parameters declaration) arguments in
        for_each (λ types variant,
            for_each (λ types payload, collect_type fuel types (substitute payload substitutions))
              (hv_payload variant) types)
          (he_variants declaration) types) types
    | TOption inner => record_type ty (λ types, collect_type fuel types inner) types
    | TResult ok error_ty =>
      record_type ty (λ types,
        types ← collect_type fuel types ok; collect_type fuel types error_ty) types
    | TArray element _ => record_type ty (λ types, collect_type fuel types element) types
    | TSlice element => record_type ty (λ types, collect_type fuel types element) types
    | TList element => record_type ty (λ types, collect_type fuel types element) types
    | TMap key value =>
      record_type ty (λ types,
        types ← collect_type fuel types key; collect_type fuel types value) types
    | TSet element => record_type ty (λ types, collect_type fuel types element) types
    | TThread result => collect_type fuel types result
    | TFuture result => collect_type fuel types result
    | TIpAddress | TSocketAddress | TTcpStream | TTlsStream | TTcpListener | TUdpSocket
    | TUdpDatagram => Ok types
    | TTask result => collect_type fuel types result
    | TMutex value | TMutexGuard value | TChannel value => collect_type fuel types value
    | TReference _ inner | TRawPointer _ inner | TMemoryPointer _ inner =>
      collect_type fuel types inner
    | TFunction arguments result =>
      types ← for_each (collect_type fuel) arguments types; collect_type fuel types result
    | TCFunction arguments result =>
      types ← for_each (collect_type fuel) arguments types; collect_type fuel types result
    | TGeneric name =>
      if bool_decide (name ∈ mono_generic_names)
      then Err (mono_error ("unresolved generic `" +:+ name
                            +:+ "` reached native type monomorphization"))
      else Ok types
    | TUnknown => Err (mono_error "unknown type reached native type monomorphization")
    | _ => Ok types
    end
  end.

Context (fuel : nat) (function : MFunction) (substitutions : gmap string Ty).

Definition collect_place_type (types : Types) (place : MPlace) : outcome failure Types :=
  ty ← ok_or (projected_place_type program function place)
         (mono_error "MIR place has no type during monomorphization");
  collect_type fuel types (substitute ty substitutions).

Definition collect_operand_type (types : Types) (operand : Operand) : outcome failure Types :=
  match operand with
  | OMove place | OCopy place => collect_place_type types place
  | OConstant _ => Ok types
  end.

Definition collect_rvalue_types (types : Types) (rvalue : Rvalue) : outcome failure Types :=
  types ←
    match rvalue with
    | RvUse value | RvUnaryOp _ value | RvCast value _ => collect_operand_type types value
    | RvBinaryOp _ first second =>
      types ← collect_operand_type types first; collect_operand_type types second
    | RvClosure _ captures | RvAggregate _ captures =>
      for_each collect_operand_type captures types
    | RvBorrowShared place | RvBorrowMut place | RvRawAddress _ place | RvDiscriminant place
    | RvLen place => collect_place_type types place
    | RvFunction _ => Ok types
    end;
  match rvalue with
  | RvCast _ target => collect_type fuel types (substitute target substitutions)
  | _ => Ok types
  end.

Definition collect_statement_types (types : Types) (statement : MStatement)
    : outcome failure Types :=
  match ms_kind statement with
  | MAssign place rvalue =>
    types ← collect_place_type types place; collect_rvalue_types types rvalue
  | MDrop place _ => collect_place_type types place
  | _ => Ok types
  end.

Definition collect_terminator_types (types : Types) (terminator : Terminator)
    : outcome failure Types :=
  match terminator with
  | SwitchBool condition _ _ | SwitchValue condition _ _ | SwitchEnum condition _ _ =>
    collect_operand_type types condition
  | TCall target arguments destination _ _ _ _ =>
    types ← for_each collect_operand_type arguments types;
    types ← collect_place_type types destination;
    match target with
    | CTData plan =>
      plan ← ok_or (mp_data_plans program !! plan)
               (mono_error "monomorphization found an invalid DISP Data plan");
      collect_type fuel types (TStruct (plan_schema plan) [])
    | _ => Ok types
    end
  | TSpawn _ arguments destination _ _ _ =>
    types ← for_each collect_operand_type arguments types;
    collect_place_type types destination
  | TAwait future destination _ _ =>
    types ← collect_operand_type types future;
    collect_place_type types destination
  | _ => Ok types
  end.

Definition collect_block_types (types : Types) (block : BasicBlock) : outcome failure Types :=
  types ← for_each collect_statement_types (bb_statements block) types;
  collect_terminator_types types (bb_terminator block).

Definition collect_function_types (types : Types) : outcome failure Types :=
  types ← for_each (λ types local, collect_type fuel types (substitute (ml_ty local) substitutions))
            (mf_locals function) types;
  for_each collect_block_types (mf_blocks function) types.
End types.

Definition collect_instance_types (program : MProgram) (fuel : nat) (types : list TypeInstance)
    (instance : FunctionInstance) : outcome failure (list TypeInstance) :=
  function ← expect (mp_functions program !! fi_function instance);
  collect_function_types program fuel function (mapping function instance) types.

Definition collect (fuel : nat) (program : MProgram) : outcome failure MonoProgram :=
  entry ← collect_entry program;
  instances ← collect_instances program entry;
  types ← for_each (collect_instance_types program fuel) instances [];
  Ok (mkMonoProgram instances types entry).

(** ** Symbols *)

Definition is_ascii_alphanumeric (c : char) : bool :=
  ((48 <=? c) && (c <=? 57)) || ((65 <=? c) && (c <=? 90)) || ((97 <=? c) && (c <=? 122)).

Definition sanitize (name : string) : string :=
  of_chars (map (λ c, if is_ascii_alphanumeric c then c else 95) (chars name)).

Fixpoint type_code (ty : Ty) : string :=
  match ty with
  | TUnit => "v"
  | TBool => "b"
  | TChar => "c"
  | TString => "s"
  | TCString => "cs"
  | TCStr => "cz"
  | TMemory => "mem"
  | TSecretBytes => "secret"
  | TAeadEnvelope => "aead"
  | TEd25519SigningKey => "edsk"
  | TPath => "p"
  | TProcessOutput => "po"
  | TProcessCommand => "pc"
  | TChildProcess => "cp"
  | TDatabase => "db"
  | TDataStore => "data_store"
  | TUrl => "url"
  | TJson => "json"
  | TIpAddress => "ni"
  | TSocketAddress => "na"
  | TTcpStream => "nt"
  | TTlsStream => "nx"
  | THttpRequest => "nq"
  | THttpResponse => "nh"
  | TTcpListener => "nl"
  | TUdpSocket => "nu"
  | TUdpDatagram => "nd"
  | TInstant => "ti"
  | TDuration => "td"
  | TStr => "z"
  | TArray element length => "A" +:+ display_Z length +:+ "_" +:+ type_code element
  | TSlice element => "L" +:+ type_code element
  | TList element => "V" +:+ type_code element
  | TMap key value => "M" +:+ type_code key +:+ "_" +:+ type_code value
  | TSet element => "Q" +:+ type_code element
  | TThread result => "T" +:+ type_code result
  | TFuture result => "U" +:+ type_code result
  | TTask result => "K" +:+ type_code result
  | TMutex value => "X" +:+ type_code value
  | TMutexGuard value => "Y" +:+ type_code value
  | TChannel value => "H" +:+ type_code value
  | TAtomicInt => "Z"
  | TInt signed width =>
      (if signed then "i" else "u")
      +:+ match width with Some width => display_Z width | None => "n" end
  | TFloat width => "f" +:+ display_Z width
  | TReference mutable inner => "r" +:+ (if mutable then "m" else "s") +:+ type_code inner
  | TRawPointer mutable inner => "p" +:+ (if mutable then "m" else "c") +:+ type_code inner
  | TMemoryPointer mutable inner => "q" +:+ (if mutable then "m" else "c") +:+ type_code inner
  | TStruct id args =>
      "S" +:+ display_Z (Z.of_nat id) +:+ String.concat "_" (map type_code args)
  | TEnum id args =>
      "E" +:+ display_Z (Z.of_nat id) +:+ String.concat "_" (map type_code args)
  | TOption x => "O" +:+ type_code x
  | TResult a b => "R" +:+ type_code a +:+ "_" +:+ type_code b
  | TGeneric name => "G" +:+ sanitize name
  | TFunction _ _ => "fn"
  | TCFunction arguments result =>
      "CF" +:+ String.concat "_" (map type_code arguments) +:+ "_" +:+ type_code result
  | TCRegistration => "c_registration"
  | TUnknown => "unknown"
  end.

Definition mangle (program : MProgram) (instance : FunctionInstance) : outcome failure string :=
  function ← expect (mp_functions program !! fi_function instance);
  match mf_external function with
  | Some external => Ok (external_link_name external)
  | None =>
    let symbol := "disp_f" +:+ display_Z (Z.of_nat (fi_function instance)) +:+ "_"
                  +:+ sanitize (mf_name function) in
    Ok (foldl (λ symbol ty, symbol +:+ "_" +:+ type_code ty) symbol (fi_substitutions instance))
  end.

(** ** The calling convention of every instance *)

Fixpoint map_insert {A V} (cmp : A → A → comparison) (x : A) (v : V) (l : list (A * V))
    : list (A * V) :=
  match l with
  | [] => [(x, v)]
  | (y, w) :: l' =>
    match cmp x y with
    | Lt => (x, v) :: l
    | Eq => (x, v) :: l'
    | Gt => (y, w) :: map_insert cmp x v l'
    end
  end.

Record AbiProgram := mkAbiProgram { abi_functions : list (FunctionInstance * FunctionAbi) }.

Section abi.
Context (overflow_checks : bool) (hir : HProgram) (mir : MProgram) (target : Target).
Context (fuel : nat).

Definition classify_type (ty : Ty) : SM Engine failure PassMode :=
  l ← layout overflow_checks target hir fuel ty;
  mret (classify l).

Definition function_abi (function : MFunction) (substitutions : gmap string Ty)
    : SM Engine failure FunctionAbi :=
  arguments ← mapS (λ local, classify_type (substitute (ml_ty local) substitutions))
                (take (mf_argument_count function) (drop 1 (mf_locals function)));
  local ← lift (expect (mf_locals function !! mf_return_local function));
  let declared_result := substitute (ml_ty local) substitutions in
  let result_ty :=
    if mf_asynchronous function then TFuture declared_result else declared_result in
  result ← classify_type result_ty;
  mret (mkFunctionAbi arguments result).

Fixpoint lower_instances (instances : list FunctionInstance)
    (functions : list (FunctionInstance * FunctionAbi))
    : SM Engine failure (list (FunctionInstance * FunctionAbi)) :=
  match instances with
  | [] => mret functions
  | instance :: instances =>
    function ← lift (expect (mp_functions mir !! fi_function instance));
    abi ← function_abi function (mapping function instance);
    lower_instances instances (map_insert instance_compare instance abi functions)
  end.

Definition abi_lower (mono_program : MonoProgram) : outcome failure AbiProgram :=
  '(functions, _) ← lower_instances (mono_instances mono_program) [] engine_new;
  Ok (mkAbiProgram functions).
End abi.
