(* ===== verification/MonoProps.v ===== *)
(** * The worklist of monomorphization finishes

    In terms of the code's own step [expand_instance]; what the step does is in
    [MonoNeeds]. *)

From stdpp Require Import relations.
From S2P Require Import Prelude Machine Utf8 Diagnostics StateM Limits Ast Hir Mir Layout.
From S2P Require Import Mono.
#[local] Open Scope string_scope.
#[local] Open Scope list_scope.
#[local] Open Scope Z_scope.

(** ** The derived orders *)

Lemma then_with_eq c d : then_with c d = Eq ↔ c = Eq ∧ d = Eq.
Proof. destruct c; simpl; naive_solver. Qed.

Lemma list_compare_eq {A} (cmp : A → A → comparison) (l k : list A) :
  Forall (λ x, ∀ y, cmp x y = Eq → x = y) l → list_compare cmp l k = Eq → l = k.
Proof.
  intros H. revert k. induction H as [|x l Hx Hl IH]; intros [|y k]; simpl; try done.
  rewrite then_with_eq. intros [->%Hx ->%IH]. done.
Qed.

Lemma ty_compare_eq a b : ty_compare a b = Eq → a = b.
Proof.
  revert a b. apply (Ty_nested_ind (λ a, ∀ b, ty_compare a b = Eq → a = b)).
  - intros []; try exact I; intros []; simpl; try done.
    + rewrite then_with_eq. intros [H1 H2]. f_equal.
      * by destruct signed, signed0.
      * destruct width, width0; simpl in H2; try done. by apply Z.compare_eq in H2 as ->.
    + by intros ->%Z.compare_eq.
    + by intros ->%String.compare_eq_iff.
  - intros c t Hc IH b. rewrite !elem_of_cons, elem_of_nil in Hc.
    destruct_or! Hc; subst; try done; destruct b; simpl; try done; by intros ->%IH.
  - intros t n IH []; simpl; try done.
    rewrite then_with_eq. by intros [->%IH ->%Z.compare_eq].
  - intros c m t Hc IH b. rewrite !elem_of_cons, elem_of_nil in Hc.
    destruct_or! Hc; subst; try done; destruct b; simpl; try done;
      rewrite then_with_eq; intros [Hm ->%IH]; f_equal; by destruct m, mutable.
  - intros c t u Hc IHt IHu b. rewrite !elem_of_cons, elem_of_nil in Hc.
    destruct_or! Hc; subst; try done; destruct b; simpl; try done;
      rewrite then_with_eq; by intros [->%IHt ->%IHu].
  - intros c n ts Hc IH b. rewrite !elem_of_cons, elem_of_nil in Hc.
    destruct_or! Hc; subst; try done; destruct b; simpl; try done;
      rewrite then_with_eq; intros [->%Nat.compare_eq Hl]; f_equal; by eapply list_compare_eq.
  - intros c ts t Hc IHs IH b. rewrite !elem_of_cons, elem_of_nil in Hc.
    destruct_or! Hc; subst; try done; destruct b; simpl; try done;
      rewrite then_with_eq; intros [Hl ->%IH]; f_equal; by eapply list_compare_eq.
Qed.

Lemma then_with_refl c d : c = Eq → d = Eq → then_with c d = Eq.
Proof. by intros -> ->. Qed.

Lemma list_compare_refl {A} (cmp : A → A → comparison) l :
  Forall (λ x, cmp x x = Eq) l → list_compare cmp l l = Eq.
Proof. induction 1; simpl; [done|]. by apply then_with_refl. Qed.

Lemma bool_compare_refl b : bool_compare b b = Eq.
Proof. by destruct b. Qed.

Lemma ty_compare_refl a : ty_compare a a = Eq.
Proof.
  revert a. apply (Ty_nested_ind (λ a, ty_compare a a = Eq)).
  - intros []; try done; simpl.
    + apply then_with_refl; [apply bool_compare_refl|]. destruct width; [|done].
      apply Z.compare_refl.
    + apply Z.compare_refl.
    + pose proof (String.compare_antisym name name). by destruct (String.compare name name).
  - intros c t Hc IH. rewrite !elem_of_cons, elem_of_nil in Hc. by destruct_or! Hc; subst.
  - intros t n IH. apply then_with_refl; [done|apply Z.compare_refl].
  - intros c m t Hc IH. rewrite !elem_of_cons, elem_of_nil in Hc.
    destruct_or! Hc; subst; try done; apply then_with_refl; auto using bool_compare_refl.
  - intros c t u Hc IHt IHu. rewrite !elem_of_cons, elem_of_nil in Hc.
    destruct_or! Hc; subst; try done; by apply then_with_refl.
  - intros c n ts Hc IH. rewrite !elem_of_cons, elem_of_nil in Hc.
    destruct_or! Hc; subst; try done; apply then_with_refl;
      auto using Nat.compare_refl, list_compare_refl.
  - intros c ts t Hc IHs IH. rewrite !elem_of_cons, elem_of_nil in Hc.
    destruct_or! Hc; subst; try done; apply then_with_refl; auto using list_compare_refl.
Qed.

Lemma instance_compare_eq a b : instance_compare a b = Eq ↔ a = b.
Proof.
  unfold instance_compare. rewrite then_with_eq. split.
  - intros [H1%Nat.compare_eq H2]. destruct a as [n ts], b as [m us]; simpl in *. subst m.
    f_equal. eapply list_compare_eq; [|exact H2]. apply Forall_forall. intros t _.
    apply ty_compare_eq.
  - intros ->. split; [apply Nat.compare_refl|]. apply list_compare_refl.
    apply Forall_forall. intros t _. apply ty_compare_refl.
Qed.

Lemma type_instance_compare_eq a b : type_instance_compare a b = Eq ↔ a = b.
Proof.
  unfold type_instance_compare. split.
  - destruct a, b; simpl. by intros ->%ty_compare_eq.
  - intros ->. apply ty_compare_refl.
Qed.

(** ** Ordered sets *)

Section ordered_sets.
Context {A : Type} (cmp : A → A → comparison) (cmp_eq : ∀ x y, cmp x y = Eq ↔ x = y).

Lemma set_contains_spec x l : set_contains cmp x l = true ↔ x ∈ l.
Proof.
  unfold set_contains. rewrite existsb_exists. setoid_rewrite <- list_elem_of_In. split.
  - intros (y & Hy & H). destruct (cmp x y) eqn:E; try done. by apply cmp_eq in E as ->.
  - intros Hx. exists x. split; [done|]. by rewrite (proj2 (cmp_eq x x) eq_refl).
Qed.

Lemma elem_of_set_insert x y l : y ∈ set_insert cmp x l ↔ y = x ∨ y ∈ l.
Proof.
  induction l as [|z l IH]; simpl; [set_solver|].
  destruct (cmp x z) eqn:E; [apply cmp_eq in E as ->|..]; set_solver.
Qed.

Lemma length_set_insert x l : x ∉ l → length (set_insert cmp x l) = S (length l).
Proof.
  induction l as [|z l IH]; simpl; [done|]. intros [Hz Hl]%not_elem_of_cons.
  destruct (cmp x z) eqn:E; simpl; [by apply cmp_eq in E|done|]. by rewrite IH.
Qed.

Lemma NoDup_set_insert x l : x ∉ l → NoDup l → NoDup (set_insert cmp x l).
Proof.
  induction l as [|z l IH]; simpl; [intros; apply NoDup_singleton|].
  intros Hx Hnd. pose proof Hnd as [Hz Hl]%NoDup_cons. apply not_elem_of_cons in Hx as [Hxz Hx].
  destruct (cmp x z) eqn:E; [done|by constructor; [set_solver|]|].
  constructor; [|auto]. rewrite elem_of_set_insert. naive_solver.
Qed.
End ordered_sets.

(** ** What an instance refers to *)

(** A loop whose steps append to a queue appends the same whatever the queue holds. *)
Definition appends {A B} (body : list B → A → outcome failure (list B)) (a : A) (bound : nat)
    : Prop :=
  ∀ q, match body [] a with
       | Ok rs => body q a = Ok (q ++ rs) ∧ (length rs <= bound)%nat
       | Err e => body q a = Err e ∧ e ≠ Diverges
       | Panic => False
       end.

Lemma appends_for_each {A B} (body : list B → A → outcome failure (list B)) (f : A → nat) l :
  (∀ a, a ∈ l → appends body a (f a)) →
  appends (λ q l, for_each body l q) l (sum_list_with f l).
Proof.
  induction l as [|a l IH]; intros Hb q; simpl.
  { rewrite app_nil_r. auto with lia. }
  pose proof (Hb a ltac:(set_solver) q) as Ha.
  destruct (body [] a) as [rs|e|] eqn:E; simpl; [|by destruct Ha as [-> ?]|done].
  destruct Ha as [-> Hlen]. simpl.
  specialize (IH ltac:(set_solver)).
  pose proof (IH rs) as H1. pose proof (IH (q ++ rs)) as H2. cbn beta in *.
  destruct (for_each body l []) as [rs'|e|]; [|by destruct H1 as [-> ?]|done].
  destruct H1 as [-> H1], H2 as [-> _]. rewrite length_app, (assoc_L (++)). auto with lia.
Qed.

Section worklist.
Context (program : MProgram).

Lemma lookup_all_quiet message names m : ∃ o : option (list Ty),
  lookup_all message names m = ok_or o (mono_error message).
Proof.
  induction names as [|x names [o IH]]; simpl; [by exists (Some [])|].
  destruct (m !! x) as [t|]; simpl; [|by exists None]. rewrite IH.
  destruct o as [ts|]; [by exists (Some (t :: ts))|by exists None].
Qed.

Definition quiet {A} (m : outcome failure A) : Prop := m ≠ Err Diverges ∧ m ≠ Panic.

Lemma quiet_bind {A B} (m : outcome failure A) (f : A → outcome failure B) :
  quiet m → (∀ a, quiet (f a)) → quiet (m ≫= f).
Proof. unfold quiet. destruct m; simpl; naive_solver. Qed.
Lemma quiet_ok {A} (a : A) : quiet (Ok a).
Proof. done. Qed.
Lemma quiet_fails {A} d : quiet (A:=A) (Err (Fails d)).
Proof. done. Qed.
Lemma quiet_ok_or {A} (o : option A) message : quiet (ok_or o (mono_error message)).
Proof. by destruct o. Qed.
Lemma quiet_lookup_all message names m : quiet (lookup_all message names m).
Proof. destruct (lookup_all_quiet message names m) as [o ->]. apply quiet_ok_or. Qed.
Lemma quiet_for_each {A T} (body : T → A → outcome failure T) l s :
  (∀ s a, quiet (body s a)) → quiet (for_each body l s).
Proof.
  intros Hb. revert s. induction l as [|a l IH]; intros s; simpl; [done|]. by apply quiet_bind.
Qed.
Hint Resolve quiet_ok quiet_fails quiet_ok_or quiet_lookup_all : core.

Lemma quiet_find_implementation t m r l : quiet (find_implementation t m r l).
Proof.
  induction l as [|i l IH]; simpl; [done|]. case_bool_decide; [|done].
  destruct (match_type _ _ _) as [[] inferred]; [|done].
  apply quiet_bind; [done|]. intros ?. by apply quiet_bind.
Qed.

Lemma quiet_resolve_target f i t ts os : quiet (resolve_target program f i t ts os).
Proof.
  destruct t; simpl; try done.
  - apply quiet_bind; [done|]. intros callee. case_match; [done|]. apply quiet_bind.
    + apply quiet_for_each. intros m [l o]. unfold infer_argument. simpl.
      destruct (operand_type _ _ _); [|done]. by destruct (match_type _ _ _) as [[] ?].
    + intros ?. by apply quiet_bind.
  - apply quiet_bind; [done|]. intros ?. apply quiet_bind; [done|]. intros ty.
    apply quiet_find_implementation.
Qed.

Lemma appends_statement i st : appends (statement_references program i) st 1.
Proof.
  intros q. unfold statement_references. destruct (ms_kind st); simpl;
    try (rewrite app_nil_r; auto with lia).
  destruct value; simpl; try (rewrite app_nil_r; auto with lia).
  - destruct (mp_functions program !! function); simpl; [|done].
    case_bool_decide; simpl; auto with lia; done.
  - destruct (mp_functions program !! function); simpl; auto with lia; done.
Qed.

Lemma appends_block f i b :
  appends (block_references program f i) b (S (length (bb_statements b))).
Proof.
  intros q. unfold block_references.
  pose proof (appends_for_each (statement_references program i) (λ _, 1%nat) (bb_statements b)
    (λ st _, appends_statement i st) q) as Hs. cbn beta in Hs.
  assert (Hsum : sum_list_with (λ _ : MStatement, 1%nat) (bb_statements b)
    = length (bb_statements b)).
  { clear Hs. induction (bb_statements b); simpl; congruence. }
  destruct (for_each _ _ []) as [rs|e|]; simpl; [|by destruct Hs as [-> ?]|done].
  destruct Hs as [-> Hlen]. simpl.
  assert (Ht : quiet (terminator_references program f i (bb_terminator b)) ∧
    ∀ ts, terminator_references program f i (bb_terminator b) = Ok ts → (length ts <= 1)%nat).
  { unfold terminator_references. destruct (bb_terminator b); try (split; [done|];
      intros ? [= <-]; simpl; lia); (split; [apply quiet_bind; [apply quiet_resolve_target|done]|]);
      intros ts Hts; inv_ok Hts; injection Hts as <-; destruct v; simpl; lia. }
  destruct Ht as [Hq Ht].
  destruct (terminator_references _ _ _ _) as [ts|e|]; simpl.
  - rewrite (assoc_L (++)), length_app. specialize (Ht ts eq_refl). split; [done|lia].
  - split; [done|]. by destruct Hq as [Hq _]; intros ->.
  - by destruct Hq as [_ []].
Qed.

Lemma body_weight_max f i : mp_functions program !! i = Some f →
  (body_weight f <= max_weight program)%nat.
Proof.
  unfold max_weight. intros Hf%list_elem_of_lookup_2.
  induction (mp_functions program) as [|g fs IH]; [by apply not_elem_of_nil in Hf|].
  simpl. apply elem_of_cons in Hf as [->|Hf]; [lia|]. specialize (IH Hf). lia.
Qed.

Lemma appends_expand i :
  appends (λ q _, expand_instance program i q) tt (max_weight program).
Proof.
  intros q. unfold expand_instance.
  destruct (mp_functions program !! fi_function i) as [f|] eqn:Hf; simpl; [|done].
  destruct (length (mf_generic_parameters f) =? length (fi_substitutions i))%nat; [|done].
  pose proof (appends_for_each (block_references program f i) _ (mf_blocks f)
    (λ b _, appends_block f i b) q) as Hs. cbn beta in Hs.
  pose proof (body_weight_max _ _ Hf) as Hw. unfold body_weight in Hw.
  destruct (for_each _ _ []) as [rs|e|]; [|done|done]. destruct Hs as [-> Hs].
  split; [done|lia].
Qed.

(** Instance [i] needs instance [j]. *)
Definition references (i j : FunctionInstance) : Prop :=
  ∃ rs, expand_instance program i [] = Ok rs ∧ j ∈ rs.

Context (roots : list FunctionInstance).
Definition needed (i : FunctionInstance) : Prop := ∃ r, r ∈ roots ∧ rtc references r i.

Record collecting (queue seen : list FunctionInstance) : Prop := {
  collecting_needed i : i ∈ seen ∨ i ∈ queue → needed i;
  collecting_closed i : i ∈ seen → ∃ rs, expand_instance program i [] = Ok rs ∧
    ∀ j, j ∈ rs → j ∈ seen ∨ j ∈ queue;
  collecting_roots r : r ∈ roots → r ∈ seen ∨ r ∈ queue;
  collecting_nodup : NoDup seen;
  collecting_limit : zlen seen <= MAX_MONOMORPHIZATIONS }.

(** The result of the worklist. *)
Definition collected (seen : list FunctionInstance) : Prop :=
  NoDup seen ∧ zlen seen <= MAX_MONOMORPHIZATIONS ∧ (∀ i, i ∈ seen ↔ needed i) ∧
  ∀ i, i ∈ seen → ∃ rs, expand_instance program i [] = Ok rs.

Lemma collecting_done seen : collecting [] seen → collected seen.
Proof.
  intros [H1 H2 H3 H4 H5]. split_and!; [done|done| |naive_solver].
  intros i. split; [naive_solver|]. intros (r & Hr & Hi). revert i Hi.
  apply rtc_ind_r; [set_solver|]. intros i j _ (rs & Hrs & Hj) IH.
  destruct (H2 i IH) as (rs' & Hrs' & Hall).
  rewrite Hrs in Hrs'. injection Hrs' as <-. by destruct (Hall j Hj) as [|?%not_elem_of_nil].
Qed.

Lemma collecting_skip i queue seen :
  collecting (i :: queue) seen → i ∈ seen → collecting queue seen.
Proof.
  intros [H1 H2 H3 H4 H5] Hi. split; [set_solver| |set_solver|done|done].
  intros j Hj. destruct (H2 j Hj) as (rs & Hrs & Hall). exists rs. split; [done|]. set_solver.
Qed.

Lemma collecting_add i queue seen rs :
  collecting (i :: queue) seen → i ∉ seen → expand_instance program i [] = Ok rs →
  zlen (set_insert instance_compare i seen) <= MAX_MONOMORPHIZATIONS →
  collecting (queue ++ rs) (set_insert instance_compare i seen).
Proof.
  intros [H1 H2 H3 H4 H5] Hi Hrs Hlim.
  assert (Hn : needed i) by (apply H1; set_solver).
  pose proof (elem_of_set_insert instance_compare instance_compare_eq) as Hin.
  split; [| | |by apply NoDup_set_insert; [apply instance_compare_eq|..]|done].
  - intros j. rewrite Hin, elem_of_app. intros [[->|?]|[?|Hj]]; [done|set_solver..|].
    destruct Hn as (r & Hr & Hri). exists r. split; [done|]. eapply rtc_r; [done|]. by exists rs.
  - intros j. rewrite Hin. intros [->|Hj].
    + exists rs. split; [done|]. intros k Hk. rewrite elem_of_app. auto.
    + destruct (H2 j Hj) as (rs' & Hrs' & Hall). exists rs'. split; [done|].
      intros k Hk. rewrite Hin, elem_of_app. destruct (Hall k Hk) as [?|[->|?]%elem_of_cons]; auto.
  - intros r Hr. rewrite Hin, elem_of_app. destruct (H3 r Hr) as [?|[->|?]%elem_of_cons]; auto.
Qed.

(** Every outcome of the loop: the collected instances, the limit, or the error of an
    instance the program needs. *)
Lemma collect_loop_spec fuel queue seen : collecting queue seen →
  (length queue + (Z.to_nat (MAX_MONOMORPHIZATIONS + 1) - length seen) * max_weight program
   < fuel)%nat →
  match collect_loop fuel program queue seen with
  | Ok l => collected l
  | Err e => e ≠ Diverges ∧
      ((e = instance_limit_error ∧ ∃ l, NoDup l ∧ MAX_MONOMORPHIZATIONS < zlen l ∧ Forall needed l) ∨
       ∃ i, needed i ∧ expand_instance program i [] = Err e)
  | Panic => False
  end.
Proof.
  revert queue seen. induction fuel as [|fuel IH]; intros queue seen Hc Hf;
    [by apply Nat.nlt_0_r in Hf|]. simpl.
  destruct queue as [|i queue]; [by apply collecting_done|].
  destruct (set_contains instance_compare i seen) eqn:Hin.
  { apply set_contains_spec in Hin; [|apply instance_compare_eq].
    apply IH; [by eapply collecting_skip|]. simpl in Hf. lia. }
  assert (Hni : i ∉ seen).
  { intros Hi. rewrite <- (set_contains_spec instance_compare instance_compare_eq) in Hi. congruence. }
  assert (Hn : needed i) by (apply Hc; set_solver).
  pose proof (length_set_insert instance_compare instance_compare_eq i seen Hni) as Hlen.
  destruct (Z.ltb_spec MAX_MONOMORPHIZATIONS (zlen (set_insert instance_compare i seen))) as [Hl|Hl].
  { split; [done|]. left. split; [done|]. exists (set_insert instance_compare i seen).
    split_and!; [|done|].
    - apply NoDup_set_insert; [apply instance_compare_eq|done|apply Hc].
    - apply Forall_forall. intros j. rewrite elem_of_set_insert by apply instance_compare_eq.
      intros [->|Hj]; [done|]. apply Hc. by left. }
  pose proof (appends_expand i queue) as Hq. cbn beta in Hq.
  destruct (expand_instance program i []) as [rs|e|] eqn:He; [| |done].
  2:{ destruct Hq as [-> Hd]. simpl. split; [done|]. right. by exists i. }
  destruct Hq as [-> Hrs]. simpl. apply IH; [by apply collecting_add|].
  rewrite Hlen, length_app. simpl in Hf. unfold zlen in Hl. rewrite Hlen in Hl.
  set (n := Z.to_nat (MAX_MONOMORPHIZATIONS + 1)) in *.
  assert (n - length seen = S (n - S (length seen)))%nat as Hs by (unfold n; lia).
  rewrite Hs, Nat.mul_succ_l in Hf.
  generalize dependent ((n - S (length seen)) * max_weight program)%nat. lia.
Qed.
End worklist.

Lemma collect_instances_spec program entry :
  let roots := initial_queue program entry in
  match collect_instances program entry with
  | Ok l => collected program roots l
  | Err e => e ≠ Diverges ∧
      ((e = instance_limit_error ∧ ∃ l, NoDup l ∧ MAX_MONOMORPHIZATIONS < zlen l ∧
          Forall (needed program roots) l) ∨
       ∃ i, needed program roots i ∧ expand_instance program i [] = Err e)
  | Panic => False
  end.
Proof.
  apply collect_loop_spec.
  - split; [|by intros i ?%not_elem_of_nil|by auto|constructor|done].
    intros i [[]%not_elem_of_nil|Hi]. exists i. split; [done|apply rtc_refl].
  - simpl length. lia.
Qed.
