(* ===== verification/MonoTypes.v ===== *)
(** * Matching of generic types, and the types monomorphization collects *)

From stdpp Require Import relations.
From S2P Require Import Prelude Machine Utf8 Diagnostics StateM Limits Ast Hir Mir Layout.
From S2P Require Import Mono MonoProps.
#[local] Open Scope string_scope.
#[local] Open Scope list_scope.
#[local] Open Scope Z_scope.

(** ** What it means to match

    [matches m p c]: replacing the generic parameters of [p] by what [m] assigns to them
    gives [c], where a shared reference may also stand for a mutable one. *)

Fixpoint all2 (R : Ty → Ty → Prop) (xs ys : list Ty) : Prop :=
  match xs, ys with
  | [], [] => True
  | x :: xs, y :: ys => R x y ∧ all2 R xs ys
  | _, _ => False
  end.

Fixpoint matches (m : gmap string Ty) (p c : Ty) : Prop :=
  match p, c with
  | TGeneric x, _ => m !! x = Some c
  | TStruct a xs, TStruct b ys | TEnum a xs, TEnum b ys => a = b ∧ all2 (matches m) xs ys
  | TReference a x, TReference b y => (a = true → b = true) ∧ matches m x y
  | TRawPointer a x, TRawPointer b y | TMemoryPointer a x, TMemoryPointer b y =>
      a = b ∧ matches m x y
  | TArray x a, TArray y b => a = b ∧ matches m x y
  | TSlice x, TSlice y | TList x, TList y | TSet x, TSet y | TThread x, TThread y
  | TFuture x, TFuture y | TTask x, TTask y | TMutex x, TMutex y
  | TMutexGuard x, TMutexGuard y | TChannel x, TChannel y | TOption x, TOption y =>
      matches m x y
  | TMap x u, TMap y v | TResult x u, TResult y v => matches m x y ∧ matches m u v
  | TCFunction xs x, TCFunction ys y => all2 (matches m) xs ys ∧ matches m x y
  | _, _ => p = c
  end.

(** [match_type] on [p] finds the least assignment: [m'] extends [m], makes [p] match, and
    every assignment that does both contains it. *)
Definition least_match (p : Ty) : Prop := ∀ c m,
  (∀ m', match_type p c m = (true, m') → m ⊆ m' ∧ matches m' p c) ∧
  (∀ m', m ⊆ m' → matches m' p c → ∃ m'', match_type p c m = (true, m'') ∧ m'' ⊆ m') ∧
  (∀ m', matches m p c → m ⊆ m' → matches m' p c).

Lemma least_equal (p c : Ty) (m : gmap string Ty) :
  (∀ m', (bool_decide (p = c), m) = (true, m') → m ⊆ m' ∧ p = c) ∧
  (∀ m' : gmap string Ty, m ⊆ m' → p = c →
     ∃ m'', (bool_decide (p = c), m) = (true, m'') ∧ m'' ⊆ m') ∧
  (∀ m', p = c → m ⊆ m' → p = c).
Proof.
  split_and!.
  - intros m' [= H <-]. by apply bool_decide_eq_true in H.
  - intros m' Hm ->. exists m. by rewrite bool_decide_true.
  - done.
Qed.

Lemma least_generic x : least_match (TGeneric x).
Proof.
  intros c m. simpl. split_and!.
  - intros m'. destruct (m !! x) as [t|] eqn:E.
    + case_bool_decide; [subst t|done]. intros [= <-].
      rewrite lookup_insert_eq. split; [|done]. by rewrite insert_id.
    + intros [= <-]. rewrite lookup_insert_eq. split; [by apply insert_subseteq|done].
  - intros m' Hm Hx. destruct (m !! x) as [t|] eqn:E.
    + assert (t = c) as -> by (eapply lookup_weaken in E; [|done]; congruence).
      rewrite bool_decide_true by done. eexists. split; [done|]. by rewrite insert_id.
    + eexists. split; [done|]. by apply insert_subseteq_l.
  - intros m' Hx Hm. by eapply lookup_weaken.
Qed.

Lemma least_all ps : Forall least_match ps → ∀ cs m, length ps = length cs →
  (∀ m', match_all match_type ps cs m = (true, m') → m ⊆ m' ∧ all2 (matches m') ps cs) ∧
  (∀ m', m ⊆ m' → all2 (matches m') ps cs →
     ∃ m'', match_all match_type ps cs m = (true, m'') ∧ m'' ⊆ m') ∧
  (∀ m', all2 (matches m) ps cs → m ⊆ m' → all2 (matches m') ps cs).
Proof.
  induction 1 as [|p ps Hp Hps IH]; intros [|c cs] m Hlen; try done; simpl.
  { split_and!; [by intros m' [= <-]|by eauto|done]. }
  injection Hlen as Hlen. destruct (Hp c m) as (H1 & H2 & H3). split_and!.
  - intros m'. destruct (match_type p c m) as [[] m1]; [|done].
    destruct (H1 m1 eq_refl) as [Hm1 Hc]. destruct (IH cs m1 Hlen) as (I1 & _ & _).
    intros [Hm' Hcs]%I1. split_and!; [by etransitivity| |done]. by apply (Hp c m1).
  - intros m' Hm [Hc Hcs]. destruct (H2 m' Hm Hc) as (m1 & -> & Hm1).
    destruct (IH cs m1 Hlen) as (_ & I2 & _). by apply I2.
  - intros m' [Hc Hcs] Hm. split; [by apply H3|]. by apply (IH cs m Hlen).
Qed.

Lemma all2_length R xs ys : all2 R xs ys → length xs = length ys.
Proof. revert ys. induction xs; intros [|y ys]; simpl; naive_solver. Qed.

(** A pair of components matched one after the other. *)
Lemma least_pair p q : least_match p → least_match q → ∀ c d m,
  (∀ m', (let '(b, m1) := match_type p c m in
          if b then match_type q d m1 else (false, m1)) = (true, m') →
     m ⊆ m' ∧ matches m' p c ∧ matches m' q d) ∧
  (∀ m', m ⊆ m' → matches m' p c ∧ matches m' q d →
     ∃ m'', (let '(b, m1) := match_type p c m in
             if b then match_type q d m1 else (false, m1)) = (true, m'') ∧ m'' ⊆ m') ∧
  (∀ m', matches m p c ∧ matches m q d → m ⊆ m' → matches m' p c ∧ matches m' q d).
Proof.
  intros Hp Hq c d m. destruct (Hp c m) as (H1 & H2 & H3). split_and!.
  - intros m'. destruct (match_type p c m) as [[] m1]; [|done].
    destruct (H1 m1 eq_refl) as [Hm1 Hc]. intros [Hm' Hd]%(Hq d m1).
    split_and!; [by etransitivity| |done]. by apply (Hp c m1).
  - intros m' Hm [Hc Hd]. destruct (H2 m' Hm Hc) as (m1 & -> & Hm1). by apply (Hq d m1).
  - intros m' [Hc Hd] Hm. split; [by apply H3|]. by apply (Hq d m).
Qed.

(** A component that is matched under a condition on the rest. *)
Lemma least_guarded (b : bool) (P : Prop) p c m e : (b = true ↔ P) → (b = false → e.1 = false) →
  least_match p →
  (∀ m', (if b then match_type p c m else e) = (true, m') → m ⊆ m' ∧ P ∧ matches m' p c) ∧
  (∀ m', m ⊆ m' → P ∧ matches m' p c →
     ∃ m'', (if b then match_type p c m else e) = (true, m'') ∧ m'' ⊆ m') ∧
  (∀ m', P ∧ matches m p c → m ⊆ m' → P ∧ matches m' p c).
Proof.
  intros Hb He Hp. destruct (Hp c m) as (H1 & H2 & H3). destruct b.
  - split_and!; [|naive_solver|naive_solver]. intros m' [? ?]%H1. naive_solver.
  - split_and!; [|naive_solver|naive_solver]. intros m' ->. simpl in He. naive_solver.
Qed.

Lemma least_named n n' ps cs m : Forall least_match ps →
  (∀ m', (if (n =? n')%nat && (length ps =? length cs)%nat then match_all match_type ps cs m
          else (false, m)) = (true, m') → m ⊆ m' ∧ n = n' ∧ all2 (matches m') ps cs) ∧
  (∀ m', m ⊆ m' → n = n' ∧ all2 (matches m') ps cs →
     ∃ m'', (if (n =? n')%nat && (length ps =? length cs)%nat
             then match_all match_type ps cs m else (false, m)) = (true, m'') ∧ m'' ⊆ m') ∧
  (∀ m', n = n' ∧ all2 (matches m) ps cs → m ⊆ m' → n = n' ∧ all2 (matches m') ps cs).
Proof.
  intros Hps. destruct (Nat.eqb_spec n n') as [<-|Hn]; simpl; [|naive_solver].
  destruct (Nat.eqb_spec (length ps) (length cs)) as [Hl|Hl].
  - destruct (least_all ps Hps cs m Hl) as (H1 & H2 & H3).
    split_and!; [intros m' [? ?]%H1| |]; naive_solver.
  - split_and!; [done|..]; intros m'; [intros _ [_ ?%all2_length]|intros [_ ?%all2_length]]; done.
Qed.

Lemma least_cfunction ps p cs c m : Forall least_match ps → least_match p →
  let run := if (length ps =? length cs)%nat then
       let '(b, m1) := match_all match_type ps cs m in
       if b then match_type p c m1 else (false, m1)
     else (bool_decide (TCFunction ps p = TCFunction cs c), m) in
  (∀ m', run = (true, m') → m ⊆ m' ∧ all2 (matches m') ps cs ∧ matches m' p c) ∧
  (∀ m', m ⊆ m' → all2 (matches m') ps cs ∧ matches m' p c →
     ∃ m'', run = (true, m'') ∧ m'' ⊆ m') ∧
  (∀ m', all2 (matches m) ps cs ∧ matches m p c → m ⊆ m' →
     all2 (matches m') ps cs ∧ matches m' p c).
Proof.
  intros Hps Hp. destruct (Nat.eqb_spec (length ps) (length cs)) as [Hl|Hl]; cbv zeta.
  - destruct (least_all ps Hps cs m Hl) as (H1 & H2 & H3). split_and!.
    + intros m'. destruct (match_all match_type ps cs m) as [[] m1]; [|done].
      destruct (H1 m1 eq_refl) as [Hm1 Hcs]. intros [Hm' Hc]%(Hp c m1).
      split_and!; [by etransitivity| |done]. by apply (least_all ps Hps cs m1 Hl).
    + intros m' Hm [Hcs Hc]. destruct (H2 m' Hm Hcs) as (m1 & -> & Hm1). by apply (Hp c m1).
    + intros m' [Hcs Hc] Hm. split; [by apply H3|]. by apply (Hp c m).
  - split_and!.
    + intros m'. rewrite bool_decide_false by congruence. done.
    + intros m' _ [?%all2_length _]. done.
    + intros m' [?%all2_length _]. done.
Qed.

Lemma match_type_least p : least_match p.
Proof.
  revert p. apply Ty_nested_ind.
  - intros []; try exact I; try (intros c m; destruct c; apply least_equal).
    apply least_generic.
  - intros k p Hk IH c m. rewrite !elem_of_cons, elem_of_nil in Hk.
    destruct_or! Hk; subst; try done; destruct c; solve [apply least_equal | apply IH].
  - intros p n IH c m. destruct c; try apply least_equal. simpl.
    apply least_guarded; [apply Z.eqb_eq| |done].
    intros Hn%Z.eqb_neq. simpl. apply bool_decide_eq_false. congruence.
  - intros k b p Hk IH c m. rewrite !elem_of_cons, elem_of_nil in Hk.
    destruct_or! Hk; subst; try done; destruct c; try apply least_equal; simpl;
      (apply least_guarded; [|intros Hb; apply bool_decide_eq_false; intros [= -> _];
         by destruct mutable|done]).
    + destruct b, mutable; naive_solver.
    + apply Bool.eqb_true_iff.
    + apply Bool.eqb_true_iff.
  - intros k p q Hk IHp IHq c m. rewrite !elem_of_cons, elem_of_nil in Hk.
    destruct_or! Hk; subst; try done; destruct c; try apply least_equal; by apply least_pair.
  - intros k n ps Hk IH c m. rewrite !elem_of_cons, elem_of_nil in Hk.
    destruct_or! Hk; subst; try done; destruct c; try apply least_equal; by apply least_named.
  - intros k ps p Hk IHs IH c m. rewrite !elem_of_cons, elem_of_nil in Hk.
    destruct_or! Hk; subst; try done; destruct c; try apply least_equal.
    by apply least_cfunction.
Qed.

(** C33: [match_type] finds out whether a generic type can be instantiated to a concrete
    one: it succeeds exactly when some extension of what was inferred before makes the two
    match, and then returns the least such extension. *)
Theorem match_type_decides p c inferred :
  (∀ inferred', match_type p c inferred = (true, inferred') →
     inferred ⊆ inferred' ∧ matches inferred' p c) ∧
  (∀ solution, inferred ⊆ solution → matches solution p c →
     ∃ inferred', match_type p c inferred = (true, inferred') ∧ inferred' ⊆ solution).
Proof. destruct (match_type_least p c inferred) as (H1 & H2 & _). by split. Qed.

Lemma match_type_decides_witness :
  match_type (TMap (TGeneric "K") (TReference false (TGeneric "V")))
    (TMap TString (TReference true TBool)) ∅
  = (true, <["V" := TBool]> (<["K" := TString]> ∅)) ∧
  matches (<["V" := TBool]> (<["K" := TString]> ∅))
    (TMap (TGeneric "K") (TReference false (TGeneric "V")))
    (TMap TString (TReference true TBool)).
Proof.
  split; [vm_compute; reflexivity|].
  apply (match_type_decides (TMap (TGeneric "K") (TReference false (TGeneric "V")))
    (TMap TString (TReference true TBool)) ∅). vm_compute. reflexivity.
Defined.
