(* ===== verification/MonoNeeds.v ===== *)
(** * The instances a native program needs ([compiler/src/backend/mono.rs])

    An account of the instances of a program that does not look at the worklist: the places
    of a body that need another function, and the instance each place dispatches to.  A
    generic call dispatches to the least assignment of types to the parameters of the callee
    under which the arguments match; a trait call to the first implementation of the trait
    whose target matches the receiver.  [collect_instances] finds exactly the instances that
    can be reached from [main] and the exported functions. *)

From stdpp Require Import relations.
From S2P Require Import Prelude Machine Utf8 Diagnostics StateM Limits Ast Hir Mir Layout.
From S2P Require Import Mono MonoProps MonoTypes.
#[local] Open Scope string_scope.
#[local] Open Scope list_scope.
#[local] Open Scope Z_scope.

(** ** Places that need a function *)

Inductive Site :=
| AtValue (function : FunctionId)
| AtClosure (function : FunctionId)
| AtCall (target : CallTarget) (substitutions : list Ty) (arguments : list Operand).

Definition statement_sites (statement : MStatement) : list Site :=
  match ms_kind statement with
  | MAssign _ (RvFunction function) => [AtValue function]
  | MAssign _ (RvClosure function _) => [AtClosure function]
  | _ => []
  end.

Definition terminator_sites (terminator : Terminator) : list Site :=
  match terminator with
  | TCall target arguments _ _ _ substitutions _ => [AtCall target substitutions arguments]
  | TSpawn function arguments _ _ substitutions _ =>
      [AtCall (CTFunction function) substitutions arguments]
  | _ => []
  end.

Definition function_sites (f : MFunction) : list Site :=
  flat_map (λ block, flat_map statement_sites (bb_statements block)
                       ++ terminator_sites (bb_terminator block)) (mf_blocks f).

(** Built-in operations and calls through a value have no function of the program. *)
Definition needs_body (s : Site) : bool :=
  match s with
  | AtCall (CTIntrinsic _ | CTData _ | CTCallable | CTForeignCallable) _ _ => false
  | _ => true
  end.

(** ** Dispatch *)

(** The least assignment of types with a property. *)
Definition least (P : gmap string Ty → Prop) (m : gmap string Ty) : Prop :=
  P m ∧ ∀ m', P m' → m ⊆ m'.

Definition assigns (m : gmap string Ty) (names : list string) (types : list Ty) : Prop :=
  Forall2 (λ name ty, m !! name = Some ty) names types.

Section dispatch.
Context (program : MProgram).

Section caller.
Context (f : MFunction) (i : FunctionInstance).

(** The types of the caller's body, at its instance. *)
Definition at_instance (ty : Ty) : Ty :=
  substitute ty (type_arguments_of (mf_generic_parameters f) (fi_substitutions i)).

(** What the call says about the parameters of the callee: the types it supplies, where
    they are known, and the types of its arguments. *)
Definition call_agrees (callee : MFunction) (supplied : list Ty) (arguments : list Operand)
    (m : gmap string Ty) : Prop :=
  (list_to_map (List.filter (λ row, negb (is_generic row.2))
                  (reverse (zip (mf_generic_parameters callee) supplied))) : gmap string Ty) ⊆ m
  ∧ ∀ local argument ty,
      (local, argument) ∈ zip (List.filter is_argument (mf_locals callee)) arguments →
      operand_type program f argument = Some ty → matches m (ml_ty local) (at_instance ty).

Definition dispatches_call (function : FunctionId) (substitutions : list Ty)
    (arguments : list Operand) (j : FunctionInstance) : Prop :=
  ∃ callee, mp_functions program !! function = Some callee ∧ fi_function j = function ∧
    let supplied := map at_instance substitutions in
    (Forall (λ ty, is_generic ty = false) supplied ∧ fi_substitutions j = supplied
     ∨ ¬ Forall (λ ty, is_generic ty = false) supplied ∧
       ∃ m, least (call_agrees callee supplied arguments) m
         ∧ assigns m (mf_generic_parameters callee) (fi_substitutions j)).

Definition receiver_of (ty : Ty) : Ty :=
  match at_instance ty with TReference _ inner => inner | other => other end.

Definition dispatches_trait (trait_id : TraitId) (method : nat) (arguments : list Operand)
    (j : FunctionInstance) : Prop :=
  ∃ argument ty before implementation after m,
    head arguments = Some argument ∧ operand_type program f argument = Some ty
    ∧ mp_implementations program = before ++ implementation :: after
    ∧ Forall (λ other, hi_trait_id other = Some trait_id →
                ∀ m, ¬ matches m (hi_target other) (receiver_of ty)) before
    ∧ hi_trait_id implementation = Some trait_id
    ∧ least (λ m, matches m (hi_target implementation) (receiver_of ty)) m
    ∧ hi_methods implementation !! method = Some (fi_function j)
    ∧ assigns m (hi_generic_parameters implementation) (fi_substitutions j).

(** The instance a place needs.  A closure has the type parameters of the function it is
    in. *)
Definition dispatches (s : Site) (j : FunctionInstance) : Prop :=
  match s with
  | AtValue function => ∃ g, mp_functions program !! function = Some g
      ∧ mf_generic_parameters g = [] ∧ j = mkFunctionInstance (mf_id g) []
  | AtClosure function => ∃ g, mp_functions program !! function = Some g
      ∧ j = mkFunctionInstance (mf_id g) (fi_substitutions i)
  | AtCall (CTFunction function) substitutions arguments =>
      dispatches_call function substitutions arguments j
  | AtCall (CTTraitMethod trait_id method) _ arguments =>
      dispatches_trait trait_id method arguments j
  | AtCall _ _ _ => False
  end.
End caller.

Definition refers (i j : FunctionInstance) : Prop :=
  ∃ f s, mp_functions program !! fi_function i = Some f ∧ s ∈ function_sites f
    ∧ dispatches f i s j.

(** [main] is the first function of that name. *)
Definition root (r : FunctionInstance) : Prop :=
  (∃ before main after, mp_functions program = before ++ main :: after
     ∧ Forall (λ f, mf_name f ≠ "main") before ∧ mf_name main = "main"
     ∧ r = mkFunctionInstance (mf_id main) [])
  ∨ (∃ f, f ∈ mp_functions program ∧ mf_exported f = true ∧ r = mkFunctionInstance (mf_id f) []).

Definition needs_instance (i : FunctionInstance) : Prop := ∃ r, root r ∧ rtc refers r i.

(** An instance that cannot be made: of no function, with the wrong number of types, or
    with a place that dispatches nowhere. *)
Definition broken (i : FunctionInstance) : Prop :=
  match mp_functions program !! fi_function i with
  | None => True
  | Some f =>
    length (mf_generic_parameters f) ≠ length (fi_substitutions i)
    ∨ ∃ s, s ∈ function_sites f ∧ needs_body s = true ∧ ∀ j, ¬ dispatches f i s j
  end.
End dispatch.

(** ** Calls *)

Lemma supplied_types_known names supplied :
  supplied_bindings names supplied
  = list_to_map (List.filter (λ row, negb (is_generic row.2)) (reverse (zip names supplied))).
Proof.
  unfold supplied_bindings. generalize (zip names supplied). intros rows.
  induction rows as [|[x ty] rows IH] using rev_ind; [done|].
  rewrite foldl_app, reverse_snoc. cbn [foldl fst snd]. rewrite IH. cbn [List.filter snd].
  by destruct (is_generic ty).
Qed.

Lemma matches_mono p c m m' : matches m p c → m ⊆ m' → matches m' p c.
Proof. intros Hm Hsub. by apply (match_type_least p c m). Qed.

Lemma least_unique P m m' : least P m → least P m' → m = m'.
Proof.
  intros [H1 H2] [H1' H2']. apply (anti_symm (⊆)); [by apply H2|by apply H2'].
Qed.

Lemma assigns_unique m names tys tys' : assigns m names tys → assigns m names tys' → tys = tys'.
Proof.
  intros H. revert tys'. induction H as [|x ty names tys Hx _ IH]; intros tys' H'.
  - by inversion H'.
  - inversion H'; subst. simplify_eq. f_equal. by apply IH.
Qed.

Lemma first_unique {A} (Q : A → Prop) b1 x1 a1 b2 x2 a2 :
  b1 ++ x1 :: a1 = b2 ++ x2 :: a2 →
  Forall (λ x, ¬ Q x) b1 → Forall (λ x, ¬ Q x) b2 → Q x1 → Q x2 → b1 = b2 ∧ x1 = x2 ∧ a1 = a2.
Proof.
  revert b2. induction b1 as [|y b1 IH]; intros [|z b2] Heq H1 H2 Hx1 Hx2; simplify_eq/=; [done|..].
  - by apply Forall_cons in H2 as [? _].
  - by apply Forall_cons in H1 as [? _].
  - apply Forall_cons in H1 as [_ H1], H2 as [_ H2].
    destruct (IH b2) as (-> & -> & ->); done.
Qed.

Lemma lookup_all_assigns message names m :
  match lookup_all message names m with
  | Ok tys => assigns m names tys
  | Err e => e = mono_error message ∧ ∀ tys, ¬ assigns m names tys
  | Panic => False
  end.
Proof.
  induction names as [|x names IH]; simpl; [constructor|].
  destruct (m !! x) as [ty|] eqn:Hx; simpl.
  - destruct (lookup_all message names m) as [tys|e|]; simpl; [by constructor| |done].
    destruct IH as [-> IH]. split; [done|]. intros tys H. inversion H; subst. by eapply IH.
  - split; [done|]. intros tys H. inversion H; subst. congruence.
Qed.

Section sites.
Context (program : MProgram).

Definition fits (f : MFunction) (σ : gmap string Ty) (rows : list (MLocal * Operand))
    (m : gmap string Ty) : Prop :=
  ∀ local argument ty, (local, argument) ∈ rows → operand_type program f argument = Some ty →
    matches m (ml_ty local) (substitute ty σ).

Lemma infer_least f σ rows m0 :
  match for_each (infer_argument program f σ) rows m0 with
  | Ok m => least (λ m, m0 ⊆ m ∧ fits f σ rows m) m
  | Err e => e ≠ Diverges ∧ ∀ m, m0 ⊆ m → ¬ fits f σ rows m
  | Panic => False
  end.
Proof.
  unfold least. cbv beta.
  revert m0. induction rows as [|[local argument] rows IH]; intros m0; simpl.
  { assert (∀ m, fits f σ [] m) as Hnil by (by intros m local argument ty []%not_elem_of_nil).
    split; [by split|]. intros m' Hm'. apply Hm'. }
  assert (∀ m, fits f σ ((local, argument) :: rows) m ↔
    (∀ ty, operand_type program f argument = Some ty →
       matches m (ml_ty local) (substitute ty σ)) ∧ fits f σ rows m) as Hcons.
  { intros m. unfold fits. setoid_rewrite elem_of_cons. naive_solver. }
  replace (infer_argument program f σ m0 (local, argument)) with
    (match operand_type program f argument with
     | Some ty => let '(b, m) := match_type (ml_ty local) (substitute ty σ) m0 in
         if b then Ok m else Err (mono_error "call arguments do not match during monomorphization")
     | None => Ok m0
     end) by done.
  destruct (operand_type program f argument) as [ty|] eqn:Hty; simpl.
  - destruct (match_type_least (ml_ty local) (substitute ty σ) m0) as (H1 & H2 & _).
    destruct (match_type (ml_ty local) (substitute ty σ) m0) as [ [] m1]; simpl.
    + destruct (H1 m1 eq_refl) as [Hsub Hm1]. specialize (IH m1).
      destruct (for_each (infer_argument program f σ) rows m1) as [m|e|]; [| |done].
      * destruct IH as [ [Hm Hfits] Hleast]. split.
        -- split; [by etransitivity|]. apply Hcons. split; [|done].
           intros ty' [= <-]. by eapply matches_mono.
        -- intros m' [Hm' [Hty' Hfits']%Hcons]. apply Hleast. split; [|done].
           destruct (H2 m' Hm' (Hty' ty eq_refl)) as (m'' & [= <-] & ?). done.
      * destruct IH as [Hne Hno]. split; [done|]. intros m' Hm' [Hty' Hfits']%Hcons.
        apply (Hno m'); [|done]. by destruct (H2 m' Hm' (Hty' ty eq_refl)) as (m'' & [= <-] & ?).
    + split; [done|]. intros m' Hm' [Hty' _]%Hcons.
      by destruct (H2 m' Hm' (Hty' ty eq_refl)) as (m'' & ? & _).
  - specialize (IH m0). destruct (for_each (infer_argument program f σ) rows m0) as [m|e|]; [| |done].
    + destruct IH as [ [Hm Hfits] Hleast]. split.
      * split; [done|]. by apply Hcons.
      * intros m' [Hm' [_ Hfits']%Hcons]. by apply Hleast.
    + destruct IH as [Hne Hno]. split; [done|]. intros m' Hm' [_ Hfits']%Hcons. by eapply Hno.
Qed.

(** What a result of [resolve_target] says about the instances a place dispatches to. *)
Definition decides_dispatch (D : FunctionInstance → Prop)
    (r : outcome failure (option FunctionInstance)) : Prop :=
  match r with
  | Ok (Some j) => ∀ j', D j' ↔ j' = j
  | Ok None => False
  | Err e => e ≠ Diverges ∧ ∀ j, ¬ D j
  | Panic => False
  end.

Lemma call_decides f i function substitutions arguments :
  decides_dispatch (dispatches_call program f i function substitutions arguments)
    (resolve_target program f i (CTFunction function) substitutions arguments).
Proof.
  simpl. unfold dispatches_call.
  destruct (mp_functions program !! function) as [callee|] eqn:Hcallee; simpl.
  2:{ split; [done|]. by intros j (callee & ? & _). }
  change (map (λ ty, substitute ty (mapping f i)) substitutions)
    with (map (at_instance f i) substitutions).
  set (supplied := map (at_instance f i) substitutions).
  assert (forallb (λ ty, negb (is_generic ty)) supplied = true
          ↔ Forall (λ ty, is_generic ty = false) supplied) as Hconcrete.
  { rewrite forallb_forall, Forall_forall. setoid_rewrite list_elem_of_In.
    setoid_rewrite negb_true_iff. done. }
  destruct (forallb (λ ty, negb (is_generic ty)) supplied).
  - simpl. intros j. split; [|by intros ->; exists callee; naive_solver].
    intros (callee' & _ & Hf & [ [_ Hs]|[Hno _] ]); [|naive_solver]. destruct j; naive_solver.
  - assert (¬ Forall (λ ty, is_generic ty = false) supplied) as Hnot by (intros ?%Hconcrete; done).
    pose proof (infer_least f (mapping f i)
      (zip (List.filter is_argument (mf_locals callee)) arguments)
      (supplied_bindings (mf_generic_parameters callee) supplied)) as Hinfer.
    assert (∀ m, call_agrees program f i callee supplied arguments m
      ↔ supplied_bindings (mf_generic_parameters callee) supplied ⊆ m
        ∧ fits f (mapping f i) (zip (List.filter is_argument (mf_locals callee)) arguments) m)
      as Hagrees by (intros m; by rewrite supplied_types_known).
    destruct (for_each _ _ (supplied_bindings _ supplied)) as [m|e|]; simpl; [| |done].
    2:{ destruct Hinfer as [He Hno]. split; [done|].
        intros j (callee' & [= <-] & _ & [ [? _]|(_ & m & [ [? ?]%Hagrees _] & _)]); [done|].
        by apply (Hno m). }
    assert (least (call_agrees program f i callee supplied arguments) m) as Hleast.
    { destruct Hinfer as [Hm Hl]. split; [by apply Hagrees|]. intros m' Hm'%Hagrees. by apply Hl. }
    pose proof (lookup_all_assigns "generic call did not infer all type parameters"
      (mf_generic_parameters callee) m) as Hall.
    destruct (lookup_all _ _ m) as [tys|e|]; simpl; [| |done].
    + intros j. split.
      * intros (callee' & [= <-] & Hf & [ [? _]|(_ & m' & Hm' & Ha)]); [done|].
        rewrite (least_unique _ _ _ Hm' Hleast) in Ha. destruct j as [jf js]; simpl in *.
        by rewrite Hf, (assigns_unique _ _ _ _ Ha Hall).
      * intros ->. exists callee. split_and!; [done|done|]. right. split; [done|]. by exists m.
    + destruct Hall as [-> Hno]. split; [done|].
      intros j (callee' & [= <-] & Hf & [ [? _]|(_ & m' & Hm' & Ha)]); [done|].
      rewrite (least_unique _ _ _ Hm' Hleast) in Ha. by eapply Hno.
Qed.

Lemma implementation_decides f i trait_id method arguments argument ty implementations :
  head arguments = Some argument → operand_type program f argument = Some ty →
  ∀ done, mp_implementations program = done ++ implementations →
  Forall (λ other, hi_trait_id other = Some trait_id →
            ∀ m, ¬ matches m (hi_target other) (receiver_of f i ty)) done →
  decides_dispatch (dispatches_trait program f i trait_id method arguments)
    (find_implementation trait_id method (receiver_of f i ty) implementations).
Proof.
  intros Hhead Hty. induction implementations as [|impl implementations IH]; intros before Himpls Hbefore.
  { split; [done|]. intros j (argument' & ty' & b & impl & a & m & Hh & Ht & Hi & _ & Htrait & [Hm _] & _).
    rewrite Hhead in Hh. injection Hh as <-. rewrite Hty in Ht. injection Ht as <-.
    rewrite app_nil_r in Himpls. rewrite <- Himpls, Hi in Hbefore. apply Forall_app in Hbefore as [_ [Hx _]%Forall_cons]. by apply (Hx Htrait m). }
  cbn [find_implementation]. case_bool_decide as Htrait.
  - pose proof (match_type_least (hi_target impl) (receiver_of f i ty) ∅) as (H1 & H2 & _).
    destruct (match_type (hi_target impl) (receiver_of f i ty) ∅) as [ [] m] eqn:Hmatch.
    + destruct (H1 m eq_refl) as [_ Hm].
      assert (least (λ m, matches m (hi_target impl) (receiver_of f i ty)) m) as Hleast.
      { split; [done|]. intros m' Hm'.
        destruct (H2 m' (map_empty_subseteq _) Hm') as (m'' & [= <-] & ?). done. }
      assert (∀ j, dispatches_trait program f i trait_id method arguments j
        ↔ hi_methods impl !! method = Some (fi_function j)
          ∧ assigns m (hi_generic_parameters impl) (fi_substitutions j)) as Hiff.
      { intros j. split.
        - intros (argument' & ty' & b & impl' & a & m' & Hh & Ht & Hi & Hb & Htr & Hl & Hmeth & Ha).
          rewrite Hhead in Hh. injection Hh as <-. rewrite Hty in Ht. injection Ht as <-.
          rewrite Himpls in Hi. apply (first_unique (λ other, hi_trait_id other = Some trait_id ∧
            ∃ m, matches m (hi_target other) (receiver_of f i ty))) in Hi as (_ & <- & _).
          + by rewrite (least_unique _ _ _ Hleast Hl).
          + eapply Forall_impl; [exact Hbefore|]. intros other Hno [Ho [mo Hmo] ]. by eapply Hno.
          + eapply Forall_impl; [exact Hb|]. intros other Hno [Ho [mo Hmo] ]. by eapply Hno.
          + eauto.
          + destruct Hl. eauto.
        - intros [Hmeth Ha]. exists argument, ty, before, impl, implementations, m. done. }
      destruct (hi_methods impl !! method) as [target|] eqn:Hmeth; simpl.
      2:{ split; [done|]. intros j [? _]%Hiff. congruence. }
      pose proof (lookup_all_assigns "generic trait implementation did not infer all parameters"
        (hi_generic_parameters impl) m) as Hall.
      destruct (lookup_all _ _ m) as [tys|e|]; simpl; [| |done].
      * intros j. rewrite Hiff. split; [|by intros ->].
        intros [ [= Hf] Ha]. destruct j as [jf js]; simpl in *.
        by rewrite Hf, (assigns_unique _ _ _ _ Ha Hall).
      * destruct Hall as [-> Hno]. split; [done|]. intros j [_ Ha]%Hiff. by eapply Hno.
    + apply (IH (before ++ [impl])); [by rewrite <- app_assoc|]. apply Forall_app. split; [done|].
      apply Forall_singleton. intros _ m' Hm'.
      by destruct (H2 m' (map_empty_subseteq _) Hm') as (m'' & ? & _).
  - apply (IH (before ++ [impl])); [by rewrite <- app_assoc|]. apply Forall_app. split; [done|].
    by apply Forall_singleton.
Qed.

(** ** Bodies *)

Section body.
Context (f : MFunction) (i : FunctionInstance).

(** [rs] are the instances the places need, and every place that needs one has one. *)
Definition covers (ss : list Site) (rs : list FunctionInstance) : Prop :=
  (∀ j, j ∈ rs ↔ ∃ s, s ∈ ss ∧ dispatches program f i s j)
  ∧ ∀ s, s ∈ ss → needs_body s = true → ∃ j, dispatches program f i s j.

Definition stuck (ss : list Site) : Prop :=
  ∃ s, s ∈ ss ∧ needs_body s = true ∧ ∀ j, ¬ dispatches program f i s j.

(** A loop body that appends the instances of some places to the queue. *)
Definition finds (ss : list Site) (q : list FunctionInstance)
    (r : outcome failure (list FunctionInstance)) : Prop :=
  match r with
  | Ok q' => ∃ rs, q' = q ++ rs ∧ covers ss rs
  | Err e => e ≠ Diverges ∧ stuck ss
  | Panic => False
  end.

Lemma covers_nil : covers [] [].
Proof. split; [|by intros s ?%not_elem_of_nil]. intros j. set_solver. Qed.

Lemma covers_app ss1 rs1 ss2 rs2 :
  covers ss1 rs1 → covers ss2 rs2 → covers (ss1 ++ ss2) (rs1 ++ rs2).
Proof.
  intros [H1 N1] [H2 N2]. split.
  - intros j. rewrite elem_of_app, H1, H2. setoid_rewrite elem_of_app. naive_solver.
  - intros s [?|?]%elem_of_app; auto.
Qed.

Lemma stuck_app ss1 ss2 : stuck ss1 ∨ stuck ss2 → stuck (ss1 ++ ss2).
Proof. intros [(s & Hs & H)|(s & Hs & H)]; exists s; rewrite elem_of_app; auto. Qed.

Lemma finds_for_each {A} (sites : A → list Site) body l q :
  (∀ q a, finds (sites a) q (body q a)) → finds (flat_map sites l) q (for_each body l q).
Proof.
  intros Hb. revert q. induction l as [|a l IH]; intros q; simpl.
  { exists []. split; [by rewrite app_nil_r|apply covers_nil]. }
  specialize (Hb q a). destruct (body q a) as [q'|e|]; simpl in *; [| |done].
  - destruct Hb as (rs & -> & Hrs). specialize (IH (q ++ rs)).
    destruct (for_each body l (q ++ rs)) as [q''|e|]; [| |done].
    + destruct IH as (rs' & -> & Hrs'). exists (rs ++ rs'). rewrite (assoc_L (++)).
      split; [done|by apply covers_app].
    + destruct IH as [? ?]. split; [done|]. apply stuck_app. by right.
  - destruct Hb as [? ?]. split; [done|]. apply stuck_app. by left.
Qed.

Lemma statement_finds q st : finds (statement_sites st) q (statement_references program i q st).
Proof.
  unfold statement_references, statement_sites.
  assert (finds [] q (Ok q)) as Hnone.
  { exists []. split; [by rewrite app_nil_r|apply covers_nil]. }
  destruct (ms_kind st); try done. destruct value; try done.
  - destruct (mp_functions program !! function) as [g|] eqn:Hg; simpl.
    2:{ split; [done|]. exists (AtValue function). split_and!; [left|done|]. naive_solver. }
    case_bool_decide as Hgen; simpl.
    + eexists. split; [done|]. split.
      * intros j. rewrite list_elem_of_singleton. setoid_rewrite list_elem_of_singleton. naive_solver.
      * intros s Hs _. apply list_elem_of_singleton in Hs. subst s. simpl. eauto.
    + split; [done|]. exists (AtValue function). split_and!; [left|done|]. simpl. naive_solver.
  - destruct (mp_functions program !! function) as [g|] eqn:Hg; simpl.
    2:{ split; [done|]. exists (AtClosure function). split_and!; [left|done|]. naive_solver. }
    eexists. split; [done|]. split.
    + intros j. rewrite list_elem_of_singleton. setoid_rewrite list_elem_of_singleton. naive_solver.
    + intros s Hs _. apply list_elem_of_singleton in Hs. subst s. simpl. eauto.
Qed.

(** The places of a call. *)
Lemma target_finds target substitutions arguments :
  match resolve_target program f i target substitutions arguments with
  | Ok next => covers [AtCall target substitutions arguments] (option_list next)
  | Err e => e ≠ Diverges ∧ stuck [AtCall target substitutions arguments]
  | Panic => False
  end.
Proof.
  assert (∀ (D : FunctionInstance → Prop) r s, decides_dispatch D r →
    (∀ j, D j ↔ dispatches program f i s j) → needs_body s = true →
    match r with
    | Ok next => covers [s] (option_list next)
    | Err e => e ≠ Diverges ∧ stuck [s]
    | Panic => False
    end) as Hgen.
  { intros D r s Hd HD Hs. destruct r as [ [j|]|e|]; simpl in *; [|done| |done].
    - split.
      + intros j'. rewrite list_elem_of_singleton. setoid_rewrite list_elem_of_singleton.
        rewrite <- Hd, HD. naive_solver.
      + intros s' Hs' _. apply list_elem_of_singleton in Hs'. subst s'. exists j. by apply HD, Hd.
    - destruct Hd as [He Hno]. split; [done|]. exists s. split_and!; [left|done|].
      intros j Hj%HD. by eapply Hno. }
  destruct target; simpl resolve_target;
    try (split; [intros j; setoid_rewrite list_elem_of_singleton; simpl; set_solver|];
         intros s Hs Hn; apply list_elem_of_singleton in Hs; by subst s).
  - eapply (Hgen _ _ _ (call_decides f i function substitutions arguments)); done.
  - destruct (head arguments) as [argument|] eqn:Hhead; simpl.
    2:{ split; [done|]. eexists. split_and!; [left|done|]. simpl.
        intros j (argument & ? & ? & ? & ? & ? & Hh & _). congruence. }
    destruct (operand_type program f argument) as [ty|] eqn:Hty; simpl.
    2:{ split; [done|]. eexists. split_and!; [left|done|]. simpl.
        intros j (argument' & ty' & ? & ? & ? & ? & Hh & Ht & _). simplify_eq. }
    match goal with |- context [find_implementation _ _ ?r _] =>
      replace r with (receiver_of f i ty)
        by (unfold receiver_of, at_instance, mapping; by destruct (substitute _ _)) end.
    eapply (Hgen _ _ (AtCall (CTTraitMethod trait_id method) substitutions arguments)
      (implementation_decides f i trait_id method arguments argument ty
         (mp_implementations program) Hhead Hty [] eq_refl (Forall_nil_2 _))); done.
Qed.

Lemma terminator_finds t :
  match terminator_references program f i t with
  | Ok rs => covers (terminator_sites t) rs
  | Err e => e ≠ Diverges ∧ stuck (terminator_sites t)
  | Panic => False
  end.
Proof.
  unfold terminator_references, terminator_sites. destruct t; try apply covers_nil.
  - pose proof (target_finds target substitutions arguments) as H.
    by destruct (resolve_target _ _ _ _ _ _).
  - pose proof (target_finds (CTFunction target) substitutions arguments) as H.
    by destruct (resolve_target _ _ _ _ _ _).
Qed.

Lemma block_finds q b :
  finds (flat_map statement_sites (bb_statements b) ++ terminator_sites (bb_terminator b)) q
    (block_references program f i q b).
Proof.
  unfold block_references.
  pose proof (finds_for_each statement_sites (statement_references program i) (bb_statements b) q
    statement_finds) as Hs.
  destruct (for_each _ _ q) as [q'|e|]; simpl; [| |done].
  - destruct Hs as (rs & -> & Hrs). pose proof (terminator_finds (bb_terminator b)) as Ht.
    destruct (terminator_references _ _ _ _) as [rs'|e|]; simpl; [| |done].
    + exists (rs ++ rs'). rewrite (assoc_L (++)). split; [done|by apply covers_app].
    + destruct Ht. split; [done|]. apply stuck_app. by right.
  - destruct Hs. split; [done|]. apply stuck_app. by left.
Qed.
End body.

Lemma expand_finds i :
  match expand_instance program i [] with
  | Ok rs => ¬ broken program i ∧ ∀ j, j ∈ rs ↔ refers program i j
  | Err e => e ≠ Diverges ∧ broken program i
  | Panic => False
  end.
Proof.
  unfold expand_instance, broken, refers.
  destruct (mp_functions program !! fi_function i) as [f|]; simpl; [|done].
  destruct (Nat.eqb_spec (length (mf_generic_parameters f)) (length (fi_substitutions i)))
    as [Hl|Hl]; [|by auto].
  pose proof (finds_for_each f i (λ b, flat_map statement_sites (bb_statements b)
    ++ terminator_sites (bb_terminator b)) (block_references program f i) (mf_blocks f) []
    (block_finds f i)) as H. fold (function_sites f) in H.
  destruct (for_each _ _ []) as [rs|e|]; [| |done].
  - destruct H as (rs' & -> & [Hc Hn]). simpl. split.
    + intros [?|(s & Hs & Hb & Hno)]; [done|]. destruct (Hn s Hs Hb) as [j Hj]. by eapply Hno.
    + intros j. rewrite Hc. naive_solver.
  - destruct H. auto.
Qed.
End sites.

(** ** The worklist *)

Lemma root_initial program entry r :
  collect_entry program = Ok entry → r ∈ initial_queue program entry ↔ root program r.
Proof.
  unfold collect_entry, initial_queue, root.
  destruct (List.find _ (mp_functions program)) as [main|] eqn:Hfind; [|done].
  intros [= <-]. rewrite elem_of_cons, list_elem_of_fmap. setoid_rewrite list_elem_of_In.
  setoid_rewrite filter_In. setoid_rewrite <- list_elem_of_In.
  assert (∃ before after, mp_functions program = before ++ main :: after
    ∧ Forall (λ f, mf_name f ≠ "main") before ∧ mf_name main = "main") as (b & a & Hp & Hb & Hm).
  { revert Hfind. generalize (mp_functions program). intros fs.
    induction fs as [|g fs IH]; simpl; [done|].
    destruct (String.eqb_spec (mf_name g) "main") as [Hg|Hg].
    - intros [= <-]. by exists [], fs.
    - intros (b & a & -> & Hb & Hm)%IH. exists (g :: b), a. split_and!; [done| |done].
      by constructor. }
  split.
  - intros [->|(g & -> & Hg & He)]; [left|right; eauto]. eauto 8.
  - intros [(b' & main' & a' & Hp' & Hb' & Hm' & ->)|(g & Hg & He & ->)]; [left|right; eauto].
    rewrite Hp in Hp'. by apply (first_unique (λ f, mf_name f = "main")) in Hp' as (_ & -> & _).
Qed.

Lemma references_refers program i j :
  references program i j ↔ refers program i j ∧ ¬ broken program i.
Proof.
  unfold references. pose proof (expand_finds program i) as H.
  destruct (expand_instance program i []) as [rs|e|]; [| |done].
  - destruct H as [Hb Hrs]. split; [|intros [Hj _]; exists rs; by rewrite Hrs].
    intros (rs' & [= <-] & Hj). by rewrite <- Hrs.
  - destruct H as [_ Hb]. split; [by intros (rs & ? & _)|by intros [_ ?] ].
Qed.

Lemma needed_needs program entry i :
  collect_entry program = Ok entry → needed program (initial_queue program entry) i →
  needs_instance program i.
Proof.
  intros Hentry (r & Hr & Hi). exists r. split; [by apply (root_initial program entry)|].
  clear Hr. induction Hi as [|i j k Hij _ IH]; [done|]. eapply rtc_l; [|exact IH].
  by apply references_refers.
Qed.

(** C32: From [main] and the exported functions the worklist always finishes.  It returns
    every instance the program needs exactly once and nothing else, within the limit, and
    each of them can be made; it fails only when there is no [main], when some instance that
    is needed cannot be made (its function does not exist, its types are too many or too
    few, or a place of its body dispatches nowhere), or when more instances are needed than
    the limit allows. *)
Theorem instances_exact (program : MProgram) :
  match collect_entry program ≫= collect_instances program with
  | Ok l =>
    NoDup l ∧ zlen l <= MAX_MONOMORPHIZATIONS ∧ (∀ i, i ∈ l ↔ needs_instance program i)
    ∧ ∀ i, i ∈ l → ¬ broken program i
  | Err e =>
    e ≠ Diverges ∧
    ((∀ f, f ∈ mp_functions program → mf_name f ≠ "main")
     ∨ (∃ i, needs_instance program i ∧ broken program i)
     ∨ ∃ l, NoDup l ∧ MAX_MONOMORPHIZATIONS < zlen l ∧ Forall (needs_instance program) l)
  | Panic => False
  end.
Proof.
  destruct (collect_entry program) as [entry|e|] eqn:Hentry; simpl.
  - pose proof (collect_instances_spec program entry) as H. simpl in H.
    destruct (collect_instances program entry) as [l|e|]; [| |done].
    + destruct H as (Hnd & Hlim & Hl & Hexp).
      assert (∀ i, i ∈ l → ¬ broken program i) as Hok.
      { intros i Hi. destruct (Hexp i Hi) as [rs Hrs]. pose proof (expand_finds program i) as He.
        rewrite Hrs in He. apply He. }
      split_and!; [done|done| |done]. intros i. split.
      * intros Hi%Hl. by eapply needed_needs.
      * intros (r & Hr & Hri). apply (root_initial program entry r Hentry) in Hr.
        assert (r ∈ l) as Hin by (apply Hl; exists r; split; [done|apply rtc_refl]). clear Hr.
        induction Hri as [|i j k Hij _ IH]; [done|]. apply IH, Hl.
        apply Hl in Hin as Hn. destruct Hn as (r & Hr & Hri). exists r. split; [done|].
        eapply rtc_r; [exact Hri|]. apply references_refers. auto.
    + destruct H as [Hd [ [_ (l & Hnd & Hlim & Hall)]|(i & Hi & He)] ]; (split; [done|]).
      * right. right. exists l. split_and!; [done|done|]. eapply Forall_impl; [exact Hall|].
        intros i Hi. by eapply needed_needs.
      * right. left. exists i. split; [by eapply needed_needs|].
        pose proof (expand_finds program i) as H. rewrite He in H. apply H.
  - unfold collect_entry in Hentry.
    destruct (List.find _ (mp_functions program)) as [main|] eqn:Hfind; [done|].
    injection Hentry as <-. split; [done|]. left. intros f Hf Hname.
    apply list_elem_of_In in Hf. pose proof (List.find_none _ _ Hfind f Hf) as Hn. simpl in Hn.
    by rewrite Hname in Hn.
  - unfold collect_entry in Hentry. by destruct (List.find _ _).
Qed.
