(* ===== verification/MonoCollect.v ===== *)
(** * The types monomorphization collects are closed

    Every type a collected instance mentions is recorded together with all the types its
    values are made of, none of which is generic or unknown. *)

From stdpp Require Import relations.
From S2P Require Import Prelude Machine Utf8 Diagnostics StateM Limits Ast Hir Mir Layout.
From S2P Require Import Mono MonoProps.
#[local] Open Scope string_scope.
#[local] Open Scope list_scope.
#[local] Open Scope Z_scope.

Section types.
Context (program : MProgram).

(** The types a type is made of; [None] for a type that must not reach the backend. *)
Definition type_children (ty : Ty) : option (list Ty) :=
  match ty with
  | TStruct id args =>
      d ← mp_structs program !! id;
      Some (map (λ f, substitute (hf_ty f) (type_arguments_of (hs_generic_parameters d) args))
              (hs_fields d))
  | TEnum id args =>
      d ← mp_enums program !! id;
      Some (concat (map (λ v, map (λ t, substitute t
              (type_arguments_of (he_generic_parameters d) args)) (hv_payload v))
              (he_variants d)))
  | TOption t | TArray t _ | TSlice t | TList t | TSet t | TThread t | TFuture t | TTask t
  | TMutex t | TMutexGuard t | TChannel t | TReference _ t | TRawPointer _ t
  | TMemoryPointer _ t => Some [t]
  | TResult t u | TMap t u => Some [t; u]
  | TFunction ts t | TCFunction ts t => Some (ts ++ [t])
  | TGeneric name => if bool_decide (name ∈ mono_generic_names program) then None else Some []
  | TUnknown => None
  | _ => Some []
  end.

(** The types that get a declaration of their own. *)
Definition recorded (ty : Ty) : bool :=
  match ty with
  | TStruct _ _ | TEnum _ _ | TOption _ | TResult _ _ | TArray _ _ | TSlice _ | TList _
  | TMap _ _ | TSet _ => true
  | _ => false
  end.

Definition made_of (t u : Ty) : Prop := ∃ us, type_children t = Some us ∧ u ∈ us.

Lemma for_each_concat {A B S} (body : S → B → outcome failure S) (f : A → list B) l s :
  for_each body (concat (map f l)) s = for_each (λ s a, for_each body (f a) s) l s.
Proof.
  revert s. induction l as [|a l IH]; intros s; simpl; [done|]. rewrite for_each_app.
  destruct (for_each body (f a) s); simpl; auto.
Qed.

Lemma for_each_map {A B S} (body : S → B → outcome failure S) (f : A → B) l s :
  for_each body (map f l) s = for_each (λ s a, body s (f a)) l s.
Proof.
  revert s. induction l as [|a l IH]; intros s; simpl; [done|].
  destruct (body s (f a)); simpl; auto.
Qed.

(** One step of [collect_type], in terms of the parts of the type. *)
Lemma collect_type_step fuel types ty types' :
  collect_type program (S fuel) types ty = Ok types' →
  (recorded ty = true ∧ mkTypeInstance ty ∈ types ∧ types' = types) ∨
  ∃ us, type_children ty = Some us ∧ (recorded ty = true → mkTypeInstance ty ∉ types) ∧
    for_each (collect_type program fuel) us
      (if recorded ty then set_insert type_instance_compare (mkTypeInstance ty) types else types)
    = Ok types'.
Proof.
  assert (Hrec : ∀ more, record_type ty more types = Ok types' →
    (mkTypeInstance ty ∈ types ∧ types' = types) ∨
    (mkTypeInstance ty ∉ types ∧
     more (set_insert type_instance_compare (mkTypeInstance ty) types) = Ok types')).
  { intros more. unfold record_type.
    pose proof (set_contains_spec type_instance_compare type_instance_compare_eq
      (mkTypeInstance ty) types) as Hc.
    destruct (set_contains _ _ _); [intros [= <-]; naive_solver|].
    intros H. right. split; [|done]. intros Hin%Hc. done. }
  cbn [collect_type].
  destruct ty; cbn [recorded type_children]; intros H;
    first [ apply Hrec in H as [[? ->]|[Hn H]]; [by left|]; right
          | right ];
    try (eexists; split_and!; [reflexivity|done|exact H]);
    try (eexists; split_and!; [reflexivity|done|]; simpl;
         first [ by rewrite H | (inv_ok H; by rewrite Hv; simpl; rewrite H) ]).
  - destruct (mp_structs program !! id) as [d|]; [|done]. eexists.
    split_and!; [reflexivity|done|]. by rewrite for_each_map.
  - destruct (mp_enums program !! id) as [d|]; [|done]. eexists.
    split_and!; [reflexivity|done|]. rewrite for_each_concat. simpl in H. rewrite <- H.
    apply for_each_ext. intros s v. apply for_each_map.
  - case_bool_decide; [done|]. eexists. split_and!; [reflexivity|done|exact H].
  - inv_ok H. eexists. split_and!; [reflexivity|done|]. rewrite for_each_app, Hv. simpl.
    by rewrite H.
  - inv_ok H. eexists. split_and!; [reflexivity|done|]. rewrite for_each_app, Hv. simpl.
    by rewrite H.
  - done.
Qed.

(** [u] needs nothing that is not in [types]. *)
Inductive handled (types : list TypeInstance) : Ty → Prop :=
| handled_recorded u : recorded u = true → mkTypeInstance u ∈ types → handled types u
| handled_through u us : recorded u = false → type_children u = Some us →
    Forall (handled types) us → handled types u.

Lemma handled_mono types types' u : types ⊆ types' → handled types u → handled types' u.
Proof.
  intros Hsub. revert u. fix IH 2. intros u [u' Hr Hu|u' us Hr Hus Hall].
  - apply handled_recorded; [done|]. by apply Hsub.
  - apply (handled_through _ _ us); [done|done|]. clear Hus.
    induction Hall as [|v vs Hv Hvs IHvs]; constructor; [exact (IH v Hv)|exact IHvs].
Qed.

(** [x] was found below one of [roots], and everything below it is handled. *)
Definition found (types : list TypeInstance) (roots : list Ty) (x : TypeInstance) : Prop :=
  recorded (ti_ty x) = true ∧ (∃ r, r ∈ roots ∧ rtc made_of r (ti_ty x)) ∧
  ∃ us, type_children (ti_ty x) = Some us ∧ Forall (handled types) us.

Lemma found_mono types types' roots roots' x :
  types ⊆ types' → (∀ r, r ∈ roots → ∃ r', r' ∈ roots' ∧ rtc made_of r' r) →
  found types roots x → found types' roots' x.
Proof.
  intros Hsub Hroots (Hr & (r & Hr1 & Hr2) & us & Hus & Hall). split; [done|]. split.
  - destruct (Hroots r Hr1) as (r' & Hr' & Hrr). exists r'. split; [done|]. by etransitivity.
  - exists us. split; [done|]. eapply Forall_impl; [exact Hall|]. intros. by eapply handled_mono.
Qed.

(** What a traversal from [roots] adds to [types]. *)
Definition traversed (types : list TypeInstance) (roots : list Ty) (types' : list TypeInstance)
    : Prop :=
  types ⊆ types' ∧ Forall (handled types') roots ∧
  ∀ x, x ∈ types' → x ∈ types ∨ found types' roots x.

Lemma traversed_nil types : traversed types [] types.
Proof. split_and!; [done|constructor|auto]. Qed.

Lemma traversed_app types roots1 types1 roots2 types2 :
  traversed types roots1 types1 → traversed types1 roots2 types2 →
  traversed types (roots1 ++ roots2) types2.
Proof.
  intros (H1 & H2 & H3) (H4 & H5 & H6). split_and!.
  - by etransitivity.
  - apply Forall_app. split; [|done]. eapply Forall_impl; [exact H2|].
    intros. by eapply handled_mono.
  - intros x [Hx|Hx]%H6.
    + apply H3 in Hx as [|Hx]; [by left|right]. eapply found_mono; [exact H4| |exact Hx].
      intros r Hr. exists r. split; [set_solver|done].
    + right. eapply found_mono; [reflexivity| |exact Hx].
      intros r Hr. exists r. split; [set_solver|done].
Qed.

Lemma traversed_for_each {A} (body : list TypeInstance → A → outcome failure (list TypeInstance))
    (roots : A → list Ty) l types types' :
  (∀ types a types', a ∈ l → body types a = Ok types' → traversed types (roots a) types') →
  for_each body l types = Ok types' → traversed types (concat (map roots l)) types'.
Proof.
  revert types. induction l as [|a l IH]; intros types Hb; simpl.
  { intros [= <-]. apply traversed_nil. }
  intros H. inv_ok H. eapply traversed_app; [eapply Hb; [set_solver|done]|].
  apply IH; [set_solver|done].
Qed.

Lemma collect_type_traverses fuel types ty types' :
  collect_type program fuel types ty = Ok types' → traversed types [ty] types'.
Proof.
  revert types ty types'. induction fuel as [|fuel IH]; intros types ty types' H; [done|].
  apply collect_type_step in H as [(Hr & Hin & ->)|(us & Hus & Hnew & H)].
  { split_and!; [done| |auto]. apply Forall_singleton. by apply handled_recorded. }
  apply (traversed_for_each _ (λ u, [u])) in H; [|naive_solver].
  assert (Hid : concat (map (λ u : Ty, [u]) us) = us)
    by (clear; induction us; simpl; congruence).
  rewrite Hid in H. destruct H as (H1 & H2 & H3).
  assert (Hbelow : ∀ r, r ∈ us → ∃ r', r' ∈ [ty] ∧ rtc made_of r' r).
  { intros r Hr. exists ty. split; [set_solver|]. apply rtc_once. by exists us. }
  pose proof (elem_of_set_insert type_instance_compare type_instance_compare_eq
    (mkTypeInstance ty)) as Hins.
  destruct (recorded ty) eqn:Hr.
  - split_and!.
    + intros x Hx. apply H1, Hins. by right.
    + apply Forall_singleton, handled_recorded; [done|]. apply H1, Hins. by left.
    + intros x [Hx|Hx]%H3; [|right; exact (found_mono _ _ _ _ _ (reflexivity _) Hbelow Hx)].
      apply Hins in Hx as [->|Hx]; [|by left]. right. split; [done|]. split.
      * exists ty. split; [set_solver|apply rtc_refl].
      * by exists us.
  - split_and!; [done| |].
    + apply Forall_singleton. by apply (handled_through _ _ us).
    + intros x [Hx|Hx]%H3; [by left|right; exact (found_mono _ _ _ _ _ (reflexivity _) Hbelow Hx)].
Qed.

(** Types collected from nothing are closed. *)
Lemma traversed_closed roots types : traversed [] roots types →
  ∀ r u, r ∈ roots → rtc made_of r u →
    type_children u ≠ None ∧ (recorded u = true → mkTypeInstance u ∈ types).
Proof.
  intros (_ & Hroots & Hfound) r u Hr Hu.
  assert (Hcases : ∀ t, handled types t →
    (recorded t = true → mkTypeInstance t ∈ types) ∧
    ∃ us, type_children t = Some us ∧ Forall (handled types) us).
  { intros t [t' Ht Hin|t' us Ht Hus Hall].
    - split; [done|]. by destruct (Hfound _ Hin) as [?%not_elem_of_nil|(_ & _ & ?)].
    - split; [by rewrite Ht|]. eauto. }
  assert (Hh : handled types u).
  { revert u Hu. apply rtc_ind_r; [by eapply Forall_forall in Hroots|].
    intros t u _ (us & Hus & Hin) [_ (us' & Hus' & Hall)]%Hcases.
    rewrite Hus in Hus'. injection Hus' as <-. by eapply Forall_forall in Hall. }
  destruct (Hcases u Hh) as [H1 (us & Hus & _)]. split; [by rewrite Hus|done].
Qed.

Lemma traversed_exact roots types x : traversed [] roots types → x ∈ types →
  recorded (ti_ty x) = true ∧ ∃ r, r ∈ roots ∧ rtc made_of r (ti_ty x).
Proof. intros (_ & _ & H) [?%not_elem_of_nil|(? & ? & _)]%H; done. Qed.
End types.

(** ** The types a function instance mentions *)

Section mentions.
Context (program : MProgram) (function : MFunction) (substitutions : gmap string Ty).

Definition place_mentions (place : MPlace) : list Ty :=
  match projected_place_type program function place with
  | Some ty => [substitute ty substitutions]
  | None => []
  end.
Definition operand_mentions (operand : Operand) : list Ty :=
  match operand with
  | OMove place | OCopy place => place_mentions place
  | OConstant _ => []
  end.
Definition rvalue_mentions (rvalue : Rvalue) : list Ty :=
  match rvalue with
  | RvUse value | RvUnaryOp _ value => operand_mentions value
  | RvCast value target => operand_mentions value ++ [substitute target substitutions]
  | RvBinaryOp _ a b => operand_mentions a ++ operand_mentions b
  | RvClosure _ captures | RvAggregate _ captures => concat (map operand_mentions captures)
  | RvBorrowShared place | RvBorrowMut place | RvRawAddress _ place | RvDiscriminant place
  | RvLen place => place_mentions place
  | RvFunction _ => []
  end.
Definition statement_mentions (statement : MStatement) : list Ty :=
  match ms_kind statement with
  | MAssign place rvalue => place_mentions place ++ rvalue_mentions rvalue
  | MDrop place _ => place_mentions place
  | _ => []
  end.
Definition terminator_mentions (terminator : Terminator) : list Ty :=
  match terminator with
  | SwitchBool condition _ _ | SwitchValue condition _ _ | SwitchEnum condition _ _ =>
    operand_mentions condition
  | TCall target arguments destination _ _ _ _ =>
    concat (map operand_mentions arguments) ++ place_mentions destination
    ++ match target with
       | CTData plan =>
         match mp_data_plans program !! plan with
         | Some plan => [TStruct (plan_schema plan) []]
         | None => []
         end
       | _ => []
       end
  | TSpawn _ arguments destination _ _ _ =>
    concat (map operand_mentions arguments) ++ place_mentions destination
  | TAwait future destination _ _ => operand_mentions future ++ place_mentions destination
  | _ => []
  end.
Definition block_mentions (block : BasicBlock) : list Ty :=
  concat (map statement_mentions (bb_statements block))
  ++ terminator_mentions (bb_terminator block).
Definition function_mentions : list Ty :=
  map (λ local, substitute (ml_ty local) substitutions) (mf_locals function)
  ++ concat (map block_mentions (mf_blocks function)).

Context (fuel : nat).
Let traverses {A} (body : list TypeInstance → A → outcome failure (list TypeInstance))
    (roots : A → list Ty) : Prop :=
  ∀ types a types', body types a = Ok types' → traversed program types (roots a) types'.

Lemma place_traverses :
  traverses (collect_place_type program fuel function substitutions) place_mentions.
Proof.
  intros types place types' H. unfold collect_place_type in H. unfold place_mentions.
  destruct (projected_place_type _ _ _); [|done]. exact (collect_type_traverses _ _ _ _ _ H).
Qed.

Lemma operand_traverses :
  traverses (collect_operand_type program fuel function substitutions) operand_mentions.
Proof.
  intros types [] types'; simpl; try apply place_traverses.
  intros [= <-]. apply traversed_nil.
Qed.

Lemma operands_traverse operands types types' :
  for_each (collect_operand_type program fuel function substitutions) operands types = Ok types' →
  traversed program types (concat (map operand_mentions operands)) types'.
Proof. apply traversed_for_each. intros ? ? ? _. apply operand_traverses. Qed.

Lemma rvalue_traverses :
  traverses (collect_rvalue_types program fuel function substitutions) rvalue_mentions.
Proof.
  intros types rvalue types' H. unfold collect_rvalue_types in H. inv_ok H.
  destruct rvalue; simpl in *;
    try (injection H as <-);
    try (by apply operand_traverses); try (by apply place_traverses);
    try (by apply operands_traverse).
  - injection Hv as <-. apply traversed_nil.
  - inv_ok Hv. eapply traversed_app; by eapply operand_traverses.
  - eapply traversed_app; [by apply operand_traverses|]. by eapply collect_type_traverses.
Qed.

Lemma statement_traverses :
  traverses (collect_statement_types program fuel function substitutions) statement_mentions.
Proof.
  intros types st types'. unfold collect_statement_types, statement_mentions.
  destruct (ms_kind st); try (intros [= <-]; apply traversed_nil).
  - intros H. inv_ok H. eapply traversed_app; [by apply place_traverses|].
    by apply rvalue_traverses.
  - apply place_traverses.
Qed.

Lemma terminator_traverses :
  traverses (collect_terminator_types program fuel function substitutions) terminator_mentions.
Proof.
  intros types [] types'; simpl; try (intros [= <-]; apply traversed_nil);
    try apply operand_traverses; intros H; inv_ok H.
  - eapply traversed_app; [by apply operands_traverse|].
    eapply traversed_app; [by apply place_traverses|].
    destruct target; try (injection H as <-; apply traversed_nil).
    destruct (mp_data_plans program !! plan); [|done].
    exact (collect_type_traverses _ _ _ _ _ H).
  - eapply traversed_app; [by apply operands_traverse|by apply place_traverses].
  - eapply traversed_app; [by apply operand_traverses|by apply place_traverses].
Qed.

Lemma function_traverses types types' :
  collect_function_types program fuel function substitutions types = Ok types' →
  traversed program types function_mentions types'.
Proof.
  intros H. unfold collect_function_types in H. inv_ok H. eapply traversed_app.
  - apply (traversed_for_each program _ (λ local, [substitute (ml_ty local) substitutions])) in Hv.
    + assert (Hid : ∀ ls, concat (map (λ local, [substitute (ml_ty local) substitutions]) ls)
        = map (λ local, substitute (ml_ty local) substitutions) ls)
        by (induction ls; simpl; congruence).
      by rewrite Hid in Hv.
    + intros ? ? ? _. apply collect_type_traverses.
  - eapply traversed_for_each; [|exact H]. intros types1 b types2 _ Hb.
    unfold collect_block_types in Hb. inv_ok Hb.
    eapply traversed_app; [|by apply terminator_traverses].
    eapply traversed_for_each; [|done]. intros ? ? ? _. apply statement_traverses.
Qed.
End mentions.

(** The types mentioned by an instance. *)
Definition instance_mentions (program : MProgram) (i : FunctionInstance) : list Ty :=
  match mp_functions program !! fi_function i with
  | Some f => function_mentions program f (mapping f i)
  | None => []
  end.

(** C34: the types collected are exactly the types with a declaration of their own that the
    collected instances are made of: everything a local, a place, a cast or a data plan of
    an instance needs, at any depth, and nothing else; and no type they are made of is
    unknown, an unresolved generic, or an unknown struct or enum. *)
Theorem collected_types_exact fuel program mono :
  collect fuel program = Ok mono →
  (∀ i r t, i ∈ mono_instances mono → r ∈ instance_mentions program i →
     rtc (made_of program) r t →
     type_children program t ≠ None ∧
     (recorded t = true → mkTypeInstance t ∈ mono_types mono)) ∧
  (∀ x, x ∈ mono_types mono → recorded (ti_ty x) = true ∧
     ∃ i r, i ∈ mono_instances mono ∧ r ∈ instance_mentions program i ∧
       rtc (made_of program) r (ti_ty x)).
Proof.
  intros H. unfold collect in H. inv_ok H. injection H as <-. simpl.
  assert (Ht : traversed program [] (concat (map (instance_mentions program) v0)) v1).
  { eapply traversed_for_each; [|exact Hv1]. intros types i types' _ Hi.
    unfold collect_instance_types in Hi. unfold instance_mentions.
    destruct (mp_functions program !! fi_function i); [|done].
    exact (function_traverses _ _ _ _ _ _ Hi). }
  assert (Hin : ∀ r, r ∈ concat (map (instance_mentions program) v0) ↔
    ∃ i, i ∈ v0 ∧ r ∈ instance_mentions program i).
  { intros r. clear. induction v0 as [|i l IH]; simpl; [set_solver|].
    rewrite elem_of_app, IH. set_solver. }
  split.
  - intros i r t Hi Hr. eapply traversed_closed; [exact Ht|]. apply Hin. eauto.
  - intros x Hx. destruct (traversed_exact _ _ _ x Ht Hx) as (Hrec & r & (i & Hi & Hr)%Hin & Hrt).
    split; [done|]. by exists i, r.
Qed.
