(* ===== verification/MonoSymbols.v ===== *)
(** * Symbols of instances

    The code of a type can be read back, as long as it contains no function type (all of
    which share one code), no foreign function type (whose parameter list has no end mark)
    and no unresolved generic (whose name is sanitized).  Two instances over such types
    never share a symbol. *)

From Stdlib Require Import Ascii.
From stdpp Require Import pretty.
From S2P Require Import Prelude Machine Utf8 Diagnostics StateM Limits Ast Hir Mir Layout.
From S2P Require Import Mono.
#[local] Open Scope string_scope.
#[local] Open Scope list_scope.
#[local] Open Scope Z_scope.

(** ** Concatenation, as rewrite rules *)

Lemma string_app_cons c s t : String c s +:+ t = String c (s +:+ t).
Proof. done. Qed.
Lemma string_app_nil t : "" +:+ t = t.
Proof. done. Qed.
Lemma string_app_assoc s t u : (s +:+ t) +:+ u = s +:+ t +:+ u.
Proof. induction s as [|c s IH]; [done|]. rewrite !string_app_cons. by rewrite IH. Qed.

Create HintDb symbols.
#[export] Hint Rewrite string_app_cons string_app_nil string_app_assoc : symbols.

(** ** Decimal numbers *)

Definition is_digit (c : Ascii.ascii) : bool := (48 <=? chr c) && (chr c <=? 57).

Fixpoint digits (s : string) : Prop :=
  match s with
  | EmptyString => True
  | String c s => is_digit c = true ∧ digits s
  end.

(** A string that does not go on with a digit. *)
Definition stops (s : string) : Prop :=
  match s with EmptyString => True | String c _ => is_digit c = false end.

Lemma pretty_N_go_digits x s : digits s → digits (pretty_N_go x s).
Proof.
  revert s. induction (N.lt_wf_0 x) as [x _ IH]; intros s Hs.
  assert (x = 0 ∨ 0 < x)%N as [->|Hx] by lia; [by rewrite pretty_N_go_0|].
  rewrite pretty_N_go_step by done. apply IH; [by apply N.div_lt|]. split; [|done].
  unfold pretty_N_char. by repeat case_match.
Qed.

Lemma pretty_N_go_nonempty x s : s ≠ "" → pretty_N_go x s ≠ "".
Proof.
  revert s. induction (N.lt_wf_0 x) as [x _ IH]; intros s Hs.
  assert (x = 0 ∨ 0 < x)%N as [->|Hx] by lia; [by rewrite pretty_N_go_0|].
  rewrite pretty_N_go_step by done. apply IH; [by apply N.div_lt|done].
Qed.

Lemma display_digits n : 0 <= n → digits (display_Z n) ∧ display_Z n ≠ "".
Proof.
  intros Hn. destruct n as [|p|p]; [done| |lia].
  change (display_Z (Z.pos p)) with (pretty_N_go (N.pos p) ""). split.
  - by apply pretty_N_go_digits.
  - rewrite pretty_N_go_step by lia. by apply pretty_N_go_nonempty.
Qed.

Lemma digits_split a b x y : digits a → digits b → stops x → stops y →
  a +:+ x = b +:+ y → a = b ∧ x = y.
Proof.
  revert b. induction a as [|c a IH]; intros [|d b]; simpl; intros Ha Hb Hx Hy;
    autorewrite with symbols.
  - done.
  - intros ->. simpl in Hx. destruct Hb. congruence.
  - intros <-. simpl in Hy. destruct Ha. congruence.
  - intros [= -> H]. destruct (IH b) as [-> ->]; naive_solver.
Qed.

Lemma display_split n m x y : 0 <= n → 0 <= m → stops x → stops y →
  display_Z n +:+ x = display_Z m +:+ y → n = m ∧ x = y.
Proof.
  intros Hn Hm Hx Hy H.
  apply digits_split in H as [H ->]; [|by apply display_digits..|done|done].
  split; [|done]. by apply (inj pretty) in H.
Qed.

(** A number is not read as something that starts with another character. *)
Lemma display_not n x y : 0 <= n → stops y → y ≠ "" → display_Z n +:+ x ≠ y.
Proof.
  intros Hn Hy Hne H. destruct (display_digits n Hn) as [Hd He].
  destruct (display_Z n) as [|c s]; [done|]. autorewrite with symbols in H. subst y. simpl in Hy.
  destruct Hd. congruence.
Qed.

(** ** Codes of types *)

Section codes.
Context (program : MProgram).

(** Types whose code can be read back. *)
Fixpoint faithful (ty : Ty) : Prop :=
  match ty with
  | TArray t n => 0 <= n ∧ faithful t
  | TSlice t | TList t | TSet t | TThread t | TFuture t | TTask t | TMutex t | TMutexGuard t
  | TChannel t | TReference _ t | TRawPointer _ t | TMemoryPointer _ t | TOption t => faithful t
  | TMap t u | TResult t u => faithful t ∧ faithful u
  | TInt _ (Some w) => 0 <= w
  | TFloat w => 0 <= w
  | TStruct id ts =>
      (length <$> (hs_generic_parameters <$> mp_structs program !! id)) = Some (length ts) ∧
      foldr (λ t P, faithful t ∧ P) True ts
  | TEnum id ts =>
      (length <$> (he_generic_parameters <$> mp_enums program !! id)) = Some (length ts) ∧
      foldr (λ t P, faithful t ∧ P) True ts
  | TGeneric _ | TFunction _ _ | TCFunction _ _ => False
  | _ => True
  end.

(** The first two characters of a code: enough to tell it from what follows a code. *)
Definition letter (c : Ascii.ascii) : bool :=
  ((65 <=? chr c) && (chr c <=? 90)) || ((97 <=? chr c) && (chr c <=? 122)).

Lemma type_code_start ty : ∃ c s, type_code ty = String c s ∧ letter c = true.
Proof.
  destruct ty; cbn [type_code]; autorewrite with symbols; try (by eauto).
  destruct signed; autorewrite with symbols; eauto.
Qed.

Lemma type_code_re ty r s : type_code ty +:+ r ≠ "re" +:+ s.
Proof.
  destruct ty; cbn [type_code]; autorewrite with symbols; try done; [by destruct signed|].
  by destruct mutable.
Qed.

(** What may follow a code: nothing, or a separator and another code. *)
Definition tail (r : string) : Prop :=
  r = "" ∨ ∃ t r', r = "_" +:+ type_code t +:+ r'.

Lemma tail_code t r : tail ("_" +:+ type_code t +:+ r).
Proof. right. eauto. Qed.

Lemma tail_head r c x : tail r → r = String c x → c = "_"%char.
Proof.
  intros [->|(t & r' & ->)] H; [done|]. autorewrite with symbols in H. by injection H.
Qed.

Lemma tail_stops r : tail r → stops r.
Proof. intros [->|(t & r' & ->)]; done. Qed.

Lemma tail_not_code r t s : tail r → r ≠ type_code t +:+ s.
Proof.
  intros Hr H. destruct (type_code_start t) as (c & x & Hc & Hl). rewrite Hc in H.
  autorewrite with symbols in H. by rewrite (tail_head _ _ _ Hr H) in Hl.
Qed.

Lemma tail_not_re r s : tail r → r ≠ "_re" +:+ s.
Proof.
  intros [->|(t & r' & ->)] H; [done|]. autorewrite with symbols in H. injection H as H.
  by apply (type_code_re t r' s).
Qed.

(** [t] can be read from the front of a string. *)
Definition readable (t : Ty) : Prop := faithful t → ∀ u r s, faithful u → tail r → tail s →
  type_code t +:+ r = type_code u +:+ s → t = u ∧ r = s.

(** Split the parameters that decide how a code starts. *)
Ltac split_codes :=
  repeat match goal with
  | b : bool |- _ => destruct b
  | w : option Z |- _ => destruct w
  end.

(** Refute an equation between two codes with different heads. *)
Ltac clash :=
  match goal with
  | H : ?x = ?y |- _ => discriminate H
  | H : String ?c _ = String ?c _ |- _ => injection H as H; clash
  | H : display_Z _ +:+ _ = String _ _ |- _ => by apply display_not in H
  | H : String _ _ = display_Z _ +:+ _ |- _ => symmetry in H; by apply display_not in H
  | Hr : tail ?r, H : ?r = String "_" (String "r" (String "e" _)) |- _ =>
      by apply (tail_not_re _ _ Hr) in H
  | Hr : tail ?r, H : String "_" (String "r" (String "e" _)) = ?r |- _ =>
      symmetry in H; by apply (tail_not_re _ _ Hr) in H
  | Hr : tail ?r, H : ?r = String _ _ |- _ => by apply (tail_head _ _ _ Hr) in H
  | Hr : tail ?r, H : String _ _ = ?r |- _ => symmetry in H; by apply (tail_head _ _ _ Hr) in H
  | Hr : tail ?r, H : ?r = type_code _ +:+ _ |- _ => by apply tail_not_code in H
  | Hr : tail ?r, H : type_code _ +:+ _ = ?r |- _ => symmetry in H; by apply tail_not_code in H
  end.

Lemma readable_leaf t : match t with
  | TArray _ _ | TSlice _ | TList _ | TMap _ _ | TSet _ | TThread _ | TFuture _ | TTask _
  | TMutex _ | TMutexGuard _ | TChannel _ | TReference _ _ | TRawPointer _ _
  | TMemoryPointer _ _ | TStruct _ _ | TEnum _ _ | TOption _ | TResult _ _
  | TFunction _ _ | TCFunction _ _ => True
  | _ => readable t
  end.
Proof.
  destruct t; try exact I; intros Ht u r s Hu Hr Hs H; destruct u; try done;
    split_codes; cbn [type_code] in H; autorewrite with symbols in H; simpl in Ht, Hu;
    try (exfalso; clash);
    injection H as H; first [done | apply display_split in H as [-> ->]; auto using tail_stops].
Qed.

(** Codes joined by separators. *)
Lemma codes_cons t ts r :
  String.concat "_" (map type_code (t :: ts)) +:+ r
  = type_code t +:+ match ts with
                    | [] => r
                    | _ => "_" +:+ String.concat "_" (map type_code ts) +:+ r
                    end.
Proof. destruct ts; simpl; autorewrite with symbols; done. Qed.

Lemma tail_codes ts r : tail r →
  tail match ts with [] => r | _ => "_" +:+ String.concat "_" (map type_code ts) +:+ r end.
Proof. destruct ts as [|t ts]; [done|]. intros _. rewrite codes_cons. apply tail_code. Qed.

Lemma codes_stop ts r : tail r → stops (String.concat "_" (map type_code ts) +:+ r).
Proof.
  intros Hr. destruct ts as [|t ts]; [by apply tail_stops|]. rewrite codes_cons.
  destruct (type_code_start t) as (c & x & -> & Hl). autorewrite with symbols. simpl.
  unfold letter, is_digit in *. destruct ((48 <=? chr c) && (chr c <=? 57)) eqn:E; [|done].
  apply orb_true_iff in Hl as [Hl|Hl]; reflect_bools; lia.
Qed.

Lemma readable_list ts : Forall readable ts → ∀ us r s, length ts = length us →
  foldr (λ t P, faithful t ∧ P) True ts → foldr (λ t P, faithful t ∧ P) True us →
  tail r → tail s →
  String.concat "_" (map type_code ts) +:+ r = String.concat "_" (map type_code us) +:+ s →
  ts = us ∧ r = s.
Proof.
  induction 1 as [|t ts Ht Hts IH]; intros [|u us] r s Hlen; try done.
  injection Hlen as Hlen. intros [Ft Fts] [Fu Fus] Hr Hs H. rewrite !codes_cons in H.
  destruct (Ht Ft u _ _ Fu (tail_codes ts r Hr) (tail_codes us s Hs) H) as [-> H'].
  clear H. rename H' into H.
  destruct ts as [|t' ts], us as [|u' us]; try done.
  autorewrite with symbols in H. injection H as H.
  by destruct (IH (u' :: us) r s) as [-> ->].
Qed.

Lemma readable_named c n ts : c ∈ [TStruct; TEnum] → Forall readable ts → readable (c n ts).
Proof.
  intros Hc IH. rewrite !elem_of_cons, elem_of_nil in Hc.
  destruct_or! Hc; subst; try done; intros Ht u r s Hu Hr Hs H;
    destruct u; try done; split_codes; cbn [type_code] in H; autorewrite with symbols in H;
    simpl in Ht, Hu; try (exfalso; clash).
  all: injection H as H; apply display_split in H as [Hid H]; [|lia|lia|by apply codes_stop|by apply codes_stop];
    apply Nat2Z.inj in Hid as ->; destruct Ht as [Ht Hts], Hu as [Hu Hus];
    rewrite Ht in Hu; injection Hu as Hu; by destruct (readable_list _ IH _ _ _ Hu Hts Hus Hr Hs H)
      as [-> ->].
Qed.

Lemma type_code_readable t : readable t.
Proof.
  revert t. apply Ty_nested_ind.
  - exact readable_leaf.
  - intros c t Hc IH. rewrite !elem_of_cons, elem_of_nil in Hc.
    destruct_or! Hc; subst; try done; intros Ht u r s Hu Hr Hs H;
      destruct u; try done; split_codes; cbn [type_code] in H; autorewrite with symbols in H;
      simpl in Ht, Hu; try (exfalso; clash);
      injection H as H; by apply IH in H as [-> ->].
  - intros t n IH Ht u r s Hu Hr Hs H.
    destruct u; try done; split_codes; cbn [type_code] in H; autorewrite with symbols in H;
      simpl in Ht, Hu; try (exfalso; clash).
    injection H as H. destruct Ht as [Hn Ht], Hu as [Hm Hu].
    apply display_split in H as [-> H]; [|done..]. injection H as H.
    by apply IH in H as [-> ->].
  - intros c b t Hc IH. rewrite !elem_of_cons, elem_of_nil in Hc.
    destruct_or! Hc; subst; try done; intros Ht u r s Hu Hr Hs H;
      destruct u; try done; split_codes; cbn [type_code] in H; autorewrite with symbols in H;
      simpl in Ht, Hu; try (exfalso; clash);
      injection H as H; by apply IH in H as [-> ->].
  - intros c t t' Hc IH IH'. rewrite !elem_of_cons, elem_of_nil in Hc.
    destruct_or! Hc; subst; try done; intros Ht u r s Hu Hr Hs H;
      destruct u; try done; split_codes; cbn [type_code] in H; autorewrite with symbols in H;
      simpl in Ht, Hu; try (exfalso; clash);
      injection H as H; destruct Ht as [Ht Ht'], Hu as [Hu Hu'];
      apply IH in H as [-> H]; try done; try apply tail_code;
      injection H as H; by apply IH' in H as [-> ->].
  - apply readable_named.
  - intros c ts t Hc _ _. rewrite !elem_of_cons, elem_of_nil in Hc.
    by destruct_or! Hc; subst; intros ?.
Qed.
End codes.

(** ** Symbols *)

(** What [mangle] appends for the substitutions. *)
Definition symbol_suffix (ts : list Ty) : string := foldr (λ t r, "_" +:+ type_code t +:+ r) "" ts.

Lemma suffix_foldl symbol ts :
  foldl (λ symbol ty, symbol +:+ "_" +:+ type_code ty) symbol ts = symbol +:+ symbol_suffix ts.
Proof.
  revert symbol. induction ts as [|t ts IH]; intros symbol; simpl.
  - by rewrite append_nil_r.
  - rewrite IH. by autorewrite with symbols.
Qed.

Lemma suffix_tail ts : tail (symbol_suffix ts).
Proof. destruct ts as [|t ts]; [by left|apply tail_code]. Qed.

Lemma suffix_inj program ts us : length ts = length us → Forall (faithful program) ts →
  Forall (faithful program) us → symbol_suffix ts = symbol_suffix us → ts = us.
Proof.
  revert us. induction ts as [|t ts IH]; intros [|u us] Hlen; try done.
  injection Hlen as Hlen. intros [Ft Fts]%Forall_cons [Fu Fus]%Forall_cons H.
  cbn [symbol_suffix foldr] in H. autorewrite with symbols in H. injection H as H.
  destruct (type_code_readable program t Ft u (symbol_suffix ts) (symbol_suffix us) Fu
    (suffix_tail _) (suffix_tail _) H) as [-> H']. f_equal. auto.
Qed.

(** An instance the backend emits code for, over types whose codes can be read back. *)
Definition emitted (program : MProgram) (i : FunctionInstance) : Prop :=
  ∃ f, mp_functions program !! fi_function i = Some f ∧ mf_external f = None ∧
    length (mf_generic_parameters f) = length (fi_substitutions i) ∧
    Forall (faithful program) (fi_substitutions i).

(** C35: two instances of functions the backend emits, over types without function types,
    foreign function types and unresolved generics, have the same symbol only if they are
    the same instance. *)
Theorem mangle_injective program i j symbol :
  emitted program i → emitted program j →
  mangle program i = Ok symbol → mangle program j = Ok symbol → i = j.
Proof.
  intros (f & Hf & Ef & Lf & Ff) (g & Hg & Eg & Lg & Fg). unfold mangle.
  rewrite Hf, Hg. simpl. rewrite Ef, Eg, !suffix_foldl. intros [= <-] [= H].
  autorewrite with symbols in H.
  apply display_split in H as [Hid H]; [|lia|lia|done|done]. apply Nat2Z.inj in Hid.
  destruct i as [n ts], j as [m us]; simpl in *. subst m. rewrite Hf in Hg. injection Hg as <-.
  injection H as H%(inj (String.append _)). f_equal. symmetry.
  apply (suffix_inj program); [congruence|done..].
Qed.
