(* ===== verification/MonoExamples.v ===== *)
(** * Concrete native programs

    Witnesses of the theorems on monomorphization, and three programs that the backend
    does not handle: a generic function over a map, an instance over two function types,
    and a generic type that refers to larger instances of itself. *)

From stdpp Require Import relations.
From S2P Require Import Prelude Machine Utf8 Diagnostics StateM Limits Ast Hir Mir Layout.
From S2P Require Import LayoutProps LayoutCache LayoutTotal.
From S2P Require Import Mono MonoProps MonoTypes MonoCollect MonoSymbols.
#[local] Open Scope string_scope.
#[local] Open Scope list_scope.
#[local] Open Scope Z_scope.

Definition here (local : nat) : MPlace := mkMPlace local [].

Definition demo_local (id : nat) (kind : LocalKind) (ty : Ty) : MLocal :=
  mkMLocal id "x" ty kind (point 1 1) false false.

Definition demo_function (id : nat) (name : string) (generics : list string)
    (locals : list MLocal) (arguments : nat) (blocks : list BasicBlock) : MFunction :=
  mkMFunction id name locals arguments 0 false 0 blocks (point 1 1) generics None false.

(** [main], which calls function 1 at each of [instances]; the arguments are its locals. *)
Definition demo_main (instances : list (list Ty)) (locals : list Ty) : MFunction :=
  demo_function 0 "main" []
    (demo_local 0 LReturn TUnit :: imap (λ i ty, demo_local (S i) LUser ty) locals) 0
    (imap (λ i substitutions,
       mkBasicBlock []
         (TCall (CTFunction 1) [OCopy (here (S i))] (here 0) (S i) None substitutions (point 1 1)))
       instances ++ [mkBasicBlock [] TReturn]).

(** A program with [main] and a function [name<T>(x: parameter)]. *)
Definition demo_mir (structs : list HStruct) (name : string) (parameter : Ty)
    (instances : list (list Ty)) (locals : list Ty) : MProgram :=
  mkMProgram []
    [demo_main instances locals;
     demo_function 1 name ["T"] [demo_local 0 LReturn TUnit; demo_local 1 LArgument parameter] 1
       [mkBasicBlock [] TReturn]]
    structs [] [] [] [].

(** ** A program that works: [first<T>(x: List<T>)] called with a list of headers *)

Definition header_ty : Ty := TStruct 0 [].
Definition good_mir : MProgram :=
  demo_mir [demo_header] "first" (TList (TGeneric "T")) [[header_ty]] [TList header_ty].
Definition good_mono : MonoProgram :=
  mkMonoProgram [mkFunctionInstance 0 []; mkFunctionInstance 1 [header_ty]]
    [mkTypeInstance (TList header_ty); mkTypeInstance header_ty;
     mkTypeInstance (TOption (TInt false (Some 64)))]
    (mkFunctionInstance 0 []).

Lemma good_collect : collect 10 good_mir = Ok good_mono.
Proof. vm_compute. reflexivity. Qed.

Lemma collected_types_exact_witness :
  collect 10 good_mir = Ok good_mono ∧
  (∀ x, x ∈ mono_types good_mono → recorded (ti_ty x) = true ∧
     ∃ i r, i ∈ mono_instances good_mono ∧ r ∈ instance_mentions good_mir i ∧
       rtc (made_of good_mir) r (ti_ty x)).
Proof.
  split; [exact good_collect|]. exact (proj2 (collected_types_exact 10 good_mir good_mono good_collect)).
Defined.

Lemma mangle_injective_witness :
  mangle good_mir (mkFunctionInstance 1 [header_ty]) = Ok "disp_f1_first_S0" ∧
  (∀ j, emitted good_mir j → mangle good_mir j = Ok "disp_f1_first_S0" →
     mkFunctionInstance 1 [header_ty] = j).
Proof.
  assert (E : emitted good_mir (mkFunctionInstance 1 [header_ty])).
  { eexists. split; [reflexivity|]. split; [reflexivity|]. split; [reflexivity|].
    apply Forall_singleton. split; [reflexivity|exact I]. }
  split; [vm_compute; reflexivity|]. intros j Hj H.
  apply (mangle_injective good_mir (mkFunctionInstance 1 [header_ty]) j "disp_f1_first_S0" E Hj);
    [vm_compute; reflexivity|exact H].
Defined.

Definition good_hir : HProgram := mkHProgram [] [demo_header] [] [] [] [] ∅ [].
Definition good_abi : AbiProgram :=
  mkAbiProgram
    [(mkFunctionInstance 0 [], mkFunctionAbi [] PIgnore);
     (mkFunctionInstance 1 [header_ty], mkFunctionAbi [PIndirect] PIgnore)].

Lemma good_lower : abi_lower true good_hir good_mir demo_target 10 good_mono = Ok good_abi.
Proof. vm_compute. reflexivity. Qed.

(** ** Generic maps

    [fn size<T>(x: Map<T, bool>)], called with a [Map<String, bool>].  The call is resolved
    (matching looks into maps), but substitution does not: the parameter keeps the type
    [Map<T, bool>], and the program is refused because [T] is unresolved. *)
Definition map_mir : MProgram :=
  demo_mir [] "size" (TMap (TGeneric "T") TBool) [[TString]] [TMap TString TBool].

Lemma generic_map_refused fuel :
  collect_instances map_mir (mkFunctionInstance 0 [])
  = Ok [mkFunctionInstance 0 []; mkFunctionInstance 1 [TString]] ∧
  collect (3 + fuel) map_mir
  = Err (mono_error "unresolved generic `T` reached native type monomorphization").
Proof. split; vm_compute; reflexivity. Qed.

(** ** Function types share one code

    [fn apply<T>(x: T)] used at [fn(bool) -> bool] and at [fn(char) -> char]: two instances
    are collected, and both get the same symbol. *)
Definition predicate_ty : Ty := TFunction [TBool] TBool.
Definition conversion_ty : Ty := TFunction [TChar] TChar.
Definition apply_mir : MProgram :=
  demo_mir [] "apply" (TGeneric "T") [[predicate_ty]; [conversion_ty]]
    [predicate_ty; conversion_ty].

Lemma function_types_collide :
  collect_instances apply_mir (mkFunctionInstance 0 [])
  = Ok [mkFunctionInstance 0 []; mkFunctionInstance 1 [predicate_ty];
        mkFunctionInstance 1 [conversion_ty]] ∧
  mangle apply_mir (mkFunctionInstance 1 [predicate_ty]) = Ok "disp_f1_apply_fn" ∧
  mangle apply_mir (mkFunctionInstance 1 [conversion_ty]) = Ok "disp_f1_apply_fn".
Proof. split_and!; vm_compute; reflexivity. Qed.

(** ** Types without end

    [struct Chain<T> { next: &Chain<Option<T>> }] has a layout (a pointer), but collecting
    its types never finishes: the limit on monomorphization only counts functions. *)
Definition chain : HStruct :=
  mkHStruct 0 0 "Chain" false false
    [demo_field "next" (TReference false (TStruct 0 [TOption (TGeneric "T")]))] [] (point 1 1)
    ["T"].
Definition chain_mir : MProgram :=
  demo_mir [chain] "id" (TGeneric "T") [[TStruct 0 [TBool]]] [TStruct 0 [TBool]].

Lemma chain_type_diverges fuel k types :
  (∀ j, (k <= j)%nat → mkTypeInstance (TStruct 0 [options j]) ∉ types) →
  collect_type chain_mir fuel types (TStruct 0 [options k]) = Err Diverges.
Proof.
  revert k types. induction fuel as [fuel IH] using lt_wf_ind. intros k types Hn.
  destruct fuel as [|fuel]; [done|]. cbn [collect_type]. unfold record_type.
  destruct (set_contains _ _ _) eqn:E.
  { apply set_contains_spec in E; [|apply type_instance_compare_eq]. by apply Hn in E. }
  destruct fuel as [|fuel]; [done|].
  change (collect_type chain_mir fuel
    (set_insert type_instance_compare (mkTypeInstance (TStruct 0 [options k])) types)
    (TStruct 0 [options (S k)]) ≫= (λ types, Ok types) = Err Diverges).
  rewrite (IH fuel); [done|lia|]. intros j Hj.
  rewrite elem_of_set_insert by apply type_instance_compare_eq.
  intros [[= H%options_inj]|H]; [lia|]. apply (Hn j); [lia|done].
Qed.

(** However deep [collect_type] may nest its calls, it needs more. *)
Lemma chain_never_collected fuel : collect fuel chain_mir = Err Diverges.
Proof.
  destruct fuel as [|fuel]; [vm_compute; reflexivity|].
  assert (Hi : collect_instances chain_mir (mkFunctionInstance 0 [])
    = Ok [mkFunctionInstance 0 []; mkFunctionInstance 1 [TStruct 0 [TBool]]])
    by (vm_compute; reflexivity).
  unfold collect. change (collect_entry chain_mir) with (Ok (E:=failure) (mkFunctionInstance 0 [])).
  rewrite bind_Ok, Hi, bind_Ok. cbn [for_each].
  assert (Hm : collect_instance_types chain_mir (S fuel) [] (mkFunctionInstance 0 [])
    = Err Diverges); [|by rewrite Hm].
  pose proof (chain_type_diverges (S fuel) 0 []) as Hd. cbn [options] in Hd.
  unfold collect_instance_types, collect_function_types.
  change (mp_functions chain_mir !! fi_function (mkFunctionInstance 0 []))
    with (Some (demo_main [[TStruct 0 [TBool]]] [TStruct 0 [TBool]])).
  unfold expect. rewrite bind_Ok.
  change (mf_locals (demo_main [[TStruct 0 [TBool]]] [TStruct 0 [TBool]]))
    with [demo_local 0 LReturn TUnit; demo_local 1 LUser (TStruct 0 [TBool])].
  cbn [for_each ml_ty demo_local].
  change (substitute (TStruct 0 [TBool]) _) with (TStruct 0 [TBool]).
  change (collect_type chain_mir (S fuel) [] (substitute TUnit _)) with (Ok (E:=failure) (@nil TypeInstance)).
  rewrite bind_Ok, Hd; [done|]. by intros j _ ?%not_elem_of_nil.
Qed.
