(* ===== verification/Parser.v ===== *)
(** * The parser ([compiler/src/parser.rs])

    The parser owns the tokens, a cursor, the depth of its recursion and the flag that
    keeps [?] out of data expressions; a method is a computation of [P].  The methods that
    call each other recursively go through [Recursive], the record of those entry points:
    [parsers] closes the knot with fuel, and [parse] starts it with one unit more than the
    tokens weigh.  Loops have fuel from the same measure.  Running out of fuel and indexing
    past the tokens both yield [Panic]. *)

From Stdlib Require Import Ascii.
From S2P Require Import Prelude Machine Utf8 Diagnostics Limits StateM Ast Lexer.
#[local] Open Scope string_scope.
#[local] Open Scope list_scope.
#[local] Open Scope Z_scope.

(** What the parser takes from the Unicode tables of [char], and the text of
    [derive(Debug)], which only appears in error messages. *)
Class TokenText := {
  is_uppercase : char → bool;
  debug_kind : TokenKind → string }.

Record Parser := mkParser {
  tokens : list Token;
  current : nat;
  recursion_depth : Z;
  suppress_try : bool }.

Definition new (ts : list Token) : Parser :=
  mkParser (match ts with [] => [mkToken Eof (point 1 1)] | _ => ts end) 0 0 false.

Abbreviation P := (SM Parser Diagnostic).

Definition error {A} (message : string) (s : Span) : P A := throw (new_diagnostic Parse message s).
Definition error_with_help {A} (message : string) (s : Span) (help : string) : P A :=
  throw (with_help (new_diagnostic Parse message s) help).

(** ** Token kinds *)

(** Equality of [std::mem::discriminant]. *)
Definition same_variant (left right : TokenKind) : bool :=
  match left, right with
  | Identifier _, Identifier _ | Integer _, Integer _ | Float _, Float _
  | String_ _, String_ _ | Character _, Character _ => true
  | _, _ => bool_decide (left = right)
  end.

Definition is_assignment (kind : TokenKind) : bool :=
  match kind with
  | Equal | PlusEqual | MinusEqual | StarEqual | SlashEqual => true
  | _ => false
  end.

Definition is_word (expected : string) (kind : TokenKind) : bool :=
  match kind with Identifier value => String.eqb value expected | _ => false end.

Definition is_identifier (kind : TokenKind) : bool :=
  match kind with Identifier _ => true | _ => false end.

(** ** Moving over the tokens *)

Definition peek : P Token := λ s,
  match tokens s !! Nat.min (current s) (length (tokens s) - 1) with
  | Some t => Ok (t, s)
  | None => Panic
  end.

Definition previous : P Token := λ s,
  match tokens s !! (current s - 1)%nat with
  | Some t => Ok (t, s)
  | None => Panic
  end.

Definition set_current (n : nat) (s : Parser) : Parser :=
  mkParser (tokens s) n (recursion_depth s) (suppress_try s).
Definition set_depth (d : Z) (s : Parser) : Parser :=
  mkParser (tokens s) (current s) d (suppress_try s).
Definition set_suppress_try (b : bool) (s : Parser) : Parser :=
  mkParser (tokens s) (current s) (recursion_depth s) b.
Definition set_tokens (ts : list Token) (s : Parser) : Parser :=
  mkParser ts (current s) (recursion_depth s) (suppress_try s).

Definition advance : P Token :=
  token ← peek;
  match token_kind token with
  | Eof => mret token
  | _ => _ ← modify (λ s, set_current (S (current s)) s); mret token
  end.

(** [self.tokens[self.current] = token]. *)
Definition replace_current (token : Token) : P unit := λ s,
  if bool_decide (current s < length (tokens s))%nat
  then Ok (tt, set_tokens (<[current s := token]> (tokens s)) s)
  else Panic.

Definition peek_kind : P TokenKind := token ← peek; mret (token_kind token).
Definition peek_span : P Span := token ← peek; mret (token_span token).
Definition previous_span : P Span := token ← previous; mret (token_span token).

Definition check (expected : TokenKind) : P bool :=
  kind ← peek_kind; mret (same_variant kind expected).

Definition check_next (expected : TokenKind) : P bool := λ s,
  match tokens s !! Nat.min (current s + 1) (length (tokens s) - 1) with
  | Some t => Ok (same_variant (token_kind t) expected, s)
  | None => Panic
  end.

Definition check_identifier (expected : string) : P bool :=
  kind ← peek_kind; mret (is_word expected kind).

Definition matches_any (expected : list TokenKind) : P bool :=
  kind ← peek_kind; mret (existsb (same_variant kind) expected).

Definition match_token (expected : TokenKind) : P bool :=
  found ← check expected;
  if (found : bool) then _ ← advance; mret true else mret false.

Definition match_data_word (expected : string) : P bool :=
  kind ← peek_kind;
  if is_word expected kind then _ ← advance; mret true else mret false.

(** [self.tokens.get(self.current + n)]. *)
Definition kind_at (n : nat) : P (option TokenKind) :=
  gets (λ s, token_kind <$> tokens s !! (current s + n)%nat).

(** ** Loops

    [loop_ body a] runs [body] on what the loop carries until it returns [inr]; an
    iteration that returns [inl] has moved over a token, and [>>] weighs two because a
    type list may consume it in two steps. *)

Definition weight (t : Token) : nat :=
  match token_kind t with ShiftRight => 2 | _ => 1 end.
Definition remaining (s : Parser) : nat :=
  list_sum (weight <$> drop (current s) (tokens s)).

Fixpoint iterate {A B} (fuel : nat) (body : A → P (A + B)) (a : A) : P B :=
  match fuel with
  | O => panic
  | S fuel =>
    r ← body a;
    match r with inl a => iterate fuel body a | inr b => mret b end
  end.

Definition loop_ {A B} (body : A → P (A + B)) (a : A) : P B := λ s,
  iterate (S (remaining s)) body a s.

(** [loop { v.push(item()?); if !self.match_token(sep) { break; } }]. *)
Definition separated {A} (sep : TokenKind) (item : P A) : P (list A) :=
  loop_ (λ v,
    a ← item;
    more ← match_token sep;
    mret (if (more : bool) then inl (v ++ [a]) else inr (v ++ [a]))) [].

(** The same under [if !self.check(close) { ... }]. *)
Definition separated_until {A} (close sep : TokenKind) (item : P A) : P (list A) :=
  closed ← check close;
  if (closed : bool) then mret [] else separated sep item.

(** [while !self.check(&TokenKind::RightBrace) && !self.check(&TokenKind::Eof) { ... }]. *)
Definition while_open {A} (body : A → P A) (a : A) : P A :=
  loop_ (λ a,
    close ← check RightBrace;
    eof ← check Eof;
    if (close || eof)%bool then mret (inr a) else a' ← body a; mret (inl a')) a.

(** [if cond { Some(item()?) } else { None }]. *)
Definition when {A} (cond : bool) (item : P A) : P (option A) :=
  if cond then a ← item; mret (Some a) else mret None.

Definition is_none {A} (o : option A) : bool :=
  match o with None => true | Some _ => false end.

Section parser.
Context `{TokenText}.

Definition is_type_style (name : string) : bool :=
  match chars name with c :: _ => is_uppercase c | [] => false end.

Definition expect (expected : TokenKind) (message : string) : P Token :=
  found ← check expected;
  if (found : bool) then advance
  else
    token ← peek;
    error (message +:+ "; found " +:+ debug_kind (token_kind token)) (token_span token).

Definition expect_span (expected : TokenKind) (message : string) : P Span :=
  token ← expect expected message; mret (token_span token).

Definition expect_identifier (message : string) : P (string * Span) :=
  token ← advance;
  match token_kind token with
  | Identifier name => mret (name, token_span token)
  | found => error (message +:+ "; found " +:+ debug_kind found) (token_span token)
  end.

Definition expect_spanned (message : string) : P (Spanned string) :=
  '(name, span) ← expect_identifier message; mret (mkSpanned name span).

Definition expect_type_close : P Token :=
  greater ← check Greater;
  if (greater : bool) then advance
  else
    shift ← check ShiftRight;
    if (shift : bool) then
      span ← peek_span;
      let middle := mkPosition (line (start span)) (column (start span) + 1) in
      _ ← replace_current (mkToken Greater (mkSpan middle (end_ span)));
      mret (mkToken Greater (mkSpan (start span) middle))
    else expect Greater "expected `>` after type arguments".

Definition with_recursion {A} (parse : P A) : P A :=
  depth ← gets recursion_depth;
  if MAX_EXPRESSION_DEPTH <=? depth then
    span ← peek_span;
    error ("expression nesting exceeds the limit of " +:+ display_Z MAX_EXPRESSION_DEPTH) span
  else
    _ ← modify (λ s, set_depth (recursion_depth s + 1) s);
    result ← parse;
    depth ← gets recursion_depth;
    depth ← lift (unsigned_sub depth 1);
    _ ← modify (set_depth depth);
    mret result.

(** ** The recursive entry points *)

Record Recursive := mkRecursive {
  rec_type_name : P TypeName;
  rec_pattern : P (Spanned Pattern);
  rec_unary : P Expr;
  rec_expression : P Expr;
  rec_block : P Block;
  rec_if : P Stmt }.

Section methods.
Context (self : Recursive).

(** ** Types *)

Definition contains_dot (name : string) : bool :=
  existsb (Z.eqb 46) (chars name).

(** The part of [parse_type_name] after [fn]. *)
Definition parse_function_type : P TypeName :=
  start ← previous_span;
  _ ← expect LeftParen "expected `(` after `fn` in function type";
  arguments ← separated_until RightParen Comma (rec_type_name self);
  _ ← expect RightParen "expected `)` after function parameters";
  _ ← expect Arrow "expected `->` in function type";
  result ← rec_type_name self;
  mret (mkTypeName "fn" (arguments ++ [result]) Owned (through start (type_span result))).

(** After [[]. *)
Definition parse_array_type : P TypeName :=
  start ← previous_span;
  element ← rec_type_name self;
  closed ← match_token RightBracket;
  if (closed : bool) then
    end_ ← previous_span;
    mret (mkTypeName "[]" [element] Owned (through start end_))
  else
    _ ← expect Semicolon "expected `;` before array length";
    token ← advance;
    length ← match token_kind token with
             | Integer value =>
               match try_from USIZE_MAX value with
               | Some length => mret length
               | None => error "array length is too large" (token_span token)
               end
             | _ => error "expected constant array length" (token_span token)
             end;
    end_ ← expect_span RightBracket "expected `]` after array type";
    mret (mkTypeName ("[;" +:+ display_Z length +:+ "]") [element] Owned (through start end_)).

(** After [&]. *)
Definition parse_reference_type : P TypeName :=
  start ← previous_span;
  mutable ← match_token Mut;
  ty ← rec_type_name self;
  mret (mkTypeName (type_name ty) (type_arguments ty)
          (if (mutable : bool) then MutableReference else SharedReference)
          (through start (type_span ty))).

(** A named type, with its projection, arguments and [mut]. *)
Definition parse_named_type : P TypeName :=
  raw_mut ← match_token Mut;
  '(name, start) ← expect_identifier "expected type name";
  dot ← match_token Dot;
  '(name, end_) ←
    (if (dot : bool) then
       if String.eqb name "Self" then
         '(associated, associated_span) ←
           expect_identifier "expected associated type name after `Self.`";
         mret (name +:+ "." +:+ associated, associated_span)
       else error "Candidate 1 associated type projections must start with `Self`" start
     else mret (name, start));
  less ← match_token Less;
  '(arguments, end_) ←
    (if (less : bool) then
       if contains_dot name then
         error "associated type projections cannot take type arguments" end_
       else
         arguments ← separated Comma (rec_type_name self);
         close ← expect_type_close;
         mret (arguments, token_span close)
     else mret ([], end_));
  if (raw_mut && negb (String.eqb name "ptr"))%bool then
    error "`mut` in a type is only valid as `mut ptr<T>`" start
  else
    let qualifier := if raw_mut then RawMutPointer
                     else if String.eqb name "ptr" then RawConstPointer else Owned in
    mret (mkTypeName name arguments qualifier (through start end_)).

Definition parse_type_name : P TypeName :=
  fn ← match_token Fn;
  if (fn : bool) then parse_function_type else
  bracket ← match_token LeftBracket;
  if (bracket : bool) then parse_array_type else
  reference ← match_token And;
  if (reference : bool) then parse_reference_type else parse_named_type.

Definition parse_return_type : P (option TypeName) :=
  arrow ← match_token Arrow; when arrow parse_type_name.

Definition parse_generic_parameter : P GenericParameter :=
  '(name, name_span) ← expect_identifier "expected generic parameter";
  colon ← match_token Colon;
  constraints ← (if (colon : bool) then separated Plus parse_type_name else mret []);
  mret (mkGenericParameter name name_span constraints).

Definition parse_generic_parameters : P (list GenericParameter) :=
  less ← match_token Less;
  if (less : bool) then
    parameters ← separated Comma parse_generic_parameter;
    _ ← expect Greater "expected `>` after generic parameters";
    mret parameters
  else mret [].

(** ** Patterns *)

Definition parse_pattern_field : P StructPatternField :=
  '(field_name, field_span) ← expect_identifier "expected field in struct pattern";
  colon ← match_token Colon;
  pattern ← (if (colon : bool) then rec_pattern self
             else mret (mkSpanned (PBinding field_name) field_span));
  mret (mkStructPatternField field_name field_span pattern).

Definition parse_struct_pattern (name : string) (start : Span) : P (Spanned Pattern) :=
  '(fields, rest) ← loop_ (λ fields,
    close ← check RightBrace;
    if (close : bool) then mret (inr (fields, false)) else
    range ← match_token Range;
    if (range : bool) then _ ← match_token Comma; mret (inr (fields, true)) else
    field ← parse_pattern_field;
    comma ← match_token Comma;
    mret (if (comma : bool) then inl (fields ++ [field]) else inr (fields ++ [field], false))) [];
  end_ ← expect_span RightBrace "expected `}` after struct pattern";
  mret (mkSpanned (PStruct name fields rest) (through start end_)).

Definition parse_variant_pattern (name : string) (start : Span) : P (Spanned Pattern) :=
  dot ← match_token Dot;
  '(type_name, variant) ←
    (if (dot : bool) then
       '(variant, _) ← expect_identifier "expected variant after `.`";
       mret (Some name, variant)
     else mret (None, name));
  end_ ← previous_span;
  paren ← match_token LeftParen;
  '(arguments, end_) ←
    (if (paren : bool) then
       arguments ← separated_until RightParen Comma (rec_pattern self);
       end_ ← expect_span RightParen "expected `)` after variant pattern";
       mret (arguments, end_)
     else mret ([], end_));
  mret (mkSpanned (PVariant type_name variant arguments) (through start end_)).

Definition parse_pattern_atom : P (Spanned Pattern) :=
  token ← advance;
  let start := token_span token in
  match token_kind token with
  | Minus =>
    magnitude ← advance;
    match token_kind magnitude with
    | Integer value =>
      mret (mkSpanned (PNegativeInteger value) (through start (token_span magnitude)))
    | _ => error "expected integer literal after `-` in pattern" (token_span magnitude)
    end
  | Integer value => mret (mkSpanned (PInteger value) start)
  | String_ value => mret (mkSpanned (PString value) start)
  | Character value => mret (mkSpanned (PCharacter value) start)
  | True_ => mret (mkSpanned (PBool true) start)
  | False_ => mret (mkSpanned (PBool false) start)
  | Identifier name =>
    if String.eqb name "_" then mret (mkSpanned PWildcard start)
    else if is_type_style name then
      brace ← match_token LeftBrace;
      if (brace : bool) then parse_struct_pattern name start
      else parse_variant_pattern name start
    else mret (mkSpanned (PBinding name) start)
  | found => error ("expected pattern, found " +:+ debug_kind found) start
  end.

Definition parse_pattern : P (Spanned Pattern) :=
  first ← parse_pattern_atom;
  or ← match_token Or;
  if (or : bool) then
    rest ← separated Or parse_pattern_atom;
    match last (first :: rest) with
    | Some end_ =>
      mret (mkSpanned (POr (first :: rest)) (through (span first) (span end_)))
    | None => panic
    end
  else mret first.

(** ** Capabilities *)

Definition parse_capability (capabilities : list CapabilityUse) (name : string) (s : Span)
    : P (list CapabilityUse) :=
  match capability_from_name name with
  | None =>
    error_with_help ("unknown capability `" +:+ name +:+ "`") s
      "use `FileSystem`, `Network`, `Process`, `Foreign`, `RawMemory`, `DeviceIo`, `Timer`, `Random`, `Gpu`, `Ui`, or `Pure`"
  | Some capability =>
    if existsb (λ item, bool_decide (use_capability item = capability)) capabilities
    then error ("duplicate capability `" +:+ name +:+ "`") s
    else mret (capabilities ++ [mkCapabilityUse capability s])
  end.

Definition parse_capabilities : P (option (list CapabilityUse)) :=
  kind ← peek_kind;
  if is_word "uses" kind then
    uses ← advance;
    '(first, first_span) ← expect_identifier "expected `Pure` or a capability after `uses`";
    if String.eqb first "Pure" then
      comma ← match_token Comma;
      if (comma : bool) then
        end_ ← previous_span;
        error "`Pure` cannot be combined with capabilities" (through (token_span uses) end_)
      else mret (Some [])
    else
      capabilities ← loop_ (λ '(capabilities, (name, s)),
        capabilities ← parse_capability capabilities name s;
        comma ← match_token Comma;
        if (comma : bool) then
          next ← expect_identifier "expected capability after `,`";
          mret (inl (capabilities, next))
        else mret (inr capabilities)) ([], (first, first_span));
      mret (Some capabilities)
  else mret None.

(** ** Operators *)

(** [looks_like_dereference_assignment] from the token after the [*]. *)
Fixpoint path_then_assignment (kinds : list TokenKind) : bool :=
  match kinds with
  | Dot :: Identifier _ :: kinds => path_then_assignment kinds
  | Dot :: _ => false
  | kind :: _ => is_assignment kind
  | [] => false
  end.

Definition looks_like_dereference_assignment : P bool :=
  gets (λ s,
    match token_kind <$> drop (S (current s)) (tokens s) with
    | Identifier _ :: kinds => path_then_assignment kinds
    | _ => false
    end).

(** The condition under which a [*] starts a new statement. *)
Definition starts_statement (expression : Expr) : P bool :=
  star ← check Star;
  token ← peek;
  if (star && (line (start (token_span token)) >? line (end_ (span expression))))%bool
  then looks_like_dereference_assignment
  else mret false.

(** One turn of the loop over the operators of a level. *)
Definition binary_turn (operand : P Expr) (operators : list (TokenKind * BinaryOperator))
    : Expr * Z → P (Expr * Z + Expr) :=
  λ '(expression, operator_count),
    kind ← peek_kind;
    match List.find (λ '(k, _), same_variant kind k) operators with
    | None => mret (inr expression)
    | Some (_, operator) =>
      stop ← starts_statement expression;
      if (stop : bool) then mret (inr expression) else
      let operator_count := operator_count + 1 in
      if operator_count >? MAX_OPERATOR_CHAIN then
        span ← peek_span;
        error ("operator chain exceeds the safety limit of " +:+ display_Z MAX_OPERATOR_CHAIN)
          span
      else
        _ ← advance;
        right ← operand;
        mret (inl (mkSpanned (EBinary expression operator right)
                     (through (span expression) (span right)), operator_count))
    end.

Definition parse_binary (operand : P Expr) (operators : list (TokenKind * BinaryOperator))
    : P Expr :=
  expression ← operand;
  loop_ (binary_turn operand operators) (expression, 0).

(** ** Closures *)

Definition parse_closure_parameter : P Param :=
  '(name, name_span) ← expect_identifier "expected closure parameter name";
  _ ← expect Colon "closure parameters require a type annotation";
  ty ← parse_type_name;
  mret (mkParam name name_span ty).

Definition closure_body_span (body : ClosureBody) : Span :=
  match body with CExpression e => span e | CBlock b => block_span b end.
Definition is_block (body : ClosureBody) : bool :=
  match body with CBlock _ => true | CExpression _ => false end.

Definition parse_closure (start : Span) (move_captures parameters_closed : bool) : P Expr :=
  parameters ←
    (if parameters_closed then mret []
     else
       parameters ← separated_until Or Comma parse_closure_parameter;
       _ ← expect Or "expected `|` after closure parameters";
       mret parameters);
  return_type ← parse_return_type;
  brace ← check LeftBrace;
  body ← (if (brace : bool) then b ← rec_block self; mret (CBlock b)
          else e ← rec_expression self; mret (CExpression e));
  if (is_block body && is_none return_type)%bool then
    error_with_help "a block closure requires an explicit return type" start
      "write `|arguments| -> ResultType { ... }`"
  else
    mret (mkSpanned (EClosure move_captures parameters return_type body)
            (through start (closure_body_span body))).

(** ** Data expressions *)

Definition parse_data_part : P Expr :=
  previous ← gets suppress_try;
  _ ← modify (set_suppress_try true);
  result ← rec_expression self;
  _ ← modify (set_suppress_try previous);
  mret result.

Definition parse_data_write (start : Span) (replace : bool) : P Expr :=
  value ← parse_data_part;
  _ ← expect In "expected `in` and a data store";
  store ← parse_data_part;
  mret (mkSpanned (EDataWrite value store replace) (through start (span store))).

Definition is_aggregate (kind : DataQueryKind) : bool :=
  match kind with Sum | Average | Min | Max => true | _ => false end.

Definition parse_aggregate : P Expr :=
  _ ← expect Dot "expected `.` and a field after the aggregate schema";
  '(field, field_span) ← expect_identifier "expected a field to aggregate";
  mret (mkSpanned (EIdentifier field) field_span).

Definition parse_data_order : P DataOrder :=
  order_start ← previous_span;
  key ← parse_data_part;
  descending ← match_data_word "descending";
  _ ← (if (descending : bool) then mret false else match_data_word "ascending");
  end_ ← previous_span;
  mret (mkDataOrder key descending (through order_start end_)).

Definition order_span (o : DataOrder) : Span := match o with mkDataOrder _ _ s => s end.

Definition parse_data_query (start : Span) (kind : DataQueryKind) : P Expr :=
  '(schema, schema_span) ← expect_identifier "expected a data schema after the query operation";
  aggregate ← when (is_aggregate kind) parse_aggregate;
  _ ← expect In "expected `in` and a data store";
  store ← parse_data_part;
  has_predicate ← match_data_word "where";
  predicate ← when has_predicate parse_data_part;
  next ← peek;
  if (negb (bool_decide (kind = Rows))
      && (is_word "order" (token_kind next) || is_word "limit" (token_kind next)))%bool then
    error "DISP Data aggregates accept `where` but not `order` or `limit`" (token_span next)
  else
    ordered ← (if bool_decide (kind = Rows) then match_data_word "order" else mret false);
    order ← when ordered parse_data_order;
    limited ← (if bool_decide (kind = Rows) then match_data_word "limit" else mret false);
    limit ← when limited parse_data_part;
    let end_ := match limit, order with
                | Some item, _ => span item
                | None, Some item => order_span item
                | None, None => span store
                end in
    mret (mkSpanned (EDataQuery kind schema schema_span aggregate store predicate order limit)
            (through start end_)).

Definition parse_data_remove (start : Span) : P Expr :=
  '(schema, schema_span) ← expect_identifier "expected a data schema after `remove`";
  _ ← expect In "expected `in` and a data store";
  store ← parse_data_part;
  filtered ← match_data_word "where";
  if (filtered : bool) then
    predicate ← parse_data_part;
    mret (mkSpanned (EDataRemove schema schema_span store predicate)
            (through start (span predicate)))
  else
    s ← peek_span;
    error "`remove` requires `where` so all rows cannot be deleted accidentally" s.

Definition parse_data_expression (start : Span) : P Expr :=
  '(operation, operation_span) ← expect_identifier "expected a DISP Data operation";
  if String.eqb operation "memory" then
    mret (mkSpanned (EDataStore None) (through start operation_span))
  else if String.eqb operation "open" then
    path ← parse_data_part;
    mret (mkSpanned (EDataStore (Some path)) (through start (span path)))
  else if String.eqb operation "add" then parse_data_write start false
  else if String.eqb operation "save" then parse_data_write start true
  else if String.eqb operation "find" then parse_data_query start Rows
  else if String.eqb operation "count" then parse_data_query start Count
  else if String.eqb operation "exists" then parse_data_query start Exists
  else if String.eqb operation "sum" then parse_data_query start Sum
  else if String.eqb operation "average" then parse_data_query start Average
  else if String.eqb operation "min" then parse_data_query start Min
  else if String.eqb operation "max" then parse_data_query start Max
  else if String.eqb operation "remove" then parse_data_remove start
  else
    error_with_help ("unknown DISP Data operation `" +:+ operation +:+ "`") operation_span
      "use `data memory`, `data open`, `data add`, `data save`, `data find`, `data count`, `data exists`, `data sum`, `data average`, `data min`, `data max`, or `data remove`".

(** ** Struct construction and match *)

Definition looks_like_struct_construct : P bool :=
  brace ← check LeftBrace;
  if (brace : bool) then
    first ← kind_at 1;
    second ← kind_at 2;
    mret (match first with
          | Some RightBrace => true
          | Some (Identifier _) =>
            match second with
            | Some (Colon | Comma | RightBrace) => true
            | _ => false
            end
          | _ => false
          end)
  else mret false.

Definition parse_field_value : P StructFieldValue :=
  '(field_name, field_span) ← expect_identifier "expected struct field name";
  colon ← match_token Colon;
  value ← (if (colon : bool) then rec_expression self
           else mret (mkSpanned (EIdentifier field_name) field_span));
  _ ← match_token Comma;
  mret (mkStructFieldValue field_name field_span value).

Definition parse_struct_construct (name : string) (name_span : Span) : P Expr :=
  _ ← expect LeftBrace "expected `{` in struct construction";
  fields ← while_open (λ fields, field ← parse_field_value; mret (fields ++ [field])) [];
  end_ ← expect_span RightBrace "expected `}` after struct construction";
  mret (mkSpanned (EStructConstruct name name_span fields) (through name_span end_)).

Definition parse_match_arm : P MatchArm :=
  pattern ← parse_pattern;
  guarded ← match_token If;
  guard ← when guarded (rec_expression self);
  _ ← expect FatArrow "expected `=>` after match pattern";
  arm_value ← rec_expression self;
  _ ← match_token Comma;
  mret (mkMatchArm pattern None guard arm_value (through (span pattern) (span arm_value))).

Definition parse_match (start : Span) : P Expr :=
  value ← rec_expression self;
  _ ← expect LeftBrace "expected `{` after match value";
  arms ← while_open (λ arms, arm ← parse_match_arm; mret (arms ++ [arm])) [];
  end_ ← expect_span RightBrace "expected `}` after match arms";
  mret (mkSpanned (EMatch value arms) (through start end_)).

(** ** Primary expressions and their suffixes *)

Definition parse_primary : P Expr :=
  token ← advance;
  let s := token_span token in
  match token_kind token with
  | Integer value => mret (mkSpanned (EInteger value) s)
  | Float value => mret (mkSpanned (EFloat value) s)
  | String_ value => mret (mkSpanned (EString value) s)
  | Character value => mret (mkSpanned (ECharacter value) s)
  | True_ => mret (mkSpanned (EBool true) s)
  | False_ => mret (mkSpanned (EBool false) s)
  | Data => parse_data_expression s
  | Or => parse_closure s false false
  | OrOr => parse_closure s false true
  | Identifier name =>
    construct ← (if is_type_style name then looks_like_struct_construct else mret false);
    if (construct : bool) then parse_struct_construct name s
    else mret (mkSpanned (EIdentifier name) s)
  | Match => parse_match s
  | LeftParen =>
    expression ← rec_expression self;
    end_ ← expect_span RightParen "expected `)` after expression";
    mret (mkSpanned (node expression) (through s end_))
  | LeftBracket =>
    values ← separated_until RightBracket Comma (rec_expression self);
    end_ ← expect_span RightBracket "expected `]` after array literal";
    mret (mkSpanned (EArray values) (through s end_))
  | found => error ("expected expression, found " +:+ debug_kind found) s
  end.

(** [Map.of] takes its arguments as [key: value] pairs. *)
Definition is_map_literal (expression : Expr) : bool :=
  match node expression with
  | EFieldAccess object field _ =>
    (String.eqb field "of"
     && match node object with EIdentifier name => String.eqb name "Map" | _ => false end)%bool
  | _ => false
  end.

Definition parse_argument (map_literal : bool) : P (list Expr) :=
  key ← rec_expression self;
  if map_literal then
    _ ← expect Colon "expected `:` between Map key and value";
    value ← rec_expression self;
    mret [key; value]
  else mret [key].

(** The expression a call builds: [object.slice(a, b)] is a borrowed subslice. *)
Definition call_expression (expression : Expr) (arguments : list Expr) (s : Span) : P Expr :=
  match node expression with
  | EFieldAccess object field _ =>
    if (String.eqb field "slice" || String.eqb field "slice_mut")%bool then
      match arguments with
      | [first; second] =>
        let range := mkSpanned (ESubslice object first second) s in
        mret (mkSpanned (EBorrow (String.eqb field "slice_mut") range) s)
      | _ => error ("`" +:+ field +:+ "` expects a start and end position") s
      end
    else mret (mkSpanned (ECall expression arguments) s)
  | _ => mret (mkSpanned (ECall expression arguments) s)
  end.

Definition parse_arguments (expression : Expr) : P Expr :=
  arguments ← separated_until RightParen Comma (parse_argument (is_map_literal expression));
  end_ ← expect_span RightParen "expected `)` after function arguments";
  call_expression expression (concat arguments) (through (span expression) end_).

Definition parse_field_access (expression : Expr) : P Expr :=
  spawn ← check Spawn;
  '(field, field_span) ←
    (if (spawn : bool) then token ← advance; mret ("spawn", token_span token)
     else expect_identifier "expected field after `.`");
  mret (mkSpanned (EFieldAccess expression field field_span)
          (through (span expression) field_span)).

Definition parse_index (expression : Expr) : P Expr :=
  first ← rec_expression self;
  ranged ← match_token Range;
  range ← when ranged (rec_expression self);
  end_ ← expect_span RightBracket "expected `]` after index";
  mret (mkSpanned (match range with
                   | Some last => ESubslice expression first last
                   | None => EIndex expression first
                   end) (through (span expression) end_)).

Definition match_question : P bool :=
  suppressed ← gets suppress_try;
  if (suppressed : bool) then mret false else match_token Question.

(** One turn of the loop over the suffixes. *)
Definition call_turn : Expr * Z → P (Expr * Z + Expr) :=
  λ '(expression, call_count),
    paren ← match_token LeftParen;
    if (paren : bool) then
      let call_count := call_count + 1 in
      if call_count >? MAX_CALL_CHAIN then
        s ← previous_span;
        error ("call chain exceeds the safety limit of " +:+ display_Z MAX_CALL_CHAIN) s
      else
        expression ← parse_arguments expression;
        mret (inl (expression, call_count))
    else
    dot ← match_token Dot;
    if (dot : bool) then
      expression ← parse_field_access expression; mret (inl (expression, call_count))
    else
    bracket ← match_token LeftBracket;
    if (bracket : bool) then
      expression ← parse_index expression; mret (inl (expression, call_count))
    else
    question ← match_question;
    if (question : bool) then
      end_ ← previous_span;
      mret (inl (mkSpanned (ETry expression) (through (span expression) end_), call_count))
    else mret (inr expression).

Definition parse_call : P Expr :=
  expression ← parse_primary;
  loop_ call_turn (expression, 0).

(** A prefix operator and its operand. *)
Definition parse_prefix (build : Expr → Expression) : P Expr :=
  start ← previous_span;
  operand ← with_recursion (rec_unary self);
  mret (mkSpanned (build operand) (through start (span operand))).

Definition parse_move : P Expr :=
  start ← previous_span;
  or ← match_token Or;
  if (or : bool) then parse_closure start true false else
  or_or ← match_token OrOr;
  if (or_or : bool) then parse_closure start true true else
  operand ← with_recursion (rec_unary self);
  mret (mkSpanned (EMove operand) (through start (span operand))).

Definition parse_borrow : P Expr :=
  start ← previous_span;
  mutable ← match_token Mut;
  target ← with_recursion (rec_unary self);
  mret (mkSpanned (EBorrow mutable target) (through start (span target))).

Definition parse_unary : P Expr :=
  await ← match_token Await;
  if (await : bool) then parse_prefix EAwait else
  spawn ← match_token Spawn;
  if (spawn : bool) then parse_prefix ESpawn else
  move ← match_token Move;
  if (move : bool) then parse_move else
  borrow ← match_token And;
  if (borrow : bool) then parse_borrow else
  star ← match_token Star;
  if (star : bool) then parse_prefix EDereference else
  minus ← match_token Minus;
  if (minus : bool) then parse_prefix (EUnary Negate) else
  bang ← match_token Bang;
  if (bang : bool) then parse_prefix (EUnary Not) else parse_call.

Definition parse_multiplication : P Expr :=
  parse_binary parse_unary [(Star, BMultiply); (Slash, BDivide); (Percent, BRemainder)].
Definition parse_addition : P Expr :=
  parse_binary parse_multiplication [(Plus, BAdd); (Minus, BSubtract)].
Definition parse_comparison : P Expr :=
  parse_binary parse_addition
    [(Less, BLess); (LessEqual, BLessEqual); (Greater, BGreater); (GreaterEqual, BGreaterEqual)].
Definition parse_equality : P Expr :=
  parse_binary parse_comparison [(EqualEqual, BEqual); (BangEqual, BNotEqual)].
Definition parse_and : P Expr := parse_binary parse_equality [(AndAnd, BAnd)].
Definition parse_or : P Expr := parse_binary parse_and [(OrOr, BOr)].

Definition parse_expression : P Expr := with_recursion parse_or.

(** ** Statements *)

Definition binding_kind (kind : TokenKind) : option BindingKind :=
  match kind with
  | Let => Some BLet
  | Var => Some BVar
  | Const => Some BConst
  | _ => None
  end.

(** [unreachable!] on any other keyword. *)
Definition parse_binding : P Stmt :=
  keyword ← advance;
  match binding_kind (token_kind keyword) with
  | None => panic
  | Some kind =>
    '(name, name_span) ← expect_identifier "expected binding name";
    colon ← match_token Colon;
    annotation ← when colon parse_type_name;
    equal ← match_token Equal;
    value ← when equal parse_expression;
    if (is_none value && is_none annotation)%bool then
      error "an uninitialized binding requires a type annotation" name_span
    else
      let end_ := match value, annotation with
                  | Some value, _ => span value
                  | None, Some ty => type_span ty
                  | None, None => name_span
                  end in
      _ ← match_token Semicolon;
      mret (mkSpanned (SBinding kind name name_span annotation value)
              (through (token_span keyword) end_))
  end.

Definition parse_return : P Stmt :=
  start ← previous_span;
  semicolon ← check Semicolon;
  brace ← check RightBrace;
  value ← when (negb (semicolon || brace)) parse_expression;
  _ ← match_token Semicolon;
  mret (mkSpanned (SReturn value)
          (match value with Some value => through start (span value) | None => start end)).

Definition parse_if : P Stmt :=
  start ← previous_span;
  condition ← parse_expression;
  then_branch ← rec_block self;
  else_ ← match_token Else;
  else_branch ←
    when else_
      (if_ ← match_token If;
       if (if_ : bool) then nested ← rec_if self; mret (mkBlock [nested] (span nested))
       else rec_block self);
  let end_ := match else_branch with
              | Some branch => block_span branch
              | None => block_span then_branch
              end in
  mret (mkSpanned (SIf condition then_branch else_branch) (through start end_)).

Definition parse_while : P Stmt :=
  start ← previous_span;
  condition ← parse_expression;
  body ← rec_block self;
  mret (mkSpanned (SWhile condition body) (through start (block_span body))).

Definition parse_for : P Stmt :=
  start_span ← previous_span;
  '(name, name_span) ← expect_identifier "expected loop binding after `for`";
  _ ← expect In "expected `in` after loop binding";
  start ← parse_expression;
  inclusive ← match_token RangeInclusive;
  range ← (if (inclusive : bool) then mret true else match_token Range);
  if (range : bool) then
    end_ ← parse_expression;
    body ← rec_block self;
    mret (mkSpanned (SFor name name_span start end_ inclusive body)
            (through start_span (block_span body)))
  else
    body ← rec_block self;
    mret (mkSpanned (SForEach name name_span start body)
            (through start_span (block_span body))).

Definition parse_loop : P Stmt :=
  start ← previous_span;
  body ← rec_block self;
  mret (mkSpanned (SLoop body) (through start (block_span body))).

Definition parse_unsafe : P Stmt :=
  start ← previous_span;
  capabilities ← parse_capabilities;
  body ← rec_block self;
  mret (mkSpanned (SUnsafe capabilities body) (through start (block_span body))).

(** [break] and [continue]. *)
Definition parse_jump (statement : Statement) : P Stmt :=
  s ← previous_span;
  _ ← match_token Semicolon;
  mret (mkSpanned statement s).

Definition assignment_operator (kind : TokenKind) : option AssignmentOperator :=
  match kind with
  | Equal => Some AAssign
  | PlusEqual => Some AAdd
  | MinusEqual => Some ASubtract
  | StarEqual => Some AMultiply
  | SlashEqual => Some ADivide
  | _ => None
  end.

(** The assignment after its target; [unreachable!] on any other operator. *)
Definition parse_assignment (expression : Expr) : P Stmt :=
  operator_token ← advance;
  match assignment_operator (token_kind operator_token) with
  | None => panic
  | Some operator =>
    value ← parse_expression;
    let s := through (span expression) (span value) in
    _ ← match_token Semicolon;
    mret (mkSpanned
            (match node expression with
             | EIdentifier name => SAssignment name (span expression) operator value
             | _ => SPlaceAssignment expression operator value
             end) s)
  end.

Definition parse_expression_statement : P Stmt :=
  expression ← parse_expression;
  kind ← peek_kind;
  if is_assignment kind then parse_assignment expression
  else
    _ ← match_token Semicolon;
    mret (mkSpanned (SExpression expression) (span expression)).

Definition parse_statement : P Stmt :=
  binding ← matches_any [Let; Var; Const];
  if (binding : bool) then parse_binding else
  return_ ← match_token Return;
  if (return_ : bool) then parse_return else
  if_ ← match_token If;
  if (if_ : bool) then parse_if else
  while_ ← match_token While;
  if (while_ : bool) then parse_while else
  for_ ← match_token For;
  if (for_ : bool) then parse_for else
  loop_ ← match_token Loop;
  if (loop_ : bool) then parse_loop else
  unsafe ← match_token Unsafe;
  if (unsafe : bool) then parse_unsafe else
  break_ ← match_token Break;
  if (break_ : bool) then parse_jump SBreak else
  continue_ ← match_token Continue;
  if (continue_ : bool) then parse_jump SContinue else parse_expression_statement.

Definition parse_block_inner : P Block :=
  start ← expect_span LeftBrace "expected `{`";
  statements ←
    while_open (λ statements, stmt ← parse_statement; mret (statements ++ [stmt])) [];
  end_ ← expect_span RightBrace "expected `}` after block";
  mret (mkBlock statements (through start end_)).

Definition parse_block : P Block := with_recursion parse_block_inner.
End methods.

(** The recursive methods with fuel for [fuel] calls. *)
Fixpoint parsers (fuel : nat) : Recursive :=
  match fuel with
  | O => mkRecursive panic panic panic panic panic panic
  | S fuel =>
    let self := parsers fuel in
    mkRecursive (parse_type_name self) (parse_pattern self) (parse_unary self)
      (parse_expression self) (parse_block self) (parse_if self)
  end.

(** ** Declarations *)

Section declarations.
Context (self : Recursive).

Definition parse_module_path (message : string) : P (list (Spanned string)) :=
  first ← expect_spanned message;
  loop_ (λ path,
    dot ← match_token Dot;
    if (dot : bool) then
      part ← expect_spanned "expected module path component"; mret (inl (path ++ [part]))
    else mret (inr path)) [first].

Definition parse_module_declaration : P ModuleDeclaration :=
  start ← expect_span Module_ "expected `module`";
  path ← parse_module_path "expected module name";
  let end_ := match last path with Some part => span part | None => start end in
  _ ← match_token Semicolon;
  mret (mkModuleDeclaration path (through start end_)).

Definition parse_import_item : P ImportItem :=
  '(name, s) ← expect_identifier "expected imported item name";
  as_ ← match_token As;
  '(alias, alias_span) ←
    (if (as_ : bool) then expect_identifier "expected import alias after `as`"
     else mret (name, s));
  mret (mkImportItem name s alias alias_span (through s alias_span)).

Definition parse_import_items : P (list ImportItem) :=
  selected ← separated_until RightBrace Comma parse_import_item;
  match selected with
  | [] => s ← peek_span; error "an import item list cannot be empty" s
  | _ =>
    _ ← expect RightBrace "expected `}` after imported items";
    mret selected
  end.

Definition parse_import (public : bool) : P ImportDeclaration :=
  start ← expect_span Use "expected `use`";
  first ← expect_spanned "expected module name after `use`";
  '(path, items) ← loop_ (λ path,
    dot ← match_token Dot;
    if (dot : bool) then
      brace ← match_token LeftBrace;
      if (brace : bool) then
        selected ← parse_import_items; mret (inr (path, Some selected))
      else
        part ← expect_spanned "expected module path component"; mret (inl (path ++ [part]))
    else mret (inr (path, None))) [first];
  end_ ← previous_span;
  _ ← match_token Semicolon;
  mret (mkImportDeclaration path items public (through start end_)).

(** What the modifiers of a data field have set so far. *)
Record Modifiers := mkModifiers {
  mod_primary : bool;
  mod_unique : bool;
  mod_indexed : bool;
  mod_from : option (Spanned string);
  mod_default : option Expr }.

Definition no_modifiers : Modifiers := mkModifiers false false false None None.

(** One turn of the loop over the modifiers. *)
Definition parse_modifier (m : Modifiers) : P (Modifiers + Modifiers) :=
  token ← peek;
  let kind := token_kind token in
  let s := token_span token in
  if is_word "primary" kind then
    if mod_primary m then error "duplicate `primary` data-field constraint" s else
    _ ← advance;
    mret (inl (mkModifiers true (mod_unique m) (mod_indexed m) (mod_from m) (mod_default m)))
  else if is_word "unique" kind then
    if mod_unique m then error "duplicate `unique` data-field constraint" s else
    _ ← advance;
    mret (inl (mkModifiers (mod_primary m) true (mod_indexed m) (mod_from m) (mod_default m)))
  else if is_word "index" kind then
    if mod_indexed m then error "duplicate `index` data-field constraint" s else
    _ ← advance;
    mret (inl (mkModifiers (mod_primary m) (mod_unique m) true (mod_from m) (mod_default m)))
  else if is_word "from" kind then
    if negb (is_none (mod_from m)) then error "duplicate `from` data-field migration" s else
    _ ← advance;
    _ ← expect LeftParen "expected `(` after `from`";
    name ← expect_spanned "expected prior field name";
    _ ← expect RightParen "expected `)` after prior field name";
    mret (inl (mkModifiers (mod_primary m) (mod_unique m) (mod_indexed m) (Some name)
                 (mod_default m)))
  else if is_word "default" kind then
    if negb (is_none (mod_default m)) then error "duplicate `default` data-field migration" s
    else
    _ ← advance;
    _ ← expect LeftParen "expected `(` after `default`";
    value ← parse_expression self;
    _ ← expect RightParen "expected `)` after migration default";
    mret (inl (mkModifiers (mod_primary m) (mod_unique m) (mod_indexed m) (mod_from m)
                 (Some value)))
  else mret (inr m).

Definition parse_field (data : bool) : P FieldDeclaration :=
  '(field_name, field_span) ← expect_identifier "expected field name";
  _ ← expect Colon "expected `:` after field name";
  ty ← parse_type_name self;
  m ← (if data then loop_ parse_modifier no_modifiers else mret no_modifiers);
  _ ← match_token Comma;
  mret (mkFieldDeclaration field_name field_span ty (mod_primary m) (mod_unique m)
          (mod_indexed m) (mod_from m) (mod_default m)).

Definition constraint_kind_of (kind : string) : option DataConstraintKind :=
  if String.eqb kind "unique" then Some Unique
  else if String.eqb kind "index" then Some Index else None.

Definition parse_data_constraint : P DataConstraintDeclaration :=
  start ← advance;
  '(name, name_span) ← expect_identifier "expected constraint name";
  _ ← expect Colon "expected `:` after constraint name";
  '(kind, kind_span) ← expect_identifier "expected `unique` or `index`";
  match constraint_kind_of kind with
  | None => error "expected `unique` or `index` constraint kind" kind_span
  | Some kind =>
    _ ← expect LeftParen "expected `(` after constraint kind";
    fields ← separated Comma (expect_spanned "expected constrained field name");
    end_ ← expect_span RightParen "expected `)` after constrained fields";
    _ ← match_token Comma;
    mret (mkDataConstraintDeclaration name name_span kind fields
            (through (token_span start) end_))
  end.

Definition parse_struct (data : bool) : P StructDeclaration :=
  start ← expect_span (if data then Data else Struct)
            (if data then "expected `data`" else "expected `struct`");
  '(name, name_span) ←
    expect_identifier (if data then "expected data schema name" else "expected struct name");
  generics ← parse_generic_parameters self;
  _ ← expect LeftBrace (if data then "expected `{` after data schema name"
                        else "expected `{` after struct name");
  '(fields, data_constraints) ← while_open (λ '(fields, data_constraints),
    constraint ← check_identifier "constraint";
    colon ← check_next Colon;
    if (data && constraint && negb colon)%bool then
      c ← parse_data_constraint; mret (fields, data_constraints ++ [c])
    else
      field ← parse_field data; mret (fields ++ [field], data_constraints)) ([], []);
  end_ ← expect_span RightBrace "expected `}` after struct fields";
  mret (mkStructDeclaration name name_span data false generics fields data_constraints
          (through start end_)).

Definition parse_variant : P VariantDeclaration :=
  '(variant_name, variant_span) ← expect_identifier "expected variant name";
  paren ← match_token LeftParen;
  payload ←
    (if (paren : bool) then
       payload ← separated_until RightParen Comma (parse_type_name self);
       _ ← expect RightParen "expected `)` after variant payload";
       mret payload
     else mret []);
  _ ← match_token Comma;
  mret (mkVariantDeclaration variant_name variant_span payload).

Definition parse_enum : P EnumDeclaration :=
  start ← expect_span Enum "expected `enum`";
  '(name, name_span) ← expect_identifier "expected enum name";
  generics ← parse_generic_parameters self;
  _ ← expect LeftBrace "expected `{` after enum name";
  variants ← while_open (λ variants, v ← parse_variant; mret (variants ++ [v])) [];
  end_ ← expect_span RightBrace "expected `}` after enum variants";
  mret (mkEnumDeclaration name name_span generics variants (through start end_)).

(** The receiver after [&]. *)
Definition parse_receiver : P Param :=
  start ← previous_span;
  mutable ← match_token Mut;
  '(receiver, name_span) ← expect_identifier "expected `self` after receiver `&`";
  if String.eqb receiver "self" then
    mret (mkParam receiver name_span
            (mkTypeName "Self" [] (if (mutable : bool) then MutableReference else SharedReference)
               (through start name_span)))
  else error "receiver shorthand must be `&self` or `&mut self`" name_span.

Definition parse_parameter : P Param :=
  reference ← match_token And;
  if (reference : bool) then parse_receiver
  else
    '(name, name_span) ← expect_identifier "expected parameter name";
    colon ← check Colon;
    if (String.eqb name "self" && negb colon)%bool then
      mret (mkParam name name_span (mkTypeName "Self" [] Owned name_span))
    else
      _ ← expect Colon "expected `:` after parameter name";
      ty ← parse_type_name self;
      mret (mkParam name name_span ty).

Definition parse_parameters : P (list Param) :=
  _ ← expect LeftParen "expected `(`";
  parameters ← separated_until RightParen Comma parse_parameter;
  _ ← expect RightParen "expected `)` after parameters";
  mret parameters.

Definition last_capability_span (capabilities : option (list CapabilityUse)) : option Span :=
  uses ← capabilities; use_span <$> last uses.

Definition parse_function_signature : P FunctionSignature :=
  asynchronous ← match_token Async;
  start ← expect_span Fn "expected trait method or associated type";
  '(name, name_span) ← expect_identifier "expected method name";
  generics ← parse_generic_parameters self;
  parameters ← parse_parameters;
  return_type ← parse_return_type self;
  capabilities ← parse_capabilities;
  _ ← match_token Semicolon;
  _ ← match_token Comma;
  let end_ := match last_capability_span capabilities, return_type with
              | Some s, _ => s
              | None, Some ty => type_span ty
              | None, None => name_span
              end in
  mret (mkFunctionSignature asynchronous name name_span generics parameters return_type
          capabilities (through start end_)).

Definition parse_trait : P TraitDeclaration :=
  start ← expect_span Trait "expected `trait`";
  '(name, name_span) ← expect_identifier "expected trait name";
  generics ← parse_generic_parameters self;
  _ ← expect LeftBrace "expected `{` after trait name";
  '(associated_types, methods) ← while_open (λ '(associated_types, methods),
    type ← match_token TypeKw;
    if (type : bool) then
      associated ← expect_identifier "expected associated type name";
      _ ← match_token Semicolon;
      mret (associated_types ++ [associated], methods)
    else
      method ← parse_function_signature; mret (associated_types, methods ++ [method])) ([], []);
  end_ ← expect_span RightBrace "expected `}` after trait";
  mret (mkTraitDeclaration name name_span generics associated_types methods
          (through start end_)).

(** The body after [=]: the value returned. *)
Definition concise_body (value : Expr) : Block :=
  mkBlock [mkSpanned (SReturn (Some value)) (span value)] (span value).

Definition parse_function : P Function :=
  asynchronous ← match_token Async;
  start ← expect_span Fn "expected `fn`";
  '(name, name_span) ← expect_identifier "expected function name";
  generics ← parse_generic_parameters self;
  parameters ← parse_parameters;
  return_type ← parse_return_type self;
  capabilities ← parse_capabilities;
  equal ← match_token Equal;
  body ←
    (if (equal : bool) then
       if is_none return_type then
         s ← previous_span; error "a concise function requires an explicit return type" s
       else
         value ← parse_expression self;
         _ ← match_token Semicolon;
         mret (concise_body value)
     else parse_block self);
  mret (mkFunction asynchronous name name_span generics parameters return_type capabilities
          body None false (through start (block_span body))).

Definition parse_associated_type : P (string * TypeName * Span) :=
  '(name, s) ← expect_identifier "expected associated type name";
  _ ← expect Equal "expected `=` in associated type definition";
  ty ← parse_type_name self;
  _ ← match_token Semicolon;
  mret (name, ty, s).

Definition parse_implementation : P Implementation :=
  start ← expect_span Impl "expected `impl`";
  generics ← parse_generic_parameters self;
  first ← parse_type_name self;
  for_ ← match_token For;
  '(trait_name, target) ←
    (if (for_ : bool) then target ← parse_type_name self; mret (Some first, target)
     else mret (None, first));
  _ ← expect LeftBrace "expected `{` after implementation target";
  '(associated_types, methods) ← while_open (λ '(associated_types, methods),
    type ← match_token TypeKw;
    if (type : bool) then
      associated ← parse_associated_type; mret (associated_types ++ [associated], methods)
    else
      method ← parse_function; mret (associated_types, methods ++ [method])) ([], []);
  end_ ← expect_span RightBrace "expected `}` after implementation";
  mret (mkImplementation generics trait_name target associated_types methods
          (through start end_)).

(** The ABI name after [export] or [extern]. *)
Definition expect_c_abi (message unsupported help : string) : P Span :=
  '(abi, abi_span) ← expect_identifier message;
  if String.eqb abi "C" then mret abi_span
  else error_with_help (unsupported +:+ " `" +:+ abi +:+ "`") abi_span help.

Definition parse_export_function : P Function :=
  start ← expect_span Export "expected `export`";
  _ ← expect_c_abi "expected ABI name after `export`" "unsupported export ABI"
        "the stable exported ABI is written as `export C fn name(...)`";
  f ← parse_function;
  mret (mkFunction (fn_asynchronous f) (fn_name f) (fn_name_span f) (fn_generics f)
          (fn_parameters f) (fn_return_type f) (fn_capabilities f) (fn_body f) (fn_external f)
          true (through start (fn_span f))).

Definition export_declaration_is_struct : P bool :=
  abi ← kind_at 1;
  keyword ← kind_at 2;
  mret (match abi, keyword with
        | Some (Identifier abi), Some Struct => String.eqb abi "C"
        | _, _ => false
        end).

Definition parse_export_struct : P StructDeclaration :=
  start ← expect_span Export "expected `export`";
  _ ← expect_c_abi "expected ABI name after `export`" "unsupported export ABI"
        "a stable record layout is written as `export C struct Name { ... }`";
  d ← parse_struct false;
  mret (mkStructDeclaration (struct_name d) (struct_name_span d) (struct_data d) true
          (struct_generics d) (struct_fields d) (struct_data_constraints d)
          (through start (struct_span d))).

Definition parse_library : P (option string) :=
  paren ← match_token LeftParen;
  when paren
    (token ← advance;
     match token_kind token with
     | String_ library =>
       _ ← expect RightParen "expected `)` after external library name"; mret library
     | _ => error "expected a library name string" (token_span token)
     end).

Definition parse_external_function (library : option string) : P Function :=
  function_start ← expect_span Fn "expected an external function declaration";
  '(name, name_span) ← expect_identifier "expected external function name";
  generics ← parse_generic_parameters self;
  parameters ← parse_parameters;
  return_type ← parse_return_type self;
  end_ ← (match return_type with Some ty => mret (type_span ty) | None => previous_span end);
  brace ← check LeftBrace;
  equal ← check Equal;
  if (brace || equal)%bool then
    s ← peek_span;
    error "an external function is a declaration and cannot have a DISP body" s
  else
    _ ← match_token Semicolon;
    _ ← match_token Comma;
    mret (mkFunction false name name_span generics parameters return_type
            (Some [mkCapabilityUse Foreign function_start]) (mkBlock [] end_)
            (Some (mkExternalFunction AbiC library name)) false (through function_start end_)).

Definition parse_extern_block : P (list Function) :=
  start ← expect_span Extern "expected `extern`";
  abi_span ← expect_c_abi "expected ABI name after `extern`" "unsupported external ABI"
               "the defined foreign ABI is written as `extern C { ... }`";
  library ← parse_library;
  _ ← expect LeftBrace "expected `{` after external ABI declaration";
  functions ← while_open (λ functions,
    f ← parse_external_function library; mret (functions ++ [f])) [];
  _ ← expect RightBrace "expected `}` after external declarations";
  match functions with
  | [] => error "an external block must declare at least one function" (through start abi_span)
  | _ => mret functions
  end.

(** ** Programs *)

Definition publish (public : bool) (items : list (Spanned string)) (p : Program) : Program :=
  mkProgram (program_source_files p) (program_module p) (program_imports p)
    (program_public_items p ++ (if public then items else []))
    (program_structs p) (program_enums p) (program_traits p) (program_implementations p)
    (program_functions p).
Definition push_import (d : ImportDeclaration) (p : Program) : Program :=
  mkProgram (program_source_files p) (program_module p) (program_imports p ++ [d])
    (program_public_items p) (program_structs p) (program_enums p) (program_traits p)
    (program_implementations p) (program_functions p).
Definition push_struct (d : StructDeclaration) (p : Program) : Program :=
  mkProgram (program_source_files p) (program_module p) (program_imports p)
    (program_public_items p) (program_structs p ++ [d]) (program_enums p) (program_traits p)
    (program_implementations p) (program_functions p).
Definition push_enum (d : EnumDeclaration) (p : Program) : Program :=
  mkProgram (program_source_files p) (program_module p) (program_imports p)
    (program_public_items p) (program_structs p) (program_enums p ++ [d]) (program_traits p)
    (program_implementations p) (program_functions p).
Definition push_trait (d : TraitDeclaration) (p : Program) : Program :=
  mkProgram (program_source_files p) (program_module p) (program_imports p)
    (program_public_items p) (program_structs p) (program_enums p) (program_traits p ++ [d])
    (program_implementations p) (program_functions p).
Definition push_implementation (d : Implementation) (p : Program) : Program :=
  mkProgram (program_source_files p) (program_module p) (program_imports p)
    (program_public_items p) (program_structs p) (program_enums p) (program_traits p)
    (program_implementations p ++ [d]) (program_functions p).
Definition push_functions (ds : list Function) (p : Program) : Program :=
  mkProgram (program_source_files p) (program_module p) (program_imports p)
    (program_public_items p) (program_structs p) (program_enums p) (program_traits p)
    (program_implementations p) (program_functions p ++ ds).

(** One turn of the loop over the declarations, after [pub]. *)
Definition parse_declaration (public : bool) (p : Program) : P Program :=
  use ← check Use;
  if (use : bool) then d ← parse_import public; mret (push_import d p) else
  struct_ ← check Struct;
  data ← check Data;
  if (struct_ || data)%bool then
    d ← parse_struct data;
    mret (push_struct d (publish public [mkSpanned (struct_name d) (struct_name_span d)] p))
  else
  enum ← check Enum;
  if (enum : bool) then
    d ← parse_enum;
    mret (push_enum d (publish public [mkSpanned (enum_name d) (enum_name_span d)] p))
  else
  fn ← check Fn;
  async ← check Async;
  if (fn || async)%bool then
    d ← parse_function;
    mret (push_functions [d] (publish public [mkSpanned (fn_name d) (fn_name_span d)] p))
  else
  export ← check Export;
  if (export : bool) then
    if public then
      s ← previous_span;
      error "`export C` already defines external visibility and cannot be combined with `pub`" s
    else
      is_struct ← export_declaration_is_struct;
      if (is_struct : bool) then d ← parse_export_struct; mret (push_struct d p)
      else d ← parse_export_function; mret (push_functions [d] p)
  else
  extern ← check Extern;
  if (extern : bool) then
    ds ← parse_extern_block;
    mret (push_functions ds
            (publish public ((λ d, mkSpanned (fn_name d) (fn_name_span d)) <$> ds) p))
  else
  trait ← check Trait;
  if (trait : bool) then
    d ← parse_trait;
    mret (push_trait d (publish public [mkSpanned (trait_name d) (trait_name_span d)] p))
  else
  impl ← check Impl;
  if (impl : bool) then
    if public then
      s ← previous_span; error "`pub` applies to named declarations, not implementation blocks" s
    else d ← parse_implementation; mret (push_implementation d p)
  else
    s ← peek_span; error "expected a top-level declaration or `use` import" s.

Definition parse_program : P Program :=
  has_module ← check Module_;
  module ← when has_module parse_module_declaration;
  loop_ (λ p,
    eof ← check Eof;
    if (eof : bool) then mret (inr p)
    else
      public ← match_token Pub;
      p ← parse_declaration public p;
      mret (inl p)) (mkProgram [] module [] [] [] [] [] [] []).
End declarations.

(** [Parser::new(tokens).parse()]. *)
Definition parse (ts : list Token) : outcome Diagnostic Program :=
  let s := new ts in
  '(p, _) ← parse_program (parsers (S (remaining s))) s;
  Ok p.
End parser.
