(* ===== verification/ParserForm.v ===== *)
(** * What the parser promises about the trees it returns

    [program_ok]: the shape every later pass takes for granted.  [expr_ok d e] is an
    expression parsed at recursion depth [d]: operands in argument position, prefix
    operands and blocks are one level deeper, and no level exceeds
    [MAX_EXPRESSION_DEPTH]; operators, field accesses and [else if] chains stay on their
    level. *)

From S2P Require Import Prelude Machine Diagnostics Limits StateM Ast Lexer Parser.
#[local] Open Scope string_scope.
#[local] Open Scope list_scope.
#[local] Open Scope Z_scope.

Definition fits (d : Z) : bool := d <=? MAX_EXPRESSION_DEPTH.

Definition on_option {A} (p : A → bool) (o : option A) : bool :=
  match o with Some a => p a | None => true end.

(** ** Types, patterns, capabilities *)

(** [mut ptr] and [ptr] are the only raw pointers, and a function type has a result. *)
Fixpoint type_ok (t : TypeName) : bool :=
  match t with
  | mkTypeName name arguments qualifier _ =>
    (match qualifier with
     | RawConstPointer | RawMutPointer => String.eqb name "ptr"
     | Owned => negb (String.eqb name "ptr")
     | SharedReference | MutableReference => true
     end)
    && forallb type_ok arguments
  end%bool.

Definition is_or (p : Pattern) : bool := match p with POr _ => true | _ => false end.

(** ** Implications between tests *)

Lemma imp_and a a' b b' :
  (a = true → a' = true) → (b = true → b' = true) → (a && b)%bool = true → (a' && b')%bool = true.
Proof. rewrite !andb_true_iff. tauto. Qed.
Lemma imp_or a a' b b' :
  (a = true → a' = true) → (b = true → b' = true) → (a || b)%bool = true → (a' || b')%bool = true.
Proof. rewrite !orb_true_iff. tauto. Qed.
Lemma imp_forallb {A} (p p' : A → bool) l :
  Forall (λ a, p a = true → p' a = true) l → forallb p l = true → forallb p' l = true.
Proof. induction 1; simpl; [done|]. by apply imp_and. Qed.
Lemma imp_option {A} (p p' : A → bool) o :
  on_some (λ a, p a = true → p' a = true) o → on_option p o = true → on_option p' o = true.
Proof. by destruct o. Qed.
Lemma fits_mono d d' : d' <= d → fits d = true → fits d' = true.
Proof. unfold fits. rewrite !Z.leb_le. lia. Qed.

Section forms.
Context `{TokenText}.

(** An or-pattern has at least two alternatives, none of them an or-pattern; types and
    variants are capitalised. *)
Fixpoint pattern_ok (p : Pattern) : bool :=
  match p with
  | POr alternatives =>
    (2 <=? zlen alternatives)
    && forallb (λ a, negb (is_or (node a)) && pattern_ok (node a)) alternatives
  | PStruct name fields _ => is_type_style name && forallb pattern_field_ok fields
  | PVariant type_name variant arguments =>
    is_type_style (default variant type_name) && forallb (λ a, pattern_ok (node a)) arguments
  | _ => true
  end%bool
with pattern_field_ok (f : StructPatternField) : bool :=
  match f with mkStructPatternField _ _ pattern => pattern_ok (node pattern) end.

Definition param_ok (p : Param) : bool := type_ok (parameter_ty p).

(** No capability is named twice. *)
Definition capabilities_ok (c : option (list CapabilityUse)) : bool :=
  on_option (λ uses, bool_decide (NoDup (use_capability <$> uses))) c.

(** ** Expressions and statements *)

(** A call of [slice] or [slice_mut] is a borrowed subslice, never a call, and [Map.of]
    has a value for each key. *)
Definition is_slice (e : Expression) : bool :=
  match e with
  | EFieldAccess _ field _ => String.eqb field "slice" || String.eqb field "slice_mut"
  | _ => false
  end%bool.
Definition call_ok (callee : Expr) (arguments : list Expr) : bool :=
  (negb (is_slice (node callee))
   && (negb (is_map_literal callee) || Z.even (zlen arguments)))%bool.

Definition is_identifier_expr (e : Expression) : bool :=
  match e with EIdentifier _ => true | _ => false end.
Definition is_subslice (e : Expression) : bool :=
  match e with ESubslice _ _ _ => true | _ => false end.
Definition is_if (s : Statement) : bool := match s with SIf _ _ _ => true | _ => false end.

Fixpoint expr_ok (d : Z) (e : Expression) : bool :=
  let sub (x : Expr) := (fits (d + 1) && expr_ok (d + 1) (node x))%bool in
  match e with
  | EArray values => forallb sub values
  | EInteger _ | EFloat _ | EString _ | ECharacter _ | EBool _ | EIdentifier _ => true
  | EDataStore path => on_option sub path
  | EDataWrite value store _ => sub value && sub store
  | EDataQuery kind _ _ aggregate store predicate order limit =>
    bool_decide (is_aggregate kind = negb (is_none aggregate))
    && on_option (λ a, is_identifier_expr (node a)) aggregate
    && sub store && on_option sub predicate
    && (bool_decide (kind = Rows) || (is_none order && is_none limit))
    && on_option (order_ok d) order && on_option sub limit
  | EDataRemove _ _ store predicate => sub store && sub predicate
  | EClosure _ parameters return_type body =>
    forallb param_ok parameters && on_option type_ok return_type
    && (negb (is_block body) || negb (is_none return_type)) && body_ok d body
  | EStructConstruct _ _ fields => forallb (field_value_ok d) fields
  | EFieldAccess object _ _ => expr_ok d (node object)
  | EIndex object index => expr_ok d (node object) && sub index
  | ESubslice object first last => expr_ok d (node object) && sub first && sub last
  | EMatch value arms => sub value && forallb (arm_ok d) arms
  | ETry value => expr_ok d (node value)
  | EAwait value | ESpawn value | EMove value | EDereference value | EUnary _ value => sub value
  | EBorrow _ target => (is_subslice (node target) && expr_ok d (node target)) || sub target
  | EBinary l _ r => expr_ok d (node l) && expr_ok d (node r)
  | ECall callee arguments =>
    call_ok callee arguments && expr_ok d (node callee) && forallb sub arguments
  end%bool
with order_ok (d : Z) (o : DataOrder) : bool :=
  match o with mkDataOrder key _ _ => (fits (d + 1) && expr_ok (d + 1) (node key))%bool end
with body_ok (d : Z) (b : ClosureBody) : bool :=
  match b with
  | CExpression value => (fits (d + 1) && expr_ok (d + 1) (node value))%bool
  | CBlock block => block_ok d block
  end
with field_value_ok (d : Z) (f : StructFieldValue) : bool :=
  match f with
  | mkStructFieldValue _ _ value =>
    (is_identifier_expr (node value) || (fits (d + 1) && expr_ok (d + 1) (node value)))%bool
  end
with arm_ok (d : Z) (a : MatchArm) : bool :=
  let sub (x : Expr) := (fits (d + 1) && expr_ok (d + 1) (node x))%bool in
  match a with
  | mkMatchArm pattern alternative_group guard value _ =>
    (pattern_ok (node pattern) && is_none alternative_group && on_option sub guard && sub value)%bool
  end
with stmt_ok (d : Z) (s : Statement) : bool :=
  let sub (x : Expr) := (fits (d + 1) && expr_ok (d + 1) (node x))%bool in
  match s with
  | SBinding _ _ _ annotation value =>
    negb (is_none annotation && is_none value) && on_option type_ok annotation
    && on_option sub value
  | SAssignment _ _ _ value => sub value
  | SPlaceAssignment target _ value =>
    negb (is_identifier_expr (node target)) && sub target && sub value
  | SExpression value => sub value
  | SReturn value => on_option sub value
  | SIf condition then_branch else_branch =>
    sub condition && block_ok d then_branch && on_option (else_ok d) else_branch
  | SWhile condition body => sub condition && block_ok d body
  | SFor _ _ first last _ body => sub first && sub last && block_ok d body
  | SForEach _ _ iterable body => sub iterable && block_ok d body
  | SLoop body => block_ok d body
  | SUnsafe capabilities body => capabilities_ok capabilities && block_ok d body
  | SBreak | SContinue => true
  end%bool
with block_ok (d : Z) (b : Block) : bool :=
  match b with
  | mkBlock statements _ =>
    (fits (d + 1) && forallb (λ s, stmt_ok (d + 1) (node s)) statements)%bool
  end
(** The branch of [else]: a block, or the [if] of an [else if] on the same level. *)
with else_ok (d : Z) (b : Block) : bool :=
  match b with
  | mkBlock statements _ =>
    (fits (d + 1) && forallb (λ s, stmt_ok (d + 1) (node s)) statements)
    || match statements with
       | [s] => is_if (node s) && stmt_ok d (node s)
       | _ => false
       end
  end%bool.

Definition sub_ok (d : Z) (e : Expr) : bool := (fits (d + 1) && expr_ok (d + 1) (node e))%bool.

(** A tree that fits at one depth fits at any smaller one. *)
Ltac weaken :=
  repeat first
    [ exact (λ H, H) | apply imp_and | apply imp_or | apply imp_forallb | apply imp_option
    | apply fits_mono; lia
    | match goal with IH : ∀ d d', d' <= d → _ |- _ => apply IH; lia end
    | match goal with IH : Forall _ _ |- Forall _ _ =>
        eapply Forall_impl; [exact IH|]; let x := fresh in let Hx := fresh in intros x Hx;
        cbv beta in Hx |- * end
    | match goal with IH : on_some _ ?o |- on_some _ ?o =>
        destruct o; simpl in IH |- *; [|exact I] end ].

Lemma form_mono :
  (∀ e d d', d' <= d → expr_ok d e = true → expr_ok d' e = true)
  ∧ (∀ o d d', d' <= d → order_ok d o = true → order_ok d' o = true)
  ∧ (∀ b d d', d' <= d → body_ok d b = true → body_ok d' b = true)
  ∧ (∀ f d d', d' <= d → field_value_ok d f = true → field_value_ok d' f = true)
  ∧ (∀ a d d', d' <= d → arm_ok d a = true → arm_ok d' a = true)
  ∧ (∀ s d d', d' <= d → stmt_ok d s = true → stmt_ok d' s = true)
  ∧ (∀ b d d', d' <= d → (block_ok d b = true → block_ok d' b = true)
                        ∧ (else_ok d b = true → else_ok d' b = true)).
Proof.
  apply syntax_mind; intros; nested; try split; simpl;
    repeat match goal with H : _ = true |- _ => revert H end; weaken.
  destruct statements as [|s [|] ]; [done| |done]. apply Forall_inv in H0. weaken.
Qed.

Lemma expr_ok_mono d e : expr_ok (d + 1) e = true → expr_ok d e = true.
Proof. apply form_mono. lia. Qed.

(** ** Declarations *)

Definition generic_ok (g : GenericParameter) : bool := forallb type_ok (generic_constraints g).

(** Constraints, migrations and keys are the privilege of [data] declarations. *)
Definition field_ok (data : bool) (f : FieldDeclaration) : bool :=
  (type_ok (field_ty f)
   && (data || negb (field_primary f || field_unique f || field_indexed f
                     || negb (is_none (field_migration_from f))
                     || negb (is_none (field_migration_default f))))
   && on_option (sub_ok 0) (field_migration_default f))%bool.
Definition constraint_ok (c : DataConstraintDeclaration) : bool :=
  match constraint_fields c with [] => false | _ => true end.
Definition struct_ok (d : StructDeclaration) : bool :=
  (forallb generic_ok (struct_generics d)
   && forallb (field_ok (struct_data d)) (struct_fields d)
   && forallb constraint_ok (struct_data_constraints d)
   && (struct_data d || match struct_data_constraints d with [] => true | _ => false end)
   && negb (struct_data d && struct_c_abi d))%bool.

Definition enum_ok (d : EnumDeclaration) : bool :=
  (forallb generic_ok (enum_generics d)
   && forallb (λ v, forallb type_ok (variant_payload v)) (enum_variants d))%bool.

(** A body is a block or the value of a concise function, which declares its type. *)
Definition concise_ok (return_type : option TypeName) (b : Block) : bool :=
  match b with
  | mkBlock [mkSpanned (SReturn (Some value)) _] _ =>
    (negb (is_none return_type) && sub_ok 0 value)%bool
  | _ => false
  end.

(** An external function has no body, claims [Foreign] and is not exported. *)
Definition external_ok (f : Function) : bool :=
  match fn_external f, fn_body f, fn_capabilities f with
  | Some external, mkBlock [] _, Some [use] =>
    (String.eqb (external_link_name external) (fn_name f)
     && bool_decide (use_capability use = Foreign) && negb (fn_exported f))%bool
  | _, _, _ => false
  end.
Definition function_ok (f : Function) : bool :=
  (forallb generic_ok (fn_generics f) && forallb param_ok (fn_parameters f)
   && on_option type_ok (fn_return_type f) && capabilities_ok (fn_capabilities f)
   && (external_ok f
       || (is_none (fn_external f)
           && (block_ok 0 (fn_body f) || concise_ok (fn_return_type f) (fn_body f)))))%bool.

Definition signature_ok (f : FunctionSignature) : bool :=
  (forallb generic_ok (sig_generics f) && forallb param_ok (sig_parameters f)
   && on_option type_ok (sig_return_type f) && capabilities_ok (sig_capabilities f))%bool.
Definition trait_ok (d : TraitDeclaration) : bool :=
  (forallb generic_ok (trait_generics d) && forallb signature_ok (trait_methods d))%bool.
Definition implementation_ok (d : Implementation) : bool :=
  (forallb generic_ok (impl_generics d) && on_option type_ok (impl_trait_name d)
   && type_ok (impl_target d) && forallb (λ '(_, ty, _), type_ok ty) (impl_associated_types d)
   && forallb function_ok (impl_methods d))%bool.

Definition is_nil {A} (l : list A) : bool := match l with [] => true | _ => false end.
Definition import_ok (d : ImportDeclaration) : bool :=
  (negb (is_nil (import_path d)) && on_option (λ items, negb (is_nil items)) (import_items d))%bool.
Definition module_ok (d : ModuleDeclaration) : bool := negb (is_nil (module_path d)).

(** The names [pub] may publish. *)
Definition declared_names (p : Program) : list string :=
  (struct_name <$> program_structs p) ++ (enum_name <$> program_enums p)
  ++ (trait_name <$> program_traits p) ++ (fn_name <$> program_functions p).

Definition program_ok (p : Program) : bool :=
  (on_option module_ok (program_module p) && forallb import_ok (program_imports p)
   && forallb struct_ok (program_structs p) && forallb enum_ok (program_enums p)
   && forallb trait_ok (program_traits p)
   && forallb implementation_ok (program_implementations p)
   && forallb function_ok (program_functions p)
   && forallb (λ i, existsb (String.eqb (node i)) (declared_names p)) (program_public_items p))%bool.
End forms.
