(* ===== verification/ParserLogic.v ===== *)
(** * Reasoning about the parser's methods

    [parses d n Q Φ m]: from any state that is [ready], at recursion depth [d] and with at
    most [n] units of tokens left, [m] does not panic, and when it returns [a] the state is
    [ready] again, the depth and the [?] flag are what they were, [Φ a] holds, and tokens
    were consumed if [Q a].  Loops consume on every turn, and a recursive call comes after
    a consumed token: rules for [S n] hand [n] to what follows. *)

From S2P Require Import Prelude Machine Diagnostics Limits StateM Ast Lexer Parser.
#[local] Open Scope list_scope.
#[local] Open Scope nat_scope.

Record ready (s : Parser) : Prop := {
  ready_current : current s < length (tokens s);
  ready_eof : token_kind <$> last (tokens s) = Some Eof;
  ready_depth : (0 <= recursion_depth s <= MAX_EXPRESSION_DEPTH)%Z }.

Definition same (s s' : Parser) : Prop :=
  recursion_depth s' = recursion_depth s ∧ suppress_try s' = suppress_try s.

Definition at_token (t : Token) (s : Parser) : Prop := tokens s !! current s = Some t.

Definition after {A} (Q : A → bool) (Φ : A → Prop) (s : Parser) : A * Parser → Prop :=
  λ '(a, s'), ready s' ∧ same s s' ∧ Φ a
              ∧ (if Q a then remaining s' < remaining s else remaining s' <= remaining s).

Definition parses {A} (d : Z) (n : nat) (Q : A → bool) (Φ : A → Prop) (m : P A) : Prop :=
  ∀ s, ready s → recursion_depth s = d → remaining s <= n → safe (m s) (after Q Φ s).

(** The same when the next token is known. *)
Definition parses_at {A} (t : Token) (d : Z) (n : nat) (Q : A → bool) (Φ : A → Prop)
    (m : P A) : Prop :=
  ∀ s, ready s → recursion_depth s = d → remaining s <= n → at_token t s →
       safe (m s) (after Q Φ s).

(** Code that only looks at the state. *)
Definition reads {A} (Φ : A → Prop) (m : P A) : Prop :=
  ∀ s, ready s → ∃ a, m s = Ok (a, s) ∧ Φ a.

Definition strict {A} : A → bool := λ _, true.
Definition weak {A} : A → bool := λ _, false.
Definition moved {A B} : A + B → bool := λ r, match r with inl _ => true | inr _ => false end.
Definition anything {A} : A → Prop := λ _, True.

(** ** The state *)

Lemma ready_token s : ready s → ∃ t, at_token t s.
Proof. intros []. by apply lookup_lt_is_Some. Qed.

Lemma at_token_det t t' s : at_token t s → at_token t' s → t = t'.
Proof. unfold at_token. congruence. Qed.

Lemma peek_at t s : ready s → at_token t s → peek s = Ok (t, s).
Proof.
  intros [] Ht. unfold peek. rewrite Nat.min_l by lia. by rewrite Ht.
Qed.

Lemma remaining_at t s :
  at_token t s → remaining s = weight t + remaining (set_current (S (current s)) s).
Proof. intros Ht. unfold remaining. simpl. by rewrite (drop_S _ t). Qed.

Lemma weight_pos t : 0 < weight t.
Proof. unfold weight. destruct (token_kind t); lia. Qed.

(** Moving over any token but the last keeps the cursor inside. *)
Lemma ready_next t s :
  ready s → at_token t s → token_kind t ≠ Eof → ready (set_current (S (current s)) s).
Proof.
  intros [Hc He Hd] Ht Hk. split; simpl; [|done|done].
  destruct (decide (S (current s) = length (tokens s))) as [E|]; [|lia].
  exfalso. apply Hk. unfold at_token in Ht. rewrite last_lookup, <- E in He. simpl in He.
  rewrite Ht in He. by simplify_eq/=.
Qed.

Lemma advance_at t s :
  ready s → at_token t s → token_kind t ≠ Eof →
  advance s = Ok (t, set_current (S (current s)) s).
Proof.
  intros Hr Ht Hk. unfold advance, mbind, SM_bind. rewrite (peek_at t) by done. simpl.
  by destruct (token_kind t).
Qed.

Lemma advance_eof t s :
  ready s → at_token t s → token_kind t = Eof → advance s = Ok (t, s).
Proof.
  intros Hr Ht Hk. unfold advance, mbind, SM_bind. rewrite (peek_at t) by done. simpl.
  by rewrite Hk.
Qed.

(** ** Structural rules *)

Lemma parses_at_of {A} t d n Q (Φ : A → Prop) m : parses d n Q Φ m → parses_at t d n Q Φ m.
Proof. intros H s ????. auto. Qed.

Lemma parses_intro {A} d n Q (Φ : A → Prop) m :
  (∀ t, parses_at t d n Q Φ m) → parses d n Q Φ m.
Proof. intros H s Hr Hd Hn. destruct (ready_token s Hr) as [t Ht]. by apply (H t). Qed.

Lemma parses_mono {A} d n n' Q (Φ Ψ : A → Prop) m :
  parses d n Q Φ m → n' <= n → (∀ a, Φ a → Ψ a) → parses d n' Q Ψ m.
Proof.
  intros H Hn HΦ s Hr Hd Hs. eapply safe_mono; [apply H; [done|done|lia]|].
  intros [a s'] (?&?&?&?). split_and!; auto.
Qed.

Lemma parses_pred {A} d n Q (Φ : A → Prop) m : parses d (S n) Q Φ m → parses d n Q Φ m.
Proof. intros H. eapply parses_mono; [done|lia|done]. Qed.

Lemma parses_weaken {A} d n Q (Φ : A → Prop) m : parses d n Q Φ m → parses d n weak Φ m.
Proof.
  intros H s Hr Hd Hs. eapply safe_mono; [by apply H|].
  intros [a s'] (?&?&?&HQ). split_and!; [done..|]. simpl. destruct (Q a); lia.
Qed.

Lemma same_trans s s1 s2 : same s s1 → same s1 s2 → same s s2.
Proof. intros [] []. split; congruence. Qed.

Lemma safe_SM_bind {A B} (m : P A) (f : A → P B) s Q R :
  safe (m s) Q → (∀ a s', Q (a, s') → safe (f a s') R) → safe ((m ≫= f) s) R.
Proof.
  intros Hm Hf. unfold mbind, SM_bind. eapply safe_bind; [exact Hm|].
  intros [a s'] _ HQ. by apply Hf.
Qed.

(** After a consumed token the rest need not consume. *)
Lemma parses_bind {A B} d n Qm Q (Φ : A → Prop) (Ψ : B → Prop) m f :
  parses d (S n) Qm Φ m →
  (∀ a, Φ a → if Qm a then parses d n weak Ψ (f a) else parses d (S n) Q Ψ (f a)) →
  parses d (S n) Q Ψ (m ≫= f).
Proof.
  intros Hm Hf s Hr Hd Hn. eapply safe_SM_bind; [by apply Hm|].
  intros a s1 (Hr1 & Hs1 & HΦ & HQ). specialize (Hf a HΦ).
  assert (recursion_depth s1 = d) by (destruct Hs1; congruence).
  destruct (Qm a); (eapply safe_mono; [apply Hf; [done..|lia]|]);
    intros [b s2] (?&Hs2&?&HQ2); (split_and!; [done|by eapply same_trans|done|]).
  - simpl in HQ2. destruct (Q b); lia.
  - destruct (Q b); lia.
Qed.

Lemma parses_bind_weak {A B} d n Qm (Φ : A → Prop) (Ψ : B → Prop) m f :
  parses d n Qm Φ m → (∀ a, Φ a → parses d n weak Ψ (f a)) →
  parses d n weak Ψ (m ≫= f).
Proof.
  intros Hm Hf s Hr Hd Hn. eapply safe_SM_bind; [by apply Hm|].
  intros a s1 (Hr1 & Hs1 & HΦ & HQ). specialize (Hf a HΦ).
  assert (recursion_depth s1 = d) by (destruct Hs1; congruence).
  eapply safe_mono; [apply Hf; [done..|destruct (Qm a); lia]|].
  intros [b s2] (?&Hs2&?&HQ2). split_and!; [done|by eapply same_trans|done|].
  simpl in *. destruct (Qm a); lia.
Qed.

Lemma parses_ret {A} d n Q (Φ : A → Prop) a : Q a = false → Φ a → parses d n Q Φ (mret a).
Proof. intros HQ HΦ s Hr Hd Hn. simpl. split_and!; try done. by rewrite HQ. Qed.

Lemma parses_error {A} d n Q (Φ : A → Prop) message sp : parses d n Q Φ (error message sp).
Proof. by intros s Hr Hd Hn. Qed.
Lemma parses_error_with_help {A} d n Q (Φ : A → Prop) message sp help :
  parses d n Q Φ (error_with_help message sp help).
Proof. by intros s Hr Hd Hn. Qed.

Lemma parses_reads {A} d n (Φ : A → Prop) m : reads Φ m → parses d n weak Φ m.
Proof.
  intros H s Hr Hd Hn. destruct (H s Hr) as (a & -> & ?). simpl. split_and!; done.
Qed.

(** ** Rules for a known next token *)

Lemma parses_at_reads {A B} t d n Q (Φ : A → Prop) (Ψ : B → Prop) m f :
  reads Φ m → (∀ a, Φ a → parses_at t d n Q Ψ (f a)) → parses_at t d n Q Ψ (m ≫= f).
Proof.
  intros Hm Hf s Hr Hd Hn Ht. destruct (Hm s Hr) as (a & Ha & HΦ).
  rewrite (SM_bind_run _ _ _ _ _ Ha). by apply Hf.
Qed.

Lemma parses_at_advance {A} t d n Q (Φ : A → Prop) f :
  token_kind t ≠ Eof → parses d n weak Φ (f t) →
  parses_at t d (S n) Q Φ (advance ≫= f).
Proof.
  intros Hk Hf s Hr Hd Hn Ht. rewrite (SM_bind_run _ _ _ _ _ (advance_at t s Hr Ht Hk)).
  pose proof (remaining_at t s Ht) as HR. pose proof (weight_pos t).
  eapply safe_mono; [apply Hf; [by eapply ready_next|done|lia]|].
  intros [a s'] (?&Hs&?&HQ). split_and!; [done|by destruct Hs|done|].
  simpl in HQ. destruct (Q a); lia.
Qed.

Lemma parses_at_advance_same {A} t d n Q (Φ : A → Prop) f :
  token_kind t ≠ Eof → parses d n weak Φ (f t) → parses_at t d n Q Φ (advance ≫= f).
Proof.
  intros Hk Hf s Hr Hd Hn Ht.
  eapply (parses_at_advance t d n); [done|done|done|done|lia|done].
Qed.

Lemma parses_at_ret {A B} t d n Q (Ψ : B → Prop) (a : A) f :
  parses_at t d n Q Ψ (f a) → parses_at t d n Q Ψ (mret a ≫= f).
Proof. done. Qed.

Lemma parses_at_eof {A} t d n Q (Φ : A → Prop) f :
  token_kind t = Eof → parses d n Q Φ (f t) → parses_at t d n Q Φ (advance ≫= f).
Proof.
  intros Hk Hf s Hr Hd Hn Ht. rewrite (SM_bind_run _ _ _ _ _ (advance_eof t s Hr Ht Hk)).
  by apply Hf.
Qed.

Lemma parses_peek {A} d n Q (Φ : A → Prop) f :
  (∀ t, parses_at t d n Q Φ (f t)) → parses d n Q Φ (peek ≫= f).
Proof.
  intros Hf. apply parses_intro. intros t s Hr Hd Hn Ht.
  rewrite (SM_bind_run _ _ _ _ _ (peek_at t s Hr Ht)). by apply Hf.
Qed.

Lemma peek_kind_at t s : ready s → at_token t s → peek_kind s = Ok (token_kind t, s).
Proof.
  intros. unfold peek_kind. by rewrite (SM_bind_run _ _ _ _ _ (peek_at t s ltac:(done) ltac:(done))).
Qed.

Lemma parses_peek_kind {A} d n Q (Φ : A → Prop) f :
  (∀ t, parses_at t d n Q Φ (f (token_kind t))) → parses d n Q Φ (peek_kind ≫= f).
Proof.
  intros Hf. apply parses_intro. intros t s Hr Hd Hn Ht.
  rewrite (SM_bind_run _ _ _ _ _ (peek_kind_at t s Hr Ht)). by apply Hf.
Qed.

(** [advance] as the first step: its continuation fails on the last token. *)
Lemma parses_advance {A} d n Q (Φ : A → Prop) f :
  (∀ t, token_kind t ≠ Eof → parses d n weak Φ (f t)) →
  (∀ t, token_kind t = Eof → parses d (S n) Q Φ (f t)) →
  parses d (S n) Q Φ (advance ≫= f).
Proof.
  intros H1 H2. apply parses_intro. intros t. destruct (decide (token_kind t = Eof)).
  - apply parses_at_eof; auto.
  - apply parses_at_advance; auto.
Qed.

Lemma parses_advance_weak d n : parses d n weak anything advance.
Proof.
  apply parses_intro. intros t s Hr Hd Hn Ht. destruct (decide (token_kind t = Eof)).
  - rewrite (advance_eof t) by done. simpl. split_and!; [done..|lia].
  - rewrite (advance_at t) by done. simpl. pose proof (remaining_at t s Ht) as HR.
    split_and!; [by eapply ready_next|done|done|lia].
Qed.

(** ** The readers *)

Lemma reading_peek : reads anything peek.
Proof. intros s Hr. destruct (ready_token s Hr) as [t Ht]. exists t. by rewrite (peek_at t). Qed.

Lemma reading_bind {A B} (Φ : A → Prop) (Ψ : B → Prop) m f :
  reads Φ m → (∀ a, Φ a → reads Ψ (f a)) → reads Ψ (m ≫= f).
Proof.
  intros Hm Hf s Hr. destruct (Hm s Hr) as (a & Ha & HΦ). rewrite (SM_bind_run _ _ _ _ _ Ha).
  by apply Hf.
Qed.

Lemma reading_ret {A} (Φ : A → Prop) a : Φ a → reads Φ (mret a).
Proof. intros HΦ s Hr. by exists a. Qed.

Lemma reads_gets {A} (f : Parser → A) : reads anything (gets f).
Proof. intros s Hr. by exists (f s). Qed.

Lemma reads_peek_kind : reads anything peek_kind.
Proof. eapply reading_bind; [apply reading_peek|]. intros t _. by apply reading_ret. Qed.
Lemma reads_peek_span : reads anything peek_span.
Proof. eapply reading_bind; [apply reading_peek|]. intros t _. by apply reading_ret. Qed.
Lemma reads_check k : reads anything (check k).
Proof. eapply reading_bind; [apply reads_peek_kind|]. intros t _. by apply reading_ret. Qed.
Lemma reads_matches_any ks : reads anything (matches_any ks).
Proof. eapply reading_bind; [apply reads_peek_kind|]. intros t _. by apply reading_ret. Qed.
Lemma reads_check_identifier w : reads anything (check_identifier w).
Proof. eapply reading_bind; [apply reads_peek_kind|]. intros t _. by apply reading_ret. Qed.
Lemma reads_kind_at n : reads anything (kind_at n).
Proof. apply reads_gets. Qed.

Lemma reads_check_next k : reads anything (check_next k).
Proof.
  intros s [Hc _ _]. unfold check_next.
  destruct (lookup_lt_is_Some_2 (tokens s) (Nat.min (current s + 1) (length (tokens s) - 1)))
    as [t ->]; [lia|]. eexists. by split.
Qed.

Lemma reads_previous : reads anything previous.
Proof.
  intros s [Hc _ _]. unfold previous.
  destruct (lookup_lt_is_Some_2 (tokens s) (current s - 1)) as [t ->]; [lia|].
  eexists. by split.
Qed.
Lemma reads_previous_span : reads anything previous_span.
Proof. eapply reading_bind; [apply reads_previous|]. intros t _. by apply reading_ret. Qed.

Create HintDb reads discriminated.
#[export] Hint Constants Opaque : reads.
#[export] Hint Resolve reading_peek reads_peek_kind reads_peek_span reads_check reads_matches_any
  reads_check_identifier reads_kind_at reads_check_next reads_previous reads_previous_span
  reads_gets : reads.

(** ** Tests and expectations *)

Lemma same_variant_eof k k' : same_variant k k' = true → same_variant k' Eof = false → k ≠ Eof.
Proof. intros H1 H2 ->. by destruct k'. Qed.

(** [if test { advance; true } else { false }] on the next token. *)
Lemma parses_test d n (test : TokenKind → bool) :
  test Eof = false →
  parses d n (λ b, b) anything
    (kind ← peek_kind; if test kind then _ ← advance; mret true else mret false).
Proof.
  intros He s Hr Hd Hn. destruct (ready_token s Hr) as [t Ht].
  rewrite (SM_bind_run _ _ _ _ _ (peek_kind_at t s Hr Ht)).
  destruct (test (token_kind t)) eqn:E; [|by split_and!].
  assert (Hk : token_kind t ≠ Eof) by congruence.
  rewrite (SM_bind_run _ _ _ _ _ (advance_at t s Hr Ht Hk)). simpl.
  pose proof (remaining_at t s Ht). pose proof (weight_pos t).
  split_and!; [by eapply ready_next|done|done|lia].
Qed.

Lemma parses_match_token d n k :
  same_variant k Eof = false → parses d n (λ b, b) anything (match_token k).
Proof.
  intros Hk s Hr Hd Hn.
  assert (Ht : same_variant Eof k = false) by (by destruct k).
  pose proof (parses_test d n (λ k', same_variant k' k) Ht s Hr Hd Hn) as H.
  unfold match_token, check, mbind, SM_bind in *. by destruct (peek_kind s) as [ [] | | ].
Qed.

Lemma parses_match_data_word d n w : parses d n (λ b, b) anything (match_data_word w).
Proof. by apply (parses_test d n (is_word w)). Qed.

Lemma parses_match_question d n : parses d n (λ b, b) anything match_question.
Proof.
  intros s Hr Hd Hn. unfold match_question.
  rewrite (SM_bind_run _ _ s (suppress_try s) s) by done.
  destruct (suppress_try s); [by split_and!|]. by apply (parses_match_token d n Question).
Qed.

Lemma check_at k t s :
  ready s → at_token t s → check k s = Ok (same_variant (token_kind t) k, s).
Proof.
  intros Hr Ht. unfold check. by rewrite (SM_bind_run _ _ _ _ _ (peek_kind_at t s Hr Ht)).
Qed.

(** [advance] over a token known not to be the last. *)
Lemma parses_at_advance_strict t d n :
  token_kind t ≠ Eof → parses_at t d n strict (λ t', t' = t) advance.
Proof.
  intros Hk s Hr Hd Hn Ht. rewrite (advance_at t) by done.
  pose proof (remaining_at t s Ht). pose proof (weight_pos t). simpl.
  split_and!; [by eapply ready_next|done|done|lia].
Qed.

Section expectations.
Context `{TokenText}.

Lemma parses_expect d n k message :
  same_variant k Eof = false → parses d n strict anything (expect k message).
Proof.
  intros Hk s Hr Hd Hn. destruct (ready_token s Hr) as [t Ht]. unfold expect.
  rewrite (SM_bind_run _ _ _ _ _ (check_at k t s Hr Ht)).
  destruct (same_variant (token_kind t) k) eqn:E.
  - eapply safe_mono; [apply (parses_at_advance_strict t d n); eauto using same_variant_eof|].
    intros [a s'] (?&?&?&?). by split_and!.
  - by rewrite (SM_bind_run _ _ _ _ _ (peek_at t s Hr Ht)).
Qed.

Lemma parses_expect_identifier d n message :
  parses d n strict anything (expect_identifier message).
Proof.
  apply parses_intro. intros t s Hr Hd Hn Ht. unfold expect_identifier.
  destruct (decide (token_kind t = Eof)) as [E|E].
  - rewrite (SM_bind_run _ _ _ _ _ (advance_eof t s Hr Ht E)). by rewrite E.
  - rewrite (SM_bind_run _ _ _ _ _ (advance_at t s Hr Ht E)).
    pose proof (remaining_at t s Ht). pose proof (weight_pos t).
    pose proof (ready_next t s Hr Ht E).
    destruct (token_kind t); try exact I; simpl. split_and!; [done..|lia].
Qed.
End expectations.

(** ** Binding, by kind of the first step *)

Lemma parses_bind_same {A B} d n Qm Q (Φ : A → Prop) (Ψ : B → Prop) m f :
  parses d n Qm Φ m →
  (∀ a, Φ a → if Qm a then parses d n weak Ψ (f a) else parses d n Q Ψ (f a)) →
  parses d n Q Ψ (m ≫= f).
Proof.
  intros Hm Hf s Hr Hd Hn. eapply safe_SM_bind; [by apply Hm|].
  intros a s1 (Hr1 & Hs1 & HΦ & HQ). specialize (Hf a HΦ).
  assert (recursion_depth s1 = d) by (destruct Hs1; congruence).
  destruct (Qm a); (eapply safe_mono; [apply Hf; [done..|lia]|]);
    intros [b s2] (?&Hs2&?&HQ2); (split_and!; [done|by eapply same_trans|done|]).
  - simpl in HQ2. destruct (Q b); lia.
  - destruct (Q b); lia.
Qed.

Section binds.
Context {A B : Type} (d : Z) (n : nat) (Q : B → bool) (Φ : A → Prop) (Ψ : B → Prop).

Lemma bind_strict m f :
  parses d (S n) strict Φ m → (∀ a, Φ a → parses d n weak Ψ (f a)) →
  parses d (S n) Q Ψ (m ≫= f).
Proof. intros. by eapply parses_bind. Qed.
Lemma bind_strict_same m f :
  parses d n strict Φ m → (∀ a, Φ a → parses d n weak Ψ (f a)) → parses d n Q Ψ (m ≫= f).
Proof. intros. by eapply parses_bind_same. Qed.
Lemma bind_reads m f :
  reads Φ m → (∀ a, Φ a → parses d n Q Ψ (f a)) → parses d n Q Ψ (m ≫= f).
Proof. intros Hm Hf. eapply parses_bind_same; [by apply parses_reads|done]. Qed.
Lemma bind_weak m f :
  parses d n weak Φ m → (∀ a, Φ a → parses d n Q Ψ (f a)) → parses d n Q Ψ (m ≫= f).
Proof. intros. by eapply parses_bind_same. Qed.
End binds.

Lemma bind_test {B} d n Q (Ψ : B → Prop) m f :
  parses d (S n) (λ b, b) anything m →
  parses d n weak Ψ (f true) → parses d (S n) Q Ψ (f false) →
  parses d (S n) Q Ψ (m ≫= f).
Proof. intros Hm H1 H2. eapply parses_bind; [done|]. by intros [] _. Qed.
Lemma bind_test_same {B} d n Q (Ψ : B → Prop) m f :
  parses d n (λ b, b) anything m →
  parses d n weak Ψ (f true) → parses d n Q Ψ (f false) →
  parses d n Q Ψ (m ≫= f).
Proof. intros Hm H1 H2. eapply parses_bind_same; [done|]. by intros [] _. Qed.

(** ** Loops *)

Definition turn {A B} (I : A → Prop) (Φ : B → Prop) : A + B → Prop :=
  λ r, match r with inl a => I a | inr b => Φ b end.

Lemma parses_iterate {A B} d n q (I : A → Prop) (Φ : B → Prop) body fuel :
  (∀ a, I a → parses d n (λ r, moved r || q) (turn I Φ) (body a)) →
  ∀ a s, I a → ready s → recursion_depth s = d → remaining s <= n → remaining s < fuel →
  safe (iterate fuel body a s) (after (λ _, q) Φ s).
Proof.
  intros Hb. induction fuel as [|fuel IH]; intros a s Ha Hr Hd Hn Hf; [lia|]. simpl.
  eapply safe_SM_bind; [by apply (Hb a)|].
  intros [a'|b] s1 (Hr1 & Hs1 & HI & HQ); simpl in HQ.
  - assert (recursion_depth s1 = d) by (destruct Hs1; congruence).
    eapply safe_mono; [apply (IH a'); [done..|lia|lia]|].
    intros [b s2] (?&Hs2&?&HQ2). split_and!; [done|by eapply same_trans|done|].
    destruct q; lia.
  - simpl. by split_and!.
Qed.

Lemma parses_loop {A B} d n q (I : A → Prop) (Φ : B → Prop) body a :
  (∀ a, I a → parses d n (λ r, moved r || q) (turn I Φ) (body a)) → I a →
  parses d n (λ _, q) Φ (loop_ body a).
Proof.
  intros Hb Ha s Hr Hd Hn. unfold loop_. by eapply parses_iterate; [..|lia].
Qed.

Lemma parses_turn {A B} d n q (Φ : A + B → Prop) m :
  parses d n strict Φ m → parses d n (λ r, moved r || q) Φ m.
Proof.
  intros H s Hr Hd Hn. eapply safe_mono; [by apply H|].
  intros [r s'] (?&?&?&HQ). split_and!; [done..|]. simpl in HQ.
  destruct (moved r || q)%bool; lia.
Qed.

(** A loop whose turns all consume. *)
Lemma parses_loop_strict {A B} d n (I : A → Prop) (Φ : B → Prop) body a :
  (∀ a, I a → parses d n strict (turn I Φ) (body a)) → I a →
  parses d n strict Φ (loop_ body a).
Proof. intros Hb Ha. eapply parses_loop; [|done]. intros. apply parses_turn; auto. Qed.

(** A loop that may end without consuming. *)
Lemma parses_loop_weak {A B} d n (I : A → Prop) (Φ : B → Prop) body a :
  (∀ a, I a → parses d n moved (turn I Φ) (body a)) → I a →
  parses d n weak Φ (loop_ body a).
Proof.
  intros Hb Ha. eapply parses_loop; [|done]. intros a' Ha' s Hr Hd Hn.
  eapply safe_mono; [by apply Hb|]. intros [r s'] (?&?&?&HQ). split_and!; [done..|].
  by destruct r.
Qed.

Lemma parses_separated {A} d n sep (Φ : A → Prop) item :
  same_variant sep Eof = false → parses d n strict Φ item →
  parses d n strict (λ l, Forall Φ l ∧ l ≠ []) (separated sep item).
Proof.
  intros Hsep Hitem. apply (parses_loop_strict d n (Forall Φ)); [|done].
  intros l Hl. eapply bind_strict_same; [done|]. intros a Ha.
  assert (Forall Φ (l ++ [a])) by (apply Forall_app; auto).
  eapply bind_test_same; [by apply parses_match_token| |]; apply parses_ret; simpl;
    try done. split; [done|by destruct l].
Qed.

Lemma parses_separated_until {A} d n close sep (Φ : A → Prop) item :
  same_variant sep Eof = false → parses d n strict Φ item →
  parses d n weak (Forall Φ) (separated_until close sep item).
Proof.
  intros Hsep Hitem. eapply bind_reads; [apply reads_check|]. intros [] _.
  - by apply parses_ret.
  - eapply parses_weaken, parses_mono; [by apply parses_separated|done|]. by intros l [].
Qed.

Lemma parses_while_open {A} d n (I : A → Prop) body a :
  (∀ a, I a → parses d n strict I (body a)) → I a → parses d n weak I (while_open body a).
Proof.
  intros Hb Ha. apply (parses_loop_weak d n I); [|done]. intros a' Ha'.
  eapply bind_reads; [apply reads_check|]. intros close _.
  eapply bind_reads; [apply reads_check|]. intros eof _.
  destruct (close || eof)%bool; [by apply parses_ret|].
  eapply bind_strict_same; [by apply Hb|]. intros b Hi. by apply parses_ret.
Qed.

Lemma parses_while_push {A} d n (Φ : A → Prop) item :
  parses d n strict Φ item →
  parses d n weak (Forall Φ) (while_open (λ l, a ← item; mret (l ++ [a])) []).
Proof.
  intros Hitem. apply parses_while_open; [|done]. intros l Hl.
  eapply bind_strict_same; [done|]. intros a Ha. apply parses_ret; [done|].
  apply Forall_app; auto.
Qed.

Lemma parses_when {A} d n (cond : bool) Q (Φ : A → Prop) item :
  (cond = true → parses d n Q Φ item) →
  parses d n weak (λ o, is_none o = negb cond ∧ on_some Φ o) (when cond item).
Proof.
  intros Hitem. unfold when. destruct cond; [|by apply parses_ret].
  eapply bind_weak; [by eapply parses_weaken, Hitem|]. intros a Ha. by apply parses_ret.
Qed.

(** ** Depth *)

Lemma parses_with_recursion {A} d n Q (Φ : A → Prop) m :
  ((d < MAX_EXPRESSION_DEPTH)%Z → parses (d + 1) n Q Φ m) → parses d n Q Φ (with_recursion m).
Proof.
  intros Hm s Hr Hd Hn. unfold with_recursion.
  rewrite (SM_bind_run _ _ s (recursion_depth s) s) by done. rewrite Hd.
  destruct (Z.leb_spec MAX_EXPRESSION_DEPTH d) as [Hlt|Hlt].
  - destruct (reads_peek_span s Hr) as (sp & Hsp & _). by rewrite (SM_bind_run _ _ _ _ _ Hsp).
  - rewrite (SM_bind_run _ _ s tt (set_depth (recursion_depth s + 1) s)) by done.
    destruct Hr as [Hc He [Hd0 Hd1]].
    eapply safe_SM_bind; [apply Hm; [done|split; simpl; [done|done|lia]|simpl; lia|done]|].
    intros a s1 ([Hc1 He1 _] & [Hd2 Ht2] & HΦ & HQ). simpl in Hd2, Ht2. cbv beta iota.
    rewrite (SM_bind_run _ _ s1 (recursion_depth s1) s1) by done.
    rewrite (SM_bind_run _ _ s1 (recursion_depth s) s1).
    2:{ unfold lift. rewrite Hd2. unfold unsigned_sub.
        rewrite (proj2 (Z.leb_le 1 (recursion_depth s + 1))) by lia. simpl.
        by replace (recursion_depth s + 1 - 1)%Z with (recursion_depth s) by lia. }
    simpl. split_and!; [by split; simpl|done|done|exact HQ].
Qed.

(** ** Sequences as the code nests them *)

Lemma bind_ret {A B} d n Q (Ψ : B → Prop) (a : A) f :
  parses d n Q Ψ (f a) → parses d n Q Ψ (mret a ≫= f).
Proof. done. Qed.
Lemma bind_error {A B} d n Q (Ψ : B → Prop) message sp (f : A → P B) :
  parses d n Q Ψ (error message sp ≫= f).
Proof. by intros s Hr Hd Hn. Qed.
Lemma bind_error_with_help {A B} d n Q (Ψ : B → Prop) message sp help (f : A → P B) :
  parses d n Q Ψ (error_with_help message sp help ≫= f).
Proof. by intros s Hr Hd Hn. Qed.
Lemma bind_assoc {A B C} d n Q (Ψ : C → Prop) (m : P A) (g : A → P B) (f : B → P C) :
  parses d n Q Ψ (m ≫= λ a, g a ≫= f) → parses d n Q Ψ ((m ≫= g) ≫= f).
Proof.
  intros Hm s Hr Hd Hn. specialize (Hm s Hr Hd Hn). unfold mbind, SM_bind in *.
  by destruct (m s) as [ [] | | ].
Qed.

(** ** Stepping through a method

    [parser]: the rules for the calls a method makes. *)

Create HintDb parser discriminated.
#[export] Hint Constants Opaque : parser.
#[export] Hint Resolve parses_match_token parses_match_data_word parses_match_question
  parses_expect parses_expect_identifier parses_separated parses_separated_until
  parses_while_push parses_advance_weak parses_when : parser.
#[export] Hint Extern 1 (same_variant _ _ = _) => reflexivity : parser.

Ltac solve_call := solve [eauto with parser | apply parses_pred; eauto with parser].

Ltac call_result :=
  let a := fresh "v" in let H := fresh "Hv" in
  intros a H; cbv beta in H; try destruct_and! H.

Ltac parser_step :=
  cbv beta zeta;
  lazymatch goal with
  | |- parses _ _ _ _ (mret _) => fail
  | |- parses _ _ _ _ (error _ _) => apply parses_error
  | |- parses _ _ _ _ (error_with_help _ _ _) => apply parses_error_with_help
  | |- parses _ _ _ _ (when _ _) => unfold when
  | |- parses _ _ _ _ (when _ _ ≫= _) => unfold when
  | |- parses _ _ _ _ (mret _ ≫= _) => apply bind_ret
  | |- parses _ _ _ _ (error _ _ ≫= _) => apply bind_error
  | |- parses _ _ _ _ (error_with_help _ _ _ ≫= _) => apply bind_error_with_help
  | |- parses _ _ _ _ ((_ ≫= _) ≫= _) => apply bind_assoc
  | |- parses _ _ _ _ ((if ?b then _ else _) ≫= _) => let E := fresh "Hif" in destruct b eqn:E
  | |- parses _ _ _ _ (match ?p with pair _ _ => _ end ≫= _) =>
      let x := fresh "v" in let y := fresh "v" in destruct p as [x y]
  | |- parses _ (S _) _ _ (_ ≫= _) =>
      first
        [ eapply bind_reads; [solve [eauto with reads]|call_result]
        | eapply bind_test; [solve [eauto with parser]| |]
        | eapply bind_strict; [solve [eauto with parser]|call_result]
        | eapply bind_weak; [solve [eauto with parser]|call_result] ]
  | |- parses _ _ _ _ (_ ≫= _) =>
      first
        [ eapply bind_reads; [solve [eauto with reads]|call_result]
        | eapply bind_test_same; [solve_call| |]
        | eapply bind_strict_same; [solve_call|call_result]
        | eapply bind_weak; [solve_call|call_result] ]
  | |- parses _ _ _ _ (match ?p with pair _ _ => _ end) =>
      let x := fresh "v" in let y := fresh "v" in destruct p as [x y]
  | |- parses _ _ _ _ (if ?b then _ else _) => let E := fresh "Hif" in destruct b eqn:E
  end.
Ltac parser_steps := repeat parser_step.
