(* ===== verification/ParserTotal.v ===== *)
(** * Every method of the parser terminates, without panics, on well-formed trees

    One lemma per method: under [rec_ok n self], the promise of the recursive calls for
    [n] units of tokens, the method keeps its promise for [S n] units. *)

From S2P Require Import Prelude Machine Diagnostics Limits StateM Ast Lexer Parser ParserForm ParserLogic.
#[local] Open Scope string_scope.
#[local] Open Scope list_scope.
#[local] Open Scope nat_scope.

Lemma forallb_Forall {A} (p : A → bool) l : forallb p l = true ↔ Forall (λ a, p a = true) l.
Proof.
  induction l as [|a l IH]; simpl; [by split|]. rewrite andb_true_iff, IH. split.
  - intros []. by constructor.
  - by inversion 1.
Qed.

Lemma on_option_some {A} (p : A → bool) o : on_option p o = true ↔ on_some (λ a, p a = true) o.
Proof. by destruct o. Qed.

Create HintDb forms.
#[export] Hint Unfold constraint_ok struct_ok enum_ok function_ok signature_ok trait_ok implementation_ok import_ok module_ok
  turn anything : forms.

(** Reduce a well-formedness goal to its atoms. *)
Ltac form :=
  unfold sub_ok in *;
  rewrite ?andb_true_iff, ?orb_true_iff, ?andb_true_iff, ?forallb_Forall, ?on_option_some, ?Forall_app in *;
  destruct_and?.

(** Finish a method: what it returns is well formed. *)
Ltac ret_step :=
  lazymatch goal with
  | |- parses _ _ _ _ (mret _) => apply parses_ret; [done|]; autounfold with forms; simpl; form; split_and?; auto;
      try tauto; try match goal with |- negb (is_none ?o) = true => by destruct o end
  end.
Ltac returns := parser_steps; try first [ret_step | solve_call].

Section total.
Context `{TokenText}.

Record rec_ok (n : nat) (self : Recursive) : Prop := {
  ok_type_name d : parses d n strict (λ t, type_ok t = true) (rec_type_name self);
  ok_pattern d : parses d n strict (λ p, pattern_ok (node p) = true) (rec_pattern self);
  ok_unary d : parses d n strict (λ e, expr_ok d (node e) = true) (rec_unary self);
  ok_expression d : parses d n strict (λ e, sub_ok d e = true) (rec_expression self);
  ok_block d : parses d n strict (λ b, block_ok d b = true) (rec_block self);
  ok_if d : parses d n strict (λ s, (is_if (node s) && stmt_ok d (node s))%bool = true)
              (rec_if self) }.

#[local] Hint Resolve ok_type_name ok_pattern ok_unary ok_expression ok_block ok_if : parser.

Lemma parses_expect_span d n k message :
  same_variant k Eof = false → parses d n strict anything (expect_span k message).
Proof.
  intros Hk. eapply bind_strict_same; [by apply parses_expect|]. intros. by apply parses_ret.
Qed.
Lemma parses_expect_spanned d n message : parses d n strict anything (expect_spanned message).
Proof.
  eapply bind_strict_same; [by apply parses_expect_identifier|]. intros [] _.
  by apply parses_ret.
Qed.
#[local] Hint Resolve parses_expect_span parses_expect_spanned : parser.

(** Replacing [>>] by [>] is progress. *)
Lemma parses_expect_type_close d n : parses d n strict anything expect_type_close.
Proof.
  apply parses_intro. intros t s Hr Hd Hn Ht. unfold expect_type_close.
  rewrite (SM_bind_run _ _ _ _ _ (check_at Greater t s Hr Ht)).
  destruct (same_variant _ Greater) eqn:E1.
  - eapply safe_mono; [apply (parses_at_advance_strict t d n); eauto using same_variant_eof|].
    intros [a s'] (?&?&?&?). by split_and!.
  - rewrite (SM_bind_run _ _ _ _ _ (check_at ShiftRight t s Hr Ht)).
    destruct (same_variant _ ShiftRight) eqn:E2; [|by apply (parses_expect d n)].
    unfold peek_span. rewrite (SM_bind_run _ _ s (token_span t) s).
    2:{ by rewrite (SM_bind_run _ _ _ _ _ (peek_at t s Hr Ht)). }
    destruct Hr as [Hc He Hdep]. unfold replace_current.
    set (t' := mkToken Greater (mkSpan (mkPosition _ _) (end_ (token_span t)))).
    rewrite (SM_bind_run _ _ s tt (set_tokens (<[current s := t']> (tokens s)) s)).
    2:{ by rewrite (bool_decide_eq_true_2 _ Hc). }
    simpl. assert (Hk : token_kind t = ShiftRight) by (by destruct (token_kind t)).
    split_and!; [|done|done|].
    + split; simpl; [by rewrite length_insert| |done].
      rewrite last_lookup, length_insert, <- last_lookup in *.
      rewrite !last_lookup in *. rewrite list_lookup_insert_ne; [done|].
      intros Heq. unfold at_token in Ht. rewrite <- Heq, Ht in He. simpl in He. congruence.
    + rewrite (remaining_at t s Ht).
      assert (Ht' : at_token t' (set_tokens (<[current s := t']> (tokens s)) s)).
      { unfold at_token. simpl. by apply list_lookup_insert_eq. }
      rewrite (remaining_at _ _ Ht'). unfold weight. rewrite Hk. simpl.
      unfold remaining. simpl. rewrite drop_insert_lt by lia. lia.
Qed.
#[local] Hint Resolve parses_expect_type_close : parser.

Section methods.
Context (n : nat) (self : Recursive) (Hself : rec_ok n self).

Lemma parses_function_type d : parses d n weak (λ t, type_ok t = true) (parse_function_type self).
Proof. unfold parse_function_type. returns. Qed.

Lemma parses_array_type d : parses d n weak (λ t, type_ok t = true) (parse_array_type self).
Proof.
  unfold parse_array_type. returns. eapply (bind_weak d n _ anything).
  { destruct (token_kind _); try apply parses_error. destruct (try_from _ _).
    - by apply parses_ret.
    - apply parses_error. }
  intros length _. parser_steps. apply parses_ret; [done|]. simpl. by rewrite Hv.
Qed.

Lemma parses_reference_type d :
  parses d n weak (λ t, type_ok t = true) (parse_reference_type self).
Proof.
  unfold parse_reference_type. returns; destruct v0; simpl in *; form; tauto.
Qed.

Lemma parses_named_type d : parses d (S n) strict (λ t, type_ok t = true) (parse_named_type self).
Proof. unfold parse_named_type. returns; by destruct (String.eqb _ "ptr"). Qed.
#[local] Hint Resolve parses_function_type parses_array_type parses_reference_type
  parses_named_type : parser.

Lemma parses_type_name d : parses d (S n) strict (λ t, type_ok t = true) (parse_type_name self).
Proof. unfold parse_type_name. returns. Qed.
#[local] Hint Resolve parses_type_name : parser.

Lemma parses_return_type d :
  parses d (S n) weak (on_some (λ t, type_ok t = true)) (parse_return_type self).
Proof. unfold parse_return_type. returns. Qed.
#[local] Hint Resolve parses_return_type : parser.

Lemma parses_generic_parameter d :
  parses d n strict (λ g, generic_ok g = true) (parse_generic_parameter self).
Proof. unfold parse_generic_parameter, generic_ok. returns. Qed.
#[local] Hint Resolve parses_generic_parameter : parser.

Lemma parses_generic_parameters d :
  parses d n weak (Forall (λ g, generic_ok g = true)) (parse_generic_parameters self).
Proof. unfold parse_generic_parameters. returns. Qed.
#[local] Hint Resolve parses_generic_parameters : parser.

(** ** Patterns *)

Lemma parses_pattern_field d :
  parses d n strict (λ f, pattern_field_ok f = true) (parse_pattern_field self).
Proof. unfold parse_pattern_field. returns. Qed.
#[local] Hint Resolve parses_pattern_field : parser.

Lemma parses_struct_pattern d name start :
  is_type_style name = true →
  parses d n weak (λ p, pattern_ok (node p) = true ∧ is_or (node p) = false)
    (parse_struct_pattern self name start).
Proof.
  intros Hname. unfold parse_struct_pattern.
  eapply (bind_weak d n _ (λ r, Forall (λ f, pattern_field_ok f = true) r.1)).
  - apply (parses_loop_weak d n (Forall (λ f, pattern_field_ok f = true))); [|done].
    intros fields Hfields. returns.
  - intros [fields rest] Hfields. returns.
Qed.

Lemma parses_variant_pattern d name start :
  is_type_style name = true →
  parses d n weak (λ p, pattern_ok (node p) = true ∧ is_or (node p) = false)
    (parse_variant_pattern self name start).
Proof. intros Hname. unfold parse_variant_pattern. returns. Qed.
#[local] Hint Resolve parses_struct_pattern parses_variant_pattern : parser.

Lemma parses_pattern_atom d :
  parses d (S n) strict (λ p, pattern_ok (node p) = true ∧ is_or (node p) = false)
    (parse_pattern_atom self).
Proof.
  unfold parse_pattern_atom. apply parses_advance; intros t Ht; [|rewrite Ht; apply parses_error].
  destruct (token_kind t); try apply parses_error; returns.
  destruct (token_kind v); try apply parses_error. returns.
Qed.
#[local] Hint Resolve parses_pattern_atom : parser.

Lemma parses_pattern d :
  parses d (S n) strict (λ p, pattern_ok (node p) = true) (parse_pattern self).
Proof.
  unfold parse_pattern. returns. destruct (last_is_Some (v :: v0)) as [_ Hlast].
  destruct Hlast as [p Hp]; [done|]. rewrite Hp. apply parses_ret; [done|].
  destruct v0 as [|w l]; [done|]. cbn [node pattern_ok]. rewrite andb_true_iff. split.
  - apply Z.leb_le. unfold zlen. simpl. lia.
  - apply forallb_Forall. constructor; [by rewrite H0, H1|].
    eapply Forall_impl; [done|]. intros q [-> ->]. done.
Qed.
#[local] Hint Resolve parses_pattern : parser.

(** ** Capabilities *)

Lemma parses_capability d uses name s :
  NoDup (use_capability <$> uses) →
  parses d n weak (λ l, NoDup (use_capability <$> l)) (parse_capability uses name s).
Proof.
  intros Huses. unfold parse_capability.
  destruct (capability_from_name name) as [c|]; [|apply parses_error_with_help].
  returns. rewrite fmap_app. apply NoDup_app. split; [done|]. simpl. split.
  - intros c' (u & -> & Hu)%list_elem_of_fmap Hc. apply list_elem_of_singleton in Hc.
    enough (existsb (λ item, bool_decide (use_capability item = c)) uses = true) by congruence.
    apply existsb_exists. exists u. split; [by apply list_elem_of_In|]. by apply bool_decide_eq_true.
  - apply NoDup_singleton.
Qed.
#[local] Hint Resolve parses_capability : parser.

Lemma parses_capabilities d :
  parses d n weak (λ c, capabilities_ok c = true) parse_capabilities.
Proof.
  unfold parse_capabilities, capabilities_ok. returns. eapply (bind_weak d n _ (λ l, NoDup (use_capability <$> l))).
  - apply (parses_loop_weak d n (λ a, NoDup (use_capability <$> a.1))).
    + intros [uses [name s]] Huses. returns.
    + constructor.
  - intros uses Huses. returns. by apply bool_decide_eq_true.
Qed.
#[local] Hint Resolve parses_capabilities : parser.

(** ** Operators *)

Lemma reads_starts_statement e : reads anything (starts_statement e).
Proof.
  eapply reading_bind; [eauto with reads|]. intros star _.
  eapply reading_bind; [eauto with reads|]. intros t _.
  case_match; [apply reads_gets|by apply reading_ret].
Qed.

(** The operators of a level are not the last token. *)
Lemma parses_binary d operand operators :
  Forall (λ '(k, _), same_variant k Eof = false) operators →
  parses d (S n) strict (λ e, expr_ok d (node e) = true) operand →
  parses d (S n) strict (λ e, expr_ok d (node e) = true) (parse_binary operand operators).
Proof.
  intros Hops Hoperand. eapply bind_strict; [done|]. intros e He.
  apply (parses_loop_weak d n (λ a, expr_ok d (node a.1) = true)); [|done].
  intros [e' count] He'. unfold binary_turn. apply parses_peek_kind. intros t.
  destruct (List.find _ operators) as [[k op]|] eqn:Hfind; [|by apply parses_at_of, parses_ret].
  eapply parses_at_reads; [apply reads_starts_statement|]. intros [] _.
  { by apply parses_at_of, parses_ret. }
  cbv zeta. destruct (_ >? _)%Z; [apply parses_at_of; returns|].
  apply parses_at_advance_same.
  { apply List.find_some in Hfind as [Hin Hk]. apply list_elem_of_In in Hin.
    rewrite Forall_forall in Hops. specialize (Hops _ Hin). simpl in Hops.
    by eapply same_variant_eof. }
  eapply bind_strict_same; [by apply parses_pred|]. intros r Hr. returns.
Qed.

(** ** Closures *)

Lemma parses_closure_parameter d :
  parses d n strict (λ p, param_ok p = true) (parse_closure_parameter self).
Proof. unfold parse_closure_parameter, param_ok. returns. Qed.
#[local] Hint Resolve parses_closure_parameter : parser.

Lemma parses_closure d start move_captures closed :
  parses d n weak (λ e, expr_ok d (node e) = true)
    (parse_closure self start move_captures closed).
Proof.
  unfold parse_closure. returns.
Qed.
#[local] Hint Resolve parses_closure : parser.

(** ** Data expressions *)

Lemma parses_data_part d : parses d n strict (λ e, sub_ok d e = true) (parse_data_part self).
Proof.
  intros s Hr Hd Hn. unfold parse_data_part.
  rewrite (SM_bind_run _ _ s (suppress_try s) s) by done.
  rewrite (SM_bind_run _ _ s tt (set_suppress_try true s)) by done.
  destruct Hr as [Hc He Hdep].
  eapply safe_SM_bind; [by apply (ok_expression n self Hself d (set_suppress_try true s))|].
  intros e s1 ([] & [] & ? & ?). simpl in *. by split_and!.
Qed.
#[local] Hint Resolve parses_data_part : parser.

Lemma parses_data_write d start replace :
  parses d n weak (λ e, expr_ok d (node e) = true) (parse_data_write self start replace).
Proof. unfold parse_data_write. returns. Qed.

Lemma parses_aggregate d :
  parses d n strict (λ e, is_identifier_expr (node e) = true) parse_aggregate.
Proof. unfold parse_aggregate. returns. Qed.

Lemma parses_data_order d : parses d n strict (λ o, order_ok d o = true) (parse_data_order self).
Proof. unfold parse_data_order. returns. Qed.
#[local] Hint Resolve parses_data_write parses_aggregate parses_data_order : parser.

Lemma parses_data_query d start kind :
  parses d n weak (λ e, expr_ok d (node e) = true) (parse_data_query self start kind).
Proof.
  unfold parse_data_query. returns; by apply bool_decide_eq_true.
Qed.

Lemma parses_data_remove d start :
  parses d n weak (λ e, expr_ok d (node e) = true) (parse_data_remove self start).
Proof. unfold parse_data_remove. returns. Qed.
#[local] Hint Resolve parses_data_query parses_data_remove : parser.

Lemma parses_data_expression d start :
  parses d n weak (λ e, expr_ok d (node e) = true) (parse_data_expression self start).
Proof. unfold parse_data_expression. returns. Qed.

(** ** Primary expressions *)

Lemma parses_field_value d :
  parses d n strict (λ f, field_value_ok d f = true) (parse_field_value self).
Proof. unfold parse_field_value. returns. Qed.
#[local] Hint Resolve parses_field_value : parser.

Lemma parses_struct_construct d name s :
  parses d n weak (λ e, expr_ok d (node e) = true) (parse_struct_construct self name s).
Proof. unfold parse_struct_construct. returns. Qed.

Lemma parses_match_arm d : parses d n strict (λ a, arm_ok d a = true) (parse_match_arm self).
Proof. unfold parse_match_arm. returns. Qed.
#[local] Hint Resolve parses_match_arm : parser.

Lemma parses_match d start :
  parses d n weak (λ e, expr_ok d (node e) = true) (parse_match self start).
Proof. unfold parse_match. returns. Qed.
#[local] Hint Resolve parses_data_expression parses_struct_construct parses_match : parser.

Lemma reads_looks_like_struct_construct : reads anything looks_like_struct_construct.
Proof.
  unfold looks_like_struct_construct. eapply reading_bind; [eauto with reads|]. intros [] _.
  - eapply reading_bind; [eauto with reads|]. intros first _.
    eapply reading_bind; [eauto with reads|]. intros second _. by apply reading_ret.
  - by apply reading_ret.
Qed.
#[local] Hint Resolve reads_looks_like_struct_construct : reads.

Lemma parses_primary d : parses d (S n) strict (λ e, expr_ok d (node e) = true) (parse_primary self).
Proof.
  unfold parse_primary. apply parses_advance; intros t Ht; [|rewrite Ht; apply parses_error].
  destruct (token_kind t); try apply parses_error; returns. by apply expr_ok_mono.
Qed.

(** An argument is one expression, or a key and a value. *)
Lemma parses_argument d map_literal :
  parses d n strict
    (λ l, Forall (λ e, sub_ok d e = true) l ∧ (map_literal = true → length l = 2))
    (parse_argument self map_literal).
Proof.
  unfold parse_argument. parser_steps; (apply parses_ret; [done|]);
    (split; [by repeat constructor|done]).
Qed.
#[local] Hint Resolve parses_argument : parser.

Lemma parses_call_expression d e arguments s :
  expr_ok d (node e) = true → Forall (λ a, sub_ok d a = true) arguments →
  (is_map_literal e = true → Z.even (zlen arguments) = true) →
  parses d n weak (λ e, expr_ok d (node e) = true) (call_expression e arguments s).
Proof.
  intros He Ha Hm. unfold call_expression.
  assert (Hcall : is_slice (node e) = false → expr_ok d (ECall e arguments) = true).
  { intros Hs. simpl. unfold call_ok. rewrite Hs, He. simpl. rewrite andb_true_r.
    apply andb_true_iff. split; [|by apply forallb_Forall].
    destruct (is_map_literal e); [by apply Hm|done]. }
  destruct (node e) eqn:E; try (apply parses_ret; [done|]; by apply Hcall).
  destruct (_ || _)%bool eqn:Hs; [|apply parses_ret; [done|]; by apply Hcall].
  destruct arguments as [|a1 [|a2 [|] ] ]; try apply parses_error.
  apply parses_ret; [done|]. rewrite !Forall_cons in Ha. destruct Ha as (Ha1 & Ha2 & _).
  unfold sub_ok in *. simpl in *. by rewrite He, Ha1, Ha2.
Qed.

Lemma parses_arguments d e :
  expr_ok d (node e) = true →
  parses d n weak (λ e, expr_ok d (node e) = true) (parse_arguments self e).
Proof.
  intros He. unfold parse_arguments. parser_steps. apply parses_call_expression; [done| |].
  - apply Forall_concat. eapply Forall_impl; [done|]. by intros l [].
  - intros Hm. induction Hv as [|l v [_ Hl] _ IH]; [done|]. simpl. unfold zlen in *.
    rewrite length_app, (Hl Hm), Nat2Z.inj_add. by rewrite Z.even_add, IH.
Qed.

Lemma parses_field_access d e :
  expr_ok d (node e) = true →
  parses d n weak (λ e, expr_ok d (node e) = true) (parse_field_access e).
Proof. intros He. unfold parse_field_access. returns. Qed.

Lemma parses_index d e :
  expr_ok d (node e) = true →
  parses d n weak (λ e, expr_ok d (node e) = true) (parse_index self e).
Proof. intros He. unfold parse_index. returns. Qed.
#[local] Hint Resolve parses_primary parses_arguments parses_field_access parses_index : parser.

Lemma parses_call d : parses d (S n) strict (λ e, expr_ok d (node e) = true) (parse_call self).
Proof.
  unfold parse_call. parser_step.
  apply (parses_loop_weak d n (λ a, expr_ok d (node a.1) = true)); [|done].
  intros [e count] He. simpl in He. unfold call_turn. returns.
Qed.
#[local] Hint Resolve parses_call : parser.

Lemma parses_recursive_unary d :
  parses d n strict (λ e, sub_ok d e = true) (with_recursion (rec_unary self)).
Proof.
  apply parses_with_recursion. intros Hd. eapply parses_mono; [by apply ok_unary|done|].
  intros e He. unfold sub_ok. rewrite He. unfold fits. rewrite andb_true_r. apply Z.leb_le. lia.
Qed.
#[local] Hint Resolve parses_recursive_unary : parser.

Lemma parses_prefix d build :
  (∀ e, sub_ok d e = true → expr_ok d (build e) = true) →
  parses d n weak (λ e, expr_ok d (node e) = true) (parse_prefix self build).
Proof. intros Hb. unfold parse_prefix. parser_steps. apply parses_ret; [done|]. by apply Hb. Qed.

Lemma parses_move d : parses d n weak (λ e, expr_ok d (node e) = true) (parse_move self).
Proof. unfold parse_move. returns. Qed.
Lemma parses_borrow d : parses d n weak (λ e, expr_ok d (node e) = true) (parse_borrow self).
Proof. unfold parse_borrow. returns. Qed.
#[local] Hint Resolve parses_move parses_borrow : parser.

Lemma parses_unary d : parses d (S n) strict (λ e, expr_ok d (node e) = true) (parse_unary self).
Proof. unfold parse_unary. returns; apply parses_prefix; by simpl. Qed.

Lemma parses_or d : parses d (S n) strict (λ e, expr_ok d (node e) = true) (parse_or self).
Proof.
  repeat (apply parses_binary; [by repeat constructor|]). apply parses_unary.
Qed.

Lemma parses_expression d :
  parses d (S n) strict (λ e, sub_ok d e = true) (parse_expression self).
Proof.
  apply parses_with_recursion. intros Hd. eapply parses_mono; [apply parses_or|done|].
  intros e He. unfold sub_ok. rewrite He. unfold fits. rewrite andb_true_r. apply Z.leb_le. lia.
Qed.
#[local] Hint Resolve parses_expression : parser.

(** ** Statements *)

Lemma parses_return d : parses d n weak (λ s, stmt_ok d (node s) = true) (parse_return self).
Proof. unfold parse_return. returns. Qed.

Lemma parses_if d :
  parses d (S n) strict (λ s, (is_if (node s) && stmt_ok d (node s))%bool = true) (parse_if self).
Proof.
  unfold parse_if. returns. destruct v2. simpl in *. by rewrite Hv1.
Qed.

Lemma parses_while d : parses d n weak (λ s, stmt_ok d (node s) = true) (parse_while self).
Proof. unfold parse_while. returns. Qed.
Lemma parses_for d : parses d n weak (λ s, stmt_ok d (node s) = true) (parse_for self).
Proof. unfold parse_for. returns. Qed.
Lemma parses_loop_stmt d : parses d n weak (λ s, stmt_ok d (node s) = true) (parse_loop self).
Proof. unfold parse_loop. returns. Qed.
Lemma parses_unsafe d : parses d n weak (λ s, stmt_ok d (node s) = true) (parse_unsafe self).
Proof. unfold parse_unsafe. returns. Qed.
Lemma parses_jump d st :
  stmt_ok d st = true → parses d n weak (λ s, stmt_ok d (node s) = true) (parse_jump st).
Proof. intros Hst. unfold parse_jump. returns. Qed.
#[local] Hint Resolve parses_return parses_while parses_for parses_loop_stmt parses_unsafe
  parses_jump : parser.

Lemma parses_if_statement d : parses d n weak (λ s, stmt_ok d (node s) = true) (parse_if self).
Proof.
  eapply parses_weaken, parses_mono; [apply parses_if|lia|]. intros s. rewrite andb_true_iff. tauto.
Qed.
#[local] Hint Resolve parses_if_statement : parser.

Lemma assignment_ok d (e : Expr) op value :
  sub_ok d e = true → sub_ok d value = true →
  stmt_ok d (match node e with
             | EIdentifier name => SAssignment name (span e) op value
             | _ => SPlaceAssignment e op value
             end) = true.
Proof.
  unfold sub_ok. intros He Hv.
  destruct (node e) eqn:E; cbn [stmt_ok]; rewrite ?E, ?Hv, ?He; done.
Qed.

Lemma parses_expression_statement d :
  parses d (S n) strict (λ s, stmt_ok d (node s) = true) (parse_expression_statement self).
Proof.
  unfold parse_expression_statement. parser_step. apply parses_peek_kind. intros t.
  destruct (is_assignment (token_kind t)) eqn:Ha; [|apply parses_at_of; returns].
  unfold parse_assignment. apply parses_at_advance_same; [by destruct (token_kind t)|].
  destruct (assignment_operator (token_kind t)) eqn:Ho; [|by destruct (token_kind t)].
  parser_steps; apply parses_ret; try done; by apply assignment_ok.
Qed.
#[local] Hint Resolve parses_expression_statement : parser.

Lemma parses_statement d :
  parses d (S n) strict (λ s, stmt_ok d (node s) = true) (parse_statement self).
Proof.
  unfold parse_statement, matches_any. apply bind_assoc, parses_peek_kind. intros t.
  apply parses_at_ret. destruct (existsb _ _) eqn:E; [|apply parses_at_of; returns].
  unfold parse_binding. destruct (binding_kind (token_kind t)) as [k|] eqn:Hk;
    [|by destruct (token_kind t)].
  apply parses_at_advance; [by destruct (token_kind t)|]. rewrite Hk. returns.
Qed.
#[local] Hint Resolve parses_statement : parser.

Lemma parses_block d : parses d (S n) strict (λ b, block_ok d b = true) (parse_block self).
Proof.
  apply parses_with_recursion. intros Hd. unfold parse_block_inner. returns.
  unfold fits. apply Z.leb_le. lia.
Qed.
End methods.

Lemma parsers_ok n : rec_ok n (parsers n).
Proof.
  induction n as [|n IH].
  - split; intros d s Hr _ Hn; destruct (ready_token s Hr) as [t Ht];
      rewrite (remaining_at t s Ht) in Hn; pose proof (weight_pos t); lia.
  - split; intros d; simpl; eauto using parses_type_name, parses_pattern, parses_unary,
      parses_expression, parses_block, parses_if.
Qed.
End total.

#[export] Hint Resolve parses_expect_span parses_expect_spanned parses_type_name
  parses_return_type parses_generic_parameters parses_capabilities parses_expression
  parses_block : parser.
