(* ===== verification/ParserProps.v ===== *)
(** * Declarations, programs and the guarantees of [parse] *)

From S2P Require Import Prelude Machine Diagnostics Limits StateM Ast Lexer LexerProps Parser ParserForm ParserLogic ParserTotal.
#[local] Open Scope string_scope.
#[local] Open Scope list_scope.
#[local] Open Scope nat_scope.

Section declarations.
Context `{TokenText} (n : nat) (self : Recursive) (Hself : rec_ok n self).

Lemma parses_module_path d message :
  parses d n strict (λ l, l ≠ []) (parse_module_path message).
Proof.
  unfold parse_module_path. parser_step.
  apply (parses_loop_weak d n (λ l, l ≠ [])); [|done]. intros path Hpath. returns.
  by destruct path.
Qed.
#[local] Hint Resolve parses_module_path : parser.

Lemma parses_module_declaration d :
  parses d n strict (λ m, module_ok m = true) parse_module_declaration.
Proof. unfold parse_module_declaration. returns; by destruct v0. Qed.

Lemma parses_import_item d : parses d n strict anything parse_import_item.
Proof. unfold parse_import_item. returns. Qed.
#[local] Hint Resolve parses_import_item : parser.

Lemma parses_import_items d : parses d n weak (λ l, is_nil l = false) parse_import_items.
Proof. unfold parse_import_items. parser_step. destruct v; returns. Qed.
#[local] Hint Resolve parses_import_items : parser.

Lemma parses_import d public :
  parses d n strict (λ i, import_ok i = true) (parse_import public).
Proof.
  unfold parse_import. parser_step. parser_step.
  eapply (bind_weak d n _ (λ r, is_nil r.1 = false ∧ on_some (λ l, is_nil l = false) r.2)).
  - apply (parses_loop_weak d n (λ l, is_nil l = false)); [|done]. intros path Hpath. returns.
    by destruct path.
  - intros [path items] [Hp Hi]. simpl in *.
    parser_steps; (apply parses_ret; [done|]); unfold import_ok; simpl;
      rewrite Hp; destruct items; simpl in *; by rewrite ?Hi.
Qed.

(** What the modifiers of a data field may hold. *)
Definition modifiers_ok (m : Modifiers) : Prop := on_some (λ e, sub_ok 0 e = true) (mod_default m).

Lemma is_word_eof w k : is_word w k = true → k ≠ Eof.
Proof. by destruct k. Qed.

Ltac modifier_case :=
  match goal with
  | |- parses_at _ _ _ _ _ (if ?b then _ else _) =>
      let E := fresh "E" in destruct b eqn:E;
      [ match goal with
        | |- parses_at _ _ _ _ _ (if ?c then _ else _) =>
            destruct c; [apply parses_at_of, parses_error|];
            apply parses_at_advance_same; [by eapply is_word_eof|]; returns
        end
      | ]
  end.

Lemma parses_modifier m :
  modifiers_ok m → parses 0 n moved (turn modifiers_ok modifiers_ok) (parse_modifier self m).
Proof.
  intros Hm. unfold parse_modifier. apply parses_peek. intros t. cbv zeta.
  repeat modifier_case; try (by apply parses_at_of, parses_ret).
Qed.

Lemma parses_modifiers : parses 0 n weak modifiers_ok (loop_ (parse_modifier self) no_modifiers).
Proof. apply (parses_loop_weak 0 n modifiers_ok); [|done]. apply parses_modifier. Qed.
#[local] Hint Resolve parses_modifiers : parser.

Lemma parses_field data : parses 0 n strict (λ f, field_ok data f = true) (parse_field self data).
Proof. unfold parse_field, field_ok. returns. Qed.

#[local] Hint Resolve parses_field : parser.

Lemma parses_data_constraint :
  parses 0 n strict (λ c, constraint_ok c = true) parse_data_constraint.
Proof.
  unfold parse_data_constraint. parser_steps. destruct (constraint_kind_of _); returns.
  all: by case_match.
Qed.
#[local] Hint Resolve parses_data_constraint : parser.

Lemma data_keyword (data : bool) : same_variant (if data then Data else Struct) Eof = false.
Proof. by destruct data. Qed.
#[local] Hint Resolve data_keyword : parser.

Definition members_ok (data : bool) (m : list FieldDeclaration * list DataConstraintDeclaration)
    : Prop :=
  Forall (λ f, field_ok data f = true) m.1 ∧ Forall (λ c, constraint_ok c = true) m.2
  ∧ (data = false → m.2 = []).

Lemma parses_struct data :
  parses 0 n strict (λ d, struct_ok d = true ∧ struct_data d = data ∧ struct_c_abi d = false)
    (parse_struct self data).
Proof.
  unfold parse_struct. parser_steps. eapply (bind_weak 0 n _ (members_ok data)).
  - apply parses_while_open; [|by repeat split]. intros [fields cs] (Hf & Hc & Hd). unfold members_ok in *. simpl in *. returns.
    congruence.
  - intros [fields cs] (Hf & Hc & Hd). simpl in *. returns.
    + destruct data; [by left|right]. by rewrite Hd.
    + by destruct data.
Qed.
#[local] Hint Resolve parses_struct : parser.

Lemma parses_variant : parses 0 n strict (λ v, forallb type_ok (variant_payload v) = true)
                         (parse_variant self).
Proof. unfold parse_variant. returns. Qed.
#[local] Hint Resolve parses_variant : parser.

Lemma parses_enum : parses 0 n strict (λ d, enum_ok d = true) (parse_enum self).
Proof. unfold parse_enum. returns. Qed.

Lemma parses_receiver : parses 0 n weak (λ p, param_ok p = true) parse_receiver.
Proof. unfold parse_receiver, param_ok. returns. Qed.
#[local] Hint Resolve parses_receiver : parser.

Lemma parses_parameter : parses 0 n strict (λ p, param_ok p = true) (parse_parameter self).
Proof. unfold parse_parameter. returns; unfold param_ok. Qed.
#[local] Hint Resolve parses_parameter : parser.

Lemma parses_parameters :
  parses 0 n strict (Forall (λ p, param_ok p = true)) (parse_parameters self).
Proof. unfold parse_parameters. returns. Qed.
#[local] Hint Resolve parses_parameters : parser.

Lemma parses_function_signature :
  parses 0 n strict (λ f, signature_ok f = true) (parse_function_signature self).
Proof. unfold parse_function_signature. returns. Qed.
#[local] Hint Resolve parses_function_signature : parser.

Lemma parses_trait : parses 0 n strict (λ d, trait_ok d = true) (parse_trait self).
Proof.
  unfold parse_trait. parser_steps.
  eapply (bind_weak 0 n _ (λ r, Forall (λ f, signature_ok f = true) r.2)).
  - apply parses_while_open; [|done]. intros [types methods] Hm. returns.
  - intros [types methods] Hm. returns.
Qed.

Lemma parses_function :
  parses 0 n strict (λ f, function_ok f = true ∧ fn_external f = None) (parse_function self).
Proof. unfold parse_function. returns; right; destruct v4; done. Qed.
#[local] Hint Resolve parses_function : parser.

Lemma parses_associated_type :
  parses 0 n strict (λ '(_, ty, _), type_ok ty = true) (parse_associated_type self).
Proof. unfold parse_associated_type. returns. Qed.
#[local] Hint Resolve parses_associated_type : parser.

Lemma parses_implementation :
  parses 0 n strict (λ d, implementation_ok d = true) (parse_implementation self).
Proof.
  unfold parse_implementation. parser_steps;
  (eapply (bind_weak 0 n _ (λ r, Forall (λ '(_, ty, _), type_ok ty = true) r.1
                                 ∧ Forall (λ f, function_ok f = true) r.2));
   [ apply parses_while_open; [|done]; intros [types methods] [Ht Hm]; simpl in *; returns
   | intros [types methods] [Ht Hm]; simpl in *; returns;
     eapply Forall_impl; [exact Ht|]; by intros [ [] ] ]).
Qed.

Lemma parses_expect_c_abi message unsupported help :
  parses 0 n strict anything (expect_c_abi message unsupported help).
Proof. unfold expect_c_abi. returns. Qed.
#[local] Hint Resolve parses_expect_c_abi : parser.

Lemma parses_export_function :
  parses 0 n strict (λ f, function_ok f = true) (parse_export_function self).
Proof.
  unfold parse_export_function. parser_steps. apply parses_ret; [done|].
  destruct v1. unfold function_ok, external_ok in *. simpl in *. by subst.
Qed.

Lemma parses_export_struct :
  parses 0 n strict (λ f, struct_ok f = true) (parse_export_struct self).
Proof.
  unfold parse_export_struct. parser_steps. apply parses_ret; [done|].
  destruct v1. unfold struct_ok in *. simpl in *. by subst.
Qed.

Lemma parses_library : parses 0 n weak anything parse_library.
Proof. unfold parse_library. returns. case_match; returns. Qed.
#[local] Hint Resolve parses_library : parser.

Lemma parses_external_function library :
  parses 0 n strict (λ f, function_ok f = true) (parse_external_function self library).
Proof.
  unfold parse_external_function. parser_steps.
  eapply (bind_weak 0 n _ anything).
  { case_match; [by apply parses_ret|apply parses_reads; eauto with reads]. }
  intros end_ _. parser_steps; (apply parses_ret; [done|]); unfold function_ok; simpl; form;
    (split_and!; [done..|]); left; unfold external_ok; simpl; by rewrite String.eqb_refl.
Qed.
#[local] Hint Resolve parses_external_function : parser.

Lemma parses_extern_block :
  parses 0 n strict (Forall (λ f, function_ok f = true)) (parse_extern_block self).
Proof. unfold parse_extern_block. returns. Qed.

(** ** Programs *)

Lemma existsb_names x l : existsb (String.eqb x) l = true ↔ x ∈ l.
Proof.
  rewrite existsb_exists, list_elem_of_In. split.
  - by intros (y & Hy & ->%String.eqb_eq).
  - intros Hx. exists x. split; [done|]. apply String.eqb_refl.
Qed.

Definition public_ok (p : Program) : Prop :=
  Forall (λ i, node i ∈ declared_names p) (program_public_items p).

(** The invariant of the loop over the declarations. *)
Record program_inv (p : Program) : Prop := {
  inv_module : on_some (λ m, module_ok m = true) (program_module p);
  inv_imports : Forall (λ i, import_ok i = true) (program_imports p);
  inv_structs : Forall (λ d, struct_ok d = true) (program_structs p);
  inv_enums : Forall (λ d, enum_ok d = true) (program_enums p);
  inv_traits : Forall (λ d, trait_ok d = true) (program_traits p);
  inv_implementations : Forall (λ d, implementation_ok d = true) (program_implementations p);
  inv_functions : Forall (λ f, function_ok f = true) (program_functions p);
  inv_public : public_ok p }.

Lemma program_inv_ok p : program_inv p → program_ok p = true.
Proof.
  intros []. unfold program_ok. form. split_and!; try done.
  eapply Forall_impl; [done|]. intros i Hi. by apply existsb_names.
Qed.

(** Publishing names that the declaration adds. *)
Lemma public_push p p' items :
  public_ok p → (∀ x, x ∈ declared_names p → x ∈ declared_names p') →
  Forall (λ i, node i ∈ declared_names p') items →
  program_public_items p' = program_public_items p ++ items → public_ok p'.
Proof.
  unfold public_ok. intros Hp Hincl Hitems ->. apply Forall_app. split; [|done].
  eapply Forall_impl; [done|]. intros i Hi. by apply Hincl.
Qed.

Ltac push_inv Hp :=
  destruct Hp; split; simpl; try done; try (apply Forall_app; split; [done|by repeat constructor]);
  [eapply public_push; [done| | |reflexivity]; unfold declared_names; simpl; rewrite ?fmap_app;
    [set_solver|]].

Lemma inv_import d p : program_inv p → import_ok d = true → program_inv (push_import d p).
Proof. intros Hp Hd. destruct Hp; split; simpl; try done. apply Forall_app; auto. Qed.
Lemma inv_implementation d p :
  program_inv p → implementation_ok d = true → program_inv (push_implementation d p).
Proof. intros Hp Hd. destruct Hp; split; simpl; try done. apply Forall_app; auto. Qed.

Lemma inv_struct public d p :
  program_inv p → struct_ok d = true →
  program_inv (push_struct d (publish public [mkSpanned (struct_name d) (struct_name_span d)] p)).
Proof. intros Hp Hd. push_inv Hp. destruct public; repeat constructor. set_solver. Qed.
Lemma inv_enum public d p :
  program_inv p → enum_ok d = true →
  program_inv (push_enum d (publish public [mkSpanned (enum_name d) (enum_name_span d)] p)).
Proof. intros Hp Hd. push_inv Hp. destruct public; repeat constructor. set_solver. Qed.
Lemma inv_trait public d p :
  program_inv p → trait_ok d = true →
  program_inv (push_trait d (publish public [mkSpanned (trait_name d) (trait_name_span d)] p)).
Proof. intros Hp Hd. push_inv Hp. destruct public; repeat constructor. set_solver. Qed.
Lemma inv_functions_push public ds p :
  program_inv p → Forall (λ f, function_ok f = true) ds →
  program_inv (push_functions ds
    (publish public ((λ d, mkSpanned (fn_name d) (fn_name_span d)) <$> ds) p)).
Proof.
  intros Hp Hd. push_inv Hp. destruct public; [|constructor]. apply Forall_fmap, Forall_forall.
  intros f Hf. simpl. apply elem_of_app. right. set_solver.
Qed.

(** Without [pub] nothing is published. *)
Lemma publish_private items p : publish false items p = p.
Proof. destruct p. unfold publish. simpl. by rewrite app_nil_r. Qed.

#[local] Hint Resolve parses_import parses_struct parses_enum parses_function
  parses_export_struct parses_export_function parses_extern_block parses_trait
  parses_implementation : parser.

Lemma reads_export_declaration_is_struct : reads anything export_declaration_is_struct.
Proof.
  unfold export_declaration_is_struct. eapply reading_bind; [eauto with reads|]. intros abi _.
  eapply reading_bind; [eauto with reads|]. intros k _. by apply reading_ret.
Qed.
#[local] Hint Resolve reads_export_declaration_is_struct : reads.

Lemma parses_declaration public p :
  program_inv p → parses 0 n strict program_inv (parse_declaration self public p).
Proof.
  intros Hp. unfold parse_declaration. parser_steps; (apply parses_ret; [done|]);
    auto using inv_import, inv_implementation, inv_struct, inv_enum, inv_trait,
      inv_functions_push.
  - by rewrite <- (publish_private [mkSpanned (struct_name v7) (struct_name_span v7)] p);
      apply inv_struct.
  - rewrite <- (publish_private [mkSpanned (fn_name v7) (fn_name_span v7)] p).
    by apply (inv_functions_push false [v7]); [|constructor].
Qed.
#[local] Hint Resolve parses_declaration parses_module_declaration : parser.

Lemma parses_program : parses 0 n weak program_inv (parse_program self).
Proof.
  unfold parse_program.
  parser_steps; apply (parses_loop_weak 0 n program_inv); try (by repeat constructor);
    intros p Hp; returns.
Qed.
End declarations.

Section program.
Context `{TokenText}.

Lemma parse_safe ts :
  token_kind <$> last ts = Some Eof → safe (parse ts) (λ p, program_ok p = true).
Proof.
  intros Hlast. unfold parse. set (s := new ts).
  assert (Hts : tokens s = ts) by (by destruct ts).
  assert (Hready : ready s).
  { split; [|by rewrite Hts|done]. rewrite Hts. destruct ts; [done|]. simpl. lia. }
  eapply safe_bind.
  - apply (parses_program _ _ (parsers_ok (S (remaining s)))); [done|done|lia].
  - intros [p s'] _ (_ & _ & Hp & _). by apply program_inv_ok.
Qed.
End program.

(** [parse] of [formatter.rs], the front end of every tool: lex, then parse. *)
Definition parse_source `{Unicode, TokenText} (src : string) : outcome Diagnostic Program :=
  ts ← lex src; parse ts.

Section source.
Context `{Unicode, TokenText}.

Lemma lex_last src : safe (lex src) (λ ts, token_kind <$> last ts = Some Eof).
Proof.
  pose proof (tokenize_safe src 1) as Hs. unfold lsafe in Hs. unfold lex, Lexer.new.
  destruct (tokenize _) as [ [ts l] | | ]; [|done|done]. simpl.
  destruct Hs as (_ & ts' & -> & _). by rewrite last_snoc.
Qed.

Lemma parse_source_safe src : safe (parse_source src) (λ p, program_ok p = true).
Proof. eapply safe_bind; [apply lex_last|]. intros ts _ Hts. by apply parse_safe. Qed.

(** C12: Lexing and parsing terminate on every source text with a program or a diagnostic:
    no method of the parser indexes outside the tokens, reaches an [unreachable!] or loops,
    whatever the input, and the recursion depth never falls below zero. *)
Theorem parse_total src : parse_source src ≠ Panic.
Proof. apply (safe_no_panic _ _ (parse_source_safe src)). Qed.

(** C13: What the parser returns has the shape the later passes rely on: an uninitialised
    binding has a type, a block closure and a concise function a return type, an
    or-pattern two alternatives, capabilities no duplicates, aggregates no ordering, only
    data declarations have keys and constraints, an external function no body, every
    published name is declared, and no expression or block nests deeper than
    [MAX_EXPRESSION_DEPTH]. *)
Theorem parse_well_formed src p : parse_source src = Ok p → program_ok p = true.
Proof. apply (safe_post _ _ _ (parse_source_safe src)). Qed.
End source.

(** ASCII letters, as a concrete table. *)
Definition ascii_text : TokenText := {|
  is_uppercase := λ c, ((65 <=? c) && (c <=? 90))%Z;
  debug_kind := λ _, "token" |}.

Definition sample_source : string :=
  "pub data User { id: i64 primary constraint c: unique(id) }
   pub fn f(x: &Map<Text, List<i64>>) -> i64 uses Network = x.g(1 + 2 * 3)[0]?
   fn main() { let y: i64; if y == 1 { *y += 2 } else if y < 3 { return } else { loop { break } }
     match y { Some(z) | P { a: 1, .. } if z => |q: i64| q + 1, _ => data find User in y where z } }".

Lemma parse_well_formed_witness :
  ∃ p, @parse_source ascii_unicode ascii_text sample_source = Ok p ∧ program_ok (H := ascii_text) p = true.
Proof.
  destruct (@parse_source ascii_unicode ascii_text sample_source) as [p|e|] eqn:E;
    [|vm_compute in E; discriminate..].
  exists p. split; [reflexivity|]. exact (@parse_well_formed ascii_unicode ascii_text _ _ E).
Defined.
