(* ===== verification/ParserPrint.v ===== *)
(** * Printing expressions

    [Term] is the abstract syntax of operators, suffixes and literals; [print p t] writes a
    term for a context that binds as tightly as level [p], with the parentheses the
    precedences require and no others.  [printable], [deep], [operators] and [calls] are the
    limits of the parser on such a term. *)

From S2P Require Import Prelude Machine Diagnostics Limits StateM Ast Lexer Parser ParserForm ParserLogic ParserTotal.
#[local] Open Scope string_scope.
#[local] Open Scope list_scope.
#[local] Open Scope nat_scope.

(** ** Terms *)

Inductive Prefix :=
| PreAwait | PreSpawn | PreMove | PreBorrow | PreBorrowMut | PreDereference | PreNegate | PreNot.

Inductive Term : Type :=
| TInteger (value : Z)
| TFloat (value : f64)
| TString (value : string)
| TCharacter (value : char)
| TBool (value : bool)
| TIdentifier (name : string)
| TArray (values : list Term)
| TField (object : Term) (field : string)
| TIndex (object index : Term)
| TSubslice (object first last : Term)
| TTry (value : Term)
| TCall (callee : Term) (arguments : list Term)
| TPrefix (operator : Prefix) (operand : Term)
| TBinary (left : Term) (operator : BinaryOperator) (right : Term)
| TOther.

(** The term an expression stands for; [TOther] outside of the fragment. *)
Fixpoint term_of (e : Expression) : Term :=
  match e with
  | EInteger value => TInteger value
  | EFloat value => TFloat value
  | EString value => TString value
  | ECharacter value => TCharacter value
  | EBool value => TBool value
  | EIdentifier name => TIdentifier name
  | EArray values => TArray (map (λ v, term_of (node v)) values)
  | EFieldAccess object field _ => TField (term_of (node object)) field
  | EIndex object index => TIndex (term_of (node object)) (term_of (node index))
  | ESubslice object first last =>
    TSubslice (term_of (node object)) (term_of (node first)) (term_of (node last))
  | ETry value => TTry (term_of (node value))
  | ECall callee arguments =>
    TCall (term_of (node callee)) (map (λ v, term_of (node v)) arguments)
  | EAwait value => TPrefix PreAwait (term_of (node value))
  | ESpawn value => TPrefix PreSpawn (term_of (node value))
  | EMove value => TPrefix PreMove (term_of (node value))
  | EBorrow mutable target =>
    TPrefix (if mutable then PreBorrowMut else PreBorrow) (term_of (node target))
  | EDereference value => TPrefix PreDereference (term_of (node value))
  | EUnary Negate value => TPrefix PreNegate (term_of (node value))
  | EUnary Not value => TPrefix PreNot (term_of (node value))
  | EBinary l op r => TBinary (term_of (node l)) op (term_of (node r))
  | _ => TOther
  end.

(** ** Printing *)

Definition op_kind (op : BinaryOperator) : TokenKind :=
  match op with
  | BAdd => Plus | BSubtract => Minus | BMultiply => Star | BDivide => Slash
  | BRemainder => Percent | BEqual => EqualEqual | BNotEqual => BangEqual | BLess => Less
  | BLessEqual => LessEqual | BGreater => Greater | BGreaterEqual => GreaterEqual
  | BAnd => AndAnd | BOr => OrOr
  end.

Definition op_level (op : BinaryOperator) : nat :=
  match op with
  | BOr => 0
  | BAnd => 1
  | BEqual | BNotEqual => 2
  | BLess | BLessEqual | BGreater | BGreaterEqual => 3
  | BAdd | BSubtract => 4
  | BMultiply | BDivide | BRemainder => 5
  end.

Definition prefix_kinds (p : Prefix) : list TokenKind :=
  match p with
  | PreAwait => [Await] | PreSpawn => [Spawn] | PreMove => [Move] | PreBorrow => [And]
  | PreBorrowMut => [And; Mut] | PreDereference => [Star] | PreNegate => [Minus]
  | PreNot => [Bang]
  end.

(** Operators are levels 0 to 5, prefixes level 6, the rest level 7. *)
Definition level (t : Term) : nat :=
  match t with
  | TBinary _ op _ => op_level op
  | TPrefix _ _ => 6
  | _ => 7
  end.

Definition parens (needed : bool) (kinds : list TokenKind) : list TokenKind :=
  if needed then LeftParen :: kinds ++ [RightParen] else kinds.

Fixpoint commas (items : list (list TokenKind)) : list TokenKind :=
  match items with
  | [] => []
  | [item] => item
  | item :: items => item ++ Comma :: commas items
  end.

Fixpoint body (t : Term) : list TokenKind :=
  let print p t := parens (level t <? p) (body t) in
  match t with
  | TInteger value => [Integer value]
  | TFloat value => [Float value]
  | TString value => [String_ value]
  | TCharacter value => [Character value]
  | TBool value => [if value then True_ else False_]
  | TIdentifier name => [Identifier name]
  | TArray values => LeftBracket :: commas (map (print 0) values) ++ [RightBracket]
  | TField object field => print 7 object ++ [Dot; Identifier field]
  | TIndex object index => print 7 object ++ LeftBracket :: print 0 index ++ [RightBracket]
  | TSubslice object first last =>
    print 7 object ++ LeftBracket :: print 0 first ++ Range :: print 0 last ++ [RightBracket]
  | TTry value => print 7 value ++ [Question]
  | TCall callee arguments =>
    print 7 callee ++ LeftParen :: commas (map (print 0) arguments) ++ [RightParen]
  | TPrefix op operand => prefix_kinds op ++ print 6 operand
  | TBinary l op r => print (op_level op) l ++ op_kind op :: print (S (op_level op)) r
  | TOther => []
  end.
Definition print (p : nat) (t : Term) : list TokenKind := parens (level t <? p) (body t).

(** ** The bounds *)

Definition list_max_of {A} (f : A → nat) (l : list A) : nat := foldr (λ a m, Nat.max (f a) m) 0 l.

(** The recursion depth the parser needs below the one it starts at. *)
Fixpoint deep (p : nat) (t : Term) : nat :=
  (if level t <? p then 1 else 0)
  + match t with
    | TArray values => list_max_of (λ v, S (deep 0 v)) values
    | TField object _ => deep 7 object
    | TIndex object index => Nat.max (deep 7 object) (S (deep 0 index))
    | TSubslice object first last =>
      Nat.max (deep 7 object) (Nat.max (S (deep 0 first)) (S (deep 0 last)))
    | TTry value => deep 7 value
    | TCall callee arguments =>
      Nat.max (deep 7 callee) (list_max_of (λ v, S (deep 0 v)) arguments)
    | TPrefix _ operand => S (deep 6 operand)
    | TBinary l op r => Nat.max (deep (op_level op) l) (deep (S (op_level op)) r)
    | _ => 0
    end.

(** Operators of level [p] the parser meets in one loop, and calls in one chain of
    suffixes. *)
Fixpoint operators (p : nat) (t : Term) : nat :=
  match t with
  | TBinary l op _ => if op_level op =? p then S (operators p l) else 0
  | _ => 0
  end.
Fixpoint calls (t : Term) : nat :=
  match t with
  | TCall callee _ => S (calls callee)
  | TField t _ | TIndex t _ | TSubslice t _ _ | TTry t => calls t
  | _ => 0
  end.

Definition is_slice_term (t : Term) : bool :=
  match t with
  | TField _ field => String.eqb field "slice" || String.eqb field "slice_mut"
  | _ => false
  end%bool.
Definition is_map_of (t : Term) : bool :=
  match t with
  | TField (TIdentifier name) field => String.eqb field "of" && String.eqb name "Map"
  | _ => false
  end%bool.

(** Terms the parser can return, with chains within its limits. *)
Fixpoint printable (t : Term) : bool :=
  match t with
  | TArray values => forallb printable values
  | TField object _ => printable object
  | TIndex object index => printable object && printable index
  | TSubslice object first last => printable object && printable first && printable last
  | TTry value => printable value
  | TCall callee arguments =>
    negb (is_slice_term callee) && negb (is_map_of callee) && printable callee
    && forallb printable arguments && (Z.of_nat (calls t) <=? MAX_CALL_CHAIN)%Z
  | TPrefix _ operand => printable operand
  | TBinary l op r =>
    printable l && printable r && (Z.of_nat (operators (op_level op) t) <=? MAX_OPERATOR_CHAIN)%Z
  | TOther => false
  | _ => true
  end%bool.

(** A token after which an expression in a context of level [p] has ended. *)
Definition kind_level (k : TokenKind) : option nat :=
  match k with
  | OrOr => Some 0 | AndAnd => Some 1 | EqualEqual | BangEqual => Some 2
  | Less | LessEqual | Greater | GreaterEqual => Some 3 | Plus | Minus => Some 4
  | Star | Slash | Percent => Some 5
  | _ => None
  end.
Definition ends (p : nat) (k : TokenKind) : bool :=
  match k with
  | LeftParen | Dot | LeftBracket | Question | LeftBrace => false
  | _ => negb (is_assignment k)
         && match kind_level k with Some l => l <? p | None => true end
  end%bool.

(** ** What printing produces *)

Definition quiet (ks : list TokenKind) : Prop :=
  Forall (λ k, is_assignment k = false) ks ∧ last ks ≠ Some Dot ∧ ks ≠ [].

Lemma last_app_ne {A} (l k : list A) : k ≠ [] → last (l ++ k) = last k.
Proof.
  intros Hk. destruct (last_is_Some k) as [_ Hl]. destruct (Hl Hk) as [x Hx].
  rewrite last_app, Hx. done.
Qed.

Lemma quiet_app l k :
  Forall (λ k, is_assignment k = false) l → quiet k → quiet (l ++ k).
Proof.
  intros Hl (Hk & Hlast & Hne). split_and!.
  - by apply Forall_app.
  - by rewrite last_app_ne.
  - by destruct l.
Qed.

Lemma quiet_one k : is_assignment k = false → k ≠ Dot → quiet [k].
Proof. intros. split_and!; [by constructor|simpl; congruence|done]. Qed.

Lemma quiet_forall k : quiet k → Forall (λ k, is_assignment k = false) k.
Proof. by intros []. Qed.

Lemma quiet_parens b ks : quiet ks → quiet (parens b ks).
Proof.
  intros Hk. destruct b; simpl; [|done].
  apply (quiet_app (LeftParen :: ks) [RightParen]); [|by apply quiet_one].
  constructor; [done|]. by apply quiet_forall.
Qed.

Lemma commas_forall (P : TokenKind → Prop) items :
  P Comma → Forall (Forall P) items → Forall P (commas items).
Proof.
  intros HP. induction 1 as [|item items Hi Hr IH]; simpl; [done|].
  destruct items; [done|]. apply Forall_app. split; [done|]. by constructor.
Qed.

Lemma quiet_commas values :
  Forall (λ t, printable t = true → quiet (body t)) values → forallb printable values = true →
  Forall (λ k, is_assignment k = false)
    (commas (map (λ t, parens (level t <? 0) (body t)) values)).
Proof.
  intros Hv Hp. apply commas_forall; [done|]. apply Forall_fmap. rewrite forallb_Forall in Hp.
  rewrite Forall_forall in Hv, Hp |- *. intros t Ht. apply quiet_forall, quiet_parens. auto.
Qed.

Lemma quiet_cons k l : is_assignment k = false → quiet l → quiet (k :: l).
Proof. intros Hk Hl. apply (quiet_app [k]); [by constructor|done]. Qed.

Lemma op_kind_quiet op : is_assignment (op_kind op) = false.
Proof. by destruct op. Qed.
Lemma prefix_quiet op : Forall (λ k, is_assignment k = false) (prefix_kinds op).
Proof. by destruct op; repeat constructor. Qed.

Ltac quieten :=
  repeat first
    [ assumption | apply op_kind_quiet | apply prefix_quiet | by apply quiet_one
    | apply quiet_parens | apply quiet_commas | apply quiet_app | apply quiet_cons
    | reflexivity | apply quiet_forall ];
  auto.

Lemma quiet_body t : printable t = true → quiet (body t).
Proof.
  induction t; simpl; intros Hp; nested; rewrite ?andb_true_iff in Hp; destruct_and?;
    try (by apply quiet_one); try (destruct value; by apply quiet_one); try done; quieten.
Qed.

Lemma quiet_print p t : printable t = true → quiet (print p t).
Proof. intros. by apply quiet_parens, quiet_body. Qed.

Lemma print_ne p t : printable t = true → print p t ≠ [].
Proof. intros. by apply quiet_print. Qed.

(** Only prefixed terms start with a prefix operator. *)
Definition is_prefix_kind (k : TokenKind) : bool :=
  match k with Await | Spawn | Move | And | Star | Minus | Bang => true | _ => false end.
Definition plain (ks : list TokenKind) : Prop :=
  ∃ k ks', ks = k :: ks' ∧ is_prefix_kind k = false.

Lemma plain_app l k : plain l → plain (l ++ k).
Proof. intros (x & l' & -> & Hx). by exists x, (l' ++ k). Qed.

Lemma plain_print t : printable t = true → plain (print 7 t).
Proof.
  unfold print. induction t; simpl; intros Hp; rewrite ?andb_true_iff in Hp; destruct_and?;
    try (by do 2 eexists; split; reflexivity); try (by apply plain_app; auto); try done.
  - by destruct value; do 2 eexists; split; reflexivity.
  - destruct (op_level operator <? 7) eqn:E; [by do 2 eexists; split; reflexivity|].
    apply Nat.ltb_ge in E. destruct operator; simpl in E; lia.
Qed.

(** ** A multiplication is not mistaken for an assignment through a pointer *)

Lemma path_quiet ks k ks' :
  Forall (λ k, is_assignment k = false) ks → last ks ≠ Some Dot →
  is_assignment k = false → k ≠ Dot → path_then_assignment (ks ++ k :: ks') = false.
Proof.
  intros Hks Hlast Hk Hd. revert Hks Hlast.
  induction ks as [ks IH] using (induction_ltof1 _ length); unfold ltof in IH; intros Hks Hlast.
  destruct ks as [|a ks]; simpl; [by destruct k|].
  rewrite Forall_cons in Hks. destruct Hks as [Ha Hks].
  destruct (decide (a = Dot)) as [->|Hne]; [|by destruct a].
  destruct ks as [|b ks]; [done|]. simpl. rewrite Forall_cons in Hks. destruct Hks as [Hb Hks].
  destruct b; try done. apply IH; [simpl; lia|done|].
  intros Hl. apply Hlast. simpl in *. by destruct ks.
Qed.
