(* ===== verification/ParserRun.v ===== *)
(** * Running the parser over known tokens

    Equations for the primitive methods on a parser placed between two lists of tokens, and
    rules to run its loops. *)

From S2P Require Import Prelude Machine Diagnostics Limits StateM Ast Lexer Parser ParserForm ParserLogic ParserTotal.
#[local] Open Scope string_scope.
#[local] Open Scope list_scope.
#[local] Open Scope nat_scope.

(** ** Running over known tokens

    [at_ pre ts d]: the parser between the tokens [pre] and [ts], at depth [d]. *)

Definition at_ (pre ts : list Token) (d : Z) : Parser := mkParser (pre ++ ts) (length pre) d false.

Lemma at_app pre xs ts d :
  at_ (pre ++ xs) ts d = mkParser (pre ++ xs ++ ts) (length (pre ++ xs)) d false.
Proof. unfold at_. by rewrite app_assoc. Qed.

Lemma lookup_here (pre : list Token) t ts : (pre ++ t :: ts) !! length pre = Some t.
Proof. by apply list_lookup_middle. Qed.

Lemma at_peek pre t ts d : peek (at_ pre (t :: ts) d) = Ok (t, at_ pre (t :: ts) d).
Proof.
  unfold peek, at_. simpl. rewrite length_app. simpl. rewrite Nat.min_l by lia.
  by rewrite lookup_here.
Qed.

Lemma at_peek_kind pre t ts d :
  peek_kind (at_ pre (t :: ts) d) = Ok (token_kind t, at_ pre (t :: ts) d).
Proof. unfold peek_kind. by rewrite (SM_bind_run _ _ _ _ _ (at_peek _ _ _ _)). Qed.

Lemma at_check k pre t ts d :
  check k (at_ pre (t :: ts) d) = Ok (same_variant (token_kind t) k, at_ pre (t :: ts) d).
Proof. unfold check. by rewrite (SM_bind_run _ _ _ _ _ (at_peek_kind _ _ _ _)). Qed.

Lemma at_advance pre t ts d :
  token_kind t ≠ Eof → advance (at_ pre (t :: ts) d) = Ok (t, at_ (pre ++ [t]) ts d).
Proof.
  intros Hk. unfold advance. rewrite (SM_bind_run _ _ _ _ _ (at_peek _ _ _ _)), at_app.
  rewrite length_app. simpl. rewrite Nat.add_1_r.
  by destruct (token_kind t).
Qed.

Lemma at_match_true k pre t ts d :
  same_variant (token_kind t) k = true → token_kind t ≠ Eof →
  match_token k (at_ pre (t :: ts) d) = Ok (true, at_ (pre ++ [t]) ts d).
Proof.
  intros Hk He. unfold match_token. rewrite (SM_bind_run _ _ _ _ _ (at_check _ _ _ _ _)), Hk.
  by rewrite (SM_bind_run _ _ _ _ _ (at_advance _ _ _ _ He)).
Qed.

Lemma at_match_false k pre t ts d :
  same_variant (token_kind t) k = false →
  match_token k (at_ pre (t :: ts) d) = Ok (false, at_ pre (t :: ts) d).
Proof.
  intros Hk. unfold match_token.
  by rewrite (SM_bind_run _ _ _ _ _ (at_check _ _ _ _ _)), Hk.
Qed.

Lemma at_previous pre t ts d : previous (at_ (pre ++ [t]) ts d) = Ok (t, at_ (pre ++ [t]) ts d).
Proof.
  unfold previous, at_. simpl. rewrite length_app. simpl.
  replace (length pre + 1 - 1) with (length pre) by lia.
  rewrite <- app_assoc. simpl. by rewrite lookup_here.
Qed.

Lemma at_previous_span pre t ts d :
  previous_span (at_ (pre ++ [t]) ts d) = Ok (token_span t, at_ (pre ++ [t]) ts d).
Proof. unfold previous_span. by rewrite (SM_bind_run _ _ _ _ _ (at_previous _ _ _ _)). Qed.

Lemma at_remaining pre ts d : remaining (at_ pre ts d) = list_sum (weight <$> ts).
Proof. unfold remaining, at_. simpl. by rewrite drop_app_length. Qed.

Section running.
Context `{TokenText}.

Lemma at_expect_span k message pre t ts d :
  token_kind t = k → k ≠ Eof → same_variant k k = true →
  expect_span k message (at_ pre (t :: ts) d) = Ok (token_span t, at_ (pre ++ [t]) ts d).
Proof.
  intros Hk He Hs. unfold expect_span, expect.
  rewrite (SM_bind_run _ _ _ t (at_ (pre ++ [t]) ts d)); [done|].
  rewrite (SM_bind_run _ _ _ _ _ (at_check _ _ _ _ _)), Hk, Hs.
  apply at_advance. congruence.
Qed.

Lemma at_with_recursion {A} (m : P A) pre ts pre' ts' d a :
  (0 <= d < MAX_EXPRESSION_DEPTH)%Z →
  m (at_ pre ts (d + 1)) = Ok (a, at_ pre' ts' (d + 1)) →
  with_recursion m (at_ pre ts d) = Ok (a, at_ pre' ts' d).
Proof.
  intros [Hd0 Hd] Hm. unfold with_recursion.
  rewrite (SM_bind_run _ _ (at_ pre ts d) d (at_ pre ts d)) by done.
  rewrite (proj2 (Z.leb_gt _ _) Hd).
  rewrite (SM_bind_run _ _ (at_ pre ts d) tt (at_ pre ts (d + 1))) by done.
  rewrite (SM_bind_run _ _ _ _ _ Hm).
  rewrite (SM_bind_run _ _ _ (d + 1)%Z (at_ pre' ts' (d + 1))) by done.
  rewrite (SM_bind_run _ _ _ d (at_ pre' ts' (d + 1))); [done|].
  unfold lift, unsigned_sub. rewrite (proj2 (Z.leb_le 1 (d + 1))) by lia. simpl.
  by replace (d + 1 - 1)%Z with d by lia.
Qed.
End running.

(** ** Loops as far as they are known *)

(** Whatever fuel suffices, the loop gives [r]. *)
Definition loops_to {A B} (turn : A → P (A + B)) (a : A) (s : Parser)
    (r : outcome Diagnostic (B * Parser)) : Prop :=
  ∀ fuel, remaining s < fuel → iterate fuel turn a s = r.

Lemma loops_turn {A B} (turn : A → P (A + B)) a s a' s' r :
  turn a s = Ok (inl a', s') → remaining s' < remaining s →
  loops_to turn a' s' r → loops_to turn a s r.
Proof.
  intros Ht Hlt Hl fuel Hf. destruct fuel as [|fuel]; [lia|]. simpl.
  rewrite (SM_bind_run _ _ _ _ _ Ht). apply Hl. lia.
Qed.

Lemma loops_stop {A B} (turn : A → P (A + B)) a s b s' :
  turn a s = Ok (inr b, s') → loops_to turn a s (Ok (b, s')).
Proof.
  intros Ht fuel Hf. destruct fuel as [|fuel]; [lia|]. simpl.
  by rewrite (SM_bind_run _ _ _ _ _ Ht).
Qed.

Lemma loops_run {A B} (turn : A → P (A + B)) a s r :
  loops_to turn a s r → loop_ turn a s = r.
Proof. intros Hl. apply Hl. lia. Qed.

Lemma remaining_less pre xs ts pre' d :
  xs ≠ [] → remaining (at_ pre' ts d) < remaining (at_ pre (xs ++ ts) d).
Proof.
  intros Hxs. rewrite !at_remaining, fmap_app, list_sum_app.
  destruct xs as [|x xs]; [done|]. simpl. pose proof (weight_pos x). lia.
Qed.
