(* ===== verification/ParserRoundTrip.v ===== *)
(** * Printing an expression and parsing it back

    Parsing what [print] wrote returns the term: the precedence levels and the left
    associativity of the parser are the ones of [print].  The levels are loops, so a claim
    comes in two forms: [yields], the parser returns the term, and [reaches], it is in the
    loop of its level with the term read so far. *)

From S2P Require Import Prelude Machine Diagnostics Limits StateM Ast Lexer Parser ParserForm ParserLogic ParserTotal ParserProps ParserPrint ParserRun.
#[local] Open Scope string_scope.
#[local] Open Scope list_scope.
#[local] Open Scope nat_scope.

(** ** Claims about a parser on printed tokens *)

(** [m] reads [kinds] and nothing more, and returns [t]. *)
Definition yields (m : P Expr) (d : Z) (kinds : list TokenKind) (stops : TokenKind → bool)
    (t : Term) : Prop :=
  ∀ pre xs stop rest, token_kind <$> xs = kinds → stops (token_kind stop) = true →
  ∃ e, m (at_ pre (xs ++ stop :: rest) d) = Ok (e, at_ (pre ++ xs) (stop :: rest) d)
       ∧ term_of (node e) = t.

(** [m] reads [kinds] and is then in its loop, with [t] read and [count] turns taken. *)
Definition reaches (m : P Expr) (turn : Expr * Z → P (Expr * Z + Expr)) (d : Z)
    (kinds : list TokenKind) (stops : TokenKind → bool) (count : nat) (t : Term) : Prop :=
  ∀ pre xs stop rest, token_kind <$> xs = kinds → stops (token_kind stop) = true →
  ∃ e, term_of (node e) = t ∧
       ∀ r, loops_to turn (e, Z.of_nat count) (at_ (pre ++ xs) (stop :: rest) d) r →
            m (at_ pre (xs ++ stop :: rest) d) = r.

Lemma reaches_yields m turn d kinds stops stops' count t :
  (∀ k, stops' k = true → stops k = true) →
  (∀ e c pre stop rest, stops' (token_kind stop) = true →
     turn (e, c) (at_ pre (stop :: rest) d) = Ok (inr e, at_ pre (stop :: rest) d)) →
  reaches m turn d kinds stops count t → yields m d kinds stops' t.
Proof.
  intros Himp Hstop Hm pre xs stop rest Hxs Hs.
  destruct (Hm pre xs stop rest Hxs (Himp _ Hs)) as (e & He & Hr). exists e.
  split; [|done]. apply Hr. apply loops_stop. by apply Hstop.
Qed.

Section levels.
Context `{TokenText}.

Definition level_operators (p : nat) : list (TokenKind * BinaryOperator) :=
  match p with
  | 0 => [(OrOr, BOr)]
  | 1 => [(AndAnd, BAnd)]
  | 2 => [(EqualEqual, BEqual); (BangEqual, BNotEqual)]
  | 3 => [(Less, BLess); (LessEqual, BLessEqual); (Greater, BGreater);
          (GreaterEqual, BGreaterEqual)]
  | 4 => [(Plus, BAdd); (Minus, BSubtract)]
  | 5 => [(Star, BMultiply); (Slash, BDivide); (Percent, BRemainder)]
  | _ => []
  end.

Definition parse_level (self : Recursive) (p : nat) : P Expr :=
  match p with
  | 0 => parse_or self
  | 1 => parse_and self
  | 2 => parse_equality self
  | 3 => parse_comparison self
  | 4 => parse_addition self
  | 5 => parse_multiplication self
  | _ => parse_unary self
  end.

Definition level_turn (self : Recursive) (p : nat) : Expr * Z → P (Expr * Z + Expr) :=
  binary_turn (parse_level self (S p)) (level_operators p).

Lemma parse_level_binary self p :
  p < 6 → parse_level self p = parse_binary (parse_level self (S p)) (level_operators p).
Proof. intros Hp. by do 6 (destruct p as [|p]; [done|]); lia. Qed.

Lemma op_level_lt op : op_level op < 6.
Proof. destruct op; simpl; lia. Qed.

Lemma find_operator op :
  List.find (λ '(k, _), same_variant (op_kind op) k) (level_operators (op_level op))
  = Some (op_kind op, op).
Proof. by destruct op. Qed.

Lemma find_none p k :
  kind_level k ≠ Some p → List.find (λ '(k', _), same_variant k k') (level_operators p) = None.
Proof.
  intros Hk. do 6 (destruct p as [|p]; [by destruct k|]). by destruct k.
Qed.

Lemma ends_kind_level p k : ends p k = true → p < 7 → kind_level k ≠ Some p.
Proof.
  intros He Hp Hk. destruct k; simpl in *; try done; injection Hk as <-; done.
Qed.

Lemma ends_weaken p q k : p <= q → ends p k = true → ends q k = true.
Proof.
  intros Hle. destruct k; simpl; try done; rewrite !Nat.ltb_lt; lia.
Qed.

Lemma level_stop self p e c pre stop rest d :
  kind_level (token_kind stop) ≠ Some p →
  level_turn self p (e, c) (at_ pre (stop :: rest) d) = Ok (inr e, at_ pre (stop :: rest) d).
Proof.
  intros Hk. unfold level_turn, binary_turn.
  rewrite (SM_bind_run _ _ _ _ _ (at_peek_kind _ _ _ _)). by rewrite find_none.
Qed.

(** An operand of the next level starts the loop. *)
Lemma level_first self p d kinds t :
  p < 6 → yields (parse_level self (S p)) d kinds (ends (S p)) t →
  reaches (parse_level self p) (level_turn self p) d kinds (ends (S p)) 0 t.
Proof.
  intros Hp Hy pre xs stop rest Hxs Hs. destruct (Hy pre xs stop rest Hxs Hs) as (e & Hm & He).
  exists e. split; [done|]. intros r Hr. rewrite parse_level_binary by done. unfold parse_binary.
  rewrite (SM_bind_run _ _ _ _ _ Hm). by apply loops_run.
Qed.

Lemma level_yields self p d kinds count t :
  p < 6 → reaches (parse_level self p) (level_turn self p) d kinds (ends (S p)) count t →
  yields (parse_level self p) d kinds (ends p) t.
Proof.
  intros Hp. apply reaches_yields.
  - intros k. apply ends_weaken. lia.
  - intros e c pre stop rest Hs. apply level_stop. apply ends_kind_level; [done|lia].
Qed.

Lemma starts_statement_false e pre o xs stop rest d :
  quiet (token_kind <$> xs) → is_assignment (token_kind stop) = false →
  token_kind stop ≠ Dot →
  starts_statement e (at_ pre (o :: xs ++ stop :: rest) d)
  = Ok (false, at_ pre (o :: xs ++ stop :: rest) d).
Proof.
  intros (Hq & Hl & Hne) Ha Hd. unfold starts_statement.
  rewrite (SM_bind_run _ _ _ _ _ (at_check _ _ _ _ _)).
  rewrite (SM_bind_run _ _ _ _ _ (at_peek _ _ _ _)).
  destruct (_ && _)%bool; [|done]. unfold looks_like_dereference_assignment, gets.
  do 2 f_equal. unfold at_. simpl.
  change (pre ++ o :: xs ++ stop :: rest) with (pre ++ [o] ++ xs ++ stop :: rest).
  rewrite app_assoc, drop_app_length' by (rewrite length_app; simpl; lia).
  rewrite fmap_app. simpl. destruct (token_kind <$> xs) as [|k ks]; [done|].
  simpl. rewrite Forall_cons in Hq. destruct Hq as [_ Hq].
  destruct k; try done. apply path_quiet; [done| |done|done].
  intros Hk. apply Hl. simpl. by destruct ks.
Qed.

Lemma ends_operator op : ends (S (op_level op)) (op_kind op) = true.
Proof. by destruct op. Qed.

Lemma ends_quiet p k : ends p k = true → is_assignment k = false ∧ k ≠ Dot.
Proof. by destruct k. Qed.

Lemma op_kind_not_eof op : op_kind op ≠ Eof.
Proof. by destruct op. Qed.

(** One operator more. *)
Lemma level_binary self op d kl kr count l r :
  let p := op_level op in
  (Z.of_nat (S count) <= MAX_OPERATOR_CHAIN)%Z → quiet kr →
  reaches (parse_level self p) (level_turn self p) d kl (ends (S p)) count l →
  yields (parse_level self (S p)) d kr (ends (S p)) r →
  reaches (parse_level self p) (level_turn self p) d (kl ++ op_kind op :: kr) (ends (S p))
    (S count) (TBinary l op r).
Proof.
  intros p Hcount Hq Hl Hr pre xs stop rest Hxs Hs.
  apply fmap_app_inv in Hxs as (xl & xs' & Hxl & Hxs' & ->). symmetry in Hxs'.
  apply fmap_cons_inv in Hxs' as (o & xr & Ho & Hxr & ->).
  destruct (Hl pre xl o (xr ++ stop :: rest)) as (e & He & Hloop); [done|rewrite <- Ho; apply ends_operator|].
  destruct (Hr ((pre ++ xl) ++ [o]) xr stop rest) as (e' & Hm' & He'); [done|done|].
  eexists (mkSpanned (EBinary e op e') _). split; [simpl; by rewrite He, He'|].
  intros res Hres. rewrite <- app_assoc. simpl. apply Hloop. eapply loops_turn; [| |exact Hres].
  - unfold level_turn, binary_turn. rewrite (SM_bind_run _ _ _ _ _ (at_peek_kind _ _ _ _)).
    rewrite <- Ho, find_operator. destruct (ends_quiet _ _ Hs) as [Ha Hd].
    rewrite (SM_bind_run _ _ _ _ _ (starts_statement_false e _ o xr stop rest d ltac:(congruence) Ha Hd)).
    cbv zeta beta iota. rewrite Z.gtb_ltb, (proj2 (Z.ltb_ge _ _)) by lia.
    rewrite (SM_bind_run _ _ _ _ _ (at_advance _ _ _ _ ltac:(rewrite <- Ho; apply op_kind_not_eof))).
    rewrite (SM_bind_run _ _ _ _ _ Hm'). unfold mret, SM_ret.
    rewrite Nat2Z.inj_succ. unfold Z.succ. by rewrite <- !app_assoc.
  - rewrite app_assoc. by apply (remaining_less _ (o :: xr)).
Qed.
End levels.

(** Run the first step of a sequence over known tokens. *)
Ltac kind_known :=
  first [done | match goal with E : token_kind ?x = _ |- _ ?x _ => rewrite E; first [reflexivity|discriminate] end
        | match goal with E : token_kind _ = _ |- _ => rewrite E; first [reflexivity|discriminate] end].
Ltac flat := rewrite ?SM_bind_assoc.
Ltac step_with L := flat; erewrite SM_bind_run; [|apply L]; cbv beta iota.
Ltac pure_step := flat; erewrite SM_bind_run; [|reflexivity]; cbv beta iota.
Ltac skip := flat; erewrite SM_bind_run; [|apply at_match_false; kind_known]; cbv beta iota.
Ltac take := flat; erewrite SM_bind_run; [|apply at_match_true; kind_known]; cbv beta iota.

(** Split tokens along the kinds they are known to have. *)
Ltac split_kinds H :=
  lazymatch type of H with
  | _ <$> ?l = [] => apply fmap_nil_inv in H; subst l
  | _ <$> _ = _ :: _ =>
      let x := fresh "x" in let xs := fresh "xs" in let Hx := fresh "Hx" in
      apply fmap_cons_inv in H as (x & xs & Hx & H & ->); symmetry in Hx, H; split_kinds H
  | _ <$> _ = _ ++ _ =>
      let xl := fresh "xl" in let xr := fresh "xr" in let Hl := fresh "Hl" in
      apply fmap_app_inv in H as (xl & xr & Hl & H & ->); symmetry in Hl, H; split_kinds H
  | _ => idtac
  end.

Section suffixes.
Context `{TokenText}.

Lemma at_expect_identifier message name pre t ts d :
  token_kind t = Identifier name →
  expect_identifier message (at_ pre (t :: ts) d) = Ok ((name, token_span t), at_ (pre ++ [t]) ts d).
Proof.
  intros Ht. unfold expect_identifier.
  rewrite (SM_bind_run _ _ _ _ _ (at_advance _ _ _ _ ltac:(by rewrite Ht))). by rewrite Ht.
Qed.

(** ** Prefix operators *)

Definition not_brace (k : TokenKind) : bool := negb (same_variant k LeftBrace).

(** The first token of an operand. *)
Definition starter (k : TokenKind) : bool :=
  match k with Or | OrOr | Mut | RightParen | RightBracket => false | _ => true end.
Definition starts (ks : list TokenKind) : Prop := ∃ k ks', ks = k :: ks' ∧ starter k = true.

Lemma starts_app l k : starts l → starts (l ++ k).
Proof. intros (x & l' & -> & Hx). by exists x, (l' ++ k). Qed.

Lemma starts_print p t : printable t = true → starts (print p t).
Proof.
  assert (Hparens : ∀ b ks, starts ks → starts (parens b ks)).
  { intros [] ks Hk; [by do 2 eexists; split; reflexivity|done]. }
  revert p. unfold print.
  induction t; simpl; intros p Hp; rewrite ?andb_true_iff in Hp; destruct_and?; apply Hparens;
    try (by do 2 eexists; split; reflexivity); try (by apply starts_app; auto); try done.
  - by destruct value; do 2 eexists; split; reflexivity.
  - by destruct operator; do 2 eexists; split; reflexivity.
Qed.

Lemma ends_not_suffix p k :
  ends p k = true →
  same_variant k LeftParen = false ∧ same_variant k Dot = false
  ∧ same_variant k LeftBracket = false ∧ same_variant k Question = false ∧ not_brace k = true.
Proof. by destruct k. Qed.

Lemma call_stop self e c pre stop rest d p :
  ends p (token_kind stop) = true →
  call_turn self (e, c) (at_ pre (stop :: rest) d) = Ok (inr e, at_ pre (stop :: rest) d).
Proof.
  intros (H1 & H2 & H3 & H4 & _)%ends_not_suffix. unfold call_turn. skip. skip. skip.
  unfold match_question.
  rewrite (SM_bind_run _ _ _ false (at_ pre (stop :: rest) d)); [done|].
  rewrite (SM_bind_run _ _ _ false (at_ pre (stop :: rest) d)) by done.
  by apply at_match_false.
Qed.

Lemma unary_call self d kinds count t :
  plain kinds → reaches (parse_call self) (call_turn self) d kinds not_brace count t →
  yields (parse_unary self) d kinds (ends 6) t.
Proof.
  intros (k & ks & -> & Hk) Hc pre xs stop rest Hxs Hs.
  assert (Hy : yields (parse_call self) d (k :: ks) (ends 6) t).
  { eapply reaches_yields; [| |exact Hc].
    - intros k' Hk'. by apply (ends_not_suffix 6).
    - intros e c pre' stop' rest' Hs'. by apply (call_stop self e c pre' stop' rest' d 6). }
  destruct (Hy pre xs stop rest Hxs Hs) as (e & Hm & He). exists e. split; [|done].
  destruct xs as [|x xs]; [done|]. simpl in Hxs. injection Hxs as Hx Hxs. subst k.
  simpl. unfold parse_unary.
  destruct (token_kind x) eqn:Ek; try done; by do 7 skip.
Qed.

(** The expression a prefix builds. *)
Definition prefix_node (p : Prefix) (e : Expr) : Expression :=
  match p with
  | PreAwait => EAwait e
  | PreSpawn => ESpawn e
  | PreMove => EMove e
  | PreBorrow => EBorrow false e
  | PreBorrowMut => EBorrow true e
  | PreDereference => EDereference e
  | PreNegate => EUnary Negate e
  | PreNot => EUnary Not e
  end.

Lemma unary_prefix n p d kinds t :
  (0 <= d < MAX_EXPRESSION_DEPTH)%Z → starts kinds →
  yields (parse_unary (parsers n)) (d + 1) kinds (ends 6) t →
  yields (parse_unary (parsers (S n))) d (prefix_kinds p ++ kinds) (ends 6) (TPrefix p t).
Proof.
  intros Hd (k & ks & -> & Hk) Hy pre xs stop rest Hxs Hs.
  apply fmap_app_inv in Hxs as (os & ys & Hos & Hys & ->). symmetry in Hys.
  assert (Hop : ∃ e, with_recursion (rec_unary (parsers (S n)))
            (at_ (pre ++ os) (ys ++ stop :: rest) d)
            = Ok (e, at_ ((pre ++ os) ++ ys) (stop :: rest) d) ∧ term_of (node e) = t).
  { destruct (Hy (pre ++ os) ys stop rest Hys Hs) as (e & Hm & He). exists e. split; [|done].
    by apply at_with_recursion. }
  destruct Hop as (e & Hm & He).
  destruct ys as [|y ys]; [done|]. injection Hys as Hy0 Hys.
  rewrite <- (app_assoc os), (app_assoc pre). simpl app in Hm |- *.
  assert (Hst : same_variant (token_kind y) Or = false ∧ same_variant (token_kind y) OrOr = false
                ∧ same_variant (token_kind y) Mut = false)
    by (rewrite Hy0; by destruct k).
  destruct Hst as (H1 & H2 & H3). clear Hy0.
  symmetry in Hos. destruct p; simpl in Hos;
    apply fmap_cons_inv in Hos as (o & os' & Ho & Hos & ->); symmetry in Ho, Hos;
    try (apply fmap_cons_inv in Hos as (o' & os'' & Ho' & Hos & ->); symmetry in Ho', Hos);
    apply fmap_nil_inv in Hos; subst; simpl app in Hm |- *;
    match goal with |- context [TPrefix ?p _] => eexists (mkSpanned (prefix_node p e) _) end;
    (split; [|reflexivity]); unfold parse_unary.
  - take. unfold parse_prefix. step_with at_previous_span. step_with Hm. reflexivity.
  - do 1 skip. take. unfold parse_prefix. step_with at_previous_span. step_with Hm. reflexivity.
  - do 2 skip. take. unfold parse_move. step_with at_previous_span. do 2 skip. step_with Hm. reflexivity.
  - do 3 skip. take. unfold parse_borrow. step_with at_previous_span. skip. step_with Hm. reflexivity.
  - do 3 skip. take. unfold parse_borrow. step_with at_previous_span. take.
    rewrite <- app_assoc. simpl app. step_with Hm. reflexivity.
  - do 4 skip. take. unfold parse_prefix. step_with at_previous_span. step_with Hm. reflexivity.
  - do 5 skip. take. unfold parse_prefix. step_with at_previous_span. step_with Hm. reflexivity.
  - do 6 skip. take. unfold parse_prefix. step_with at_previous_span. step_with Hm. reflexivity.
Qed.

Ltac ident_step :=
  flat; erewrite SM_bind_run; [|apply at_expect_identifier; eassumption]; cbv beta iota.
Ltac expect_step :=
  flat; erewrite SM_bind_run; [|apply at_expect_span; [eassumption|discriminate|reflexivity]];
  cbv beta iota.

(** ** Suffixes *)

Lemma call_first self d kinds t :
  yields (parse_primary self) d kinds not_brace t →
  reaches (parse_call self) (call_turn self) d kinds not_brace 0 t.
Proof.
  intros Hy pre xs stop rest Hxs Hs. destruct (Hy pre xs stop rest Hxs Hs) as (e & Hm & He).
  exists e. split; [done|]. intros r Hr. unfold parse_call. step_with Hm. by apply loops_run.
Qed.

(** A turn of the loop that reads the tokens [skinds] and turns [t] into [t']. *)
Definition suffix_turn (self : Recursive) (d : Z) (skinds : list TokenKind) (t t' : Term)
    (count count' : nat) : Prop :=
  ∀ e pre ss stop rest, term_of (node e) = t → token_kind <$> ss = skinds →
  not_brace (token_kind stop) = true →
  ∃ e', call_turn self (e, Z.of_nat count) (at_ pre (ss ++ stop :: rest) d)
        = Ok (inl (e', Z.of_nat count'), at_ (pre ++ ss) (stop :: rest) d)
        ∧ term_of (node e') = t'.

Lemma call_suffix self d kinds k skinds count count' t t' :
  reaches (parse_call self) (call_turn self) d kinds not_brace count t →
  not_brace k = true → suffix_turn self d (k :: skinds) t t' count count' →
  reaches (parse_call self) (call_turn self) d (kinds ++ k :: skinds) not_brace count' t'.
Proof.
  intros Hm Hk Hsuf pre xs stop rest Hxs Hs.
  apply fmap_app_inv in Hxs as (xl & ss & Hxl & Hss & ->). symmetry in Hxl, Hss.
  destruct ss as [|x ss]; [done|]. pose proof Hss as Hss'. injection Hss' as Hx _.
  destruct (Hm pre xl x (ss ++ stop :: rest)) as (e & He & Hloop); [done|by rewrite Hx|].
  destruct (Hsuf e (pre ++ xl) (x :: ss) stop rest He Hss Hs) as (e' & Ht & He').
  exists e'. split; [done|]. intros r Hr. rewrite <- app_assoc. simpl. apply Hloop.
  rewrite app_assoc in Hr. eapply loops_turn; [exact Ht| |exact Hr].
  by apply (remaining_less _ (x :: ss)).
Qed.

Lemma suffix_field self d field t count :
  suffix_turn self d [Dot; Identifier field] t (TField t field) count count.
Proof.
  intros e pre ss stop rest He Hss Hs. split_kinds Hss.
  eexists (mkSpanned (EFieldAccess e field _) _). split; [|simpl; by rewrite He].
  unfold call_turn. simpl app. skip. take. unfold parse_field_access.
  step_with at_check. rewrite Hx0. change (same_variant _ _) with false. cbv beta iota.
  ident_step.
  rewrite <- !app_assoc. reflexivity.
Qed.

Lemma suffix_try self d t count : suffix_turn self d [Question] t (TTry t) count count.
Proof.
  intros e pre ss stop rest He Hss Hs. split_kinds Hss.
  eexists (mkSpanned (ETry e) _). split; [|simpl; by rewrite He].
  unfold call_turn. simpl app. do 3 skip.
  erewrite SM_bind_run; [|unfold match_question; erewrite SM_bind_run; [|reflexivity];
    cbn [suppress_try at_]; apply at_match_true; kind_known].
  cbv beta iota. step_with at_previous_span. reflexivity.
Qed.

Lemma suffix_index n d index t count :
  yields (parse_expression (parsers n)) d (print 0 index) (ends 0) index →
  suffix_turn (parsers (S n)) d (LeftBracket :: print 0 index ++ [RightBracket]) t
    (TIndex t index) count count.
Proof.
  intros Hi e pre ss stop rest He Hss Hs. split_kinds Hss.
  destruct (Hi (pre ++ [x]) xl x0 (stop :: rest)) as (i & Hm & Hti); [done|by rewrite Hx0|].
  eexists (mkSpanned (EIndex e i) _). split; [|simpl; by rewrite He, Hti].
  unfold call_turn. simpl app. rewrite <- app_assoc. do 2 skip. take. unfold parse_index.
  step_with Hm. skip. unfold when. pure_step. expect_step.
  rewrite <- !app_assoc. reflexivity.
Qed.

Lemma suffix_subslice n d first last t count :
  yields (parse_expression (parsers n)) d (print 0 first) (ends 0) first →
  yields (parse_expression (parsers n)) d (print 0 last) (ends 0) last →
  suffix_turn (parsers (S n)) d (LeftBracket :: print 0 first ++ Range :: print 0 last ++ [RightBracket])
    t (TSubslice t first last) count count.
Proof.
  intros Hi Hj e pre ss stop rest He Hss Hs. split_kinds Hss.
  destruct (Hi (pre ++ [x]) xl x0 (xl0 ++ x1 :: stop :: rest)) as (i & Hm & Hti);
    [done|by rewrite Hx0|].
  destruct (Hj (((pre ++ [x]) ++ xl) ++ [x0]) xl0 x1 (stop :: rest)) as (j & Hm' & Htj);
    [done|by rewrite Hx1|].
  eexists (mkSpanned (ESubslice e i j) _). split; [|simpl; by rewrite He, Hti, Htj].
  unfold call_turn. simpl app. rewrite <- !(app_assoc xl). simpl app. rewrite <- !(app_assoc xl0).
  do 2 skip. take. unfold parse_index. step_with Hm. take. unfold when. step_with Hm'.
  pure_step. expect_step. rewrite <- !app_assoc. reflexivity.
Qed.

(** ** Lists of arguments *)

Definition item_yields {A} (m : P A) (R : A → Term → Prop) (d : Z) (t : Term) : Prop :=
  ∀ pre xs stop rest, token_kind <$> xs = print 0 t → ends 0 (token_kind stop) = true →
  ∃ a, m (at_ pre (xs ++ stop :: rest) d) = Ok (a, at_ (pre ++ xs) (stop :: rest) d) ∧ R a t.

Lemma separated_loop {A} (m : P A) R d values :
  values ≠ [] → Forall (item_yields m R d) values →
  ∀ acc pre xs stop rest, token_kind <$> xs = commas (map (print 0) values) →
  ends 0 (token_kind stop) = true → same_variant (token_kind stop) Comma = false →
  ∃ l, loops_to (λ v, a ← m; more ← match_token Comma;
                      mret (if (more : bool) then inl (v ++ [a]) else inr (v ++ [a])))
         acc (at_ pre (xs ++ stop :: rest) d) (Ok (acc ++ l, at_ (pre ++ xs) (stop :: rest) d))
       ∧ Forall2 R l values.
Proof.
  intros Hne Hv. induction Hv as [|v values Hv Hvs IH]; [done|].
  intros acc pre xs stop rest Hxs Hs Hc. destruct values as [|w values].
  - destruct (Hv pre xs stop rest Hxs Hs) as (a & Hm & Ha). exists [a].
    split; [|by repeat constructor]. apply loops_stop. step_with Hm. skip. reflexivity.
  - simpl in Hxs. split_kinds Hxs.
    destruct (Hv pre xl x (xs ++ stop :: rest)) as (a & Hm & Ha); [done|by rewrite Hx|].
    destruct (IH ltac:(done) (acc ++ [a]) ((pre ++ xl) ++ [x]) xs stop rest) as (l & Hloop & HR);
      [done|done|done|].
    exists (a :: l). split; [|by constructor]. rewrite <- (app_assoc xl). simpl.
    eapply loops_turn; [step_with Hm; take; reflexivity| |].
    + pose proof (remaining_less pre (xl ++ [x]) (xs ++ stop :: rest) ((pre ++ xl) ++ [x]) d) as Hr.
      rewrite <- (app_assoc xl) in Hr. apply Hr. by destruct xl.
    + rewrite <- (app_assoc acc), <- !(app_assoc pre), <- (app_assoc xl) in Hloop.
      rewrite <- (app_assoc pre). exact Hloop.
Qed.

Lemma separated_until_run {A} (m : P A) R close d values pre xs stop rest :
  Forall (item_yields m R d) values → Forall (λ v, printable v = true) values →
  token_kind <$> xs = commas (map (print 0) values) →
  token_kind stop = close → close = RightParen ∨ close = RightBracket →
  ∃ l, separated_until close Comma m (at_ pre (xs ++ stop :: rest) d)
       = Ok (l, at_ (pre ++ xs) (stop :: rest) d) ∧ Forall2 R l values.
Proof.
  intros Hv Hp Hxs Hstop Hclose. unfold separated_until. destruct values as [|v values].
  - simpl in Hxs. apply fmap_nil_inv in Hxs. subst xs. exists []. split; [|constructor].
    simpl app. step_with at_check. rewrite app_nil_r, Hstop.
    by destruct Hclose as [->| ->].
  - assert (Hhead : starts (commas (map (print 0) (v :: values)))).
    { rewrite Forall_cons in Hp. destruct Hp as [Hp _].
      destruct (starts_print 0 v Hp) as (k & ks & Hk & Hst). exists k. simpl. rewrite Hk.
      destruct (map (print 0) values); by eexists. }
    destruct Hhead as (k & ks & Hk & Hst). rewrite Hk in Hxs.
    pose proof Hxs as Hxs'. destruct xs as [|x xs]; [done|]. injection Hxs' as Hx _.
    edestruct (separated_loop m R d (v :: values)) as (l & Hl & HR);
      [done|done|by rewrite Hk| | |].
    + rewrite Hstop. by destruct Hclose as [->| ->].
    + rewrite Hstop. by destruct Hclose as [->| ->].
    + exists l. split; [|exact HR]. simpl app. step_with at_check. rewrite Hx.
      replace (same_variant k close) with false
        by (destruct Hclose as [->| ->]; by destruct k).
      apply loops_run in Hl. exact Hl.
Qed.

Lemma argument_yields n d v :
  yields (parse_expression (parsers n)) d (print 0 v) (ends 0) v →
  item_yields (parse_argument (parsers (S n)) false)
    (λ l t, ∃ e, l = [e] ∧ term_of (node e) = t) d v.
Proof.
  intros Hy pre xs stop rest Hxs Hs. destruct (Hy pre xs stop rest Hxs Hs) as (e & Hm & He).
  exists [e]. split; [|by exists e]. unfold parse_argument. by step_with Hm.
Qed.

Lemma arguments_terms (l : list (list Expr)) values :
  Forall2 (λ l t, ∃ e, l = [e] ∧ term_of (node e) = t) l values →
  map (λ v, term_of (node v)) (concat l) = values.
Proof. induction 1 as [|? ? ? ? (e & -> & He) _ IH]; simpl; [done|]. by rewrite He, IH. Qed.

Lemma is_map_literal_term e : is_map_literal e = is_map_of (term_of (node e)).
Proof.
  unfold is_map_literal. destruct (node e); try done; simpl.
  - destruct (node object); try done; simpl; try by rewrite andb_false_r.
    destruct operator; simpl; by rewrite andb_false_r.
  - by destruct operator.
Qed.

Lemma call_expression_plain e arguments s st :
  is_slice_term (term_of (node e)) = false →
  call_expression e arguments s st = Ok (mkSpanned (ECall e arguments) s, st).
Proof.
  intros Hs. unfold call_expression. destruct (node e); try done. simpl in Hs. by rewrite Hs.
Qed.

Lemma suffix_call n d arguments t count :
  is_slice_term t = false → is_map_of t = false →
  (Z.of_nat (S count) <= MAX_CALL_CHAIN)%Z →
  Forall (λ v, printable v = true) arguments →
  Forall (λ v, yields (parse_expression (parsers n)) d (print 0 v) (ends 0) v) arguments →
  suffix_turn (parsers (S n)) d (LeftParen :: commas (map (print 0) arguments) ++ [RightParen]) t
    (TCall t arguments) count (S count).
Proof.
  intros Hsl Hmap Hcount Hp Hargs e pre ss stop rest He Hss Hs. split_kinds Hss.
  edestruct (separated_until_run (parse_argument (parsers (S n)) false)
    (λ l t, ∃ e, l = [e] ∧ term_of (node e) = t) RightParen d arguments (pre ++ [x]) xl x0
    (stop :: rest)) as (l & Hm & HR); [|done|done|done|by left|].
  { eapply Forall_impl; [done|]. intros v. apply argument_yields. }
  eexists (mkSpanned (ECall e (concat l)) _).
  split; [|simpl; by rewrite He, (arguments_terms _ _ HR)].
  unfold call_turn. simpl app. rewrite <- (app_assoc xl). take.
  rewrite Z.gtb_ltb, (proj2 (Z.ltb_ge _ _)) by lia. unfold parse_arguments.
  rewrite is_map_literal_term, He, Hmap. step_with Hm. expect_step.
  erewrite SM_bind_run; [|apply call_expression_plain; by rewrite He].
  rewrite Nat2Z.inj_succ. unfold Z.succ. rewrite <- !app_assoc. reflexivity.
Qed.

(** ** Primary expressions *)

(** An expression that is one token. *)
Lemma primary_token self d k node_ t :
  k ≠ Eof → term_of node_ = t →
  (∀ pre x stop rest, token_kind x = k → not_brace (token_kind stop) = true →
     ∃ s, parse_primary self (at_ pre (x :: stop :: rest) d)
          = Ok (mkSpanned node_ s, at_ (pre ++ [x]) (stop :: rest) d)) →
  yields (parse_primary self) d [k] not_brace t.
Proof.
  intros Hk Ht Hrun pre xs stop rest Hxs Hs. split_kinds Hxs.
  destruct (Hrun pre x stop rest Hx Hs) as [s Hm]. by exists (mkSpanned node_ s).
Qed.

Ltac advance_step Hx :=
  flat; erewrite SM_bind_run; [|apply at_advance; rewrite Hx; discriminate]; cbv beta zeta iota.

Lemma primary_literal self d t k :
  match t with
  | TInteger v => k = Integer v
  | TFloat v => k = Float v
  | TString v => k = String_ v
  | TCharacter v => k = Character v
  | TBool v => k = if v then True_ else False_
  | TIdentifier v => k = Identifier v
  | _ => False
  end → yields (parse_primary self) d [k] not_brace t.
Proof.
  destruct t; try done; intros ->;
    try (eapply primary_token; [done| |]; [|intros pre x stop rest Hx Hs; eexists;
      unfold parse_primary; advance_step Hx; rewrite Hx; reflexivity]; reflexivity).
  - destruct value; (eapply primary_token; [done| |]; [|intros pre x stop rest Hx Hs; eexists;
      unfold parse_primary; advance_step Hx; rewrite Hx; reflexivity]; reflexivity).
  - eapply (primary_token _ _ _ (EIdentifier name)); [done|done|].
    intros pre x stop rest Hx Hs. eexists. unfold parse_primary. advance_step Hx. rewrite Hx.
    rewrite (SM_bind_run _ _ _ false (at_ (pre ++ [x]) (stop :: rest) d)); [reflexivity|].
    destruct (is_type_style name); [|reflexivity].
    unfold looks_like_struct_construct. step_with at_check.
    unfold not_brace in Hs. apply negb_true_iff in Hs. by rewrite Hs.
Qed.

Lemma primary_parens n d t :
  yields (parse_expression (parsers n)) d (print 0 t) (ends 0) t →
  yields (parse_primary (parsers (S n))) d (LeftParen :: print 0 t ++ [RightParen]) not_brace t.
Proof.
  intros Hy pre xs stop rest Hxs Hs. split_kinds Hxs.
  destruct (Hy (pre ++ [x]) xl x0 (stop :: rest)) as (e & Hm & He); [done|by rewrite Hx0|].
  eexists (mkSpanned (node e) _). split; [|exact He]. unfold parse_primary.
  simpl app. rewrite <- (app_assoc xl). advance_step Hx. rewrite Hx. cbv beta iota.
  step_with Hm. expect_step. rewrite <- !app_assoc. reflexivity.
Qed.

Lemma primary_array n d values :
  Forall (λ v, printable v = true) values →
  Forall (λ v, yields (parse_expression (parsers n)) d (print 0 v) (ends 0) v) values →
  yields (parse_primary (parsers (S n))) d
    (LeftBracket :: commas (map (print 0) values) ++ [RightBracket]) not_brace (TArray values).
Proof.
  intros Hp Hv pre xs stop rest Hxs Hs. split_kinds Hxs.
  edestruct (separated_until_run (rec_expression (parsers (S n)))
    (λ e t, term_of (node e) = t) RightBracket d values (pre ++ [x]) xl x0
    (stop :: rest)) as (l & Hm & HR); [done|done|done|done|by right|].
  eexists (mkSpanned (EArray l) _). split.
  - unfold parse_primary. simpl app. rewrite <- (app_assoc xl). advance_step Hx. rewrite Hx.
    cbv beta iota. step_with Hm. expect_step. rewrite <- !app_assoc. reflexivity.
  - simpl. f_equal. clear -HR. induction HR as [|? ? ? ? He _ IH]; simpl; [done|]. by rewrite He, IH.
Qed.
End suffixes.

(** ** Every printable term comes back *)

Section round_trip.
Context `{TokenText}.

Definition room (d : Z) (m : nat) : Prop := (0 <= d)%Z ∧ (d + Z.of_nat m <= MAX_EXPRESSION_DEPTH)%Z.

(** The claims for a term in every context. *)
Record good (t : Term) : Prop := {
  good_expression n d : length (print 0 t) <= n → room d (S (deep 0 t)) →
    yields (parse_expression (parsers n)) d (print 0 t) (ends 0) t;
  good_unary n d : length (print 6 t) <= n → room d (deep 6 t) →
    yields (parse_unary (parsers n)) d (print 6 t) (ends 6) t;
  good_level p n d : p < 6 → length (print p t) <= n → room d (deep p t) →
    reaches (parse_level (parsers n) p) (level_turn (parsers n) p) d (print p t) (ends (S p))
      (operators p t) t;
  good_call n d : length (print 7 t) <= n → room d (deep 7 t) →
    reaches (parse_call (parsers n)) (call_turn (parsers n)) d (print 7 t) not_brace (calls t) t }.

(** The claim in the context where the term needs no parentheses. *)
Definition natural (t : Term) : Prop :=
  ∀ n d, length (body t) <= n → room d (deep 0 t) →
  if level t =? 7 then
    reaches (parse_call (parsers n)) (call_turn (parsers n)) d (body t) not_brace (calls t) t
  else if level t =? 6 then yields (parse_unary (parsers n)) d (body t) (ends 6) t
  else reaches (parse_level (parsers n) (level t)) (level_turn (parsers n) (level t)) d (body t)
         (ends (S (level t))) (operators (level t) t) t.

Lemma level_le t : level t <= 7.
Proof. destruct t; simpl; try lia. pose proof (op_level_lt operator). lia. Qed.

Lemma deep_parens p t : deep p t = (if level t <? p then 1 else 0) + deep 0 t.
Proof. by destruct t. Qed.

Lemma down self q d kinds t p :
  q <= 6 → yields (parse_level self q) d kinds (ends q) t → p <= q →
  yields (parse_level self p) d kinds (ends p) t.
Proof.
  intros Hq Hy. induction q as [|q IH]; intros Hp.
  - by replace p with 0 by lia.
  - destruct (decide (p = S q)) as [->|]; [done|]. apply IH; [lia| |lia].
    eapply (level_yields self q); [lia|]. apply level_first; [lia|done].
Qed.

Lemma natural_yields t n d :
  printable t = true → natural t → length (body t) <= n → room d (deep 0 t) →
  yields (parse_level (parsers n) (Nat.min (level t) 6)) d (body t) (ends (Nat.min (level t) 6)) t.
Proof.
  intros Hp Hn Hlen Hroom. specialize (Hn n d Hlen Hroom).
  destruct (level t =? 7) eqn:E7; [|destruct (level t =? 6) eqn:E6].
  - apply Nat.eqb_eq in E7. rewrite E7. simpl. eapply unary_call; [|exact Hn].
    pose proof (plain_print t Hp) as Hplain. unfold print in Hplain. by rewrite E7 in Hplain.
  - apply Nat.eqb_eq in E6. by rewrite E6 in *.
  - apply Nat.eqb_neq in E6, E7. pose proof (level_le t). rewrite Nat.min_l by lia.
    eapply level_yields; [lia|exact Hn].
Qed.

Lemma natural_expression t n d :
  printable t = true → natural t → length (body t) <= n → room d (S (deep 0 t)) →
  yields (parse_expression (parsers n)) d (body t) (ends 0) t.
Proof.
  intros Hp Hn Hlen [Hd1 Hd2] pre xs stop rest Hxs Hs.
  destruct (down (parsers n) _ (d + 1) (body t) t 0 (Nat.le_min_r _ _)
    (natural_yields t n (d + 1) Hp Hn Hlen ltac:(split; lia)) (Nat.le_0_l _) pre xs stop rest Hxs Hs)
    as (e & Hm & He).
  exists e. split; [|done]. apply at_with_recursion; [lia|exact Hm].
Qed.

(** In parentheses. *)
Lemma natural_parens t n d :
  printable t = true → natural t → S (S (length (body t))) <= n → room d (S (deep 0 t)) →
  reaches (parse_call (parsers n)) (call_turn (parsers n)) d
    (LeftParen :: body t ++ [RightParen]) not_brace 0 t.
Proof.
  intros Hp Hn Hlen Hroom. destruct n as [|n]; [lia|].
  apply call_first, primary_parens. apply natural_expression; [done|done|lia|done].
Qed.

Lemma print_body p t : p <= level t → print p t = body t.
Proof. intros Hp. unfold print. by rewrite (proj2 (Nat.ltb_ge _ _) Hp). Qed.
Lemma print_parens p t : level t < p → print p t = LeftParen :: body t ++ [RightParen].
Proof. intros Hp. unfold print. by rewrite (proj2 (Nat.ltb_lt _ _) Hp). Qed.

Lemma calls_low t : level t < 7 → calls t = 0.
Proof. destruct t; simpl; lia. Qed.
Lemma operators_other p t : level t ≠ p → operators p t = 0.
Proof. destruct t; simpl; try done. intros Hne. by rewrite (proj2 (Nat.eqb_neq _ _) Hne). Qed.

(** Parentheses in the context of an operator or a prefix. *)
Lemma parens_level t n d p :
  printable t = true → natural t → level t < p → p <= 6 → length (print p t) <= n →
  room d (deep p t) → yields (parse_level (parsers n) p) d (print p t) (ends p) t.
Proof.
  intros Hp Hn Hlt Hle Hlen Hroom. rewrite print_parens in * by done.
  rewrite deep_parens, (proj2 (Nat.ltb_lt _ _) Hlt) in Hroom. simpl in Hlen. rewrite length_app in Hlen.
  simpl in Hlen. apply (down (parsers n) 6); [done| |done].
  eapply unary_call; [by do 2 eexists|]. apply natural_parens; [done|done|lia|exact Hroom].
Qed.

Lemma good_of_natural t : printable t = true → natural t → good t.
Proof.
  intros Hp Hn. pose proof (level_le t) as Hle. split.
  - intros n d Hlen Hroom. rewrite print_body in * by lia. by apply natural_expression.
  - intros n d Hlen Hroom. destruct (decide (6 <= level t)).
    + rewrite print_body in * by done.
      rewrite deep_parens, (proj2 (Nat.ltb_ge _ _)) in Hroom by lia.
      pose proof (natural_yields t n d Hp Hn Hlen Hroom) as Hy. by rewrite Nat.min_r in Hy.
    + apply (parens_level t n d 6); [done|done|lia|lia|done|done].
  - intros p n d Hp6 Hlen Hroom. destruct (decide (level t < p)) as [Hlt|Hge].
    + rewrite operators_other by lia. apply level_first; [done|].
      rewrite print_parens in * by done. rewrite <- (print_parens (S p) t) by lia.
      apply parens_level; [done|done|lia|lia|by rewrite print_parens by lia|].
      rewrite deep_parens, (proj2 (Nat.ltb_lt _ _) Hlt) in Hroom.
      by rewrite deep_parens, (proj2 (Nat.ltb_lt (level t) (S p))) by lia.
    + rewrite print_body in * by lia. rewrite deep_parens, (proj2 (Nat.ltb_ge _ _)) in Hroom by lia.
      destruct (decide (level t = p)) as [<-|Hne].
      * specialize (Hn n d Hlen Hroom).
        by rewrite !(proj2 (Nat.eqb_neq (level t) _)) in Hn by lia.
      * rewrite operators_other by done. apply level_first; [done|].
        apply (down (parsers n) (Nat.min (level t) 6)); [lia|by apply natural_yields|lia].
  - intros n d Hlen Hroom. destruct (decide (level t = 7)) as [E|].
    + rewrite print_body in * by lia. rewrite deep_parens, (proj2 (Nat.ltb_ge _ _)) in Hroom by lia.
      specialize (Hn n d Hlen Hroom). by rewrite E in Hn.
    + rewrite calls_low by lia. rewrite print_parens in * by lia.
      rewrite deep_parens, (proj2 (Nat.ltb_lt _ _)) in Hroom by lia.
      simpl in Hlen. rewrite length_app in Hlen. simpl in Hlen.
      apply natural_parens; [done|done|lia|exact Hroom].
Qed.

Lemma length_commas (values : list Term) v :
  v ∈ values → length (print 0 v) <= length (commas (map (print 0) values)).
Proof.
  induction values as [|w values IH]; [by intros ?%not_elem_of_nil|].
  intros [->|Hv]%elem_of_cons; simpl.
  - destruct (map (print 0) values); rewrite ?length_app; lia.
  - specialize (IH Hv). destruct values as [|w' values]; [by apply not_elem_of_nil in Hv|].
    simpl in *. rewrite length_app. simpl. lia.
Qed.

Lemma list_max_of_ge {A} (f : A → nat) l a : a ∈ l → f a <= list_max_of f l.
Proof.
  induction l as [|b l IH]; [by intros ?%not_elem_of_nil|].
  intros [->|Ha]%elem_of_cons; simpl; [lia|]. specialize (IH Ha). lia.
Qed.

Lemma room_le d m m' : m' <= m → room d m → room d m'.
Proof. intros Hle [? ?]. split; lia. Qed.

(** Argument lists, from the claims for the arguments. *)
Lemma arguments_good values n d :
  Forall good values → length (commas (map (print 0) values)) <= n →
  room d (list_max_of (λ v, S (deep 0 v)) values) →
  Forall (λ v, yields (parse_expression (parsers n)) d (print 0 v) (ends 0) v) values.
Proof.
  intros Hg Hlen Hroom. rewrite Forall_forall in Hg |- *. intros v Hv.
  apply good_expression; [by apply Hg| |].
  - pose proof (length_commas values v Hv). lia.
  - eapply room_le; [|exact Hroom]. by apply (list_max_of_ge (λ v, S (deep 0 v))).
Qed.

Lemma forall_good values :
  Forall (λ t, printable t = true → good t) values → forallb printable values = true →
  Forall good values ∧ Forall (λ v, printable v = true) values.
Proof.
  intros Hg Hp%forallb_Forall. split; [|done]. rewrite Forall_forall in *. auto.
Qed.

Lemma natural_array values :
  Forall good values → Forall (λ v, printable v = true) values → natural (TArray values).
Proof.
  intros Hg Hp n d Hlen Hroom.
  change (body (TArray values)) with (LeftBracket :: commas (map (print 0) values) ++ [RightBracket])
    in Hlen |- *.
  simpl length in Hlen. rewrite length_app in Hlen. simpl in Hlen, Hroom.
  destruct n as [|n]; [lia|]. apply call_first, (primary_array n); [done|].
  apply arguments_good; [done|lia|exact Hroom].
Qed.

Lemma natural_field object field : good object → natural (TField object field).
Proof.
  intros Hg n d Hlen Hroom.
  change (body (TField object field)) with (print 7 object ++ [Dot; Identifier field]) in Hlen |- *.
  rewrite length_app in Hlen. cbn -[print] in Hlen, Hroom.
  apply (call_suffix _ _ _ _ _ (calls object) _ object); [|done|apply suffix_field].
  apply good_call; [done|lia|done].
Qed.

Lemma natural_try value : good value → natural (TTry value).
Proof.
  intros Hg n d Hlen Hroom. change (body (TTry value)) with (print 7 value ++ [Question]) in Hlen |- *.
  rewrite length_app in Hlen. cbn -[print] in Hlen, Hroom.
  apply (call_suffix _ _ _ _ _ (calls value) _ value); [|done|apply suffix_try].
  apply good_call; [done|lia|done].
Qed.

Lemma natural_index object index : good object → good index → natural (TIndex object index).
Proof.
  intros Hg Hi n d Hlen Hroom.
  change (body (TIndex object index))
    with (print 7 object ++ LeftBracket :: print 0 index ++ [RightBracket]) in Hlen |- *.
  rewrite length_app in Hlen. simpl length in Hlen. rewrite length_app in Hlen.
  cbn -[print Nat.max] in Hlen, Hroom. destruct n as [|n]; [lia|].
  apply (call_suffix _ _ _ _ _ (calls object) _ object); [|done|].
  - apply good_call; [done|lia|]. eapply room_le; [|exact Hroom]. lia.
  - apply suffix_index, good_expression; [done|lia|]. eapply room_le; [|exact Hroom]. lia.
Qed.

Lemma natural_subslice object first last :
  good object → good first → good last → natural (TSubslice object first last).
Proof.
  intros Hg Hi Hj n d Hlen Hroom.
  change (body (TSubslice object first last))
    with (print 7 object ++ LeftBracket :: print 0 first ++ Range :: print 0 last ++ [RightBracket])
    in Hlen |- *.
  rewrite length_app in Hlen. simpl length in Hlen. rewrite length_app in Hlen.
  simpl length in Hlen. rewrite length_app in Hlen.
  cbn -[print Nat.max] in Hlen, Hroom. destruct n as [|n]; [lia|].
  apply (call_suffix _ _ _ _ _ (calls object) _ object); [|done|].
  - apply good_call; [done|lia|]. eapply room_le; [|exact Hroom]. lia.
  - apply suffix_subslice; (apply good_expression; [done|lia|]; eapply room_le; [|exact Hroom]; lia).
Qed.

Lemma natural_call callee arguments :
  is_slice_term callee = false → is_map_of callee = false →
  (Z.of_nat (S (calls callee)) <= MAX_CALL_CHAIN)%Z →
  good callee → Forall good arguments → Forall (λ v, printable v = true) arguments →
  natural (TCall callee arguments).
Proof.
  intros Hs Hm Hc Hg Ha Hp n d Hlen Hroom.
  change (body (TCall callee arguments))
    with (print 7 callee ++ LeftParen :: commas (map (print 0) arguments) ++ [RightParen]) in Hlen |- *.
  rewrite length_app in Hlen. simpl length in Hlen. rewrite length_app in Hlen.
  cbn -[print Nat.max] in Hlen, Hroom. destruct n as [|n]; [lia|].
  apply (call_suffix _ _ _ _ _ (calls callee) _ callee); [|done|].
  - apply good_call; [done|lia|]. eapply room_le; [|exact Hroom]. lia.
  - apply suffix_call; [done..|]. apply arguments_good; [done|lia|].
    eapply room_le; [|exact Hroom]. lia.
Qed.

Lemma natural_prefix op operand :
  printable operand = true → good operand → natural (TPrefix op operand).
Proof.
  intros Hp Hg n d Hlen Hroom.
  change (body (TPrefix op operand)) with (prefix_kinds op ++ print 6 operand) in Hlen |- *.
  rewrite length_app in Hlen. destruct Hroom as [Hd1 Hd2]. cbn -[print Z.of_nat] in Hd2.
  assert (0 < length (prefix_kinds op)) by (destruct op; simpl; lia).
  destruct n as [|n]; [lia|]. apply (unary_prefix n); [lia|by apply starts_print|].
  apply good_unary; [done|lia|]. split; lia.
Qed.

Lemma natural_binary l op r :
  printable r = true → (Z.of_nat (S (operators (op_level op) l)) <= MAX_OPERATOR_CHAIN)%Z →
  good l → good r → natural (TBinary l op r).
Proof.
  intros Hp Hc Hl Hr n d Hlen Hroom.
  change (body (TBinary l op r))
    with (print (op_level op) l ++ op_kind op :: print (S (op_level op)) r) in Hlen |- *.
  rewrite length_app in Hlen. cbn -[print Nat.max] in Hlen, Hroom. pose proof (op_level_lt op).
  cbn [level]. rewrite !(proj2 (Nat.eqb_neq (op_level op) _)) by lia.
  cbn [operators]. rewrite Nat.eqb_refl.
  apply level_binary; [done|by apply quiet_print| |].
  - apply good_level; [done|lia|lia|]. eapply room_le; [|exact Hroom]. lia.
  - destruct (decide (op_level op = 5)) as [E|].
    + rewrite E. apply good_unary; [done|rewrite E in *; lia|]. rewrite E in *.
      eapply room_le; [|exact Hroom]. lia.
    + eapply level_yields; [lia|]. apply good_level; [done|lia|lia|].
      eapply room_le; [|exact Hroom]. lia.
Qed.

Lemma natural_literal t k :
  match t with
  | TInteger v => k = Integer v
  | TFloat v => k = Float v
  | TString v => k = String_ v
  | TCharacter v => k = Character v
  | TBool v => k = if v then True_ else False_
  | TIdentifier v => k = Identifier v
  | _ => False
  end → natural t.
Proof.
  intros Hk n d Hlen Hroom.
  destruct t; try done; simpl in *; subst; by apply call_first, primary_literal.
Qed.

Lemma printable_good t : printable t = true → good t.
Proof.
  induction t; intros Hp; (apply good_of_natural; [exact Hp|]); simpl in Hp; nested;
    rewrite ?andb_true_iff, ?Z.leb_le, ?negb_true_iff in Hp; destruct_and?;
    try (by eapply natural_literal); try done.
  - apply natural_array; by apply forall_good.
  - apply natural_field; auto.
  - apply natural_index; auto.
  - apply natural_subslice; auto.
  - apply natural_try; auto.
  - apply natural_call; auto; by apply forall_good.
  - apply natural_prefix; auto.
  - rewrite Nat.eqb_refl in *. apply natural_binary; auto.
Qed.

(** C14: Printing and parsing an expression of the operator fragment ([printable]: literals,
    names, arrays, fields, indices, slices, [?], calls, prefixes and binary operators) is the
    identity.  The printer puts parentheses
    exactly where an operand binds less tightly than its context; the parser, on those
    tokens, at any position and followed by any token that cannot continue an expression,
    consumes exactly them and returns the term, as long as the nesting and the chains stay
    within the limits.  So the six operator levels, the prefixes and the suffixes have the
    printed precedence and associate to the left. *)
Theorem expression_round_trip t xs pre stop rest n d :
  printable t = true →
  token_kind <$> xs = print 0 t →
  ends 0 (token_kind stop) = true →
  length xs <= n →
  (0 <= d)%Z → (d + 1 + Z.of_nat (deep 0 t) <= MAX_EXPRESSION_DEPTH)%Z →
  ∃ e, parse_expression (parsers n) (at_ pre (xs ++ stop :: rest) d)
       = Ok (e, at_ (pre ++ xs) (stop :: rest) d)
       ∧ term_of (node e) = t.
Proof.
  intros Hp Hxs Hs Hn Hd0 Hd. apply (good_expression t (printable_good t Hp)); [|split; lia|done..].
  by rewrite <- Hxs, length_fmap.
Qed.
End round_trip.

(** [f(-a, [b]).g[(1 + 2) * 3 - 4] <= !c || &mut d?]. *)
Definition sample_term : Term :=
  TBinary
    (TBinary
       (TIndex (TField (TCall (TIdentifier "f") [TPrefix PreNegate (TIdentifier "a");
                                                  TArray [TIdentifier "b"] ]) "g")
          (TBinary (TBinary (TBinary (TInteger 1) BAdd (TInteger 2)) BMultiply (TInteger 3))
             BSubtract (TInteger 4)))
       BLessEqual (TPrefix PreNot (TIdentifier "c")))
    BOr (TPrefix PreBorrowMut (TTry (TIdentifier "d"))).

Definition sample_tokens : list Token := (λ k, mkToken k (point 1 1)) <$> print 0 sample_term.

Lemma expression_round_trip_witness :
  length sample_tokens = 30 ∧
  ∃ e, parse_expression (H := ascii_text) (parsers (H := ascii_text) 30)
         (at_ [] (sample_tokens ++ [mkToken Semicolon (point 1 1)]) 0)
       = Ok (e, at_ sample_tokens [mkToken Semicolon (point 1 1)] 0)
       ∧ term_of (node e) = sample_term.
Proof.
  split; [reflexivity|].
  apply (expression_round_trip (H := ascii_text) sample_term sample_tokens [] _ [] 30 0);
    [reflexivity|reflexivity|reflexivity|vm_compute; lia|lia|vm_compute; congruence].
Defined.
