(* ===== verification/ParserFindings.v ===== *)
(** * Behaviours of the parser that its documentation does not mention

    Types nest without the limit that expressions have; a reference to a reference is read
    as one reference; the span of a data query stops before its predicate. *)

From S2P Require Import Prelude Machine Diagnostics Limits StateM Ast Lexer LexerProps Parser ParserForm ParserLogic ParserTotal ParserProps ParserPrint ParserRun ParserRoundTrip.
#[local] Open Scope string_scope.
#[local] Open Scope list_scope.
#[local] Open Scope nat_scope.

(** ** Nested types *)

(** [\[\[...i64...\]\]], [n] times. *)
Fixpoint nested_array (n : nat) : list TokenKind :=
  match n with
  | 0 => [Identifier "i64"]
  | S n => LeftBracket :: nested_array n ++ [RightBracket]
  end.

Fixpoint array_nesting (t : TypeName) : nat :=
  match t with
  | mkTypeName _ [element] _ _ => S (array_nesting element)
  | _ => 0
  end.

Definition ends_type (k : TokenKind) : bool :=
  (negb (same_variant k Dot) && negb (same_variant k Less))%bool.

Section nesting.
Context `{TokenText}.

(** The recursion of [parse_type_name] is not counted: whatever the depth, [n] nested array
    types are accepted for every [n], so the parser recurses [n] deep. *)
Theorem types_nest_without_limit n pre xs stop rest d :
  token_kind <$> xs = nested_array n → ends_type (token_kind stop) = true →
  ∃ ty, parse_type_name (parsers n) (at_ pre (xs ++ stop :: rest) d)
        = Ok (ty, at_ (pre ++ xs) (stop :: rest) d)
        ∧ array_nesting ty = n.
Proof.
  revert pre xs stop rest. induction n as [|n IH]; intros pre xs stop rest Hxs Hs.
  - simpl in Hxs. split_kinds Hxs. apply andb_true_iff in Hs as [H1%negb_true_iff H2%negb_true_iff].
    eexists (mkTypeName "i64" [] Owned _). split; [|reflexivity].
    unfold parse_type_name. simpl app. do 3 skip. unfold parse_named_type. skip.
    erewrite SM_bind_run; [|apply at_expect_identifier; eassumption]; cbv beta iota.
    skip. pure_step. skip. pure_step. reflexivity.
  - simpl in Hxs. split_kinds Hxs.
    destruct (IH (pre ++ [x]) xl x0 (stop :: rest)) as (ty & Hm & Hty); [done|by rewrite Hx0|].
    eexists (mkTypeName "[]" [ty] Owned _). split; [|simpl; by rewrite Hty].
    unfold parse_type_name. simpl app. rewrite <- (app_assoc xl). skip. take.
    unfold parse_array_type. step_with at_previous_span. step_with Hm. take.
    step_with at_previous_span. rewrite <- !app_assoc. reflexivity.
Qed.
End nesting.

(** ** Concrete programs *)

Definition first_parameter_type (src : string) : option TypeName :=
  match @parse_source ascii_unicode ascii_text src with
  | Ok p => f ← head (program_functions p); parameter_ty <$> head (fn_parameters f)
  | _ => None
  end.

(** [& &mut i64] is read as [&i64]: only the outermost qualifier is kept. *)
Example reference_of_reference_collapses :
  (λ t, (type_name t, type_qualifier t)) <$> first_parameter_type "fn f(x: & &mut i64) {}"
  = Some ("i64", SharedReference).
Proof. vm_compute. reflexivity. Qed.

(** The span of a query without order and limit ends at its store. *)
Definition returned_span (src : string) : option Span :=
  match @parse_source ascii_unicode ascii_text src with
  | Ok p =>
    f ← head (program_functions p); s ← head (block_statements (fn_body f)); Some (span s)
  | _ => None
  end.
Example query_span_omits_predicate :
  returned_span "fn f() -> i64 = data count User in db where id == 1"
  = Some (mkSpan (mkPosition 1 17) (mkPosition 1 38)).
Proof. vm_compute. reflexivity. Qed.
