(* ===== verification/Formatter.v ===== *)
(** * The formatter ([compiler/src/formatter.rs])

    [format_source] checks the syntax of a source, rewrites its line endings, indentation,
    trailing space and blank lines, and checks the syntax of the result.  Text is handled
    as the characters of the string. *)

From S2P Require Import Prelude Machine Utf8 Diagnostics Limits StateM Ast Lexer LexerProps Parser ParserForm ParserLogic ParserTotal ParserProps.
#[local] Open Scope string_scope.
#[local] Open Scope list_scope.
#[local] Open Scope nat_scope.

Abbreviation LF := 10%Z.
Abbreviation CR := 13%Z.
Abbreviation SPACE := 32%Z.

(** ** Text *)

(** [source.replace("\r\n", "\n").replace('\r', "\n")]. *)
Fixpoint replace_crlf (l : list char) : list char :=
  match l with
  | c :: rest =>
    match rest with
    | c' :: rest' =>
      if ((c =? CR) && (c' =? LF))%Z then LF :: replace_crlf rest' else c :: replace_crlf rest
    | [] => [c]
    end
  | [] => []
  end.
Definition replace_cr (l : list char) : list char := map (λ c, if (c =? CR)%Z then LF else c) l.
Definition normalize (l : list char) : list char := replace_cr (replace_crlf l).

(** [str::lines] on text without carriage returns: the pieces that end with a line feed,
    and what follows the last one if it is not empty. *)
Fixpoint lines (l : list char) : list (list char) :=
  match l with
  | [] => []
  | c :: rest =>
    if (c =? LF)%Z then [] :: lines rest
    else match lines rest with
         | line :: more => (c :: line) :: more
         | [] => [[c]]
         end
  end.

(** [str::trim]. *)
Fixpoint trim_start (l : list char) : list char :=
  match l with
  | c :: rest => if is_whitespace c then trim_start rest else l
  | [] => []
  end.
Definition trim (l : list char) : list char := rev (trim_start (rev (trim_start l))).

(** ** Braces *)

(** The index loop of [scan_braces]: the depth of block comments, the counts, and whether a
    string, a character literal or an escape is open. *)
Fixpoint scan_braces (line : list char) (depth opens closes : nat)
    (string_ character escaped : bool) : nat * nat * nat :=
  match line with
  | [] => (depth, opens, closes)
  | current :: rest =>
    if negb (depth =? 0) then
      match rest with
      | next :: rest' =>
        if ((current =? 47) && (next =? 42))%Z then
          scan_braces rest' (depth + 1) opens closes string_ character escaped
        else if ((current =? 42) && (next =? 47))%Z then
          scan_braces rest' (depth - 1) opens closes string_ character escaped
        else scan_braces rest depth opens closes string_ character escaped
      | [] => scan_braces rest depth opens closes string_ character escaped
      end
    else if (string_ || character)%bool then
      if escaped then scan_braces rest depth opens closes string_ character false
      else if (current =? 92)%Z then scan_braces rest depth opens closes string_ character true
      else if (string_ && (current =? 34)%Z)%bool then
        scan_braces rest depth opens closes false character escaped
      else if (character && (current =? 39)%Z)%bool then
        scan_braces rest depth opens closes string_ false escaped
      else scan_braces rest depth opens closes string_ character escaped
    else
      let plain :=
        if (current =? 34)%Z then scan_braces rest depth opens closes true character escaped
        else if (current =? 39)%Z then scan_braces rest depth opens closes string_ true escaped
        else if (current =? 123)%Z then
          scan_braces rest depth (opens + 1) closes string_ character escaped
        else if (current =? 125)%Z then
          scan_braces rest depth opens (closes + 1) string_ character escaped
        else scan_braces rest depth opens closes string_ character escaped in
      match rest with
      | next :: rest' =>
        if ((current =? 47) && (next =? 47))%Z then (depth, opens, closes)
        else if ((current =? 47) && (next =? 42))%Z then
          scan_braces rest' 1 opens closes string_ character escaped
        else plain
      | [] => plain
      end
  end.

Fixpoint count_leading (c : char) (l : list char) : nat :=
  match l with
  | c' :: rest => if (c' =? c)%Z then S (count_leading c rest) else 0
  | [] => 0
  end.
Definition leading_closing_braces (line : list char) (depth : nat) : nat :=
  if negb (depth =? 0) then 0 else count_leading 125%Z line.

(** ** Formatting

    Depths are at most the number of braces, so that additions do not saturate; the
    subtractions of [nat] are the saturating ones. *)

Record FormatState := mkFormatState {
  output : list char;
  block_comment_depth : nat;
  brace_depth : nat;
  previous_blank : bool }.

Definition is_empty {A} (l : list A) : bool := match l with [] => true | _ => false end.

(** The content of a line behind four spaces per level. *)
Definition indent (n : nat) (content : list char) : list char := repeat SPACE (4 * n) ++ content.

Definition format_line (st : FormatState) (raw_line : list char) : FormatState :=
  let content := trim raw_line in
  if is_empty content then
    mkFormatState
      (if (negb (is_empty (output st)) && negb (previous_blank st))%bool
       then output st ++ [LF] else output st)
      (block_comment_depth st) (brace_depth st) true
  else
    let leading_closes := leading_closing_braces content (block_comment_depth st) in
    let line_depth := brace_depth st - leading_closes in
    let '(block, opens, closes) :=
      scan_braces content (block_comment_depth st) 0 0 false false false in
    mkFormatState (output st ++ indent line_depth content ++ [LF]) block
      (brace_depth st + opens - closes) false.

(** [while output.ends_with("\n\n") { output.pop(); }], on the reversed output. *)
Fixpoint pop_blank (l : list char) : list char :=
  match l with
  | c :: rest =>
    match rest with
    | c' :: _ => if ((c =? LF) && (c' =? LF))%Z then pop_blank rest else l
    | [] => l
    end
  | [] => []
  end.

Definition finish (out : list char) : list char :=
  let out := rev (pop_blank (rev out)) in
  if (negb (is_empty out) && negb (bool_decide (last out = Some LF)))%bool then out ++ [LF]
  else out.

Definition format_chars (source : list char) : list char :=
  finish (output (fold_left format_line (lines (normalize source)) (mkFormatState [] 0 0 false))).

Definition format_source `{Unicode, TokenText} (source : string) : outcome Diagnostic string :=
  if (MAX_SOURCE_BYTES <? str_len source)%Z then
    Err (new_diagnostic Lex
           ("source is " +:+ display_Z (str_len source) +:+ " bytes; the current safety limit is "
            +:+ display_Z MAX_SOURCE_BYTES +:+ " bytes") (point 1 1))
  else
    _ ← parse_source source;
    let out := of_chars (format_chars (chars source)) in
    _ ← parse_source out;
    Ok out.
