(* ===== verification/FormatterProps.v ===== *)
(** * Formatting twice is formatting once

    [format_lines] is the formatter on lists of lines; [format_chars] renders what it
    returns.  Each line it returns is blank or an indented trimmed line, so that a second
    run reads the same contents in the same states. *)

From S2P Require Import Prelude Machine Utf8 Diagnostics Limits StateM Ast Lexer LexerProps Parser ParserForm ParserLogic ParserTotal ParserProps Formatter.
#[local] Open Scope string_scope.
#[local] Open Scope list_scope.
#[local] Open Scope nat_scope.

(** ** The reference on lines *)

(** The lines that come out of [ls]; [started] when a line was written, [blank] when the
    last input line was blank. *)
Fixpoint format_lines (ls : list (list char)) (started : bool) (block depth : nat)
    (blank : bool) : list (list char) :=
  match ls with
  | [] => []
  | raw :: ls =>
    let content := trim raw in
    if is_empty content then
      if (started && negb blank)%bool then [] :: format_lines ls started block depth true
      else format_lines ls started block depth true
    else
      let '(block', opens, closes) := scan_braces content block 0 0 false false false in
      indent (depth - leading_closing_braces content block) content
      :: format_lines ls true block' (depth + opens - closes) false
  end.

Definition render_lines (ls : list (list char)) : list char := concat (map (λ l, l ++ [LF]) ls).

Lemma render_lines_app l1 l2 : render_lines (l1 ++ l2) = render_lines l1 ++ render_lines l2.
Proof. unfold render_lines. by rewrite map_app, concat_app. Qed.

Lemma render_lines_empty ls : is_empty (render_lines ls) = is_empty ls.
Proof. destruct ls as [|l ls]; [done|]. unfold render_lines. simpl. by destruct l. Qed.

Lemma fold_format_line ls acc block depth blank :
  output (fold_left format_line ls (mkFormatState (render_lines acc) block depth blank))
  = render_lines (acc ++ format_lines ls (negb (is_empty acc)) block depth blank).
Proof.
  revert acc block depth blank. induction ls as [|raw ls IH]; intros acc block depth blank; simpl.
  - by rewrite app_nil_r.
  - unfold format_line at 2. cbn [output block_comment_depth brace_depth previous_blank].
    destruct (is_empty (trim raw)).
    + rewrite render_lines_empty. destruct (negb (is_empty acc) && negb blank)%bool eqn:E.
      * assert (Hr : render_lines acc ++ [LF] = render_lines (acc ++ [ [] ])) by (by rewrite render_lines_app).
        rewrite Hr, IH, <- app_assoc. simpl. apply andb_true_iff in E as [E _].
        rewrite E. destruct acc; [done|]. done.
      * by rewrite IH.
    + destruct (scan_braces _ _ _ _ _ _ _) as [ [block' opens] closes].
      set (line := indent _ _).
      assert (Hr : render_lines acc ++ line ++ [LF] = render_lines (acc ++ [line])).
      { rewrite render_lines_app. unfold render_lines at 3. simpl. by rewrite app_nil_r. }
      rewrite Hr, IH, <- app_assoc. simpl. by destruct acc.
Qed.

(** ** Trimmed text *)

Lemma trim_start_idemp l : trim_start (trim_start l) = trim_start l.
Proof.
  induction l as [|c l IH]; simpl; [done|]. destruct (is_whitespace c) eqn:E; [done|].
  simpl. by rewrite E.
Qed.

Lemma trim_start_suffix l : ∃ p, l = p ++ trim_start l.
Proof.
  induction l as [|c l [p IH] ]; simpl; [by exists []|].
  destruct (is_whitespace c); [|by exists []]. exists (c :: p). simpl. by f_equal.
Qed.

Lemma trim_start_fixed c l : trim_start (c :: l) = c :: l → is_whitespace c = false.
Proof.
  simpl. destruct (is_whitespace c); [|done]. intros H.
  destruct (trim_start_suffix l) as [p Hp]. apply (f_equal length) in H, Hp.
  rewrite length_app in Hp. simpl in H. lia.
Qed.

Lemma trim_start_prefix a b : trim_start (a ++ b) = a ++ b → trim_start a = a.
Proof. destruct a as [|c a]; [done|]. intros H%trim_start_fixed. simpl. by rewrite H. Qed.

(** What [trim] returns neither starts nor ends with white space. *)
Definition tight (l : list char) : Prop :=
  trim_start l = l ∧ trim_start (rev l) = rev l.

Lemma trim_tight l : tight (trim l).
Proof.
  unfold trim. split; [|by rewrite rev_involutive, trim_start_idemp].
  destruct (trim_start_suffix (rev (trim_start l))) as [p Hp].
  apply (trim_start_prefix _ (rev p)). rewrite <- rev_app_distr, <- Hp, rev_involutive.
  apply trim_start_idemp.
Qed.

Lemma trim_of_tight n l : tight l → trim (repeat SPACE n ++ l) = l.
Proof.
  intros [H1 H2]. unfold trim.
  assert (Hs : trim_start (repeat SPACE n ++ l) = l).
  { induction n as [|n IH]; simpl; [done|]. exact IH. }
  by rewrite Hs, H2, rev_involutive.
Qed.

Lemma trim_indent n raw : trim (indent n (trim raw)) = trim raw.
Proof. apply trim_of_tight, trim_tight. Qed.

(** ** Lines in, lines out *)

Definition single (l : list char) : Prop := LF ∉ l.

Lemma lines_single l : Forall single (lines l).
Proof.
  induction l as [|c l IH]; simpl; [constructor|]. destruct (c =? LF)%Z eqn:E.
  - constructor; [by apply not_elem_of_nil|done].
  - apply Z.eqb_neq in E. destruct (lines l) as [|line more].
    + repeat constructor. apply not_elem_of_cons. split; [done|by apply not_elem_of_nil].
    + rewrite Forall_cons in IH |- *. destruct IH as [H1 H2]. split; [|done].
      by apply not_elem_of_cons.
Qed.

Lemma lines_line l rest : single l → lines (l ++ LF :: rest) = l :: lines rest.
Proof.
  induction l as [|c l IH]; intros Hl; simpl; [done|].
  apply not_elem_of_cons in Hl as [Hc Hl]. rewrite (proj2 (Z.eqb_neq c LF)) by congruence.
  by rewrite IH.
Qed.

Lemma lines_render_lines ls : Forall single ls → lines (render_lines ls) = ls.
Proof.
  induction 1 as [|l ls Hl Hls IH]; [done|]. unfold render_lines in *. simpl.
  rewrite <- app_assoc. simpl. by rewrite lines_line, IH.
Qed.

Lemma normalize_no_cr l : CR ∉ l → normalize l = l.
Proof.
  intros Hl. unfold normalize.
  assert (Hcrlf : replace_crlf l = l).
  { induction l as [|c l IH]; [done|]. apply not_elem_of_cons in Hl as [Hc Hl]. simpl.
    destruct l as [|c' l]; [done|]. rewrite (proj2 (Z.eqb_neq c CR)) by congruence.
    simpl. f_equal. by apply IH. }
  rewrite Hcrlf. unfold replace_cr. clear Hcrlf.
  induction l as [|c l IH]; [done|]. apply not_elem_of_cons in Hl as [Hc Hl]. simpl.
  rewrite (proj2 (Z.eqb_neq c CR)) by congruence. by rewrite IH.
Qed.

Lemma normalize_cr l : CR ∉ normalize l.
Proof.
  unfold normalize, replace_cr. intros (c & Hc & _)%list_elem_of_fmap.
  destruct (c =? CR)%Z eqn:E; [done|]. by apply Z.eqb_neq in E.
Qed.

(** ** A second run over the lines *)

Lemma format_again ls started block depth blank blank' :
  (blank' = true → blank = true) →
  format_lines (format_lines ls started block depth blank) started block depth blank'
  = format_lines ls started block depth blank.
Proof.
  revert started block depth blank blank'.
  induction ls as [|raw ls IH]; intros started block depth blank blank' Hb; simpl; [done|].
  destruct (is_empty (trim raw)) eqn:E.
  - destruct (started && negb blank)%bool eqn:Es.
    + apply andb_true_iff in Es as [-> Hnb%negb_true_iff]. simpl.
      assert (blank' = false) as -> by (destruct blank'; [|done]; specialize (Hb eq_refl); congruence).
      simpl. f_equal. by apply IH.
    + by apply IH.
  - destruct (scan_braces (trim raw) _ _ _ _ _ _) as [ [block' opens] closes] eqn:Es.
    simpl. rewrite trim_indent, E, Es. f_equal. by apply IH.
Qed.

(** The state after a list of lines. *)
Fixpoint format_state (ls : list (list char)) (started : bool) (block depth : nat) (blank : bool)
    : bool * nat * nat * bool :=
  match ls with
  | [] => (started, block, depth, blank)
  | raw :: ls =>
    let content := trim raw in
    if is_empty content then format_state ls started block depth true
    else
      let '(block', opens, closes) := scan_braces content block 0 0 false false false in
      format_state ls true block' (depth + opens - closes) false
  end.

Lemma format_lines_app l1 l2 started block depth blank :
  format_lines (l1 ++ l2) started block depth blank
  = format_lines l1 started block depth blank
    ++ (let '(s, b, d, k) := format_state l1 started block depth blank in
        format_lines l2 s b d k).
Proof.
  revert started block depth blank.
  induction l1 as [|raw l1 IH]; intros started block depth blank; simpl; [done|].
  destruct (is_empty (trim raw)).
  - rewrite !IH. by destruct (started && negb blank)%bool.
  - destruct (scan_braces _ _ _ _ _ _ _) as [ [block' opens] closes]. by rewrite IH.
Qed.

Lemma format_lines_length ls started block depth blank :
  length (format_lines ls started block depth blank) <= length ls.
Proof.
  revert started block depth blank.
  induction ls as [|raw ls IH]; intros started block depth blank; simpl; [lia|].
  destruct (is_empty (trim raw)).
  - pose proof (IH started block depth true).
    destruct (started && negb blank)%bool; simpl; lia.
  - destruct (scan_braces _ _ _ _ _ _ _) as [ [block' opens] closes]. simpl.
    pose proof (IH true block' (depth + opens - closes) false). lia.
Qed.

(** A prefix of lines that come back unchanged comes back unchanged. *)
Lemma format_prefix l1 l2 started block depth blank :
  format_lines (l1 ++ l2) started block depth blank = l1 ++ l2 →
  format_lines l1 started block depth blank = l1.
Proof.
  rewrite format_lines_app.
  destruct (format_state l1 started block depth blank) as [ [ [s b] d] k]. intros H.
  pose proof (format_lines_length l1 started block depth blank).
  pose proof (format_lines_length l2 s b d k).
  assert (length (format_lines l1 started block depth blank) = length l1).
  { apply (f_equal length) in H. rewrite !length_app in H. lia. }
  by apply app_inj_1 in H as [? _].
Qed.

(** ** Trailing blank lines *)

Definition is_blank (l : list char) : bool := is_empty l.

Fixpoint strip_blank (ls : list (list char)) : list (list char) :=
  match ls with
  | [] => []
  | l :: ls =>
    match strip_blank ls with
    | [] => if is_empty l then [] else [l]
    | more => l :: more
    end
  end.

Lemma strip_blank_prefix ls : ∃ blanks, ls = strip_blank ls ++ blanks.
Proof.
  induction ls as [|l ls [bs IH] ]; simpl; [by exists []|].
  destruct (strip_blank ls) as [|m more] eqn:E.
  - destruct l; [by exists ([] :: ls)|]. exists ls. done.
  - exists bs. simpl. by f_equal.
Qed.

Lemma strip_blank_idemp ls : strip_blank (strip_blank ls) = strip_blank ls.
Proof.
  induction ls as [|l ls IH]; simpl; [done|]. destruct (strip_blank ls) as [|m more] eqn:E.
  - by destruct l.
  - change (strip_blank (l :: m :: more))
      with (match strip_blank (m :: more) with
            | [] => if is_empty l then [] else [l]
            | more' => l :: more'
            end). by rewrite IH.
Qed.

(** The lines that the formatter writes for [ls]. *)
Definition formatted (ls : list (list char)) : list (list char) :=
  strip_blank (format_lines ls false 0 0 false).

Lemma formatted_idemp ls : formatted (formatted ls) = formatted ls.
Proof.
  unfold formatted at 1 3. destruct (strip_blank_prefix (format_lines ls false 0 0 false)) as [bs Hbs].
  assert (Hfix : format_lines (formatted ls) false 0 0 false = formatted ls).
  { apply (format_prefix _ bs). unfold formatted. rewrite <- Hbs. by apply format_again. }
  rewrite Hfix. apply strip_blank_idemp.
Qed.

(** The first line written is not blank. *)
Lemma format_lines_head ls block depth blank :
  match format_lines ls false block depth blank with [] :: _ => False | _ => True end.
Proof.
  revert blank. induction ls as [|raw ls IH]; intros blank; simpl; [done|].
  destruct (is_empty (trim raw)) eqn:E; simpl; [apply IH|].
  destruct (scan_braces _ _ _ _ _ _ _) as [ [block' opens] closes].
  destruct (indent _ (trim raw)) eqn:Ei; [|done]. apply app_eq_nil in Ei as [_ Ei].
  by rewrite Ei in E.
Qed.

Lemma strip_blank_snoc ls l :
  strip_blank (ls ++ [l]) = if is_empty l then strip_blank ls else ls ++ [l].
Proof.
  induction ls as [|l' ls IH]; simpl.
  - by destruct l.
  - rewrite IH. destruct (is_empty l) eqn:E; [done|]. by destruct (ls ++ [l]) eqn:E'; [destruct ls|].
Qed.

Lemma finish_render_lines ls :
  Forall single ls → match ls with [] :: _ => False | _ => True end →
  finish (render_lines ls) = render_lines (strip_blank ls).
Proof.
  induction ls as [|l ls IH] using rev_ind; intros Hs Hhead; [done|].
  rewrite Forall_app in Hs. destruct Hs as [Hs Hl]. rewrite Forall_singleton in Hl.
  rewrite strip_blank_snoc, render_lines_app. destruct l as [|c l].
  - simpl is_empty. cbv iota. destruct ls as [|l0 ls0]; [done|].
    rewrite <- IH by done. unfold render_lines at 2. simpl concat. unfold finish.
    rewrite rev_app_distr. simpl rev at 1.
    assert (Hr : ∃ r, rev (render_lines (l0 :: ls0)) = LF :: r).
    { destruct (exists_last (l := l0 :: ls0)) as (ls' & l' & ->); [done|].
      rewrite render_lines_app. unfold render_lines at 2. simpl. rewrite app_nil_r, !rev_app_distr. simpl. by eexists. }
    destruct Hr as [r Hr]. rewrite Hr. simpl. done.
  - simpl is_empty. cbv iota. rewrite <- render_lines_app. unfold finish.
    assert (Hne : c :: l ≠ []) by done.
    destruct (exists_last Hne) as (l' & x & Hx). rewrite Hx in Hl |- *.
    assert (x ≠ LF) by (intros ->; apply Hl, elem_of_app; right; by left).
    assert (Hr : rev (render_lines (ls ++ [l' ++ [x] ])) = LF :: x :: rev (render_lines ls ++ l')).
    { rewrite render_lines_app. unfold render_lines at 2. simpl. rewrite app_nil_r.
      by rewrite !rev_app_distr. }
    rewrite Hr. cbn [pop_blank]. rewrite (proj2 (Z.eqb_neq x LF)) by done.
    rewrite andb_false_r. cbv iota.
    rewrite <- Hr, rev_involutive, render_lines_empty. unfold render_lines. rewrite map_app, concat_app. simpl.
    rewrite app_nil_r, app_assoc, last_snoc. by destruct ls.
Qed.

(** ** Characters *)

Section characters.
Context (P : char → Prop).

Lemma trim_start_chars l : Forall P l → Forall P (trim_start l).
Proof. induction 1; simpl; [done|]. case_match; [done|by constructor]. Qed.
Lemma trim_chars l : Forall P l → Forall P (trim l).
Proof. intros. by apply Forall_rev, trim_start_chars, Forall_rev, trim_start_chars. Qed.

Lemma lines_chars l : Forall P l → Forall (Forall P) (lines l).
Proof.
  induction 1 as [|c l Hc Hl IH]; simpl; [done|]. case_match; [by constructor|].
  destruct (lines l); [by repeat constructor|]. rewrite Forall_cons in IH |- *.
  destruct IH. split; [by constructor|done].
Qed.

Lemma format_lines_chars ls started block depth blank :
  P SPACE → Forall (Forall P) ls →
  Forall (Forall P) (format_lines ls started block depth blank).
Proof.
  intros Hsp Hls. revert started block depth blank.
  induction Hls as [|raw ls Hraw Hls IH]; intros started block depth blank; simpl; [done|].
  destruct (is_empty (trim raw)).
  - destruct (started && negb blank)%bool; [by constructor|done].
  - destruct (scan_braces _ _ _ _ _ _ _) as [ [block' opens] closes]. constructor; [|done].
    apply Forall_app. split; [|by apply trim_chars]. by apply Forall_forall; intros ? ->%list_elem_of_In%repeat_spec.
Qed.

Lemma render_lines_chars ls : P LF → Forall (Forall P) ls → Forall P (render_lines ls).
Proof.
  intros HLF. induction 1 as [|l ls Hl Hls IH]; [constructor|]. unfold render_lines in *. simpl.
  apply Forall_app. split; [|done]. apply Forall_app. split; [done|by constructor].
Qed.

Lemma strip_blank_chars ls : Forall (Forall P) ls → Forall (Forall P) (strip_blank ls).
Proof.
  intros Hls. destruct (strip_blank_prefix ls) as [bs Hbs]. rewrite Hbs in Hls.
  by apply Forall_app in Hls as [? _].
Qed.
End characters.

(** ** The formatter on text *)

Lemma single_forall l : single l ↔ Forall (λ c, c ≠ LF) l.
Proof.
  unfold single. rewrite Forall_forall. split.
  - intros Hl c Hc ->. done.
  - intros Hl Hc. by apply (Hl LF).
Qed.

(** No line written holds a line end. *)
Lemma formatted_single l : Forall single (format_lines (lines l) false 0 0 false).
Proof.
  eapply Forall_impl; [apply (format_lines_chars (λ c, c ≠ LF)); [done|]|intros ?; apply single_forall].
  eapply Forall_impl; [apply lines_single|]. intros ?. apply single_forall.
Qed.

Lemma format_chars_eq l : format_chars l = render_lines (formatted (lines (normalize l))).
Proof.
  unfold format_chars. change (@nil char) with (render_lines []) at 1. rewrite fold_format_line.
  apply finish_render_lines; [apply formatted_single|apply format_lines_head].
Qed.

Lemma format_chars_all (P : char → Prop) l :
  P SPACE → P LF → Forall P (normalize l) → Forall P (format_chars l).
Proof.
  intros Hs Hlf Hl. rewrite format_chars_eq. apply render_lines_chars; [done|].
  by apply strip_blank_chars, format_lines_chars, lines_chars.
Qed.

Lemma format_chars_idemp l : format_chars (format_chars l) = format_chars l.
Proof.
  rewrite (format_chars_eq (format_chars l)), normalize_no_cr.
  - rewrite format_chars_eq, lines_render_lines, formatted_idemp; [done|].
    pose proof (formatted_single (normalize l)) as H.
    destruct (strip_blank_prefix (format_lines (lines (normalize l)) false 0 0 false)) as [bs Hbs].
    rewrite Hbs in H. by apply Forall_app in H as [? _].
  - assert (H : Forall (λ c, c ≠ CR) (format_chars l)).
    { apply format_chars_all; [done|done|]. apply Forall_forall. intros c Hc ->.
      by apply (normalize_cr l). }
    rewrite Forall_forall in H. intros Hc. by apply (H CR).
Qed.

Lemma normalize_scalars l : scalars l → scalars (normalize l).
Proof.
  unfold scalars, normalize, replace_cr. intros Hl. apply Forall_fmap.
  assert (H : Forall (λ c, is_scalar c = true) (replace_crlf l)).
  { revert Hl. induction l as [l IH] using (induction_ltof1 _ length). unfold ltof in IH. intros Hl.
    destruct l as [|c [|c' l] ]; [done|done|]. simpl.
    rewrite !Forall_cons in Hl. destruct Hl as (Hc & Hc' & Hl). destruct (_ && _)%bool.
    - constructor; [done|]. apply IH; [simpl; lia|done].
    - constructor; [done|]. apply (IH (c' :: l)); [simpl; lia|by constructor]. }
  eapply Forall_impl; [exact H|]. intros c Hc. simpl. by destruct (c =? CR)%Z.
Qed.

Section format.
Context `{Unicode, TokenText}.

(** The formatter returns, with text or with a diagnostic, on every source. *)
Lemma format_total src : format_source src ≠ Panic.
Proof.
  apply (safe_no_panic _ (λ _, True)). unfold format_source. destruct (_ <? _)%Z; [done|].
  eapply safe_bind; [apply parse_source_safe|]. intros p _ _. cbv zeta.
  eapply safe_bind; [apply parse_source_safe|]. done.
Qed.

(** C15: Formatting what the formatter returned gives it back: indentation, blank lines and
    line ends have settled after one run, whatever the source, unless the indentation has
    pushed the text over the size limit of sources. *)
Theorem format_idempotent cs out :
  scalars cs → format_source (of_chars cs) = Ok out → (str_len out <= MAX_SOURCE_BYTES)%Z →
  format_source out = Ok out.
Proof.
  intros Hcs Hf Hlen. unfold format_source in Hf. destruct (_ <? _)%Z; [done|].
  destruct (parse_source (of_chars cs)) as [p| |]; [|done|done]. rewrite bind_Ok in Hf. cbv zeta in Hf.
  rewrite chars_of_chars in Hf by done.
  destruct (parse_source (of_chars (format_chars cs))) as [q| |] eqn:Hq; [|done|done].
  rewrite bind_Ok in Hf. injection Hf as <-. unfold format_source.
  rewrite (proj2 (Z.ltb_ge _ _)) by done. rewrite Hq, bind_Ok. cbv zeta.
  rewrite chars_of_chars, format_chars_idemp, Hq; [done|].
  by apply format_chars_all; [done|done|apply normalize_scalars].
Qed.
End format.

Definition unformatted : list char :=
  ascii_chars "fn main() {  
  let text = 1 // }


if true {
print(text) }
/* { */
   }

".

Lemma format_idempotent_witness :
  ∃ out, @format_source ascii_unicode ascii_text (of_chars unformatted) = Ok out
         ∧ @format_source ascii_unicode ascii_text out = Ok out.
Proof.
  destruct (@format_source ascii_unicode ascii_text (of_chars unformatted)) as [out| |] eqn:E;
    [|vm_compute in E; discriminate..].
  exists out. split; [done|].
  apply (@format_idempotent ascii_unicode ascii_text unformatted out); [|exact E|].
  - apply forallb_Forall. vm_compute. reflexivity.
  - vm_compute in E. injection E as <-. vm_compute. discriminate.
Defined.

(** ** A carriage return in a comment

    The lexer ends a line comment at a line feed only, but the formatter turns every
    carriage return into one: what the comment held becomes code. *)
Definition function_count (r : outcome Diagnostic Program) : option nat :=
  match r with Ok p => Some (length (program_functions p)) | _ => None end.

Definition hidden_function : string :=
  of_chars (ascii_chars "fn main() {} // " ++ [CR] ++ ascii_chars "fn hidden() {}").

Example carriage_return_uncomments :
  function_count (@parse_source ascii_unicode ascii_text hidden_function) = Some 1 ∧
  match @format_source ascii_unicode ascii_text hidden_function with
  | Ok out => function_count (@parse_source ascii_unicode ascii_text out) = Some 2
  | _ => False
  end.
Proof. vm_compute. done. Qed.
