(* ===== verification/Captures.v ===== *)
(** * Closure captures ([compiler/src/ast.rs], [closure_capture_uses])

    The analysis threads the set of local names and the map of captures through the
    body of a closure.  The reference is the list of the body's free occurrences, with
    scopes as filters; the analysis is proved to compute its summary. *)

From S2P Require Import Prelude Machine Diagnostics BTree Ast.
#[local] Open Scope string_scope.
#[local] Open Scope list_scope.

Record CaptureUse := mkCaptureUse { cap_span : Span; cap_mutated : bool; cap_consumed : bool }.

Inductive CaptureMode := CapRead | CapMutate | CapConsume.

Definition is_mutate (m : CaptureMode) : bool :=
  match m with CapMutate => true | _ => false end.
Definition is_consume (m : CaptureMode) : bool :=
  match m with CapConsume => true | _ => false end.

Abbreviation Locals := (gset string).
Abbreviation Captures := (btree CaptureUse).

(** [captures.entry(name).or_insert(..)] followed by the two [|=]. *)
Definition record_use (name : string) (sp : Span) (mode : CaptureMode) (captures : Captures)
    : Captures :=
  let capture := default (mkCaptureUse sp false false) (bt_get name captures) in
  bt_insert name
    (mkCaptureUse (cap_span capture) (cap_mutated capture || is_mutate mode)
       (cap_consumed capture || is_consume mode)) captures.

Definition record_capture (name : string) (sp : Span) (mode : CaptureMode) (locals : Locals)
    (captures : Captures) : Captures :=
  if bool_decide (name ∈ locals) then captures else record_use name sp mode captures.

Fixpoint collect_pattern_bindings (p : Pattern) (locals : Locals) : Locals :=
  match p with
  | PBinding name => {[name]} ∪ locals
  | POr alternatives =>
    fold_left (λ locals a, collect_pattern_bindings (node a) locals) alternatives locals
  | PStruct _ fields _ =>
    fold_left (λ locals f,
      match f with mkStructPatternField _ _ p => collect_pattern_bindings (node p) locals end)
      fields locals
  | PVariant _ _ arguments =>
    fold_left (λ locals a, collect_pattern_bindings (node a) locals) arguments locals
  | _ => locals
  end.

(** The assignment target of a place, given the function for its other expressions. *)
Section place.
Context (expr : Expression → Span → CaptureMode → Locals → Captures → Captures).

Fixpoint capture_place (e : Expression) (sp : Span) (locals : Locals) (captures : Captures)
    : Captures :=
  match e with
  | EIdentifier name => record_capture name sp CapMutate locals captures
  | EFieldAccess object _ _ => capture_place (node object) (span object) locals captures
  | EIndex object index =>
    let captures := capture_place (node object) (span object) locals captures in
    expr (node index) (span index) CapRead locals captures
  | ESubslice object start end_ =>
    let captures := capture_place (node object) (span object) locals captures in
    let captures := expr (node start) (span start) CapRead locals captures in
    expr (node end_) (span end_) CapRead locals captures
  | EDereference target => expr (node target) (span target) CapRead locals captures
  | _ => expr e sp CapMutate locals captures
  end.
End place.

Definition nested_mode (move_captures : bool) (usage : CaptureUse) : CaptureMode :=
  if move_captures then CapConsume else if cap_mutated usage then CapMutate else CapRead.

Definition parameter_names (parameters : list Param) : Locals :=
  list_to_set (map parameter_name parameters).

Fixpoint collect_capture_expr (e : Expression) (sp : Span) (mode : CaptureMode)
    (locals : Locals) (captures : Captures) {struct e} : Captures :=
  let expr (e : Expr) mode captures :=
    collect_capture_expr (node e) (span e) mode locals captures in
  let exprs (es : list Expr) mode captures :=
    fold_left (λ captures e, collect_capture_expr (node e) (span e) mode locals captures)
      es captures in
  let optional (o : option Expr) captures :=
    match o with
    | Some e => collect_capture_expr (node e) (span e) CapRead locals captures
    | None => captures
    end in
  match e with
  | EIdentifier name => record_capture name sp mode locals captures
  | EArray values => exprs values CapConsume captures
  | EClosure move_captures parameters _ body =>
    fold_left (λ captures '(name, usage),
        record_capture name (cap_span usage) (nested_mode move_captures usage) locals captures)
      (closure_capture_uses parameters body) captures
  | EStructConstruct _ _ fields =>
    fold_left (λ captures f,
      match f with
      | mkStructFieldValue _ _ v =>
        collect_capture_expr (node v) (span v) CapConsume locals captures
      end) fields captures
  | EDataWrite value store _ => expr store CapRead (expr value CapRead captures)
  | EDataStore path => optional path captures
  | EDataQuery _ _ _ _ store predicate order limit =>
    let captures := expr store CapRead captures in
    let captures := optional predicate captures in
    let captures :=
      match order with
      | Some (mkDataOrder key _ _) => expr key CapRead captures
      | None => captures
      end in
    optional limit captures
  | EDataRemove _ _ store predicate => expr predicate CapRead (expr store CapRead captures)
  | EFieldAccess object _ _ => expr object mode captures
  | EIndex object index => expr index CapRead (expr object mode captures)
  | ESubslice object start end_ =>
    expr end_ CapRead (expr start CapRead (expr object CapRead captures))
  | EMatch value arms =>
    let captures := expr value CapConsume captures in
    fold_left (λ captures arm,
      match arm with
      | mkMatchArm pattern _ guard value _ =>
        let arm_locals := collect_pattern_bindings (node pattern) locals in
        let captures :=
          match guard with
          | Some guard =>
            collect_capture_expr (node guard) (span guard) CapRead arm_locals captures
          | None => captures
          end in
        collect_capture_expr (node value) (span value) mode arm_locals captures
      end) arms captures
  | ETry value | EAwait value | EMove value => expr value CapConsume captures
  | ESpawn value => expr value CapConsume captures
  | EBorrow mutable target =>
    if mutable
    then capture_place collect_capture_expr (node target) (span target) locals captures
    else expr target CapRead captures
  | EDereference value | EUnary _ value => expr value CapRead captures
  | EBinary lhs _ rhs => expr rhs CapRead (expr lhs CapRead captures)
  | ECall callee arguments => exprs arguments CapRead (expr callee CapRead captures)
  | EInteger _ | EFloat _ | EString _ | ECharacter _ | EBool _ => captures
  end
with closure_capture_uses (parameters : list Param) (body : ClosureBody) {struct body}
    : Captures :=
  let locals := parameter_names parameters in
  match body with
  | CExpression e => collect_capture_expr (node e) (span e) CapConsume locals []
  | CBlock block => collect_capture_block block locals []
  end
with collect_capture_statement (s : Statement) (locals : Locals) (captures : Captures)
    {struct s} : Locals * Captures :=
  let expr (e : Expr) mode captures :=
    collect_capture_expr (node e) (span e) mode locals captures in
  match s with
  | SBinding _ name _ _ value =>
    let captures :=
      match value with Some value => expr value CapConsume captures | None => captures end in
    ({[name]} ∪ locals, captures)
  | SAssignment name name_span _ value =>
    (locals, expr value CapConsume (record_capture name name_span CapMutate locals captures))
  | SPlaceAssignment target _ value =>
    (locals, expr value CapConsume
       (capture_place collect_capture_expr (node target) (span target) locals captures))
  | SExpression value => (locals, expr value CapRead captures)
  | SReturn value =>
    (locals, match value with Some value => expr value CapConsume captures | None => captures end)
  | SIf condition then_branch else_branch =>
    let captures := expr condition CapRead captures in
    let captures := collect_capture_block then_branch locals captures in
    (locals, match else_branch with
             | Some block => collect_capture_block block locals captures
             | None => captures
             end)
  | SWhile condition body =>
    (locals, collect_capture_block body locals (expr condition CapRead captures))
  | SFor name _ start end_ _ body =>
    let captures := expr end_ CapRead (expr start CapRead captures) in
    (locals, collect_capture_block body ({[name]} ∪ locals) captures)
  | SForEach name _ iterable body =>
    let captures := expr iterable CapRead captures in
    (locals, collect_capture_block body ({[name]} ∪ locals) captures)
  | SLoop body | SUnsafe _ body => (locals, collect_capture_block body locals captures)
  | SBreak | SContinue => (locals, captures)
  end
with collect_capture_block (b : Block) (outer : Locals) (captures : Captures) {struct b}
    : Captures :=
  match b with
  | mkBlock statements _ =>
    snd (fold_left (λ '(locals, captures) s,
           collect_capture_statement (node s) locals captures) statements (outer, captures))
  end.

Definition collect_capture_place : Expression → Span → Locals → Captures → Captures :=
  capture_place collect_capture_expr.

(** ** The reference: free occurrences *)

Record Occurrence := mkOccurrence {
  occ_name : string;
  occ_span : Span;
  occ_mode : CaptureMode }.

(** The occurrences a scope that binds [bound] lets out. *)
Definition outside (bound : Locals) (l : list Occurrence) : list Occurrence :=
  filter (λ o, occ_name o ∉ bound) l.

Definition record_all (l : list Occurrence) (captures : Captures) : Captures :=
  fold_left (λ c o, record_use (occ_name o) (occ_span o) (occ_mode o) c) l captures.

Fixpoint pattern_bound (p : Pattern) : Locals :=
  match p with
  | PBinding name => {[name]}
  | POr alternatives => ⋃ (map (λ a, pattern_bound (node a)) alternatives)
  | PStruct _ fields _ =>
    ⋃ (map (λ f, match f with mkStructPatternField _ _ p => pattern_bound (node p) end) fields)
  | PVariant _ _ arguments => ⋃ (map (λ a, pattern_bound (node a)) arguments)
  | _ => ∅
  end.

Definition optional_uses {A} (f : A → list Occurrence) (o : option A) : list Occurrence :=
  match o with Some a => f a | None => [] end.

Section place_uses.
Context (uses : Expression → Span → CaptureMode → list Occurrence).

Fixpoint uses_of_place (e : Expression) (sp : Span) : list Occurrence :=
  match e with
  | EIdentifier name => [mkOccurrence name sp CapMutate]
  | EFieldAccess object _ _ => uses_of_place (node object) (span object)
  | EIndex object index =>
    uses_of_place (node object) (span object) ++ uses (node index) (span index) CapRead
  | ESubslice object start end_ =>
    uses_of_place (node object) (span object) ++ uses (node start) (span start) CapRead
      ++ uses (node end_) (span end_) CapRead
  | EDereference target => uses (node target) (span target) CapRead
  | _ => uses e sp CapMutate
  end.
End place_uses.

Definition statement_bound (s : Statement) : Locals :=
  match s with SBinding _ name _ _ _ => {[name]} | _ => ∅ end.

(** The occurrences of names that are free in an expression, in the order the analysis
    meets them, each with the way it uses the variable. *)
Fixpoint free_uses (e : Expression) (sp : Span) (mode : CaptureMode) {struct e}
    : list Occurrence :=
  let as_ mode (e : Expr) := free_uses (node e) (span e) mode in
  match e with
  | EIdentifier name => [mkOccurrence name sp mode]
  | EArray values => flat_map (as_ CapConsume) values
  | EClosure move_captures parameters _ body =>
    map (λ '(name, usage), mkOccurrence name (cap_span usage) (nested_mode move_captures usage))
      (record_all (outside (parameter_names parameters) (body_uses body)) [])
  | EStructConstruct _ _ fields =>
    flat_map (λ f, match f with mkStructFieldValue _ _ v => as_ CapConsume v end) fields
  | EDataWrite value store _ => as_ CapRead value ++ as_ CapRead store
  | EDataStore path => optional_uses (as_ CapRead) path
  | EDataQuery _ _ _ _ store predicate order limit =>
    as_ CapRead store ++ optional_uses (as_ CapRead) predicate
      ++ optional_uses (λ o, match o with mkDataOrder key _ _ => as_ CapRead key end) order
      ++ optional_uses (as_ CapRead) limit
  | EDataRemove _ _ store predicate => as_ CapRead store ++ as_ CapRead predicate
  | EFieldAccess object _ _ => as_ mode object
  | EIndex object index => as_ mode object ++ as_ CapRead index
  | ESubslice object start end_ =>
    as_ CapRead object ++ as_ CapRead start ++ as_ CapRead end_
  | EMatch value arms =>
    as_ CapConsume value
      ++ flat_map (λ arm,
           match arm with
           | mkMatchArm pattern _ guard value _ =>
             outside (pattern_bound (node pattern))
               (optional_uses (as_ CapRead) guard ++ as_ mode value)
           end) arms
  | ETry value | EAwait value | EMove value | ESpawn value => as_ CapConsume value
  | EBorrow mutable target =>
    if mutable then uses_of_place free_uses (node target) (span target) else as_ CapRead target
  | EDereference value | EUnary _ value => as_ CapRead value
  | EBinary lhs _ rhs => as_ CapRead lhs ++ as_ CapRead rhs
  | ECall callee arguments => as_ CapRead callee ++ flat_map (as_ CapRead) arguments
  | EInteger _ | EFloat _ | EString _ | ECharacter _ | EBool _ => []
  end
with body_uses (body : ClosureBody) {struct body} : list Occurrence :=
  match body with
  | CExpression e => free_uses (node e) (span e) CapConsume
  | CBlock block => block_uses block
  end
with statement_uses (s : Statement) {struct s} : list Occurrence :=
  let as_ mode (e : Expr) := free_uses (node e) (span e) mode in
  match s with
  | SBinding _ _ _ _ value => optional_uses (as_ CapConsume) value
  | SAssignment name name_span _ value =>
    mkOccurrence name name_span CapMutate :: as_ CapConsume value
  | SPlaceAssignment target _ value =>
    uses_of_place free_uses (node target) (span target) ++ as_ CapConsume value
  | SExpression value => as_ CapRead value
  | SReturn value => optional_uses (as_ CapConsume) value
  | SIf condition then_branch else_branch =>
    as_ CapRead condition ++ block_uses then_branch ++ optional_uses block_uses else_branch
  | SWhile condition body => as_ CapRead condition ++ block_uses body
  | SFor name _ start end_ _ body =>
    as_ CapRead start ++ as_ CapRead end_ ++ outside {[name]} (block_uses body)
  | SForEach name _ iterable body =>
    as_ CapRead iterable ++ outside {[name]} (block_uses body)
  | SLoop body | SUnsafe _ body => block_uses body
  | SBreak | SContinue => []
  end
with block_uses (b : Block) {struct b} : list Occurrence :=
  match b with
  | mkBlock statements _ =>
    fold_right (λ s rest, statement_uses (node s) ++ outside (statement_bound (node s)) rest)
      [] statements
  end.

(** What the occurrences [l] say of one name: where it occurs first, and whether some
    occurrence mutates or consumes it. *)
Definition describe (x : string) (l : list Occurrence) : option CaptureUse :=
  match filter (λ o, occ_name o = x) l with
  | [] => None
  | (o :: _) as l =>
    Some (mkCaptureUse (occ_span o) (existsb (λ o, is_mutate (occ_mode o)) l)
            (existsb (λ o, is_consume (occ_mode o)) l))
  end.

(** ** The analysis computes the summary of the reference *)

Lemma outside_app bound l1 l2 : outside bound (l1 ++ l2) = outside bound l1 ++ outside bound l2.
Proof. apply filter_app. Qed.

Lemma outside_cons bound o l : outside bound (o :: l) = outside bound [o] ++ outside bound l.
Proof. apply (outside_app bound [o] l). Qed.

Lemma outside_outside a b l : outside a (outside b l) = outside (b ∪ a) l.
Proof.
  unfold outside. induction l as [|o l IH]; [done|]. rewrite !filter_cons.
  repeat case_decide; rewrite ?filter_cons; repeat case_decide; first [by rewrite ?IH|set_solver].
Qed.

Lemma outside_empty l : outside ∅ l = l.
Proof.
  unfold outside. induction l as [|o l IH]; [done|]. rewrite filter_cons.
  case_decide; [by rewrite IH|set_solver].
Qed.

Lemma record_all_app l1 l2 c : record_all (l1 ++ l2) c = record_all l2 (record_all l1 c).
Proof. apply fold_left_app. Qed.

Lemma record_capture_outside name sp mode locals c :
  record_capture name sp mode locals c
  = record_all (outside locals [mkOccurrence name sp mode]) c.
Proof.
  unfold record_capture, outside. rewrite filter_cons. simpl.
  case_bool_decide; case_decide; done.
Qed.

Lemma collect_pattern_bindings_bound p : ∀ locals,
  collect_pattern_bindings p locals = pattern_bound p ∪ locals.
Proof.
  induction p using Pattern_mind with (P0 := λ f, ∀ locals,
    match f with mkStructPatternField _ _ p =>
      collect_pattern_bindings (node p) locals = pattern_bound (node p) ∪ locals end);
    intros locals; simpl; nested; try first [by auto | set_solver].
  all: revert locals; match goal with H : Forall _ _ |- _ => induction H as [|a ? Ha ? IH] end;
    intros locals; simpl; [set_solver|]; rewrite IH.
  all: try (rewrite Ha; set_solver).
  all: destruct a as [?? p]; rewrite (Ha locals); set_solver.
Qed.

(** A step that agrees with its occurrences, iterated. *)
Lemma fold_record_all {A} (f : A → Captures → Captures) (u : A → list Occurrence) locals l :
  Forall (λ a, ∀ c, f a c = record_all (outside locals (u a)) c) l →
  ∀ c, fold_left (λ c a, f a c) l c = record_all (outside locals (flat_map u l)) c.
Proof.
  induction 1 as [|a l Ha _ IH]; intros c; simpl; [done|].
  by rewrite IH, Ha, outside_app, record_all_app.
Qed.

(** What is proved of an expression, of a place and of a statement. *)
Definition agrees (e : Expression) : Prop := ∀ sp mode locals c,
  collect_capture_expr e sp mode locals c = record_all (outside locals (free_uses e sp mode)) c.
Definition place_agrees (e : Expression) : Prop := ∀ sp locals c,
  collect_capture_place e sp locals c
  = record_all (outside locals (uses_of_place free_uses e sp)) c.
Definition statement_agrees (s : Statement) : Prop := ∀ locals c,
  collect_capture_statement s locals c
  = (statement_bound s ∪ locals, record_all (outside locals (statement_uses s)) c).
Definition block_agrees (b : Block) : Prop := ∀ locals c,
  collect_capture_block b locals c = record_all (outside locals (block_uses b)) c.

Lemma statements_agree statements :
  Forall (λ s : Stmt, statement_agrees (node s)) statements →
  ∀ sp, block_agrees (mkBlock statements sp).
Proof.
  intros H sp locals c. simpl. revert locals c.
  induction H as [|s l Hs _ IH]; intros locals c; simpl; [done|].
  rewrite Hs, IH, outside_app, record_all_app, outside_outside. done.
Qed.

Lemma arm_agrees pattern g guard value sp mode locals c :
  on_some (λ s : Expr, agrees (node s)) guard → agrees (node value) →
  (let '(mkMatchArm pattern _ guard value _) := mkMatchArm pattern g guard value sp in
   let arm_locals := collect_pattern_bindings (node pattern) locals in
   collect_capture_expr (node value) (span value) mode arm_locals
     (match guard with
      | Some guard => collect_capture_expr (node guard) (span guard) CapRead arm_locals c
      | None => c
      end))
  = record_all (outside locals (outside (pattern_bound (node pattern))
      (optional_uses (λ e : Expr, free_uses (node e) (span e) CapRead) guard
       ++ free_uses (node value) (span value) mode))) c.
Proof.
  intros Hg Hv. simpl.
  rewrite collect_pattern_bindings_bound, outside_outside, outside_app, record_all_app, Hv.
  destruct guard as [guard|]; simpl; [by rewrite Hg|done].
Qed.

Lemma nested_captures (uses : Captures) mv locals c :
  fold_left (λ captures '(name, usage),
      record_capture name (cap_span usage) (nested_mode mv usage) locals captures) uses c
  = record_all (outside locals
      (map (λ '(name, usage), mkOccurrence name (cap_span usage) (nested_mode mv usage)) uses)) c.
Proof.
  revert c; induction uses as [|[name usage] uses IH]; intros c; simpl; [done|].
  rewrite IH, record_capture_outside.
  by rewrite (outside_cons _ _ (map _ _)), record_all_app.
Qed.

#[local] Hint Rewrite outside_app record_all_app record_capture_outside nested_captures : captures.

(** Rewrite with the hypotheses on the parts. *)
Ltac by_parts :=
  repeat match goal with H : on_some _ ?o |- _ => is_var o; destruct o end;
  cbn [on_some] in *; destruct_and?; try red; intros;
  unfold collect_capture_place;
  cbn [collect_capture_expr free_uses collect_capture_statement statement_uses statement_bound
       closure_capture_uses body_uses
       capture_place uses_of_place optional_uses];
  autorewrite with captures;
  repeat match goal with
  | H : agrees ?e |- context [collect_capture_expr ?e] => rewrite H
  | H : place_agrees ?e |- context [capture_place collect_capture_expr ?e] =>
      rewrite (H : ∀ sp locals c, capture_place collect_capture_expr e sp locals c = _)
  | H : block_agrees ?b |- context [collect_capture_block ?b] => rewrite H
  end;
  rewrite ?outside_outside, ?(left_id_L ∅ (∪)).

Lemma agrees_place e :
  (∀ sp locals c, capture_place collect_capture_expr e sp locals c
                  = collect_capture_expr e sp CapMutate locals c) →
  (∀ sp, uses_of_place free_uses e sp = free_uses e sp CapMutate) →
  agrees e → agrees e ∧ place_agrees e.
Proof.
  intros Hp Hu H. split; [done|]. intros sp locals c.
  unfold collect_capture_place. by rewrite Hp, Hu, H.
Qed.

Theorem captures_agree :
  (∀ e, agrees e ∧ place_agrees e) ∧
  (∀ o : DataOrder, let '(mkDataOrder key _ _) := o in agrees (node key)) ∧
  (∀ body, ∀ ps, closure_capture_uses ps body
                 = record_all (outside (parameter_names ps) (body_uses body)) []) ∧
  (∀ f : StructFieldValue, let '(mkStructFieldValue _ _ v) := f in agrees (node v)) ∧
  (∀ a : MatchArm, let '(mkMatchArm _ _ guard v _) := a in
       on_some (λ s : Expr, agrees (node s)) guard ∧ agrees (node v)) ∧
  (∀ s, statement_agrees s) ∧ (∀ b, block_agrees b).
Proof.
  apply syntax_mind; intros; nested.
  all: try (apply agrees_place; [done|done|]).
  all: try solve [by_parts; done | split; by_parts; done].
  - by_parts. apply fold_record_all. eapply Forall_impl; [exact H|]. intros e [He _] c'. apply He.
  - destruct order as [[key ? ?]|]; by_parts; try done.
  - by_parts. by rewrite H.
  - by_parts. apply (fold_record_all (λ f c, let '(mkStructFieldValue _ _ v) := f in _)).
    eapply Forall_impl; [exact H|]. intros [???] Hv c'. apply Hv.
  - by_parts. apply (fold_record_all (λ a c, let '(mkMatchArm _ _ _ _ _) := a in _)).
    eapply Forall_impl; [exact H0|]. intros [pattern g guard v sp'] [Hg Hv] c'.
    by apply (arm_agrees pattern g guard v sp').
  - destruct mutable; by_parts; done.
  - by_parts. apply fold_record_all.
    eapply Forall_impl; [exact H0|]. intros e [He _] c'. apply He.
  - by_parts. by rewrite (outside_cons _ _ (free_uses _ _ _)), record_all_app.
  - by apply statements_agree.
Qed.

(** ** What is recorded of one name *)

Definition absorb (u : option CaptureUse) (o : Occurrence) : option CaptureUse :=
  let u := default (mkCaptureUse (occ_span o) false false) u in
  Some (mkCaptureUse (cap_span u) (cap_mutated u || is_mutate (occ_mode o))
          (cap_consumed u || is_consume (occ_mode o))).

Lemma bt_get_record_all x l c :
  bt_get x (record_all l c) = fold_left absorb (filter (λ o, occ_name o = x) l) (bt_get x c).
Proof.
  revert c; induction l as [|o l IH]; intros c; simpl; [done|].
  rewrite IH, filter_cons. unfold record_use. rewrite bt_get_insert.
  case_decide as Ho.
  - by rewrite Ho, String.eqb_refl.
  - by rewrite (proj2 (String.eqb_neq x (occ_name o))) by congruence.
Qed.

Lemma fold_absorb l u :
  fold_left absorb l (Some u)
  = Some (mkCaptureUse (cap_span u)
            (cap_mutated u || existsb (λ o, is_mutate (occ_mode o)) l)
            (cap_consumed u || existsb (λ o, is_consume (occ_mode o)) l)).
Proof.
  revert u; induction l as [|o l IH]; intros u.
  - destruct u; simpl. by rewrite !orb_false_r.
  - cbn [fold_left]. unfold absorb at 2. rewrite IH. simpl. by rewrite !orb_assoc.
Qed.

Lemma bt_get_record_describe x l : bt_get x (record_all l []) = describe x l.
Proof.
  rewrite bt_get_record_all. unfold describe.
  destruct (filter _ l) as [|o l']; [done|]. cbn [fold_left bt_get].
  unfold absorb at 2. by rewrite fold_absorb.
Qed.

Lemma record_all_sorted l c : bt_sorted c → bt_sorted (record_all l c).
Proof.
  revert c; induction l as [|o l IH]; intros c Hc; simpl; [done|].
  apply IH. unfold record_use. auto with disp.
Qed.

(** C20: Capture analysis: a closure captures exactly the names that occur free in its
    body and are not its parameters; each is reported with the span of its first free
    occurrence, as mutated when some free occurrence mutates it and as consumed when some
    free occurrence consumes it; and the report lists the names in increasing order. *)
Theorem closure_captures_are_free_uses (parameters : list Param) (body : ClosureBody) :
  bt_sorted (closure_capture_uses parameters body) ∧
  ∀ x, bt_get x (closure_capture_uses parameters body)
       = describe x (outside (parameter_names parameters) (body_uses body)).
Proof.
  destruct captures_agree as (_ & _ & -> & _). split.
  - apply record_all_sorted. constructor.
  - intros x. apply bt_get_record_describe.
Qed.
