(* ===== verification/Effects.v ===== *)
(** * Capability effects ([compiler/src/effects.rs])

    The capabilities each function and method of a program acquires: collected from its
    body, propagated over the call graph to a fixed point, checked against the declared
    [uses] contracts, and refused where a function value or a closure would hide them.

    A [BTreeMap<Capability, Span>] is a finite map read in the order of the enum, and a
    [BTreeSet<Capability>] a finite set read in that order. *)

From stdpp Require Import countable.
From S2P Require Import Prelude Machine Diagnostics Ast.
#[local] Open Scope string_scope.
#[local] Open Scope list_scope.
#[local] Open Scope Z_scope.

(** ** Maps and sets of capabilities *)

Definition capability_index (c : Capability) : nat :=
  match c with
  | FileSystem => 0 | Network => 1 | Process => 2 | Foreign => 3 | RawMemory => 4
  | DeviceIo => 5 | Timer => 6 | Random => 7 | Gpu => 8 | Ui => 9
  end%nat.
Definition capability_at (n : nat) : Capability := nth n Capability_ALL Ui.
#[export] Program Instance Capability_countable : Countable Capability :=
  inj_countable' capability_index capability_at _.
Next Obligation. by intros []. Qed.

Abbreviation CapabilityMap := (gmap Capability Span).
Abbreviation CapabilitySet := (gset Capability).

(** [map.entry(capability).or_insert(span)]. *)
Definition or_insert (c : Capability) (sp : Span) (m : CapabilityMap) : CapabilityMap :=
  match m !! c with Some _ => m | None => <[c := sp]> m end.

(** [map.keys()] and the iteration of a set, in order. *)
Definition capability_keys (m : CapabilityMap) : list Capability :=
  filter (λ c, is_Some (m !! c)) Capability_ALL.
Definition capability_elements (s : CapabilitySet) : list Capability :=
  filter (λ c, c ∈ s) Capability_ALL.

(** ** Reports *)

Record FunctionEffects := mkFunctionEffects {
  effects_name : string;
  effects_explicit : bool;
  effects_capabilities : list Capability }.

Record EffectReport := mkEffectReport { effect_functions : list FunctionEffects }.

Fixpoint join (separator : string) (l : list string) : string :=
  match l with
  | [] => ""
  | [s] => s
  | s :: l => s +:+ separator +:+ join separator l
  end.

Definition render_function (f : FunctionEffects) : string :=
  let capabilities :=
    match effects_capabilities f with
    | [] => "Pure"
    | capabilities => join ", " (map capability_name capabilities)
    end in
  effects_name f +:+ " uses " +:+ capabilities
    +:+ (if effects_explicit f then "" else " [inferred]") +:+ newline.

Definition render_effects (report : EffectReport) : string :=
  fold_left (λ output f, output +:+ render_function f) (effect_functions report) "".

(** ** Direct effects *)

Record FunctionNode := mkFunctionNode { node_function : Function; node_label : string }.

Inductive DirectEffects : Type :=
| mkDirectEffects (capabilities : gmap Capability Span) (calls : list (nat * Span))
    (function_values : list (nat * Span)) (closures : list (Span * DirectEffects)).

Scheme DirectEffects_mind := Induction for DirectEffects Sort Prop.

Lemma effects_induction (P : DirectEffects → Prop) :
  (∀ capabilities calls values closures,
     Forall (λ p, P (snd p)) closures → P (mkDirectEffects capabilities calls values closures)) →
  ∀ e, P e.
Proof. intros H. apply DirectEffects_mind. intros ? ? ? ? ?%list_all_snd. auto. Qed.

Definition direct_capabilities (e : DirectEffects) : CapabilityMap :=
  match e with mkDirectEffects c _ _ _ => c end.
Definition direct_calls (e : DirectEffects) : list (nat * Span) :=
  match e with mkDirectEffects _ c _ _ => c end.
Definition direct_function_values (e : DirectEffects) : list (nat * Span) :=
  match e with mkDirectEffects _ _ v _ => v end.
Definition direct_closures (e : DirectEffects) : list (Span * DirectEffects) :=
  match e with mkDirectEffects _ _ _ c => c end.

Definition no_effects : DirectEffects := mkDirectEffects ∅ [] [] [].

Definition need (c : Capability) (sp : Span) (e : DirectEffects) : DirectEffects :=
  mkDirectEffects (or_insert c sp (direct_capabilities e)) (direct_calls e)
    (direct_function_values e) (direct_closures e).
Definition push_calls (l : list (nat * Span)) (e : DirectEffects) : DirectEffects :=
  mkDirectEffects (direct_capabilities e) (direct_calls e ++ l)
    (direct_function_values e) (direct_closures e).
Definition push_function_value (target : nat) (sp : Span) (e : DirectEffects) : DirectEffects :=
  mkDirectEffects (direct_capabilities e) (direct_calls e)
    (direct_function_values e ++ [(target, sp)]) (direct_closures e).
Definition push_closure (sp : Span) (closure e : DirectEffects) : DirectEffects :=
  mkDirectEffects (direct_capabilities e) (direct_calls e)
    (direct_function_values e) (direct_closures e ++ [(sp, closure)]).

Definition static_method (e : Expression) : option (string * string) :=
  match e with
  | EFieldAccess object field _ =>
    match node object with EIdentifier owner => Some (owner, field) | _ => None end
  | _ => None
  end.

Definition one_of (s : string) (l : list string) : bool := existsb (String.eqb s) l.

Definition intrinsic_capability (owner method : string) : option Capability :=
  if one_of owner ["File"] then Some FileSystem
  else if one_of owner ["Database"] && one_of method ["open"] then Some FileSystem
  else if one_of owner ["Async"]
          && one_of method ["read_text"; "read_bytes"; "write_text"; "write_bytes"]
  then Some FileSystem
  else if one_of owner ["Async"]
          && one_of method ["resolve"; "resolve_timeout"; "connect"; "connect_timeout"]
  then Some Network
  else if one_of owner ["Dns"; "TcpListener"; "UdpSocket"; "Tls"; "Http"] then Some Network
  else if one_of owner ["Process"; "Environment"] then Some Process
  else if one_of owner ["CRegistration"]
          && one_of method ["adopt"; "adopt_async"; "register_async"]
  then Some Foreign
  else if one_of owner ["Port"; "Mmio"] then Some DeviceIo
  else if one_of owner ["Time"] && one_of method ["ticks"] then Some Timer
  else if one_of owner ["Crypto"]
          && one_of method ["random_bytes"; "random_secret"; "ed25519_generate";
                            "argon2id_hash_password"]
  then Some Random
  else if one_of owner ["Gpu"] then Some Gpu
  else if one_of owner ["Ui"; "Page"; "Window"] then Some Ui
  else None.

Record Collector := mkCollector {
  collector_functions : gmap string nat;
  collector_methods : gmap string (list nat);
  collector_external_functions : gset string }.

Section collector.
Context (self : Collector).

(** The effect of a call on its callee, and whether that is all of it. *)
Definition collect_callee (callee : Expression) (sp : Span) (effects : DirectEffects)
    : DirectEffects * bool :=
  match callee with
  | EIdentifier name =>
    match collector_functions self !! name with
    | Some target => (push_calls [(target, sp)] effects, true)
    | None => (effects, false)
    end
  | _ =>
    match static_method callee with
    | Some (owner, method) =>
      match intrinsic_capability owner method with
      | Some capability => (need capability sp effects, false)
      | None =>
        match collector_methods self !! method with
        | Some targets => (push_calls (map (λ target, (target, sp)) targets) effects, false)
        | None => (effects, false)
        end
      end
    | None => (effects, false)
    end
  end.

Fixpoint collect_expr (e : Expression) (sp : Span) (effects : DirectEffects)
    (direct_callee : bool) {struct e} : DirectEffects :=
  let expr (e : Expr) effects := collect_expr (node e) (span e) effects false in
  let exprs (es : list Expr) effects :=
    fold_left (λ effects e, collect_expr (node e) (span e) effects false) es effects in
  let optional (o : option Expr) effects :=
    match o with Some e => collect_expr (node e) (span e) effects false | None => effects end in
  match e with
  | EArray values => exprs values effects
  | EDataStore path =>
    match path with
    | Some path => expr path (need FileSystem sp effects)
    | None => effects
    end
  | EDataWrite value store _ => expr store (expr value effects)
  | EDataQuery _ _ _ aggregate store predicate order limit =>
    let effects := optional aggregate effects in
    let effects := expr store effects in
    let effects := optional predicate effects in
    let effects :=
      match order with Some (mkDataOrder key _ _) => expr key effects | None => effects end in
    optional limit effects
  | EDataRemove _ _ store predicate => expr predicate (expr store effects)
  | EClosure _ _ _ body => push_closure sp (collect_body body) effects
  | EIdentifier name =>
    if direct_callee then effects
    else
      match collector_functions self !! name with
      | Some target =>
        if bool_decide (name ∈ collector_external_functions self)
        then need Foreign sp effects
        else push_function_value target sp effects
      | None => effects
      end
  | EStructConstruct _ _ fields =>
    fold_left (λ effects f,
      match f with
      | mkStructFieldValue _ _ v => collect_expr (node v) (span v) effects false
      end) fields effects
  | EFieldAccess object _ _ => expr object effects
  | EIndex object index => expr index (expr object effects)
  | ESubslice object start end_ => expr end_ (expr start (expr object effects))
  | EMatch value arms =>
    fold_left (λ effects arm,
      match arm with
      | mkMatchArm _ _ guard value _ =>
        let effects :=
          match guard with
          | Some g => collect_expr (node g) (span g) effects false
          | None => effects
          end in
        collect_expr (node value) (span value) effects false
      end) arms (expr value effects)
  | ETry value | EAwait value | ESpawn value | EMove value | EDereference value
  | EUnary _ value => expr value effects
  | EBorrow _ target => expr target effects
  | EBinary l _ r => expr r (expr l effects)
  | ECall callee arguments =>
    let effects := exprs arguments effects in
    let '(effects, complete) := collect_callee (node callee) sp effects in
    if (complete : bool) then effects
    else collect_expr (node callee) (span callee) effects true
  | EInteger _ | EFloat _ | EString _ | ECharacter _ | EBool _ => effects
  end
with collect_body (body : ClosureBody) {struct body} : DirectEffects :=
  match body with
  | CExpression value => collect_expr (node value) (span value) no_effects false
  | CBlock block => collect_block block no_effects
  end
with collect_statement (s : Statement) (effects : DirectEffects) {struct s} : DirectEffects :=
  let expr (e : Expr) effects := collect_expr (node e) (span e) effects false in
  match s with
  | SBinding _ _ _ _ value | SReturn value =>
    match value with Some value => expr value effects | None => effects end
  | SAssignment _ _ _ value => expr value effects
  | SPlaceAssignment target _ value => expr value (expr target effects)
  | SExpression value => expr value effects
  | SIf condition then_branch else_branch =>
    let effects := collect_block then_branch (expr condition effects) in
    match else_branch with Some block => collect_block block effects | None => effects end
  | SWhile condition body => collect_block body (expr condition effects)
  | SFor _ _ start end_ _ body => collect_block body (expr end_ (expr start effects))
  | SForEach _ _ iterable body => collect_block body (expr iterable effects)
  | SLoop body => collect_block body effects
  | SUnsafe capabilities body =>
    let effects :=
      match capabilities with
      | Some capabilities =>
        fold_left (λ effects use, need (use_capability use) (use_span use) effects)
          capabilities effects
      | None => effects
      end in
    collect_block body effects
  | SBreak | SContinue => effects
  end
with collect_block (b : Block) (effects : DirectEffects) {struct b} : DirectEffects :=
  match b with
  | mkBlock statements _ =>
    fold_left (λ effects s, collect_statement (node s) effects) statements effects
  end.

Definition collect_node (n : FunctionNode) : DirectEffects :=
  match fn_external (node_function n) with
  | Some _ => mkDirectEffects {[Foreign := fn_span (node_function n)]} [] [] []
  | None => collect_block (fn_body (node_function n)) no_effects
  end.
End collector.

(** ** Propagation *)

Abbreviation Contract := (option (gset Capability)).

Definition declared_contract (n : FunctionNode) : Contract :=
  (λ items, list_to_set (map use_capability items)) <$> fn_capabilities (node_function n).

Definition add_all (sp : Span) (l : list Capability) (m : CapabilityMap) : CapabilityMap :=
  fold_left (λ m c, or_insert c sp m) l m.

Section propagation.
Context (declared : list Contract).

(** One call of one function. *)
Definition inherit (previous : list CapabilityMap) (own : CapabilityMap) (call : nat * Span)
    : outcome Diagnostic CapabilityMap :=
  let '(target, call_span) := call in
  contract ← expect (declared !! target : option Contract);
  match contract with
  | Some explicit => Ok (add_all call_span (capability_elements explicit) own)
  | None =>
    capabilities ← expect (previous !! target : option CapabilityMap);
    Ok (add_all call_span (capability_keys capabilities) own)
  end.

(** One iteration of the loop: every function inherits from its callees. *)
Fixpoint pass (previous : list CapabilityMap) (direct : list DirectEffects)
    (actual : list CapabilityMap) : outcome Diagnostic (list CapabilityMap) :=
  match direct, actual with
  | [], _ => Ok actual
  | _ :: _, [] => Panic
  | effects :: direct, own :: actual =>
    own ← for_each (inherit previous) (direct_calls effects) own;
    rest ← pass previous direct actual;
    Ok (own :: rest)
  end.

Fixpoint propagate (fuel : nat) (direct : list DirectEffects) (actual : list CapabilityMap)
    : outcome Diagnostic (list CapabilityMap) :=
  match fuel with
  | O => Panic
  | S fuel =>
    next ← pass actual direct actual;
    if bool_decide (next = actual) then Ok next else propagate fuel direct next
  end.
End propagation.

(** Every iteration but the last adds a capability to some function. *)
Definition propagation_fuel (n : nat) : nat := S (length Capability_ALL * n).

(** ** Checks *)

Definition contract_error (label : string) (c : Capability) (sp : Span) : Diagnostic :=
  with_help
    (new_diagnostic Type_
       ("function `" +:+ label +:+ "` requires capability `" +:+ capability_name c
        +:+ "` but its `uses` contract does not allow it") sp)
    ("add `" +:+ capability_name c
     +:+ "` to the function's `uses` clause or move the operation behind an owned capability value").

Definition check_contract (label : string) (declared : Contract) (actual : CapabilityMap)
    : outcome Diagnostic unit :=
  match declared with
  | None => Ok tt
  | Some allowed =>
    for_each (λ _ c,
        match actual !! c with
        | Some sp =>
          if bool_decide (c ∈ allowed) then Ok tt else Err (contract_error label c sp)
        | None => Ok tt
        end) Capability_ALL tt
  end.

Fixpoint check_contracts (nodes : list FunctionNode) (declared : list Contract)
    (actual : list CapabilityMap) : outcome Diagnostic unit :=
  match nodes, declared, actual with
  | n :: nodes, d :: declared, a :: actual =>
    _ ← check_contract (node_label n) d a;
    check_contracts nodes declared actual
  | [], _, _ => Ok tt
  | _, _, _ => Panic
  end.

Definition contract_of (declared : Contract) (actual : CapabilityMap) : CapabilitySet :=
  match declared with
  | Some allowed => allowed
  | None => list_to_set (capability_keys actual)
  end.

Definition value_error (label : string) (sp : Span) : Diagnostic :=
  with_help
    (new_diagnostic Type_
       ("capability-bearing function `" +:+ label
        +:+ "` cannot be erased into an effect-free function value") sp)
    "call it directly or wrap the operation behind an owned capability value".

Definition closure_error (required : CapabilitySet) (sp : Span) : Diagnostic :=
  with_help
    (new_diagnostic Type_
       ("closure requires capabilities `"
        +:+ join ", " (map capability_name (capability_elements required))
        +:+ "` but function-value types are effect-free") sp)
    "keep capability-bearing work in a directly called named function".

(** The capabilities a closure performs or calls. *)
Definition require_call (contracts : list CapabilitySet) (required : CapabilitySet)
    (call : nat * Span) : outcome Diagnostic CapabilitySet :=
  contract ← expect (contracts !! fst call : option CapabilitySet); Ok (required ∪ contract).
Definition closure_required (contracts : list CapabilitySet) (closure : DirectEffects)
    : outcome Diagnostic CapabilitySet :=
  for_each (require_call contracts)
    (direct_calls closure) (list_to_set (capability_keys (direct_capabilities closure))).

Definition check_function_value (contracts : list CapabilitySet) (nodes : list FunctionNode)
    (value : nat * Span) : outcome Diagnostic unit :=
  let '(target, sp) := value in
  contract ← expect (contracts !! target : option CapabilitySet);
  if bool_decide (contract = ∅) then Ok tt
  else n ← expect (nodes !! target); Err (value_error (node_label n) sp).

Fixpoint validate_hidden_effects (contracts : list CapabilitySet) (nodes : list FunctionNode)
    (effects : DirectEffects) {struct effects} : outcome Diagnostic unit :=
  match effects with
  | mkDirectEffects _ _ function_values closures =>
    _ ← for_each (λ _ value, check_function_value contracts nodes value) function_values tt;
    for_each (λ _ c,
        match c with
        | (sp, closure) =>
          required ← closure_required contracts closure;
          _ ← bail_if (negb (bool_decide (required = ∅))) (closure_error required sp);
          validate_hidden_effects contracts nodes closure
        end) closures tt
  end.

(** ** The analysis *)

Definition method_label (index : nat) (method : Function) : string :=
  "impl" +:+ display_Z (Z.of_nat index) +:+ "." +:+ fn_name method.

Definition function_nodes (program : Program) : list FunctionNode :=
  map (λ f, mkFunctionNode f (fn_name f)) (program_functions program).
Definition method_nodes (program : Program) : list FunctionNode :=
  concat (imap (λ index implementation,
                  map (λ m, mkFunctionNode m (method_label index m)) (impl_methods implementation))
            (program_implementations program)).
Definition program_nodes (program : Program) : list FunctionNode :=
  function_nodes program ++ method_nodes program.

Definition program_collector (program : Program) : Collector :=
  mkCollector
    (fold_left (λ m '(index, n), <[fn_name (node_function n) := index]> m)
       (imap pair (function_nodes program)) ∅)
    (fold_left (λ m '(index, n),
         let name := fn_name (node_function n) in
         <[name := default [] (m !! name) ++ [index]]> m)
       (imap (λ i n, (length (program_functions program) + i, n)%nat) (method_nodes program)) ∅)
    (list_to_set (map fn_name (filter (λ f, is_Some (fn_external f)) (program_functions program)))).

Definition analyze (program : Program) : outcome Diagnostic EffectReport :=
  let nodes := program_nodes program in
  let direct := map (collect_node (program_collector program)) nodes in
  let declared := map declared_contract nodes in
  actual ← propagate declared (propagation_fuel (length nodes)) direct
             (map direct_capabilities direct);
  _ ← check_contracts nodes declared actual;
  let contracts := zip_with contract_of declared actual in
  _ ← for_each (λ _ effects, validate_hidden_effects contracts nodes effects) direct tt;
  Ok (mkEffectReport
        (zip_with (λ n contract,
             mkFunctionEffects (node_label n) (bool_decide (is_Some (declared_contract n)))
               (capability_elements contract)) nodes contracts)).
