(* ===== verification/EffectsSpec.v ===== *)
(** * Capability effects: what a program may do ([docs/language/CAPABILITIES.md])

    An account of authority that does not look at how [effects.rs] collects it.  The
    _atoms_ of a piece of code are what it does as far as syntax shows: the capabilities it
    acquires, the functions it calls, the methods it invokes, the names it uses as values,
    and the closures it makes.  [requires] and [hides] then follow the document: a call of a
    function passes on its contract, a method call the contracts of all methods of that
    name, and a function value or closure must not carry a capability. *)

From S2P Require Import Prelude Machine Diagnostics Ast.
#[local] Open Scope string_scope.
#[local] Open Scope list_scope.

(** ** Authority sources *)

(** The table of the document, with the roots and operations of the standard library. [None]
    stands for all operations. *)
Definition authority_sources : list (string * option (list string) * Capability) :=
  [("File", None, FileSystem);
   ("Database", Some ["open"], FileSystem);
   ("Async", Some ["read_text"; "read_bytes"; "write_text"; "write_bytes"], FileSystem);
   ("Async", Some ["resolve"; "resolve_timeout"; "connect"; "connect_timeout"], Network);
   ("Dns", None, Network); ("TcpListener", None, Network); ("UdpSocket", None, Network);
   ("Tls", None, Network); ("Http", None, Network);
   ("Process", None, Process); ("Environment", None, Process);
   ("CRegistration", Some ["adopt"; "adopt_async"; "register_async"], Foreign);
   ("Port", None, DeviceIo); ("Mmio", None, DeviceIo);
   ("Time", Some ["ticks"], Timer);
   ("Crypto", Some ["random_bytes"; "random_secret"; "ed25519_generate";
                    "argon2id_hash_password"], Random);
   ("Gpu", None, Gpu);
   ("Ui", None, Ui); ("Page", None, Ui); ("Window", None, Ui)].

Definition source_matches (root operation : string)
    (row : string * option (list string) * Capability) : bool :=
  let '(owner, operations, _) := row in
  String.eqb root owner
  && match operations with None => true | Some l => existsb (String.eqb operation) l end.

Definition acquired (root operation : string) : option Capability :=
  snd <$> List.find (source_matches root operation) authority_sources.

(** ** Atoms *)

Inductive Atom :=
| Acquires (c : Capability)
| Calls (function : string)
| Invokes (named : bool) (method : string)   (* is the receiver a plain name? *)
| Mentions (name : string)
| Encloses (body : list Atom).

Definition optional_atoms {A} (f : A → list Atom) (o : option A) : list Atom :=
  match o with Some a => f a | None => [] end.

(** An operation [object.operation(..)]. *)
Definition operation_atom (object : Expression) (operation : string) : Atom :=
  match object with
  | EIdentifier root =>
    match acquired root operation with Some c => Acquires c | None => Invokes true operation end
  | _ => Invokes false operation
  end.

Fixpoint expr_atoms (e : Expression) {struct e} : list Atom :=
  let atoms (e : Expr) := expr_atoms (node e) in
  match e with
  | EIdentifier name => [Mentions name]
  | ECall callee arguments =>
    flat_map atoms arguments
      ++ match node callee with
         | EIdentifier name => [Calls name]
         | EFieldAccess object operation _ => operation_atom (node object) operation :: atoms object
         | _ => atoms callee
         end
  | EClosure _ _ _ body =>
    [Encloses (match body with CExpression value => atoms value | CBlock b => block_atoms b end)]
  | EDataStore path => optional_atoms (λ path, Acquires FileSystem :: atoms path) path
  | EArray values => flat_map atoms values
  | EDataWrite value store _ => atoms value ++ atoms store
  | EDataQuery _ _ _ aggregate store predicate order limit =>
    optional_atoms atoms aggregate ++ atoms store ++ optional_atoms atoms predicate
      ++ optional_atoms (λ o, match o with mkDataOrder key _ _ => atoms key end) order
      ++ optional_atoms atoms limit
  | EDataRemove _ _ store predicate => atoms store ++ atoms predicate
  | EStructConstruct _ _ fields =>
    flat_map (λ f, match f with mkStructFieldValue _ _ v => atoms v end) fields
  | EFieldAccess object _ _ => atoms object
  | EIndex object index => atoms object ++ atoms index
  | ESubslice object start end_ => atoms object ++ atoms start ++ atoms end_
  | EMatch value arms =>
    atoms value
      ++ flat_map (λ a, match a with
                        | mkMatchArm _ _ guard v _ => optional_atoms atoms guard ++ atoms v
                        end) arms
  | ETry value | EAwait value | ESpawn value | EMove value | EDereference value
  | EUnary _ value | EBorrow _ value => atoms value
  | EBinary l _ r => atoms l ++ atoms r
  | EInteger _ | EFloat _ | EString _ | ECharacter _ | EBool _ => []
  end
with statement_atoms (s : Statement) {struct s} : list Atom :=
  let atoms (e : Expr) := expr_atoms (node e) in
  match s with
  | SBinding _ _ _ _ value | SReturn value => optional_atoms atoms value
  | SAssignment _ _ _ value | SExpression value => atoms value
  | SPlaceAssignment target _ value => atoms target ++ atoms value
  | SIf condition then_branch else_branch =>
    atoms condition ++ block_atoms then_branch ++ optional_atoms block_atoms else_branch
  | SWhile condition body => atoms condition ++ block_atoms body
  | SFor _ _ start end_ _ body => atoms start ++ atoms end_ ++ block_atoms body
  | SForEach _ _ iterable body => atoms iterable ++ block_atoms body
  | SLoop body => block_atoms body
  | SUnsafe capabilities body =>
    optional_atoms (map (λ use, Acquires (use_capability use))) capabilities ++ block_atoms body
  | SBreak | SContinue => []
  end
with block_atoms (b : Block) {struct b} : list Atom :=
  match b with
  | mkBlock statements _ => flat_map (λ s, statement_atoms (node s)) statements
  end.

(** The body of an [extern] function is elsewhere. *)
Definition function_atoms (f : Function) : list Atom :=
  match fn_external f with Some _ => [] | None => block_atoms (fn_body f) end.

(** ** Requirements *)

Section program.
Context (p : Program).

(** The function a name stands for: the last one declared with it (the resolver admits
    one). *)
Definition function_named (name : string) (f : Function) : Prop :=
  ∃ i, program_functions p !! i = Some f ∧ fn_name f = name
    ∧ ∀ j g, (i < j)%nat → program_functions p !! j = Some g → fn_name g ≠ name.

Definition foreign_name (name : string) : Prop :=
  ∃ f, f ∈ program_functions p ∧ fn_name f = name ∧ is_Some (fn_external f).

Definition method_of_program (f : Function) : Prop :=
  ∃ i, i ∈ program_implementations p ∧ f ∈ impl_methods i.

(** Code with these atoms has the capability by itself. *)
Definition has_itself (l : list Atom) (c : Capability) : Prop :=
  Acquires c ∈ l ∨ (c = Foreign ∧ ∃ name, Mentions name ∈ l ∧ foreign_name name).

(** Code with these atoms may enter the function. *)
Definition enters (l : list Atom) (f : Function) : Prop :=
  (∃ name, Calls name ∈ l ∧ function_named name f)
  ∨ (∃ named, Invokes named (fn_name f) ∈ l ∧ method_of_program f).

(** A function requires what it does itself, the declared contract of every function it may
    enter, and what those without a contract require. *)
Inductive requires : Function → Capability → Prop :=
| requires_foreign f : is_Some (fn_external f) → requires f Foreign
| requires_itself f c : has_itself (function_atoms f) c → requires f c
| requires_declared f g uses c :
    enters (function_atoms f) g → fn_capabilities g = Some uses →
    c ∈ map use_capability uses → requires f c
| requires_inferred f g c :
    enters (function_atoms f) g → fn_capabilities g = None → requires g c → requires f c.

(** The contract of a function: the declared one, or what it requires. *)
Definition promises (f : Function) (c : Capability) : Prop :=
  match fn_capabilities f with
  | Some uses => c ∈ map use_capability uses
  | None => requires f c
  end.

(** Code with these atoms turns a capability into a value that does not show it: a function
    with a contract used as a value, or a closure that has or calls for a capability. *)
Inductive hides : list Atom → Prop :=
| hides_function l name f c :
    Mentions name ∈ l → ¬ foreign_name name → function_named name f → promises f c → hides l
| hides_closure l body c : Encloses body ∈ l → has_itself body c → hides l
| hides_call l body f c : Encloses body ∈ l → enters body f → promises f c → hides l
| hides_nested l body : Encloses body ∈ l → hides body → hides l.

Definition in_program (f : Function) : Prop :=
  f ∈ program_functions p ∨ method_of_program f.

Definition contracts_kept : Prop := ∀ f uses c,
  in_program f → fn_capabilities f = Some uses → requires f c → c ∈ map use_capability uses.
Definition nothing_hidden : Prop := ∀ f, in_program f → ¬ hides (function_atoms f).

(** ** Invocations the analysis does not see *)

Inductive within : Atom → list Atom → Prop :=
| within_here a l : a ∈ l → within a l
| within_closure a l body : Encloses body ∈ l → within a body → within a l.

(** No method with a contract is invoked on a receiver that is not a plain name. *)
Definition plain_receivers : Prop := ∀ f g c,
  in_program f → within (Invokes false (fn_name g)) (function_atoms f) → method_of_program g →
  ¬ promises g c.
End program.
