(* ===== verification/EffectsProps.v ===== *)
(** * Capability effects: propagation and checks

    [needs]: the capabilities a function reaches through the calls that were collected.
    The propagation loop is proved to terminate with exactly those, and the checks to accept
    exactly when the contracts allow them and no function value or closure hides one. *)

From S2P Require Import Prelude Machine Diagnostics Ast Effects.
#[local] Open Scope string_scope.
#[local] Open Scope list_scope.

(** ** Maps of capabilities *)

Lemma in_ALL c : c ∈ Capability_ALL.
Proof. destruct c; set_solver. Qed.

Lemma elem_of_keys c (m : CapabilityMap) : c ∈ capability_keys m ↔ is_Some (m !! c).
Proof. unfold capability_keys. rewrite list_elem_of_filter. pose proof (in_ALL c). tauto. Qed.

Lemma elem_of_elements c (s : CapabilitySet) : c ∈ capability_elements s ↔ c ∈ s.
Proof. unfold capability_elements. rewrite list_elem_of_filter. pose proof (in_ALL c). tauto. Qed.

Lemma or_insert_Some c sp (m : CapabilityMap) d :
  is_Some (or_insert c sp m !! d) ↔ d = c ∨ is_Some (m !! d).
Proof.
  unfold or_insert. destruct (m !! c) as [x|] eqn:E.
  - split; [tauto|]. intros [->|H]; [by exists x|done].
  - rewrite lookup_insert_is_Some. destruct (decide (c = d)); naive_solver.
Qed.

Lemma or_insert_subseteq c sp (m : CapabilityMap) : m ⊆ or_insert c sp m.
Proof. unfold or_insert. destruct (m !! c) eqn:E; [done|]. by apply insert_subseteq. Qed.

Lemma add_all_Some sp l (m : CapabilityMap) d :
  is_Some (add_all sp l m !! d) ↔ d ∈ l ∨ is_Some (m !! d).
Proof.
  revert m; induction l as [|c l IH]; intros m; simpl; [set_solver|].
  rewrite IH, or_insert_Some, elem_of_cons. tauto.
Qed.

Lemma add_all_subseteq sp l (m : CapabilityMap) : m ⊆ add_all sp l m.
Proof.
  revert m; induction l as [|c l IH]; intros m; simpl; [done|].
  etransitivity; [apply (or_insert_subseteq c sp)|apply IH].
Qed.

Lemma capability_map_size (m : CapabilityMap) : (size m <= length Capability_ALL)%nat.
Proof.
  rewrite <- (size_dom (D := gset Capability)).
  trans (size (list_to_set Capability_ALL : gset Capability)).
  - apply subseteq_size. intros c _. apply elem_of_list_to_set, in_ALL.
  - vm_compute. lia.
Qed.

(** ** Needs *)

Section spec.
Context (declared : list Contract) (direct : list DirectEffects).

(** Function [i] needs capability [c]: it acquires [c] itself, or calls a function that
    declares [c], or calls one without a contract that needs [c]. *)
Inductive needs : nat → Capability → Prop :=
| needs_direct i e c :
    direct !! i = Some e → is_Some (direct_capabilities e !! c) → needs i c
| needs_declared i e t sp allowed c :
    direct !! i = Some e → (t, sp) ∈ direct_calls e →
    declared !! t = Some (Some allowed) → c ∈ allowed → needs i c
| needs_inferred i e t sp c :
    direct !! i = Some e → (t, sp) ∈ direct_calls e →
    declared !! t = Some None → needs t c → needs i c.

(** What a call to [t] adds, given the capabilities of the round before. *)
Definition gives (previous : list CapabilityMap) (t : nat) (c : Capability) : Prop :=
  match declared !! t with
  | Some (Some allowed) => c ∈ allowed
  | Some None => ∃ m, previous !! t = Some m ∧ is_Some (m !! c)
  | None => False
  end.

Lemma inherit_spec previous own t sp :
  is_Some (declared !! t) → is_Some (previous !! t) →
  ∃ own', inherit declared previous own (t, sp) = Ok own' ∧ own ⊆ own' ∧
          ∀ c, is_Some (own' !! c) ↔ is_Some (own !! c) ∨ gives previous t c.
Proof.
  intros [d Hd] [m Hm]. unfold inherit, gives. rewrite Hd, Hm. simpl.
  destruct d as [allowed|]; simpl.
  - eexists. split; [done|]. split; [apply add_all_subseteq|]. intros c.
    rewrite add_all_Some, elem_of_elements. tauto.
  - eexists. split; [done|]. split; [apply add_all_subseteq|]. intros c.
    rewrite add_all_Some, elem_of_keys. naive_solver.
Qed.

Lemma inherits_spec previous l : ∀ own,
  Forall (λ call, is_Some (declared !! fst call) ∧ is_Some (previous !! fst call)) l →
  ∃ own', for_each (inherit declared previous) l own = Ok own' ∧ own ⊆ own' ∧
          ∀ c, is_Some (own' !! c)
               ↔ is_Some (own !! c) ∨ ∃ t sp, (t, sp) ∈ l ∧ gives previous t c.
Proof.
  induction l as [|[t sp] l IH]; intros own Hl.
  { exists own. split; [done|]. split; [done|]. intros c. split; [auto|].
    intros [?|(? & ? & []%not_elem_of_nil & _)]; done. }
  apply Forall_cons in Hl as [[Hd Hp] Hl].
  destruct (inherit_spec previous own t sp Hd Hp) as (own1 & H1 & Hsub1 & Hc1).
  destruct (IH own1 Hl) as (own2 & H2 & Hsub2 & Hc2).
  exists own2. cbn [for_each]. rewrite H1. split; [exact H2|].
  split; [by transitivity own1|]. intros c. rewrite Hc2, Hc1. split.
  - intros [[?|?]|(t' & sp' & ? & ?)]; [tauto|right; exists t, sp; split; [left|done]|].
    right. exists t', sp'. split; [by right|done].
  - intros [?|(t' & sp' & [Heq|?]%elem_of_cons & ?)]; [tauto|simplify_eq; tauto|].
    right. eauto.
Qed.

(** Every call of the program has a target. *)
Definition calls_in (n : nat) (e : DirectEffects) : Prop :=
  Forall (λ call, (fst call < n)%nat) (direct_calls e).

(** One round, for functions [k], [k+1], ... *)
Lemma pass_spec previous n ds : ∀ actual,
  length declared = n → length previous = n → length ds = length actual →
  Forall (calls_in n) ds →
  ∃ next, pass declared previous ds actual = Ok next ∧ length next = length actual ∧
    ∀ i e own own', ds !! i = Some e → actual !! i = Some own → next !! i = Some own' →
      own ⊆ own' ∧
      ∀ c, is_Some (own' !! c)
           ↔ is_Some (own !! c) ∨ ∃ t sp, (t, sp) ∈ direct_calls e ∧ gives previous t c.
Proof.
  induction ds as [|e ds IH]; intros actual Hd Hp Hlen Hcalls.
  { exists actual. destruct actual; [|done]. by repeat split. }
  destruct actual as [|own actual]; [done|]. apply Forall_cons in Hcalls as [He Hds].
  destruct (inherits_spec previous (direct_calls e) own) as (own' & H1 & Hsub & Hc).
  { eapply Forall_impl; [exact He|]. intros [t sp] Ht. simpl in *.
    split; apply lookup_lt_is_Some; lia. }
  destruct (IH actual Hd Hp) as (next & H2 & Hl & Hnext); [by injection Hlen|done|].
  exists (own' :: next). cbn [pass]. rewrite H1, bind_Ok, H2, bind_Ok.
  split; [done|]. split; [simpl; lia|].
  intros [|i] e' o o' He' Ho Ho'; simpl in *; [by simplify_eq|by eapply Hnext].
Qed.

(** The keys of a round: they are needed, and include the direct ones. *)
Definition sound (actual : list CapabilityMap) : Prop := ∀ i m c,
  actual !! i = Some m → is_Some (m !! c) → needs i c.
Definition includes_direct (actual : list CapabilityMap) : Prop := ∀ i e m c,
  direct !! i = Some e → actual !! i = Some m → is_Some (direct_capabilities e !! c) →
  is_Some (m !! c).

Lemma gives_needs actual i e t sp c :
  sound actual → direct !! i = Some e → (t, sp) ∈ direct_calls e → gives actual t c → needs i c.
Proof.
  intros Hs He Ht. unfold gives. destruct (declared !! t) as [[allowed|]|] eqn:Hd; [| |done].
  - intros. by eapply needs_declared.
  - intros (m & Hm & Hc). eapply needs_inferred; eauto.
Qed.

Definition total (actual : list CapabilityMap) : nat :=
  foldr (λ m n, size m + n)%nat 0%nat actual.

Lemma total_bound actual : (total actual <= length Capability_ALL * length actual)%nat.
Proof.
  unfold total. induction actual as [|m l IH]; [simpl; lia|].
  change (length Capability_ALL) with 10%nat in *.
  cbn [foldr length]. pose proof (capability_map_size m) as Hm.
  change (length Capability_ALL) with 10%nat in Hm. lia.
Qed.

Lemma total_mono l l' :
  Forall2 (λ m m' : CapabilityMap, m ⊆ m') l l' →
  (total l <= total l')%nat ∧ ((total l' <= total l)%nat → l' = l).
Proof.
  unfold total. induction 1 as [|m m' l l' Hm _ [IH1 IH2]]; [done|]. cbn [foldr].
  pose proof (map_subseteq_size m m' Hm). split; [lia|]. intros H1.
  rewrite (map_subseteq_size_eq m m' Hm) by lia. rewrite IH2 by lia. done.
Qed.

(** [next] is the round after [actual]. *)
Definition next_round (actual next : list CapabilityMap) : Prop :=
  length next = length actual ∧
  ∀ i e own own', direct !! i = Some e → actual !! i = Some own → next !! i = Some own' →
    own ⊆ own' ∧
    ∀ c, is_Some (own' !! c)
         ↔ is_Some (own !! c) ∨ ∃ t sp, (t, sp) ∈ direct_calls e ∧ gives actual t c.

Lemma round_rows actual next i own' :
  length actual = length direct → next_round actual next → next !! i = Some own' →
  ∃ e own, direct !! i = Some e ∧ actual !! i = Some own.
Proof.
  intros Hl [Hlen _] Hi. apply lookup_lt_Some in Hi as Hlt.
  destruct (lookup_lt_is_Some_2 actual i ltac:(lia)) as [own ?].
  destruct (lookup_lt_is_Some_2 direct i ltac:(lia)) as [e ?]. eauto.
Qed.

Lemma round_grows actual next :
  length actual = length direct → next_round actual next →
  Forall2 (λ m m' : CapabilityMap, m ⊆ m') actual next.
Proof.
  intros Hl Hr. apply Forall2_same_length_lookup. split; [by destruct Hr|]. intros i m m' Hm Hm'.
  destruct (round_rows actual next i m' Hl Hr Hm') as (e & own & He & Hown). simplify_eq.
  destruct Hr as [_ Hstep]. by destruct (Hstep i e m m' He Hm Hm').
Qed.

Lemma round_sound actual next :
  length actual = length direct → next_round actual next → sound actual → sound next.
Proof.
  intros Hl Hr Hs i own' c Hown' Hc.
  destruct (round_rows actual next i own' Hl Hr Hown') as (e & own & He & Hown).
  destruct Hr as [_ Hstep]. destruct (Hstep i e own own' He Hown Hown') as [_ Hkeys].
  destruct (proj1 (Hkeys c) Hc) as [Hc'|(t & sp & Ht & Hg)]; [by eapply Hs|by eapply gives_needs].
Qed.

Lemma round_includes actual next :
  length actual = length direct → next_round actual next → includes_direct actual →
  includes_direct next.
Proof.
  intros Hl Hr Hi i e own' c He Hown' Hc.
  destruct (round_rows actual next i own' Hl Hr Hown') as (e' & own & He' & Hown). simplify_eq.
  destruct Hr as [_ Hstep]. destruct (Hstep i e own own' He Hown Hown') as [_ Hkeys].
  apply Hkeys. left. by eapply Hi.
Qed.

(** A round that changes nothing has every needed capability. *)
Lemma fixed_point_complete actual :
  length actual = length direct → Forall (calls_in (length direct)) direct →
  includes_direct actual → next_round actual actual →
  ∀ i c, needs i c → ∀ m, actual !! i = Some m → is_Some (m !! c).
Proof.
  intros Hl Hcalls Hi [_ Hstep]. induction 1 as
    [i e c He Hc|i e t sp allowed c He Ht Hdt Hc|i e t sp c He Ht Hdt _ IHn]; intros m Hm.
  - by eapply Hi.
  - apply (Hstep i e m m He Hm Hm). right. exists t, sp. split; [done|].
    unfold gives. by rewrite Hdt.
  - apply (Hstep i e m m He Hm Hm). right. exists t, sp. split; [done|].
    unfold gives. rewrite Hdt. apply list_elem_of_lookup_2 in He.
    rewrite Forall_forall in Hcalls. specialize (Hcalls _ He). unfold calls_in in Hcalls.
    rewrite Forall_forall in Hcalls. specialize (Hcalls _ Ht). simpl in Hcalls.
    destruct (lookup_lt_is_Some_2 actual t ltac:(lia)) as [mt Hmt]. eauto.
Qed.

Lemma propagate_spec fuel : ∀ actual,
  length declared = length direct → length actual = length direct →
  Forall (calls_in (length direct)) direct →
  sound actual → includes_direct actual →
  (length Capability_ALL * length direct - total actual < fuel)%nat →
  ∃ r, propagate declared fuel direct actual = Ok r ∧ length r = length direct ∧
       ∀ i m c, r !! i = Some m → (is_Some (m !! c) ↔ needs i c).
Proof.
  induction fuel as [|fuel IH]; intros actual Hd Hl Hcalls Hs Hi Hfuel; [lia|].
  destruct (pass_spec actual (length direct) direct actual Hd Hl (eq_sym Hl) Hcalls)
    as (next & Hnext & Hround).
  change (next_round actual next) in Hround. pose proof (proj1 Hround) as Hlen.
  cbn [propagate]. rewrite Hnext, bind_Ok. case_bool_decide as Heq.
  - subst next. exists actual. split; [done|]. split; [done|]. intros i m c Hm.
    split; [intros Hc; by eapply Hs|]. intros Hn. by eapply fixed_point_complete.
  - apply IH; eauto using round_sound, round_includes; [by rewrite Hlen|].
    destruct (total_mono actual next (round_grows actual next Hl Hround)) as [H1 H2].
    pose proof (total_bound next). rewrite Hlen, Hl in *.
    change (length Capability_ALL) with 10%nat in *.
    assert (total next ≠ total actual) by (intros E; apply Heq, H2; lia). lia.
Qed.
End spec.

(** ** What collecting effects keeps

    A preorder that every single recorded effect respects relates the effects before and
    after collecting any piece of syntax. *)

Section collecting.
Context (self : Collector) (R : DirectEffects → DirectEffects → Prop) `{!PreOrder R}.
Context (Hneed : ∀ c sp e, R e (need c sp e)).
Context (Hcallee : ∀ callee sp e, R e (fst (collect_callee self callee sp e))).
Context (Hvalue : ∀ name t sp e,
  collector_functions self !! name = Some t → R e (push_function_value t sp e)).
Context (Hclosure : ∀ sp c e, R no_effects c → R e (push_closure sp c e)).

Definition expr_related (e : Expression) : Prop :=
  ∀ sp effects b, R effects (collect_expr self e sp effects b).
Definition block_related (b : Block) : Prop := ∀ effects, R effects (collect_block self b effects).

Lemma related_fold {A} (f : DirectEffects → A → DirectEffects) l :
  Forall (λ a, ∀ e, R e (f e a)) l → ∀ e, R e (fold_left f l e).
Proof.
  induction 1 as [|a l Ha _ IH]; intros e; simpl; [done|].
  etransitivity; [apply Ha|apply IH].
Qed.

Ltac related_step :=
  match goal with
  | |- R ?e ?e => reflexivity
  | H : expr_related ?x |- R _ (collect_expr self ?x _ ?e' _) => transitivity e'; [|apply H]
  | H : block_related ?x |- R _ (collect_block self ?x ?e') => transitivity e'; [|apply H]
  | |- R _ (need _ _ ?e') => transitivity e'; [|apply Hneed]
  | |- R _ (push_closure _ _ ?e') => transitivity e'; [|by apply Hclosure]
  | |- R _ (fold_left _ _ ?e') => transitivity e'; [|apply related_fold]
  | |- R _ (match ?o with Some _ => _ | None => _ end) => is_var o; destruct o as [?|]
  | H : on_some _ (Some _) |- _ => cbn [on_some] in H
  end.

Ltac related :=
  intros; cbn [collect_expr collect_statement collect_block collect_body]; repeat related_step.

Lemma call_related callee arguments :
  expr_related (node callee) → Forall (λ a : Expr, expr_related (node a)) arguments →
  expr_related (ECall callee arguments).
Proof.
  intros Hc Ha sp effects b. cbn [collect_expr].
  set (after := fold_left _ arguments effects).
  assert (R effects after).
  { apply related_fold. eapply Forall_impl; [exact Ha|]. intros a H e. apply H. }
  pose proof (Hcallee (node callee) sp after) as H1.
  destruct (collect_callee self (node callee) sp after) as [effects' []]; simpl in H1.
  - by transitivity after.
  - transitivity effects'; [by transitivity after|]. apply Hc.
Qed.

Lemma identifier_related name : expr_related (EIdentifier name).
Proof.
  intros sp effects []; cbn [collect_expr]; [done|].
  destruct (collector_functions self !! name) eqn:E; [|done].
  case_bool_decide; [apply Hneed|by eapply Hvalue].
Qed.

Lemma collect_related :
  (∀ e, expr_related e) ∧
  (∀ o : DataOrder, let '(mkDataOrder key _ _) := o in expr_related (node key)) ∧
  (∀ body, R no_effects (collect_body self body)) ∧
  (∀ f : StructFieldValue, let '(mkStructFieldValue _ _ v) := f in expr_related (node v)) ∧
  (∀ a : MatchArm, let '(mkMatchArm _ _ guard v _) := a in
     on_some (λ g : Expr, expr_related (node g)) guard ∧ expr_related (node v)) ∧
  (∀ s effects, R effects (collect_statement self s effects)) ∧
  (∀ b, block_related b).
Proof.
  apply syntax_mind; intros; nested; try done; auto using call_related, identifier_related;
    try (intros ?); related.
  all: try (eapply Forall_impl; [eassumption|]; intros ? Hx ?; by apply Hx).
  - destruct d; related.
  - destruct d; related.
  - eapply Forall_impl; [eassumption|]. intros [] Hx e. apply Hx.
  - eapply Forall_impl; [eassumption|]. intros [?? guard ??] [Hg Hv] e. related.
  - apply Forall_true. intros use e. apply Hneed.
Qed.
End collecting.

(** ** Targets of collected calls *)

Section targets.
Context (n : nat).

Fixpoint targets_in (e : DirectEffects) : Prop :=
  match e with
  | mkDirectEffects _ calls values closures =>
    Forall (λ call, (fst call < n)%nat) calls ∧ Forall (λ value, (fst value < n)%nat) values ∧
    foldr and True (map (λ '(_, c), targets_in c) closures)
  end.

Context (self : Collector).
Context (Hfunctions : ∀ name t, collector_functions self !! name = Some t → (t < n)%nat).
Context (Hmethods : ∀ name ts, collector_methods self !! name = Some ts →
                               Forall (λ t, (t < n)%nat) ts).

Definition keeps_targets (e e' : DirectEffects) : Prop := targets_in e → targets_in e'.
#[local] Instance keeps_targets_preorder : PreOrder keeps_targets.
Proof. split; [intros e H; exact H|intros e1 e2 e3 H1 H2 H; exact (H2 (H1 H))]. Qed.

Lemma targets_need c sp e : keeps_targets e (need c sp e).
Proof. destruct e. intros H. exact H. Qed.

Lemma targets_calls l e :
  Forall (λ call, (fst call < n)%nat) l → keeps_targets e (push_calls l e).
Proof. intros Hl. destruct e. intros (? & ? & ?). split; [|done]. by apply Forall_app. Qed.

Lemma targets_callee callee sp e : keeps_targets e (fst (collect_callee self callee sp e)).
Proof.
  assert (Hother : keeps_targets e (fst (match static_method callee with
    | Some (owner, method) =>
      match intrinsic_capability owner method with
      | Some capability => (need capability sp e, false)
      | None =>
        match collector_methods self !! method with
        | Some targets => (push_calls (map (λ target, (target, sp)) targets) e, false)
        | None => (e, false)
        end
      end
    | None => (e, false) end))).
  { destruct (static_method callee) as [[owner method]|]; [|done].
    destruct (intrinsic_capability owner method); [apply targets_need|].
    destruct (collector_methods self !! method) eqn:E; [|done].
    apply targets_calls, Forall_map. by eapply Hmethods. }
  destruct callee; try exact Hother. simpl.
  destruct (collector_functions self !! name) eqn:E; [|done].
  apply targets_calls, Forall_singleton. by eapply Hfunctions.
Qed.

Lemma targets_value name t sp e :
  collector_functions self !! name = Some t → keeps_targets e (push_function_value t sp e).
Proof.
  intros Ht. destruct e. intros (? & ? & ?). split; [done|]. split; [|done].
  apply Forall_app. split; [done|]. apply Forall_singleton. by eapply Hfunctions.
Qed.

Lemma targets_closure sp c e : keeps_targets no_effects c → keeps_targets e (push_closure sp c e).
Proof.
  intros Hc. destruct e as [? ? ? closures]. intros (? & ? & H). split; [done|]. split; [done|].
  simpl. rewrite map_app. assert (targets_in c) by (apply Hc; repeat constructor).
  induction closures as [|[] l IH]; simpl in *; tauto.
Qed.

Lemma targets_node node : targets_in (collect_node self node).
Proof.
  unfold collect_node. destruct (fn_external (node_function node)); [by repeat constructor|].
  destruct (collect_related self keeps_targets) as (_ & _ & _ & _ & _ & _ & H);
    auto using targets_need, targets_callee, targets_closure.
  - intros. by eapply targets_value.
  - apply H. by repeat constructor.
Qed.
End targets.

(** ** The collector of a program *)

Lemma imap_fst_bound {A} (k n : nat) (l : list A) :
  (k + length l <= n)%nat → Forall (λ p, (fst p < n)%nat) (imap (λ i a, (k + i, a)%nat) l).
Proof.
  intros Hn. apply Forall_lookup. intros i p Hp. rewrite list_lookup_imap in Hp.
  destruct (l !! i) eqn:E; [|done]. injection Hp as <-. apply lookup_lt_Some in E. simpl. lia.
Qed.

Lemma functions_bound (l : list (nat * FunctionNode)) n :
  Forall (λ p, (fst p < n)%nat) l → ∀ m : gmap string nat,
  (∀ name t, m !! name = Some t → (t < n)%nat) →
  ∀ name t, fold_left (λ m '(i, f), <[fn_name (node_function f) := i]> m) l m !! name = Some t →
  (t < n)%nat.
Proof.
  induction 1 as [|[i f] l Hi _ IH]; intros m Hm; simpl; [done|]. apply IH.
  intros name t. rewrite lookup_insert. case_decide; [intros [= <-]; exact Hi|apply Hm].
Qed.

Lemma methods_bound (l : list (nat * FunctionNode)) n :
  Forall (λ p, (fst p < n)%nat) l → ∀ m : gmap string (list nat),
  (∀ name ts, m !! name = Some ts → Forall (λ t, (t < n)%nat) ts) →
  ∀ name ts,
    fold_left (λ m '(i, f),
        let name := fn_name (node_function f) in <[name := default [] (m !! name) ++ [i]]> m)
      l m !! name = Some ts →
  Forall (λ t, (t < n)%nat) ts.
Proof.
  induction 1 as [|[i f] l Hi _ IH]; intros m Hm; simpl; [done|]. apply IH.
  intros name ts. rewrite lookup_insert. case_decide as Hname; [|apply Hm].
  intros [= <-]. apply Forall_app. split; [|by apply Forall_singleton].
  destruct (m !! fn_name (node_function f)) eqn:E; [|constructor]. by eapply Hm.
Qed.

Definition program_direct (program : Program) : list DirectEffects :=
  map (collect_node (program_collector program)) (program_nodes program).
Definition program_declared (program : Program) : list Contract :=
  map declared_contract (program_nodes program).
Definition program_needs (program : Program) : nat → Capability → Prop :=
  needs (program_declared program) (program_direct program).

Lemma program_targets program :
  Forall (targets_in (length (program_nodes program))) (program_direct program).
Proof.
  apply Forall_map, Forall_true. intros f. apply targets_node.
  - intros name t. apply functions_bound; [|done].
    apply (imap_fst_bound 0). unfold program_nodes. rewrite length_app. lia.
  - intros name ts. apply methods_bound; [|done].
    apply imap_fst_bound. unfold program_nodes, function_nodes. rewrite length_app, length_map. lia.
Qed.

Lemma program_calls program :
  Forall (calls_in (length (program_direct program))) (program_direct program).
Proof.
  unfold program_direct at 1. rewrite length_map. eapply Forall_impl; [apply program_targets|].
  by intros [] [? _].
Qed.

(** The loop of [analyze]. *)
Lemma program_propagates program :
  ∃ actual, propagate (program_declared program) (propagation_fuel (length (program_nodes program)))
              (program_direct program) (map direct_capabilities (program_direct program))
            = Ok actual ∧
    length actual = length (program_nodes program) ∧
    ∀ i m c, actual !! i = Some m → (is_Some (m !! c) ↔ program_needs program i c).
Proof.
  replace (length (program_nodes program)) with (length (program_direct program))
    by apply length_map.
  apply propagate_spec.
  - unfold program_declared, program_direct. by rewrite !length_map.
  - apply length_map.
  - apply program_calls.
  - intros i m c Hm Hc. rewrite list_lookup_fmap in Hm. apply fmap_Some in Hm as (e & He & ->).
    by eapply needs_direct.
  - intros i e m c He Hm Hc. rewrite list_lookup_fmap, He in Hm. by injection Hm as <-.
  - unfold propagation_fuel. lia.
Qed.

(** ** The checks *)

(** The contract of function [i]: the declared one, or what it needs. *)
Definition has_contract (program : Program) (i : nat) (c : Capability) : Prop :=
  match program_declared program !! i with
  | Some (Some allowed) => c ∈ allowed
  | Some None => program_needs program i c
  | None => False
  end.

(** No function value and no closure of [e] has or calls a function with a capability. *)
Fixpoint effect_free (contract : nat → Capability → Prop) (e : DirectEffects) : Prop :=
  match e with
  | mkDirectEffects _ _ values closures =>
    (∀ t sp c, (t, sp) ∈ values → ¬ contract t c) ∧
    foldr and True
      (map (λ '(_, closure),
              direct_capabilities closure = ∅ ∧
              (∀ t sp c, (t, sp) ∈ direct_calls closure → ¬ contract t c) ∧
              effect_free contract closure) closures)
  end.

Lemma check_contract_spec label allowed (actual : CapabilityMap) :
  match check_contract label (Some allowed) actual with
  | Ok _ => ∀ c, is_Some (actual !! c) → c ∈ allowed
  | Err d => ∃ c sp, actual !! c = Some sp ∧ c ∉ allowed ∧ d = contract_error label c sp
  | Panic => False
  end.
Proof.
  unfold check_contract. assert (H : ∀ c, c ∈ Capability_ALL) by apply in_ALL.
  assert (Hgen : ∀ l, match for_each (λ _ c, match actual !! c with
      | Some sp => if bool_decide (c ∈ allowed) then Ok tt else Err (contract_error label c sp)
      | None => Ok tt end) l tt with
    | Ok _ => ∀ c, c ∈ l → is_Some (actual !! c) → c ∈ allowed
    | Err d => ∃ c sp, actual !! c = Some sp ∧ c ∉ allowed ∧ d = contract_error label c sp
    | Panic => False end).
  { induction l as [|c l IH]; cbn [for_each]; [by intros ? ?%not_elem_of_nil|].
    destruct (actual !! c) as [sp|] eqn:E; cbn; [case_bool_decide; cbn|].
    - destruct (for_each _ l tt) as [[]|d|]; [|done|done].
      intros c' [->|?]%elem_of_cons ?; auto.
    - eauto.
    - destruct (for_each _ l tt) as [[]|d|]; [|done|done].
      intros c' [->|?]%elem_of_cons [? ?]; [congruence|eauto]. }
  specialize (Hgen Capability_ALL). destruct (for_each _ Capability_ALL tt) as [[]|d|]; auto.
Qed.

Lemma check_contracts_spec nodes : ∀ declared actual,
  length declared = length nodes → length actual = length nodes →
  match check_contracts nodes declared actual with
  | Ok _ => ∀ i allowed m c,
      declared !! i = Some (Some allowed) → actual !! i = Some m → is_Some (m !! c) → c ∈ allowed
  | Err d => ∃ i n allowed m c sp,
      nodes !! i = Some n ∧ declared !! i = Some (Some allowed) ∧ actual !! i = Some m ∧
      m !! c = Some sp ∧ c ∉ allowed ∧ d = contract_error (node_label n) c sp
  | Panic => False
  end.
Proof.
  induction nodes as [|n nodes IH]; intros [|d declared] [|a actual]; try done.
  intros [= Hd] [= Ha]. cbn [check_contracts]. specialize (IH _ _ Hd Ha).
  assert (Hhead : match check_contract (node_label n) d a with
    | Ok _ => ∀ allowed c, d = Some allowed → is_Some (a !! c) → c ∈ allowed
    | Err e => ∃ allowed c sp, d = Some allowed ∧ a !! c = Some sp ∧ c ∉ allowed
                               ∧ e = contract_error (node_label n) c sp
    | Panic => False end).
  { destruct d as [allowed|]; [|done]. pose proof (check_contract_spec (node_label n) allowed a) as H.
    destruct (check_contract _ _ a); [|destruct H as (c & sp & H); by exists allowed, c, sp|done].
    intros ? c [= <-]. apply H. }
  destruct (check_contract (node_label n) d a) as [[]|e|]; cbn; [| |done].
  - destruct (check_contracts nodes declared actual) as [[]|e|]; [| |done].
    + intros [|i] allowed m c Hd' Ha' Hc; simpl in *; [simplify_eq; eauto|eauto].
    + destruct IH as (i & n' & allowed & m & c & sp & H). by exists (S i), n', allowed, m, c, sp.
  - destruct Hhead as (allowed & c & sp & -> & H). by exists 0%nat, n, allowed, a, c, sp.
Qed.

Section hidden.
Context (contracts : list CapabilitySet) (nodes : list FunctionNode).
Context (K : nat → Capability → Prop).
Context (HK : ∀ i s c, contracts !! i = Some s → (c ∈ s ↔ K i c)).
Context (Hlength : length contracts = length nodes).

Lemma contract_empty t s : contracts !! t = Some s → (s = ∅ ↔ ∀ c, ¬ K t c).
Proof.
  intros Ht. split.
  - intros -> c Hc. apply (HK t ∅ c Ht) in Hc. set_solver.
  - intros H. apply set_eq. intros c. rewrite (HK t s c Ht). set_solver.
Qed.

Lemma check_function_value_spec t sp :
  (t < length nodes)%nat →
  match check_function_value contracts nodes (t, sp) with
  | Ok _ => ∀ c, ¬ K t c
  | Err _ => ¬ ∀ c, ¬ K t c
  | Panic => False
  end.
Proof.
  intros Ht. unfold check_function_value.
  destruct (lookup_lt_is_Some_2 contracts t ltac:(lia)) as [s Hs]. rewrite Hs. cbn.
  destruct (lookup_lt_is_Some_2 nodes t Ht) as [n Hn]. rewrite Hn.
  case_bool_decide as E; cbn; by rewrite <- (contract_empty t s Hs).
Qed.

Lemma closure_required_spec closure :
  calls_in (length nodes) closure →
  ∃ required, closure_required contracts closure = Ok required ∧
    ∀ c, c ∈ required
         ↔ is_Some (direct_capabilities closure !! c)
           ∨ ∃ t sp, (t, sp) ∈ direct_calls closure ∧ K t c.
Proof.
  intros Hcalls. unfold closure_required.
  assert (Hgen : ∀ l (acc : CapabilitySet), Forall (λ call : nat * Span, (fst call < length nodes)%nat) l →
    ∃ required, for_each (require_call contracts) l acc = Ok required ∧
      ∀ c, c ∈ required ↔ c ∈ acc ∨ ∃ t sp, (t, sp) ∈ l ∧ K t c).
  { induction l as [|[t sp] l IH]; intros acc Hl.
    - exists acc. split; [done|]. intros c. split; [auto|].
      intros [?|(? & ? & []%not_elem_of_nil & _)]; done.
    - apply Forall_cons in Hl as [Ht Hl]. simpl in Ht.
      destruct (lookup_lt_is_Some_2 contracts t ltac:(lia)) as [s Hs].
      destruct (IH (acc ∪ s) Hl) as (required & Hr & Hc). exists required.
      assert (Hcall : require_call contracts acc (t, sp) = Ok (acc ∪ s))
        by (unfold require_call; cbn [fst]; by rewrite Hs).
      cbn [for_each]. rewrite Hcall. split; [exact Hr|]. intros c.
      rewrite Hc, elem_of_union, (HK t s c Hs). split.
      + intros [[?|?]|(t' & sp' & ? & ?)]; [tauto|right; exists t, sp; split; [left|done]|].
        right. exists t', sp'. split; [by right|done].
      + intros [?|(t' & sp' & [Heq|?]%elem_of_cons & ?)]; [tauto|simplify_eq; tauto|eauto]. }
  destruct (Hgen (direct_calls closure)
    (list_to_set (capability_keys (direct_capabilities closure))) Hcalls) as (r & -> & Hr).
  exists r. split; [done|]. intros c. by rewrite Hr, elem_of_list_to_set, elem_of_keys.
Qed.

(** What [validate_hidden_effects] answers about [P]. *)
Definition decides (m : outcome Diagnostic unit) (P : Prop) : Prop :=
  match m with Ok _ => P | Err _ => ¬ P | Panic => False end.

Definition closure_free (closure : DirectEffects) : Prop :=
  direct_capabilities closure = ∅ ∧
  (∀ t sp c, (t, sp) ∈ direct_calls closure → ¬ K t c) ∧ effect_free K closure.

Lemma required_empty closure (required : CapabilitySet) :
  (∀ c, c ∈ required ↔ is_Some (direct_capabilities closure !! c)
                       ∨ ∃ t sp, (t, sp) ∈ direct_calls closure ∧ K t c) →
  required = ∅ ↔ direct_capabilities closure = ∅
                 ∧ ∀ t sp c, (t, sp) ∈ direct_calls closure → ¬ K t c.
Proof.
  intros H. split.
  - intros ->. split.
    + apply map_empty. intros c. apply eq_None_not_Some. intros Hc.
      apply (not_elem_of_empty (C := CapabilitySet) c), H. by left.
    + intros t sp c Ht Hc. apply (not_elem_of_empty (C := CapabilitySet) c), H. right. eauto.
  - intros [Hcaps Hcalls]. apply set_eq. intros c. rewrite H, Hcaps, lookup_empty.
    split; [|set_solver]. intros [[? ?]|(t & sp & Ht & Hc)]; [done|].
    by destruct (Hcalls t sp c Ht).
Qed.

Lemma closure_check_spec sp closure :
  targets_in (length nodes) closure →
  decides (validate_hidden_effects contracts nodes closure) (effect_free K closure) →
  decides (required ← closure_required contracts closure;
           _ ← bail_if (negb (bool_decide (required = ∅))) (closure_error required sp);
           validate_hidden_effects contracts nodes closure)
    (closure_free closure).
Proof.
  intros Ht Hv. destruct (closure_required_spec closure) as (required & -> & Hr).
  { by destruct closure, Ht. }
  apply required_empty in Hr. rewrite bind_Ok. unfold closure_free.
  case_bool_decide as E; cbn.
  - apply Hr in E as [Hc Hcalls]. unfold decides in *.
    destruct (validate_hidden_effects contracts nodes closure); [by split_and!|by intros (_ & _ & ?)|done].
  - intros (Hc & Hcalls & _). apply E, Hr. by split.
Qed.

Lemma for_each_decides {A} (check : A → outcome Diagnostic unit) (P : A → Prop) l :
  Forall (λ a, decides (check a) (P a)) l →
  decides (for_each (λ _ a, check a) l tt) (Forall P l).
Proof.
  induction 1 as [|a l Ha _ IH]; [constructor|]. unfold decides in *. cbn [for_each].
  destruct (check a) as [[]|e|]; cbn; [|by intros [? _]%Forall_cons|done].
  destruct (for_each _ l tt) as [[]|e|]; [by constructor| |done].
  by intros [_ ?]%Forall_cons.
Qed.

Lemma decides_iff m P Q : (P ↔ Q) → decides m P → decides m Q.
Proof. unfold decides. destruct m; tauto. Qed.

Lemma decides_and m m' P Q : decides m P → decides m' Q → decides (_ ← m; m') (P ∧ Q).
Proof. unfold decides. destruct m as [[]| |]; cbn; [|tauto|done]. destruct m'; tauto. Qed.

Lemma validate_spec e :
  targets_in (length nodes) e →
  decides (validate_hidden_effects contracts nodes e) (effect_free K e).
Proof.
  induction e as [caps calls values closures IH] using effects_induction.
  intros (_ & Hvalues & Hclosures). cbn [validate_hidden_effects effect_free]. apply decides_and.
  - eapply decides_iff; [|apply (for_each_decides _ (λ v, ∀ c, ¬ K (fst v) c))].
    + rewrite Forall_forall. split; [intros H t sp c Ht; by apply (H (t, sp))|].
      intros H [t sp] Ht c. by eapply H.
    + eapply Forall_impl; [exact Hvalues|]. intros [t sp] Ht. by apply check_function_value_spec.
  - eapply decides_iff; [|apply (for_each_decides _ (λ p, closure_free (snd p)))].
    + induction closures as [|[sp c] l IHl]; simpl; [done|]. rewrite Forall_cons.
      inversion IH; subst. destruct Hclosures. rewrite IHl by done. done.
    + induction closures as [|[sp c] l IHl]; [constructor|].
      apply Forall_cons in IH as [Hc IH]. destruct Hclosures as [Hcl Hclosures].
      constructor; [|by apply IHl]. apply closure_check_spec; [done|]. by apply Hc.
Qed.
End hidden.

(** ** The analysis *)

Definition direct_contracts_hold (program : Program) : Prop := ∀ i allowed c,
  program_declared program !! i = Some (Some allowed) → program_needs program i c → c ∈ allowed.
Definition direct_hidden_free (program : Program) : Prop :=
  Forall (effect_free (has_contract program)) (program_direct program).

(** The entry of function [i] in the report. *)
Definition reported (program : Program) (report : EffectReport) : Prop :=
  length (effect_functions report) = length (program_nodes program) ∧
  ∀ i f n, effect_functions report !! i = Some f → program_nodes program !! i = Some n →
    effects_name f = node_label n ∧
    effects_explicit f = bool_decide (is_Some (declared_contract n)) ∧
    ∀ c, c ∈ effects_capabilities f ↔ has_contract program i c.

Lemma contracts_spec program actual i s c :
  length actual = length (program_nodes program) →
  (∀ i m c, actual !! i = Some m → (is_Some (m !! c) ↔ program_needs program i c)) →
  zip_with contract_of (program_declared program) actual !! i = Some s →
  c ∈ s ↔ has_contract program i c.
Proof.
  intros Hl Hneeds Hs. apply lookup_zip_with_Some in Hs as (d & m & -> & Hd & Hm).
  unfold has_contract. rewrite Hd. destruct d as [allowed|]; simpl; [done|].
  by rewrite elem_of_list_to_set, elem_of_keys, (Hneeds i m c Hm).
Qed.

Lemma report_spec program actual :
  length actual = length (program_nodes program) →
  (∀ i m c, actual !! i = Some m → (is_Some (m !! c) ↔ program_needs program i c)) →
  reported program
    (mkEffectReport
       (zip_with (λ n contract,
            mkFunctionEffects (node_label n) (bool_decide (is_Some (declared_contract n)))
              (capability_elements contract))
          (program_nodes program) (zip_with contract_of (program_declared program) actual))).
Proof.
  intros Hl Hneeds. split; simpl.
  - rewrite !length_zip_with. unfold program_declared. rewrite length_map. lia.
  - intros i f n Hf Hn. apply lookup_zip_with_Some in Hf as (n' & s & -> & Hn' & Hs).
    simplify_eq. split; [done|]. split; [done|]. intros c. simpl.
    rewrite elem_of_elements. by eapply contracts_spec.
Qed.

(** The analysis in terms of the collected effects: it terminates without panicking, accepts
    exactly when the contracts allow what is needed and nothing is hidden, and reports the
    contracts. *)
Lemma analyze_decides_needs (program : Program) :
  match analyze program with
  | Ok report => direct_contracts_hold program ∧ direct_hidden_free program ∧ reported program report
  | Err d =>
    (∃ i n allowed c sp,
       program_nodes program !! i = Some n ∧ declared_contract n = Some allowed ∧
       program_needs program i c ∧ c ∉ allowed ∧ d = contract_error (node_label n) c sp)
    ∨ (direct_contracts_hold program ∧ ¬ direct_hidden_free program)
  | Panic => False
  end.
Proof.
  unfold analyze. fold (program_direct program) (program_declared program).
  destruct (program_propagates program) as (actual & -> & Hl & Hneeds). rewrite bind_Ok.
  assert (Hd : length (program_declared program) = length (program_nodes program)) by apply length_map.
  pose proof (check_contracts_spec (program_nodes program) _ actual Hd Hl) as Hcheck.
  destruct (check_contracts _ _ actual) as [[]|d|]; cbn; [| |done].
  2:{ left. destruct Hcheck as (i & n & allowed & m & c & sp & Hn & Ha & Hm & Hc & Hnot & ->).
      exists i, n, allowed, c, sp. split; [done|].
      unfold program_declared in Ha. rewrite list_lookup_fmap, Hn in Ha. injection Ha as Ha.
      split; [done|]. split; [|done]. apply (Hneeds i m c Hm). by exists sp. }
  assert (Hhold : direct_contracts_hold program).
  { intros i allowed c Ha Hc. apply lookup_lt_Some in Ha as Hlt.
    destruct (lookup_lt_is_Some_2 actual i ltac:(lia)) as [m Hm].
    eapply Hcheck; [done|done|]. by apply (Hneeds i m c Hm). }
  set (contracts := zip_with contract_of (program_declared program) actual).
  assert (Hcl : length contracts = length (program_nodes program)).
  { unfold contracts. rewrite length_zip_with. lia. }
  assert (Hhidden : decides (for_each (λ _ effects,
      validate_hidden_effects contracts (program_nodes program) effects) (program_direct program) tt)
    (direct_hidden_free program)).
  { apply for_each_decides. eapply Forall_impl; [apply program_targets|]. intros e He.
    apply validate_spec; [|done|done]. intros. by eapply contracts_spec. }
  unfold decides in Hhidden.
  destruct (for_each _ (program_direct program) tt) as [[]|d|]; cbn; [|by right|done].
  split; [done|]. split; [done|]. by apply report_spec.
Qed.
