(* ===== verification/EffectsCollect.v ===== *)
(** * Capability effects: the analysis against the document

    The effects [effects.rs] collects for a piece of code are those of its atoms
    ([EffectsSpec]), except that a method invoked on a receiver that is not a plain name is
    not counted.  With the results on propagation this decides authority. *)

From S2P Require Import Prelude Machine Diagnostics Ast Effects EffectsSpec EffectsProps.
#[local] Open Scope string_scope.
#[local] Open Scope list_scope.

(** The [match] of the code is the table of the document. *)
Lemma intrinsic_acquired owner method : intrinsic_capability owner method = acquired owner method.
Proof.
  unfold intrinsic_capability, acquired, authority_sources, source_matches, one_of.
  cbn [existsb List.find].
  repeat (match goal with
          | |- context [String.eqb owner ?s] => destruct (String.eqb_spec owner s) as [->|]
          end; [cbn; by repeat case_match|]).
  done.
Qed.

(** ** Collected effects are those of the atoms *)

Section collector.
Context (self : Collector).

(** What one atom adds. *)
Definition atom_capability (c : Capability) (a : Atom) : Prop :=
  match a with
  | Acquires c' => c' = c
  | Mentions name => c = Foreign ∧ name ∈ collector_external_functions self
      ∧ is_Some (collector_functions self !! name)
  | _ => False
  end.
Definition atom_call (t : nat) (a : Atom) : Prop :=
  match a with
  | Calls name => collector_functions self !! name = Some t
  | Invokes true method => ∃ ts, collector_methods self !! method = Some ts ∧ t ∈ ts
  | _ => False
  end.
Definition atom_value (t : nat) (a : Atom) : Prop :=
  match a with
  | Mentions name =>
    collector_functions self !! name = Some t ∧ name ∉ collector_external_functions self
  | _ => False
  end.
Definition enclosed (l : list Atom) : list (list Atom) :=
  omap (λ a, match a with Encloses body => Some body | _ => None end) l.

Definition some_atom (P : Atom → Prop) (l : list Atom) : Prop := ∃ a, a ∈ l ∧ P a.

Inductive shows : DirectEffects → list Atom → Prop :=
| shows_intro d l :
    (∀ c, is_Some (direct_capabilities d !! c) ↔ some_atom (atom_capability c) l) →
    (∀ t, (∃ sp, (t, sp) ∈ direct_calls d) ↔ some_atom (atom_call t) l) →
    (∀ t, (∃ sp, (t, sp) ∈ direct_function_values d) ↔ some_atom (atom_value t) l) →
    Forall2 shows (direct_closures d).*2 (enclosed l) → shows d l.

Lemma shows_parts d l :
  shows d l →
  (∀ c, is_Some (direct_capabilities d !! c) ↔ some_atom (atom_capability c) l)
  ∧ (∀ t, (∃ sp, (t, sp) ∈ direct_calls d) ↔ some_atom (atom_call t) l)
  ∧ (∀ t, (∃ sp, (t, sp) ∈ direct_function_values d) ↔ some_atom (atom_value t) l)
  ∧ Forall2 shows (direct_closures d).*2 (enclosed l).
Proof. by intros []. Qed.

Lemma some_app P l1 l2 : some_atom P (l1 ++ l2) ↔ some_atom P l1 ∨ some_atom P l2.
Proof. unfold some_atom. setoid_rewrite elem_of_app. naive_solver. Qed.
Lemma some_one P a : some_atom P [a] ↔ P a.
Proof. unfold some_atom. setoid_rewrite list_elem_of_singleton. naive_solver. Qed.
Lemma enclosed_app l1 l2 : enclosed (l1 ++ l2) = enclosed l1 ++ enclosed l2.
Proof. apply omap_app. Qed.

Lemma shows_nil : shows no_effects [].
Proof.
  split; [intros c|intros t..|constructor]; unfold some_atom; simpl.
  - rewrite lookup_empty. split; [by intros []|]. by intros (a & []%not_elem_of_nil & _).
  - split; [by intros (sp & []%not_elem_of_nil)|]. by intros (a & []%not_elem_of_nil & _).
  - split; [by intros (sp & []%not_elem_of_nil)|]. by intros (a & []%not_elem_of_nil & _).
Qed.

(** An effect recorded for an atom, by its change of each of the four parts. *)
Lemma shows_snoc d d' l a :
  shows d l →
  (∀ c, is_Some (direct_capabilities d' !! c)
        ↔ is_Some (direct_capabilities d !! c) ∨ atom_capability c a) →
  (∀ t, (∃ sp, (t, sp) ∈ direct_calls d') ↔ (∃ sp, (t, sp) ∈ direct_calls d) ∨ atom_call t a) →
  (∀ t, (∃ sp, (t, sp) ∈ direct_function_values d')
        ↔ (∃ sp, (t, sp) ∈ direct_function_values d) ∨ atom_value t a) →
  (∃ l', Forall2 shows l' (enclosed [a]) ∧ (direct_closures d').*2 = (direct_closures d).*2 ++ l') →
  shows d' (l ++ [a]).
Proof.
  intros [d0 l0 Hc Ht Hv Hcl] H1 H2 H3 (l' & Hl' & Hd').
  split; intros; rewrite ?some_app, ?some_one, ?H1, ?H2, ?H3, ?Hc, ?Ht, ?Hv; try done.
  rewrite Hd', enclosed_app. by apply Forall2_app.
Qed.

(** An atom without effect. *)
Lemma shows_skip d l a :
  shows d l → (∀ c, ¬ atom_capability c a) → (∀ t, ¬ atom_call t a) → (∀ t, ¬ atom_value t a) →
  enclosed [a] = [] → shows d (l ++ [a]).
Proof.
  intros Hs Hc Ht Hv He. eapply shows_snoc; [exact Hs|intros..|]; [naive_solver..|].
  exists []. rewrite He, app_nil_r. by split.
Qed.

Ltac same_part := first [ naive_solver | exists []; rewrite ?app_nil_r; split; [constructor|done] ].

Lemma shows_need c sp d l : shows d l → shows (need c sp d) (l ++ [Acquires c]).
Proof.
  intros Hs. eapply shows_snoc; [exact Hs|intros..|]; simpl; [|same_part..].
  rewrite or_insert_Some. naive_solver.
Qed.

Lemma shows_calls a ts sp d l :
  shows d l → (∀ c, ¬ atom_capability c a) → (∀ t, atom_call t a ↔ t ∈ ts) →
  (∀ t, ¬ atom_value t a) → enclosed [a] = [] →
  shows (push_calls (map (λ t, (t, sp)) ts) d) (l ++ [a]).
Proof.
  intros Hs Hc Ht Hv He. eapply shows_snoc; [exact Hs|intros..|]; [naive_solver| |naive_solver|].
  - simpl. rewrite Ht. setoid_rewrite elem_of_app. setoid_rewrite list_elem_of_fmap. naive_solver.
  - exists []. rewrite He, app_nil_r. split; [constructor|done].
Qed.

Lemma shows_value name t sp d l :
  shows d l → collector_functions self !! name = Some t →
  shows (if bool_decide (name ∈ collector_external_functions self) then need Foreign sp d
         else push_function_value t sp d) (l ++ [Mentions name]).
Proof.
  intros Hs Ht. case_bool_decide; (eapply shows_snoc; [exact Hs|intros..|]); simpl; try same_part.
  - rewrite or_insert_Some. naive_solver.
  - setoid_rewrite elem_of_app. setoid_rewrite list_elem_of_singleton. naive_solver.
Qed.

Lemma shows_closure sp closure body d l :
  shows d l → shows closure body → shows (push_closure sp closure d) (l ++ [Encloses body]).
Proof.
  intros Hs Hb. eapply shows_snoc; [exact Hs|intros..|]; simpl; [naive_solver..|].
  exists [closure]. split; [constructor; [done|constructor]|]. by rewrite fmap_app.
Qed.

(** What a callee that is not a function name adds besides the call. *)
Definition callee_atoms (e : Expression) : list Atom :=
  match e with EIdentifier _ => [] | _ => expr_atoms e end.

Definition shown_expr (e : Expression) : Prop := ∀ sp d (b : bool) l, shows d l →
  shows (collect_expr self e sp d b) (l ++ if b then callee_atoms e else expr_atoms e).
Definition shown_block (b : Block) : Prop := ∀ d l, shows d l →
  shows (collect_block self b d) (l ++ block_atoms b).

(** A loop shows the atoms of every element. *)
Lemma shows_fold {A} (f : DirectEffects → A → DirectEffects) (atoms : A → list Atom) xs :
  Forall (λ x, ∀ d l, shows d l → shows (f d x) (l ++ atoms x)) xs →
  ∀ d l, shows d l → shows (fold_left f xs d) (l ++ flat_map atoms xs).
Proof.
  induction 1 as [|x xs Hx _ IH]; intros d l Hs; simpl; [by rewrite app_nil_r|].
  rewrite app_assoc. by apply IH, Hx.
Qed.

Lemma shown_exprs (es : list Expr) :
  Forall (λ e : Expr, shown_expr (node e)) es → ∀ d l, shows d l →
  shows (fold_left (λ d e, collect_expr self (node e) (span e) d false) es d)
    (l ++ flat_map (λ e : Expr, expr_atoms (node e)) es).
Proof.
  intros H. apply shows_fold. eapply Forall_impl; [exact H|]. intros e He d l Hs.
  by apply (He (span e) d false l).
Qed.

(** The callee of an operation. *)
Lemma shown_operation object operation fsp sp d l :
  shows d l →
  shows (collect_callee self (EFieldAccess object operation fsp) sp d).1
    (l ++ [operation_atom (node object) operation])
  ∧ (collect_callee self (EFieldAccess object operation fsp) sp d).2 = false.
Proof.
  intros Hs. unfold collect_callee, operation_atom, static_method.
  destruct (node object) as [| | | | | | | | | | |root| | | | | | | | | | | | | |];
    try (split; [|done]; apply shows_skip; [done|by intros ? []..|done]).
  rewrite intrinsic_acquired. destruct (acquired root operation) as [c|]; simpl.
  { split; [by apply shows_need|done]. }
  destruct (collector_methods self !! operation) as [ts|] eqn:E; (split; [|done]); simpl.
  - apply shows_calls; [done|by intros ? []| |by intros ? []|done]. intros t. simpl. naive_solver.
  - apply shows_skip; [done|by intros ? []| |by intros ? []|done].
    intros t (ts & Hts & _). congruence.
Qed.

Lemma shown_call callee arguments :
  shown_expr (node callee) → Forall (λ a : Expr, shown_expr (node a)) arguments →
  shown_expr (ECall callee arguments).
Proof.
  intros Hc Ha sp d b l Hs.
  replace (if b then callee_atoms (ECall callee arguments) else expr_atoms (ECall callee arguments))
    with (expr_atoms (ECall callee arguments)) by by destruct b.
  cbn [collect_expr expr_atoms]. rewrite app_assoc.
  pose proof (shown_exprs arguments Ha d l Hs) as Hargs.
  set (after := fold_left _ arguments d) in *. clearbody after. clear Hs.
  destruct (node callee) as [| | | | | | | | | | |name| |object operation fsp| | | | | | | | | | | |]
    eqn:Hcallee;
    try (cbn [collect_callee static_method]; apply (Hc (span callee) after true _ Hargs)).
  - cbn [collect_callee]. destruct (collector_functions self !! name) as [t|] eqn:E; simpl.
    + apply (shows_calls (Calls name) [t]); [done|by intros ? []| |by intros ? []|done].
      intros t'. simpl. rewrite list_elem_of_singleton. naive_solver.
    + apply shows_skip; [done|by intros ? []| |by intros ? []|done]. simpl. congruence.
  - destruct (shown_operation object operation fsp sp after _ Hargs) as [H1 H2].
    destruct (collect_callee self _ sp after) as [d' complete]. simpl in H1, H2. subst complete.
    rewrite cons_middle, app_assoc. exact (Hc (span callee) d' true _ H1).
Qed.

Ltac show_step :=
  match goal with
  | |- shows _ (_ ++ []) => rewrite app_nil_r
  | |- shows _ (_ ++ (_ ++ _)) => rewrite app_assoc
  | |- shows _ (_ ++ optional_atoms _ ?o) =>
      is_var o; destruct o as [?|]; cbn [optional_atoms on_some] in *
  | H : shown_expr ?x |- shows (collect_expr self ?x ?sp ?d false) (?l ++ expr_atoms ?x) =>
      apply (H sp d false l)
  | H : shown_block ?x |- shows (collect_block self ?x _) (_ ++ block_atoms ?x) => apply H
  | H : shows ?d ?l |- shows ?d ?l => exact H
  end.

Lemma shown_match value arms :
  shown_expr (node value) →
  Forall (λ a : MatchArm, let '(mkMatchArm _ _ guard v _) := a in
    on_some (λ g : Expr, shown_expr (node g)) guard ∧ shown_expr (node v)) arms →
  shown_expr (EMatch value arms).
Proof.
  intros Hv Ha sp d b l Hs.
  replace (if b then callee_atoms (EMatch value arms) else expr_atoms (EMatch value arms))
    with (expr_atoms (EMatch value arms)) by by destruct b.
  cbn [collect_expr expr_atoms]. rewrite app_assoc. apply shows_fold; [|repeat show_step].
  eapply Forall_impl; [exact Ha|]. intros [?? guard v ?] [Hguard Hbody] d' l' Hs'.
  repeat show_step.
Qed.

Lemma collect_shows :
  (∀ e, shown_expr e) ∧
  (∀ o : DataOrder, let '(mkDataOrder key _ _) := o in shown_expr (node key)) ∧
  (∀ body : ClosureBody, shows (collect_body self body)
     (match body with CExpression value => expr_atoms (node value) | CBlock b => block_atoms b end)) ∧
  (∀ f : StructFieldValue, let '(mkStructFieldValue _ _ v) := f in shown_expr (node v)) ∧
  (∀ a : MatchArm, let '(mkMatchArm _ _ guard v _) := a in
     on_some (λ g : Expr, shown_expr (node g)) guard ∧ shown_expr (node v)) ∧
  (∀ s d l, shows d l → shows (collect_statement self s d) (l ++ statement_atoms s)) ∧
  (∀ b, shown_block b).
Proof.
  apply syntax_mind; intros; nested; try done; auto using shown_call, shown_match.
  all: try (intros sp d b l Hs; destruct b; cbn [callee_atoms]);
    cbn [collect_expr expr_atoms collect_statement statement_atoms collect_body];
    repeat show_step.
  all: try done; try (by apply shown_exprs).
  all: try (rewrite cons_middle, app_assoc; repeat show_step; by apply shows_need).
  all: try (match goal with o : DataOrder |- _ => destruct o end; repeat show_step; done).
  all: try (by apply shows_closure).
  all: try (apply shows_fold; [|done]; eapply Forall_impl; [eassumption|];
            intros [] Hv d' l' Hs'; repeat show_step; done).
  - destruct (collector_functions self !! name) eqn:E; [by apply shows_value|].
    apply shows_skip; [done|intros ?; simpl; rewrite ?E..|done];
      [by intros (_ & _ & [])|by intros []|by intros [? _] ].
  - exact (H (span value) no_effects false [] shows_nil).
  - exact (H no_effects [] shows_nil).
  - replace (map (λ use, Acquires (use_capability use)) l0)
      with (flat_map (λ use, [Acquires (use_capability use)]) l0)
      by (clear; induction l0; simpl; congruence).
    apply shows_fold; [|done]. apply Forall_true. intros use d' l' Hs'. by apply shows_need.
  - intros d l Hs. cbn [collect_block block_atoms]. apply shows_fold; [|done].
    eapply Forall_impl; [exact H|]. intros st Hst d' l' Hs'. by apply Hst.
Qed.

Lemma node_shows n :
  fn_external (node_function n) = None →
  shows (collect_node self n) (function_atoms (node_function n)).
Proof.
  intros Hext. unfold collect_node, function_atoms. rewrite Hext.
  exact (proj2 (proj2 (proj2 (proj2 (proj2 (proj2 collect_shows))))) _ _ [] shows_nil).
Qed.
End collector.

(** ** The collector of a program *)

Lemma functions_fold (ns : list FunctionNode) name t :
  fold_left (λ m '(i, n), <[fn_name (node_function n) := i]> m) (imap pair ns)
    (∅ : gmap string nat) !! name = Some t
  ↔ ∃ n, ns !! t = Some n ∧ fn_name (node_function n) = name
      ∧ ∀ j n', (t < j)%nat → ns !! j = Some n' → fn_name (node_function n') ≠ name.
Proof.
  induction ns as [|n ns IH] using rev_ind; simpl.
  { rewrite lookup_empty. split; [done|]. by intros (n & Hn & _). }
  rewrite imap_app, fold_left_app. simpl. rewrite Nat.add_0_r, lookup_insert.
  case_decide as Hname; split.
  - intros [= <-]. exists n. split_and!; [by apply list_lookup_middle|done|].
    intros j n' Hj Hn'. apply lookup_lt_Some in Hn'. rewrite length_app in Hn'. simpl in Hn'. lia.
  - intros (n' & Hn' & Hname' & Hlater). f_equal.
    destruct (decide (t = length ns)) as [|Hne]; [done|]. exfalso.
    apply lookup_lt_Some in Hn'. rewrite length_app in Hn'. simpl in Hn'.
    apply (Hlater (length ns) n); [lia|by apply list_lookup_middle|done].
  - intros (n' & Hn' & Hname' & Hlater)%IH. exists n'.
    split_and!; [by apply lookup_app_l_Some|done|]. intros j n'' Hj Hn''.
    apply lookup_app_Some in Hn'' as [Hn''|[? Hn'']]; [by eapply Hlater|].
    apply list_lookup_singleton_Some in Hn'' as [_ <-]. done.
  - intros (n' & Hn' & Hname' & Hlater). apply IH. exists n'.
    apply lookup_app_Some in Hn' as [Hn'|[? [_ <-]%list_lookup_singleton_Some] ]; [|done].
    split_and!; [done|done|]. intros j n'' Hj Hn''. eapply Hlater; [exact Hj|].
    by apply lookup_app_l_Some.
Qed.

Lemma methods_fold k (ns : list FunctionNode) name t :
  (∃ ts, fold_left (λ m '(i, n),
           let name := fn_name (node_function n) in <[name := default [] (m !! name) ++ [i]]> m)
         (imap (λ i n, (k + i, n)%nat) ns) (∅ : gmap string (list nat)) !! name = Some ts ∧ t ∈ ts)
  ↔ ∃ i n, t = (k + i)%nat ∧ ns !! i = Some n ∧ fn_name (node_function n) = name.
Proof.
  induction ns as [|n ns IH] using rev_ind; simpl.
  { rewrite lookup_empty. naive_solver. }
  rewrite imap_app, fold_left_app. cbn [imap fold_left].
  match goal with |- context [fold_left ?f ?l ?m] => set (before := fold_left f l m) in * end.
  assert ((∃ ts, before !! name = Some ts ∧ t ∈ ts) ↔ t ∈ default [] (before !! name)) as Hdef.
  { destruct (before !! name); simpl; [naive_solver|]. split; [naive_solver|].
    by intros ?%not_elem_of_nil. }
  rewrite Hdef in IH. rewrite lookup_insert. case_decide as Hname.
  - rewrite Hname. split.
    + intros (ts & [= <-] & [Hin|Ht%list_elem_of_singleton]%elem_of_app).
      * apply IH in Hin as (i & n' & -> & Hn' & ?). exists i, n'.
        split_and!; [done|by apply lookup_app_l_Some|done].
      * exists (length ns + 0)%nat, n. split_and!; [lia| |done].
        rewrite Nat.add_0_r. by apply list_lookup_middle.
    + intros (i & n' & -> & Hn' & Hname'). eexists. split; [done|]. apply elem_of_app.
      apply lookup_app_Some in Hn' as [Hn'|[Hge [Hi <-]%list_lookup_singleton_Some] ].
      * left. apply IH. eauto.
      * right. apply list_elem_of_singleton. lia.
  - rewrite Hdef, IH. split.
    + intros (i & n' & -> & Hn' & ?). exists i, n'. split_and!; [done|by apply lookup_app_l_Some|done].
    + intros (i & n' & -> & Hn' & Hname'). exists i, n'. split_and!; [done| |done].
      by apply lookup_app_Some in Hn' as [Hn'|[Hge [Hi <-]%list_lookup_singleton_Some] ].
Qed.

Section program.
Context (p : Program).
Abbreviation self := (program_collector p).

Lemma method_node_of f :
  method_of_program p f ↔ ∃ i n, method_nodes p !! i = Some n ∧ node_function n = f.
Proof.
  transitivity (∃ n, n ∈ method_nodes p ∧ node_function n = f).
  - unfold method_of_program, method_nodes. split.
    + intros (i & [k Hk]%list_elem_of_lookup & Hf). exists (mkFunctionNode f (method_label k f)).
      split; [|done]. apply list_elem_of_In, in_concat.
      exists (map (λ m, mkFunctionNode m (method_label k m)) (impl_methods i)).
      rewrite <- !list_elem_of_In. split.
      * apply list_elem_of_lookup. exists k. by rewrite list_lookup_imap, Hk.
      * apply list_elem_of_fmap. eauto.
    + intros (n & (l & Hl & Hn)%list_elem_of_In%in_concat & <-).
      apply list_elem_of_In, list_elem_of_lookup in Hl as [k Hk]. rewrite list_lookup_imap in Hk.
      apply fmap_Some in Hk as (i & Hi & ->). apply list_elem_of_In, list_elem_of_fmap in Hn
        as (m & -> & Hm). exists i. split; [by eapply list_elem_of_lookup_2|done].
  - setoid_rewrite list_elem_of_lookup. naive_solver.
Qed.

Lemma external_named name : name ∈ collector_external_functions self ↔ foreign_name p name.
Proof.
  simpl. rewrite elem_of_list_to_set, list_elem_of_fmap. unfold foreign_name.
  setoid_rewrite list_elem_of_filter. naive_solver.
Qed.

Lemma function_target name t :
  collector_functions self !! name = Some t
  ↔ ∃ n, program_nodes p !! t = Some n ∧ (t < length (program_functions p))%nat
      ∧ fn_name (node_function n) = name
      ∧ ∀ j g, (t < j)%nat → program_functions p !! j = Some g → fn_name g ≠ name.
Proof.
  simpl. rewrite functions_fold. unfold program_nodes, function_nodes. split.
  - intros (n & Hn & Hname & Hlater). exists n. apply lookup_lt_Some in Hn as Hlt.
    rewrite length_map in Hlt. split_and!; [by apply lookup_app_l_Some|done|done|].
    intros j g Hj Hg. apply (Hlater j (mkFunctionNode g (fn_name g)) Hj).
    by rewrite list_lookup_fmap, Hg.
  - intros (n & Hn & Hlt & Hname & Hlater). exists n.
    rewrite lookup_app_l in Hn by by rewrite length_map. split_and!; [done|done|].
    intros j n' Hj Hn'. rewrite list_lookup_fmap in Hn'. apply fmap_Some in Hn' as (g & Hg & ->).
    by eapply Hlater.
Qed.

Lemma function_named_target name f :
  function_named p name f ↔ ∃ t n, collector_functions self !! name = Some t
    ∧ program_nodes p !! t = Some n ∧ node_function n = f.
Proof.
  unfold function_named. setoid_rewrite function_target. split.
  - intros (i & Hi & Hname & Hlater). pose proof (lookup_lt_Some _ _ _ Hi).
    assert (program_nodes p !! i = Some (mkFunctionNode f (fn_name f))) as Hn.
    { apply lookup_app_l_Some. unfold function_nodes. by rewrite list_lookup_fmap, Hi. }
    exists i, (mkFunctionNode f (fn_name f)). split_and!; [|done|done]. eauto 6.
  - intros (t & n & (n' & Hn' & Hlt & Hname & Hlater) & Hn & <-).
    rewrite Hn in Hn'. injection Hn' as <-. exists t. split_and!; [|done|done]. unfold program_nodes, function_nodes in Hn.
    rewrite lookup_app_l, list_lookup_fmap in Hn by by rewrite length_map.
    apply fmap_Some in Hn as (g & Hg & ->). done.
Qed.

Lemma method_target f :
  method_of_program p f ↔ ∃ t n ts, collector_methods self !! fn_name f = Some ts ∧ t ∈ ts
    ∧ program_nodes p !! t = Some n ∧ node_function n = f.
Proof.
  rewrite method_node_of. pose proof (methods_fold (length (program_functions p)) (method_nodes p)
    (fn_name f)) as Hfold.
  assert (∀ i, program_nodes p !! (length (program_functions p) + i)%nat = method_nodes p !! i)
    as Hnode.
  { intros i. unfold program_nodes, function_nodes. rewrite lookup_app_r by (rewrite length_map; lia).
    f_equal. rewrite length_map. lia. }
  split.
  - intros (i & n & Hn & <-). destruct (proj2 (Hfold (length (program_functions p) + i)%nat))
      as (ts & Hts & Hin); [by eauto|]. exists (length (program_functions p) + i)%nat, n, ts.
    split_and!; [done|done|by rewrite Hnode|done].
  - intros (t & n & ts & Hts & Hin & Hn & <-).
    destruct (proj1 (Hfold t)) as (i & n' & -> & Hn' & _); [by eauto|].
    rewrite Hnode in Hn. simplify_eq. eauto.
Qed.

Lemma method_call name t ts n :
  collector_methods self !! name = Some ts → t ∈ ts → program_nodes p !! t = Some n →
  method_of_program p (node_function n) ∧ fn_name (node_function n) = name.
Proof.
  intros Hts Hin Hn. pose proof (methods_fold (length (program_functions p)) (method_nodes p)
    name t) as [Hfold _]. destruct Hfold as (i & n' & -> & Hn' & Hname); [by eauto|].
  unfold program_nodes, function_nodes in Hn. rewrite lookup_app_r in Hn by (rewrite length_map; lia).
  rewrite length_map, Nat.add_comm, Nat.add_sub in Hn. simplify_eq. split; [|done].
  apply method_node_of. eauto.
Qed.

Lemma foreign_target name : foreign_name p name → is_Some (collector_functions self !! name).
Proof.
  intros (f & Hf & Hname & _). simpl.
  assert (∃ n, n ∈ function_nodes p ∧ fn_name (node_function n) = name) as Hn.
  { exists (mkFunctionNode f (fn_name f)). split; [|done]. apply list_elem_of_fmap. eauto. }
  revert Hn. generalize (function_nodes p). intros ns.
  induction ns as [|n ns IH] using rev_ind; [by intros (n & ?%not_elem_of_nil & _)|].
  intros (n' & [Hn'|Heq%list_elem_of_singleton]%elem_of_app & Hname');
    rewrite imap_app, fold_left_app; simpl; rewrite lookup_insert; case_decide; [done| |done|].
  - apply IH. eauto.
  - by subst n'.
Qed.

(** ** Atoms and the program *)

Lemma capability_atoms l c : some_atom (atom_capability self c) l ↔ has_itself p l c.
Proof.
  unfold some_atom, has_itself. split.
  - intros ([] & Hin & Ha); simpl in Ha; try done; [subst; by left|].
    destruct Ha as (-> & Hext & _). right. split; [done|]. eexists. split; [done|].
    by apply external_named.
  - intros [Hin|(-> & name & Hin & Hf)]; [by exists (Acquires c)|]. exists (Mentions name).
    split; [done|]. simpl. split_and!; [done|by apply external_named|by apply foreign_target].
Qed.

Lemma call_enters l t n :
  program_nodes p !! t = Some n → some_atom (atom_call self t) l → enters p l (node_function n).
Proof.
  intros Hn ([] & Hin & Ha); simpl in Ha; try done.
  - left. eexists. split; [done|]. apply function_named_target. eauto.
  - destruct named; [|done]. destruct Ha as (ts & Hts & Ht). right. exists true.
    destruct (method_call _ _ _ _ Hts Ht Hn) as [Hm ->]. done.
Qed.

(** A function that may be entered is called, or it is a method the analysis does not see. *)
Lemma enters_call l f :
  enters p l f →
  (∃ t n, program_nodes p !! t = Some n ∧ node_function n = f ∧ some_atom (atom_call self t) l)
  ∨ (Invokes false (fn_name f) ∈ l ∧ method_of_program p f).
Proof.
  intros [(name & Hin & (t & n & Ht & Hn & <-)%function_named_target)|([] & Hin & Hm)]; [|..|auto].
  - left. exists t, n. split_and!; [done|done|]. by exists (Calls name).
  - left. pose proof (proj1 (method_target f) Hm) as (t & n & ts & Hts & Ht & Hn & <-).
    exists t, n. split_and!; [done|done|]. eexists. split; [exact Hin|]. simpl. eauto.
Qed.

Lemma value_named l t n :
  program_nodes p !! t = Some n → some_atom (atom_value self t) l →
  ∃ name, Mentions name ∈ l ∧ ¬ foreign_name p name ∧ function_named p name (node_function n).
Proof.
  intros Hn ([] & Hin & Ha); simpl in Ha; try done. destruct Ha as [Ht Hext].
  rewrite external_named in Hext. eexists. split_and!; [done|done|].
  apply function_named_target. eauto.
Qed.

(** ** Needs and requirements *)

Lemma direct_of i d :
  program_direct p !! i = Some d → ∃ n, program_nodes p !! i = Some n ∧ d = collect_node self n.
Proof.
  unfold program_direct. rewrite list_lookup_fmap. intros (n & Hn & ->)%fmap_Some. eauto.
Qed.

Lemma declared_of i d :
  program_declared p !! i = Some d →
  ∃ n, program_nodes p !! i = Some n ∧ d = declared_contract n.
Proof.
  unfold program_declared. rewrite list_lookup_fmap. intros (n & Hn & ->)%fmap_Some. eauto.
Qed.

Lemma declared_uses n allowed c :
  declared_contract n = Some allowed → c ∈ allowed →
  ∃ uses, fn_capabilities (node_function n) = Some uses ∧ c ∈ map use_capability uses.
Proof.
  unfold declared_contract. intros (uses & Hu & ->)%fmap_Some Hc. exists uses.
  split; [done|]. by apply elem_of_list_to_set in Hc.
Qed.

(** The calls that were collected for a function enter the functions they target. *)
Lemma collected_call i n d t sp :
  program_nodes p !! i = Some n → d = collect_node self n → (t, sp) ∈ direct_calls d →
  ∃ n', program_nodes p !! t = Some n' ∧ enters p (function_atoms (node_function n)) (node_function n').
Proof.
  intros Hn -> Hin. destruct (fn_external (node_function n)) eqn:Hext.
  { unfold collect_node in Hin. rewrite Hext in Hin. by apply not_elem_of_nil in Hin. }
  pose proof (program_calls p) as Hcalls. rewrite Forall_forall in Hcalls.
  specialize (Hcalls (collect_node self n)). unfold calls_in in Hcalls. rewrite Forall_forall in Hcalls.
  assert (collect_node self n ∈ program_direct p) as Hd.
  { unfold program_direct. apply list_elem_of_fmap. exists n. split; [done|].
    by eapply list_elem_of_lookup_2. }
  specialize (Hcalls Hd _ Hin). simpl in Hcalls.
  unfold program_direct in Hcalls. rewrite length_map in Hcalls.
  destruct (lookup_lt_is_Some_2 _ _ Hcalls) as [n' Hn']. exists n'. split; [done|].
  destruct (shows_parts _ _ _ (node_shows self n Hext)) as (_ & Ht & _). eapply call_enters; [done|]. apply Ht. eauto.
Qed.

Lemma needs_requires i c :
  program_needs p i c → ∀ n, program_nodes p !! i = Some n → requires p (node_function n) c.
Proof.
  induction 1 as [i d c Hd Hc|i d t sp allowed c Hd Ht Hdt Hc|i d t sp c Hd Ht Hdt _ IH];
    intros n Hn; apply direct_of in Hd as (n0 & Hn0 & ->);
    rewrite Hn in Hn0; injection Hn0 as <-.
  - destruct (fn_external (node_function n)) eqn:Hext.
    + unfold collect_node in Hc. rewrite Hext in Hc. simpl in Hc.
      rewrite lookup_singleton_is_Some in Hc. subst c. apply requires_foreign. by rewrite Hext.
    + apply requires_itself. destruct (shows_parts _ _ _ (node_shows self n Hext)) as (Hcap & _).
      by apply capability_atoms, Hcap.
  - destruct (collected_call _ _ _ _ _ Hn eq_refl Ht) as (n' & Hn' & He).
    apply declared_of in Hdt as (n'' & Hn'' & Hd). rewrite Hn' in Hn''. injection Hn'' as <-.
    destruct (declared_uses n' allowed c) as (uses & Hu & Hin); [done|done|].
    by eapply requires_declared.
  - destruct (collected_call _ _ _ _ _ Hn eq_refl Ht) as (n' & Hn' & He).
    apply declared_of in Hdt as (n'' & Hn'' & Hd). rewrite Hn' in Hn''. injection Hn'' as <-.
    eapply requires_inferred; [done| |by apply IH].
    unfold declared_contract in Hd. by destruct (fn_capabilities (node_function n')).
Qed.

Lemma in_program_node f :
  in_program p f ↔ ∃ i n, program_nodes p !! i = Some n ∧ node_function n = f.
Proof.
  unfold in_program, program_nodes. split.
  - intros [ [i Hi]%list_elem_of_lookup|(i & n & Hn & <-)%method_node_of].
    + exists i, (mkFunctionNode f (fn_name f)). split; [|done]. apply lookup_app_l_Some.
      unfold function_nodes. by rewrite list_lookup_fmap, Hi.
    + exists (length (function_nodes p) + i)%nat, n. split; [|done].
      rewrite lookup_app_r by lia. by replace (_ + i - _)%nat with i by lia.
  - intros (i & n & [Hn|[_ Hn] ]%lookup_app_Some & <-).
    + left. unfold function_nodes in Hn. rewrite list_lookup_fmap in Hn.
      apply fmap_Some in Hn as (f & Hf & ->). by eapply list_elem_of_lookup_2.
    + right. apply method_node_of. eauto.
Qed.

Lemma contract_promises i n c :
  program_nodes p !! i = Some n → has_contract p i c → promises p (node_function n) c.
Proof.
  intros Hn. unfold has_contract, program_declared, promises, declared_contract.
  rewrite list_lookup_fmap, Hn. simpl.
  destruct (fn_capabilities (node_function n)) as [uses|]; simpl.
  - by rewrite elem_of_list_to_set.
  - intros Hc. by eapply needs_requires.
Qed.

Section plain.
Context (Hplain : plain_receivers p).

(** A function with a contract that may be entered is among the collected calls. *)
Lemma entered_collected i n g c :
  program_nodes p !! i = Some n → enters p (function_atoms (node_function n)) g →
  promises p g c →
  ∃ t n' sp, program_nodes p !! t = Some n' ∧ node_function n' = g
    ∧ (t, sp) ∈ direct_calls (collect_node self n).
Proof.
  intros Hn He Hc. destruct (enters_call _ _ He) as [(t & n' & Hn' & <- & Ht)|[Hblind Hm] ].
  - destruct (fn_external (node_function n)) eqn:Hext.
    { unfold function_atoms in Ht. rewrite Hext in Ht. by destruct Ht as (a & ?%not_elem_of_nil & _). }
    destruct (shows_parts _ _ _ (node_shows self n Hext)) as (_ & Hcalls & _).
    apply Hcalls in Ht as [sp Hsp]. eauto 6.
  - exfalso. apply (Hplain (node_function n) g c); [|by apply within_here|done|done].
    apply in_program_node. eauto.
Qed.

Lemma direct_at i n :
  program_nodes p !! i = Some n → program_direct p !! i = Some (collect_node self n).
Proof. intros Hn. unfold program_direct. by rewrite list_lookup_fmap, Hn. Qed.

Lemma declared_at i n :
  program_nodes p !! i = Some n → program_declared p !! i = Some (declared_contract n).
Proof. intros Hn. unfold program_declared. by rewrite list_lookup_fmap, Hn. Qed.

Lemma requires_needs f c :
  requires p f c → ∀ i n, program_nodes p !! i = Some n → node_function n = f → program_needs p i c.
Proof.
  induction 1 as [f [x Hx]|f c Hi|f g uses c He Hu Hc|f g c He Hu Hg IH]; intros i n Hn <-.
  - eapply needs_direct; [by apply direct_at|]. unfold collect_node. rewrite Hx. simpl.
    by rewrite lookup_singleton_is_Some.
  - eapply needs_direct; [by apply direct_at|]. destruct (fn_external (node_function n)) eqn:Hext.
    { unfold function_atoms in Hi. rewrite Hext in Hi.
      by destruct Hi as [?%not_elem_of_nil|(_ & ? & ?%not_elem_of_nil & _)]. }
    destruct (shows_parts _ _ _ (node_shows self n Hext)) as (Hcap & _). by apply Hcap, capability_atoms.
  - destruct (entered_collected i n g c Hn He) as (t & n' & sp & Hn' & <- & Hsp).
    { unfold promises. by rewrite Hu. }
    eapply needs_declared; [by apply direct_at|exact Hsp| |].
    + rewrite (declared_at _ _ Hn'). unfold declared_contract. by rewrite Hu.
    + by apply elem_of_list_to_set.
  - destruct (entered_collected i n g c Hn He) as (t & n' & sp & Hn' & <- & Hsp).
    { unfold promises. by rewrite Hu. }
    eapply needs_inferred; [by apply direct_at|exact Hsp| |by eapply IH].
    rewrite (declared_at _ _ Hn'). unfold declared_contract. by rewrite Hu.
Qed.

Lemma promises_contract i n c :
  program_nodes p !! i = Some n → promises p (node_function n) c → has_contract p i c.
Proof.
  intros Hn. unfold has_contract, promises. rewrite (declared_at _ _ Hn). unfold declared_contract.
  destruct (fn_capabilities (node_function n)) as [uses|]; simpl.
  - by rewrite elem_of_list_to_set.
  - intros Hc. by eapply requires_needs.
Qed.
End plain.

(** ** Hidden capabilities *)

Lemma effect_free_closures K d :
  effect_free K d ↔ (∀ t sp c, (t, sp) ∈ direct_function_values d → ¬ K t c)
    ∧ Forall (λ closure, direct_capabilities closure = ∅
        ∧ (∀ t sp c, (t, sp) ∈ direct_calls closure → ¬ K t c) ∧ effect_free K closure)
      (direct_closures d).*2.
Proof.
  destruct d as [caps calls values closures]. simpl. apply and_iff_compat_l.
  induction closures as [|[sp c] l IH]; simpl; [split; [constructor|done]|].
  by rewrite Forall_cons, IH.
Qed.

Lemma enclosed_in body l : Encloses body ∈ l ↔ body ∈ enclosed l.
Proof.
  unfold enclosed. rewrite list_elem_of_omap. split; [eauto|]. intros ([] & Ha & [= <-]). done.
Qed.

(** A closure that neither has nor calls for a capability. *)
Lemma closure_shows_free closure body l :
  shows self closure body → targets_in (length (program_nodes p)) closure →
  Encloses body ∈ l → ¬ hides p l →
  direct_capabilities closure = ∅ ∧
  (∀ t sp c, (t, sp) ∈ direct_calls closure → ¬ has_contract p t c).
Proof.
  intros Hs Ht Hin Hno. destruct (shows_parts _ _ _ Hs) as (Hc & Hcalls & _). split.
  - apply map_empty. intros c. apply eq_None_not_Some. intros Hsome%Hc%capability_atoms.
    apply Hno. by eapply hides_closure.
  - intros t sp c Hcall Hk. destruct closure as [caps calls values closures].
    destruct Ht as (Ht & _ & _). rewrite Forall_forall in Ht. specialize (Ht _ Hcall). simpl in Ht.
    destruct (lookup_lt_is_Some_2 _ _ Ht) as [n Hn].
    apply Hno. eapply hides_call; [done| |by eapply contract_promises].
    eapply call_enters; [done|]. apply Hcalls. eauto.
Qed.

Lemma targets_closures d :
  targets_in (length (program_nodes p)) d →
  Forall (targets_in (length (program_nodes p))) (direct_closures d).*2.
Proof.
  destruct d as [caps calls values closures]. intros (_ & _ & H). simpl in *.
  induction closures as [|[sp c] l IH]; simpl in *; [constructor|]. destruct H. by constructor; auto.
Qed.

Lemma not_hides_free d l :
  shows self d l → targets_in (length (program_nodes p)) d → ¬ hides p l →
  effect_free (has_contract p) d.
Proof.
  revert l. induction d as [caps calls values closures IH] using effects_induction.
  intros l Hs Htargets Hno. apply effect_free_closures.
  pose proof (targets_closures _ Htargets) as Hcl. simpl in Hcl.
  destruct (shows_parts _ _ _ Hs) as (Hc & Ht & Hv & Hshows). simpl in *. destruct Htargets as (_ & Hvin & _).
  split.
  - intros t sp c Hin Hk. rewrite Forall_forall in Hvin. specialize (Hvin _ Hin). simpl in Hvin.
    destruct (lookup_lt_is_Some_2 _ _ Hvin) as [n Hn].
    destruct (value_named l t n Hn) as (name & Hm & Hf & Hnamed); [apply Hv; eauto|].
    apply Hno. eapply hides_function; [done|done|done|]. by eapply contract_promises.
  - apply Forall_forall. intros closure [k Hk]%list_elem_of_lookup.
    destruct (Forall2_lookup_l _ _ _ _ _ Hshows Hk) as (body & Hbody & Hsb).
    rewrite Forall_lookup in Hcl. specialize (Hcl k closure Hk).
    assert (Encloses body ∈ l) as Hin by (apply enclosed_in; by eapply list_elem_of_lookup_2).
    destruct (closure_shows_free closure body l) as [H1 H2]; [done..|]. split_and!; [done|done|].
    apply list_lookup_fmap_Some in Hk as ([sp c] & -> & Hk). rewrite Forall_lookup in IH.
    apply (IH k (sp, c) Hk body); [done|done|]. intros Hh. apply Hno. by eapply hides_nested.
Qed.

Lemma free_not_hides l :
  hides p l → ∀ d, plain_receivers p → shows self d l → effect_free (has_contract p) d →
  (∀ g c, within (Invokes false (fn_name g)) l → method_of_program p g → ¬ promises p g c) → False.
Proof.
  induction 1 as [l name f c Hm Hf Hn Hc|l body c Hin Hc|l body f c Hin He Hc|l body Hin Hh IH];
    intros d Hplain (_ & _ & Hv & Hcl)%shows_parts [Hvalues Hclosures]%effect_free_closures Hblind.
  - apply function_named_target in Hn as (t & n & Ht & Hn & <-).
    destruct (proj2 (Hv t)) as [sp Hsp].
    { exists (Mentions name). split; [done|]. simpl. by rewrite external_named. }
    apply (Hvalues t sp c Hsp). by eapply promises_contract.
  - apply enclosed_in, list_elem_of_lookup in Hin as [k Hk].
    destruct (Forall2_lookup_r _ _ _ _ _ Hcl Hk) as (closure & Hclosure & (Hcap & _)%shows_parts).
    rewrite Forall_lookup in Hclosures. destruct (Hclosures k closure Hclosure) as (Hempty & _).
    apply capability_atoms, Hcap in Hc. rewrite Hempty, lookup_empty in Hc. by destruct Hc.
  - pose proof Hin as Hbody. apply enclosed_in, list_elem_of_lookup in Hin as [k Hk].
    destruct (Forall2_lookup_r _ _ _ _ _ Hcl Hk) as (closure & Hclosure & (_ & Hcalls & _)%shows_parts).
    rewrite Forall_lookup in Hclosures. destruct (Hclosures k closure Hclosure) as (_ & Hnone & _).
    destruct (enters_call _ _ He) as [(t & n & Hn & <- & Ht)|[Hb Hm] ].
    + apply Hcalls in Ht as [sp Hsp]. apply (Hnone t sp c Hsp). by eapply promises_contract.
    + apply (Hblind f c); [|done|done]. eapply within_closure; [exact Hbody|by apply within_here].
  - pose proof Hin as Hbody. apply enclosed_in, list_elem_of_lookup in Hin as [k Hk].
    destruct (Forall2_lookup_r _ _ _ _ _ Hcl Hk) as (closure & Hclosure & Hs).
    rewrite Forall_lookup in Hclosures. destruct (Hclosures k closure Hclosure) as (_ & _ & Hfree).
    apply (IH closure); [done|done|done|]. intros g c Hw. apply Hblind. by eapply within_closure.
Qed.
End program.

(** ** The analysis *)

(** The report has an entry for every function and method, in order, with a list of
    capabilities that satisfies [R]. *)
Definition entries (p : Program) (report : EffectReport)
    (R : Function → list Capability → Prop) : Prop :=
  length (effect_functions report) = length (program_nodes p) ∧
  ∀ i entry n, effect_functions report !! i = Some entry → program_nodes p !! i = Some n →
    effects_name entry = node_label n
    ∧ effects_explicit entry = bool_decide (is_Some (fn_capabilities (node_function n)))
    ∧ R (node_function n) (effects_capabilities entry).

Lemma reported_entries p report (R : Function → list Capability → Prop) :
  reported p report →
  (∀ i n l, program_nodes p !! i = Some n → (∀ c, c ∈ l ↔ has_contract p i c) →
     R (node_function n) l) →
  entries p report R.
Proof.
  intros [Hl Hr] HR. split; [done|]. intros i entry n He Hn.
  destruct (Hr i entry n He Hn) as (Hname & Hexplicit & Hc). split_and!; [done| |by eapply HR].
  rewrite Hexplicit. unfold declared_contract. apply bool_decide_ext. apply fmap_is_Some.
Qed.

Lemma not_hidden_free p : nothing_hidden p → direct_hidden_free p.
Proof.
  intros Hno. unfold direct_hidden_free. apply Forall_lookup. intros i d Hd.
  pose proof (program_targets p) as Ht. rewrite Forall_lookup in Ht. specialize (Ht i d Hd).
  apply direct_of in Hd as (n & Hn & ->). destruct (fn_external (node_function n)) eqn:Hext.
  { unfold collect_node. rewrite Hext. simpl. split; [|done]. by intros t sp c ?%not_elem_of_nil. }
  eapply not_hides_free; [by apply node_shows|done|]. apply Hno, in_program_node. eauto.
Qed.

Lemma hides_nil p : ¬ hides p [].
Proof. remember [] as l eqn:Hl. destruct 1; subst; by eapply not_elem_of_nil. Qed.

Lemma free_not_hidden p : plain_receivers p → direct_hidden_free p → nothing_hidden p.
Proof.
  intros Hplain Hfree f (i & n & Hn & <-)%in_program_node Hh.
  destruct (fn_external (node_function n)) eqn:Hext.
  { unfold function_atoms in Hh. rewrite Hext in Hh. by apply hides_nil in Hh. }
  unfold direct_hidden_free in Hfree. rewrite Forall_lookup in Hfree.
  eapply (free_not_hides p); [exact Hh|done|by apply node_shows|by eapply Hfree, direct_at|].
  intros g c Hw Hm. eapply Hplain; [|exact Hw|done]. apply in_program_node. eauto.
Qed.


(** ** A method reached through a field *)

Definition here {A} (a : A) : Spanned A := mkSpanned a (point 1 1).
Definition sample_function (name : string) (uses : option (list CapabilityUse)) (body : Expression)
    : Function :=
  mkFunction false name (point 1 1) [] [] None uses
    (mkBlock [here (SExpression (here body))] (point 1 1)) None false (point 1 1).
Definition invoke (object : Expression) (method : string) (arguments : list Expr) : Expression :=
  ECall (here (EFieldAccess (here object) method (point 1 1))) arguments.
Definition sample_load : Function :=
  sample_function "load" None (invoke (EIdentifier "File") "read_text" [here (EString "secret")]).

(** [main] is declared pure and invokes [load], which reads a file, on a receiver. *)
Definition sample_main (receiver : Expression) : Function :=
  sample_function "main" (Some []) (invoke receiver "load" []).
Definition sample (receiver : Expression) : Program :=
  mkProgram [] None [] [] [] [] []
    [ mkImplementation [] None (mkTypeName "Loader" [] Owned (point 1 1)) [] [sample_load]
        (point 1 1) ]
    [ sample_main receiver ].

Definition field_receiver : Expression :=
  EFieldAccess (here (EIdentifier "holder")) "loader" (point 1 1).

(** Under-reported authority: the document makes [main] require [FileSystem], but a method
    call whose receiver is not a plain name adds no call, so [holder.loader.load()] is
    accepted in a function declared [uses Pure], and reported as pure. *)
Theorem method_on_field_not_counted :
  requires (sample field_receiver) (sample_main field_receiver) FileSystem
  ∧ render_effects <$> analyze (sample field_receiver)
    = Ok ("main uses Pure" +:+ newline +:+ "impl0.load uses FileSystem [inferred]" +:+ newline).
Proof.
  split; [|vm_compute; reflexivity].
  apply (requires_inferred _ _ sample_load); [|done|].
  - right. exists false. split; [left|]. eexists. split; [left|left].
  - apply requires_itself. left. left.
Qed.

