(* ===== verification/ConstEval.v ===== *)
(** * Compile-time evaluation and constant folding ([compiler/src/const_eval.rs])

    [Evaluator] walks a checked program, evaluates the initializer of every [const]
    binding within step, depth and size budgets and reports the constants; [Folder]
    replaces the uses of those constants by their values.  Both keep a stack of scopes,
    innermost first.  [Value::render] (the debug rendering of floats and strings) is left
    out. *)

From Stdlib Require Import Floats.SpecFloat.
From S2P Require Import Prelude Machine Diagnostics StateM BTree Limits Ast.
#[local] Open Scope string_scope.
#[local] Open Scope list_scope.
#[local] Open Scope Z_scope.

(** ** Limits *)

Record Limits := mkLimits {
  limit_steps : Z;
  limit_depth : Z;
  limit_value_nodes : Z;
  limit_string_bytes : Z }.

Definition default_limits : Limits :=
  mkLimits MAX_CONST_STEPS MAX_CONST_DEPTH MAX_CONST_VALUE_NODES MAX_CONST_STRING_BYTES.

(** ** Integers: a sign and a [u128] magnitude *)

Record Integer := mkInteger { negative : bool; magnitude : Z }.
#[export] Instance Integer_eq_dec : EqDecision Integer.
Proof. solve_decision. Defined.

Definition positive (m : Z) : Integer := mkInteger false m.
Definition normalized (neg : bool) (m : Z) : Integer := mkInteger (neg && negb (m =? 0)) m.
Definition negate (i : Integer) : Integer := normalized (negb (negative i)) (magnitude i).

Definition integer_checked_add (a b : Integer) : option Integer :=
  if Bool.eqb (negative a) (negative b) then
    normalized (negative a) <$> checked_add U128_MAX (magnitude a) (magnitude b)
  else if magnitude b <=? magnitude a then
    Some (normalized (negative a) (magnitude a - magnitude b))
  else Some (normalized (negative b) (magnitude b - magnitude a)).

Definition integer_compare (a b : Integer) : comparison :=
  match negative a, negative b with
  | true, false => Lt
  | false, true => Gt
  | false, false => magnitude a ?= magnitude b
  | true, true => magnitude b ?= magnitude a
  end.

Definition integer_display (i : Integer) : string :=
  if negative i then "-" +:+ display_Z (magnitude i) else display_Z (magnitude i).

(** ** Values *)

Inductive Value : Type :=
| VInteger (i : Integer)
| VFloat (f : f64)
| VString (s : string)
| VCharacter (c : char)
| VBool (b : bool)
| VArray (values : list Value)
| VStruct (name : string) (fields : list (string * Value)).

Scheme Value_mind := Induction for Value Sort Prop.

Lemma value_induction (P : Value → Prop) :
  (∀ i, P (VInteger i)) → (∀ f, P (VFloat f)) → (∀ s, P (VString s)) →
  (∀ c, P (VCharacter c)) → (∀ b, P (VBool b)) →
  (∀ values, Forall P values → P (VArray values)) →
  (∀ name fields, Forall (λ p, P (snd p)) fields → P (VStruct name fields)) →
  ∀ v, P v.
Proof.
  intros; apply Value_mind; auto; intros ?.
  - intros ?%list_all_Forall. auto.
  - intros ? ?%list_all_snd. auto.
Qed.

(** [Value::expression]: the syntax of a value. *)
Fixpoint expression_node (sp : Span) (v : Value) : Expression :=
  match v with
  | VInteger i =>
    if negative i then EUnary Negate (mkSpanned (EInteger (magnitude i)) sp)
    else EInteger (magnitude i)
  | VFloat f => EFloat f
  | VString s => EString s
  | VCharacter c => ECharacter c
  | VBool b => EBool b
  | VArray values => EArray (map (λ v, mkSpanned (expression_node sp v) sp) values)
  | VStruct name fields =>
    EStructConstruct name sp
      (map (λ '(name, v), mkStructFieldValue name sp (mkSpanned (expression_node sp v) sp)) fields)
  end.
Definition value_expression (v : Value) (sp : Span) : Expr := mkSpanned (expression_node sp v) sp.

Record Constant := mkConstant {
  constant_function : string;
  constant_name : string;
  constant_span : Span;
  constant_value : Value }.

Record Report := mkReport { report_constants : list Constant; report_steps : Z }.

(** ** Scopes *)

(** A name maps to its compile-time value, or to [None] when it shadows one. *)
Abbreviation Scope := (gmap string (option Value)).

Fixpoint lookup_scopes (scopes : list Scope) (name : string) : option Value :=
  match scopes with
  | [] => None
  | scope :: scopes =>
    match scope !! name with
    | Some value => value
    | None => lookup_scopes scopes name
    end
  end.

Definition shadow_scope (names : list string) : Scope :=
  list_to_map (map (λ name, (name, None)) names).
Definition parameter_scope (parameters : list Param) : Scope :=
  shadow_scope (map parameter_name parameters).

(** ** Floating-point operations *)

Definition f64_add : f64 → f64 → f64 := SFadd 53 1024.
Definition f64_sub : f64 → f64 → f64 := SFsub 53 1024.
Definition f64_mul : f64 → f64 → f64 := SFmul 53 1024.
Definition f64_div : f64 → f64 → f64 := SFdiv 53 1024.

(** [%] on [f64]: the remainder of the truncated quotient, which is exact. *)
Definition f64_rem (x y : f64) : f64 :=
  match x, y with
  | S754_nan, _ | _, S754_nan | S754_infinity _, _ | _, S754_zero _ => S754_nan
  | S754_zero _, _ | _, S754_infinity _ => x
  | S754_finite s mx ex, S754_finite _ my ey =>
    let e := Z.min ex ey in
    let r := (Zpos mx * 2 ^ (ex - e)) mod (Zpos my * 2 ^ (ey - e)) in
    binary_normalize 53 1024 (if s then - r else r) e s
  end.

Definition compare_floats (l r : f64) (operator : BinaryOperator) : bool :=
  match operator with
  | BEqual => SFeqb l r
  | BNotEqual => negb (SFeqb l r)
  | BLess => SFltb l r
  | BLessEqual => SFleb l r
  | BGreater => SFltb r l
  | BGreaterEqual => SFleb r l
  | _ => false
  end.

Definition is_comparison (operator : BinaryOperator) : bool :=
  match operator with
  | BEqual | BNotEqual | BLess | BLessEqual | BGreater | BGreaterEqual => true
  | _ => false
  end.

Definition compare_ordering (ordering : comparison) (operator : BinaryOperator) : bool :=
  match operator with
  | BEqual => match ordering with Eq => true | _ => false end
  | BNotEqual => match ordering with Eq => false | _ => true end
  | BLess => match ordering with Lt => true | _ => false end
  | BLessEqual => match ordering with Gt => false | _ => true end
  | BGreater => match ordering with Gt => true | _ => false end
  | BGreaterEqual => match ordering with Lt => false | _ => true end
  | _ => false
  end.

(** ** Errors *)

Definition eval_error (message : string) (sp : Span) : Diagnostic :=
  with_help (new_diagnostic Type_ message sp)
    "compile-time evaluation is deterministic and has no ambient authority".
Definition limit_error (message : string) (sp : Span) : Diagnostic :=
  with_help (new_diagnostic Type_ message sp) "reduce the constant expression or generated value".

(** ** Operators *)

Definition eval_unary (operator : UnaryOperator) (value : Value) (sp : Span)
    : outcome Diagnostic Value :=
  match operator, value with
  | Negate, VInteger value => Ok (VInteger (negate value))
  | Negate, VFloat value => Ok (VFloat (SFopp value))
  | Not, VBool value => Ok (VBool (negb value))
  | _, _ => Err (eval_error "invalid compile-time unary operation" sp)
  end.

Definition overflow_or {A} (o : option A) (f : A → Value) (sp : Span) : outcome Diagnostic Value :=
  match o with
  | Some a => Ok (f a)
  | None => Err (eval_error "compile-time integer overflow" sp)
  end.

(** The [match] of [eval_binary] on the two evaluated operands. *)
Definition apply_binary (l : Value) (operator : BinaryOperator) (r : Value) (sp : Span)
    : outcome Diagnostic Value :=
  let invalid := Err (eval_error "invalid compile-time binary operation" sp) in
  match l, r with
  | VInteger l, VInteger r =>
    match operator with
    | BAdd => overflow_or (integer_checked_add l r) VInteger sp
    | BSubtract => overflow_or (integer_checked_add l (negate r)) VInteger sp
    | BMultiply =>
      overflow_or (checked_mul U128_MAX (magnitude l) (magnitude r))
        (λ m, VInteger (normalized (negb (Bool.eqb (negative l) (negative r))) m)) sp
    | BDivide =>
      if magnitude r =? 0
      then Err (eval_error "division by zero during compile-time evaluation" sp)
      else Ok (VInteger (normalized (negb (Bool.eqb (negative l) (negative r)))
                           (magnitude l / magnitude r)))
    | BRemainder =>
      if magnitude r =? 0
      then Err (eval_error "division by zero during compile-time evaluation" sp)
      else Ok (VInteger (normalized (negative l) (magnitude l mod magnitude r)))
    | _ =>
      if is_comparison operator
      then Ok (VBool (compare_ordering (integer_compare l r) operator)) else invalid
    end
  | VFloat l, VFloat r =>
    match operator with
    | BAdd => Ok (VFloat (f64_add l r))
    | BSubtract => Ok (VFloat (f64_sub l r))
    | BMultiply => Ok (VFloat (f64_mul l r))
    | BDivide => Ok (VFloat (f64_div l r))
    | BRemainder => Ok (VFloat (f64_rem l r))
    | _ =>
      if is_comparison operator then Ok (VBool (compare_floats l r operator)) else invalid
    end
  | VString l, VString r =>
    match operator with
    | BAdd => Ok (VString (l +:+ r))
    | _ =>
      if is_comparison operator
      then Ok (VBool (compare_ordering (String.compare l r) operator)) else invalid
    end
  | VCharacter l, VCharacter r =>
    if is_comparison operator
    then Ok (VBool (compare_ordering (l ?= r) operator)) else invalid
  | VBool l, VBool r =>
    match operator with
    | BAnd => Ok (VBool (l && r))
    | BOr => Ok (VBool (l || r))
    | BEqual => Ok (VBool (Bool.eqb l r))
    | BNotEqual => Ok (VBool (negb (Bool.eqb l r)))
    | _ => invalid
    end
  | _, _ => invalid
  end.

(** ** Patterns *)

Fixpoint pattern_names (p : Pattern) : list string :=
  match p with
  | PBinding name => [name]
  | POr alternatives =>
    match alternatives with a :: _ => pattern_names (node a) | [] => [] end
  | PStruct _ fields _ =>
    flat_map (λ f, match f with mkStructPatternField _ _ p => pattern_names (node p) end) fields
  | PVariant _ _ arguments => flat_map (λ a, pattern_names (node a)) arguments
  | _ => []
  end.

(** The answer of a match and the bindings it leaves. *)
Abbreviation Matching := (bool * gmap string Value)%type.

(** [alternatives.iter().any(..)]: a failed alternative leaves no bindings. *)
Fixpoint any_alternative (matches : Pattern → Value → gmap string Value → Matching)
    (value : Value) (bindings : gmap string Value) (l : list (Spanned Pattern)) : Matching :=
  match l with
  | [] => (false, bindings)
  | a :: l =>
    let '(matched, candidate) := matches (node a) value bindings in
    if matched then (true, candidate) else any_alternative matches value bindings l
  end.

(** [fields.iter().all(..)]: the bindings of the fields before a failure stay. *)
Fixpoint all_fields (matches : Pattern → Value → gmap string Value → Matching)
    (values : list (string * Value)) (l : list StructPatternField)
    (bindings : gmap string Value) : Matching :=
  match l with
  | [] => (true, bindings)
  | mkStructPatternField field _ p :: l =>
    match bt_get field values with
    | Some v =>
      let '(matched, bindings) := matches (node p) v bindings in
      if matched then all_fields matches values l bindings else (false, bindings)
    | None => (false, bindings)
    end
  end.

Fixpoint pattern_matches (p : Pattern) (value : Value) (bindings : gmap string Value) : Matching :=
  match p with
  | PWildcard => (true, bindings)
  | PBinding name => (true, <[name := value]> bindings)
  | PInteger n =>
    (match value with VInteger i => bool_decide (i = positive n) | _ => false end, bindings)
  | PNegativeInteger n =>
    (match value with VInteger i => bool_decide (i = normalized true n) | _ => false end, bindings)
  | PString s => (match value with VString t => String.eqb t s | _ => false end, bindings)
  | PCharacter c => (match value with VCharacter d => d =? c | _ => false end, bindings)
  | PBool b => (match value with VBool c => Bool.eqb c b | _ => false end, bindings)
  | POr alternatives => any_alternative pattern_matches value bindings alternatives
  | PStruct type_name fields _ =>
    match value with
    | VStruct name values =>
      if String.eqb name type_name then all_fields pattern_matches values fields bindings
      else (false, bindings)
    | _ => (false, bindings)
    end
  | PVariant _ _ _ => (false, bindings)
  end.

(** ** The evaluator *)

Record Evaluator := mkEvaluator {
  scopes : list Scope;
  constants : list Constant;
  function : string;
  steps : Z;
  value_nodes : Z;
  string_bytes : Z }.

Definition Ev : Type → Type := SM Evaluator Diagnostic.

Definition set_scopes (s : list Scope) (e : Evaluator) : Evaluator :=
  mkEvaluator s (constants e) (function e) (steps e) (value_nodes e) (string_bytes e).
Definition set_steps (n : Z) (e : Evaluator) : Evaluator :=
  mkEvaluator (scopes e) (constants e) (function e) n (value_nodes e) (string_bytes e).
Definition set_function (f : string) (e : Evaluator) : Evaluator :=
  mkEvaluator (scopes e) (constants e) f (steps e) (value_nodes e) (string_bytes e).
Definition set_usage (nodes bytes : Z) (e : Evaluator) : Evaluator :=
  mkEvaluator (scopes e) (constants e) (function e) (steps e) nodes bytes.
Definition push_constant (c : Constant) (e : Evaluator) : Evaluator :=
  mkEvaluator (scopes e) (constants e ++ [c]) (function e) (steps e) (value_nodes e)
    (string_bytes e).

Definition push_scope (scope : Scope) : Ev unit := modify (λ e, set_scopes (scope :: scopes e) e).
Definition pop_scope : Ev unit := modify (λ e, set_scopes (tail (scopes e)) e).

(** [self.scopes.last_mut().expect(..).insert(name, value)]. *)
Definition insert_top {E} (name : string) (value : option Value) (scopes : list Scope)
    : outcome E (list Scope) :=
  match scopes with
  | scope :: scopes => Ok (<[name := value]> scope :: scopes)
  | [] => Panic
  end.
Definition bind_name (name : string) (value : option Value) : Ev unit := λ e,
  scopes' ← insert_top name value (scopes e); Ok (tt, set_scopes scopes' e).

Section evaluator.
Context (limits : Limits).

(** The budget checks at the start of [eval]. *)
Definition charge_step (sp : Span) (depth : Z) : Ev unit := λ e,
  steps' ← ok_or (checked_add USIZE_MAX (steps e) 1)
             (limit_error "compile-time step counter overflowed" sp);
  let e := set_steps steps' e in
  _ ← bail_if (limit_steps limits <? steps')
        (limit_error ("compile-time evaluation exceeded " +:+ display_Z (limit_steps limits)
                      +:+ " steps") sp);
  _ ← bail_if (limit_depth limits <? depth)
        (limit_error ("compile-time evaluation exceeded depth " +:+ display_Z (limit_depth limits))
           sp);
  Ok (tt, e).

(** [eval_binary], given the function that evaluates operands. *)
Definition eval_binary (eval : Expression → Span → Z → Ev Value) (l : Expr)
    (operator : BinaryOperator) (r : Expr) (depth : Z) (sp : Span) : Ev Value :=
  l ← eval (node l) (span l) (depth + 1);
  match operator, l with
  | BAnd, VBool false => mret (VBool false)
  | BOr, VBool true => mret (VBool true)
  | _, _ =>
    r ← eval (node r) (span r) (depth + 1);
    lift (apply_binary l operator r sp)
  end.

Definition guard_holds (value : Value) : bool :=
  match value with VBool true => true | _ => false end.

(** The loop over the arms of a [match]. *)
Fixpoint eval_arms (eval : Expression → Span → Z → Ev Value) (value : Value) (depth : Z)
    (sp : Span) (arms : list MatchArm) : Ev Value :=
  match arms with
  | [] => throw (eval_error "constant match has no matching arm" sp)
  | mkMatchArm pattern _ guard body _ :: arms =>
    let '(matched, bindings) := pattern_matches (node pattern) value ∅ in
    if matched then
      _ ← push_scope (Some <$> bindings);
      guard_matches ←
        match guard with
        | Some guard =>
          value ← eval (node guard) (span guard) (depth + 1);
          mret (guard_holds value)
        | None => mret true
        end;
      if (guard_matches : bool) then
        result ← eval (node body) (span body) (depth + 1);
        _ ← pop_scope;
        mret result
      else
        _ ← pop_scope;
        eval_arms eval value depth sp arms
    else eval_arms eval value depth sp arms
  end.

Fixpoint eval (e : Expression) (sp : Span) (depth : Z) {struct e} : Ev Value :=
  _ ← charge_step sp depth;
  match e with
  | EInteger value => mret (VInteger (positive value))
  | EFloat value => mret (VFloat value)
  | EString value => mret (VString value)
  | ECharacter value => mret (VCharacter value)
  | EBool value => mret (VBool value)
  | EIdentifier name =>
    found ← gets (λ s, lookup_scopes (scopes s) name);
    lift (ok_or found (eval_error ("`" +:+ name +:+ "` has no compile-time value") sp))
  | EArray values =>
    values ← mapS (λ v, eval (node v) (span v) (depth + 1)) values;
    mret (VArray values)
  | EStructConstruct name _ fields =>
    values ← mapS (λ f,
               match f with
               | mkStructFieldValue field _ v =>
                 v ← eval (node v) (span v) (depth + 1); mret (field, v)
               end) fields;
    mret (VStruct name (fold_left (λ m '(field, v), bt_insert field v m) values []))
  | EFieldAccess object field _ =>
    value ← eval (node object) (span object) (depth + 1);
    match value with
    | VStruct _ fields =>
      lift (ok_or (bt_get field fields)
              (eval_error ("unknown compile-time field `" +:+ field +:+ "`") sp))
    | _ => throw (eval_error "compile-time field access requires a struct value" sp)
    end
  | EUnary operator operand =>
    value ← eval (node operand) (span operand) (depth + 1);
    lift (eval_unary operator value sp)
  | EBinary l operator r => eval_binary eval l operator r depth sp
  | EMatch value arms =>
    value ← eval (node value) (span value) (depth + 1);
    eval_arms eval value depth sp arms
  | _ =>
    throw (eval_error "expression is not available in deterministic compile-time evaluation" sp)
  end.

(** [measure]: the nodes of a value and the bytes of its strings. *)
Definition add_counts (total child : Z * Z) : Z * Z :=
  (saturating_add USIZE_MAX (fst total) (fst child),
   saturating_add USIZE_MAX (snd total) (snd child)).
Fixpoint measure (value : Value) : Z * Z :=
  match value with
  | VString s => (1, str_len s)
  | VArray values => fold_left (λ total v, add_counts total (measure v)) values (1, 0)
  | VStruct _ fields =>
    fold_left (λ total '(_, v), add_counts total (measure v)) fields (1, 0)
  | _ => (1, 0)
  end.

Definition charge_value (value : Value) (sp : Span) : Ev unit := λ e,
  let '(nodes, bytes) := measure value in
  let e := set_usage (saturating_add USIZE_MAX (value_nodes e) nodes)
             (saturating_add USIZE_MAX (string_bytes e) bytes) e in
  _ ← bail_if (limit_value_nodes limits <? value_nodes e)
        (limit_error ("compile-time values exceeded " +:+ display_Z (limit_value_nodes limits)
                      +:+ " nodes") sp);
  _ ← bail_if (limit_string_bytes limits <? string_bytes e)
        (limit_error ("compile-time strings exceeded " +:+ display_Z (limit_string_bytes limits)
                      +:+ " bytes") sp);
  Ok (tt, e).

(** The [const] branch of [visit_statement]. *)
Definition visit_constant (name : string) (value : option Expr) (sp : Span) : Ev unit :=
  initializer ← lift (expect value);
  value ← eval (node initializer) (span initializer) 0;
  _ ← charge_value value sp;
  function ← gets function;
  _ ← modify (push_constant (mkConstant function name sp value));
  bind_name name (Some value).

Definition is_const (kind : BindingKind) : bool :=
  match kind with BConst => true | _ => false end.

Fixpoint visit_nested_closures (e : Expression) {struct e} : Ev unit :=
  let visit (e : Expr) := visit_nested_closures (node e) in
  match e with
  | EClosure _ parameters _ body =>
    _ ← push_scope (parameter_scope parameters);
    _ ← match body with
        | CBlock block => visit_block block
        | CExpression value => visit value
        end;
    pop_scope
  | EArray values => iterS visit values
  | EStructConstruct _ _ fields =>
    iterS (λ f, match f with mkStructFieldValue _ _ v => visit v end) fields
  | EFieldAccess object _ _ | ETry object | EAwait object | ESpawn object | EMove object
  | EDereference object | EUnary _ object => visit object
  | EBorrow _ target => visit target
  | EIndex object index => _ ← visit object; visit index
  | ESubslice object start end_ => _ ← visit object; _ ← visit start; visit end_
  | EMatch value arms =>
    _ ← visit value;
    iterS (λ arm,
      match arm with
      | mkMatchArm _ _ guard value _ => _ ← whenS visit guard; visit value
      end) arms
  | EBinary l _ r => _ ← visit l; visit r
  | ECall callee arguments => _ ← visit callee; iterS visit arguments
  | EDataStore path => whenS visit path
  | EDataWrite value store _ => _ ← visit value; visit store
  | EDataQuery _ _ _ aggregate store predicate order limit =>
    _ ← whenS visit aggregate;
    _ ← visit store;
    _ ← whenS visit predicate;
    _ ← whenS (λ o, match o with mkDataOrder key _ _ => visit key end) order;
    whenS visit limit
  | EDataRemove _ _ store predicate => _ ← visit store; visit predicate
  | EInteger _ | EFloat _ | EString _ | ECharacter _ | EBool _ | EIdentifier _ => mret tt
  end
with visit_statement (s : Statement) (sp : Span) {struct s} : Ev unit :=
  let visit (e : Expr) := visit_nested_closures (node e) in
  let visit_block_with_shadow body name :=
    _ ← push_scope (shadow_scope [name]);
    _ ← visit_block body;
    pop_scope in
  match s with
  | SBinding kind name _ _ value =>
    _ ← if is_const kind then visit_constant name value sp else bind_name name None;
    whenS visit value
  | SAssignment _ _ _ value => visit value
  | SPlaceAssignment target _ value => _ ← visit target; visit value
  | SExpression value => visit value
  | SReturn value => whenS visit value
  | SIf condition then_branch else_branch =>
    _ ← visit condition;
    _ ← visit_block then_branch;
    whenS visit_block else_branch
  | SWhile condition body => _ ← visit condition; visit_block body
  | SFor name _ start end_ _ body =>
    _ ← visit start;
    _ ← visit end_;
    visit_block_with_shadow body name
  | SForEach name _ iterable body =>
    _ ← visit iterable;
    visit_block_with_shadow body name
  | SLoop body | SUnsafe _ body => visit_block body
  | SBreak | SContinue => mret tt
  end
with visit_block (b : Block) {struct b} : Ev unit :=
  match b with
  | mkBlock statements _ =>
    _ ← push_scope ∅;
    _ ← iterS (λ s, visit_statement (node s) (span s)) statements;
    pop_scope
  end.

(** One function or method of the program. *)
Definition visit_function (name : string) (f : Function) : Ev unit :=
  _ ← modify (set_function name);
  _ ← modify (set_scopes [parameter_scope (fn_parameters f)]);
  visit_block (fn_body f).

Definition is_external (f : Function) : bool :=
  match fn_external f with Some _ => true | None => false end.

Definition method_name (index : nat) (method : Function) : string :=
  "impl" +:+ display_Z (Z.of_nat index) +:+ "." +:+ fn_name method.

Definition evaluate_program (program : Program) : Ev unit :=
  _ ← iterS (λ f, if is_external f then mret tt else visit_function (fn_name f) f)
        (program_functions program);
  iterS (λ '(index, implementation),
           iterS (λ method, visit_function (method_name index method) method)
             (impl_methods implementation))
    (imap pair (program_implementations program)).

Definition evaluate_with_limits (program : Program) : outcome Diagnostic Report :=
  '(_, e) ← evaluate_program program (mkEvaluator [] [] "" 0 0 0);
  Ok (mkReport (constants e) (steps e)).
End evaluator.

Definition evaluate (program : Program) : outcome Diagnostic Report :=
  evaluate_with_limits default_limits program.

(** ** Constant folding *)

(** A method of [Folder]: its state is the stack of scopes. *)
Definition Fd : Type → Type := SM (list Scope) Empty_set.

Definition fold_push (scope : Scope) : Fd unit := modify (cons scope).
Definition fold_pop : Fd unit := modify tail.
Definition fold_bind (name : string) (value : option Value) : Fd unit := λ scopes,
  scopes ← insert_top name value scopes; Ok (tt, scopes).

Section folder.
Context (report_constants : list Constant) (function : string).

Definition find_constant (name : string) (sp : Span) : option Value :=
  constant_value <$>
    List.find (λ c, String.eqb (constant_function c) function
                    && String.eqb (constant_name c) name
                    && bool_decide (constant_span c = sp)) report_constants.

Fixpoint fold_expr (e : Expression) (sp : Span) {struct e} : Fd Expr :=
  let fold (e : Expr) := fold_expr (node e) (span e) in
  let rebuilt (e : Expression) : Fd Expr := mret (mkSpanned e sp) in
  match e with
  | EIdentifier name =>
    found ← gets (λ scopes, lookup_scopes scopes name);
    match found with
    | Some value => mret (value_expression value sp)
    | None => rebuilt e
    end
  | EArray values => values ← mapS fold values; rebuilt (EArray values)
  | EStructConstruct name name_span fields =>
    fields ← mapS (λ f,
               match f with
               | mkStructFieldValue field field_span v =>
                 v ← fold v; mret (mkStructFieldValue field field_span v)
               end) fields;
    rebuilt (EStructConstruct name name_span fields)
  | EFieldAccess object field field_span =>
    object ← fold object; rebuilt (EFieldAccess object field field_span)
  | ETry value => value ← fold value; rebuilt (ETry value)
  | EAwait value => value ← fold value; rebuilt (EAwait value)
  | ESpawn value => value ← fold value; rebuilt (ESpawn value)
  | EMove value => value ← fold value; rebuilt (EMove value)
  | EDereference value => value ← fold value; rebuilt (EDereference value)
  | EUnary operator operand => operand ← fold operand; rebuilt (EUnary operator operand)
  | EBorrow mutable target => target ← fold target; rebuilt (EBorrow mutable target)
  | EIndex object index =>
    object ← fold object; index ← fold index; rebuilt (EIndex object index)
  | ESubslice object start end_ =>
    object ← fold object; start ← fold start; end_ ← fold end_;
    rebuilt (ESubslice object start end_)
  | EMatch value arms =>
    value ← fold value;
    arms ← mapS (λ arm,
             match arm with
             | mkMatchArm pattern group guard value arm_span =>
               _ ← fold_push (shadow_scope (pattern_names (node pattern)));
               guard ← optS fold guard;
               value ← fold value;
               _ ← fold_pop;
               mret (mkMatchArm pattern group guard value arm_span)
             end) arms;
    rebuilt (EMatch value arms)
  | EBinary l operator r => l ← fold l; r ← fold r; rebuilt (EBinary l operator r)
  | ECall callee arguments =>
    callee ← fold callee; arguments ← mapS fold arguments; rebuilt (ECall callee arguments)
  | EClosure move_captures parameters return_type body =>
    _ ← fold_push (parameter_scope parameters);
    body ← match body with
           | CExpression value => value ← fold value; mret (CExpression value)
           | CBlock block => block ← fold_block block; mret (CBlock block)
           end;
    _ ← fold_pop;
    rebuilt (EClosure move_captures parameters return_type body)
  | EDataStore path => path ← optS fold path; rebuilt (EDataStore path)
  | EDataWrite value store replace =>
    value ← fold value; store ← fold store; rebuilt (EDataWrite value store replace)
  | EDataQuery kind schema schema_span aggregate store predicate order limit =>
    aggregate ← optS fold aggregate;
    store ← fold store;
    predicate ← optS fold predicate;
    order ← optS (λ o,
              match o with
              | mkDataOrder key descending order_span =>
                key ← fold key; mret (mkDataOrder key descending order_span)
              end) order;
    limit ← optS fold limit;
    rebuilt (EDataQuery kind schema schema_span aggregate store predicate order limit)
  | EDataRemove schema schema_span store predicate =>
    store ← fold store; predicate ← fold predicate;
    rebuilt (EDataRemove schema schema_span store predicate)
  | EInteger _ | EFloat _ | EString _ | ECharacter _ | EBool _ => rebuilt e
  end
with fold_statement (s : Statement) (sp : Span) {struct s} : Fd Statement :=
  let fold (e : Expr) := fold_expr (node e) (span e) in
  let fold_block_with_shadow block name :=
    _ ← fold_push (shadow_scope [name]);
    block ← fold_block block;
    _ ← fold_pop;
    mret block in
  match s with
  | SBinding kind name name_span annotation value =>
    value ← optS fold value;
    let constant := if is_const kind then find_constant name sp else None in
    let value :=
      match value, constant with
      | Some initializer, Some constant => Some (value_expression constant (span initializer))
      | _, _ => value
      end in
    _ ← fold_bind name constant;
    mret (SBinding kind name name_span annotation value)
  | SAssignment name name_span operator value =>
    value ← fold value; mret (SAssignment name name_span operator value)
  | SPlaceAssignment target operator value =>
    target ← fold target; value ← fold value; mret (SPlaceAssignment target operator value)
  | SExpression value => value ← fold value; mret (SExpression value)
  | SReturn value => value ← optS fold value; mret (SReturn value)
  | SIf condition then_branch else_branch =>
    condition ← fold condition;
    then_branch ← fold_block then_branch;
    else_branch ← optS fold_block else_branch;
    mret (SIf condition then_branch else_branch)
  | SWhile condition body =>
    condition ← fold condition; body ← fold_block body; mret (SWhile condition body)
  | SFor name name_span start end_ inclusive body =>
    start ← fold start;
    end_ ← fold end_;
    body ← fold_block_with_shadow body name;
    mret (SFor name name_span start end_ inclusive body)
  | SForEach name name_span iterable body =>
    iterable ← fold iterable;
    body ← fold_block_with_shadow body name;
    mret (SForEach name name_span iterable body)
  | SLoop body => body ← fold_block body; mret (SLoop body)
  | SUnsafe capabilities body => body ← fold_block body; mret (SUnsafe capabilities body)
  | SBreak => mret SBreak
  | SContinue => mret SContinue
  end
with fold_block (b : Block) {struct b} : Fd Block :=
  match b with
  | mkBlock statements block_span =>
    _ ← fold_push ∅;
    statements ← mapS (λ s, s' ← fold_statement (node s) (span s);
                            mret (mkSpanned s' (span s))) statements;
    _ ← fold_pop;
    mret (mkBlock statements block_span)
  end.
End folder.

Definition set_body (f : Function) (body : Block) : Function :=
  mkFunction (fn_asynchronous f) (fn_name f) (fn_name_span f) (fn_generics f) (fn_parameters f)
    (fn_return_type f) (fn_capabilities f) body (fn_external f) (fn_exported f) (fn_span f).

(** One function or method: its parameters are the only names in scope. *)
Definition fold_function (constants : list Constant) (name : string) (f : Function)
    : outcome Empty_set Function :=
  '(body, _) ← fold_block constants name (fn_body f) [parameter_scope (fn_parameters f)];
  Ok (set_body f body).

Definition set_methods (i : Implementation) (methods : list Function) : Implementation :=
  mkImplementation (impl_generics i) (impl_trait_name i) (impl_target i)
    (impl_associated_types i) methods (impl_span i).

Fixpoint traverse {E A B} (f : A → outcome E B) (l : list A) : outcome E (list B) :=
  match l with
  | [] => Ok []
  | a :: l => b ← f a; bs ← traverse f l; Ok (b :: bs)
  end.

Definition fold (program : Program) (report : Report) : outcome Empty_set Program :=
  let constants := report_constants report in
  functions ← traverse (λ f, if is_external f then Ok f
                             else fold_function constants (fn_name f) f)
                (program_functions program);
  implementations ← traverse (λ '(index, implementation),
      methods ← traverse (λ m, fold_function constants (method_name index m) m)
                  (impl_methods implementation);
      Ok (set_methods implementation methods))
    (imap pair (program_implementations program));
  Ok (mkProgram (program_source_files program) (program_module program)
        (program_imports program) (program_public_items program) (program_structs program)
        (program_enums program) (program_traits program) implementations functions).
