(* ===== verification/ConstEvalProps.v ===== *)
(** * Compile-time evaluation: integers, meaning and budgets

    [apply_binary] on integers is exact arithmetic with overflow; [eval] computes the
    budget-free [meaning] of an expression, fails only when that is undefined or a budget
    is short, and never panics; a report stays within every budget. *)

From S2P Require Import Prelude Machine Diagnostics StateM BTree Ast ConstEval.
#[local] Open Scope string_scope.
#[local] Open Scope list_scope.
#[local] Open Scope Z_scope.

(** ** Integers *)

Definition to_Z (i : Integer) : Z := if negative i then - magnitude i else magnitude i.
Definition of_Z (z : Z) : Integer := mkInteger (z <? 0) (Z.abs z).

(** A [u128] magnitude, and no negative zero. *)
Definition wf_integer (i : Integer) : Prop :=
  0 <= magnitude i <= U128_MAX ∧ (negative i = true → magnitude i ≠ 0).

Lemma of_to_Z i : wf_integer i → of_Z (to_Z i) = i.
Proof.
  destruct i as [[] m]; unfold wf_integer, of_Z, to_Z; simpl; intros [? Hz]; f_equal.
  - apply Z.ltb_lt. specialize (Hz eq_refl). lia.
  - lia.
  - apply Z.ltb_ge. lia.
  - lia.
Qed.

Lemma normalized_of_Z neg m :
  0 <= m → normalized neg m = of_Z (if neg then - m else m).
Proof.
  intros Hm. unfold normalized, of_Z. destruct neg; simpl; f_equal; lia.
Qed.

Lemma wf_of_Z z : Z.abs z <= U128_MAX → wf_integer (of_Z z).
Proof.
  intros H. split; unfold of_Z; simpl; [lia|]. intros ?%Z.ltb_lt. lia.
Qed.

Lemma wf_normalized neg m : 0 <= m <= U128_MAX → wf_integer (normalized neg m).
Proof.
  intros H. split; [done|]. simpl. destruct (Z.eqb_spec m 0); simpl; [|done].
  by rewrite andb_false_r.
Qed.

Lemma to_Z_negate i : to_Z (negate i) = - to_Z i.
Proof.
  destruct i as [[] m]; unfold negate, normalized, to_Z; simpl; [lia|].
  destruct (Z.eqb_spec m 0); simpl; lia.
Qed.

Lemma wf_negate i : wf_integer i → wf_integer (negate i).
Proof. intros [H _]. by apply wf_normalized. Qed.

(** Exact arithmetic; [None] is a division by zero. *)
Definition exact (operator : BinaryOperator) (a b : Z) : option Z :=
  match operator with
  | BAdd => Some (a + b)
  | BSubtract => Some (a - b)
  | BMultiply => Some (a * b)
  | BDivide => if b =? 0 then None else Some (Z.quot a b)
  | BRemainder => if b =? 0 then None else Some (Z.rem a b)
  | _ => None
  end.

Definition is_arithmetic (operator : BinaryOperator) : bool :=
  match operator with
  | BAdd | BSubtract | BMultiply | BDivide | BRemainder => true
  | _ => false
  end.

Definition in_u128 (z : Z) : option Z := if Z.abs z <=? U128_MAX then Some z else None.

Lemma integer_checked_add_exact l r :
  wf_integer l → wf_integer r → integer_checked_add l r = of_Z <$> in_u128 (to_Z l + to_Z r).
Proof.
  destruct l as [nl ml], r as [nr mr].
  unfold wf_integer, integer_checked_add, in_u128, to_Z, checked_add; simpl.
  intros [Hl _] [Hr _]. unfold try_from.
  destruct nl, nr; simpl;
    repeat match goal with
    | |- context [?a <=? ?b] => destruct (Z.leb_spec a b); simpl; try lia
    end; rewrite ?normalized_of_Z by lia; repeat f_equal; lia.
Qed.

Lemma signed_quot nl ml nr mr :
  0 <= ml → 0 < mr →
  (if negb (Bool.eqb nl nr) then - (ml / mr) else ml / mr)
  = Z.quot (if nl : bool then - ml else ml) (if nr : bool then - mr else mr).
Proof.
  intros. rewrite <- (Z.quot_div_nonneg ml mr) by lia.
  destruct nl, nr; simpl; rewrite ?Z.quot_opp_l, ?Z.quot_opp_r by lia; lia.
Qed.

Lemma signed_rem nl ml nr mr :
  0 <= ml → 0 < mr →
  (if nl : bool then - (ml mod mr) else ml mod mr)
  = Z.rem (if nl then - ml else ml) (if nr : bool then - mr else mr).
Proof.
  intros. rewrite <- (Z.rem_mod_nonneg ml mr) by lia.
  destruct nl, nr; rewrite ?Z.rem_opp_l, ?Z.rem_opp_r by lia; lia.
Qed.

Lemma wf_to_Z_0 r : wf_integer r → (to_Z r =? 0) = (magnitude r =? 0).
Proof.
  destruct r as [[] m]; unfold wf_integer, to_Z; simpl; [|done].
  intros [? H]. specialize (H eq_refl).
  destruct (Z.eqb_spec (- m) 0), (Z.eqb_spec m 0); lia.
Qed.

Lemma integer_compare_exact l r :
  wf_integer l → wf_integer r → integer_compare l r = (to_Z l ?= to_Z r).
Proof.
  destruct l as [[] ml], r as [[] mr]; unfold wf_integer, integer_compare, to_Z; simpl;
    intros [Hl Hl'] [Hr Hr'].
  - by rewrite <- Z.compare_opp.
  - symmetry. apply Z.compare_lt_iff. specialize (Hl' eq_refl). lia.
  - symmetry. apply Z.compare_gt_iff. specialize (Hr' eq_refl). lia.
  - done.
Qed.

(** The outcome of an arithmetic operator on integers. *)
Definition exact_outcome (o : option Z) (sp : Span) : outcome Diagnostic Value :=
  match o with
  | None => Err (eval_error "division by zero during compile-time evaluation" sp)
  | Some z =>
    match in_u128 z with
    | Some z => Ok (VInteger (of_Z z))
    | None => Err (eval_error "compile-time integer overflow" sp)
    end
  end.

Lemma in_u128_some z : Z.abs z <= U128_MAX → in_u128 z = Some z.
Proof. intros H. unfold in_u128. by rewrite (proj2 (Z.leb_le _ _) H). Qed.

Lemma apply_multiply l r sp :
  wf_integer l → wf_integer r →
  apply_binary (VInteger l) BMultiply (VInteger r) sp = exact_outcome (Some (to_Z l * to_Z r)) sp.
Proof.
  intros [Hl _] [Hr _]. simpl. unfold checked_mul, try_from, in_u128.
  assert (Z.abs (to_Z l * to_Z r) = magnitude l * magnitude r) as ->.
  { unfold to_Z. rewrite Z.abs_mul. destruct (negative l), (negative r); lia. }
  rewrite (proj2 (Z.leb_le 0 (magnitude l * magnitude r))) by nia. simpl.
  destruct (magnitude l * magnitude r <=? U128_MAX); simpl; [|done].
  rewrite normalized_of_Z by nia. repeat f_equal.
  unfold to_Z. destruct (negative l), (negative r); simpl; lia.
Qed.

Lemma quot_bound a b : b ≠ 0 → Z.abs (Z.quot a b) <= Z.abs a.
Proof.
  intros Hb. rewrite <- Z.quot_abs by done. rewrite Z.quot_div_nonneg by lia.
  apply Z.div_le_upper_bound; nia.
Qed.

Lemma rem_bound a b : b ≠ 0 → Z.abs (Z.rem a b) <= Z.abs a.
Proof.
  intros Hb. rewrite <- Z.rem_abs by done. rewrite Z.rem_mod_nonneg by lia.
  apply Z.mod_le; lia.
Qed.

Lemma abs_to_Z i : wf_integer i → Z.abs (to_Z i) = magnitude i.
Proof. intros [H _]. unfold to_Z. destruct (negative i); lia. Qed.

Lemma apply_divide l r sp operator :
  operator = BDivide ∨ operator = BRemainder →
  wf_integer l → wf_integer r →
  apply_binary (VInteger l) operator (VInteger r) sp
  = exact_outcome (exact operator (to_Z l) (to_Z r)) sp.
Proof.
  intros Hop Hl Hr. pose proof (proj1 Hl). pose proof (proj1 Hr).
  pose proof (abs_to_Z l Hl). pose proof (abs_to_Z r Hr).
  destruct Hop as [-> | ->]; simpl; rewrite (wf_to_Z_0 r Hr);
    destruct (Z.eqb_spec (magnitude r) 0) as [E|E]; try done; simpl.
  - rewrite in_u128_some by (pose proof (quot_bound (to_Z l) (to_Z r)); lia).
    rewrite normalized_of_Z by (apply Z.div_pos; lia). repeat f_equal.
    apply signed_quot; lia.
  - rewrite in_u128_some by (pose proof (rem_bound (to_Z l) (to_Z r)); lia).
    rewrite normalized_of_Z by (apply Z.mod_pos_bound; lia). repeat f_equal.
    apply signed_rem; lia.
Qed.

(** C21: Integer constants: on well-formed operands the arithmetic operators compute the
    exact result on integers (division and remainder truncate towards zero), report an
    overflow exactly when the result's magnitude does not fit 128 bits and a division by
    zero exactly when the divisor is zero; comparisons compare the integers. *)
Theorem integer_operators_exact (l r : Integer) (operator : BinaryOperator) (sp : Span) :
  wf_integer l → wf_integer r →
  (is_arithmetic operator = true →
   apply_binary (VInteger l) operator (VInteger r) sp
   = exact_outcome (exact operator (to_Z l) (to_Z r)) sp) ∧
  (is_comparison operator = true →
   apply_binary (VInteger l) operator (VInteger r) sp
   = Ok (VBool (compare_ordering (to_Z l ?= to_Z r) operator))).
Proof.
  intros Hl Hr. split; intros Hop.
  - destruct operator; try discriminate; auto using apply_multiply, apply_divide.
    + simpl. rewrite integer_checked_add_exact by done. by destruct (in_u128 _).
    + simpl. rewrite integer_checked_add_exact by auto using wf_negate.
      rewrite to_Z_negate, Z.add_opp_r. by destruct (in_u128 _).
  - rewrite <- (integer_compare_exact l r Hl Hr). destruct operator; done.
Qed.

Lemma integer_operators_exact_witness :
  apply_binary (VInteger (mkInteger true 7)) BDivide (VInteger (positive 2)) (point 1 1)
  = exact_outcome (Some (-3)) (point 1 1).
Proof.
  apply (integer_operators_exact (mkInteger true 7) (positive 2) BDivide (point 1 1));
    [split; [vm_compute; split; discriminate|discriminate]..|reflexivity].
Defined.

(** ** The meaning of an expression, without budgets *)

Definition result {A} (m : outcome Diagnostic A) : option A :=
  match m with Ok a => Some a | _ => None end.

Definition meaning_binary (meaning : Expression → option Value) (l : Expr)
    (operator : BinaryOperator) (r : Expr) (sp : Span) : option Value :=
  l ← meaning (node l);
  match operator, l with
  | BAnd, VBool false => Some (VBool false)
  | BOr, VBool true => Some (VBool true)
  | _, _ => r ← meaning (node r); result (apply_binary l operator r sp)
  end.

Fixpoint meaning_arms (meaning : list Scope → Expression → option Value) (σ : list Scope)
    (value : Value) (arms : list MatchArm) : option Value :=
  match arms with
  | [] => None
  | mkMatchArm pattern _ guard body _ :: arms =>
    let '(matched, bindings) := pattern_matches (node pattern) value ∅ in
    if matched then
      let σ' := (Some <$> bindings : Scope) :: σ in
      holds ← match guard with
              | Some guard => value ← meaning σ' (node guard); Some (guard_holds value)
              | None => Some true
              end;
      if (holds : bool) then meaning σ' (node body) else meaning_arms meaning σ value arms
    else meaning_arms meaning σ value arms
  end.

(** The span only reaches error messages, so any span gives the same meaning. *)
Fixpoint meaning (σ : list Scope) (e : Expression) {struct e} : option Value :=
  match e with
  | EInteger value => Some (VInteger (positive value))
  | EFloat value => Some (VFloat value)
  | EString value => Some (VString value)
  | ECharacter value => Some (VCharacter value)
  | EBool value => Some (VBool value)
  | EIdentifier name => lookup_scopes σ name
  | EArray values => VArray <$> mapM (λ v, meaning σ (node v)) values
  | EStructConstruct name _ fields =>
    values ← mapM (λ f,
               match f with
               | mkStructFieldValue field _ v => v ← meaning σ (node v); Some (field, v)
               end) fields;
    Some (VStruct name (fold_left (λ m '(field, v), bt_insert field v m) values []))
  | EFieldAccess object field _ =>
    value ← meaning σ (node object);
    match value with VStruct _ fields => bt_get field fields | _ => None end
  | EUnary operator operand =>
    value ← meaning σ (node operand); result (eval_unary operator value (point 0 0))
  | EBinary l operator r => meaning_binary (meaning σ) l operator r (point 0 0)
  | EMatch value arms =>
    value ← meaning σ (node value); meaning_arms meaning σ value arms
  | _ => None
  end.

(** The steps an evaluation may take and the depth it may reach. *)
Definition zsum (l : list Z) : Z := foldr Z.add 0 l.
Definition zmax (l : list Z) : Z := foldr Z.max 0 l.

Fixpoint size (e : Expression) : Z :=
  1 + match e with
      | EArray values => zsum (map (λ v, size (node v)) values)
      | EStructConstruct _ _ fields =>
        zsum (map (λ f, match f with mkStructFieldValue _ _ v => size (node v) end) fields)
      | EFieldAccess object _ _ => size (node object)
      | EUnary _ operand => size (node operand)
      | EBinary l _ r => size (node l) + size (node r)
      | EMatch value arms =>
        size (node value)
        + zsum (map (λ a, match a with
                          | mkMatchArm _ _ guard body _ =>
                            match guard with Some g => size (node g) | None => 0 end
                            + size (node body)
                          end) arms)
      | _ => 0
      end.

Fixpoint height (e : Expression) : Z :=
  match e with
  | EArray values => zmax (map (λ v, 1 + height (node v)) values)
  | EStructConstruct _ _ fields =>
    zmax (map (λ f, match f with mkStructFieldValue _ _ v => 1 + height (node v) end) fields)
  | EFieldAccess object _ _ => 1 + height (node object)
  | EUnary _ operand => 1 + height (node operand)
  | EBinary l _ r => 1 + Z.max (height (node l)) (height (node r))
  | EMatch value arms =>
    Z.max (1 + height (node value))
      (zmax (map (λ a, match a with
                       | mkMatchArm _ _ guard body _ =>
                         1 + Z.max (match guard with Some g => height (node g) | None => 0 end)
                               (height (node body))
                       end) arms))
  | _ => 0
  end.

Lemma zsum_nonneg l : Forall (λ z, 0 <= z) l → 0 <= zsum l.
Proof. induction 1; simpl; lia. Qed.
Lemma zsum_app l1 l2 : zsum (l1 ++ l2) = zsum l1 + zsum l2.
Proof. unfold zsum. induction l1; simpl; lia. Qed.
Lemma zsum_map_nonneg {A} (P : A → Prop) (c : A → Z) l :
  Forall P l → (∀ a, P a → 0 <= c a) → 0 <= zsum (map c l).
Proof. induction 1; intros Hc; simpl; [done|]. pose proof (Hc x). intuition lia. Qed.
Lemma zmax_nonneg l : 0 <= zmax l.
Proof. induction l; simpl; lia. Qed.
Lemma zmax_map_in {A} (c : A → Z) l a : a ∈ l → c a <= zmax (map c l).
Proof. induction 1; simpl; lia. Qed.

(** ** Evaluation computes the meaning *)

Section computes.
Context (limits : Limits).

(** Run from [s], [m] either returns what [o] says, having only advanced the step counter
    by at most [cost] and within the limit, or fails because [o] is undefined or because
    [cost] steps or depth [deep] exceed a limit. *)
Definition computes {A} (m : Ev A) (s : Evaluator) (o : option A) (cost deep : Z) : Prop :=
  match m s with
  | Ok (a, s') =>
    o = Some a ∧ ∃ n, s' = set_steps n s ∧ steps s <= n <= steps s + cost
                      ∧ (n = steps s ∨ n <= limit_steps limits)
  | Err _ => o = None ∨ limit_steps limits < steps s + cost ∨ limit_depth limits < deep
  | Panic => False
  end.

Lemma set_steps_twice n m s : set_steps n (set_steps m s) = set_steps n s.
Proof. done. Qed.
Lemma set_steps_same s : set_steps (steps s) s = s.
Proof. by destruct s. Qed.

Lemma computes_weaken {A} (m : Ev A) s o c d c' d' :
  computes m s o c d → c <= c' → d <= d' → computes m s o c' d'.
Proof.
  unfold computes. destruct (m s) as [[a s']|e|]; [|intuition lia|done].
  intros (-> & n & -> & ? & ?) ??. split; [done|]. exists n. split; [done|]. lia.
Qed.

Lemma computes_bind {A B} (m : Ev A) (f : A → Ev B) s o g c1 c2 d :
  computes m s o c1 d →
  (∀ a n, o = Some a → steps s <= n → computes (f a) (set_steps n s) (g a) c2 d) →
  0 <= c2 → computes (m ≫= f) s (o ≫= g) (c1 + c2) d.
Proof.
  unfold computes at 1 3, mbind, SM_bind. intros Hm Hf Hc.
  destruct (m s) as [[a s']|e|]; simpl in *; [|intuition (subst; auto; lia)|done].
  destruct Hm as (-> & n & -> & Hn & Hl). specialize (Hf a n eq_refl (proj1 Hn)).
  unfold computes in Hf. simpl.
  destruct (f a (set_steps n s)) as [[b s'']|e|]; simpl in *; [|intuition lia|done].
  destruct Hf as (-> & k & -> & Hk & Hl'). split; [done|].
  exists k. split; [done|]. lia.
Qed.

Lemma computes_ret {A} (a : A) s d : computes (mret a) s (Some a) 0 d.
Proof.
  split; [done|]. exists (steps s). rewrite set_steps_same. split; [done|]. lia.
Qed.

Lemma computes_lift {A} (m : outcome Diagnostic A) s d :
  m ≠ Panic → computes (lift m) s (result m) 0 d.
Proof.
  intros Hm. destruct m as [a|e|]; [apply computes_ret|by left|done].
Qed.

Lemma computes_ok_or {A} (o : option A) e s d : computes (lift (ok_or o e)) s o 0 d.
Proof. destruct o as [a|]; [apply computes_ret|by left]. Qed.

Lemma computes_gets {A B} (f : Evaluator → A) (k : A → Ev B) s o c d :
  computes (k (f s)) s o c d → computes (a ← gets f; k a) s o c d.
Proof. done. Qed.

Lemma computes_throw {A} e s d : computes (throw e : Ev A) s None 0 d.
Proof. by left. Qed.

Lemma computes_fmap {A B} (f : A → B) (m : Ev A) s o c d :
  computes m s o c d → computes (a ← m; mret (f a)) s (f <$> o) c d.
Proof.
  intros H. replace (f <$> o) with (o ≫= λ a, Some (f a)) by done.
  rewrite <- (Z.add_0_r c). eapply computes_bind; [done| |lia].
  intros; apply computes_ret.
Qed.

Lemma computes_mapS {A B} (f : A → Ev B) g (c : A → Z) d l :
  Forall (λ a, 0 <= c a) l → ∀ s,
  Forall (λ a, ∀ n, steps s <= n → computes (f a) (set_steps n s) (g a) (c a) d) l →
  computes (mapS f l) s (mapM g l) (zsum (map c l)) d.
Proof.
  induction 1 as [|a l Ha Hl IH]; intros s; [intros _; apply computes_ret|].
  intros [Hf Hfs]%Forall_cons. simpl. apply computes_bind.
  - specialize (Hf (steps s)). rewrite set_steps_same in Hf. apply Hf. lia.
  - intros b n _ Hn. apply (computes_fmap (cons b)), IH.
    eapply Forall_impl; [exact Hfs|]. simpl. intros x Hx k Hk. apply Hx. lia.
  - apply zsum_nonneg, Forall_map. done.
Qed.

Lemma computes_charge sp depth s :
  limit_steps limits <= USIZE_MAX → 0 <= steps s →
  computes (charge_step limits sp depth) s (Some tt) 1 depth.
Proof.
  intros Hlim Hs. unfold computes, charge_step, checked_add, try_from.
  rewrite (proj2 (Z.leb_le 0 _)) by lia. cbn [andb].
  destruct (Z.leb_spec (steps s + 1) USIZE_MAX); cbn; [|lia].
  destruct (Z.ltb_spec (limit_steps limits) (steps s + 1)); cbn; [lia|].
  destruct (Z.ltb_spec (limit_depth limits) depth); cbn; [lia|].
  split; [done|]. exists (steps s + 1). split; [done|]. lia.
Qed.
End computes.

Lemma apply_binary_span l operator r sp sp' :
  result (apply_binary l operator r sp) = result (apply_binary l operator r sp').
Proof.
  destruct l, r; simpl; try done; destruct operator; simpl; try done;
    unfold overflow_or; by repeat case_match.
Qed.
Lemma apply_binary_no_panic l operator r sp : apply_binary l operator r sp ≠ Panic.
Proof.
  destruct l, r; simpl; try done; destruct operator; simpl; try done;
    unfold overflow_or; by repeat case_match.
Qed.
Lemma eval_unary_span operator v sp sp' :
  result (eval_unary operator v sp) = result (eval_unary operator v sp').
Proof. by destruct operator, v. Qed.
Lemma eval_unary_no_panic operator v sp : eval_unary operator v sp ≠ Panic.
Proof. by destruct operator, v. Qed.

Lemma size_pos e : 1 <= size e.
Proof.
  induction e using Expression_mind with (P0 := λ _, True) (P1 := λ _, True)
    (P2 := λ f, match f with mkStructFieldValue _ _ v => 1 <= size (node v) end)
    (P3 := λ a, match a with mkMatchArm _ _ guard v _ =>
                  on_some (λ g : Expr, 1 <= size (node g)) guard ∧ 1 <= size (node v) end)
    (P4 := λ _, True) (P5 := λ _, True); nested; simpl; try done; try lia.
  - enough (0 <= zsum (map (λ v : Expr, size (node v)) values)) by lia.
    eapply zsum_map_nonneg; [exact H|]. simpl. lia.
  - match goal with |- context [zsum ?l] => enough (0 <= zsum l) by lia end.
    eapply zsum_map_nonneg; [exact H|]. intros [???]; simpl. lia.
  - match goal with |- context [zsum ?l] => enough (0 <= zsum l) by lia end.
    eapply zsum_map_nonneg; [exact H0|]. intros [?? [g|] ? ?]; simpl; lia.
Qed.

Lemma height_nonneg e : 0 <= height e.
Proof.
  induction e using Expression_mind with (P0 := λ _, True) (P1 := λ _, True)
    (P2 := λ _, True) (P3 := λ _, True) (P4 := λ _, True) (P5 := λ _, True);
    nested; simpl; try done; try apply zmax_nonneg; lia.
Qed.

(** A list of arms, or of fields, inherits what each part has. *)
Section eval_meaning.
Context (limits : Limits) (Hlimit : limit_steps limits <= USIZE_MAX).

Definition evaluates (e : Expression) : Prop := ∀ sp depth s,
  0 <= steps s →
  computes limits (eval limits e sp depth) s (meaning (scopes s) e) (size e) (depth + height e).

Lemma evaluates_part e sp depth s n d :
  evaluates e → 0 <= steps s → steps s <= n → depth + height e <= d →
  computes limits (eval limits e sp depth) (set_steps n s) (meaning (scopes s) e) (size e) d.
Proof.
  intros He Hs Hn Hd. eapply computes_weaken; [apply (He sp depth (set_steps n s))|lia|done].
  simpl. lia.
Qed.

Definition arm_evaluates (a : MatchArm) : Prop :=
  match a with
  | mkMatchArm _ _ guard v _ => on_some (λ g : Expr, evaluates (node g)) guard ∧ evaluates (node v)
  end.

Definition arm_size (a : MatchArm) : Z :=
  match a with
  | mkMatchArm _ _ guard body _ =>
    match guard with Some g => size (node g) | None => 0 end + size (node body)
  end.
Definition arm_height (a : MatchArm) : Z :=
  match a with
  | mkMatchArm _ _ guard body _ =>
    1 + Z.max (match guard with Some g => height (node g) | None => 0 end) (height (node body))
  end.

Lemma arm_size_pos a : 1 <= arm_size a.
Proof.
  destruct a as [?? [g|] ? ?]; simpl; [pose proof (size_pos (node g))|];
    pose proof (size_pos (node value)); lia.
Qed.

Definition guard_meaning (σ : list Scope) (guard : option Expr) : option bool :=
  match guard with
  | Some guard => value ← meaning σ (node guard); Some (guard_holds value)
  | None => Some true
  end.

Lemma guard_computes guard s depth d :
  on_some (λ g : Expr, evaluates (node g)) guard → 0 <= steps s →
  depth + 1 + match guard with Some g => height (node g) | None => 0 end <= d →
  computes limits
    (match guard with
     | Some guard =>
       value ← eval limits (node guard) (span guard) (depth + 1); mret (guard_holds value)
     | None => mret true
     end) s (guard_meaning (scopes s) guard)
    match guard with Some g => size (node g) | None => 0 end d.
Proof.
  intros Hg Hs Hd. destruct guard as [g|]; [|apply computes_ret].
  apply (computes_fmap limits guard_holds).
  eapply computes_weaken; [by apply Hg|lia|done].
Qed.

(** One arm: the guard and the body run under the pattern's bindings, which are popped
    before the result is returned or the next arm is tried. *)
Lemma computes_arm scope (G : Ev bool) (B rest : Ev Value) s og ob orest cg cb cr d :
  let s1 := set_scopes (scope :: scopes s) s in
  computes limits G s1 og cg d →
  (∀ n, steps s <= n → computes limits B (set_steps n s1) ob cb d) →
  (∀ n, steps s <= n → computes limits rest (set_steps n s) orest cr d) →
  0 <= cg → 0 <= cb → 0 <= cr →
  computes limits
    (_ ← push_scope scope; g ← G;
     if (g : bool) then r ← B; _ ← pop_scope; mret r else _ ← pop_scope; rest) s
    (h ← og; if (h : bool) then ob else orest) (cg + cb + cr) d.
Proof.
  intros s1 HG HB Hr ???. unfold computes, push_scope, mbind, SM_bind, modify. simpl.
  fold s1. unfold computes in HG.
  destruct (G s1) as [[h s']|e|]; simpl in *; [|intuition (subst; auto; lia)|done].
  destruct HG as (-> & n & -> & Hn & Hl). destruct h; simpl.
  - specialize (HB n (proj1 Hn)). unfold computes in HB.
    destruct (B (set_steps n s1)) as [[v s']|e|]; simpl in *; [|intuition lia|done].
    destruct HB as (-> & k & -> & Hk & Hl'). split; [done|]. exists k. split; [done|]. lia.
  - specialize (Hr n (proj1 Hn)). unfold computes in Hr.
    replace (set_scopes _ _) with (set_steps n s) by done.
    destruct (rest (set_steps n s)) as [[v s']|e|]; simpl in *; [|intuition lia|done].
    destruct Hr as (-> & k & -> & Hk & Hl'). split; [done|]. exists k. split; [done|]. lia.
Qed.

Lemma eval_arms_computes value depth sp d arms :
  Forall arm_evaluates arms → (∀ a, a ∈ arms → depth + arm_height a <= d) →
  ∀ s, 0 <= steps s →
  computes limits (eval_arms (eval limits) value depth sp arms) s
    (meaning_arms meaning (scopes s) value arms) (zsum (map arm_size arms)) d.
Proof.
  induction 1 as [|[pattern g guard body asp] arms [Hg Hb] Harms IH]; intros Hd s Hs.
  { apply computes_throw. }
  assert (Hrest : ∀ n, steps s <= n →
    computes limits (eval_arms (eval limits) value depth sp arms) (set_steps n s)
      (meaning_arms meaning (scopes s) value arms) (zsum (map arm_size arms)) d).
  { intros n Hn. apply (IH (λ a Ha, Hd a (list_elem_of_further _ _ _ Ha)) (set_steps n s)). simpl; lia. }
  pose proof (Hd _ (list_elem_of_here _ _)) as Hd0. simpl in Hd0.
  cbn [eval_arms meaning_arms map zsum foldr]. fold (zsum (map arm_size arms)).
  destruct (pattern_matches (node pattern) value ∅) as [[] bindings].
  2:{ specialize (Hrest (steps s)). rewrite set_steps_same in Hrest.
      eapply computes_weaken; [apply Hrest; lia| |done].
      pose proof (arm_size_pos (mkMatchArm pattern g guard body asp)). lia. }
  set (s1 := set_scopes ((Some <$> bindings) :: scopes s) s).
  pose proof (size_pos (node body)).
  eapply computes_weaken;
    [apply (computes_arm _ _ _ _ s (guard_meaning (scopes s1) guard) (meaning (scopes s1) (node body)));
     [apply (guard_computes guard s1 depth d); [done|done|lia]|..]| |done].
  - intros n Hn. apply (evaluates_part _ _ (depth + 1)); [done|done|done|lia].
  - exact Hrest.
  - destruct guard as [g'|]; [pose proof (size_pos (node g')); lia|done].
  - lia.
  - apply zsum_map_nonneg with (P := λ _, True); [by apply Forall_true|].
    intros a _. pose proof (arm_size_pos a). lia.
  - simpl. lia.
Qed.

(** The elements of an array or of a struct literal, [part] giving their syntax. *)
Lemma computes_parts {A B} (f : A → Ev B) g (part : A → Expression) s n d l :
  0 <= steps s → steps s <= n →
  (∀ a k, a ∈ l → steps s <= k → computes limits (f a) (set_steps k s) (g a) (size (part a)) d) →
  computes limits (mapS f l) (set_steps n s) (mapM g l) (zsum (map (λ a, size (part a)) l)) d.
Proof.
  intros Hs Hn Hf. apply computes_mapS.
  - apply Forall_true. intros a. pose proof (size_pos (part a)). lia.
  - apply Forall_forall. intros a Ha k Hk. rewrite set_steps_twice. apply Hf; [done|].
    simpl in Hk. lia.
Qed.

(** Charge the step, then run the body of [eval]. *)
Lemma computes_eval {A} sp depth (m : Ev A) s o c d :
  0 <= steps s → depth <= d → 0 <= c →
  (∀ n, steps s <= n → computes limits m (set_steps n s) o c d) →
  computes limits (_ ← charge_step limits sp depth; m) s o (1 + c) d.
Proof.
  intros Hs Hd Hc Hm. replace o with (Some tt ≫= λ _, o) by done.
  apply computes_bind; [|intros [] n _ Hn; by apply Hm|done].
  eapply computes_weaken; [by apply computes_charge|done|done].
Qed.

Lemma computes_bind_1 {A B} (m : Ev A) (f : A → Ev B) s o g c d :
  computes limits m s o c d →
  (∀ a n, o = Some a → steps s <= n → computes limits (f a) (set_steps n s) (g a) 0 d) →
  computes limits (m ≫= f) s (o ≫= g) c d.
Proof.
  intros Hm Hf. rewrite <- (Z.add_0_r c). by apply computes_bind.
Qed.

Lemma binary_computes l operator r depth sp s d :
  evaluates (node l) → evaluates (node r) → 0 <= steps s →
  depth + 1 + height (node l) <= d → depth + 1 + height (node r) <= d →
  computes limits (eval_binary (eval limits) l operator r depth sp) s
    (meaning_binary (meaning (scopes s)) l operator r (point 0 0))
    (size (node l) + size (node r)) d.
Proof.
  intros Hl Hr Hs Hdl Hdr. unfold eval_binary, meaning_binary. pose proof (size_pos (node r)).
  apply computes_bind; [|intros a n _ Hn|lia].
  { rewrite <- (set_steps_same s) at 1. apply (evaluates_part _ _ (depth + 1)); [done|done|lia|lia]. }
  assert (Hdefault : computes limits
    (r ← eval limits (node r) (span r) (depth + 1); lift (apply_binary a operator r sp))
    (set_steps n s)
    (r ← meaning (scopes s) (node r); result (apply_binary a operator r (point 0 0)))
    (size (node r)) d).
  { apply computes_bind_1; [apply (evaluates_part _ _ (depth + 1)); [done|done|lia|lia]|].
    intros b k _ _. rewrite (apply_binary_span _ _ _ (point 0 0) sp).
    apply computes_lift, apply_binary_no_panic. }
  assert (Hret : ∀ b, computes limits (mret (VBool b)) (set_steps n s) (Some (VBool b))
                        (size (node r)) d).
  { intros b. eapply computes_weaken; [apply computes_ret|lia|done]. }
  destruct operator; try exact Hdefault; destruct a as [| | | |[]| |];
    try exact Hdefault; apply Hret.
Qed.

Lemma add_zmax depth l : depth <= depth + zmax l.
Proof. pose proof (zmax_nonneg l). lia. Qed.

Lemma array_evaluates values :
  Forall (λ v : Expr, evaluates (node v)) values → evaluates (EArray values).
Proof.
  intros H sp depth s Hs. cbn [eval meaning size height].
  apply computes_eval; [done|apply add_zmax| |].
  { eapply zsum_map_nonneg; [exact H|]. intros a _. pose proof (size_pos (node a)). lia. }
  intros n Hn. apply (computes_fmap limits VArray).
  apply (computes_parts _ _ node); [done|done|]. intros a k Ha Hk. rewrite Forall_forall in H.
  pose proof (zmax_map_in (λ v : Expr, 1 + height (node v)) _ _ Ha).
  apply (evaluates_part _ _ (depth + 1)); [by apply H|done|done|simpl in *; lia].
Qed.

Lemma struct_evaluates name name_span fields :
  Forall (λ f, match f with mkStructFieldValue _ _ v => evaluates (node v) end) fields →
  evaluates (EStructConstruct name name_span fields).
Proof.
  intros H sp depth s Hs. cbn [eval meaning size height].
  apply computes_eval; [done|apply add_zmax| |].
  { eapply zsum_map_nonneg; [exact H|]. intros [?? a] _. pose proof (size_pos (node a)). lia. }
  intros n Hn.
  set (part := λ f : StructFieldValue, let '(mkStructFieldValue _ _ v) := f in node v).
  replace (map _ fields) with (map (λ f, size (part f)) fields) by (apply map_ext; by intros []).
  apply computes_bind_1; [|intros; apply computes_ret].
  apply computes_parts; [done|done|]. intros [field fsp a] k Ha Hk. rewrite Forall_forall in H.
  pose proof (zmax_map_in (λ f, let '(mkStructFieldValue _ _ v) := f in 1 + height (node v)) _ _ Ha).
  apply (computes_fmap limits (pair field)).
  apply (evaluates_part _ _ (depth + 1)); [apply (H _ Ha)|done|done|simpl in *; lia].
Qed.

Lemma match_evaluates value arms :
  evaluates (node value) → Forall arm_evaluates arms → evaluates (EMatch value arms).
Proof.
  intros Hv Harms sp depth s Hs. cbn [eval meaning size height].
  pose proof (height_nonneg (node value)). pose proof (size_pos (node value)).
  change (map _ arms) with (map arm_size arms) at 1.
  assert (0 <= zsum (map arm_size arms)).
  { eapply zsum_map_nonneg; [exact Harms|]. intros a _. pose proof (arm_size_pos a). lia. }
  apply computes_eval; [done|lia|lia|]. intros n Hn. apply computes_bind; [| |done].
  - apply (evaluates_part _ _ (depth + 1)); [done|done|done|lia].
  - intros v k _ Hk. rewrite set_steps_twice. simpl in Hk.
    apply (eval_arms_computes v depth sp _ arms Harms) with (s := set_steps k s); [|simpl; lia].
    intros a Ha. pose proof (zmax_map_in arm_height _ _ Ha). fold arm_height. lia.
Qed.

Lemma eval_computes e : evaluates e.
Proof.
  induction e using Expression_mind with (P0 := λ _, True) (P1 := λ _, True)
    (P2 := λ f, match f with mkStructFieldValue _ _ v => evaluates (node v) end)
    (P3 := arm_evaluates) (P4 := λ _, True) (P5 := λ _, True); nested; try done;
    auto using array_evaluates, struct_evaluates, match_evaluates;
    intros sp depth s Hs; cbn [eval meaning size height].
  all: try (apply computes_eval; [done|lia|done|]; intros n Hn;
            first [apply computes_ret | apply computes_throw
                  | apply computes_gets, computes_ok_or]).
  - pose proof (height_nonneg (node object)). pose proof (size_pos (node object)).
    apply computes_eval; [done|lia|lia|]. intros n Hn. apply computes_bind_1.
    { apply (evaluates_part _ _ (depth + 1)); [done|done|done|lia]. }
    intros [] k _ _; try apply computes_throw. apply computes_ok_or.
  - pose proof (height_nonneg (node operand)). pose proof (size_pos (node operand)).
    apply computes_eval; [done|lia|lia|]. intros n Hn. apply computes_bind_1.
    { apply (evaluates_part _ _ (depth + 1)); [done|done|done|lia]. }
    intros v k _ _. rewrite (eval_unary_span _ _ (point 0 0) sp).
    apply computes_lift, eval_unary_no_panic.
  - pose proof (height_nonneg (node left)). pose proof (height_nonneg (node right)).
    pose proof (size_pos (node left)). pose proof (size_pos (node right)).
    apply computes_eval; [done|lia|lia|]. intros n Hn.
    apply (binary_computes left operator right depth sp (set_steps n s)); [done|done|simpl; lia|lia|lia].
Qed.
End eval_meaning.

(** C22: Evaluation: with limits that fit [usize], [eval] never panics; a value it returns
    is the budget-free meaning of the expression in the scopes, and the run only advanced
    the step counter, within its limit and by at most the size of the expression; an error
    is returned only when the expression has no meaning, or when its size exceeds the
    steps left or its nesting the depth left. *)
Theorem eval_refines_meaning (limits : Limits) (e : Expression) (sp : Span) (depth : Z)
    (s : Evaluator) :
  limit_steps limits <= USIZE_MAX → 0 <= steps s →
  match eval limits e sp depth s with
  | Ok (v, s') =>
    meaning (scopes s) e = Some v ∧
    ∃ n, s' = set_steps n s ∧ steps s <= n <= steps s + size e
         ∧ (n = steps s ∨ n <= limit_steps limits)
  | Err _ =>
    meaning (scopes s) e = None ∨ limit_steps limits < steps s + size e
    ∨ limit_depth limits < depth + height e
  | Panic => False
  end.
Proof. intros Hl Hs. by apply (eval_computes limits Hl e). Qed.

(** [match 3 { n if n > 2 => -n, _ => 1 / 0 }]. *)
Definition sample_match : Expression :=
  let at_ {A} (a : A) := mkSpanned a (point 1 1) in
  EMatch (at_ (EInteger 3))
    [ mkMatchArm (at_ (PBinding "n")) None
        (Some (at_ (EBinary (at_ (EIdentifier "n")) BGreater (at_ (EInteger 2)))))
        (at_ (EUnary Negate (at_ (EIdentifier "n")))) (point 1 1);
      mkMatchArm (at_ PWildcard) None None
        (at_ (EBinary (at_ (EInteger 1)) BDivide (at_ (EInteger 0)))) (point 1 1) ].

Definition initial_evaluator : Evaluator := mkEvaluator [] [] "" 0 0 0.

Lemma eval_refines_meaning_witness :
  meaning [] sample_match = Some (VInteger (mkInteger true 3)).
Proof.
  pose proof (eval_refines_meaning default_limits sample_match (point 1 1) 0 initial_evaluator) as H.
  destruct (eval default_limits sample_match (point 1 1) 0 initial_evaluator) as [[v s']|d|] eqn:E;
    vm_compute in E; [|discriminate E|discriminate E].
  injection E as <- _. apply H; vm_compute; discriminate.
Defined.

(** ** Budgets of a report *)

Fixpoint value_node_count (v : Value) : Z :=
  match v with
  | VArray values => 1 + zsum (map value_node_count values)
  | VStruct _ fields => 1 + zsum (map (λ '(_, v), value_node_count v) fields)
  | _ => 1
  end.
Fixpoint value_byte_count (v : Value) : Z :=
  match v with
  | VString s => str_len s
  | VArray values => zsum (map value_byte_count values)
  | VStruct _ fields => zsum (map (λ '(_, v), value_byte_count v) fields)
  | _ => 0
  end.

Lemma value_counts_nonneg v : 0 <= value_node_count v ∧ 0 <= value_byte_count v.
Proof.
  induction v as [| | | | |values H|name fields H] using value_induction; simpl; try lia.
  - split; [lia|]. apply zlen_nonneg.
  - split; [apply Z.add_nonneg_nonneg; [lia|]|]; (eapply zsum_map_nonneg; [exact H|]);
      simpl; tauto.
  - split; [apply Z.add_nonneg_nonneg; [lia|]|]; (eapply zsum_map_nonneg; [exact H|]);
      intros []; simpl; tauto.
Qed.

(** The saturating counters never fall below the counts they stand for. *)
Definition counted (nodes bytes : Z) (t : Z * Z) : Prop :=
  Z.min USIZE_MAX nodes <= fst t ∧ Z.min USIZE_MAX bytes <= snd t.

Lemma USIZE_MAX_pos : 0 < USIZE_MAX.
Proof. done. Qed.

Lemma counted_add n b t n' b' t' :
  0 <= n → 0 <= b → 0 <= n' → 0 <= b' →
  counted n b t → counted n' b' t' → counted (n + n') (b + b') (add_counts t t').
Proof.
  pose proof USIZE_MAX_pos. unfold counted, add_counts, saturating_add. simpl. lia.
Qed.

Lemma counted_fold {A} (val : A → Value) (m : A → Z * Z) l n b t :
  Forall (λ a, counted (value_node_count (val a)) (value_byte_count (val a)) (m a)) l →
  0 <= n → 0 <= b → counted n b t →
  counted (n + zsum (map (λ a, value_node_count (val a)) l))
    (b + zsum (map (λ a, value_byte_count (val a)) l))
    (fold_left (λ t a, add_counts t (m a)) l t).
Proof.
  intros H. revert n b t. induction H as [|a l Ha _ IH]; intros n b t Hn Hb Ht; simpl.
  - by rewrite !Z.add_0_r.
  - rewrite !Z.add_assoc. pose proof (value_counts_nonneg (val a)).
    apply IH; [lia..|]. apply counted_add; [lia..|done|done].
Qed.

Lemma fold_left_snd {A B C} (f : C → B → C) (l : list (A * B)) c :
  fold_left (λ c '(_, b), f c b) l c = fold_left (λ c p, f c (snd p)) l c.
Proof. revert c; induction l as [|[] l IH]; intros c; simpl; auto. Qed.
Lemma map_snd {A B C} (f : B → C) (l : list (A * B)) :
  map (λ '(_, b), f b) l = map (λ p, f (snd p)) l.
Proof. apply map_ext. by intros []. Qed.

Lemma measure_counts v : counted (value_node_count v) (value_byte_count v) (measure v).
Proof.
  assert (counted 1 0 (1, 0)) by (split; apply Z.le_min_r).
  induction v as [| |s| | |values IH|name fields IH] using value_induction; simpl; try done.
  - split; apply Z.le_min_r.
  - by apply (counted_fold id measure values 1 0).
  - rewrite fold_left_snd, !map_snd.
    by apply (counted_fold snd (λ p, measure (snd p)) fields 1 0).
Qed.

(** ** What the walk over a program keeps

    A preorder on evaluator states that its primitive steps keep is kept by every visit. *)
Section visits.
Context (limits : Limits) (R : Evaluator → Evaluator → Prop) `{!PreOrder R}.
Abbreviation kept := (framed (E := Diagnostic) R).
Context (Hpush : ∀ names, kept (push_scope (shadow_scope names))).
Context (Hpop : kept pop_scope).
Context (Hshadow : ∀ name, kept (bind_name name None)).
Context (Hconstant : ∀ name value sp, kept (visit_constant limits name value sp)).

Lemma kept_when {A : Type} (f : A → Ev unit) o : on_some (λ a, kept (f a)) o → kept (whenS f o).
Proof. destruct o; [done|]. intros _. by apply framed_ret. Qed.

Definition order_key (o : DataOrder) : Expression :=
  match o with mkDataOrder key _ _ => node key end.
Definition field_value (f : StructFieldValue) : Expression :=
  match f with mkStructFieldValue _ _ v => node v end.

Ltac kept_step :=
  match goal with
  | |- framed _ (mret _) => by apply framed_ret
  | |- framed _ (_ ≫= _) => apply framed_bind; [done| |intros ?]
  | |- framed _ (whenS _ _) => apply kept_when
  | |- framed _ (iterS _ _) => apply framed_iterS; [done|]
  | |- framed _ (push_scope ∅) => apply (Hpush [])
  | |- framed _ (push_scope _) => apply Hpush
  | |- framed _ pop_scope => apply Hpop
  | |- framed _ (if ?b then _ else _) => destruct b
  end.

Lemma visits_kept :
  (∀ e, kept (visit_nested_closures limits e)) ∧
  (∀ o, kept (visit_nested_closures limits (order_key o))) ∧
  (∀ body, kept (match body with
                 | CBlock block => visit_block limits block
                 | CExpression value => visit_nested_closures limits (node value)
                 end)) ∧
  (∀ f, kept (visit_nested_closures limits (field_value f))) ∧
  (∀ a, kept (let '(mkMatchArm _ _ guard v _) := a in
              _ ← whenS (λ e : Expr, visit_nested_closures limits (node e)) guard;
              visit_nested_closures limits (node v))) ∧
  (∀ s, ∀ sp, kept (visit_statement limits s sp)) ∧
  (∀ b, kept (visit_block limits b)).
Proof.
  apply syntax_mind; intros; nested; cbn [visit_nested_closures visit_statement visit_block];
    repeat kept_step; try done.
  all: try (eapply Forall_impl; [done|]; by intros []).
  destruct order as [[]|]; done.
Qed.

(** A function starts from a scope of its own. *)
Context (Hfunction : ∀ name scope, kept (modify (λ s, set_scopes [scope] (set_function name s)))).

Lemma kept_function name f : kept (visit_function limits name f).
Proof.
  intros s a s' H. apply SM_bind_ok in H as ([] & s1 & [= <-] & H).
  apply SM_bind_ok in H as ([] & s2 & [= <-] & H).
  etransitivity; [by eapply Hfunction|]. by eapply visits_kept.
Qed.

Lemma kept_program program : kept (evaluate_program limits program).
Proof.
  unfold evaluate_program. apply framed_bind; [done| |intros []].
  - apply framed_iterS; [done|]. apply Forall_true. intros f.
    destruct (is_external f); [by apply framed_ret|apply kept_function].
  - apply framed_iterS; [done|]. apply Forall_true. intros [index i].
    apply framed_iterS; [done|]. apply Forall_true. intros m. apply kept_function.
Qed.
End visits.

Section budget.
Context (limits : Limits) (Hlimit : limit_steps limits <= USIZE_MAX).

(** The counters are within their limits and cover the constants reported so far. *)
Record within_budget (s : Evaluator) : Prop := {
  budget_steps : 0 <= steps s <= limit_steps limits;
  budget_nodes : 0 <= value_nodes s <= limit_value_nodes limits;
  budget_bytes : 0 <= string_bytes s <= limit_string_bytes limits;
  budget_counted :
    counted (zsum (map (λ c, value_node_count (constant_value c)) (constants s)))
      (zsum (map (λ c, value_byte_count (constant_value c)) (constants s)))
      (value_nodes s, string_bytes s) }.

Definition keeps_budget (s s' : Evaluator) : Prop := within_budget s → within_budget s'.
#[local] Instance keeps_budget_preorder : PreOrder keeps_budget.
Proof. split; [intros s H; exact H|intros s1 s2 s3 H1 H2 H; exact (H2 (H1 H))]. Qed.

Abbreviation budgeted := (framed (E := Diagnostic) keeps_budget).

Lemma budgeted_modify f :
  (∀ s, steps (f s) = steps s ∧ value_nodes (f s) = value_nodes s
        ∧ string_bytes (f s) = string_bytes s ∧ constants (f s) = constants s) →
  budgeted (modify f).
Proof.
  intros Hf s a s' [= _ <-] [H1 H2 H3 H4]. destruct (Hf s) as (E1 & E2 & E3 & E4).
  by constructor; rewrite ?E1, ?E2, ?E3, ?E4.
Qed.

Lemma budgeted_eval e sp depth : budgeted (eval limits e sp depth).
Proof.
  intros s v s' H [Hs Hn Hb Hc]. pose proof (eval_computes limits Hlimit e sp depth s (proj1 Hs)) as He.
  unfold computes in He. rewrite H in He. destruct He as (_ & n & -> & ? & ?).
  constructor; simpl; [lia|done..].
Qed.

Lemma budgeted_bind_name name v : budgeted (bind_name name v).
Proof.
  intros s a s'. unfold bind_name. destruct (insert_top name v (scopes s)) eqn:E; simpl; [|done..].
  intros [= <- <-] []. by constructor.
Qed.

(** Charging a value and reporting it as a constant. *)
Lemma budgeted_report name v sp :
  budgeted (_ ← charge_value limits v sp; f ← gets function;
            modify (push_constant (mkConstant f name sp v))).
Proof.
  intros s [] s' H [Hs Hn Hb Hc]. apply SM_bind_ok in H as ([] & s1 & H1 & [= <-]).
  pose proof (measure_counts v) as Hm. unfold charge_value in H1.
  destruct (measure v) as [nodes bytes]. inv_ok H1. reflect_bools. injection H1 as <-.
  pose proof (value_counts_nonneg v).
  assert (0 <= nodes ∧ 0 <= bytes).
  { pose proof USIZE_MAX_pos. unfold counted in Hm. simpl in Hm. lia. }
  pose proof USIZE_MAX_pos. cbn [value_nodes string_bytes set_usage] in *. constructor; cbn.
  - done.
  - unfold saturating_add in *. lia.
  - unfold saturating_add in *. lia.
  - rewrite !map_app, !zsum_app. cbn. rewrite !Z.add_0_r.
    apply (counted_add _ _ (value_nodes s, string_bytes s) _ _ (nodes, bytes)); try tauto.
    all: apply zsum_map_nonneg with (P := λ _, True); [by apply Forall_true|];
      intros c _; apply value_counts_nonneg.
Qed.

Lemma budgeted_constant name value sp : budgeted (visit_constant limits name value sp).
Proof.
  unfold visit_constant. apply framed_bind; [apply _|apply framed_lift; apply _|]. intros e.
  apply framed_bind; [apply _|apply budgeted_eval|]. intros v s a s' H.
  apply SM_bind_ok in H as ([] & s1 & H1 & H). apply SM_bind_ok in H as (f & s2 & H2 & H).
  apply SM_bind_ok in H as ([] & s3 & H3 & H).
  transitivity s3; [|by eapply budgeted_bind_name].
  apply (budgeted_report name v sp s tt). apply SM_bind_ok. eexists _, _. split; [done|].
  apply SM_bind_ok. eauto.
Qed.

Lemma budgeted_push scope : budgeted (push_scope scope).
Proof. by apply budgeted_modify. Qed.
Lemma budgeted_pop : budgeted pop_scope.
Proof. by apply budgeted_modify. Qed.


Lemma report_within_budget program : budgeted (evaluate_program limits program).
Proof.
  apply kept_program; [apply _|auto using budgeted_push, budgeted_pop, budgeted_bind_name,
    budgeted_constant..|].
  intros name scope. by apply budgeted_modify.
Qed.
End budget.

(** C23: Budgets: when a program evaluates, the steps taken, the nodes of all the
    constants reported and the bytes of their strings are within the limits. *)
Theorem report_stays_within_limits (limits : Limits) (program : Program) (report : Report) :
  0 <= limit_steps limits <= USIZE_MAX →
  0 <= limit_value_nodes limits < USIZE_MAX → 0 <= limit_string_bytes limits < USIZE_MAX →
  evaluate_with_limits limits program = Ok report →
  report_steps report <= limit_steps limits ∧
  zsum (map (λ c, value_node_count (constant_value c)) (report_constants report))
    <= limit_value_nodes limits ∧
  zsum (map (λ c, value_byte_count (constant_value c)) (report_constants report))
    <= limit_string_bytes limits.
Proof.
  intros Hs Hn Hb H. unfold evaluate_with_limits in H.
  apply outcome_bind_ok in H as ([[] s] & Hrun & [= <-]). simpl.
  apply (report_within_budget limits (proj2 Hs)) in Hrun.
  destruct Hrun as [H1 H2 H3 [H4 H5]].
  - constructor; simpl; [lia..|]. split; apply Z.le_min_r.
  - simpl in *. lia.
Qed.

(** [fn main() { const base = 7  const answer = base * 6 }]. *)
Definition sample_program : Program :=
  let at_ {A} l (a : A) := mkSpanned a (point l 1) in
  let const l name value := at_ l (SBinding BConst name (point l 7) None (Some value)) in
  mkProgram [] None [] [] [] [] [] []
    [ mkFunction false "main" (point 1 4) [] [] None None
        (mkBlock
           [ const 2 "base" (at_ 2 (EInteger 7));
             const 3 "answer"
               (at_ 3 (EBinary (at_ 3 (EIdentifier "base")) BMultiply (at_ 3 (EInteger 6)))) ]
           (point 1 1)) None false (point 1 1) ].

Definition sample_report : Report :=
  mkReport
    [ mkConstant "main" "base" (point 2 1) (VInteger (positive 7));
      mkConstant "main" "answer" (point 3 1) (VInteger (positive 42)) ] 4.

Lemma report_stays_within_limits_witness :
  evaluate sample_program = Ok sample_report ∧
  zsum (map (λ c, value_node_count (constant_value c)) (report_constants sample_report))
    <= limit_value_nodes default_limits.
Proof.
  assert (evaluate sample_program = Ok sample_report) as H by (vm_compute; reflexivity).
  split; [exact H|].
  apply (report_stays_within_limits default_limits sample_program sample_report);
    [vm_compute; split; discriminate|vm_compute; split; [discriminate|reflexivity]..|exact H].
Defined.
