(* ===== verification/ConstFold.v ===== *)
(** * Constant folding keeps meaning

    The expression a value folds to evaluates back to the value; folding an expression
    never panics, restores the scopes it was given and does not change what the expression
    evaluates to. *)

From Stdlib Require Import Sorted.
From S2P Require Import Prelude Machine Diagnostics StateM BTree Ast ConstEval ConstEvalProps.
#[local] Open Scope string_scope.
#[local] Open Scope list_scope.
#[local] Open Scope Z_scope.

(** ** Well-formed values *)

Fixpoint wf_value (v : Value) : Prop :=
  match v with
  | VInteger i => wf_integer i
  | VArray values => foldr and True (map wf_value values)
  | VStruct _ fields => bt_sorted fields ∧ foldr and True (map (λ '(_, v), wf_value v) fields)
  | _ => True
  end.

Lemma foldr_and_Forall {A} (P : A → Prop) l : foldr and True (map P l) ↔ Forall P l.
Proof.
  induction l as [|a l IH]; simpl; [done|]. by rewrite Forall_cons, IH.
Qed.

(** ** Values and their syntax *)

Lemma insert_all_sorted {V} (l acc : btree V) :
  bt_sorted (acc ++ l) → fold_left (λ m '(k, v), bt_insert k v m) l acc = acc ++ l.
Proof.
  revert acc. induction l as [|[k v] l IH]; intros acc Hs; simpl; [by rewrite app_nil_r|].
  rewrite (cons_middle (k, v)), app_assoc in Hs |- *.
  rewrite bt_insert_last by (apply bt_sorted_app_last with v; by apply bt_sorted_app_l in Hs).
  by apply IH.
Qed.

Lemma mapM_map_Some {A B} (f : A → B) (g : B → option A) l :
  Forall (λ a, g (f a) = Some a) l → mapM g (map f l) = Some l.
Proof. induction 1 as [|a l Ha _ IH]; simpl; [done|]. by rewrite Ha, IH. Qed.

Lemma meaning_of_expression v :
  wf_value v → ∀ σ sp, meaning σ (expression_node sp v) = Some v.
Proof.
  induction v as [i| | | | |values IH|name fields IH] using value_induction; simpl; try done.
  - intros [Hm Hz] σ sp. destruct i as [[] m]; simpl in *; [|done].
    unfold negate, normalized. simpl. specialize (Hz eq_refl).
    by rewrite (proj2 (Z.eqb_neq m 0) Hz).
  - rewrite foldr_and_Forall. intros Hwf σ sp. rewrite mapM_map_Some; [done|].
    apply Forall_forall. rewrite Forall_forall in IH, Hwf. simpl. auto.
  - intros [Hs Hwf] σ sp. rewrite map_snd, foldr_and_Forall in Hwf. rewrite mapM_map_Some; simpl.
    + by rewrite (insert_all_sorted fields []).
    + apply Forall_forall. rewrite Forall_forall in IH, Hwf. intros [k v] Hin.
      specialize (IH _ Hin (Hwf _ Hin)). simpl in *. by rewrite IH.
Qed.

(** Round trip of constants: the syntax a constant is folded to evaluates back to
    that constant, whatever is in scope, when the budgets suffice for the literal. *)
Theorem constant_expression_round_trip (limits : Limits) (v : Value) (sp : Span) (s : Evaluator) :
  let e := value_expression v sp in
  wf_value v → limit_steps limits <= USIZE_MAX → 0 <= steps s →
  steps s + size (node e) <= limit_steps limits → height (node e) <= limit_depth limits →
  ∃ n, eval limits (node e) (span e) 0 s = Ok (v, set_steps n s).
Proof.
  intros e Hv Hl Hs Hsize Hheight.
  pose proof (eval_computes limits Hl (node e) (span e) 0 s Hs) as H. unfold computes in H.
  simpl in H. rewrite meaning_of_expression in H by done. unfold e in *. simpl in *.
  destruct (eval limits _ sp 0 s) as [[w s']|d|]; [|destruct H as [|]; [done|lia]|done].
  destruct H as ([= <-] & n & -> & _). eauto.
Qed.

(** [[-1, Point { x: 2 }]]. *)
Definition sample_value : Value :=
  VArray [VInteger (mkInteger true 1); VStruct "Point" [("x", VInteger (positive 2))]].

Lemma constant_expression_round_trip_witness :
  ∃ n, eval default_limits (expression_node (point 1 1) sample_value) (point 1 1) 0
         initial_evaluator = Ok (sample_value, set_steps n initial_evaluator).
Proof.
  apply (constant_expression_round_trip default_limits sample_value (point 1 1) initial_evaluator);
    try (vm_compute; discriminate).
  simpl. repeat split; try (vm_compute; discriminate).
  apply SSorted_cons; [apply SSorted_nil|constructor].
Defined.

(** ** Folding restores its scopes and cannot panic *)

Section folding.
Context (report_constants : list Constant) (function : string).
Abbreviation fold_expr := (fold_expr report_constants function).
Abbreviation fold_statement := (fold_statement report_constants function).
Abbreviation fold_block := (fold_block report_constants function).

(** [m] returns from the scopes [φ], with a result and scopes that satisfy [Q]. *)
Definition reaches {A} (m : Fd A) (φ : list Scope) (Q : A → list Scope → Prop) : Prop :=
  ∃ a φ', m φ = Ok (a, φ') ∧ Q a φ'.

Lemma reaches_ret {A} (a : A) φ (Q : A → list Scope → Prop) : Q a φ → reaches (mret a) φ Q.
Proof. intros H. by exists a, φ. Qed.

Lemma reaches_bind {A B} (m : Fd A) (f : A → Fd B) φ Q :
  reaches m φ (λ a φ', reaches (f a) φ' Q) → reaches (m ≫= f) φ Q.
Proof.
  intros (a & φ' & Ha & b & φ'' & Hb & HQ). exists b, φ''.
  by rewrite (SM_bind_run _ _ _ _ _ Ha).
Qed.

Lemma reaches_mono {A} (m : Fd A) φ (Q R : A → list Scope → Prop) :
  reaches m φ Q → (∀ a φ', Q a φ' → R a φ') → reaches m φ R.
Proof. intros (a & φ' & Ha & HQ) H. exists a, φ'. auto. Qed.

Lemma reaches_push scope φ (Q : unit → list Scope → Prop) :
  Q tt (scope :: φ) → reaches (fold_push scope) φ Q.
Proof. intros H. by exists tt, (scope :: φ). Qed.
Lemma reaches_pop φ (Q : unit → list Scope → Prop) : Q tt (tail φ) → reaches fold_pop φ Q.
Proof. intros H. by exists tt, (tail φ). Qed.
Lemma reaches_gets {A} (f : list Scope → A) φ (Q : A → list Scope → Prop) :
  Q (f φ) φ → reaches (gets f) φ Q.
Proof. intros H. by exists (f φ), φ. Qed.

(** [m] returns from every stack of scopes and restores it. *)
Definition restores {A} (m : Fd A) : Prop := ∀ φ, reaches m φ (λ _ φ', φ' = φ).

Lemma restores_mapS {A B} (f : A → Fd B) l :
  Forall (λ a, restores (f a)) l → restores (mapS f l).
Proof.
  induction 1 as [|a l Ha _ IH]; intros φ; [by apply reaches_ret|].
  apply reaches_bind. eapply reaches_mono; [apply Ha|]. intros b ? ->.
  apply reaches_bind. eapply reaches_mono; [apply IH|]. intros bs ? ->. by apply reaches_ret.
Qed.

Lemma restores_optS {A : Type} {B} (f : A → Fd B) o :
  on_some (λ a, restores (f a)) o → restores (optS f o).
Proof.
  destruct o as [a|]; intros H φ; [|by apply reaches_ret].
  apply reaches_bind. eapply reaches_mono; [apply H|]. intros b ? ->. by apply reaches_ret.
Qed.

(** A statement may bind a name in the innermost scope. *)
Definition restores_outer {A} (m : Fd A) : Prop :=
  ∀ top φ, reaches m (top :: φ) (λ _ φ', ∃ top', φ' = top' :: φ).

Lemma restores_weaken {A} (m : Fd A) : restores m → restores_outer m.
Proof. intros H top φ. eapply reaches_mono; [apply H|]. intros _ ? ->. eauto. Qed.

Lemma restores_statements {A B} (f : A → Fd B) l :
  Forall (λ a, restores_outer (f a)) l → restores_outer (mapS f l).
Proof.
  induction 1 as [|a l Ha _ IH]; intros top φ; [apply reaches_ret; eauto|].
  apply reaches_bind. eapply reaches_mono; [apply Ha|]. intros b ? [top' ->].
  apply reaches_bind. eapply reaches_mono; [apply IH|]. intros bs ? ?. by apply reaches_ret.
Qed.

Ltac fold_step :=
  match goal with
  | |- reaches (mret _) _ _ => apply reaches_ret
  | |- reaches (_ ≫= _) _ _ => apply reaches_bind
  | |- reaches (fold_push _) _ _ => apply reaches_push
  | |- reaches fold_pop _ _ => apply reaches_pop
  | |- reaches (gets _) _ _ => apply reaches_gets
  | |- reaches (mapS _ _) _ _ =>
      eapply reaches_mono; [apply restores_mapS|intros ? ? ->]
  | |- reaches (optS _ _) _ _ =>
      eapply reaches_mono; [apply restores_optS|intros ? ? ->]
  | H : restores ?m |- reaches ?m _ _ => eapply reaches_mono; [apply H|intros ? ? ->]
  | H : ∀ sp, restores (?m sp) |- reaches (?m _) _ _ =>
      eapply reaches_mono; [apply H|intros ? ? ->]
  | |- reaches (match ?o with _ => _ end) _ _ => destruct o
  end.

Lemma binding_restores kind name name_span annotation value sp :
  on_some (λ e : Expr, ∀ sp, restores (fold_expr (node e) sp)) value →
  restores_outer (fold_statement (SBinding kind name name_span annotation value) sp).
Proof.
  intros Hv top φ. apply reaches_bind.
  eapply reaches_mono; [apply restores_optS; destruct value; [apply Hv|done]|]. intros v ? ->.
  apply reaches_bind. eexists tt, _. split; [done|]. apply reaches_ret. eauto.
Qed.

Lemma block_restores statements sp :
  Forall (λ s : Stmt, ∀ sp, restores_outer (fold_statement (node s) sp)) statements →
  restores (fold_block (mkBlock statements sp)).
Proof.
  intros Hs φ. apply reaches_bind, reaches_push, reaches_bind.
  eapply reaches_mono; [apply restores_statements|].
  - eapply Forall_impl; [exact Hs|]. intros s H top φ'. apply reaches_bind.
    eapply reaches_mono; [apply H|]. intros a ? ?. by apply reaches_ret.
  - intros l ? [top ->]. apply reaches_bind, reaches_pop. by apply reaches_ret.
Qed.

Lemma folds_restore :
  (∀ e, ∀ sp, restores (fold_expr e sp)) ∧
  (∀ o, ∀ sp, restores (fold_expr (order_key o) sp)) ∧
  (∀ body, restores (match body with
                     | CExpression value =>
                       value ← fold_expr (node value) (span value); mret (CExpression value)
                     | CBlock block => block ← fold_block block; mret (CBlock block)
                     end)) ∧
  (∀ f, ∀ sp, restores (fold_expr (field_value f) sp)) ∧
  (∀ a, let '(mkMatchArm _ _ guard v _) := a in
        on_some (λ g : Expr, ∀ sp, restores (fold_expr (node g) sp)) guard
        ∧ ∀ sp, restores (fold_expr (node v) sp)) ∧
  (∀ s, ∀ sp, restores_outer (fold_statement s sp)) ∧
  (∀ b, restores (fold_block b)).
Proof.
  apply syntax_mind; intros; nested; try done; auto using binding_restores, block_restores;
    try (apply restores_weaken); intros φ;
    cbn [ConstEval.fold_expr ConstEval.fold_statement ConstEval.fold_block];
    repeat fold_step; try done.
  all: try (eapply Forall_impl; [eassumption|]; intros []; simpl; auto).
  all: try match goal with |- on_some _ ?o => destruct o as [[]|]; simpl in *; [|done]; auto end.
  - intros φ'. repeat fold_step. done.
  - intros Hf φ'. repeat fold_step. done.
  - intros [Hg Hv] φ'. repeat fold_step; [|done]. destruct guard; [apply Hg|done].
Qed.

(** ** Folding an expression keeps its meaning *)

(** Every alternative of an or-pattern binds only names the first one binds; name
    resolution is run on patterns whose alternatives have been expanded. *)
Fixpoint pattern_ok (p : Pattern) : Prop :=
  match p with
  | POr alternatives =>
    foldr and True
      (map (λ a, pattern_ok (node a) ∧
                 ∀ x, x ∈ pattern_names (node a) → x ∈ pattern_names (POr alternatives))
         alternatives)
  | PStruct _ fields _ =>
    foldr and True
      (map (λ f, match f with mkStructPatternField _ _ p => pattern_ok (node p) end) fields)
  | _ => True
  end.

Fixpoint patterns_ok (e : Expression) : Prop :=
  match e with
  | EArray values => foldr and True (map (λ v, patterns_ok (node v)) values)
  | EStructConstruct _ _ fields =>
    foldr and True
      (map (λ f, match f with mkStructFieldValue _ _ v => patterns_ok (node v) end) fields)
  | EFieldAccess object _ _ => patterns_ok (node object)
  | EUnary _ operand => patterns_ok (node operand)
  | EBinary l _ r => patterns_ok (node l) ∧ patterns_ok (node r)
  | EMatch value arms =>
    patterns_ok (node value) ∧
    foldr and True
      (map (λ a, match a with
                 | mkMatchArm pattern _ guard body _ =>
                   pattern_ok (node pattern)
                   ∧ match guard with Some g => patterns_ok (node g) | None => True end
                   ∧ patterns_ok (node body)
                 end) arms)
  | _ => True
  end.

(** A match binds only names of the pattern. *)
Definition binds_names (p : Pattern) : Prop :=
  ∀ v b b', pattern_ok p → pattern_matches p v b = (true, b') →
  ∀ x, is_Some (b' !! x) → is_Some (b !! x) ∨ x ∈ pattern_names p.

Lemma any_alternative_names l (names : list string) v b b' :
  Forall (λ a : Spanned Pattern, binds_names (node a)) l →
  Forall (λ a : Spanned Pattern,
    pattern_ok (node a) ∧ ∀ x, x ∈ pattern_names (node a) → x ∈ names) l →
  any_alternative pattern_matches v b l = (true, b') →
  ∀ x, is_Some (b' !! x) → is_Some (b !! x) ∨ x ∈ names.
Proof.
  induction 1 as [|a l Ha _ IH]; simpl; [done|]. intros [[Hok Hn] Hl]%Forall_cons.
  destruct (pattern_matches (node a) v b) as [[] c] eqn:E; [|auto].
  intros [= <-] x Hx. destruct (Ha v b c Hok E x Hx); auto.
Qed.

Lemma all_fields_names l values : ∀ b b',
  Forall (λ f, binds_names (node (pattern_field_pattern f))) l →
  Forall (λ f, pattern_ok (node (pattern_field_pattern f))) l →
  all_fields pattern_matches values l b = (true, b') →
  ∀ x, is_Some (b' !! x) →
  is_Some (b !! x) ∨ x ∈ flat_map (λ f, pattern_names (node (pattern_field_pattern f))) l.
Proof.
  induction l as [|[field fsp p] l IH]; intros b b'; simpl; [intros _ _ [= <-]; auto|].
  intros [Hp Hl]%Forall_cons [Hok Hoks]%Forall_cons. destruct (bt_get field values) as [v|]; [|done].
  destruct (pattern_matches (node p) v b) as [[] c] eqn:E; [|done].
  intros H x Hx. rewrite elem_of_app.
  destruct (IH c b' Hl Hoks H x Hx) as [Hc|?]; [|auto].
  destruct (Hp v b c Hok E x Hc); auto.
Qed.

Lemma pattern_field_map {A} (f : Pattern → A) fields :
  map (λ g, match g with mkStructPatternField _ _ p => f (node p) end) fields
  = map (λ g, f (node (pattern_field_pattern g))) fields.
Proof. apply map_ext. by intros []. Qed.
Lemma pattern_field_flat_map {A} (f : Pattern → list A) fields :
  flat_map (λ g, match g with mkStructPatternField _ _ p => f (node p) end) fields
  = flat_map (λ g, f (node (pattern_field_pattern g))) fields.
Proof. apply flat_map_ext. by intros []. Qed.

Lemma pattern_matches_names p : binds_names p.
Proof.
  induction p using Pattern_mind with
    (P0 := λ f, binds_names (node (pattern_field_pattern f))); nested; try done;
    intros v b b' Hok Hm x Hx; simpl in Hok, Hm; simplify_eq; auto.
  - apply lookup_insert_is_Some in Hx. simpl. set_solver.
  - eapply any_alternative_names; [done| |done|done]. by apply foldr_and_Forall.
  - cbn [pattern_names]. rewrite pattern_field_flat_map. rewrite pattern_field_map, foldr_and_Forall in Hok.
    destruct v; simplify_eq. destruct (String.eqb _ _); simplify_eq. by eapply all_fields_names.
Qed.

(** Every constant the folder would substitute is a well-formed value the name has. *)
Definition agree (φ σ : list Scope) : Prop := ∀ x v,
  lookup_scopes φ x = Some v → lookup_scopes σ x = Some v ∧ wf_value v.

Lemma lookup_shadow names x :
  shadow_scope names !! x = if bool_decide (x ∈ names) then Some None else None.
Proof.
  unfold shadow_scope. induction names as [|y names IH]; simpl; [done|].
  destruct (decide (x = y)) as [->|Hne].
  - rewrite lookup_insert_eq, bool_decide_true by left. done.
  - rewrite lookup_insert_ne by done. rewrite IH.
    by rewrite (bool_decide_ext (x ∈ names) (x ∈ y :: names)) by set_solver.
Qed.

Lemma agree_match p v b φ σ :
  pattern_ok p → pattern_matches p v ∅ = (true, b) → agree φ σ →
  agree (shadow_scope (pattern_names p) :: φ) ((Some <$> b : Scope) :: σ).
Proof.
  intros Hok Hm H x w. simpl. rewrite lookup_shadow. case_bool_decide as Hx; [done|].
  intros Hw. rewrite lookup_fmap. destruct (b !! x) as [u|] eqn:E; [|by apply H].
  destruct (pattern_matches_names p v ∅ b Hok Hm x) as [[? He]|?]; [by eexists| |done].
  by rewrite lookup_empty in He.
Qed.

(** [e'] folds [e] in the scopes [φ]. *)
Definition same_meaning (φ : list Scope) (e e' : Expression) : Prop :=
  patterns_ok e → ∀ σ, agree φ σ → meaning σ e' = meaning σ e.
Definition folds (e : Expression) : Prop := ∀ sp φ,
  reaches (fold_expr e sp) φ (λ e' φ', φ' = φ ∧ same_meaning φ e (node e')).

Lemma reaches_folds e sp φ Q :
  folds e → (∀ e', same_meaning φ e (node e') → Q e' φ) → reaches (fold_expr e sp) φ Q.
Proof. intros He HQ. eapply reaches_mono; [apply He|]. intros e' ? [-> H]. auto. Qed.

Lemma reaches_mapS {A B} (f : A → Fd B) (R : list Scope → A → B → Prop) l φ :
  Forall (λ a, reaches (f a) φ (λ b φ', φ' = φ ∧ R φ a b)) l →
  reaches (mapS f l) φ (λ bs φ', φ' = φ ∧ Forall2 (R φ) l bs).
Proof.
  induction 1 as [|a l Ha _ IH]; [apply reaches_ret; by split|].
  apply reaches_bind. eapply reaches_mono; [apply Ha|]. intros b ? [-> Hb].
  apply reaches_bind. eapply reaches_mono; [apply IH|]. intros bs ? [-> Hbs].
  apply reaches_ret. split; [done|]. by constructor.
Qed.

Lemma mapM_Forall2 {A B C} (f : A → option C) (g : B → option C) l k :
  Forall2 (λ a b, g b = f a) l k → mapM g k = mapM f l.
Proof. induction 1 as [|a b l k H _ IH]; simpl; [done|]. by rewrite H, IH. Qed.

Lemma array_folds values : Forall (λ v : Expr, folds (node v)) values → folds (EArray values).
Proof.
  intros H sp φ. apply reaches_bind. eapply reaches_mono.
  { apply (reaches_mapS _ (λ φ (v v' : Expr), same_meaning φ (node v) (node v'))).
    eapply Forall_impl; [exact H|]. intros v Hv. apply Hv. }
  intros vs ? [-> Hvs]. apply reaches_ret. split; [done|].
  intros Hok σ Hσ. simpl. f_equal. apply mapM_Forall2.
  simpl in Hok. rewrite foldr_and_Forall in Hok.
  clear H. induction Hvs as [|v v' l l' Hv _ IH]; [constructor|].
  apply Forall_cons in Hok as [Hok Hoks]. constructor; auto.
Qed.

Definition field_patterns_ok (f : StructFieldValue) : Prop :=
  match f with mkStructFieldValue _ _ v => patterns_ok (node v) end.

Lemma struct_folds name name_span fields :
  Forall (λ f, folds (field_value f)) fields → folds (EStructConstruct name name_span fields).
Proof.
  intros H sp φ. apply reaches_bind. eapply reaches_mono.
  { apply (reaches_mapS _ (λ φ f f', match f, f' with
      | mkStructFieldValue n _ v, mkStructFieldValue n' _ v' =>
        n' = n ∧ same_meaning φ (node v) (node v') end)).
    eapply Forall_impl; [exact H|]. intros [n nsp v] Hv. apply reaches_bind.
    apply (reaches_folds _ _ _ _ Hv). intros v' Hv'. by apply reaches_ret. }
  intros fs ? [-> Hfs]. apply reaches_ret. split; [done|].
  intros Hok σ Hσ. simpl. f_equal. apply mapM_Forall2.
  change (foldr and True (map field_patterns_ok fields)) in Hok. rewrite foldr_and_Forall in Hok.
  clear H. induction Hfs as [|[n nsp v] [n' nsp' v'] l l' [-> Hv] _ IH]; [constructor|].
  apply Forall_cons in Hok as [Hok Hoks]. constructor; [|auto]. by rewrite Hv.
Qed.

(** One arm of a [match] and what it folds to. *)
Definition arm_folds (a : MatchArm) : Prop :=
  match a with
  | mkMatchArm _ _ guard v _ => on_some (λ g : Expr, folds (node g)) guard ∧ folds (node v)
  end.
Definition arm_ok (a : MatchArm) : Prop :=
  match a with
  | mkMatchArm pattern _ guard body _ =>
    pattern_ok (node pattern)
    ∧ match guard with Some g => patterns_ok (node g) | None => True end
    ∧ patterns_ok (node body)
  end.
Definition same_arm (φ : list Scope) (a a' : MatchArm) : Prop :=
  match a, a' with
  | mkMatchArm p _ g v _, mkMatchArm p' _ g' v' _ =>
    p' = p ∧
    let φ' := shadow_scope (pattern_names (node p)) :: φ in
    match g, g' with
    | Some g, Some g' => same_meaning φ' (node g) (node g')
    | None, None => True
    | _, _ => False
    end ∧ same_meaning φ' (node v) (node v')
  end.

Lemma meaning_arms_same φ σ value arms arms' :
  Forall2 (same_arm φ) arms arms' → Forall arm_ok arms → agree φ σ →
  meaning_arms meaning σ value arms' = meaning_arms meaning σ value arms.
Proof.
  intros H Hok Hσ. induction H as [|[p g guard v sp] [p' g' guard' v' sp'] l l' Ha _ IH]; [done|].
  apply Forall_cons in Hok as [(Hp & Hg & Hv) Hoks]. destruct Ha as (-> & Hguard & Hbody). simpl.
  destruct (pattern_matches (node p) value ∅) as [[] b] eqn:E; [|auto].
  pose proof (agree_match _ _ _ _ _ Hp E Hσ) as Hσ'. rewrite (Hbody Hv _ Hσ'), IH by done.
  destruct guard as [guard|], guard' as [guard'|]; try done. by rewrite (Hguard Hg _ Hσ').
Qed.

Lemma match_folds value arms :
  folds (node value) → Forall arm_folds arms → folds (EMatch value arms).
Proof.
  intros Hv H sp φ. apply reaches_bind, (reaches_folds _ _ _ _ Hv). intros v' Hv'.
  apply reaches_bind. eapply reaches_mono.
  { apply (reaches_mapS _ same_arm). eapply Forall_impl; [exact H|].
    intros [p g guard v asp] [Hg Hb]. apply reaches_bind, reaches_push, reaches_bind.
    destruct guard as [guard|].
    - apply reaches_bind, (reaches_folds _ _ _ _ Hg). intros g' Hg'. apply reaches_ret, reaches_bind.
      apply (reaches_folds _ _ _ _ Hb). intros b' Hb'. apply reaches_bind, reaches_pop, reaches_ret.
      by repeat split.
    - apply reaches_ret, reaches_bind, (reaches_folds _ _ _ _ Hb). intros b' Hb'.
      apply reaches_bind, reaches_pop, reaches_ret. by repeat split. }
  intros arms' ? [-> Harms]. apply reaches_ret. split; [done|].
  intros [Hok Hoks] σ Hσ. simpl. rewrite (Hv' Hok σ Hσ).
  change (foldr and True (map arm_ok arms)) in Hoks. rewrite foldr_and_Forall in Hoks.
  destruct (meaning σ (node value)) as [w|]; [|done]. simpl. by apply (meaning_arms_same φ).
Qed.

Lemma identifier_folds name : folds (EIdentifier name).
Proof.
  intros sp φ. apply reaches_bind, reaches_gets.
  destruct (lookup_scopes φ name) as [v|] eqn:E; apply reaches_ret; (split; [done|]);
    intros _ σ Hσ; [|done].
  destruct (Hσ _ _ E) as [Hl Hwf]. simpl. by rewrite meaning_of_expression.
Qed.

(** Whatever the steps before it return, the last one yields a value with [P]. *)
Definition yields {A} (m : Fd A) (P : A → Prop) : Prop := ∀ φ a φ', m φ = Ok (a, φ') → P a.

Lemma yields_ret {A} (a : A) (P : A → Prop) : P a → yields (mret a) P.
Proof. by intros H φ ? ? [= <- <-]. Qed.
Lemma yields_bind {A B} (m : Fd A) (f : A → Fd B) P :
  (∀ a, yields (f a) P) → yields (m ≫= f) P.
Proof. intros Hf φ b φ'' (a & φ' & _ & H)%SM_bind_ok. by eapply Hf. Qed.

(** Expressions [eval] refuses still refuse, whatever their parts fold to. *)
Lemma opaque_folds e :
  (∀ σ, meaning σ e = None) →
  (∀ sp, yields (fold_expr e sp) (λ e', ∀ σ, meaning σ (node e') = None)) → folds e.
Proof.
  intros He Hm sp φ. destruct folds_restore as [Hr _].
  destruct (Hr e sp φ) as (e' & φ' & Hf & Hφ). exists e', φ'. split; [done|]. split; [done|].
  intros _ σ _. rewrite He. by eapply Hm.
Qed.

Lemma expression_folds e : folds e.
Proof.
  induction e using Expression_mind with (P0 := λ _, True) (P1 := λ _, True)
    (P2 := λ f, folds (field_value f)) (P3 := arm_folds) (P4 := λ _, True) (P5 := λ _, True);
    nested; try done; auto using array_folds, struct_folds, match_folds, identifier_folds.
  all: try (apply opaque_folds; [done|]; intros sp;
            repeat (apply yields_bind; intros ?); by apply yields_ret).
  all: intros sp φ; try (by apply reaches_ret).
  - apply reaches_bind, (reaches_folds _ _ _ _ H). intros e' He'. apply reaches_ret.
    split; [done|]. intros Hok σ Hσ. simpl. by rewrite (He' Hok σ Hσ).
  - apply reaches_bind, (reaches_folds _ _ _ _ H). intros e' He'. apply reaches_ret.
    split; [done|]. intros Hok σ Hσ. simpl. by rewrite (He' Hok σ Hσ).
  - apply reaches_bind, (reaches_folds _ _ _ _ H). intros l' Hl.
    apply reaches_bind, (reaches_folds _ _ _ _ H0). intros r' Hr. apply reaches_ret.
    split; [done|]. intros [Hokl Hokr] σ Hσ. simpl. unfold meaning_binary.
    by rewrite (Hl Hokl σ Hσ), (Hr Hokr σ Hσ).
Qed.

(** C24: Constant folding keeps meaning: folding an expression returns, restores the
    scopes, and yields an expression that evaluates to the same value as the original;
    when the folded expression fits the budgets and the original evaluates to [v], the
    folded one evaluates to [v].  The folder's constants are well-formed values the
    evaluator's scopes agree on; or-patterns bind the names of their first alternative. *)
Theorem fold_preserves_evaluation (limits : Limits) (e : Expression) (sp : Span)
    (φ : list Scope) (s s' : Evaluator) (v : Value) :
  limit_steps limits <= USIZE_MAX → 0 <= steps s →
  patterns_ok e → agree φ (scopes s) →
  eval limits e sp 0 s = Ok (v, s') →
  ∃ e', fold_expr e sp φ = Ok (e', φ) ∧
    (steps s + size (node e') <= limit_steps limits → height (node e') <= limit_depth limits →
     ∃ n, eval limits (node e') (span e') 0 s = Ok (v, set_steps n s)).
Proof.
  intros Hl Hs Hok Hσ Hv. destruct (expression_folds e sp φ) as (e' & φ' & He' & Hφ & Hsame).
  subst φ'. exists e'. split; [done|]. intros Hsize Hheight.
  pose proof (eval_computes limits Hl e sp 0 s Hs) as H. unfold computes in H. rewrite Hv in H.
  destruct H as [H _].
  pose proof (eval_computes limits Hl (node e') (span e') 0 s Hs) as H'. unfold computes in H'.
  rewrite (Hsame Hok _ Hσ), H in H'.
  destruct (eval limits (node e') (span e') 0 s) as [[w s'']|d|];
    [|destruct H' as [|]; [done|lia]|done].
  destruct H' as ([= <-] & n & -> & _). eauto.
Qed.
End folding.

(** [base * 6] where [base] is the constant 7. *)
Definition sample_product : Expression :=
  EBinary (mkSpanned (EIdentifier "base") (point 1 1)) BMultiply (mkSpanned (EInteger 6) (point 1 8)).
Definition sample_scopes : list Scope := [{["base" := Some (VInteger (positive 7))]}].
Definition sample_evaluator : Evaluator := set_scopes sample_scopes initial_evaluator.

Lemma fold_preserves_evaluation_witness :
  ∃ e', fold_expr [] "main" sample_product (point 1 1) sample_scopes = Ok (e', sample_scopes).
Proof.
  destruct (fold_preserves_evaluation [] "main" default_limits sample_product (point 1 1)
    sample_scopes sample_evaluator (set_steps 3 sample_evaluator) (VInteger (positive 42)))
    as (e' & H & _); [vm_compute; discriminate..|done| |vm_compute; reflexivity|by exists e'].
  intros x v H. split; [exact H|]. unfold sample_scopes in H. cbn [lookup_scopes] in H.
  destruct (decide (x = "base")) as [->|Hne].
  - rewrite lookup_singleton_eq in H. injection H as <-. split; [vm_compute; split; discriminate|done].
  - rewrite lookup_singleton_ne in H by congruence. discriminate H.
Defined.

(** ** Folding a program *)

Lemma traverse_ok {E A B} (f : A → outcome E B) (R : A → B → Prop) l :
  (∀ a, a ∈ l → ∃ b, f a = Ok b ∧ R a b) → ∃ bs, traverse f l = Ok bs ∧ Forall2 R l bs.
Proof.
  induction l as [|a l IH]; intros H; simpl; [eauto|].
  destruct (H a) as (b & Hb & HR); [left|]. destruct IH as (bs & Hbs & HRs).
  { intros x Hx. apply H. by right. }
  exists (b :: bs). rewrite Hb. simpl. rewrite Hbs. split; [done|]. by constructor.
Qed.

(** Everything but the body. *)
Definition same_signature (f f' : Function) : Prop := f' = set_body f (fn_body f').

Lemma fold_function_ok constants name f :
  ∃ f', fold_function constants name f = Ok f' ∧ same_signature f f'.
Proof.
  destruct (folds_restore constants name) as (_ & _ & _ & _ & _ & _ & Hb).
  destruct (Hb (fn_body f) [parameter_scope (fn_parameters f)]) as (b & φ & H & _).
  exists (set_body f b). unfold fold_function. by rewrite H.
Qed.

Lemma Forall2_imap {A B} (R : A → B → Prop) (f : nat → A → nat * A) l k :
  (∀ i a, snd (f i a) = a) → Forall2 (λ p b, R (snd p) b) (imap f l) k → Forall2 R l k.
Proof.
  revert f k. induction l as [|a l IH]; intros f k Hf H; inversion H; subst; constructor.
  - by rewrite <- (Hf 0%nat a).
  - apply (IH (f ∘ S)); [|done]. intros i. apply Hf.
Qed.

(** Folding a program always returns, for every report: the same functions and the
    same methods of the same implementations, with the same signatures and new bodies;
    external functions and every other item are unchanged. *)
Theorem fold_returns (program : Program) (report : Report) :
  ∃ program', fold program report = Ok program' ∧
    Forall2 same_signature (program_functions program) (program_functions program') ∧
    Forall2 (λ i i', i' = set_methods i (impl_methods i') ∧
                     Forall2 same_signature (impl_methods i) (impl_methods i'))
      (program_implementations program) (program_implementations program') ∧
    (program_structs program', program_enums program', program_traits program')
    = (program_structs program, program_enums program, program_traits program).
Proof.
  unfold fold.
  destruct (traverse_ok (λ f, if is_external f then Ok f
      else fold_function (report_constants report) (fn_name f) f) same_signature
      (program_functions program)) as (fs & -> & Hfs).
  { intros f _. destruct (is_external f); [|apply fold_function_ok]. exists f. by destruct f. }
  destruct (traverse_ok (λ '(index, implementation),
      methods ← traverse (λ m, fold_function (report_constants report) (method_name index m) m)
                  (impl_methods implementation);
      Ok (set_methods implementation methods) : outcome Empty_set Implementation)
    (λ p i', i' = set_methods (snd p) (impl_methods i') ∧
             Forall2 same_signature (impl_methods (snd p)) (impl_methods i'))
    (imap pair (program_implementations program))) as (impls & Hi & His).
  { intros [index i] _.
    destruct (traverse_ok (λ m, fold_function (report_constants report) (method_name index m) m)
      same_signature (impl_methods i)) as (ms & -> & Hms); [intros m _; apply fold_function_ok|].
    by exists (set_methods i ms). }
  rewrite bind_Ok, Hi. eexists. split; [done|]. split; [done|]. split; [|done].
  by apply (Forall2_imap _ pair).
Qed.
