(* ===== verification/Expansion.v ===== *)
(** * Structured expansion ([compiler/src/expansion.rs])

    Before names are resolved, [expand] rewrites every function body: a call
    [Meta.repeat(n, e)] becomes an array of [n] copies of [e], a call [Meta.map(n, |i| e)]
    an array of [e] at [i = 0..n], and a match arm with [|] patterns becomes one arm per
    alternative.

    The recursion is structural at one expansion depth; what [expand_meta] does at the next
    depth is [level], a parameter of the traversal, and [expander] closes the knot with the
    number of depths left.  The code refuses depths beyond [MAX_EXPANSION_DEPTH], so one
    level more than that is enough; running out of levels is [Panic], which a theorem of
    [ExpansionProps] excludes. *)

From S2P Require Import Prelude Machine Diagnostics StateM Limits Ast ConstEval.
#[local] Open Scope string_scope.
#[local] Open Scope list_scope.
#[local] Open Scope Z_scope.

(** ** The report *)

Record Expansion := mkExpansion {
  expansion_name : string;
  expansion_span : Span;
  expansion_nodes : Z }.

Record ExpansionReport := mkExpansionReport {
  expansions : list Expansion;
  generated_nodes : Z }.

Definition render_expansion (e : Expansion) : string :=
  expansion_name e +:+ " generated " +:+ display_Z (expansion_nodes e) +:+ " nodes at "
    +:+ display_Z (line (start (expansion_span e))) +:+ ":"
    +:+ display_Z (column (start (expansion_span e))) +:+ newline.

Definition render_report (r : ExpansionReport) : string :=
  fold_left (λ output e, output +:+ render_expansion e) (expansions r) "".

Record Expander := mkExpander {
  report : ExpansionReport;
  next_pattern_group : Z }.

Definition Ex : Type → Type := SM Expander Diagnostic.

Definition expansion_error (message : string) (s : Span) : Diagnostic :=
  with_help (new_diagnostic Parse message s)
    "structured compile-time expansion is bounded and does not execute plugins".

(** ** Counts *)

(** [integer] of [expansion_count]: a sign and a [u128]. *)
Fixpoint count_integer (e : Expression) : option (bool * Z) :=
  match e with
  | EInteger value => Some (false, value)
  | EUnary Negate operand =>
    '(_, value) ← count_integer (node operand); Some (negb (value =? 0), value)
  | EBinary l operator r =>
    '(left_negative, l) ← count_integer (node l);
    '(right_negative, r) ← count_integer (node r);
    if (left_negative || right_negative)%bool then None
    else
      match operator with
      | BAdd => pair false <$> checked_add U128_MAX l r
      | BSubtract => pair false <$> try_from U128_MAX (l - r)
      | BMultiply => pair false <$> checked_mul U128_MAX l r
      | BDivide => if r =? 0 then None else Some (false, l / r)
      | BRemainder => if r =? 0 then None else Some (false, l mod r)
      | _ => None
      end
  | _ => None
  end.

Definition expansion_count (e : Expr) : outcome Diagnostic Z :=
  match count_integer (node e) with
  | Some (false, count) =>
    ok_or (try_from USIZE_MAX count)
      (expansion_error "structured expansion count does not fit the host-independent limit"
         (span e))
  | _ =>
    Err (expansion_error
           "structured expansion count must be a non-negative constant integer expression"
           (span e))
  end.

(** [expression_nodes].  A sum over the nodes of a tree in memory stays below [usize]. *)
Fixpoint expression_nodes (e : Expression) : Z :=
  let nodes (e : Expr) := expression_nodes (node e) in
  let optional (o : option Expr) :=
    match o with Some e => expression_nodes (node e) | None => 0 end in
  let sum (l : list Expr) := foldr Z.add 0 (map (λ e, expression_nodes (node e)) l) in
  let children :=
    match e with
    | EArray values => sum values
    | EStructConstruct _ _ fields =>
      foldr Z.add 0 (map (λ f, match f with
                               | mkStructFieldValue _ _ v => expression_nodes (node v)
                               end) fields)
    | EFieldAccess object _ _ => nodes object
    | ETry value | EAwait value | ESpawn value | EMove value | EBorrow _ value
    | EDereference value | EUnary _ value => nodes value
    | EIndex object index => nodes object + nodes index
    | ESubslice object start end_ => nodes object + nodes start + nodes end_
    | EMatch value arms =>
      nodes value
      + foldr Z.add 0 (map (λ arm,
          match arm with
          | mkMatchArm _ _ guard value _ =>
            match guard with Some g => expression_nodes (node g) | None => 0 end
            + expression_nodes (node value)
          end) arms)
    | EBinary l _ r => nodes l + nodes r
    | ECall callee arguments => nodes callee + sum arguments
    | EClosure _ _ _ body =>
      match body with CExpression value => nodes value | CBlock _ => 1 end
    | EDataStore path => optional path
    | EDataWrite value store _ => nodes value + nodes store
    | EDataQuery _ _ _ aggregate store predicate order limit =>
      optional aggregate + nodes store + optional predicate
      + match order with Some (mkDataOrder key _ _) => nodes key | None => 0 end
      + optional limit
    | EDataRemove _ _ store predicate => nodes store + nodes predicate
    | EInteger _ | EFloat _ | EString _ | ECharacter _ | EBool _ | EIdentifier _ => 0
    end in
  saturating_add USIZE_MAX 1 children.

(** ** The parameter of a mapper *)

Fixpoint pattern_binds (p : Pattern) (name : string) : bool :=
  match p with
  | PBinding binding => String.eqb binding name
  | POr alternatives => existsb (λ a, pattern_binds (node a) name) alternatives
  | PStruct _ fields _ =>
    existsb (λ f, match f with mkStructPatternField _ _ p => pattern_binds (node p) name end)
      fields
  | PVariant _ _ arguments => existsb (λ a, pattern_binds (node a) name) arguments
  | _ => false
  end.

Section substitute.
Context (name : string) (value : Z) (at_span : Span).

(** [substitute_bound_identifier], on the node and the span of an expression.  It does not
    enter the block of a closure. *)
Fixpoint substitute_bound_identifier (e : Expression) (sp : Span) : Expr :=
  let substitute (e : Expr) := substitute_bound_identifier (node e) (span e) in
  let optional (o : option Expr) :=
    match o with
    | Some e => Some (substitute_bound_identifier (node e) (span e))
    | None => None
    end in
  let rebuilt (e : Expression) : Expr := mkSpanned e sp in
  match e with
  | EIdentifier identifier =>
    if String.eqb identifier name then mkSpanned (EInteger value) at_span else rebuilt e
  | EArray values =>
    rebuilt (EArray (map (λ e, substitute_bound_identifier (node e) (span e)) values))
  | EStructConstruct type_name name_span fields =>
    rebuilt (EStructConstruct type_name name_span
      (map (λ f, match f with
                 | mkStructFieldValue field field_span v =>
                   mkStructFieldValue field field_span
                     (substitute_bound_identifier (node v) (span v))
                 end) fields))
  | EFieldAccess object field field_span =>
    rebuilt (EFieldAccess (substitute object) field field_span)
  | ETry e => rebuilt (ETry (substitute e))
  | EAwait e => rebuilt (EAwait (substitute e))
  | ESpawn e => rebuilt (ESpawn (substitute e))
  | EMove e => rebuilt (EMove (substitute e))
  | EDereference e => rebuilt (EDereference (substitute e))
  | EUnary operator e => rebuilt (EUnary operator (substitute e))
  | EBorrow mutable target => rebuilt (EBorrow mutable (substitute target))
  | EIndex object index => rebuilt (EIndex (substitute object) (substitute index))
  | ESubslice object start end_ =>
    rebuilt (ESubslice (substitute object) (substitute start) (substitute end_))
  | EMatch matched arms =>
    rebuilt (EMatch (substitute matched)
      (map (λ arm,
        match arm with
        | mkMatchArm pattern group guard value arm_span =>
          if pattern_binds (node pattern) name then arm
          else
            mkMatchArm pattern group
              match guard with
              | Some g => Some (substitute_bound_identifier (node g) (span g))
              | None => None
              end
              (substitute_bound_identifier (node value) (span value)) arm_span
        end) arms))
  | EBinary l operator r => rebuilt (EBinary (substitute l) operator (substitute r))
  | ECall callee arguments =>
    rebuilt (ECall (substitute callee)
      (map (λ e, substitute_bound_identifier (node e) (span e)) arguments))
  | EClosure move_captures parameters return_type body =>
    if existsb (λ p, String.eqb (parameter_name p) name) parameters then rebuilt e
    else
      match body with
      | CExpression e =>
        rebuilt (EClosure move_captures parameters return_type (CExpression (substitute e)))
      | CBlock _ => rebuilt e
      end
  | EDataStore path => rebuilt (EDataStore (optional path))
  | EDataWrite written store replace =>
    rebuilt (EDataWrite (substitute written) (substitute store) replace)
  | EDataQuery kind schema schema_span aggregate store predicate order limit =>
    rebuilt (EDataQuery kind schema schema_span (optional aggregate) (substitute store)
      (optional predicate)
      match order with
      | Some (mkDataOrder key descending order_span) =>
        Some (mkDataOrder (substitute key) descending order_span)
      | None => None
      end
      (optional limit))
  | EDataRemove schema schema_span store predicate =>
    rebuilt (EDataRemove schema schema_span (substitute store) (substitute predicate))
  | EInteger _ | EFloat _ | EString _ | ECharacter _ | EBool _ => rebuilt e
  end.
End substitute.

(** ** Alternatives of patterns *)

(** [pattern_binding_names]: a set, grown in place by [collect]. *)
Fixpoint collect_binding_names (p : Pattern) (names : gset string) : gset string :=
  match p with
  | PBinding name => {[name]} ∪ names
  | POr alternatives =>
    fold_left (λ names a, collect_binding_names (node a) names) alternatives names
  | PStruct _ fields _ =>
    fold_left (λ names f,
      match f with mkStructPatternField _ _ p => collect_binding_names (node p) names end)
      fields names
  | PVariant _ _ arguments =>
    fold_left (λ names a, collect_binding_names (node a) names) arguments names
  | PWildcard | PInteger _ | PNegativeInteger _ | PString _ | PCharacter _ | PBool _ => names
  end.

Definition pattern_binding_names (p : Pattern) : gset string := collect_binding_names p ∅.

Definition too_many_alternatives (s : Span) : Diagnostic :=
  new_diagnostic Type_
    ("pattern expands to more than " +:+ display_Z MAX_REPEAT_COUNT +:+ " alternatives") s.

Definition different_names (s : Span) : Diagnostic :=
  with_help
    (new_diagnostic Type_ "every `|` pattern alternative must bind the same names" s)
    "add or remove bindings so every alternative exposes one contract".

(** The two inner loops of a product: every product so far with every alternative of one
    part, in order, with the limit tested after each push. *)
Definition extend_products {A} (s : Span) (products : list (list A)) (alternatives : list A)
    : outcome Diagnostic (list (list A)) :=
  for_each (λ next product,
    for_each (λ next alternative,
      let next := next ++ [product ++ [alternative]] in
      if MAX_REPEAT_COUNT <? Z.of_nat (length next) then Err (too_many_alternatives s)
      else Ok next) alternatives next) products [].

Fixpoint pattern_alternatives (p : Pattern) (sp : Span)
    : outcome Diagnostic (list (Spanned Pattern)) :=
  match p with
  | POr alternatives =>
    let expected := match alternatives with
                    | a :: _ => pattern_binding_names (node a)
                    | [] => ∅
                    end in
    for_each (λ expanded a,
      if negb (bool_decide (pattern_binding_names (node a) = expected))
      then Err (different_names (span a))
      else
        more ← pattern_alternatives (node a) (span a);
        let expanded := expanded ++ more in
        if MAX_REPEAT_COUNT <? Z.of_nat (length expanded) then Err (too_many_alternatives sp)
        else Ok expanded) alternatives []
  | PVariant type_name variant arguments =>
    products ← for_each (λ products a,
      alternatives ← pattern_alternatives (node a) (span a);
      extend_products sp products alternatives) arguments [ [] ];
    Ok (map (λ arguments, mkSpanned (PVariant type_name variant arguments) sp) products)
  | PStruct type_name fields rest =>
    products ← for_each (λ products f,
      match f with
      | mkStructPatternField field field_span p =>
        alternatives ← pattern_alternatives (node p) (span p);
        extend_products sp products
          (map (mkStructPatternField field field_span) alternatives)
      end) fields [ [] ];
    Ok (map (λ fields, mkSpanned (PStruct type_name fields rest) sp) products)
  | _ => Ok [mkSpanned p sp]
  end.

(** ** The expander *)

Definition set_report (r : ExpansionReport) (x : Expander) : Expander :=
  mkExpander r (next_pattern_group x).
Definition set_next_pattern_group (g : Z) (x : Expander) : Expander :=
  mkExpander (report x) g.

Definition node_count_overflowed (s : Span) : Diagnostic :=
  expansion_error "generated syntax node count overflowed" s.

Definition charge (name : string) (s : Span) (nodes : Z) : Ex unit :=
  r ← gets report;
  total ← lift (ok_or (checked_add USIZE_MAX (generated_nodes r) nodes)
                  (node_count_overflowed s));
  if MAX_GENERATED_NODES <? total then
    throw (expansion_error
             ("structured expansion exceeded " +:+ display_Z MAX_GENERATED_NODES
              +:+ " generated nodes") s)
  else
    modify (set_report (mkExpansionReport
      (expansions r ++ [mkExpansion ("Meta." +:+ name) s nodes]) total)).

(** The names [meta_call_name] recognizes. *)
Inductive MetaName := MRepeat | MMap.

Definition meta_name (name : MetaName) : string :=
  match name with MRepeat => "repeat" | MMap => "map" end.

Definition meta_call_name (e : Expression) : option MetaName :=
  match e with
  | ECall callee _ =>
    match node callee with
    | EFieldAccess object field _ =>
      match node object with
      | EIdentifier owner =>
        if String.eqb owner "Meta" then
          if String.eqb field "repeat" then Some MRepeat
          else if String.eqb field "map" then Some MMap
          else None
        else None
      | _ => None
      end
    | _ => None
    end
  | _ => None
  end.

Definition too_many_arms (s : Span) : Diagnostic :=
  with_help
    (new_diagnostic Type_
       ("match expands to more than " +:+ display_Z MAX_REPEAT_COUNT
        +:+ " pattern alternatives") s)
    "reduce nested `|` alternatives in this match".

(** [(alternatives.len() > 1).then(..)]: a fresh [u32]. *)
Definition pattern_group (alternatives : list (Spanned Pattern)) : Ex (option Z) :=
  if (1 <? length alternatives)%nat then
    group ← gets next_pattern_group;
    _ ← modify (set_next_pattern_group ((group + 1) mod 2 ^ 32));
    mret (Some group)
  else mret None.

(** What a match arm becomes, given its expanded guard and value. *)
Definition split_arm (arms : list MatchArm) (pattern : Spanned Pattern) (guard : option Expr)
    (value : Expr) (arm_span : Span) : Ex (list MatchArm) :=
  alternatives ← lift (pattern_alternatives (node pattern) (span pattern));
  if MAX_REPEAT_COUNT <?
       saturating_add USIZE_MAX (Z.of_nat (length arms)) (Z.of_nat (length alternatives))
  then throw (too_many_arms (span pattern))
  else
    group ← pattern_group alternatives;
    mret (arms ++ map (λ pattern, mkMatchArm pattern group guard value arm_span) alternatives).

(** [expand_meta] at depth [depth], for a call with [arguments]; [level] is [expand_expr] at
    that depth. *)
Section meta.
Context (level : Expr → Ex Expr).

Definition expand_repeat (count : Z) (template : Expr) (s : Span) : Ex Expr :=
  template ← level template;
  nodes ← lift (ok_or (n ← checked_mul USIZE_MAX (expression_nodes (node template)) count;
                       checked_add USIZE_MAX n 1)
                  (node_count_overflowed s));
  _ ← charge "repeat" s nodes;
  mret (mkSpanned (EArray (replicate (Z.to_nat count) template)) s).

(** [try_fold(1usize, usize::checked_add)]. *)
Definition sum_nodes (values : list Expr) : option Z :=
  fold_left (λ total e, total ← total; checked_add USIZE_MAX total (expression_nodes (node e)))
    values (Some 1).

Definition expand_map (count : Z) (mapper : Expr) (s : Span) : Ex Expr :=
  match node mapper with
  | EClosure false parameters _ (CExpression body) =>
    match parameters with
    | [parameter] =>
      let generated :=
        map (λ index, substitute_bound_identifier (parameter_name parameter) index s
                        (node body) (span body)) (seqZ 0 count) in
      nodes ← lift (ok_or (sum_nodes generated) (node_count_overflowed s));
      _ ← charge "map" s nodes;
      level (mkSpanned (EArray generated) s)
    | _ =>
      throw (expansion_error "Meta.map expects exactly one mapper parameter" (span mapper))
    end
  | _ =>
    throw (expansion_error "Meta.map expects a non-moving one-parameter expression closure"
             (span mapper))
  end.

Definition expand_meta (name : MetaName) (arguments : list Expr) (s : Span) (depth : Z)
    : Ex Expr :=
  if MAX_EXPANSION_DEPTH <? depth then
    throw (expansion_error
             ("structured expansion exceeded depth " +:+ display_Z MAX_EXPANSION_DEPTH) s)
  else
    match arguments with
    | [count_argument; argument] =>
      count ← lift (expansion_count count_argument);
      if MAX_REPEAT_COUNT <? count then
        throw (expansion_error
                 ("Meta." +:+ meta_name name +:+ " count " +:+ display_Z count
                  +:+ " exceeds the limit " +:+ display_Z MAX_REPEAT_COUNT)
                 (span count_argument))
      else
        match name with
        | MRepeat => expand_repeat count argument s
        | MMap => expand_map count argument s
        end
    | _ =>
      throw (expansion_error
               ("Meta." +:+ meta_name name +:+ " expects exactly two arguments") s)
    end.
End meta.

(** [expand_expr], [expand_statement] and [expand_block] at one depth; [level] expands at the
    next one. *)
Section depth.
Context (level : Expr → Ex Expr) (depth : Z).

Fixpoint expand_expr (e : Expression) (sp : Span) {struct e} : Ex Expr :=
  let expand (e : Expr) := expand_expr (node e) (span e) in
  let rebuilt (e : Expression) : Ex Expr := mret (mkSpanned e sp) in
  match meta_call_name e with
  | Some name =>
    match e with
    | ECall _ arguments => expand_meta level name arguments sp (depth + 1)
    | _ => panic
    end
  | None =>
    match e with
    | EArray values => values ← mapS expand values; rebuilt (EArray values)
    | EStructConstruct name name_span fields =>
      fields ← mapS (λ f,
                 match f with
                 | mkStructFieldValue field field_span v =>
                   v ← expand v; mret (mkStructFieldValue field field_span v)
                 end) fields;
      rebuilt (EStructConstruct name name_span fields)
    | EFieldAccess object field field_span =>
      object ← expand object; rebuilt (EFieldAccess object field field_span)
    | ETry value => value ← expand value; rebuilt (ETry value)
    | EAwait value => value ← expand value; rebuilt (EAwait value)
    | ESpawn value => value ← expand value; rebuilt (ESpawn value)
    | EMove value => value ← expand value; rebuilt (EMove value)
    | EDereference value => value ← expand value; rebuilt (EDereference value)
    | EUnary operator operand => operand ← expand operand; rebuilt (EUnary operator operand)
    | EBorrow mutable target => target ← expand target; rebuilt (EBorrow mutable target)
    | EIndex object index =>
      object ← expand object; index ← expand index; rebuilt (EIndex object index)
    | ESubslice object start end_ =>
      object ← expand object; start ← expand start; end_ ← expand end_;
      rebuilt (ESubslice object start end_)
    | EMatch value arms =>
      value ← expand value;
      arms ← foldS (λ arms arm,
               match arm with
               | mkMatchArm pattern _ guard value arm_span =>
                 guard ← optS expand guard;
                 value ← expand value;
                 split_arm arms pattern guard value arm_span
               end) arms [];
      rebuilt (EMatch value arms)
    | EBinary l operator r => l ← expand l; r ← expand r; rebuilt (EBinary l operator r)
    | ECall callee arguments =>
      callee ← expand callee; arguments ← mapS expand arguments;
      rebuilt (ECall callee arguments)
    | EClosure move_captures parameters return_type body =>
      body ← match body with
             | CExpression value => value ← expand value; mret (CExpression value)
             | CBlock block => block ← expand_block block; mret (CBlock block)
             end;
      rebuilt (EClosure move_captures parameters return_type body)
    | EDataStore path => path ← optS expand path; rebuilt (EDataStore path)
    | EDataWrite value store replace =>
      value ← expand value; store ← expand store; rebuilt (EDataWrite value store replace)
    | EDataQuery kind schema schema_span aggregate store predicate order limit =>
      aggregate ← optS expand aggregate;
      store ← expand store;
      predicate ← optS expand predicate;
      order ← optS (λ o,
                match o with
                | mkDataOrder key descending order_span =>
                  key ← expand key; mret (mkDataOrder key descending order_span)
                end) order;
      limit ← optS expand limit;
      rebuilt (EDataQuery kind schema schema_span aggregate store predicate order limit)
    | EDataRemove schema schema_span store predicate =>
      store ← expand store; predicate ← expand predicate;
      rebuilt (EDataRemove schema schema_span store predicate)
    | EInteger _ | EFloat _ | EString _ | ECharacter _ | EBool _ | EIdentifier _ => rebuilt e
    end
  end
with expand_statement (s : Statement) {struct s} : Ex Statement :=
  let expand (e : Expr) := expand_expr (node e) (span e) in
  match s with
  | SBinding kind name name_span annotation value =>
    value ← optS expand value; mret (SBinding kind name name_span annotation value)
  | SReturn value => value ← optS expand value; mret (SReturn value)
  | SAssignment name name_span operator value =>
    value ← expand value; mret (SAssignment name name_span operator value)
  | SPlaceAssignment target operator value =>
    target ← expand target; value ← expand value; mret (SPlaceAssignment target operator value)
  | SExpression value => value ← expand value; mret (SExpression value)
  | SIf condition then_branch else_branch =>
    condition ← expand condition;
    then_branch ← expand_block then_branch;
    else_branch ← optS expand_block else_branch;
    mret (SIf condition then_branch else_branch)
  | SWhile condition body =>
    condition ← expand condition; body ← expand_block body; mret (SWhile condition body)
  | SFor name name_span start end_ inclusive body =>
    start ← expand start; end_ ← expand end_; body ← expand_block body;
    mret (SFor name name_span start end_ inclusive body)
  | SForEach name name_span iterable body =>
    iterable ← expand iterable; body ← expand_block body;
    mret (SForEach name name_span iterable body)
  | SLoop body => body ← expand_block body; mret (SLoop body)
  | SUnsafe capabilities body => body ← expand_block body; mret (SUnsafe capabilities body)
  | SBreak => mret SBreak
  | SContinue => mret SContinue
  end
with expand_block (b : Block) {struct b} : Ex Block :=
  match b with
  | mkBlock statements block_span =>
    statements ← mapS (λ s, s' ← expand_statement (node s); mret (mkSpanned s' (span s)))
                   statements;
    mret (mkBlock statements block_span)
  end.
End depth.

(** [expand_expr] at [depth], with [levels] depths left. *)
Fixpoint expander (levels : nat) (depth : Z) (e : Expr) : Ex Expr :=
  match levels with
  | O => panic
  | S levels => expand_expr (expander levels (depth + 1)) depth (node e) (span e)
  end.

Definition expand_body (b : Block) : Ex Block :=
  expand_block (expander (Z.to_nat MAX_EXPANSION_DEPTH) 1) 0 b.

Definition expand_function (f : Function) : Ex Function :=
  match fn_external f with
  | None => body ← expand_body (fn_body f); mret (set_body f body)
  | Some _ => mret f
  end.

Definition set_functions (p : Program) (functions : list Function)
    (implementations : list Implementation) : Program :=
  mkProgram (program_source_files p) (program_module p) (program_imports p)
    (program_public_items p) (program_structs p) (program_enums p) (program_traits p)
    implementations functions.

Definition initial_expander : Expander := mkExpander (mkExpansionReport [] 0) 0.

(** The two loops of [expand], over the functions and over the methods. *)
Definition expand_items (p : Program) : Ex (list Function * list Implementation) :=
  functions ← mapS expand_function (program_functions p);
  implementations ← mapS (λ i, methods ← mapS expand_function (impl_methods i);
                               mret (set_methods i methods)) (program_implementations p);
  mret (functions, implementations).

(** [expand]: the rewritten program and the report. *)
Definition expand (p : Program) : outcome Diagnostic (Program * ExpansionReport) :=
  '((functions, implementations), x) ← expand_items p initial_expander;
  Ok (set_functions p functions implementations, report x).
