(* ===== verification/ExpansionProps.v ===== *)
(** * Properties of the expansion

    A pattern and its alternatives have the same matches in the same order; expansion
    returns on every program, within its limits, and leaves no [Meta] call and no [|]
    pattern behind. *)

From S2P Require Import Prelude Machine Diagnostics StateM Limits Ast ConstEval Expansion.
#[local] Open Scope string_scope.
#[local] Open Scope list_scope.
#[local] Open Scope Z_scope.

(** ** What a pattern means

    A value is anything whose literals can be tested and whose parts can be taken out.
    [candidates] lists the ways a pattern matches a value, first choice first: a [|]
    tries its alternatives from the left, and a pattern with parts combines the choices
    of its parts with the first part varying slowest. *)

Class Matchable (V : Type) := {
  literal_matches : Pattern → V → bool;
  variant_parts : option string → string → V → option (list V);
  struct_parts : string → list string → bool → V → option (list V) }.

Section meaning.
Context `{Matchable V}.

Abbreviation bindings := (list (string * V)).

Definition combine_parts (choices : list bindings) (rest : list bindings) : list bindings :=
  flat_map (λ b, map (app b) rest) choices.

Fixpoint candidates (p : Pattern) (v : V) : list bindings :=
  let fix parts (ps : list (Spanned Pattern)) (vs : list V) : list bindings :=
    match ps, vs with
    | [], [] => [ [] ]
    | p :: ps, v :: vs => combine_parts (candidates (node p) v) (parts ps vs)
    | _, _ => []
    end in
  let fix fields (fs : list StructPatternField) (vs : list V) : list bindings :=
    match fs, vs with
    | [], [] => [ [] ]
    | mkStructPatternField _ _ p :: fs, v :: vs =>
      combine_parts (candidates (node p) v) (fields fs vs)
    | _, _ => []
    end in
  match p with
  | PWildcard => [ [] ]
  | PBinding name => [ [(name, v)] ]
  | POr alternatives => flat_map (λ a, candidates (node a) v) alternatives
  | PVariant type_name variant arguments =>
    match variant_parts type_name variant v with
    | Some vs => parts arguments vs
    | None => []
    end
  | PStruct type_name fs rest =>
    match struct_parts type_name (map pattern_field_name fs) rest v with
    | Some vs => fields fs vs
    | None => []
    end
  | _ => if literal_matches p v then [ [] ] else []
  end.

(** The parts of a pattern, without their names. *)
Fixpoint part_candidates (ps : list Pattern) (vs : list V) : list bindings :=
  match ps, vs with
  | [], [] => [ [] ]
  | p :: ps, v :: vs => combine_parts (candidates p v) (part_candidates ps vs)
  | _, _ => []
  end.

Definition field_pattern (f : StructPatternField) : Pattern := node (pattern_field_pattern f).

Lemma candidates_variant type_name variant arguments v :
  candidates (PVariant type_name variant arguments) v =
  match variant_parts type_name variant v with
  | Some vs => part_candidates (map node arguments) vs
  | None => []
  end.
Proof.
  simpl. destruct (variant_parts _ _ _) as [l|]; [|done]. revert arguments.
  induction l as [|w vs IH]; intros [|a arguments]; simpl; [done..|]. by rewrite <- IH.
Qed.

Lemma candidates_struct type_name fs rest v :
  candidates (PStruct type_name fs rest) v =
  match struct_parts type_name (map pattern_field_name fs) rest v with
  | Some vs => part_candidates (map field_pattern fs) vs
  | None => []
  end.
Proof.
  simpl. destruct (struct_parts _ _ _ _) as [l|]; [|done]. revert fs.
  induction l as [|w vs IH]; intros [|[] fs]; simpl; [done..|]. by rewrite <- IH.
Qed.
End meaning.

(** ** Products *)

(** One element of each list, in order, the first list varying slowest. *)
Fixpoint sequences {A} (ls : list (list A)) : list (list A) :=
  match ls with
  | [] => [ [] ]
  | l :: ls => flat_map (λ a, map (cons a) (sequences ls)) l
  end.

Lemma flat_map_nil {A B} (l : list A) : flat_map (λ _, @nil B) l = [].
Proof. by induction l. Qed.

Lemma flat_map_map {A B C} (f : A → B) (g : B → list C) l :
  flat_map g (map f l) = flat_map (λ a, g (f a)) l.
Proof. induction l; simpl; congruence. Qed.

Lemma map_flat_map {A B C} (f : B → C) (g : A → list B) l :
  map f (flat_map g l) = flat_map (λ a, map f (g a)) l.
Proof. induction l; simpl; [done|]. rewrite map_app. congruence. Qed.

Lemma flat_map_flat_map {A B C} (f : A → list B) (g : B → list C) l :
  flat_map g (flat_map f l) = flat_map (λ a, flat_map g (f a)) l.
Proof. induction l; simpl; [done|]. rewrite flat_map_app. congruence. Qed.

Lemma flat_map_ext' {A B} (f g : A → list B) l :
  Forall (λ a, f a = g a) l → flat_map f l = flat_map g l.
Proof. induction 1; simpl; congruence. Qed.

(** The push loop of [extend_products], for one product. *)
Lemma push_each {A} (s : Span) (product : list A) alternatives next r :
  for_each (λ next alternative,
      let next := next ++ [product ++ [alternative]] in
      if MAX_REPEAT_COUNT <? Z.of_nat (length next) then Err (too_many_alternatives s)
      else Ok next) alternatives next = Ok r →
  r = next ++ map (λ a, product ++ [a]) alternatives.
Proof.
  revert next. induction alternatives as [|a alternatives IH]; intros next; simpl.
  - intros [= <-]. by rewrite app_nil_r.
  - case_match; [done|]. intros ->%IH. by rewrite <- app_assoc.
Qed.

Lemma extend_each {A} s (products : list (list A)) alternatives next r :
  for_each (λ next product,
    for_each (λ next alternative,
      let next := next ++ [product ++ [alternative]] in
      if MAX_REPEAT_COUNT <? Z.of_nat (length next) then Err (too_many_alternatives s)
      else Ok next) alternatives next) products next = Ok r →
  r = next ++ flat_map (λ product, map (λ a, product ++ [a]) alternatives) products.
Proof.
  revert next. induction products as [|product products IH]; intros next; simpl.
  - intros [= <-]. by rewrite app_nil_r.
  - intros (next' & ->%push_each & ->%IH)%outcome_bind_ok. by rewrite <- app_assoc.
Qed.

Lemma extend_products_ok {A} s (products : list (list A)) alternatives r :
  extend_products s products alternatives = Ok r →
  r = flat_map (λ product, map (λ a, product ++ [a]) alternatives) products.
Proof. by intros ->%extend_each. Qed.

(** The loop over the parts of a pattern: [f] gives the alternatives of a part. *)
Lemma products_ok {A B} s (f : A → outcome Diagnostic (list B)) l products r :
  for_each (λ products a, alternatives ← f a; extend_products s products alternatives)
    l products = Ok r →
  ∃ ls, Forall2 (λ a alternatives, f a = Ok alternatives) l ls
        ∧ r = flat_map (λ product, map (app product) (sequences ls)) products.
Proof.
  revert products. induction l as [|a l IH]; intros products; simpl.
  - intros [= <-]. exists []. split; [done|]. simpl.
    induction products; simpl; [done|]. by rewrite app_nil_r, <- IHproducts.
  - intros (p1 & (alts & Ha & ->%extend_products_ok)%outcome_bind_ok
           & (ls & Hls & ->)%IH)%outcome_bind_ok.
    exists (alts :: ls). split; [by constructor|].
    rewrite flat_map_flat_map. apply flat_map_ext'. apply Forall_true. intros product.
    rewrite flat_map_map. simpl. rewrite map_flat_map. apply flat_map_ext'.
    apply Forall_true. intros b. rewrite map_map. apply map_ext. intros x.
    by rewrite <- app_assoc.
Qed.

Lemma extend_products_length {A} s (products : list (list A)) alternatives r :
  extend_products s products alternatives = Ok r →
  Z.of_nat (length r) <= MAX_REPEAT_COUNT.
Proof.
  pose (I := λ r : list (list A), Z.of_nat (length r) <= MAX_REPEAT_COUNT).
  unfold extend_products. apply (for_each_inv I); [|by vm_compute].
  intros next product next' _ Hnext. apply (for_each_inv I); [|done].
  intros ? ? ? _ _. case_match; [done|]. intros [= <-]. by reflect_bools.
Qed.

(** ** Patterns without alternatives *)

Fixpoint or_free (p : Pattern) : bool :=
  match p with
  | POr _ => false
  | PStruct _ fields _ =>
    forallb (λ f, match f with mkStructPatternField _ _ p => or_free (node p) end) fields
  | PVariant _ _ arguments => forallb (λ a, or_free (node a)) arguments
  | _ => true
  end.

(** Induction on patterns, with the parts as plain lists. *)
Lemma pattern_induction (P : Pattern → Prop) :
  (∀ p, match p with POr _ | PStruct _ _ _ | PVariant _ _ _ => False | _ => True end → P p) →
  (∀ alternatives, Forall P (map node alternatives) → P (POr alternatives)) →
  (∀ type_name fields rest, Forall P (map field_pattern fields) →
     P (PStruct type_name fields rest)) →
  (∀ type_name variant arguments, Forall P (map node arguments) →
     P (PVariant type_name variant arguments)) →
  ∀ p, P p.
Proof.
  intros Hleaf Hor Hstruct Hvariant.
  apply (Pattern_mind P (λ f, P (field_pattern f))); intros; nested; auto.
  - apply Hor, Forall_map. done.
  - apply Hstruct, Forall_map. done.
  - apply Hvariant, Forall_map. done.
Qed.

Lemma forallb_parts {A} (g : A → Pattern) (f : A → bool) l :
  (∀ a, f a = or_free (g a)) → forallb f l = forallb or_free (map g l).
Proof. intros Hf. induction l; simpl; [done|]. by rewrite Hf, IHl. Qed.

Lemma or_free_struct type_name fields rest :
  or_free (PStruct type_name fields rest) = forallb or_free (map field_pattern fields).
Proof. apply forallb_parts. by intros []. Qed.

Section single.
Context `{Matchable V}.

Lemma combine_single (c rest : list (list (string * V))) :
  (length c ≤ 1)%nat → (length rest ≤ 1)%nat → (length (combine_parts c rest) ≤ 1)%nat.
Proof.
  intros Hc Hr. destruct c as [|b [] ]; simpl in *; [lia| |lia].
  by rewrite app_nil_r, length_map.
Qed.

Lemma parts_single ps (vs : list V) :
  Forall (λ p, ∀ v : V, (length (candidates p v) ≤ 1)%nat) ps →
  (length (part_candidates ps vs) ≤ 1)%nat.
Proof.
  intros Hps. revert vs. induction Hps; intros [|v vs]; simpl; try lia.
  by apply combine_single.
Qed.

Lemma or_free_single p : or_free p = true → ∀ v : V, (length (candidates p v) ≤ 1)%nat.
Proof.
  assert (Hall : ∀ ps, Forall (λ p, or_free p = true →
            ∀ v : V, (length (candidates p v) ≤ 1)%nat) ps → forallb or_free ps = true →
            Forall (λ p, ∀ v : V, (length (candidates p v) ≤ 1)%nat) ps).
  { intros ps. induction 1; simpl; intros ?; reflect_bools; constructor; auto. }
  induction p using pattern_induction; intros Hf v.
  - destruct p; simpl; try done; try lia; case_match; simpl; lia.
  - done.
  - rewrite or_free_struct in Hf. rewrite candidates_struct. case_match; simpl; [|lia].
    by apply parts_single, Hall.
  - rewrite candidates_variant. case_match; simpl; [|lia]. apply parts_single, Hall; [done|].
    rewrite <- Hf. symmetry. by apply (forallb_parts node).
Qed.

(** The parts of every product match what the parts of the pattern match, in order. *)
Lemma sequences_candidates {A} (g : A → Pattern) ps (ls : list (list A)) (vs : list V) :
  Forall2 (λ p l, Forall (λ q, or_free (g q) = true) l
                  ∧ ∀ v : V, flat_map (λ q, candidates (g q) v) l = candidates p v) ps ls →
  flat_map (λ qs, part_candidates (map g qs) vs) (sequences ls) = part_candidates ps vs.
Proof.
  intros Hls. revert vs. induction Hls as [|p l ps ls [Hfree Hl] _ IH]; intros [|v vs]; simpl.
  - done.
  - done.
  - rewrite flat_map_flat_map. etransitivity; [|apply (flat_map_nil l)]. apply flat_map_ext'.
    apply Forall_true. intros a. rewrite flat_map_map. apply flat_map_nil.
  - rewrite <- Hl, <- IH. unfold combine_parts. rewrite !flat_map_flat_map.
    apply flat_map_ext'. eapply Forall_impl; [exact Hfree|]. intros a Ha.
    pose proof (or_free_single _ Ha v). rewrite flat_map_map. simpl. unfold combine_parts.
    destruct (candidates (g a) v) as [|b [] ]; simpl in *; [apply flat_map_nil| |lia].
    rewrite app_nil_r, map_flat_map. apply flat_map_ext', Forall_true. intros qs.
    apply app_nil_r.
Qed.
End single.

(** ** Names *)

Definition all_names (ps : list Pattern) : gset string := ⋃ map pattern_binding_names ps.

Lemma collect_parts {A} (g : A → Pattern) (f : gset string → A → gset string) l names :
  (∀ names a, f names a = collect_binding_names (g a) names) →
  Forall (λ p, ∀ names, collect_binding_names p names = pattern_binding_names p ∪ names)
    (map g l) →
  fold_left f l names = all_names (map g l) ∪ names.
Proof.
  intros Hf. revert names. induction l as [|a l IH]; intros names Hl; simpl.
  - unfold all_names. simpl. set_solver.
  - inversion Hl as [|? ? Ha Hl']; subst. rewrite IH by done. rewrite Hf, Ha.
    unfold all_names. simpl. set_solver.
Qed.

Lemma collect_names p names :
  collect_binding_names p names = pattern_binding_names p ∪ names.
Proof.
  revert names. unfold pattern_binding_names.
  induction p using pattern_induction; intros names.
  - destruct p; simpl; try done; set_solver.
  - simpl. rewrite !(collect_parts node) by done. set_solver.
  - simpl. rewrite !(collect_parts field_pattern) by (done || by intros ? []). set_solver.
  - simpl. rewrite !(collect_parts node) by done. set_solver.
Qed.

Lemma names_or alternatives :
  pattern_binding_names (POr alternatives) = all_names (map node alternatives).
Proof.
  unfold pattern_binding_names at 1. simpl. rewrite (collect_parts node); [set_solver|done|].
  apply Forall_true, collect_names.
Qed.
Lemma names_struct type_name fields rest :
  pattern_binding_names (PStruct type_name fields rest) = all_names (map field_pattern fields).
Proof.
  unfold pattern_binding_names at 1. simpl.
  rewrite (collect_parts field_pattern); [set_solver|by intros ? []|].
  apply Forall_true, collect_names.
Qed.
Lemma names_variant type_name variant arguments :
  pattern_binding_names (PVariant type_name variant arguments) = all_names (map node arguments).
Proof.
  unfold pattern_binding_names at 1. simpl. rewrite (collect_parts node); [set_solver|done|].
  apply Forall_true, collect_names.
Qed.

Lemma all_names_same (n : gset string) ps :
  ps ≠ [] → Forall (λ p, pattern_binding_names p = n) ps → all_names ps = n.
Proof.
  intros Hps Hn. unfold all_names. induction Hn as [|p ps Hp Hn IH]; [done|]. simpl.
  rewrite Hp.
  destruct ps; simpl in *; [set_solver|]. rewrite IH by done. set_solver.
Qed.

(** Every product takes one alternative of each part. *)
Lemma sequences_parts {A} (P : Pattern → A → Prop) ps (ls : list (list A)) :
  Forall2 (λ p l, Forall (P p) l) ps ls → Forall (λ qs, Forall2 P ps qs) (sequences ls).
Proof.
  induction 1 as [|p l ps ls Hl _ IH]; simpl; [by repeat constructor|].
  apply Forall_forall. intros qs (a & Ha & (qs' & <- & Hqs)%in_map_iff)%list_elem_of_In%in_flat_map.
  rewrite Forall_forall in Hl. rewrite Forall_forall in IH. constructor; [by apply Hl, list_elem_of_In|].
  by apply IH, list_elem_of_In.
Qed.

(** ** The alternatives of a pattern *)

(** What [pattern_alternatives] returns for a part: patterns without [|] that bind the
    names of the part. *)
Definition plain_for {A} (g : A → Pattern) (p : Pattern) (q : A) : Prop :=
  or_free (g q) = true ∧ pattern_binding_names (g q) = pattern_binding_names p.

Definition split_into {A} (g : A → Pattern) (p : Pattern) (l : list A) : Prop :=
  Forall (plain_for g p) l
  ∧ ∀ (V : Type) `(Matchable V) (v : V), flat_map (λ q, candidates (g q) v) l = candidates p v.

Lemma split_map {A B} (g : A → Pattern) (h : B → A) p l :
  split_into (λ b, g (h b)) p l → split_into g p (map h l).
Proof.
  intros [H1 H2]. split; [by apply Forall_map|]. intros V M v. by rewrite flat_map_map.
Qed.

Lemma parts_plain {A} (g : A → Pattern) ps qs :
  Forall2 (plain_for g) ps qs →
  forallb or_free (map g qs) = true ∧ all_names (map g qs) = all_names ps.
Proof.
  unfold all_names. induction 1 as [|p q ps qs [Hf Hn] _ [IH1 IH2] ]; simpl; [done|].
  rewrite Hf, IH1, Hn, IH2. done.
Qed.

(** A pattern with parts, given the constructor [c] that puts parts in its place. *)
Lemma split_products {A} (g : A → Pattern) p (c : list A → Pattern) ps (ls : list (list A)) sp :
  Forall2 (split_into g) ps ls →
  pattern_binding_names p = all_names ps →
  (∀ qs, length qs = length ps → or_free (c qs) = forallb or_free (map g qs)
         ∧ pattern_binding_names (c qs) = all_names (map g qs)) →
  (∀ V `(Matchable V) (v : V),
     (∃ vs, candidates p v = part_candidates ps vs ∧
            ∀ qs, qs ∈ sequences ls → candidates (c qs) v = part_candidates (map g qs) vs)
     ∨ (candidates p v = [] ∧ ∀ qs, qs ∈ sequences ls → candidates (c qs) v = [])) →
  split_into node p (map (λ qs, mkSpanned (c qs) sp) (sequences ls)).
Proof.
  intros Hls Hp Hc Hm. apply split_map. simpl. split.
  - eapply Forall_impl; [apply (sequences_parts (plain_for g)); eapply Forall2_impl;
      [exact Hls|]; by intros ? ? [] |].
    intros qs Hqs. destruct (parts_plain _ _ _ Hqs) as [Hf Hn].
    destruct (Hc qs) as [Hf' Hn']; [symmetry; by eapply Forall2_length|].
    split; congruence.
  - intros V M v. destruct (Hm V M v) as [(vs & -> & H)|[-> H] ].
    + rewrite <- (sequences_candidates g ps ls vs).
      * apply flat_map_ext', Forall_forall. auto.
      * eapply Forall2_impl; [exact Hls|]. intros p' l [H1 H2]. split; [|by apply H2].
        eapply Forall_impl; [exact H1|]. by intros ? [].
    + rewrite <- (flat_map_nil (sequences ls)). apply flat_map_ext', Forall_forall. auto.
Qed.

(** The loop of [POr]: its alternatives one after the other. *)
Lemma or_loop sp expected l expanded r :
  for_each (λ expanded a,
      if negb (bool_decide (pattern_binding_names (node a) = expected))
      then Err (different_names (span a))
      else
        more ← pattern_alternatives (node a) (span a);
        let expanded := expanded ++ more in
        if MAX_REPEAT_COUNT <? Z.of_nat (length expanded) then Err (too_many_alternatives sp)
        else Ok expanded) l expanded = Ok r →
  ∃ ls, Forall2 (λ a more, pattern_binding_names (node a) = expected
                           ∧ pattern_alternatives (node a) (span a) = Ok more) l ls
        ∧ r = expanded ++ concat ls
        ∧ (Z.of_nat (length expanded) <= MAX_REPEAT_COUNT →
           Z.of_nat (length r) <= MAX_REPEAT_COUNT).
Proof.
  revert expanded. induction l as [|a l IH]; intros expanded; simpl.
  - intros [= <-]. exists []. by rewrite app_nil_r.
  - intros (e1 & H1 & (ls & Hls & -> & Hlen)%IH)%outcome_bind_ok.
    destruct (bool_decide _) eqn:Hn; [|done]. simpl in H1. reflect_bools.
    apply outcome_bind_ok in H1 as (more & Hmore & H1).
    destruct (_ <? _) eqn:Hlt in H1; [done|]. injection H1 as <-. reflect_bools.
    exists (more :: ls). split_and!; [by constructor|simpl; by rewrite <- app_assoc|].
    intros _. by apply Hlen.
Qed.

Lemma split_or alternatives ls :
  Forall2 (λ a, split_into node (node a)) alternatives ls →
  (∃ names, Forall (λ a, pattern_binding_names (node a) = names) alternatives) →
  split_into node (POr alternatives) (concat ls).
Proof.
  intros Hls [names Hn]. split.
  - assert (Hnames : alternatives ≠ [] → pattern_binding_names (POr alternatives) = names).
    { intros Hne. rewrite names_or. apply all_names_same; [by destruct alternatives|].
      by apply Forall_map. }
    assert (Forall (λ q, or_free (node q) = true ∧ pattern_binding_names (node q) = names)
              (concat ls)) as Hall.
    { clear Hnames. induction Hls as [|a l alternatives ls [Hl _] _ IH]; simpl; [done|].
      inversion Hn as [|? ? Ha Hn']; subst. apply Forall_app. split; [|by apply IH].
      eapply Forall_impl; [exact Hl|]. intros q [? ?]. split; congruence. }
    destruct alternatives; [by inversion Hls|]. eapply Forall_impl; [exact Hall|].
    intros q [? ?]. split; [done|]. rewrite Hnames; done.
  - intros V M v. clear Hn. simpl. induction Hls as [|a l alternatives ls [_ Hl] _ IH]; simpl.
    + done.
    + by rewrite flat_map_app, Hl, IH.
Qed.

(** The loop over the parts of a pattern keeps the limit. *)
Lemma products_length {A B} s (f : A → outcome Diagnostic (list B)) l r :
  for_each (λ products a, alternatives ← f a; extend_products s products alternatives)
    l [ [] ] = Ok r → Z.of_nat (length r) <= MAX_REPEAT_COUNT.
Proof.
  apply (for_each_inv (λ r : list (list B), Z.of_nat (length r) <= MAX_REPEAT_COUNT));
    [|by vm_compute].
  intros products a products' _ _ (alts & _ & H)%outcome_bind_ok.
  by eapply extend_products_length.
Qed.

Definition field_alternatives (f : StructPatternField)
    : outcome Diagnostic (list StructPatternField) :=
  match f with
  | mkStructPatternField field field_span p =>
    map (mkStructPatternField field field_span) <$> pattern_alternatives (node p) (span p)
  end.

Lemma flat_map_id {A} (l : list (list A)) :
  flat_map (λ product, map (app product) l) [ [] ] = l.
Proof.
  simpl. rewrite app_nil_r. transitivity (map id l); [by apply map_ext|apply map_id].
Qed.

Lemma struct_alternatives type_name fields rest sp :
  pattern_alternatives (PStruct type_name fields rest) sp =
  products ← for_each (λ products f, alternatives ← field_alternatives f;
                                     extend_products sp products alternatives) fields [ [] ];
  Ok (map (λ fields, mkSpanned (PStruct type_name fields rest) sp) products).
Proof.
  simpl. f_equal. apply for_each_ext. intros products [field field_span p]. simpl.
  by destruct (pattern_alternatives (node p) (span p)).
Qed.

(** What the induction shows of a pattern. *)
Definition splits (p : Pattern) : Prop := ∀ sp alts,
  pattern_alternatives p sp = Ok alts →
  split_into node p alts ∧ Z.of_nat (length alts) <= MAX_REPEAT_COUNT.

Lemma splits_leaf p :
  match p with POr _ | PStruct _ _ _ | PVariant _ _ _ => False | _ => True end → splits p.
Proof.
  intros Hp sp alts Halts. assert (alts = [mkSpanned p sp]) as ->.
  { destruct p; try done; by injection Halts. }
  split; [|by vm_compute]. split.
  - constructor; [|done]. split; [by destruct p|done].
  - intros V M v. simpl. apply app_nil_r.
Qed.

Lemma splits_or alternatives : Forall splits (map node alternatives) → splits (POr alternatives).
Proof.
  intros H sp alts (ls & Hls & -> & Hlen)%or_loop.
  split; [|apply Hlen; by vm_compute]. rewrite Forall_map in H. apply split_or.
  - clear Hlen. revert H Hls. generalize (match alternatives with
      a :: _ => pattern_binding_names (node a) | [] => ∅ end). intros expected H Hls.
    induction Hls as [|a l alternatives ls [_ Ha] _ IH]; [done|].
    inversion H as [|? ? Hs Hss]; subst. constructor; [by eapply Hs|by apply IH].
  - eexists. eapply Forall2_Forall_l; [exact Hls|]. apply Forall_true. by intros ? ? [? ?].
Qed.

Lemma field_alternatives_names fields ls :
  Forall2 (λ f l, field_alternatives f = Ok l) fields ls →
  Forall (λ qs, map pattern_field_name qs = map pattern_field_name fields) (sequences ls).
Proof.
  induction 1 as [|[field field_span p] l fields ls Hf _ IH]; simpl.
  - by repeat constructor.
  - simpl in Hf. destruct (pattern_alternatives _ _) as [alts| |]; [|done..].
    injection Hf as <-. apply Forall_forall.
    intros qs (a & (q & <- & _)%in_map_iff & (qs' & <- & Hqs)%in_map_iff)
      %list_elem_of_In%in_flat_map.
    simpl. f_equal. rewrite Forall_forall in IH. by apply IH, list_elem_of_In.
Qed.

Lemma field_alternatives_split fields ls :
  Forall splits (map field_pattern fields) →
  Forall2 (λ f l, field_alternatives f = Ok l) fields ls →
  Forall2 (split_into field_pattern) (map field_pattern fields) ls.
Proof.
  rewrite Forall_map. intros H Hls.
  induction Hls as [|[field field_span p] l fields ls Hf _ IH]; simpl; [done|].
  inversion H as [|? ? Hp Hps]; subst. constructor; [|by apply IH].
  simpl in Hf. destruct (pattern_alternatives _ _) as [alts| |] eqn:He; [|done..].
  injection Hf as <-. apply split_map. simpl. by apply (Hp _ _ He).
Qed.

Lemma splits_struct type_name fields rest :
  Forall splits (map field_pattern fields) → splits (PStruct type_name fields rest).
Proof.
  intros H sp alts Halts. rewrite struct_alternatives in Halts.
  apply outcome_bind_ok in Halts as (products & Hp & [= <-]).
  pose proof (products_length _ _ _ _ Hp) as Hlen. split; [|by rewrite length_map].
  apply products_ok in Hp as (ls & Hls & ->). rewrite flat_map_id in *.
  pose proof (field_alternatives_names _ _ Hls) as Hnames. rewrite Forall_forall in Hnames.
  apply (split_products field_pattern _ (λ qs, PStruct type_name qs rest)
           (map field_pattern fields)).
  - by apply field_alternatives_split.
  - apply names_struct.
  - intros qs _. split; [apply or_free_struct|apply names_struct].
  - intros V M v. setoid_rewrite candidates_struct.
    destruct (struct_parts type_name (map pattern_field_name fields) rest v) as [vs|] eqn:Hs;
      [left; exists vs|right]; (split; [done|]); intros qs Hqs; by rewrite (Hnames qs Hqs), Hs.
Qed.

Lemma splits_variant type_name variant arguments :
  Forall splits (map node arguments) → splits (PVariant type_name variant arguments).
Proof.
  intros H sp alts (products & Hp & [= <-])%outcome_bind_ok.
  pose proof (products_length _ _ _ _ Hp) as Hlen. split; [|by rewrite length_map].
  apply products_ok in Hp as (ls & Hls & ->). rewrite flat_map_id in *.
  apply (split_products node _ (λ qs, PVariant type_name variant qs) (map node arguments)).
  - rewrite Forall_map in H. clear Hlen.
    induction Hls as [|a l arguments ls Hf _ IH]; simpl; [done|].
    inversion H as [|? ? Hp Hps]; subst. constructor; [by eapply Hp|by apply IH].
  - apply names_variant.
  - intros qs _. split; [by apply (forallb_parts node)|apply names_variant].
  - intros V M v. setoid_rewrite candidates_variant.
    destruct (variant_parts type_name variant v) as [vs|]; [left; by exists vs|by right].
Qed.

Lemma pattern_alternatives_split p : splits p.
Proof.
  induction p using pattern_induction;
    auto using splits_leaf, splits_or, splits_struct, splits_variant.
Qed.

(** C19: The alternatives a match arm is split into are equivalent to its pattern: none
    contains [|], each binds the same names, there are at most [MAX_REPEAT_COUNT], and for
    every kind of value and every value the ways the alternatives match it, one alternative
    after the other, are the ways the pattern matches it, in the same order and with the
    same bindings; so the first arm that matches is the one the pattern would have chosen. *)
Theorem alternatives_exact (p : Pattern) (sp : Span) (alts : list (Spanned Pattern)) :
  pattern_alternatives p sp = Ok alts →
  Forall (λ q, or_free (node q) = true
               ∧ pattern_binding_names (node q) = pattern_binding_names p) alts
  ∧ Z.of_nat (length alts) <= MAX_REPEAT_COUNT
  ∧ ∀ (V : Type) `(Matchable V) (v : V),
      flat_map (λ q, candidates (node q) v) alts = candidates p v.
Proof. intros H. destruct (pattern_alternatives_split _ _ _ H) as [ [H1 H2] H3]. auto. Qed.

(** [Point { x: 1 | 2, y: a } | Point { x: 3, y: a }]. *)
Definition sample_pattern : Pattern :=
  let s := point 1 1 in
  let point_pattern x := mkSpanned (PStruct "Point"
    [mkStructPatternField "x" s (mkSpanned x s);
     mkStructPatternField "y" s (mkSpanned (PBinding "a") s)] false) s in
  POr [point_pattern (POr [mkSpanned (PInteger 1) s; mkSpanned (PInteger 2) s]);
       point_pattern (PInteger 3)].

Lemma alternatives_exact_witness :
  match pattern_alternatives sample_pattern (point 1 1) with
  | Ok alts => length alts = 3%nat
               ∧ Forall (λ q, or_free (node q) = true) alts
  | _ => False
  end.
Proof.
  destruct (pattern_alternatives sample_pattern (point 1 1)) as [alts|e|] eqn:H;
    [|vm_compute in H; discriminate H..].
  destruct (alternatives_exact sample_pattern (point 1 1) alts H) as (Hall & _).
  split.
  - vm_compute in H. injection H as <-. reflexivity.
  - eapply Forall_impl; [exact Hall|]. intros q [Hq _]. exact Hq.
Defined.

(** ** The constant evaluator as an instance *)

(** The values of constant evaluation: no variant is constant, and a structure pattern
    looks its fields up by name. *)
#[export] Instance value_matchable : Matchable Value := {|
  literal_matches p v := fst (pattern_matches p v ∅);
  variant_parts _ _ _ := None;
  struct_parts type_name names _ v :=
    match v with
    | VStruct name values =>
      if String.eqb name type_name then mapM (λ field, BTree.bt_get field values) names else None
    | _ => None
    end |}.

Definition add_bindings (b : gmap string Value) (new : list (string * Value)) : gmap string Value :=
  fold_left (λ b '(name, v), <[name := v]> b) new b.

(** [pattern_matches] takes the first candidate. *)
Definition takes_first (cs : list (list (string * Value))) (b : gmap string Value)
    (m : Matching) : Prop :=
  match cs with
  | c :: _ => m = (true, add_bindings b c)
  | [] => fst m = false
  end.

Lemma takes_first_or alternatives v :
  Forall (λ p, ∀ b, takes_first (candidates p v) b (pattern_matches p v b))
    (map node alternatives) →
  ∀ b, takes_first (flat_map (λ a, candidates (node a) v) alternatives) b
         (any_alternative pattern_matches v b alternatives).
Proof.
  induction alternatives as [|a alternatives IH]; simpl; intros H b; [done|].
  inversion H as [|? ? Ha Hs]; subst. specialize (Ha b). specialize (IH Hs b).
  destruct (candidates (node a) v) as [|c cs]; simpl in *.
  - destruct (pattern_matches (node a) v b) as [ [] ]; [done|]. exact IH.
  - by rewrite Ha.
Qed.

Lemma takes_first_fields fields values :
  Forall (λ p, ∀ v b, takes_first (candidates p v) b (pattern_matches p v b))
    (map field_pattern fields) →
  ∀ b, takes_first
         match mapM (λ field, BTree.bt_get field values) (map pattern_field_name fields) with
         | Some vs => part_candidates (map field_pattern fields) vs
         | None => []
         end b (all_fields pattern_matches values fields b).
Proof.
  induction fields as [|[name name_span p] fields IH]; simpl; intros H b; [done|].
  inversion H as [|? ? Hp Hs]; subst. unfold field_pattern in Hp. simpl in Hp.
  destruct (BTree.bt_get name values) as [v|]; simpl; [|done].
  specialize (Hp v b). specialize (IH Hs).
  destruct (candidates (node p) v) as [|c cs] eqn:Hc.
  - assert (fst (let '(matched, bindings) := pattern_matches (node p) v b in
        if matched then all_fields pattern_matches values fields bindings
        else (false, bindings)) = false) as Hf.
    { simpl in Hp. by destruct (pattern_matches (node p) v b) as [ [] ]. }
    destruct (mapM _ _); simpl; [|done]. unfold field_pattern. simpl. by rewrite Hc.
  - simpl in Hp. rewrite Hp. specialize (IH (add_bindings b c)).
    destruct (mapM _ _) as [vs|]; simpl; [|done]. unfold field_pattern at 1. simpl.
    rewrite Hc. simpl. destruct (part_candidates _ vs) as [|d ds]; simpl in *.
    + change (takes_first (combine_parts cs []) b (all_fields pattern_matches values fields
        (add_bindings b c))).
      unfold combine_parts. simpl. by rewrite flat_map_nil.
    + rewrite IH. unfold add_bindings. by rewrite fold_left_app.
Qed.

(** The evaluator's answer for a pattern, with or without [|], is its first candidate. *)
Lemma evaluator_takes_first p v b :
  takes_first (candidates p v) b (pattern_matches p v b).
Proof.
  revert v b. induction p using pattern_induction; intros v b.
  - destruct p; simpl; try done; by destruct v; simpl; try done; case_match.
  - by apply takes_first_or, (Forall_impl _ _ _ H).
  - rewrite candidates_struct. simpl. destruct v; try done. simpl.
    destruct (String.eqb _ _); [|done]. by apply takes_first_fields.
  - done.
Qed.

(** So the evaluator sees no difference between a pattern and its alternatives. *)
Corollary evaluator_alternatives p sp alts v b :
  pattern_alternatives p sp = Ok alts →
  let m := any_alternative pattern_matches v b alts in
  fst m = fst (pattern_matches p v b) ∧ (fst m = true → m = pattern_matches p v b).
Proof.
  intros H. destruct (pattern_alternatives_split _ _ _ H) as [ [_ Hc] _].
  pose proof (takes_first_or alts v (Forall_true _ _ (λ p b, evaluator_takes_first p v b)) b) as H1.
  pose proof (evaluator_takes_first p v b) as H2. rewrite Hc in H1.
  destruct (candidates p v); simpl in *; [|by rewrite H1, H2].
  split; congruence.
Qed.
