(* ===== verification/ExpansionTotal.v ===== *)
(** * Expansion returns, within its limits, with an expanded program

    [expanded_program]: no [Meta] call and no [|] pattern is left in a function body.  One
    induction over the syntax, at every depth, shows that [expand] does not panic (which
    includes running out of depths), that what it returns is expanded, and that the report
    adds up and stays within the limits. *)

From S2P Require Import Prelude Machine Diagnostics StateM Limits Ast ConstEval Expansion ExpansionProps.
#[local] Open Scope string_scope.
#[local] Open Scope list_scope.
#[local] Open Scope Z_scope.

(** ** Expanded syntax *)

Definition is_meta_call (e : Expression) : bool :=
  match meta_call_name e with Some _ => true | None => false end.

Fixpoint expanded_expr (e : Expression) : bool :=
  let optional (o : option Expr) :=
    match o with Some e => expanded_expr (node e) | None => true end in
  negb (is_meta_call e) &&
  match e with
  | EArray values => forallb (λ e, expanded_expr (node e)) values
  | EStructConstruct _ _ fields =>
    forallb (λ f, match f with mkStructFieldValue _ _ v => expanded_expr (node v) end) fields
  | EFieldAccess e _ _ | ETry e | EAwait e | ESpawn e | EMove e | EBorrow _ e
  | EDereference e | EUnary _ e => expanded_expr (node e)
  | EIndex object index => expanded_expr (node object) && expanded_expr (node index)
  | ESubslice object start end_ =>
    expanded_expr (node object) && expanded_expr (node start) && expanded_expr (node end_)
  | EMatch value arms =>
    expanded_expr (node value) &&
    forallb (λ arm,
      match arm with
      | mkMatchArm pattern _ guard value _ =>
        or_free (node pattern)
        && match guard with Some g => expanded_expr (node g) | None => true end
        && expanded_expr (node value)
      end) arms
  | EBinary l _ r => expanded_expr (node l) && expanded_expr (node r)
  | ECall callee arguments =>
    expanded_expr (node callee) && forallb (λ e, expanded_expr (node e)) arguments
  | EClosure _ _ _ body =>
    match body with
    | CExpression e => expanded_expr (node e)
    | CBlock b => expanded_block b
    end
  | EDataStore path => optional path
  | EDataWrite value store _ => expanded_expr (node value) && expanded_expr (node store)
  | EDataQuery _ _ _ aggregate store predicate order limit =>
    optional aggregate && expanded_expr (node store) && optional predicate
    && match order with Some (mkDataOrder key _ _) => expanded_expr (node key) | None => true end
    && optional limit
  | EDataRemove _ _ store predicate =>
    expanded_expr (node store) && expanded_expr (node predicate)
  | EInteger _ | EFloat _ | EString _ | ECharacter _ | EBool _ | EIdentifier _ => true
  end
with expanded_statement (s : Statement) : bool :=
  let optional (o : option Expr) :=
    match o with Some e => expanded_expr (node e) | None => true end in
  match s with
  | SBinding _ _ _ _ value | SReturn value => optional value
  | SAssignment _ _ _ value | SExpression value => expanded_expr (node value)
  | SPlaceAssignment target _ value => expanded_expr (node target) && expanded_expr (node value)
  | SIf condition then_branch else_branch =>
    expanded_expr (node condition) && expanded_block then_branch
    && match else_branch with Some b => expanded_block b | None => true end
  | SWhile condition body => expanded_expr (node condition) && expanded_block body
  | SFor _ _ start end_ _ body =>
    expanded_expr (node start) && expanded_expr (node end_) && expanded_block body
  | SForEach _ _ iterable body => expanded_expr (node iterable) && expanded_block body
  | SLoop body | SUnsafe _ body => expanded_block body
  | SBreak | SContinue => true
  end
with expanded_block (b : Block) : bool :=
  match b with
  | mkBlock statements _ => forallb (λ s, expanded_statement (node s)) statements
  end.

(** The body of an external function is the empty one of its declaration. *)
Definition expanded_function (f : Function) : bool :=
  match fn_external f with None => expanded_block (fn_body f) | Some _ => true end.

Definition expanded_program (p : Program) : bool :=
  forallb expanded_function (program_functions p)
  && forallb (λ i, forallb expanded_function (impl_methods i)) (program_implementations p).

(** ** The invariant of the expander *)

Definition total_nodes (l : list Expansion) : Z := foldr Z.add 0 (map expansion_nodes l).

Record within (x : Expander) : Prop := {
  within_total : generated_nodes (report x) = total_nodes (expansions (report x));
  within_limit : 0 <= generated_nodes (report x) <= MAX_GENERATED_NODES;
  within_each : Forall (λ e, 0 <= expansion_nodes e) (expansions (report x));
  within_group : 0 <= next_pattern_group x < 2 ^ 32 }.

Definition any_error (d : Diagnostic) : Prop := True.
Abbreviation yields := (ensures within any_error).

(** ** The parts of the traversal that do not recurse *)

Lemma total_nodes_app l e : total_nodes (l ++ [e]) = total_nodes l + expansion_nodes e.
Proof. unfold total_nodes. induction l; simpl; [lia|]. lia. Qed.

Lemma yields_charge name s nodes : 0 <= nodes → yields (λ _, True) (charge name s nodes).
Proof.
  intros Hn x [Htotal Hlimit Heach Hgroup]. unfold charge, gets, lift, modify, throw.
  unfold mbind, SM_bind. simpl. unfold checked_add, try_from.
  destruct (_ && _)%bool eqn:Hadd; simpl; [|done].
  destruct (_ <? _) eqn:Hmax; simpl; [done|]. reflect_bools. split; [|done]. constructor; simpl.
  - rewrite total_nodes_app. simpl. lia.
  - lia.
  - apply Forall_app. split; [done|]. by constructor.
  - done.
Qed.

Lemma yields_pattern_group alternatives :
  yields (λ _, True) (pattern_group alternatives).
Proof.
  unfold pattern_group. apply ensures_if; intros _; [|by apply ensures_ret].
  intros x Hx. unfold gets, modify, mbind, SM_bind, mret, SM_ret. simpl. split; [|done].
  destruct Hx. constructor; simpl; try done. apply Z.mod_pos_bound. lia.
Qed.

Lemma for_each_no_panic {E A S} (body : S → A → outcome E S) l s :
  (∀ s a, a ∈ l → body s a ≠ Panic) → for_each body l s ≠ Panic.
Proof.
  intros H. apply (safe_no_panic _ (λ _, True)), safe_for_each; [|done].
  intros s' a Ha _. specialize (H s' a Ha). by destruct (body s' a).
Qed.

Lemma bind_no_panic {E A B} (m : outcome E A) (f : A → outcome E B) :
  m ≠ Panic → (∀ a, f a ≠ Panic) → m ≫= f ≠ Panic.
Proof. by destruct m; simpl. Qed.

Lemma extend_products_no_panic {A} s (products : list (list A)) alternatives :
  extend_products s products alternatives ≠ Panic.
Proof.
  apply for_each_no_panic. intros next product _. apply for_each_no_panic.
  intros ? ? _. simpl. by case_match.
Qed.

Lemma pattern_alternatives_no_panic p sp : pattern_alternatives p sp ≠ Panic.
Proof.
  revert sp. induction p using pattern_induction; intros sp;
    try rewrite Forall_map in H; try rewrite Forall_forall in H.
  - by destruct p.
  - apply for_each_no_panic. intros expanded a Ha. case_match; [done|].
    apply bind_no_panic; [by apply H|]. intros more. cbv zeta. by destruct (_ <? _).
  - rewrite struct_alternatives. apply bind_no_panic; [|done].
    apply for_each_no_panic. intros products [field field_span p] Ha.
    apply bind_no_panic; [|intros; apply extend_products_no_panic].
    specialize (H _ Ha (span p)). simpl in *. by destruct (pattern_alternatives _ _).
  - apply bind_no_panic; [|done]. apply for_each_no_panic. intros products a Ha.
    apply bind_no_panic; [by apply H|]. intros. apply extend_products_no_panic.
Qed.

Definition arm_ok (arm : MatchArm) : Prop :=
  match arm with
  | mkMatchArm pattern _ guard value _ =>
    or_free (node pattern)
    && match guard with Some g => expanded_expr (node g) | None => true end
    && expanded_expr (node value) = true
  end.

(** The arms so far: expanded, and no more than the limit. *)
Definition arms_ok (arms : list MatchArm) : Prop :=
  Forall arm_ok arms ∧ Z.of_nat (length arms) <= MAX_REPEAT_COUNT.

Lemma yields_split_arm arms pattern guard value arm_span :
  arms_ok arms →
  match guard with Some g => expanded_expr (node g) | None => true end = true →
  expanded_expr (node value) = true →
  yields arms_ok (split_arm arms pattern guard value arm_span).
Proof.
  intros [Harms Hlen] Hg Hv. unfold split_arm.
  apply (ensures_bind _ _ (λ alts, split_into node (node pattern) alts)).
  - apply ensures_lift. pose proof (pattern_alternatives_no_panic (node pattern) (span pattern)).
    destruct (pattern_alternatives _ _) eqn:He; [|done..].
    by apply (pattern_alternatives_split _ _ _ He).
  - intros alts [Halts _]. apply ensures_if; intros Hmax; [by apply ensures_throw|].
    apply (ensures_bind _ _ (λ _, True)); [apply yields_pattern_group|]. intros group _.
    apply ensures_ret. split.
    + apply Forall_app. split; [done|]. apply Forall_map. eapply Forall_impl; [exact Halts|].
      intros q [Hq _]. simpl. by rewrite Hq, Hg, Hv.
    + rewrite length_app, length_map. unfold saturating_add in Hmax. reflect_bools.
      assert (MAX_REPEAT_COUNT < USIZE_MAX) by by vm_compute. lia.
Qed.

(** ** The recursion *)

(** The part of a call that makes it a [Meta] call. *)
Definition meta_callee (e : Expression) : option MetaName :=
  meta_call_name (ECall (mkSpanned e (point 1 1)) []).

Lemma meta_call_callee callee arguments :
  meta_call_name (ECall callee arguments) = meta_callee (node callee).
Proof. done. Qed.

(** [kept e e']: [e'] is expanded, and is not the name or the callee of a [Meta] call
    unless [e] is. *)
Definition kept (e : Expression) (e' : Expr) : Prop :=
  expanded_expr (node e') = true
  ∧ (∀ name, node e' = EIdentifier name → e = EIdentifier name)
  ∧ (∀ m, meta_callee (node e') = Some m → meta_callee e = Some m).

Lemma kept_array e values s :
  Forall (λ v, expanded_expr (node v) = true) values → kept e (mkSpanned (EArray values) s).
Proof.
  intros Hv. split_and!; [|done..]. simpl. apply forallb_forall. intros v Hin.
  rewrite Forall_forall in Hv. by apply Hv, list_elem_of_In.
Qed.

(** An array keeps nothing of a callee. *)
Lemma kept_of_array e values e' : kept (EArray values) e' → kept e e'.
Proof.
  intros (H1 & H2 & H3). split_and!; [done| |].
  - intros name Hn. by apply H2 in Hn.
  - intros m Hm. by apply H3 in Hm.
Qed.

Lemma checked_range max a b n : checked_add max a b = Some n → 0 <= n.
Proof. unfold checked_add, try_from. case_match; [|done]. intros [= <-]. by reflect_bools. Qed.

Lemma sum_nodes_range values n : sum_nodes values = Some n → 0 <= n.
Proof.
  unfold sum_nodes. enough (∀ o : option Z, (∀ n, o = Some n → 0 <= n) →
    ∀ n, fold_left (λ total e, total ← total; checked_add USIZE_MAX total
            (expression_nodes (node e))) values o = Some n → 0 <= n) as H.
  { apply H. by intros ? [= <-]. }
  clear n. induction values as [|e values IH]; intros o Ho n; simpl; [apply Ho|].
  apply IH. intros k. destruct o; simpl; [|done]. apply checked_range.
Qed.

Section level.
Context (level : Expr → Ex Expr) (depth : Z).
Hypothesis level_ok : depth + 1 <= MAX_EXPANSION_DEPTH →
  ∀ e : Expr, yields (kept (node e)) (level e).

Lemma yields_repeat e count template s :
  depth + 1 <= MAX_EXPANSION_DEPTH → yields (kept e) (expand_repeat level count template s).
Proof.
  intros Hd. unfold expand_repeat. eapply ensures_bind; [by apply level_ok|].
  intros t' (Ht & _). apply (ensures_bind _ _ (λ n, 0 <= n)).
  { apply ensures_lift. destruct (checked_mul _ _ _); simpl; [|done].
    destruct (checked_add _ _ _) eqn:Ha; simpl; [|done]. by eapply checked_range. }
  intros nodes Hn. eapply ensures_bind; [by apply yields_charge|]. intros _ _.
  apply ensures_ret, kept_array, Forall_replicate. done.
Qed.

Lemma yields_map e count mapper s :
  depth + 1 <= MAX_EXPANSION_DEPTH → yields (kept e) (expand_map level count mapper s).
Proof.
  intros Hd. unfold expand_map.
  destruct (node mapper); try by apply ensures_throw.
  destruct move_captures; [by apply ensures_throw|].
  destruct body; [|by apply ensures_throw].
  destruct parameters as [|parameter [] ]; [by apply ensures_throw| |by apply ensures_throw].
  apply (ensures_bind _ _ (λ n, 0 <= n)).
  { apply ensures_lift. destruct (sum_nodes _) eqn:Ha; simpl; [|done].
    by eapply sum_nodes_range. }
  intros nodes Hn. eapply ensures_bind; [by apply yields_charge|]. intros _ _.
  eapply ensures_mono; [by apply level_ok|]. intros e'. apply kept_of_array.
Qed.

Lemma yields_expand_meta e name arguments s :
  yields (kept e) (expand_meta level name arguments s (depth + 1)).
Proof.
  unfold expand_meta. apply ensures_if; intros Hd; [by apply ensures_throw|].
  reflect_bools. destruct arguments as [|c [|a [] ] ]; try by apply ensures_throw.
  apply (ensures_bind _ _ (λ _, True)).
  { apply ensures_lift. unfold expansion_count.
    destruct (count_integer _) as [ [ [] count] | ]; try done. by destruct (try_from _ _). }
  intros count _. apply ensures_if; intros _; [by apply ensures_throw|].
  destruct name; [by apply yields_repeat|by apply yields_map].
Qed.

Definition expands (e : Expression) : Prop :=
  ∀ sp, yields (kept e) (expand_expr level depth e sp).
Definition block_expands (b : Block) : Prop :=
  yields (λ b', expanded_block b' = true) (expand_block level depth b).

Lemma expands_node e sp :
  expands e → yields (λ e', expanded_expr (node e') = true) (expand_expr level depth e sp).
Proof. intros He. eapply ensures_mono; [exact (He sp)|]. by intros ? (? & _). Qed.

Lemma expands_some (o : option Expr) :
  on_some (λ e, expands (node e)) o →
  yields (λ o, match o with Some e => expanded_expr (node e) | None => true end = true)
    (optS (λ e, expand_expr level depth (node e) (span e)) o).
Proof.
  intros Ho. eapply ensures_mono; [apply ensures_optS; intros e ->; by apply expands_node|].
  by intros [e'|].
Qed.

Lemma expands_list (l : list Expr) :
  Forall (λ e, expands (node e)) l →
  yields (λ l, forallb (λ e, expanded_expr (node e)) l = true)
    (mapS (λ e, expand_expr level depth (node e) (span e)) l).
Proof.
  intros Hl. eapply ensures_mono; [apply ensures_mapS; eapply Forall_impl; [exact Hl|]|].
  - intros e He. by apply expands_node.
  - intros l'. rewrite Forall_forall, forallb_forall. setoid_rewrite list_elem_of_In. auto.
Qed.

Lemma expands_fields fields :
  Forall (λ f, match f with mkStructFieldValue _ _ v => expands (node v) end) fields →
  yields (λ l, forallb (λ f, match f with mkStructFieldValue _ _ v => expanded_expr (node v) end) l
               = true)
    (mapS (λ f, match f with
                | mkStructFieldValue field field_span v =>
                  v ← expand_expr level depth (node v) (span v);
                  mret (mkStructFieldValue field field_span v)
                end) fields).
Proof.
  intros Hl. eapply ensures_mono; [apply ensures_mapS; eapply Forall_impl; [exact Hl|]|].
  - intros [field field_span v] Hv. eapply ensures_bind; [by apply expands_node|].
    intros v' Hv'. apply ensures_ret. instantiate (1 := λ f, match f with
      mkStructFieldValue _ _ v => expanded_expr (node v) end = true). done.
  - intros l'. rewrite Forall_forall, forallb_forall. setoid_rewrite list_elem_of_In. auto.
Qed.

Lemma expands_arms arms :
  Forall (λ a, match a with
               | mkMatchArm _ _ guard v _ =>
                 on_some (λ g : Expr, expands (node g)) guard ∧ expands (node v)
               end) arms →
  yields arms_ok
    (foldS (λ arms arm,
       match arm with
       | mkMatchArm pattern _ guard value arm_span =>
         guard ← optS (λ e, expand_expr level depth (node e) (span e)) guard;
         value ← expand_expr level depth (node value) (span value);
         split_arm arms pattern guard value arm_span
       end) arms []).
Proof.
  intros Harms. apply ensures_foldS; [|by split; [constructor|vm_compute] ].
  eapply Forall_impl; [exact Harms|]. intros [pattern group guard value sp] [Hg Hv] acc Hacc.
  eapply ensures_bind; [by apply expands_some|]. intros guard' Hg'.
  eapply ensures_bind; [by apply expands_node|]. intros value' Hv'.
  by apply yields_split_arm.
Qed.

Lemma expands_statements statements :
  Forall (λ s : Stmt, yields (λ s', expanded_statement s' = true)
                        (expand_statement level depth (node s))) statements →
  yields (λ l, forallb (λ s, expanded_statement (node s)) l = true)
    (mapS (λ s, s' ← expand_statement level depth (node s); mret (mkSpanned s' (span s)))
       statements).
Proof.
  intros Hl. eapply ensures_mono; [apply ensures_mapS; eapply Forall_impl; [exact Hl|]|].
  - intros s Hs. eapply ensures_bind; [apply Hs|]. intros s' Hs'. apply ensures_ret.
    instantiate (1 := λ s, expanded_statement (node s) = true). done.
  - intros l'. rewrite Forall_forall, forallb_forall. setoid_rewrite list_elem_of_In. auto.
Qed.

Lemma expands_order (o : option DataOrder) :
  on_some (λ o, let '(mkDataOrder key _ _) := o in expands (node key)) o →
  yields (λ o, match o with Some (mkDataOrder key _ _) => expanded_expr (node key)
                          | None => true end = true)
    (optS (λ o, match o with
                | mkDataOrder key descending order_span =>
                  key ← expand_expr level depth (node key) (span key);
                  mret (mkDataOrder key descending order_span)
                end) o).
Proof.
  intros Ho. destruct o as [ [key descending order_span] |]; simpl; [|by apply ensures_ret].
  apply (ensures_bind _ _ (λ o, match o with mkDataOrder key _ _ => expanded_expr (node key) end
                              = true)).
  - eapply ensures_bind; [by apply expands_node|]. intros key' Hk. by apply ensures_ret.
  - intros o' Ho'. apply ensures_ret. by destruct o'.
Qed.

Lemma expands_closure (body : ClosureBody) :
  match body with CExpression e => expands (node e) | CBlock b => block_expands b end →
  yields (λ body, match body with CExpression e => expanded_expr (node e)
                                | CBlock b => expanded_block b end = true)
    match body with
    | CExpression value =>
      value ← expand_expr level depth (node value) (span value); mret (CExpression value)
    | CBlock block => block ← expand_block level depth block; mret (CBlock block)
    end.
Proof.
  destruct body; intros Hb.
  - eapply ensures_bind; [by apply expands_node|]. intros e He. by apply ensures_ret.
  - eapply ensures_bind; [exact Hb|]. intros b' Hb'. by apply ensures_ret.
Qed.

Lemma expands_else (o : option Block) :
  on_some block_expands o →
  yields (λ o, match o with Some b => expanded_block b | None => true end = true)
    (optS (expand_block level depth) o).
Proof.
  intros Ho. eapply ensures_mono; [apply ensures_optS; intros b ->; exact Ho|]. by intros [].
Qed.

Lemma arms_expanded arms :
  arms_ok arms →
  forallb (λ arm,
      match arm with
      | mkMatchArm pattern _ guard value _ =>
        or_free (node pattern)
        && match guard with Some g => expanded_expr (node g) | None => true end
        && expanded_expr (node value)
      end) arms = true.
Proof.
  intros [H _]. apply forallb_forall. intros a Ha%list_elem_of_In.
  rewrite Forall_forall in H. specialize (H a Ha). by destruct a.
Qed.

(** Run one traversal call, then rebuild. *)
Ltac expand_step :=
  match goal with
  | |- ensures _ _ _ (_ ≫= _) =>
    eapply ensures_bind;
    [ first [ by apply expands_node | by apply expands_some | by apply expands_list
            | by apply expands_fields | by apply expands_statements | by apply expands_order
            | by apply expands_closure | by apply expands_else
            | eapply ensures_mono; [by apply expands_arms|exact arms_expanded]
            | eassumption ]
    | let a := fresh "a" in let Ha := fresh "Ha" in intros a Ha; cbv beta in Ha ]
  | |- ensures _ _ _ (mret _) => apply ensures_ret
  end.
Ltac expanded_now :=
  simpl; repeat match goal with H : _ = true |- _ => rewrite H; clear H end; done.
Ltac kept_now := split_and!; [expanded_now|done..].

Lemma expands_access object field field_span :
  expands (node object) → expands (EFieldAccess object field field_span).
Proof.
  intros Ho sp. cbn [expand_expr meta_call_name]. eapply ensures_bind; [apply Ho|].
  intros o' (He & Hi & _). apply ensures_ret. split_and!; [exact He|done|].
  intros m. unfold meta_callee. simpl.
  destruct (node o') eqn:Hn; try done. by rewrite (Hi _ eq_refl).
Qed.

Lemma expands_call callee arguments :
  expands (node callee) → Forall (λ e : Expr, expands (node e)) arguments →
  expands (ECall callee arguments).
Proof.
  intros Hc Ha sp. cbn [expand_expr].
  destruct (meta_call_name (ECall callee arguments)) as [name|] eqn:Hm.
  { apply yields_expand_meta. }
  eapply ensures_bind; [apply Hc|]. intros c' (He & _ & Hk). expand_step. expand_step.
  split_and!; [|done..]. simpl. unfold is_meta_call. rewrite meta_call_callee.
  destruct (meta_callee (node c')) as [m|] eqn:Hm'.
  - specialize (Hk m eq_refl). rewrite meta_call_callee in Hm. congruence.
  - by rewrite He, Ha0.
Qed.

Lemma expand_sound :
  (∀ e, expands e) ∧
  (∀ o : DataOrder, let '(mkDataOrder key _ _) := o in expands (node key)) ∧
  (∀ body : ClosureBody, match body with
                         | CExpression e => expands (node e)
                         | CBlock b => block_expands b
                         end) ∧
  (∀ f : StructFieldValue, match f with mkStructFieldValue _ _ v => expands (node v) end) ∧
  (∀ a : MatchArm, match a with
                   | mkMatchArm _ _ guard v _ =>
                     on_some (λ g : Expr, expands (node g)) guard ∧ expands (node v)
                   end) ∧
  (∀ s, yields (λ s', expanded_statement s' = true) (expand_statement level depth s)) ∧
  (∀ b, block_expands b).
Proof.
  apply syntax_mind; intros; nested; try done; auto using expands_access, expands_call;
    try match goal with |- expands _ => intros sp | |- block_expands _ => unfold block_expands end;
    cbn [expand_expr expand_statement expand_block meta_call_name];
    fold (expand_expr level depth) (expand_statement level depth) (expand_block level depth);
    try by (repeat expand_step; first [kept_now|expanded_now]).
Qed.
End level.

Lemma expander_ok levels depth e :
  MAX_EXPANSION_DEPTH < depth + Z.of_nat levels → (levels ≠ 0)%nat →
  yields (kept (node e)) (expander levels depth e).
Proof.
  revert depth e. induction levels as [|levels IH]; intros depth e Hd Hl; [done|]. simpl.
  apply expand_sound. intros Hmax e'. apply IH; lia.
Qed.

Lemma yields_body b : yields (λ b', expanded_block b' = true) (expand_body b).
Proof.
  apply expand_sound. intros _ e. apply expander_ok; [by vm_compute|].
  assert (0 < MAX_EXPANSION_DEPTH) by done. lia.
Qed.

Lemma yields_function f : yields (λ f', expanded_function f' = true) (expand_function f).
Proof.
  unfold expand_function, expanded_function. destruct (fn_external f) eqn:He.
  - apply ensures_ret. by rewrite He.
  - eapply ensures_bind; [apply yields_body|]. intros b Hb. apply ensures_ret. simpl.
    by rewrite He.
Qed.

Lemma forall_forallb {A} (p : A → bool) l : Forall (λ a, p a = true) l → forallb p l = true.
Proof. rewrite Forall_forall, forallb_forall. setoid_rewrite list_elem_of_In. auto. Qed.

Lemma yields_functions l :
  yields (λ l, forallb expanded_function l = true) (mapS expand_function l).
Proof.
  eapply ensures_mono; [apply ensures_mapS, Forall_true, yields_function|].
  intros l'. apply forall_forallb.
Qed.

Lemma yields_implementations l :
  yields (λ l, forallb (λ i, forallb expanded_function (impl_methods i)) l = true)
    (mapS (λ i, methods ← mapS expand_function (impl_methods i);
                mret (set_methods i methods)) l).
Proof.
  eapply ensures_mono; [apply (ensures_mapS _ _ (λ i, forallb expanded_function (impl_methods i)
                                                     = true)), Forall_true|].
  - intros i. eapply ensures_bind; [apply yields_functions|]. intros methods Hm.
    by apply ensures_ret.
  - intros l'. rewrite Forall_forall, forallb_forall. setoid_rewrite list_elem_of_In. auto.
Qed.

Lemma yields_items p :
  yields (λ '(functions, implementations),
      forallb expanded_function functions = true
      ∧ forallb (λ i, forallb expanded_function (impl_methods i)) implementations = true)
    (expand_items p).
Proof.
  eapply ensures_bind; [apply yields_functions|]. intros fs Hfs.
  eapply ensures_bind; [apply yields_implementations|]. intros impls Himpls.
  by apply ensures_ret.
Qed.

Lemma initial_within : within initial_expander.
Proof. split; [done|by vm_compute|constructor|done]. Qed.

(** The whole run. *)
Lemma expand_ok p :
  safe (expand p) (λ '(p', r), expanded_program p' = true
                    ∧ generated_nodes r = total_nodes (expansions r)
                    ∧ 0 <= generated_nodes r <= MAX_GENERATED_NODES).
Proof.
  unfold expand. pose proof (yields_items p _ initial_within) as H.
  destruct (expand_items p initial_expander) as [ [ [fs impls] x] | | ]; simpl in *; [|done..].
  destruct H as [ [Htotal Hlimit _ _] [Hf Hi] ]. split_and!; try done; [|lia..].
  unfold expanded_program. simpl. by rewrite Hf, Hi.
Qed.

(** C18: Expansion returns on every program: it neither panics nor runs out of depths, and
    when it succeeds no [Meta.repeat] or [Meta.map] call and no [|] pattern is left in any
    function or method, at any nesting; the generated nodes it reports are the sum of the
    nodes of its expansions and are at most [MAX_GENERATED_NODES]. *)
Theorem expand_total (p : Program) :
  match expand p with
  | Ok (p', r) => expanded_program p' = true
                  ∧ generated_nodes r = total_nodes (expansions r)
                  ∧ generated_nodes r <= MAX_GENERATED_NODES
  | Err _ => True
  | Panic => False
  end.
Proof.
  pose proof (expand_ok p) as H. destruct (expand p) as [ [p' r] | | ]; simpl in H; [|done..].
  naive_solver lia.
Qed.
