(* ===== verification/Resolver.v ===== *)
(** * Name resolution ([compiler/src/resolver.rs])

    The resolver walks an expanded program once.  It declares traits, types, variants and
    functions, and then checks every type, name, pattern and loop exit of every body
    against the scopes it keeps.  The scopes are stacks: the head of [scopes] and of
    [generic_types] is the innermost one (the last of the vector).

    An error leaves the walk at once, so the state an error leaves behind (scopes not yet
    popped) is not modelled. *)

From Stdlib Require Import Strings.Ascii.
From S2P Require Import Prelude Machine Diagnostics StateM Ast.
#[local] Open Scope string_scope.
#[local] Open Scope list_scope.
#[local] Open Scope nat_scope.

#[export] Instance Span_countable : Countable Span.
Proof.
  refine (inj_countable'
    (λ s, ((line (start s), column (start s)), (line (end_ s), column (end_ s))))
    (λ '((a, b), (c, d)), mkSpan (mkPosition a b) (mkPosition c d)) _).
  by intros [ [] [] ].
Defined.

(** ** Data *)

Abbreviation SymbolId := nat.

Inductive SymbolKind :=
| KBuiltin
| KFunction
| KVariant (enum_name : string)
| KParameter
| KLocal (mutable constant : bool).

Record Symbol := mkSymbol {
  symbol_id : SymbolId;
  symbol_name : string;
  symbol_kind : SymbolKind;
  symbol_declaration : Span }.

Record Resolution := mkResolution {
  symbols : list Symbol;
  declarations : gmap Span SymbolId;
  uses : gmap Span SymbolId }.

Abbreviation Names := (gmap string SymbolId).

Record Resolver := mkResolver {
  resolution : Resolution;
  globals : Names;
  types : gmap string (Span * nat);
  generic_types : list (gmap string Span);
  traits : gmap string (Span * nat);
  variants : gmap string (list (string * SymbolId));
  scopes : list Names;
  loop_depth : nat;
  data_fields : gmap string (gset string) }.

Definition R : Type → Type := SM Resolver Diagnostic.

Definition set_resolution (x : Resolution) (r : Resolver) : Resolver :=
  mkResolver x (globals r) (types r) (generic_types r) (traits r) (variants r) (scopes r)
    (loop_depth r) (data_fields r).
Definition set_globals (x : Names) (r : Resolver) : Resolver :=
  mkResolver (resolution r) x (types r) (generic_types r) (traits r) (variants r) (scopes r)
    (loop_depth r) (data_fields r).
Definition set_types (x : gmap string (Span * nat)) (r : Resolver) : Resolver :=
  mkResolver (resolution r) (globals r) x (generic_types r) (traits r) (variants r) (scopes r)
    (loop_depth r) (data_fields r).
Definition set_generic_types (x : list (gmap string Span)) (r : Resolver) : Resolver :=
  mkResolver (resolution r) (globals r) (types r) x (traits r) (variants r) (scopes r)
    (loop_depth r) (data_fields r).
Definition set_traits (x : gmap string (Span * nat)) (r : Resolver) : Resolver :=
  mkResolver (resolution r) (globals r) (types r) (generic_types r) x (variants r) (scopes r)
    (loop_depth r) (data_fields r).
Definition set_variants (x : gmap string (list (string * SymbolId))) (r : Resolver) : Resolver :=
  mkResolver (resolution r) (globals r) (types r) (generic_types r) (traits r) x (scopes r)
    (loop_depth r) (data_fields r).
Definition set_scopes (x : list Names) (r : Resolver) : Resolver :=
  mkResolver (resolution r) (globals r) (types r) (generic_types r) (traits r) (variants r) x
    (loop_depth r) (data_fields r).
Definition set_loop_depth (x : nat) (r : Resolver) : Resolver :=
  mkResolver (resolution r) (globals r) (types r) (generic_types r) (traits r) (variants r)
    (scopes r) x (data_fields r).
Definition set_data_fields (x : gmap string (gset string)) (r : Resolver) : Resolver :=
  mkResolver (resolution r) (globals r) (types r) (generic_types r) (traits r) (variants r)
    (scopes r) (loop_depth r) x.

Definition resolve_error (message : string) (s : Span) : Diagnostic :=
  new_diagnostic Resolve message s.

(** ** Symbols and scopes *)

Definition add_symbol (name : string) (kind : SymbolKind) (s : Span) : R SymbolId :=
  r ← gets resolution;
  let id := length (symbols r) in
  _ ← modify (set_resolution (mkResolution
        (symbols r ++ [mkSymbol id name kind s]) (declarations r) (uses r)));
  mret id.

Definition insert_declaration (s : Span) (id : SymbolId) : R unit :=
  modify (λ x, let r := resolution x in
    set_resolution (mkResolution (symbols r) (<[s := id]> (declarations r)) (uses r)) x).

Definition insert_use (s : Span) (id : SymbolId) : R unit :=
  modify (λ x, let r := resolution x in
    set_resolution (mkResolution (symbols r) (declarations r) (<[s := id]> (uses r))) x).

Definition begin_scope : R unit := modify (λ r, set_scopes (∅ :: scopes r) r).
Definition end_scope : R unit := modify (λ r, set_scopes (tail (scopes r)) r).
Definition pop_generics : R unit :=
  modify (λ r, set_generic_types (tail (generic_types r)) r).

(** [scopes.iter().rev().find_map(..)], then the globals. *)
Fixpoint find_scope (scopes : list Names) (name : string) : option SymbolId :=
  match scopes with
  | [] => None
  | scope :: scopes =>
    match scope !! name with Some id => Some id | None => find_scope scopes name end
  end.

Definition lookup_name (r : Resolver) (name : string) : option SymbolId :=
  match find_scope (scopes r) name with Some id => Some id | None => globals r !! name end.

Definition meta_reserved (s : Span) : Diagnostic :=
  resolve_error "`Meta` is reserved for bounded structured compile-time generation" s.

Definition declare_local (name : string) (s : Span) (kind : SymbolKind) : R unit :=
  if String.eqb name "Meta" then throw (meta_reserved s)
  else
    scopes ← gets scopes;
    match scopes with
    | scope :: _ =>
      if bool_decide (is_Some (scope !! name)) then
        throw (with_help
                 (resolve_error ("duplicate name `" +:+ name +:+ "` in this scope") s)
                 "rename this declaration or remove the earlier declaration")
      else
        id ← add_symbol name kind s;
        _ ← modify (λ r, set_scopes (<[name := id]> scope :: tail (Resolver.scopes r)) r);
        insert_declaration s id
    | [] =>
      _ ← add_symbol name kind s;
      panic
    end.

Definition declare_type (name : string) (s : Span) (arity : nat) : R unit :=
  types ← gets types;
  globals ← gets globals;
  if (bool_decide (is_Some (types !! name)) || bool_decide (is_Some (globals !! name)))%bool
  then throw (resolve_error ("duplicate type `" +:+ name +:+ "`") s)
  else modify (set_types (<[name := (s, arity)]> types)).

Fixpoint validate_unique_fields_from (seen : gset string) (names : list (string * Span))
    : outcome Diagnostic unit :=
  match names with
  | [] => Ok tt
  | (name, s) :: names =>
    if bool_decide (name ∈ seen) then
      Err (resolve_error ("duplicate declaration `" +:+ name +:+ "`") s)
    else validate_unique_fields_from ({[name]} ∪ seen) names
  end.
Definition validate_unique_fields (names : list (string * Span)) : outcome Diagnostic unit :=
  validate_unique_fields_from ∅ names.

(** ** Types *)

(** A [for] loop of a method that only reads. *)
Fixpoint each {A} (f : A → outcome Diagnostic unit) (l : list A) : outcome Diagnostic unit :=
  match l with
  | [] => Ok tt
  | a :: l => _ ← f a; each f l
  end.

(** A method that borrows [self] without changing it. *)
Definition reading (m : Resolver → outcome Diagnostic unit) : R unit := λ r, lift (m r) r.

Definition has_generic (r : Resolver) (name : string) : bool :=
  existsb (λ scope, bool_decide (is_Some ((scope : gmap string Span) !! name)))
    (generic_types r).

(** [name.starts_with("\[;") && name.ends_with('\]')]. *)
Definition is_fixed_array (name : string) : bool :=
  (String.prefix "[;" name
   && bool_decide (last (String.list_ascii_of_string name) = Some "]"%char))%bool.

(** [name.strip_prefix("Self.")] is not empty. *)
Definition is_associated (name : string) : bool :=
  (String.prefix "Self." name && (5 <? String.length name))%bool.

Definition one_of (names : list string) (name : string) : bool :=
  existsb (String.eqb name) names.
#[global] Arguments one_of : simpl never.

Definition unary_types : list string :=
  ["Option"; "List"; "Set"; "Thread"; "Future"; "Task"; "Mutex"; "MutexGuard"; "Channel";
   "MemoryPtr"; "MemoryMutPtr"; "CFunction"; "[]"].
Definition binary_types : list string := ["Result"; "Map"].
Definition plain_types : list string :=
  ["AtomicInt"; "CRegistration"; "CString"; "CStr"; "Memory"; "SecretBytes"; "AeadEnvelope";
   "Ed25519SigningKey"; "CInt"; "CUInt"; "CSize"; "CSSize"; "CChar"; "CUChar"; "CShort";
   "CUShort"; "CLongLong"; "CULongLong"; "CFloat"; "CDouble"; "int"; "f64"; "str"; "String";
   "Path"; "IpAddress"; "SocketAddress"; "TcpStream"; "TlsStream"; "TcpListener"; "UdpSocket";
   "UdpDatagram"; "Instant"; "Duration"; "IoError"; "NetworkError"; "HttpError"; "DataError";
   "CryptoError"; "HttpRequest"; "Url"; "Json"; "HttpResponse"; "ProcessCommand";
   "ChildProcess"; "Database"; "DataStore"; "ProcessOutput"; "char"; "bool"; "Unit";
   "ConversionError"].
Definition sized_types : list string :=
  ["i8"; "i16"; "i32"; "i64"; "i128"; "u8"; "u16"; "u32"; "u64"; "u128"; "uint"; "f32"].

(** The arms of [expected_arguments] after [fn]. *)
Definition expected_arguments (r : Resolver) (name : string) : option nat :=
  if one_of unary_types name then Some 1
  else if one_of binary_types name then Some 2
  else if is_fixed_array name then Some 1
  else if one_of plain_types name then Some 0
  else if (is_associated name && has_generic r "Self")%bool then Some 0
  else if has_generic r name then Some 0
  else
    match types r !! name with
    | Some (_, arity) => Some arity
    | None => if one_of sized_types name then Some 0 else None
    end.

Fixpoint resolve_type_name (r : Resolver) (ty : TypeName) : outcome Diagnostic unit :=
  match ty with
  | mkTypeName name arguments qualifier s =>
    let owned :=
      if String.eqb name "fn" then
        if bool_decide (arguments = []) then
          Err (resolve_error "function type is missing its result type" s)
        else each (resolve_type_name r) arguments
      else
        match expected_arguments r name with
        | None => Err (resolve_error ("unknown type `" +:+ name +:+ "`") s)
        | Some expected =>
          if negb (length arguments =? expected) then
            Err (resolve_error
                   ("type `" +:+ name +:+ "` expects " +:+ display_Z (Z.of_nat expected)
                    +:+ " type arguments, found " +:+ display_Z (Z.of_nat (length arguments))) s)
          else each (resolve_type_name r) arguments
        end in
    if String.eqb name "str" then
      match qualifier, arguments with
      | SharedReference, [] => Ok tt
      | _, _ =>
        Err (resolve_error
               "`str` is an immutable borrowed type and must be written as `&str`" s)
      end
    else
      match qualifier with
      | Owned | SharedReference | MutableReference => owned
      | RawConstPointer | RawMutPointer =>
        match arguments with
        | [target] =>
          if String.eqb name "ptr" then resolve_type_name r target
          else Err (resolve_error "raw pointer type must be `ptr<T>` or `mut ptr<T>`" s)
        | _ => Err (resolve_error "raw pointer type must be `ptr<T>` or `mut ptr<T>`" s)
        end
      end
  end.

Definition resolve_trait_name (r : Resolver) (ty : TypeName) : outcome Diagnostic unit :=
  match traits r !! type_name ty with
  | None => Err (resolve_error ("unknown trait `" +:+ type_name ty +:+ "`") (type_span ty))
  | Some (_, arity) =>
    if negb (length (type_arguments ty) =? arity) then
      Err (resolve_error
             ("trait `" +:+ type_name ty +:+ "` expects " +:+ display_Z (Z.of_nat arity)
              +:+ " type arguments, found "
              +:+ display_Z (Z.of_nat (length (type_arguments ty)))) (type_span ty))
    else each (resolve_type_name r) (type_arguments ty)
  end.

Fixpoint generic_scope (scope : gmap string Span) (parameters : list GenericParameter)
    : outcome Diagnostic (gmap string Span) :=
  match parameters with
  | [] => Ok scope
  | p :: parameters =>
    if bool_decide (is_Some (scope !! generic_name p)) then
      Err (resolve_error ("duplicate generic parameter `" +:+ generic_name p +:+ "`")
             (generic_name_span p))
    else generic_scope (<[generic_name p := generic_name_span p]> scope) parameters
  end.

Definition begin_generics (parameters : list GenericParameter) : R unit :=
  scope ← lift (generic_scope ∅ parameters);
  _ ← modify (λ r, set_generic_types (scope :: generic_types r) r);
  reading (λ r, each (λ p, each (resolve_trait_name r) (generic_constraints p)) parameters).

(** ** Names *)

(** The names of the standard library that are not symbols. *)
Definition library_names : list string :=
  ["String"; "List"; "Map"; "Set"; "Path"; "Url"; "Json"; "SocketAddress"; "Tls"; "Http";
   "IpAddress"; "Dns"; "TcpListener"; "UdpSocket"; "File"; "Directory"; "Time"; "Duration";
   "Environment"; "Process"; "Database"; "DataStore"; "Async"; "Crypto"; "Port"; "Mmio"].
(** Those whose fields are operations. *)
Definition library_objects : list string :=
  ["String"; "List"; "Map"; "Set"; "Mutex"; "AtomicInt"; "Channel"; "Path"; "Url"; "Json";
   "IpAddress"; "Dns"; "SocketAddress"; "Tls"; "Http"; "TcpListener"; "UdpSocket"; "File";
   "Directory"; "Time"; "Duration"; "Environment"; "Process"; "Database"; "DataStore";
   "Async"; "Crypto"; "Port"; "Mmio"].

Definition unknown_name (name : string) (s : Span) : Diagnostic :=
  resolve_error ("unknown name `" +:+ name +:+ "`") s.

(** The [Identifier] arm of [resolve_expression]. *)
Definition resolve_identifier (name : string) (s : Span) : R unit :=
  if one_of library_names name then mret tt
  else
    r ← gets id;
    match lookup_name r name with
    | Some id => insert_use s id
    | None =>
      match variants r !! name with
      | Some [(_, id)] => insert_use s id
      | Some _ =>
        throw (with_help (resolve_error ("ambiguous enum variant `" +:+ name +:+ "`") s)
                 "qualify the variant as `EnumName.Variant`")
      | None => throw (unknown_name name s)
      end
    end.

(** [DISP Data] conditions. *)
Fixpoint resolve_data_expression (fields : gset string) (e : Expression) (sp : Span) : R unit :=
  match e with
  | EIdentifier name =>
    r ← gets id;
    if (bool_decide (name ∈ fields) && bool_decide (lookup_name r name = None))%bool
    then mret tt
    else resolve_identifier name sp
  | EUnary _ operand => resolve_data_expression fields (node operand) (span operand)
  | EBinary l _ r =>
    _ ← resolve_data_expression fields (node l) (span l);
    resolve_data_expression fields (node r) (span r)
  | EInteger _ | EFloat _ | EString _ | ECharacter _ | EBool _ => mret tt
  | _ =>
    throw (with_help
      (resolve_error
         "DISP Data conditions allow schema fields, values, comparisons, and boolean logic" sp)
      "compute complex values before the data operation, then use the result as a parameter")
  end.

(** ** Patterns *)

Definition builtin_variants : list string := ["Some"; "None"; "Ok"; "Err"].

(** The two checks on the name of a variant pattern. *)
Definition resolve_variant (type_name : option string) (variant : string) (sp : Span) : R unit :=
  candidates ← gets (λ r, variants r !! variant);
  if one_of builtin_variants variant then mret tt
  else
    let valid :=
      match candidates with
      | Some values =>
        match type_name with
        | Some owner => existsb (λ c, String.eqb (fst c) owner) values
        | None => negb (bool_decide (values = []))
        end
      | None => false
      end in
    if negb valid then throw (resolve_error ("unknown enum variant `" +:+ variant +:+ "`") sp)
    else
      match type_name, candidates with
      | None, Some values =>
        if 1 <? length values then
          throw (with_help (resolve_error ("ambiguous enum variant `" +:+ variant +:+ "`") sp)
                   "qualify the pattern as `EnumName.Variant`")
        else mret tt
      | _, _ => mret tt
      end.

Fixpoint resolve_pattern (p : Pattern) (sp : Span) : R unit :=
  match p with
  | POr _ =>
    throw (new_diagnostic Internal "unexpanded `|` pattern reached name resolution" sp)
  | PBinding name => declare_local name sp (KLocal false false)
  | PStruct _ fields _ =>
    iterS (λ f, match f with
                | mkStructPatternField _ _ p => resolve_pattern (node p) (span p)
                end) fields
  | PVariant type_name variant arguments =>
    _ ← resolve_variant type_name variant sp;
    iterS (λ a, resolve_pattern (node a) (span a)) arguments
  | PWildcard | PInteger _ | PNegativeInteger _ | PString _ | PCharacter _ | PBool _ => mret tt
  end.

(** ** Expressions and statements *)

(** [begin_scope]; the body; [end_scope]. *)
Definition in_scope (body : R unit) : R unit := _ ← begin_scope; _ ← body; end_scope.

Definition with_loop (operation : R unit) : R unit :=
  _ ← modify (λ r, set_loop_depth (S (loop_depth r)) r);
  _ ← operation;
  modify (λ r, set_loop_depth (loop_depth r - 1) r).

(** [std::mem::replace(&mut self.loop_depth, 0)]; the body; the old depth again. *)
Definition outside_loops (body : R unit) : R unit :=
  outer ← gets loop_depth;
  _ ← modify (set_loop_depth 0);
  _ ← body;
  modify (set_loop_depth outer).

Definition schema_fields (schema : string) (s : Span) : R (gset string) :=
  fields ← gets (λ r, data_fields r !! schema);
  lift (ok_or fields (resolve_error ("unknown data schema `" +:+ schema +:+ "`") s)).

Definition unknown_variant (type_name field : string) (s : Span) : Diagnostic :=
  resolve_error ("unknown enum variant `" +:+ type_name +:+ "." +:+ field +:+ "`") s.

(** [Type.field], for a declared type. *)
Definition resolve_static (type_name field : string) (s : Span) : R unit :=
  if String.eqb field "from_json" then mret tt
  else
    candidates ← gets (λ r, variants r !! field);
    match candidates with
    | None => throw (unknown_variant type_name field s)
    | Some candidates =>
      match List.find (λ c, String.eqb (fst c) type_name) candidates with
      | Some (_, id) => insert_use s id
      | None => throw (unknown_variant type_name field s)
      end
    end.

Definition object_name (e : Expression) : option string :=
  match e with EIdentifier name => Some name | _ => None end.

(** The checks of a field access that decide it without resolving the object. *)
Definition resolve_access (object : Expression) (field : string) (field_span : Span)
    (otherwise : R unit) : R unit :=
  match object_name object with
  | Some name =>
    if one_of library_objects name then mret tt
    else
      types ← gets types;
      if bool_decide (is_Some (types !! name)) then resolve_static name field field_span
      else otherwise
  | None => otherwise
  end.

Definition declare_parameters (kind : SymbolKind) (parameters : list Param) : R unit :=
  iterS (λ p, declare_local (parameter_name p) (parameter_name_span p) kind) parameters.

Definition resolve_parameter_types (parameters : list Param) : R unit :=
  reading (λ r, each (λ p, resolve_type_name r (parameter_ty p)) parameters).

Definition resolve_optional_type (ty : option TypeName) : R unit :=
  match ty with Some ty => reading (λ r, resolve_type_name r ty) | None => mret tt end.

(** The part of an assignment before its value: the binding it assigns to, or [None] for
    a plain assignment that declares one. *)
Definition resolve_target (name : string) (name_span : Span) (operator : AssignmentOperator)
    : R (option SymbolId) :=
  r ← gets id;
  match lookup_name r name with
  | None =>
    if bool_decide (operator = AAssign) then mret None
    else throw (unknown_name name name_span)
  | Some id =>
    match symbols (resolution r) !! id with
    | None => panic
    | Some symbol =>
      match symbol_kind symbol with
      | KLocal true _ => _ ← insert_use name_span id; mret (Some id)
      | _ =>
        throw (with_help
                 (resolve_error ("cannot assign to immutable binding `" +:+ name +:+ "`")
                    name_span)
                 "declare the binding with `var` if mutation is required")
      end
    end
  end.

Fixpoint resolve_expression (e : Expression) (sp : Span) {struct e} : R unit :=
  let resolve (e : Expr) := resolve_expression (node e) (span e) in
  match e with
  | EArray values => iterS resolve values
  | EDataWrite value store _ => _ ← resolve value; resolve store
  | EDataStore path => whenS resolve path
  | EDataQuery _ schema schema_span aggregate store predicate order limit =>
    fields ← schema_fields schema schema_span;
    let data (e : Expr) := resolve_data_expression fields (node e) (span e) in
    _ ← resolve store;
    _ ← whenS data aggregate;
    _ ← whenS data predicate;
    _ ← whenS (λ o, match o with mkDataOrder key _ _ => data key end) order;
    whenS resolve limit
  | EDataRemove schema schema_span store predicate =>
    fields ← schema_fields schema schema_span;
    _ ← resolve store;
    resolve_data_expression fields (node predicate) (span predicate)
  | EClosure _ parameters return_type body =>
    _ ← resolve_parameter_types parameters;
    _ ← resolve_optional_type return_type;
    outside_loops (in_scope (
      _ ← declare_parameters (KLocal false false) parameters;
      match body with
      | CExpression e => resolve e
      | CBlock block => resolve_block_contents block
      end))
  | EIndex object index => _ ← resolve object; resolve index
  | ESubslice object start end_ => _ ← resolve object; _ ← resolve start; resolve end_
  | EIdentifier name => resolve_identifier name sp
  | EStructConstruct name _ fields =>
    types ← gets types;
    if bool_decide (is_Some (types !! name)) then
      iterS (λ f, match f with mkStructFieldValue _ _ v => resolve v end) fields
    else throw (resolve_error ("unknown struct type `" +:+ name +:+ "`") sp)
  | EFieldAccess object field field_span =>
    resolve_access (node object) field field_span (resolve object)
  | EMatch value arms =>
    _ ← resolve value;
    iterS (λ arm,
      match arm with
      | mkMatchArm pattern _ guard value _ =>
        in_scope (
          _ ← resolve_pattern (node pattern) (span pattern);
          _ ← whenS resolve guard;
          resolve value)
      end) arms
  | ETry e | EAwait e | ESpawn e | EMove e | EDereference e | EBorrow _ e | EUnary _ e =>
    resolve e
  | EBinary l _ r => _ ← resolve l; resolve r
  | ECall callee arguments => _ ← resolve callee; iterS resolve arguments
  | EInteger _ | EFloat _ | EString _ | ECharacter _ | EBool _ => mret tt
  end
with resolve_statement (s : Statement) (sp : Span) {struct s} : R unit :=
  let resolve (e : Expr) := resolve_expression (node e) (span e) in
  let resolve_block block := in_scope (resolve_block_contents block) in
  let counted name name_span body :=
    with_loop (in_scope (
      _ ← declare_local name name_span (KLocal false false);
      resolve_block_contents body)) in
  match s with
  | SBinding kind name name_span annotation value =>
    _ ← resolve_optional_type annotation;
    _ ← whenS resolve value;
    declare_local name name_span
      (KLocal (bool_decide (kind = BVar)) (bool_decide (kind = BConst)))
  | SAssignment name name_span operator value =>
    target ← resolve_target name name_span operator;
    _ ← resolve value;
    match target with
    | Some _ => mret tt
    | None => declare_local name name_span (KLocal true false)
    end
  | SPlaceAssignment target _ value => _ ← resolve target; resolve value
  | SExpression e => resolve e
  | SReturn value => whenS resolve value
  | SIf condition then_branch else_branch =>
    _ ← resolve condition;
    _ ← resolve_block then_branch;
    whenS (λ b, in_scope (resolve_block_contents b)) else_branch
  | SWhile condition body => _ ← resolve condition; with_loop (resolve_block body)
  | SFor name name_span start end_ _ body =>
    _ ← resolve start; _ ← resolve end_; counted name name_span body
  | SForEach name name_span iterable body =>
    _ ← resolve iterable; counted name name_span body
  | SLoop body => with_loop (resolve_block body)
  | SUnsafe _ body => resolve_block body
  | SBreak | SContinue =>
    depth ← gets loop_depth;
    if depth =? 0 then
      throw (resolve_error "`break` and `continue` are only valid inside loops" sp)
    else mret tt
  end
with resolve_block_contents (b : Block) {struct b} : R unit :=
  match b with
  | mkBlock statements _ => iterS (λ s, resolve_statement (node s) (span s)) statements
  end.

Definition resolve_block (b : Block) : R unit := in_scope (resolve_block_contents b).

(** ** Programs *)

Definition builtins : list string :=
  ["print"; "Some"; "None"; "Ok"; "Err"; "i8"; "i16"; "i32"; "i64"; "i128"; "u8"; "u16"; "u32";
   "u64"; "u128"; "int"; "uint"; "f32"; "f64"; "CString"; "Memory"; "CRegistration"; "CExport";
   "Meta"].

Definition empty_resolver : Resolver :=
  mkResolver (mkResolution [] ∅ ∅) ∅ ∅ [] ∅ ∅ [] 0 ∅.

(** [Resolver::new]: its loop cannot fail, so it is the state the loop leaves. *)
Definition add_builtin (r : Resolver) (name : string) : Resolver :=
  let id := length (symbols (resolution r)) in
  set_globals (<[name := id]> (globals r))
    (set_resolution (mkResolution
       (symbols (resolution r) ++ [mkSymbol id name KBuiltin (point 1 1)])
       (declarations (resolution r)) (uses (resolution r))) r).
Definition new_resolver : Resolver := fold_left add_builtin builtins empty_resolver.

Definition declare_trait (d : TraitDeclaration) : R unit :=
  if String.eqb (trait_name d) "Meta" then throw (meta_reserved (trait_name_span d))
  else
    previous ← gets (λ r, traits r !! trait_name d);
    _ ← modify (λ r, set_traits (<[trait_name d := (trait_name_span d,
                                                    length (trait_generics d))]> (traits r)) r);
    types ← gets types;
    if (bool_decide (is_Some previous) || bool_decide (is_Some (types !! trait_name d)))%bool
    then throw (resolve_error ("duplicate trait `" +:+ trait_name d +:+ "`") (trait_name_span d))
    else mret tt.

(** [self.traits.entry("Copy").or_insert(..)]. *)
Definition declare_copy : R unit :=
  modify (λ r, match traits r !! "Copy" with
               | Some _ => r
               | None => set_traits (<["Copy" := (point 1 1, 0)]> (traits r)) r
               end).

Definition declare_struct (d : StructDeclaration) : R unit :=
  _ ← declare_type (struct_name d) (struct_name_span d) (length (struct_generics d));
  _ ← lift (validate_unique_fields
              (map (λ f, (field_name f, field_name_span f)) (struct_fields d)));
  if struct_data d then
    modify (λ r, set_data_fields
      (<[struct_name d := list_to_set (map field_name (struct_fields d))]> (data_fields r)) r)
  else mret tt.

Definition declare_variant (enum : string) (v : VariantDeclaration) : R unit :=
  id ← add_symbol (variant_name v) (KVariant enum) (variant_name_span v);
  _ ← modify (λ r, set_variants
        (<[variant_name v := default [] (variants r !! variant_name v) ++ [(enum, id)]]>
           (variants r)) r);
  insert_declaration (variant_name_span v) id.

Definition declare_enum (d : EnumDeclaration) : R unit :=
  _ ← declare_type (enum_name d) (enum_name_span d) (length (enum_generics d));
  _ ← lift (validate_unique_fields
              (map (λ v, (variant_name v, variant_name_span v)) (enum_variants d)));
  iterS (declare_variant (enum_name d)) (enum_variants d).

Definition resolve_struct (d : StructDeclaration) : R unit :=
  _ ← begin_generics (struct_generics d);
  _ ← reading (λ r, each (λ f, resolve_type_name r (field_ty f)) (struct_fields d));
  pop_generics.

Definition resolve_enum (d : EnumDeclaration) : R unit :=
  _ ← begin_generics (enum_generics d);
  _ ← reading (λ r, each (λ v, each (resolve_type_name r) (variant_payload v)) (enum_variants d));
  pop_generics.

Definition declare_function (f : Function) : R unit :=
  r ← gets id;
  if (bool_decide (is_Some (globals r !! fn_name f))
      || bool_decide (is_Some (types r !! fn_name f)))%bool then
    throw (with_help
             (resolve_error ("duplicate function `" +:+ fn_name f +:+ "`") (fn_name_span f))
             "function names must be unique and cannot replace builtins")
  else
    id ← add_symbol (fn_name f) KFunction (fn_name_span f);
    _ ← modify (λ r, set_globals (<[fn_name f := id]> (globals r)) r);
    insert_declaration (fn_name_span f) id.

(** A function or a method: its signature, then its body under its parameters. *)
Definition resolve_function (f : Function) : R unit :=
  _ ← begin_generics (fn_generics f);
  _ ← resolve_parameter_types (fn_parameters f);
  _ ← resolve_optional_type (fn_return_type f);
  _ ← in_scope (
    _ ← declare_parameters KParameter (fn_parameters f);
    resolve_block_contents (fn_body f));
  pop_generics.

(** [self.generic_types.last_mut().unwrap().insert("Self", ..)]. *)
Definition insert_self (s : Span) : R unit :=
  generics ← gets generic_types;
  match generics with
  | scope :: rest => modify (set_generic_types (<["Self" := s]> scope :: rest))
  | [] => panic
  end.

Definition resolve_signature (m : FunctionSignature) : R unit :=
  _ ← begin_generics (sig_generics m);
  _ ← resolve_parameter_types (sig_parameters m);
  _ ← resolve_optional_type (sig_return_type m);
  pop_generics.

Definition resolve_trait (d : TraitDeclaration) : R unit :=
  _ ← begin_generics (trait_generics d);
  _ ← insert_self (trait_name_span d);
  _ ← iterS resolve_signature (trait_methods d);
  pop_generics.

Definition resolve_implementation (i : Implementation) : R unit :=
  _ ← begin_generics (impl_generics i);
  _ ← match impl_trait_name i with
      | Some name => reading (λ r, resolve_trait_name r name)
      | None => mret tt
      end;
  _ ← reading (λ r, resolve_type_name r (impl_target i));
  _ ← insert_self (impl_span i);
  _ ← reading (λ r, each (λ '(_, ty, _), resolve_type_name r ty) (impl_associated_types i));
  _ ← iterS resolve_function (impl_methods i);
  pop_generics.

Definition resolve_program (p : Program) : R unit :=
  _ ← iterS declare_trait (program_traits p);
  _ ← declare_copy;
  _ ← iterS declare_struct (program_structs p);
  _ ← iterS declare_enum (program_enums p);
  _ ← iterS resolve_struct (program_structs p);
  _ ← iterS resolve_enum (program_enums p);
  _ ← iterS declare_function (program_functions p);
  _ ← iterS resolve_function (program_functions p);
  _ ← iterS resolve_trait (program_traits p);
  iterS resolve_implementation (program_implementations p).

(** [Resolver::new().resolve(program)]. *)
Definition resolve (p : Program) : outcome Diagnostic Resolution :=
  '(_, r) ← resolve_program p new_resolver;
  Ok (resolution r).
