(* ===== verification/ResolverSpec.v ===== *)
(** * What name resolution decides

    The specification of lexical scoping, without symbols, spans, stacks or errors.  A
    scope is one map of the visible names to whether they may be assigned, and the set of
    the names the innermost block declares; entering a block copies it, so there is nothing
    to restore on leaving.  [scoped_program] states when a program uses names correctly. *)

From S2P Require Import Prelude Machine Diagnostics Ast Resolver.
#[local] Open Scope string_scope.
#[local] Open Scope list_scope.
#[local] Open Scope nat_scope.

(** The declarations of a program: the arities of types and traits, the enums that have a
    variant, and the fields of the data schemas. *)
Record World := mkWorld {
  world_types : gmap string nat;
  world_traits : gmap string nat;
  world_variants : gmap string (list string);
  world_data : gmap string (gset string) }.

Record Scope := mkScope {
  visible : gmap string bool;
  here : gset string;
  looping : bool;
  type_parameters : gset string }.

(** ** Scopes *)

Definition declare (name : string) (mutable : bool) (Γ : Scope) : option Scope :=
  if (String.eqb name "Meta" || bool_decide (name ∈ here Γ))%bool then None
  else Some (mkScope (<[name := mutable]> (visible Γ)) ({[name]} ∪ here Γ) (looping Γ)
               (type_parameters Γ)).

Definition block_scope (Γ : Scope) : Scope :=
  mkScope (visible Γ) ∅ (looping Γ) (type_parameters Γ).
Definition loop_scope (Γ : Scope) : Scope :=
  mkScope (visible Γ) (here Γ) true (type_parameters Γ).
Definition closure_scope (Γ : Scope) : Scope :=
  mkScope (visible Γ) ∅ false (type_parameters Γ).
Definition generic_scope_of (names : gset string) (Γ : Scope) : Scope :=
  mkScope (visible Γ) (here Γ) (looping Γ) (names ∪ type_parameters Γ).

(** Declarations one after the other. *)
Fixpoint thread {A} (f : A → Scope → option Scope) (l : list A) (Γ : Scope) : option Scope :=
  match l with
  | [] => Some Γ
  | a :: l => match f a Γ with Some Γ' => thread f l Γ' | None => None end
  end.

Definition succeeds {A} (o : option A) : bool :=
  match o with Some _ => true | None => false end.

Section world.
Context (w : World).

(** ** Types *)

(** The arity of the types of the language. *)
Definition builtin_arity (name : string) : option nat :=
  if one_of unary_types name then Some 1
  else if one_of binary_types name then Some 2
  else if is_fixed_array name then Some 1
  else if one_of plain_types name then Some 0
  else None.

Definition type_arity (Γ : Scope) (name : string) : option nat :=
  match builtin_arity name with
  | Some n => Some n
  | None =>
    if ((is_associated name && bool_decide ("Self" ∈ type_parameters Γ))
        || bool_decide (name ∈ type_parameters Γ))%bool
    then Some 0
    else
      match world_types w !! name with
      | Some n => Some n
      | None => if one_of sized_types name then Some 0 else None
      end
  end.

Fixpoint known_type (Γ : Scope) (ty : TypeName) : bool :=
  match ty with
  | mkTypeName name arguments qualifier _ =>
    if String.eqb name "str" then
      (bool_decide (qualifier = SharedReference) && bool_decide (length arguments = 0))%bool
    else
      match qualifier with
      | RawConstPointer | RawMutPointer =>
        (String.eqb name "ptr" && bool_decide (length arguments = 1)
         && forallb (known_type Γ) arguments)%bool
      | _ =>
        ((if String.eqb name "fn" then bool_decide (length arguments ≠ 0)
          else bool_decide (type_arity Γ name = Some (length arguments)))
         && forallb (known_type Γ) arguments)%bool
      end
  end.

Definition known_trait (Γ : Scope) (ty : TypeName) : bool :=
  (bool_decide (world_traits w !! type_name ty = Some (length (type_arguments ty)))
   && forallb (known_type Γ) (type_arguments ty))%bool.

(** The scope of a declaration with type parameters. *)
Definition with_parameters (Γ : Scope) (ps : list GenericParameter) : option Scope :=
  let Γ' := generic_scope_of (list_to_set (map generic_name ps)) Γ in
  if (bool_decide (NoDup (map generic_name ps))
      && forallb (λ p, forallb (known_trait Γ') (generic_constraints p)) ps)%bool
  then Some Γ' else None.

Definition known_types (Γ : Scope) (l : list TypeName) : bool := forallb (known_type Γ) l.
Definition known_optional (Γ : Scope) (o : option TypeName) : bool :=
  match o with Some ty => known_type Γ ty | None => true end.

(** ** Names and patterns *)

(** A library name, a visible name, or a variant of exactly one enum. *)
Definition known_name (Γ : Scope) (name : string) : bool :=
  (one_of library_names name
   || succeeds (visible Γ !! name)
   || bool_decide (length (default [] (world_variants w !! name)) = 1))%bool.

Definition has_variant (type_name variant : string) : bool :=
  one_of (default [] (world_variants w !! variant)) type_name.

Definition known_variant (type_name : option string) (variant : string) : bool :=
  (one_of builtin_variants variant
   || match type_name with
      | Some owner => has_variant owner variant
      | None => bool_decide (length (default [] (world_variants w !! variant)) = 1)
      end)%bool.

(** A pattern declares its names, left to right, all of them different. *)
Fixpoint pattern_scope (p : Pattern) (Γ : Scope) : option Scope :=
  match p with
  | POr _ => None
  | PBinding name => declare name false Γ
  | PStruct _ fields _ =>
    thread (λ f, match f with mkStructPatternField _ _ p => pattern_scope (node p) end) fields Γ
  | PVariant type_name variant arguments =>
    if known_variant type_name variant then thread (λ a, pattern_scope (node a)) arguments Γ
    else None
  | _ => Some Γ
  end.

Definition declare_all (ps : list Param) (Γ : Scope) : option Scope :=
  thread (λ p, declare (parameter_name p) false) ps Γ.

(** ** Expressions and statements *)

(** A condition on data: fields of the schema and visible names. *)
Fixpoint scoped_data (Γ : Scope) (fields : gset string) (e : Expression) : bool :=
  match e with
  | EIdentifier name => (bool_decide (name ∈ fields) || known_name Γ name)%bool
  | EUnary _ operand => scoped_data Γ fields (node operand)
  | EBinary l _ r => (scoped_data Γ fields (node l) && scoped_data Γ fields (node r))%bool
  | EInteger _ | EFloat _ | EString _ | ECharacter _ | EBool _ => true
  | _ => false
  end.

(** [Type.field] of a declared type: a variant or the static operation. *)
Definition known_static (type_name field : string) : bool :=
  (String.eqb field "from_json" || has_variant type_name field)%bool.

(** How an object of a field access is resolved. *)
Inductive Object := LibraryObject | TypeObject (name : string) | ValueObject.
Definition object_kind (e : Expression) : Object :=
  match e with
  | EIdentifier name =>
    if one_of library_objects name then LibraryObject
    else if succeeds (world_types w !! name) then TypeObject name
    else ValueObject
  | _ => ValueObject
  end.

Fixpoint scoped_expr (Γ : Scope) (e : Expression) {struct e} : bool :=
  let scoped (e : Expr) := scoped_expr Γ (node e) in
  let optional (o : option Expr) :=
    match o with Some e => scoped_expr Γ (node e) | None => true end in
  let all (l : list Expr) := forallb (λ e, scoped_expr Γ (node e)) l in
  match e with
  | EArray values => all values
  | EDataWrite value store _ => scoped value && scoped store
  | EDataStore path => optional path
  | EDataQuery _ schema _ aggregate store predicate order limit =>
    match world_data w !! schema with
    | None => false
    | Some fields =>
      let data (o : option Expr) :=
        match o with Some e => scoped_data Γ fields (node e) | None => true end in
      scoped store && data aggregate && data predicate
      && match order with
         | Some (mkDataOrder key _ _) => scoped_data Γ fields (node key)
         | None => true
         end
      && optional limit
    end
  | EDataRemove schema _ store predicate =>
    match world_data w !! schema with
    | None => false
    | Some fields => scoped store && scoped_data Γ fields (node predicate)
    end
  | EClosure _ parameters return_type body =>
    known_types Γ (map parameter_ty parameters) && known_optional Γ return_type
    && match declare_all parameters (closure_scope Γ) with
       | None => false
       | Some Γ =>
         match body with
         | CExpression e => scoped_expr Γ (node e)
         | CBlock b => succeeds (statements_scope b Γ)
         end
       end
  | EIndex object index => scoped object && scoped index
  | ESubslice object start end_ => scoped object && scoped start && scoped end_
  | EIdentifier name => known_name Γ name
  | EStructConstruct name _ fields =>
    succeeds (world_types w !! name)
    && forallb (λ f, match f with mkStructFieldValue _ _ v => scoped_expr Γ (node v) end) fields
  | EFieldAccess object field _ =>
    match object_kind (node object) with
    | LibraryObject => true
    | TypeObject name => known_static name field
    | ValueObject => scoped object
    end
  | EMatch value arms =>
    scoped value
    && forallb (λ arm,
         match arm with
         | mkMatchArm pattern _ guard value _ =>
           match pattern_scope (node pattern) (block_scope Γ) with
           | None => false
           | Some Γ =>
             match guard with Some g => scoped_expr Γ (node g) | None => true end
             && scoped_expr Γ (node value)
           end
         end) arms
  | ETry e | EAwait e | ESpawn e | EMove e | EDereference e | EBorrow _ e | EUnary _ e =>
    scoped e
  | EBinary l _ r => scoped l && scoped r
  | ECall callee arguments => scoped callee && all arguments
  | EInteger _ | EFloat _ | EString _ | ECharacter _ | EBool _ => true
  end
with statement_scope (s : Statement) (Γ : Scope) {struct s} : option Scope :=
  let scoped (e : Expr) := scoped_expr Γ (node e) in
  let optional (o : option Expr) :=
    match o with Some e => scoped_expr Γ (node e) | None => true end in
  let scoped_block (Γ : Scope) (b : Block) := succeeds (statements_scope b (block_scope Γ)) in
  let require (b : bool) := if b then Some Γ else None in
  let scoped_loop (name : string) (body : Block) :=
    match declare name false (block_scope (loop_scope Γ)) with
    | Some Γ => succeeds (statements_scope body Γ)
    | None => false
    end in
  match s with
  | SBinding kind name _ annotation value =>
    if known_optional Γ annotation && optional value
    then declare name (bool_decide (kind = BVar)) Γ else None
  | SAssignment name _ operator value =>
    match visible Γ !! name with
    | Some mutable => require (mutable && scoped value)
    | None =>
      if bool_decide (operator = AAssign) && scoped value then declare name true Γ else None
    end
  | SPlaceAssignment target _ value => require (scoped target && scoped value)
  | SExpression e => require (scoped e)
  | SReturn value => require (optional value)
  | SIf condition then_branch else_branch =>
    require (scoped condition && scoped_block Γ then_branch
             && match else_branch with
                | Some b => succeeds (statements_scope b (block_scope Γ))
                | None => true
                end)
  | SWhile condition body => require (scoped condition && scoped_block (loop_scope Γ) body)
  | SFor name _ start end_ _ body =>
    require (scoped start && scoped end_ && scoped_loop name body)
  | SForEach name _ iterable body => require (scoped iterable && scoped_loop name body)
  | SLoop body => require (scoped_block (loop_scope Γ) body)
  | SUnsafe _ body => require (scoped_block Γ body)
  | SBreak | SContinue => require (looping Γ)
  end
with statements_scope (b : Block) (Γ : Scope) {struct b} : option Scope :=
  match b with
  | mkBlock statements _ => thread (λ s, statement_scope (node s)) statements Γ
  end.

(** ** Declarations *)

Definition scoped_function (Γ : Scope) (f : Function) : bool :=
  match with_parameters Γ (fn_generics f) with
  | None => false
  | Some Γ =>
    known_types Γ (map parameter_ty (fn_parameters f)) && known_optional Γ (fn_return_type f)
    && match declare_all (fn_parameters f) (block_scope Γ) with
       | Some Γ => succeeds (statements_scope (fn_body f) Γ)
       | None => false
       end
  end.

Definition scoped_signature (Γ : Scope) (m : FunctionSignature) : bool :=
  match with_parameters Γ (sig_generics m) with
  | None => false
  | Some Γ =>
    known_types Γ (map parameter_ty (sig_parameters m)) && known_optional Γ (sig_return_type m)
  end.

Definition scoped_struct (Γ : Scope) (d : StructDeclaration) : bool :=
  match with_parameters Γ (struct_generics d) with
  | None => false
  | Some Γ => known_types Γ (map field_ty (struct_fields d))
  end.

Definition scoped_enum (Γ : Scope) (d : EnumDeclaration) : bool :=
  match with_parameters Γ (enum_generics d) with
  | None => false
  | Some Γ => forallb (λ v, known_types Γ (variant_payload v)) (enum_variants d)
  end.

Definition scoped_trait (Γ : Scope) (d : TraitDeclaration) : bool :=
  match with_parameters Γ (trait_generics d) with
  | None => false
  | Some Γ => forallb (scoped_signature (generic_scope_of {["Self"]} Γ)) (trait_methods d)
  end.

Definition scoped_implementation (Γ : Scope) (i : Implementation) : bool :=
  match with_parameters Γ (impl_generics i) with
  | None => false
  | Some Γ =>
    match impl_trait_name i with Some name => known_trait Γ name | None => true end
    && known_type Γ (impl_target i)
    && (let Γ := generic_scope_of {["Self"]} Γ in
        known_types Γ (map (λ '(_, ty, _), ty) (impl_associated_types i))
        && forallb (scoped_function Γ) (impl_methods i))
  end.
End world.

(** ** Programs *)

Definition type_names (p : Program) : list string :=
  map struct_name (program_structs p) ++ map enum_name (program_enums p).

(** The enums with a variant of this name, in the order of the program. *)
Definition owners (enums : list EnumDeclaration) (variant : string) : list string :=
  map enum_name
    (filter (λ d, variant ∈ map variant_name (enum_variants d)) enums).

Definition variant_names (enums : list EnumDeclaration) : list string :=
  flat_map (λ d, map variant_name (enum_variants d)) enums.

Definition world_of (p : Program) : World :=
  mkWorld
    (list_to_map
       (map (λ d, (enum_name d, length (enum_generics d))) (program_enums p)
        ++ map (λ d, (struct_name d, length (struct_generics d))) (program_structs p)))
    (list_to_map (map (λ d, (trait_name d, length (trait_generics d))) (program_traits p)
                  ++ [("Copy", 0)]))
    (list_to_map (map (λ v, (v, owners (program_enums p) v)) (variant_names (program_enums p))))
    (list_to_map (map (λ d, (struct_name d, list_to_set (map field_name (struct_fields d))))
                    (filter (λ d, struct_data d = true) (program_structs p)))).

(** The builtins are visible everywhere, the functions in bodies. *)
Definition global_scope (functions : list Function) : Scope :=
  mkScope (list_to_map (map (λ name, (name, false)) (map fn_name functions ++ builtins)))
    ∅ false ∅.

(** A program uses names correctly: its declarations are unique and do not replace the
    builtins, and all their types and bodies are well scoped. *)
Record scoped_program (p : Program) : Prop := {
  traits_unique : NoDup (map trait_name (program_traits p));
  traits_allowed : "Meta" ∉ map trait_name (program_traits p);
  types_unique : NoDup (type_names p);
  types_allowed : Forall (λ name, name ∉ builtins) (type_names p);
  fields_unique : Forall (λ d, NoDup (map field_name (struct_fields d))) (program_structs p);
  variants_unique : Forall (λ d, NoDup (map variant_name (enum_variants d))) (program_enums p);
  functions_unique : NoDup (map fn_name (program_functions p));
  functions_allowed : Forall (λ name, name ∉ builtins ∧ name ∉ type_names p)
                        (map fn_name (program_functions p));
  structs_scoped :
    forallb (scoped_struct (world_of p) (global_scope [])) (program_structs p) = true;
  enums_scoped :
    forallb (scoped_enum (world_of p) (global_scope [])) (program_enums p) = true;
  functions_scoped :
    forallb (scoped_function (world_of p) (global_scope (program_functions p)))
      (program_functions p) = true;
  traits_scoped : forallb (scoped_trait (world_of p) (global_scope (program_functions p)))
                    (program_traits p) = true;
  implementations_scoped :
    forallb (scoped_implementation (world_of p) (global_scope (program_functions p)))
      (program_implementations p) = true }.
