(* ===== verification/ResolverProps.v ===== *)
(** * The resolver decides lexical scoping

    [decides] relates code that leaves the scopes as they were to a test of the
    specification, [moves] relates code that declares names to the scope it leads to.  One
    induction over the syntax relates every method of the resolver to its counterpart. *)

From S2P Require Import Prelude Machine Diagnostics StateM Ast Resolver ResolverSpec.
#[local] Open Scope string_scope.
#[local] Open Scope list_scope.
#[local] Open Scope nat_scope.

(** ** States and scopes *)

Definition is_mutable (kind : SymbolKind) : bool :=
  match kind with KLocal mutable _ => mutable | _ => false end.

(** Whether the symbol of an identity may be assigned. *)
Definition id_mutable (r : Resolver) (id : SymbolId) : option bool :=
  is_mutable ∘ symbol_kind <$> symbols (resolution r) !! id.

Record agrees (w : World) (Γ : Scope) (r : Resolver) : Prop := {
  agree_types : world_types w = snd <$> types r;
  agree_traits : world_traits w = snd <$> traits r;
  agree_variants : ∀ name,
    default [] (world_variants w !! name) = map fst (default [] (variants r !! name));
  agree_data : world_data w = data_fields r;
  agree_generics : ∀ name, bool_decide (name ∈ type_parameters Γ) = has_generic r name;
  agree_visible : ∀ name, visible Γ !! name = lookup_name r name ≫= id_mutable r;
  agree_ids : ∀ name id, lookup_name r name = Some id → id < length (symbols (resolution r));
  agree_here : here Γ = match scopes r with scope :: _ => dom scope | [] => ∅ end;
  agree_loop : looping Γ = negb (loop_depth r =? 0) }.

(** Only the resolution differs, and its symbols have grown. *)
Record same (r r' : Resolver) : Prop := {
  same_symbols : symbols (resolution r) `prefix_of` symbols (resolution r');
  same_rest : r' = set_resolution (resolution r') r }.

(** The resolution and the innermost scope differ. *)
Record extends (r r' : Resolver) : Prop := {
  extends_symbols : symbols (resolution r) `prefix_of` symbols (resolution r');
  extends_nonempty : scopes r' ≠ [];
  extends_tail : tail (scopes r') = tail (scopes r);
  extends_rest : r' = set_scopes (scopes r') (set_resolution (resolution r') r) }.

#[export] Instance same_preorder : PreOrder same.
Proof.
  split.
  - intros r. split; [done|]. by destruct r.
  - intros r1 r2 r3 [H1 E1] [H2 E2]. split; [by etrans|]. rewrite E2. by rewrite E1.
Qed.

Lemma same_extends r r' : scopes r ≠ [] → same r r' → extends r r'.
Proof.
  intros Hs [H E]. rewrite E. by split.
Qed.

Lemma state_extends_trans r1 r2 r3 : extends r1 r2 → extends r2 r3 → extends r1 r3.
Proof.
  intros [H1 N1 T1 E1] [H2 N2 T2 E2]. split; [by etrans|done|by etrans|].
  rewrite E2. by rewrite E1.
Qed.

Lemma id_mutable_prefix r r' id :
  symbols (resolution r) `prefix_of` symbols (resolution r') →
  id < length (symbols (resolution r)) → id_mutable r' id = id_mutable r id.
Proof.
  intros [more Hm] Hid. unfold id_mutable. by rewrite Hm, lookup_app_l.
Qed.

Lemma agrees_same w Γ r r' : agrees w Γ r → same r r' → agrees w Γ r'.
Proof.
  intros [] [Hp ->]. split; try done.
  - intros name. rewrite agree_visible0. unfold lookup_name at 2. simpl.
    fold (lookup_name r name). destruct (lookup_name r name) eqn:Hl; simpl; [|done].
    symmetry. apply id_mutable_prefix; [done|]. by eapply agree_ids0.
  - intros name id Hl. eapply Nat.lt_le_trans; [by eapply agree_ids0|].
    by apply prefix_length.
Qed.

(** ** The two judgements *)

Definition answers {A} (b : bool) (m : outcome Diagnostic A) : Prop :=
  match m with Ok _ => b = true | Err _ => b = false | Panic => False end.

Section judgements.
Context (w : World).

Definition decides (Γ : Scope) (b : bool) (m : R unit) : Prop := ∀ r,
  agrees w Γ r →
  match m r with
  | Ok (_, r') => b = true ∧ same r r'
  | Err _ => b = false
  | Panic => False
  end.

Definition moves (Γ : Scope) (o : option Scope) (m : R unit) : Prop := ∀ r,
  agrees w Γ r → scopes r ≠ [] →
  match m r with
  | Ok (_, r') => ∃ Γ', o = Some Γ' ∧ agrees w Γ' r' ∧ extends r r'
  | Err _ => o = None
  | Panic => False
  end.

Lemma decides_ret Γ : decides Γ true (mret tt).
Proof. by intros r Hr. Qed.
Lemma decides_throw Γ d : decides Γ false (throw d).
Proof. by intros r Hr. Qed.

Lemma decides_bind Γ b1 b2 m1 m2 :
  decides Γ b1 m1 → decides Γ b2 m2 → decides Γ (b1 && b2) (_ ← m1; m2).
Proof.
  intros H1 H2 r Hr. unfold mbind, SM_bind. specialize (H1 r Hr).
  destruct (m1 r) as [ [ [] r1] | | ]; simpl; [|by rewrite H1|done].
  destruct H1 as [-> Hs]. specialize (H2 r1 (agrees_same _ _ _ _ Hr Hs)).
  destruct (m2 r1) as [ [ [] r2] | | ]; simpl; [|done..].
  destruct H2 as [-> Hs']. split; [done|by etrans].
Qed.

Lemma decides_gets {A} Γ b (f : Resolver → A) k :
  (∀ r, agrees w Γ r → decides Γ b (k (f r))) → decides Γ b (x ← gets f; k x).
Proof. intros H r Hr. unfold mbind, SM_bind, gets. simpl. by apply H. Qed.

Lemma decides_if Γ (c b1 b2 : bool) m1 m2 :
  decides Γ b1 m1 → decides Γ b2 m2 →
  decides Γ (if c then b1 else b2) (if c then m1 else m2).
Proof. by destruct c. Qed.

Lemma decides_reading Γ b m :
  (∀ r, agrees w Γ r → answers b (m r)) → decides Γ b (reading m).
Proof.
  intros H r Hr. unfold reading, lift. specialize (H r Hr). by destruct (m r) as [ [] | | ].
Qed.

Lemma decides_lift Γ b m : answers b m → decides Γ b (lift m).
Proof. intros H r Hr. unfold lift. by destruct m as [ [] | | ]. Qed.

Lemma decides_use Γ s id : decides Γ true (insert_use s id).
Proof. intros r Hr. simpl. split; [done|]. by split. Qed.

Lemma decides_iterS {A} Γ (p : A → bool) (f : A → R unit) l :
  Forall (λ a, decides Γ (p a) (f a)) l → decides Γ (forallb p l) (iterS f l).
Proof. induction 1; simpl; [apply decides_ret|by apply decides_bind]. Qed.

Lemma decides_whenS {A} Γ (p : A → bool) (f : A → R unit) o :
  on_some (λ a, decides Γ (p a) (f a)) o →
  decides Γ (match o with Some a => p a | None => true end) (whenS f o).
Proof. destruct o; simpl; [done|]. intros _. apply decides_ret. Qed.

(** A step that leaves the scopes alone, before one that may change them. *)
Lemma moves_after Γ b o m1 m2 :
  decides Γ b m1 → moves Γ o m2 → moves Γ (if b then o else None) (_ ← m1; m2).
Proof.
  intros H1 H2 r Hr Hn. unfold mbind, SM_bind. specialize (H1 r Hr).
  destruct (m1 r) as [ [ [] r1] | | ]; simpl; [|by rewrite H1|done].
  destruct H1 as [-> Hs].
  assert (scopes r1 ≠ []) as Hn1 by (destruct Hs as [_ ->]; done).
  specialize (H2 r1 (agrees_same _ _ _ _ Hr Hs) Hn1).
  destruct (m2 r1) as [ [ [] r2] | | ]; simpl; [|done..].
  destruct H2 as (Γ' & -> & Ha & He). exists Γ'. split_and!; [done..|].
  eapply state_extends_trans; [by apply same_extends|done].
Qed.

Lemma decides_moves Γ b m : decides Γ b m → moves Γ (if b then Some Γ else None) m.
Proof.
  intros H r Hr Hn. specialize (H r Hr). destruct (m r) as [ [ [] r1] | | ]; simpl.
  - destruct H as [-> Hs]. exists Γ. split_and!; [done|by eapply agrees_same|].
    by apply same_extends.
  - by rewrite H.
  - done.
Qed.

Lemma moves_ret Γ : moves Γ (Some Γ) (mret tt).
Proof. apply (decides_moves Γ true), decides_ret. Qed.

Lemma moves_bind Γ o m1 m2 k :
  moves Γ o m1 → (∀ Γ', moves Γ' (k Γ') m2) →
  moves Γ (match o with Some Γ' => k Γ' | None => None end) (_ ← m1; m2).
Proof.
  intros H1 H2 r Hr Hn. unfold mbind, SM_bind. specialize (H1 r Hr Hn).
  destruct (m1 r) as [ [ [] r1] | | ]; simpl; [|by rewrite H1|done].
  destruct H1 as (Γ1 & -> & Ha1 & He1). specialize (H2 Γ1 r1 Ha1 (extends_nonempty _ _ He1)).
  destruct (m2 r1) as [ [ [] r2] | | ]; simpl; [|done..].
  destruct H2 as (Γ2 & -> & Ha2 & He2). exists Γ2. split_and!; [done..|].
  by eapply state_extends_trans.
Qed.

Lemma moves_gets {A} Γ o (f : Resolver → A) k :
  (∀ r, agrees w Γ r → moves Γ o (k (f r))) → moves Γ o (x ← gets f; k x).
Proof. intros H r Hr Hn. unfold mbind, SM_bind, gets. simpl. by apply H. Qed.

Lemma moves_iterS {A} (p : A → Scope → option Scope) (f : A → R unit) l :
  Forall (λ a, ∀ Γ, moves Γ (p a Γ) (f a)) l → ∀ Γ, moves Γ (thread p l Γ) (iterS f l).
Proof.
  induction 1 as [|a l Ha _ IH]; intros Γ; simpl; [apply moves_ret|]. by apply moves_bind.
Qed.

(** ** Opening and closing scopes *)

Lemma decides_in_scope Γ o m :
  moves (block_scope Γ) o m → decides Γ (succeeds o) (in_scope m).
Proof.
  intros H r Hr. unfold in_scope, begin_scope, end_scope, modify. unfold mbind, SM_bind. simpl.
  set (r0 := set_scopes (∅ :: scopes r) r).
  assert (agrees w (block_scope Γ) r0) as Hr0.
  { destruct Hr. by split. }
  specialize (H r0 Hr0 ltac:(done)).
  destruct (m r0) as [ [ [] r1] | | ]; simpl; [|by rewrite H|done].
  destruct H as (Γ' & -> & _ & [Hp _ Ht He]). split; [done|]. split; [done|].
  rewrite He. simpl. rewrite Ht. by destruct r.
Qed.

Lemma decides_with_loop Γ b m :
  decides (loop_scope Γ) b m → decides Γ b (with_loop m).
Proof.
  intros H r Hr. unfold with_loop, modify. unfold mbind, SM_bind. simpl.
  set (r0 := set_loop_depth (S (loop_depth r)) r).
  assert (agrees w (loop_scope Γ) r0) as Hr0 by (destruct Hr; by split).
  specialize (H r0 Hr0). destruct (m r0) as [ [ [] r1] | | ]; simpl; [|done..].
  destruct H as [-> [Hp He] ]. split; [done|]. split; [done|].
  rewrite He. simpl. rewrite Nat.sub_0_r. by destruct r.
Qed.

(** The scope of a closure before its parameters. *)
Definition no_loop (Γ : Scope) : Scope :=
  mkScope (visible Γ) (here Γ) false (type_parameters Γ).

Lemma decides_outside_loops Γ b m :
  decides (no_loop Γ) b m → decides Γ b (outside_loops m).
Proof.
  intros H r Hr. unfold outside_loops, gets, modify. unfold mbind, SM_bind. simpl.
  set (r0 := set_loop_depth 0 r).
  assert (agrees w (no_loop Γ) r0) as Hr0 by (destruct Hr; by split).
  specialize (H r0 Hr0). destruct (m r0) as [ [ [] r1] | | ]; simpl; [|done..].
  destruct H as [-> [Hp He] ]. split; [done|]. split; [done|]. rewrite He. by destruct r.
Qed.

(** ** Declarations of locals *)

Lemma moves_declare Γ name s kind :
  moves Γ (declare name (is_mutable kind) Γ) (declare_local name s kind).
Proof.
  intros r Hr Hn. unfold declare_local, declare.
  destruct (String.eqb name "Meta"); [done|]. simpl orb.
  destruct (scopes r) as [|scope rest] eqn:Hs; [done|].
  unfold gets, throw, add_symbol, insert_declaration, modify, gets, mret, SM_ret.
  unfold mbind, SM_bind. simpl. rewrite Hs.
  assert (bool_decide (name ∈ here Γ) = bool_decide (is_Some (scope !! name))) as ->.
  { apply bool_decide_ext. rewrite (agree_here _ _ _ Hr), Hs. apply elem_of_dom. }
  case_bool_decide as Hd; simpl; [done|]. rewrite Hs. simpl.
  eexists. split; [done|]. split; [|split; simpl; [by eexists|done|by rewrite Hs|by destruct r] ].
  destruct Hr. split; simpl; try done.
  - intros x. unfold lookup_name, find_scope. simpl. fold (find_scope rest x).
    destruct (decide (x = name)) as [->|Hx].
    + rewrite !lookup_insert_eq. simpl. unfold id_mutable. simpl.
      rewrite lookup_app_r by done. by rewrite Nat.sub_diag.
    + rewrite !lookup_insert_ne by done. rewrite agree_visible0.
      unfold lookup_name. rewrite Hs. simpl.
      fold (find_scope rest x).
      assert (∀ id, lookup_name r x = Some id → id_mutable r id =
        is_mutable ∘ symbol_kind <$> (symbols (resolution r) ++ [mkSymbol
          (length (symbols (resolution r))) name kind s]) !! id) as Hm.
      { intros id Hid. unfold id_mutable. rewrite lookup_app_l; [done|]. by eapply agree_ids0. }
      unfold lookup_name in Hm. rewrite Hs in Hm. simpl in Hm.
      destruct (scope !! x), (find_scope rest x), (globals r !! x); simpl; auto.
  - intros x id. unfold lookup_name. simpl. rewrite length_app. simpl.
    destruct (decide (x = name)) as [->|Hx].
    + rewrite lookup_insert_eq. intros [= <-]. lia.
    + rewrite lookup_insert_ne by done. intros Hid.
      enough (id < length (symbols (resolution r))) by lia. eapply (agree_ids0 x).
      unfold lookup_name. by rewrite Hs.
  - rewrite dom_insert_L. by rewrite agree_here0, Hs.
Qed.
End judgements.

(** ** Types *)

Lemma answers_each {A} (p : A → bool) f (l : list A) :
  Forall (λ a, answers (p a) (f a)) l → answers (forallb p l) (each f l).
Proof.
  induction 1 as [|a l Ha _ IH]; simpl; [done|]. unfold answers in Ha.
  destruct (f a) as [ [] | | ]; simpl; [|by rewrite Ha|done]. by rewrite Ha.
Qed.

Lemma forallb_over {A B} (f : A → B) (p : B → bool) l :
  forallb p (map f l) = forallb (λ a, p (f a)) l.
Proof. induction l; simpl; congruence. Qed.

Section methods.
Context (w : World).

Lemma expected_arity Γ r name :
  agrees w Γ r → expected_arguments r name = type_arity w Γ name.
Proof.
  intros []. unfold expected_arguments, type_arity, builtin_arity.
  rewrite !agree_generics0, agree_types0, lookup_fmap.
  destruct (one_of unary_types name), (one_of binary_types name), (is_fixed_array name),
    (one_of plain_types name), (is_associated name), (has_generic r "Self"),
    (has_generic r name); simpl; try done; by destruct (types r !! name) as [ [] | ].
Qed.

Lemma type_answers Γ r ty :
  agrees w Γ r → answers (known_type w Γ ty) (resolve_type_name r ty).
Proof.
  intros Hr. induction ty as [name arguments qualifier s IH] using type_induction. simpl.
  pose proof (answers_each (known_type w Γ) _ _ IH) as Hall.
  destruct (String.eqb name "str"); [by destruct qualifier, arguments|].
  assert (Hown : answers
    ((if String.eqb name "fn" then bool_decide (length arguments ≠ 0)
      else bool_decide (type_arity w Γ name = Some (length arguments)))
     && forallb (known_type w Γ) arguments)
    (if String.eqb name "fn" then
       if bool_decide (arguments = []) then
         Err (resolve_error "function type is missing its result type" s)
       else each (resolve_type_name r) arguments
     else
       match expected_arguments r name with
       | None => Err (resolve_error ("unknown type `" +:+ name +:+ "`") s)
       | Some expected =>
         if negb (length arguments =? expected) then
           Err (resolve_error
                  ("type `" +:+ name +:+ "` expects " +:+ display_Z (Z.of_nat expected)
                   +:+ " type arguments, found " +:+ display_Z (Z.of_nat (length arguments))) s)
         else each (resolve_type_name r) arguments
       end)).
  { destruct (String.eqb name "fn").
    - destruct arguments; [done|]. exact Hall.
    - rewrite (expected_arity _ _ _ Hr). destruct (type_arity w Γ name) as [n|]; [|done].
      destruct (Nat.eqb_spec (length arguments) n) as [->|Hne]; simpl.
      + by rewrite bool_decide_true.
      + rewrite bool_decide_false by congruence. done. }
  destruct qualifier; try exact Hown;
    (destruct arguments as [|a [|b l] ];
      [by rewrite andb_false_r, andb_false_l| |by rewrite andb_false_r, andb_false_l]).
  all: destruct (String.eqb name "ptr"); [|done]; inversion IH as [|? ? Ha]; subst;
    simpl; by rewrite andb_true_r.
Qed.

Lemma types_answers {A} Γ r (f : A → TypeName) l :
  agrees w Γ r →
  answers (known_types w Γ (map f l)) (each (λ a, resolve_type_name r (f a)) l).
Proof.
  intros Hr. unfold known_types. rewrite forallb_over. apply answers_each, Forall_true.
  intros a. by apply type_answers.
Qed.

Lemma trait_answers Γ r ty :
  agrees w Γ r → answers (known_trait w Γ ty) (resolve_trait_name r ty).
Proof.
  intros Hr. unfold known_trait, resolve_trait_name.
  rewrite (agree_traits _ _ _ Hr), lookup_fmap.
  destruct (traits r !! type_name ty) as [ [sp arity] |]; simpl; [|done].
  destruct (Nat.eqb_spec (length (type_arguments ty)) arity) as [->|Hne]; simpl.
  - rewrite bool_decide_true by done. apply answers_each, Forall_true.
    intros a. by apply type_answers.
  - rewrite bool_decide_false by congruence. done.
Qed.

Lemma decides_parameter_types Γ ps :
  decides w Γ (known_types w Γ (map parameter_ty ps)) (resolve_parameter_types ps).
Proof. apply decides_reading. intros r Hr. by apply types_answers. Qed.

Lemma decides_optional_type Γ o :
  decides w Γ (known_optional w Γ o) (resolve_optional_type o).
Proof.
  destruct o as [ty|]; simpl; [|apply decides_ret]. apply decides_reading. intros r Hr.
  by apply type_answers.
Qed.

(** ** Names *)

Lemma visible_lookup Γ r name :
  agrees w Γ r → succeeds (visible Γ !! name) = succeeds (lookup_name r name).
Proof.
  intros []. rewrite agree_visible0. destruct (lookup_name r name) as [id|] eqn:Hl; [|done].
  simpl. unfold id_mutable.
  destruct (lookup_lt_is_Some_2 (symbols (resolution r)) id) as [x ->]; [|done].
  by eapply agree_ids0.
Qed.

Lemma decides_identifier Γ name s :
  decides w Γ (known_name w Γ name) (resolve_identifier name s).
Proof.
  unfold resolve_identifier, known_name.
  destruct (one_of library_names name); simpl; [apply decides_ret|].
  apply decides_gets. intros r Hr. unfold id. rewrite (visible_lookup _ _ _ Hr).
  rewrite (agree_variants _ _ _ Hr). destruct (lookup_name r name); simpl; [apply decides_use|].
  destruct (variants r !! name) as [ [|[owner id] [|c l] ] |]; simpl.
  - apply decides_throw.
  - apply decides_use.
  - apply decides_throw.
  - apply decides_throw.
Qed.

Lemma decides_data Γ fields e sp :
  decides w Γ (scoped_data w Γ fields e) (resolve_data_expression fields e sp).
Proof.
  revert sp. induction e using Expression_mind with
    (P0 := λ _, True) (P1 := λ _, True) (P2 := λ _, True) (P3 := λ _, True) (P4 := λ _, True)
    (P5 := λ _, True); try done; intros sp; nested; simpl;
    try apply decides_ret; try apply decides_throw; auto using decides_bind.
  apply decides_gets. intros r Hr. unfold id.
  pose proof (visible_lookup _ _ name Hr) as Hv.
  destruct (bool_decide (name ∈ fields)); simpl; [|apply decides_identifier].
  case_bool_decide as Hl; [apply decides_ret|].
  replace true with (known_name w Γ name); [apply decides_identifier|].
  unfold known_name. rewrite Hv. destruct (lookup_name r name); [|done]. by rewrite orb_true_r.
Qed.

(** ** Patterns *)

Lemma decides_variant Γ type_name variant sp :
  decides w Γ (known_variant w type_name variant) (resolve_variant type_name variant sp).
Proof.
  unfold resolve_variant, known_variant, has_variant. apply decides_gets. intros r Hr.
  destruct (one_of builtin_variants variant); simpl; [apply decides_ret|].
  rewrite (agree_variants _ _ _ Hr).
  destruct (variants r !! variant) as [values|]; simpl.
  - destruct type_name as [owner|]; simpl.
    + unfold one_of.
      replace (existsb (String.eqb owner) (map fst values))
        with (existsb (λ c, String.eqb (fst c) owner) values).
      * destruct (existsb _ values); simpl; [apply decides_ret|apply decides_throw].
      * induction values; simpl; [done|]. by rewrite IHvalues, String.eqb_sym.
    + destruct values as [|v [|v' values] ]; simpl;
        [apply decides_throw|apply decides_ret|apply decides_throw].
  - destruct type_name; simpl; apply decides_throw.
Qed.

Lemma moves_pattern p sp Γ :
  moves w Γ (pattern_scope w p Γ) (resolve_pattern p sp).
Proof.
  revert sp Γ. apply (Pattern_mind
    (λ p, ∀ sp Γ, moves w Γ (pattern_scope w p Γ) (resolve_pattern p sp))
    (λ f, match f with mkStructPatternField _ _ p =>
            ∀ sp Γ, moves w Γ (pattern_scope w (node p) Γ) (resolve_pattern (node p) sp) end));
    intros; nested; simpl; try apply moves_ret; try apply moves_declare; auto.
  - intros r Hr Hn. done.
  - apply moves_iterS. eapply Forall_impl; [exact H|]. intros [] Hp. apply Hp.
  - apply (moves_after w Γ (known_variant w type_name variant)); [apply decides_variant|].
    apply moves_iterS. eapply Forall_impl; [exact H|]. intros a Ha Γ'. apply Ha.
Qed.

Lemma moves_parameters kind ps Γ :
  is_mutable kind = false →
  moves w Γ (declare_all ps Γ) (declare_parameters kind ps).
Proof.
  intros Hk. apply moves_iterS, Forall_true. intros p Γ'. rewrite <- Hk. apply moves_declare.
Qed.

(** ** Field accesses and assignments *)

Lemma decides_static Γ type_name field s :
  decides w Γ (known_static w type_name field) (resolve_static type_name field s).
Proof.
  unfold resolve_static, known_static, has_variant.
  destruct (String.eqb field "from_json"); simpl; [apply decides_ret|].
  apply decides_gets. intros r Hr. rewrite (agree_variants _ _ _ Hr).
  destruct (variants r !! field) as [values|]; simpl; [|apply decides_throw].
  unfold one_of. induction values as [|[owner id] values IH]; simpl; [apply decides_throw|].
  rewrite (String.eqb_sym owner). destruct (String.eqb type_name owner); simpl;
    [apply decides_use|].
  exact IH.
Qed.

Lemma decides_access Γ object field s b m :
  decides w Γ b m →
  decides w Γ match object_kind w object with
              | LibraryObject => true
              | TypeObject name => known_static w name field
              | ValueObject => b
              end (resolve_access object field s m).
Proof.
  intros Hm. unfold resolve_access, object_kind. destruct object; try exact Hm. simpl.
  destruct (one_of library_objects name); [apply decides_ret|]. apply decides_gets. intros r Hr.
  rewrite (agree_types _ _ _ Hr), lookup_fmap.
  destruct (types r !! name); simpl; [apply decides_static|exact Hm].
Qed.

(** An assignment to a known name. *)
Lemma target_answers Γ r name s operator :
  agrees w Γ r →
  match resolve_target name s operator r with
  | Ok (Some _, r') => visible Γ !! name = Some true ∧ same r r'
  | Ok (None, r') => visible Γ !! name = None ∧ operator = AAssign ∧ r' = r
  | Err _ => visible Γ !! name = Some false ∨ (visible Γ !! name = None ∧ operator ≠ AAssign)
  | Panic => False
  end.
Proof.
  intros Hr. unfold resolve_target, gets, throw, insert_use, modify, panic, mret, SM_ret.
  unfold mbind, SM_bind. simpl. unfold id.
  rewrite (agree_visible _ _ _ Hr). destruct (lookup_name r name) as [id|] eqn:Hl; simpl.
  - unfold id_mutable.
    destruct (lookup_lt_is_Some_2 (symbols (resolution r)) id) as [x Hx];
      [by eapply (agree_ids _ _ _ Hr)|]. rewrite Hx. simpl.
    destruct (symbol_kind x) as [ | | | | [] ? ]; simpl; auto. split; [done|]. by split.
  - case_bool_decide; simpl; auto.
Qed.

Lemma moves_assignment Γ name s operator b m :
  decides w Γ b m →
  moves w Γ
    match visible Γ !! name with
    | Some mutable => if mutable && b then Some Γ else None
    | None => if bool_decide (operator = AAssign) && b then declare name true Γ else None
    end
    (target ← resolve_target name s operator;
     _ ← m;
     match target with
     | Some _ => mret tt
     | None => declare_local name s (KLocal true false)
     end).
Proof.
  intros Hm r Hr Hn. unfold mbind at 1, SM_bind at 1.
  pose proof (target_answers Γ r name s operator Hr) as Ht.
  destruct (resolve_target name s operator r) as [ [ [id|] r1] | | ]; simpl; [| | |done].
  - destruct Ht as [-> Hs]. simpl.
    pose proof (moves_after w Γ b (Some Γ) m _ Hm (moves_ret w Γ)) as H.
    assert (scopes r1 ≠ []) as Hn1 by (destruct Hs as [_ ->]; done).
    specialize (H r1 (agrees_same _ _ _ _ Hr Hs) Hn1).
    match goal with |- match ?x with _ => _ end => destruct x as [ [ [] r2] | | ] end;
      [|done..].
    destruct H as (Γ' & ? & ? & ?). exists Γ'. split_and!; [done..|].
    eapply state_extends_trans; [by apply same_extends|done].
  - destruct Ht as (-> & -> & ->). simpl.
    by apply (moves_after w Γ b _ m _ Hm (moves_declare w Γ name s (KLocal true false))).
  - destruct Ht as [->|[-> Ho] ]; [done|]. by rewrite bool_decide_false.
Qed.

Lemma decides_schema Γ schema s b (k : gset string → R unit) :
  (∀ fields, world_data w !! schema = Some fields → decides w Γ (b fields) (k fields)) →
  decides w Γ match world_data w !! schema with Some fields => b fields | None => false end
    (fields ← schema_fields schema s; k fields).
Proof.
  intros Hk r Hr. unfold schema_fields, gets, lift, mbind, SM_bind.
  simpl. rewrite <- (agree_data _ _ _ Hr).
  destruct (world_data w !! schema) as [fields|]; simpl; [|done]. by apply Hk.
Qed.

Lemma decides_struct_type Γ name b m d :
  decides w Γ b m →
  decides w Γ (succeeds (world_types w !! name) && b)
    (types ← gets types;
     if bool_decide (is_Some (types !! name)) then m else throw d).
Proof.
  intros Hm. apply decides_gets. intros r Hr. rewrite (agree_types _ _ _ Hr), lookup_fmap.
  destruct (types r !! name); simpl; [exact Hm|apply decides_throw].
Qed.
End methods.
