(* ===== verification/ResolverDecides.v ===== *)
(** * Resolution of a whole program

    The induction over the syntax, the scopes of type parameters, the checks of one
    declaration, and loops that declare unique names. *)

From S2P Require Import Prelude Machine Diagnostics StateM Ast Resolver ResolverSpec ResolverProps.
#[local] Open Scope string_scope.
#[local] Open Scope list_scope.
#[local] Open Scope nat_scope.

(** ** Expressions and statements *)

Section syntax.
Context (w : World).

Definition expr_decided (e : Expression) : Prop :=
  ∀ Γ sp, decides w Γ (scoped_expr w Γ e) (resolve_expression e sp).
Definition statement_decided (s : Statement) : Prop :=
  ∀ Γ sp, moves w Γ (statement_scope w s Γ) (resolve_statement s sp).
Definition block_decided (b : Block) : Prop :=
  ∀ Γ, moves w Γ (statements_scope w b Γ) (resolve_block_contents b).

Lemma all_decided Γ (l : list Expr) :
  Forall (λ e, expr_decided (node e)) l →
  decides w Γ (forallb (λ e, scoped_expr w Γ (node e)) l)
    (iterS (λ e, resolve_expression (node e) (span e)) l).
Proof.
  intros H. apply decides_iterS. eapply Forall_impl; [exact H|]. intros e He. apply He.
Qed.

Lemma optional_decided Γ (o : option Expr) :
  on_some (λ e : Expr, expr_decided (node e)) o →
  decides w Γ (match o with Some e => scoped_expr w Γ (node e) | None => true end)
    (whenS (λ e, resolve_expression (node e) (span e)) o).
Proof. intros H. apply decides_whenS. destruct o; [apply H|done]. Qed.

Lemma data_decided Γ fields (o : option Expr) :
  decides w Γ (match o with Some e => scoped_data w Γ fields (node e) | None => true end)
    (whenS (λ e, resolve_data_expression fields (node e) (span e)) o).
Proof. apply decides_whenS. destruct o; [apply decides_data|done]. Qed.

Lemma order_decided Γ fields (o : option DataOrder) :
  decides w Γ
    (match o with Some (mkDataOrder key _ _) => scoped_data w Γ fields (node key)
                | None => true end)
    (whenS (λ o, match o with
                 | mkDataOrder key _ _ => resolve_data_expression fields (node key) (span key)
                 end) o).
Proof. destruct o as [ [key d s] |]; simpl; [apply decides_data|apply decides_ret]. Qed.

Lemma closure_decided Γ parameters return_type (body : ClosureBody) :
  match body with CExpression e => expr_decided (node e) | CBlock b => block_decided b end →
  decides w Γ
    (known_types w Γ (map parameter_ty parameters) && known_optional w Γ return_type
     && match declare_all parameters (closure_scope Γ) with
        | None => false
        | Some Γ =>
          match body with
          | CExpression e => scoped_expr w Γ (node e)
          | CBlock b => succeeds (statements_scope w b Γ)
          end
        end)
    (_ ← resolve_parameter_types parameters;
     _ ← resolve_optional_type return_type;
     outside_loops (in_scope (
       _ ← declare_parameters (KLocal false false) parameters;
       match body with
       | CExpression e => resolve_expression (node e) (span e)
       | CBlock block => resolve_block_contents block
       end))).
Proof.
  intros Hb. rewrite <- andb_assoc.
  apply decides_bind; [apply decides_parameter_types|].
  apply decides_bind; [apply decides_optional_type|]. apply decides_outside_loops.
  pose (k Γ := match body with
               | CExpression e => if scoped_expr w Γ (node e) then Some Γ else None
               | CBlock b => statements_scope w b Γ
               end).
  replace (match declare_all parameters (closure_scope Γ) with Some _ => _ | None => false end)
    with (succeeds (match declare_all parameters (block_scope (no_loop Γ)) with
                    | Some Γ => k Γ | None => None end)).
  - apply decides_in_scope, moves_bind; [by apply moves_parameters|]. intros Γ'. unfold k.
    destruct body; [apply decides_moves|]; apply Hb.
  - change (closure_scope Γ) with (block_scope (no_loop Γ)).
    destruct (declare_all _ _) as [Γ'|]; [|done]. unfold k.
    destruct body; [|done]. by destruct (scoped_expr w Γ' _).
Qed.

Lemma arm_decided Γ pattern guard value :
  on_some (λ g : Expr, expr_decided (node g)) guard → expr_decided (node value) →
  decides w Γ
    match pattern_scope w (node pattern) (block_scope Γ) with
    | None => false
    | Some Γ =>
      match guard with Some g => scoped_expr w Γ (node g) | None => true end
      && scoped_expr w Γ (node value)
    end
    (in_scope (
       _ ← resolve_pattern (node pattern) (span pattern);
       _ ← whenS (λ e, resolve_expression (node e) (span e)) guard;
       resolve_expression (node value) (span value))).
Proof.
  intros Hg Hv.
  pose (k Γ := if match guard with Some g => scoped_expr w Γ (node g) | None => true end
                  && scoped_expr w Γ (node value) then Some Γ else None).
  replace (match pattern_scope w (node pattern) (block_scope Γ) with
           | Some _ => _ | None => false end)
    with (succeeds (match pattern_scope w (node pattern) (block_scope Γ) with
                    | Some Γ => k Γ | None => None end)).
  - apply decides_in_scope, moves_bind; [apply moves_pattern|]. intros Γ'.
    apply decides_moves, decides_bind; [by apply optional_decided|apply Hv].
  - destruct (pattern_scope _ _ _) as [Γ'|]; [|done]. unfold k. by case_match.
Qed.

Lemma block_scoped Γ b :
  block_decided b →
  decides w Γ (succeeds (statements_scope w b (block_scope Γ)))
    (in_scope (resolve_block_contents b)).
Proof. intros Hb. apply decides_in_scope, Hb. Qed.

Lemma counted_decided Γ name name_span body :
  block_decided body →
  decides w Γ
    match declare name false (block_scope (loop_scope Γ)) with
    | Some Γ => succeeds (statements_scope w body Γ)
    | None => false
    end
    (with_loop (in_scope (
       _ ← declare_local name name_span (KLocal false false);
       resolve_block_contents body))).
Proof.
  intros Hb. apply decides_with_loop.
  replace (match declare _ _ _ with Some _ => _ | None => false end)
    with (succeeds (match declare name false (block_scope (loop_scope Γ)) with
                    | Some Γ => statements_scope w body Γ | None => None end)).
  - apply decides_in_scope, moves_bind; [apply (moves_declare _ _ _ _ (KLocal false false))|].
    apply Hb.
  - by destruct (declare _ _ _).
Qed.

Lemma else_decided Γ (o : option Block) :
  on_some block_decided o →
  decides w Γ
    (match o with Some b => succeeds (statements_scope w b (block_scope Γ)) | None => true end)
    (whenS (λ b, in_scope (resolve_block_contents b)) o).
Proof. destruct o; simpl; [apply block_scoped|intros _; apply decides_ret]. Qed.

Lemma binding_decided Γ kind name name_span annotation (value : option Expr) :
  on_some (λ e : Expr, expr_decided (node e)) value →
  moves w Γ
    (if known_optional w Γ annotation
        && match value with Some e => scoped_expr w Γ (node e) | None => true end
     then declare name (bool_decide (kind = BVar)) Γ else None)
    (_ ← resolve_optional_type annotation;
     _ ← whenS (λ e, resolve_expression (node e) (span e)) value;
     declare_local name name_span
       (KLocal (bool_decide (kind = BVar)) (bool_decide (kind = BConst)))).
Proof.
  intros Hv.
  pose proof (moves_after w Γ _ _ _ _ (decides_optional_type w Γ annotation)
    (moves_after w Γ _ _ _ _ (optional_decided Γ value Hv)
       (moves_declare w Γ name name_span
          (KLocal (bool_decide (kind = BVar)) (bool_decide (kind = BConst)))))) as H.
  by destruct (known_optional w Γ annotation).
Qed.

Lemma exit_decided Γ d :
  moves w Γ (if looping Γ then Some Γ else None)
    (depth ← gets loop_depth; if depth =? 0 then throw d else mret tt).
Proof.
  apply decides_moves, decides_gets. intros r Hr. rewrite (agree_loop _ _ _ Hr).
  destruct (loop_depth r =? 0); [apply decides_throw|apply decides_ret].
Qed.

(** Split a sequence and its conjunction, from the left. *)
Ltac decide_step :=
  match goal with
  | |- decides _ _ (_ && _) (_ ≫= _) => apply decides_bind
  | |- decides _ _ true (mret _) => apply decides_ret
  | H : expr_decided ?e |- decides _ _ _ (resolve_expression ?e _) => apply H
  | |- decides _ _ _ (iterS _ _) => by apply all_decided
  | |- decides _ _ _ (whenS _ _) =>
    first [by apply optional_decided | by apply data_decided | by apply order_decided
          | by apply else_decided]
  | |- decides _ _ _ (with_loop (in_scope (_ ≫= _))) => by apply counted_decided
  | |- decides _ _ _ (with_loop _) => apply decides_with_loop
  | |- decides _ _ _ (in_scope _) => by apply block_scoped
  | |- decides _ _ _ (resolve_data_expression _ _ _) => apply decides_data
  | |- decides _ _ _ (resolve_identifier _ _) => apply decides_identifier
  | |- decides _ _ _ (resolve_optional_type _) => apply decides_optional_type
  | |- moves _ _ (if _ then Some _ else None) _ => apply decides_moves
  end.
Ltac decide_steps := rewrite <- ?andb_assoc; repeat decide_step.

Lemma syntax_decided :
  (∀ e, expr_decided e) ∧
  (∀ o : DataOrder, True) ∧
  (∀ body : ClosureBody,
     match body with CExpression e => expr_decided (node e) | CBlock b => block_decided b end) ∧
  (∀ f : StructFieldValue, match f with mkStructFieldValue _ _ v => expr_decided (node v) end) ∧
  (∀ a : MatchArm, match a with
                   | mkMatchArm _ _ guard v _ =>
                     on_some (λ g : Expr, expr_decided (node g)) guard ∧ expr_decided (node v)
                   end) ∧
  (∀ s, statement_decided s) ∧
  (∀ b, block_decided b).
Proof.
  apply syntax_mind; intros; nested; try done; auto;
    try match goal with
    | |- expr_decided _ => intros Γ sp
    | |- statement_decided _ => intros Γ sp
    | |- block_decided _ => intros Γ
    end;
    cbn [scoped_expr statement_scope statements_scope resolve_expression resolve_statement
         resolve_block_contents];
    fold (scoped_expr w) (statement_scope w) (statements_scope w);
    try by decide_steps.
  - apply decides_schema. intros fields _. decide_steps.
  - apply decides_schema. intros fields _. decide_steps.
  - by apply closure_decided.
  - apply decides_struct_type, decides_iterS. eapply Forall_impl; [exact H|]. intros [] Hv.
    apply Hv.
  - apply decides_access, H.
  - apply decides_bind; [apply H|]. apply decides_iterS. eapply Forall_impl; [exact H0|].
    intros [pattern group guard v sp'] [Hg Hv]. by apply arm_decided.
  - by apply binding_decided.
  - apply moves_assignment, H.
  - apply exit_decided.
  - apply exit_decided.
  - apply moves_iterS. eapply Forall_impl; [exact H|]. intros s Hs Γ'. apply Hs.
Qed.

Lemma block_is_decided b : block_decided b.
Proof. apply syntax_decided. Qed.
End syntax.

(** ** Type parameters *)

Section generics.
Context (w : World).

(** Code between [begin_generics] and the end of the declaration, which pops them. *)
Definition closes (Γ : Scope) (b : bool) (m : R unit) : Prop := ∀ r,
  agrees w Γ r → generic_types r ≠ [] →
  match m r with
  | Ok (_, r') =>
    b = true ∧ symbols (resolution r) `prefix_of` symbols (resolution r')
    ∧ r' = set_generic_types (tail (generic_types r)) (set_resolution (resolution r') r)
  | Err _ => b = false
  | Panic => False
  end.

Lemma closes_bind Γ b1 b2 m1 m2 :
  decides w Γ b1 m1 → closes Γ b2 m2 → closes Γ (b1 && b2) (_ ← m1; m2).
Proof.
  intros H1 H2 r Hr Hn. unfold mbind, SM_bind. specialize (H1 r Hr).
  destruct (m1 r) as [ [ [] r1] | | ]; simpl; [|by rewrite H1|done].
  destruct H1 as [-> Hs]. pose proof (agrees_same _ _ _ _ Hr Hs) as Hr1.
  destruct Hs as [Hp E1]. specialize (H2 r1 Hr1 ltac:(by rewrite E1)).
  destruct (m2 r1) as [ [ [] r2] | | ]; simpl; [|done..].
  destruct H2 as (-> & Hp' & E2). split_and!; [done|by etrans|]. rewrite E2, E1. done.
Qed.

Lemma closes_last Γ b m : decides w Γ b m → closes Γ b (_ ← m; pop_generics).
Proof.
  intros H. rewrite <- (andb_true_r b). apply closes_bind; [done|].
  intros r Hr Hn. simpl. split_and!; [done..|]. by destruct r.
Qed.

Lemma closes_self Γ s b m :
  closes (generic_scope_of {["Self"]} Γ) b m → closes Γ b (_ ← insert_self s; m).
Proof.
  intros H r Hr Hn. unfold insert_self, gets, modify. unfold mbind, SM_bind. simpl.
  destruct (generic_types r) as [|scope rest] eqn:Hg; [done|]. simpl.
  set (r0 := set_generic_types (<["Self" := s]> scope :: rest) r).
  assert (agrees w (generic_scope_of {["Self"]} Γ) r0) as Hr0.
  { pose proof (agree_generics _ _ _ Hr) as Hgen. destruct Hr. split; try done.
    intros name. specialize (Hgen name). simpl. unfold has_generic in *. simpl.
    rewrite Hg in Hgen. simpl in Hgen.
    destruct (decide (name = "Self")) as [->|Hne].
    - rewrite lookup_insert_eq. rewrite !bool_decide_true; [done|by eexists|set_solver].
    - rewrite lookup_insert_ne by done. rewrite <- Hgen. apply bool_decide_ext.
      set_solver. }
  specialize (H r0 Hr0 ltac:(done)). destruct (m r0) as [ [ [] r1] | | ]; simpl; [|done..].
  destruct H as (-> & Hp & E). split_and!; [done|done|]. rewrite E. by destruct r.
Qed.

Lemma generic_scope_answers ps scope :
  match generic_scope scope ps with
  | Ok scope' => NoDup (map generic_name ps)
                 ∧ (∀ p, p ∈ ps → generic_name p ∉ dom scope)
                 ∧ dom scope' = list_to_set (map generic_name ps) ∪ dom scope
  | Err _ => ¬ (NoDup (map generic_name ps) ∧ ∀ p, p ∈ ps → generic_name p ∉ dom scope)
  | Panic => False
  end.
Proof.
  revert scope. induction ps as [|p ps IH]; intros scope; simpl.
  - split_and!; [constructor|set_solver|set_solver].
  - case_bool_decide as Hd.
    + intros [_ H]. apply (H p); [left|]. by apply elem_of_dom.
    + specialize (IH (<[generic_name p := generic_name_span p]> scope)).
      rewrite dom_insert_L in IH. rewrite <- elem_of_dom in Hd.
      destruct (generic_scope _ ps); [| |done].
      * destruct IH as (H1 & H2 & H3). split_and!.
        -- constructor; [|done]. intros (q & Hq & Hin)%list_elem_of_fmap.
           apply (H2 q Hin). rewrite <- Hq. set_solver.
        -- intros q [->|Hin]%elem_of_cons; [done|]. specialize (H2 q Hin). set_solver.
        -- rewrite H3. set_solver.
      * intros [ [Hni Hnd]%NoDup_cons Hall]. apply IH. split; [done|]. intros q Hin.
        apply not_elem_of_union. split.
        -- intros Heq%elem_of_singleton. apply Hni. rewrite <- Heq.
           by apply list_elem_of_fmap_2.
        -- apply Hall. by right.
Qed.

(** [begin_generics] pushes the scope, then reads the constraints. *)
Lemma run_generics ps (m : R unit) r :
  (_ ← begin_generics ps; m) r =
  match generic_scope ∅ ps with
  | Ok scope =>
    (_ ← reading (λ r, each (λ p, each (resolve_trait_name r) (generic_constraints p)) ps); m)
      (set_generic_types (scope :: generic_types r) r)
  | Err d => Err d
  | Panic => Panic
  end.
Proof. unfold begin_generics, mbind, SM_bind, lift, modify. by destruct (generic_scope ∅ ps). Qed.

Lemma decides_constraints Γ ps :
  decides w Γ (forallb (λ p, forallb (known_trait w Γ) (generic_constraints p)) ps)
    (reading (λ r, each (λ p, each (resolve_trait_name r) (generic_constraints p)) ps)).
Proof.
  apply decides_reading. intros r Hr. apply answers_each, Forall_true. intros p.
  apply answers_each, Forall_true. intros c. by apply trait_answers.
Qed.

Lemma decides_generics Γ ps b m :
  (∀ Γ', closes Γ' (b Γ') m) →
  decides w Γ match with_parameters w Γ ps with Some Γ' => b Γ' | None => false end
    (_ ← begin_generics ps; m).
Proof.
  intros Hm r Hr. unfold with_parameters.
  set (Γ' := generic_scope_of (list_to_set (map generic_name ps)) Γ). rewrite run_generics.
  pose proof (generic_scope_answers ps ∅) as Hg.
  destruct (generic_scope ∅ ps) as [scope|d|]; simpl; [| |done].
  2: { rewrite bool_decide_false; [done|]. intros Hnd. apply Hg. split; [done|]. set_solver. }
  destruct Hg as (Hnd & _ & Hdom). rewrite bool_decide_true by done. simpl.
  set (r0 := set_generic_types (scope :: generic_types r) r).
  assert (agrees w Γ' r0) as Hr0.
  { pose proof (agree_generics _ _ _ Hr) as Hgen. destruct Hr. split; try done.
    intros name. specialize (Hgen name). simpl. unfold has_generic in *. simpl.
    rewrite <- Hgen. rewrite dom_empty_L, union_empty_r_L in Hdom. rewrite <- Hdom.
    rewrite <- bool_decide_or. apply bool_decide_ext. rewrite elem_of_union, elem_of_dom. done. }
  pose proof (closes_bind Γ' _ _ _ m (decides_constraints Γ' ps) (Hm Γ') r0 Hr0 ltac:(done)) as H.
  match type of H with
    match ?x with _ => _ end => destruct x as [ [ [] r1] | | ] end; simpl in H |- *.
  - destruct H as (Hb & Hp & E). apply andb_true_iff in Hb as [-> Hb]. split; [done|].
    split; [done|]. rewrite E. by destruct r.
  - by destruct (forallb _ _).
  - done.
Qed.
End generics.

(** ** Declarations *)

Section declarations.
Context (w : World).

Lemma function_decided Γ f : decides w Γ (scoped_function w Γ f) (resolve_function f).
Proof.
  apply decides_generics. intros Γ'. rewrite <- andb_assoc.
  apply closes_bind; [apply decides_parameter_types|].
  apply closes_bind; [apply decides_optional_type|]. apply closes_last.
  replace (match declare_all _ _ with Some _ => _ | None => false end)
    with (succeeds (match declare_all (fn_parameters f) (block_scope Γ') with
                    | Some Γ => statements_scope w (fn_body f) Γ | None => None end)).
  - apply decides_in_scope, moves_bind; [by apply moves_parameters|]. apply block_is_decided.
  - by destruct (declare_all _ _).
Qed.

Lemma signature_decided Γ m : decides w Γ (scoped_signature w Γ m) (resolve_signature m).
Proof.
  apply decides_generics. intros Γ'.
  apply closes_bind; [apply decides_parameter_types|]. apply closes_last, decides_optional_type.
Qed.

Lemma struct_decided Γ d : decides w Γ (scoped_struct w Γ d) (resolve_struct d).
Proof.
  apply decides_generics. intros Γ'. apply closes_last, decides_reading. intros r Hr.
  by apply types_answers.
Qed.

Lemma enum_decided Γ d : decides w Γ (scoped_enum w Γ d) (resolve_enum d).
Proof.
  apply decides_generics. intros Γ'. apply closes_last, decides_reading. intros r Hr.
  apply answers_each, Forall_true. intros v. apply answers_each, Forall_true. intros ty.
  by apply type_answers.
Qed.

Lemma trait_decided Γ d : decides w Γ (scoped_trait w Γ d) (resolve_trait d).
Proof.
  apply decides_generics. intros Γ'. apply closes_self, closes_last.
  apply decides_iterS, Forall_true. intros m. apply signature_decided.
Qed.

Lemma implementation_decided Γ i :
  decides w Γ (scoped_implementation w Γ i) (resolve_implementation i).
Proof.
  apply decides_generics. intros Γ'. rewrite <- andb_assoc. apply closes_bind.
  { destruct (impl_trait_name i) as [name|]; [|apply decides_ret]. apply decides_reading.
    intros r Hr. by apply trait_answers. }
  apply closes_bind.
  { apply decides_reading. intros r Hr. by apply type_answers. }
  apply closes_self, closes_bind.
  { apply decides_reading. intros r Hr. unfold known_types. rewrite forallb_over.
    apply answers_each, Forall_true. intros [ [name ty] sp]. by apply type_answers. }
  apply closes_last, decides_iterS, Forall_true. intros m. apply function_decided.
Qed.
End declarations.

(** ** The phases of a program

    [phase P Q m r]: from [r], [m] succeeds exactly when [P] holds, and then leaves a state
    that satisfies [Q]; it never panics. *)
Definition phase (P : Prop) (Q : Resolver → Prop) (m : R unit) (r : Resolver) : Prop :=
  match m r with Ok (_, r') => P ∧ Q r' | Err _ => ¬ P | Panic => False end.

Lemma phase_bind P Q P' Q' (m1 m2 : R unit) r :
  phase P Q m1 r → (∀ r', P → Q r' → phase P' Q' m2 r') →
  phase (P ∧ P') Q' (_ ← m1; m2) r.
Proof.
  intros H1 H2. unfold phase, mbind, SM_bind in *.
  destruct (m1 r) as [ [ [] r1] | | ]; simpl; [|tauto|done]. destruct H1 as [HP HQ].
  specialize (H2 r1 HP HQ). destruct (m2 r1) as [ [ [] r2] | | ]; simpl; [tauto..|done].
Qed.

Lemma phase_mono P P' Q Q' m r :
  phase P Q m r → P ↔ P' → (∀ r', P → Q r' → Q' r') → phase P' Q' m r.
Proof.
  unfold phase. intros H HP HQ. destruct (m r) as [ [ [] r1] | | ]; [|tauto|done].
  destruct H. split; [tauto|auto].
Qed.

Lemma decides_phase w Γ b m r : decides w Γ b m → agrees w Γ r → phase (b = true) (same r) m r.
Proof.
  intros H Hr. specialize (H r Hr). unfold phase. destruct (m r) as [ [ [] r1] | | ]; [done| |done].
  by rewrite H.
Qed.

(** A loop whose steps each declare a name that must not be taken. *)
Section unique.
Context {A : Type} (key : A → string) (taken : Resolver → gset string) (c : A → Prop).
Context (upd : A → Resolver → Resolver → Prop) (f : A → R unit).

Fixpoint chain (l : list A) (r r' : Resolver) : Prop :=
  match l with
  | [] => r' = r
  | a :: l => ∃ r1, upd a r r1 ∧ chain l r1 r'
  end.

Hypothesis step : ∀ a r,
  phase (key a ∉ taken r ∧ c a)
    (λ r', taken r' = {[key a]} ∪ taken r ∧ upd a r r') (f a) r.

Lemma phase_unique l r :
  phase (NoDup (map key l) ∧ Forall (λ k, k ∉ taken r) (map key l) ∧ Forall c l)
    (chain l r) (iterS f l) r.
Proof.
  revert r. induction l as [|a l IH]; intros r; simpl.
  - split; [|done]. split_and!; constructor.
  - eapply phase_mono; [eapply (phase_bind _ _
      (NoDup (map key l) ∧ Forall (λ k, k ∉ {[key a]} ∪ taken r) (map key l) ∧ Forall c l)
      (λ r', ∃ r1, upd a r r1 ∧ chain l r1 r')); [apply step|]| |].
    + intros r1 _ [Ht Hu]. eapply phase_mono; [apply IH|by rewrite Ht|]. eauto.
    + rewrite !NoDup_cons, !Forall_cons. rewrite !Forall_forall. set_solver.
    + done.
Qed.
End unique.
