(* ===== verification/ResolverProgram.v ===== *)
(** * The resolver accepts exactly the well-scoped programs

    The declaration phases succeed when the declared names are unique and leave the
    declarations of the specification behind; with the lemmas on bodies this decides
    [scoped_program]. *)

From S2P Require Import Prelude Machine Diagnostics StateM Ast Resolver ResolverSpec ResolverProps ResolverDecides.
#[local] Open Scope string_scope.
#[local] Open Scope list_scope.
#[local] Open Scope nat_scope.

(** ** What a chain of declarations leaves *)

Lemma fmap_fst_pairs {A V} (key : A → string) (val : A → V) l :
  (map (λ a, (key a, val a)) l).*1 = map key l.
Proof. induction l as [|a l IH]; [done|]. exact (f_equal (cons (key a)) IH). Qed.

Section chain.
Context {A : Type} (upd : A → Resolver → Resolver → Prop).

Lemma chain_keeps (T : Resolver → Resolver → Prop) `{!PreOrder T} l r r' :
  (∀ a r r', upd a r r' → T r r') → chain upd l r r' → T r r'.
Proof.
  intros Hu. revert r. induction l as [|a l IH]; simpl; intros r; [by intros ->|].
  intros (r1 & Ha & Hl). etrans; [by eapply Hu|by apply IH].
Qed.

Lemma chain_inserts {V} (key : A → string) (val : A → V) (get : Resolver → gmap string V) l r r' :
  (∀ a r r', upd a r r' → get r' = <[key a := val a]> (get r)) →
  chain upd l r r' → NoDup (map key l) →
  get r' = list_to_map (map (λ a, (key a, val a)) l) ∪ get r.
Proof.
  intros Hu. revert r. induction l as [|a l IH]; simpl; intros r.
  - intros -> _. by rewrite map_empty_union.
  - intros (r1 & Ha & Hl) [Hni Hnd]%NoDup_cons. rewrite (IH r1 Hl Hnd), (Hu _ _ _ Ha).
    rewrite <- insert_union_l. apply symmetry, insert_union_r.
    apply not_elem_of_list_to_map. intros Hin. apply Hni.
    by rewrite fmap_fst_pairs in Hin.
Qed.
End chain.

(** ** Unique names *)

Lemma unique_fields_answers names seen :
  match validate_unique_fields_from seen names with
  | Ok _ => NoDup names.*1 ∧ Forall (λ n, n ∉ seen) names.*1
  | Err _ => ¬ (NoDup names.*1 ∧ Forall (λ n, n ∉ seen) names.*1)
  | Panic => False
  end.
Proof.
  revert seen. induction names as [|[name s] names IH]; intros seen; simpl.
  - by split; constructor.
  - case_bool_decide as Hin; [rewrite Forall_cons; tauto|].
    specialize (IH ({[name]} ∪ seen)).
    assert (Forall (λ n, n ∉ {[name]} ∪ seen) names.*1
            ↔ name ∉ names.*1 ∧ Forall (λ n, n ∉ seen) names.*1) as Heq.
    { rewrite !Forall_forall. set_solver. }
    destruct (validate_unique_fields_from _ _);
      rewrite ?NoDup_cons, ?Forall_cons; rewrite ?Heq in IH; tauto.
Qed.

Lemma phase_unique_fields {A} (key : A → string) (sp : A → Span) l r :
  phase (NoDup (map key l)) (λ r', r' = r)
    (lift (validate_unique_fields (map (λ a, (key a, sp a)) l))) r.
Proof.
  pose proof (unique_fields_answers (map (λ a, (key a, sp a)) l) ∅) as H.
  rewrite fmap_fst_pairs in H. unfold phase, lift, validate_unique_fields.
  destruct (validate_unique_fields_from _ _) as [ [] | | ]; simpl; [| |done].
  - by destruct H.
  - intros Hnd. apply H. split; [done|]. apply Forall_true. set_solver.
Qed.

(** ** Traits *)

Definition trait_added (d : TraitDeclaration) (r r' : Resolver) : Prop :=
  r' = set_traits (<[trait_name d := (trait_name_span d, length (trait_generics d))]>
                     (traits r)) r.

Definition trait_taken (r : Resolver) : gset string :=
  {["Meta"]} ∪ dom (traits r) ∪ dom (types r).

Lemma phase_trait d r :
  phase (trait_name d ∉ trait_taken r ∧ True)
    (λ r', trait_taken r' = {[trait_name d]} ∪ trait_taken r ∧ trait_added d r r')
    (declare_trait d) r.
Proof.
  unfold declare_trait, trait_taken, phase.
  destruct (String.eqb_spec (trait_name d) "Meta") as [->|Hm].
  { simpl. set_solver. }
  unfold gets, modify, throw, mret, SM_ret. unfold mbind, SM_bind. simpl.
  rewrite <- bool_decide_or. case_bool_decide as Hd; simpl.
  - rewrite <- !elem_of_dom in Hd. set_solver.
  - rewrite <- !elem_of_dom in Hd. split; [set_solver|]. split; [|done].
    rewrite dom_insert_L. set_solver.
Qed.

(** ** Types *)

Definition type_taken (r : Resolver) : gset string := dom (types r) ∪ dom (globals r).

Lemma phase_type name s arity r :
  phase (name ∉ type_taken r)
    (λ r', r' = set_types (<[name := (s, arity)]> (types r)) r) (declare_type name s arity) r.
Proof.
  unfold declare_type, type_taken, phase, gets, modify, throw. unfold mbind, SM_bind. simpl.
  rewrite <- bool_decide_or. case_bool_decide as Hd; rewrite <- !elem_of_dom in Hd; set_solver.
Qed.

Definition struct_added (d : StructDeclaration) (r r' : Resolver) : Prop :=
  r' = set_data_fields
         (if struct_data d
          then <[struct_name d := list_to_set (map field_name (struct_fields d))]> (data_fields r)
          else data_fields r)
         (set_types (<[struct_name d := (struct_name_span d, length (struct_generics d))]>
                       (types r)) r).

Lemma phase_struct d r :
  phase (struct_name d ∉ type_taken r ∧ NoDup (map field_name (struct_fields d)))
    (λ r', type_taken r' = {[struct_name d]} ∪ type_taken r ∧ struct_added d r r')
    (declare_struct d) r.
Proof.
  eapply phase_bind; [apply phase_type|]. intros r1 _ ->.
  eapply phase_mono; [eapply (phase_bind _ _ True); [apply phase_unique_fields|]|tauto|].
  - intros r2 _ ->. instantiate (1 := struct_added d r). unfold phase, struct_added.
    destruct (struct_data d); simpl; (split; [done|]); by destruct r.
  - intros r' _ ->. split; [|done]. unfold type_taken. simpl. rewrite dom_insert_L. set_solver.
Qed.

(** ** Variants *)

Record variants_added (enum : string) (vs : list VariantDeclaration) (r r' : Resolver) : Prop := {
  variants_symbols : symbols (resolution r) `prefix_of` symbols (resolution r');
  variants_owners : ∀ name,
    map fst (default [] (variants r' !! name))
    = map fst (default [] (variants r !! name))
      ++ if bool_decide (name ∈ map variant_name vs) then [enum] else [];
  variants_rest : r' = set_variants (variants r') (set_resolution (resolution r') r) }.

Lemma phase_variants enum vs r :
  NoDup (map variant_name vs) →
  phase True (variants_added enum vs r) (iterS (declare_variant enum) vs) r.
Proof.
  revert r. induction vs as [|v vs IH]; intros r; simpl.
  - intros _. split; [done|]. split; [done| |by destruct r]. intros name. by rewrite app_nil_r.
  - intros [Hni Hnd]%NoDup_cons. eapply phase_mono; [eapply (phase_bind True
      (variants_added enum [v] r) True (variants_added enum (v :: vs) r))|tauto|done].
    + unfold declare_variant, add_symbol, insert_declaration, gets, modify, mret, SM_ret, phase.
      unfold mbind, SM_bind. simpl. split; [done|]. split; simpl; [by eexists| |by destruct r].
      intros name. destruct (decide (name = variant_name v)) as [->|Hne].
      * rewrite lookup_insert_eq. simpl. rewrite map_app. rewrite bool_decide_true by set_solver.
        done.
      * rewrite lookup_insert_ne by done. rewrite bool_decide_false by set_solver.
        by rewrite app_nil_r.
    + intros r1 _ [Hp1 Ho1 E1]. eapply phase_mono; [by apply IH|done|].
      intros r' _ [Hp2 Ho2 E2]. split; [by etrans| |].
      * intros name. rewrite Ho2, Ho1, <- app_assoc. f_equal. simpl.
        destruct (decide (name = variant_name v)) as [->|Hne].
        -- rewrite (bool_decide_true (_ ∈ [_])) by set_solver.
           rewrite (bool_decide_false (_ ∈ map _ vs)) by done.
           by rewrite (bool_decide_true (_ ∈ _ :: _)) by set_solver.
        -- rewrite (bool_decide_false (_ ∈ [_])) by set_solver. simpl.
           erewrite bool_decide_ext; [done|]. set_solver.
      * rewrite E2, E1. done.
Qed.

Definition enum_added (d : EnumDeclaration) (r r' : Resolver) : Prop :=
  variants_added (enum_name d) (enum_variants d)
    (set_types (<[enum_name d := (enum_name_span d, length (enum_generics d))]> (types r)) r) r'.

Lemma phase_enum d r :
  phase (enum_name d ∉ type_taken r ∧ NoDup (map variant_name (enum_variants d)))
    (λ r', type_taken r' = {[enum_name d]} ∪ type_taken r ∧ enum_added d r r')
    (declare_enum d) r.
Proof.
  eapply phase_bind; [apply phase_type|]. intros r1 _ ->.
  eapply phase_mono; [eapply (phase_bind _ _ True); [apply phase_unique_fields|]|tauto|].
  - intros r2 Hnd ->. by apply phase_variants.
  - intros r' _ H. split; [|done]. destruct H as [_ _ ->]. unfold type_taken. simpl.
    rewrite dom_insert_L. set_solver.
Qed.

(** ** Functions *)

Definition function_taken (r : Resolver) : gset string := dom (globals r) ∪ dom (types r).

Record function_added (f : Function) (r r' : Resolver) : Prop := {
  function_symbols : symbols (resolution r) `prefix_of` symbols (resolution r');
  function_global : ∃ id, globals r' = <[fn_name f := id]> (globals r)
                          ∧ id_mutable r' id = Some false;
  function_rest : r' = set_globals (globals r') (set_resolution (resolution r') r) }.

Lemma phase_function f r :
  phase (fn_name f ∉ function_taken r ∧ True)
    (λ r', function_taken r' = {[fn_name f]} ∪ function_taken r ∧ function_added f r r')
    (declare_function f) r.
Proof.
  unfold declare_function, function_taken, phase.
  unfold add_symbol, insert_declaration, gets, modify, throw, mret, SM_ret.
  unfold mbind, SM_bind. simpl. unfold id. rewrite <- bool_decide_or.
  case_bool_decide as Hd; rewrite <- !elem_of_dom in Hd; simpl; [set_solver|].
  split; [set_solver|]. rewrite dom_insert_L. split; [set_solver|].
  split; simpl; [by eexists| |by destruct r]. eexists. split; [done|].
  unfold id_mutable. simpl. rewrite lookup_app_r by done. by rewrite Nat.sub_diag.
Qed.

(** ** Outside of functions *)

(** Every global is a symbol that cannot be assigned. *)
Definition globals_fixed (r : Resolver) : Prop :=
  ∀ name id, globals r !! name = Some id → id_mutable r id = Some false.

Record outside (fs : list Function) (r : Resolver) : Prop := {
  outside_generics : generic_types r = [];
  outside_scopes : scopes r = [];
  outside_depth : loop_depth r = 0;
  outside_fixed : globals_fixed r;
  outside_globals : dom (globals r) = list_to_set (map fn_name fs ++ builtins) }.

Lemma list_to_map_const {V} (v : string → V) l name :
  list_to_map (M := gmap string V) (map (λ n, (n, v n)) l) !! name
  = if bool_decide (name ∈ l) then Some (v name) else None.
Proof.
  induction l as [|n l IH]; simpl; [by rewrite lookup_empty|].
  destruct (decide (n = name)) as [->|Hne].
  - rewrite lookup_insert_eq, bool_decide_true; [done|set_solver].
  - rewrite lookup_insert_ne, IH by done. erewrite bool_decide_ext; [done|]. set_solver.
Qed.

Lemma id_mutable_lt r id b : id_mutable r id = Some b → id < length (symbols (resolution r)).
Proof.
  unfold id_mutable. destruct (_ !! id) eqn:H; [|done]. intros _. by eapply lookup_lt_Some.
Qed.

Lemma outside_agrees w fs r :
  outside fs r →
  world_types w = snd <$> types r → world_traits w = snd <$> traits r →
  (∀ name, default [] (world_variants w !! name) = map fst (default [] (variants r !! name))) →
  world_data w = data_fields r → agrees w (global_scope fs) r.
Proof.
  intros [Hg Hs Hl Hf Hd] Ht Htr Hv Hda. split; try done.
  - intros name. unfold has_generic. by rewrite Hg.
  - intros name. simpl. rewrite list_to_map_const. unfold lookup_name. rewrite Hs. simpl.
    destruct (globals r !! name) as [id|] eqn:Hn; simpl.
    + rewrite (Hf _ _ Hn). rewrite bool_decide_true; [done|].
      apply (elem_of_dom_2 (D:=gset string)) in Hn. rewrite Hd in Hn. set_solver.
    + rewrite bool_decide_false; [done|]. intros Hin. apply not_elem_of_dom in Hn.
      apply Hn. rewrite Hd. set_solver.
  - intros name id. unfold lookup_name. rewrite Hs. simpl. intros Hn.
    eapply id_mutable_lt, Hf, Hn.
  - by rewrite Hs.
  - by rewrite Hl.
Qed.

Lemma fixed_prefix r r' :
  symbols (resolution r) `prefix_of` symbols (resolution r') → globals r' = globals r →
  globals_fixed r → globals_fixed r'.
Proof.
  intros Hp Hg Hf name id. rewrite Hg. intros Hn. specialize (Hf name id Hn).
  rewrite (id_mutable_prefix r); [done|done|]. by eapply id_mutable_lt.
Qed.

Lemma outside_same fs r r' : outside fs r → same r r' → outside fs r'.
Proof.
  intros [] [Hp ->]. split; try done. eapply fixed_prefix; [..|exact outside_fixed0]; done.
Qed.

Lemma new_outside : outside [] new_resolver.
Proof.
  split; try done.
  assert (Forall (λ '(name, id), id_mutable new_resolver id = Some false)
            (map_to_list (globals new_resolver))) as H
    by (apply (bool_decide_unpack _); vm_compute; exact I).
  intros name id Hn%elem_of_map_to_list. rewrite Forall_forall in H. by apply (H (name, id)).
Qed.

(** ** The declaration phases, in order *)

(** Nothing but traits is declared. *)
Record fresh_types (r : Resolver) : Prop := {
  fresh_outside : outside [] r;
  fresh_no_types : types r = ∅;
  fresh_no_variants : variants r = ∅;
  fresh_no_data : data_fields r = ∅ }.

Lemma fresh_set_traits t r : fresh_types r → fresh_types (set_traits t r).
Proof. intros [ [] ? ? ?]. by repeat split. Qed.

Lemma new_fresh : fresh_types new_resolver.
Proof. split; [exact new_outside|done..]. Qed.

Lemma chain_fresh ds r r' : chain trait_added ds r r' → fresh_types r → fresh_types r'.
Proof.
  intros Hc. assert (PreOrder (λ r r', fresh_types r → fresh_types r')) by (split; red; auto).
  refine (chain_keeps trait_added (λ r r', fresh_types r → fresh_types r') _ _ _ _ Hc).
  intros d r1 r2 ->. apply fresh_set_traits.
Qed.

Lemma trait_phase p :
  phase (NoDup (map trait_name (program_traits p))
         ∧ "Meta" ∉ map trait_name (program_traits p))
    (λ r, fresh_types r
          ∧ snd <$> traits r = list_to_map (map (λ d, (trait_name d, length (trait_generics d)))
                                              (program_traits p)))
    (iterS declare_trait (program_traits p)) new_resolver.
Proof.
  eapply phase_mono; [apply (phase_unique trait_name trait_taken (λ _, True) trait_added);
                      apply phase_trait| |].
  - change (trait_taken new_resolver) with ({["Meta"]} ∪ ∅ ∪ ∅ : gset string).
    rewrite !Forall_forall. set_solver.
  - intros r (Hnd & _) Hc. split; [eapply chain_fresh; [exact Hc|exact new_fresh]|].
    pose proof (chain_inserts trait_added trait_name (λ d, length (trait_generics d))
      (λ r, snd <$> traits r) _ _ _
      ltac:(intros d r1 r' ->; simpl; by rewrite fmap_insert) Hc Hnd) as H.
    simpl in H. by rewrite fmap_empty, map_union_empty in H.
Qed.

Lemma copy_phase p r :
  fresh_types r →
  snd <$> traits r = list_to_map (map (λ d, (trait_name d, length (trait_generics d)))
                                    (program_traits p)) →
  phase True (λ r', fresh_types r' ∧ world_traits (world_of p) = snd <$> traits r')
    declare_copy r.
Proof.
  intros Hr Ht. unfold phase. simpl. split; [done|].
  rewrite list_to_map_app, <- Ht. simpl.
  destruct (traits r !! "Copy") as [x|] eqn:Hc; simpl.
  - split; [done|]. apply map_eq. intros name.
    destruct (decide (name = "Copy")) as [->|Hne].
    + rewrite lookup_union_l', !lookup_fmap, Hc; [done|]. rewrite lookup_fmap, Hc. by eexists.
    + rewrite lookup_union_l; [done|]. rewrite lookup_insert_ne, lookup_empty by done. done.
  - split; [by apply fresh_set_traits|]. rewrite fmap_insert. simpl. rewrite insert_empty.
    apply symmetry, insert_union_singleton_r. by rewrite lookup_fmap, Hc.
Qed.

(** The data schemas of the structs, in a chain of declarations. *)
Lemma struct_data_chain ds r r' :
  chain struct_added ds r r' → NoDup (map struct_name ds) →
  data_fields r'
  = list_to_map (map (λ d, (struct_name d, list_to_set (map field_name (struct_fields d))))
                   (filter (λ d, struct_data d = true) ds)) ∪ data_fields r.
Proof.
  revert r. induction ds as [|d ds IH]; simpl; intros r.
  - intros -> _. by rewrite map_empty_union.
  - intros (r1 & -> & Hc) [Hni Hnd]%NoDup_cons. rewrite (IH _ Hc Hnd). simpl.
    rewrite filter_cons. destruct (struct_data d); simpl; [|done].
    rewrite <- insert_union_l. apply symmetry, insert_union_r.
    apply not_elem_of_list_to_map. rewrite fmap_fst_pairs. intros Hin. apply Hni.
    apply list_elem_of_fmap in Hin as (d' & Heq & Hin). rewrite Heq.
    apply list_elem_of_fmap_2. by apply list_elem_of_filter in Hin as [_ ?].
Qed.

Record structs_ready (p : Program) (r : Resolver) : Prop := {
  ready_outside : outside [] r;
  ready_traits : world_traits (world_of p) = snd <$> traits r;
  ready_data : world_data (world_of p) = data_fields r;
  ready_types : snd <$> types r
    = list_to_map (map (λ d, (struct_name d, length (struct_generics d))) (program_structs p));
  ready_variants : variants r = ∅ }.

Lemma ready_taken p r :
  structs_ready p r →
  type_taken r = list_to_set (map struct_name (program_structs p) ++ builtins).
Proof.
  intros [ [] ? ? Ht ?]. unfold type_taken. rewrite outside_globals0.
  rewrite <- (dom_fmap_L snd), Ht, dom_list_to_map_L, fmap_fst_pairs. set_solver.
Qed.

Lemma struct_phase p r :
  fresh_types r → world_traits (world_of p) = snd <$> traits r →
  phase (NoDup (map struct_name (program_structs p))
         ∧ Forall (λ n, n ∉ builtins) (map struct_name (program_structs p))
         ∧ Forall (λ d, NoDup (map field_name (struct_fields d))) (program_structs p))
    (structs_ready p) (iterS declare_struct (program_structs p)) r.
Proof.
  intros [Ho Hty Hva Hda] Ht. assert (type_taken r = list_to_set builtins) as Htaken.
  { unfold type_taken. rewrite Hty, (outside_globals _ _ Ho). set_solver. }
  eapply phase_mono; [apply (phase_unique struct_name type_taken
    (λ d, NoDup (map field_name (struct_fields d))) struct_added); apply phase_struct| |].
  - rewrite Htaken, !Forall_forall. set_solver.
  - intros r' (Hnd & _) Hc.
    pose (T r r' := traits r' = traits r ∧ variants r' = variants r ∧
                    (outside [] r → outside [] r')).
    assert (PreOrder T) by (split; [by intros r0|]; intros ? ? ? (?&?&?) (?&?&?); split_and!;
                            [congruence..|auto]).
    assert (T r r') as (Htr & Hva' & Ho').
    { refine (chain_keeps struct_added T _ _ _ _ Hc). intros d r1 r2 ->. split_and!; [done..|].
      by intros []; split. }
    pose proof (chain_inserts struct_added struct_name (λ d, length (struct_generics d))
      (λ r, snd <$> types r) _ _ _
      ltac:(intros d r1 r2 ->; simpl; by rewrite fmap_insert) Hc Hnd) as Hty'.
    pose proof (struct_data_chain _ _ _ Hc Hnd) as Hda'.
    simpl in Hty'. rewrite Hty, fmap_empty, map_union_empty in Hty'.
    rewrite Hda, map_union_empty in Hda'.
    split; [by apply Ho'|by rewrite Htr|by rewrite Hda'|done|by rewrite Hva'].
Qed.

Record world_ready (p : Program) (fs : list Function) (r : Resolver) : Prop := {
  world_outside : outside fs r;
  world_agrees : agrees (world_of p) (global_scope fs) r;
  world_type_names : dom (types r) = list_to_set (type_names p) }.

(** The owners a chain of enums leaves. *)
Lemma enum_owners_chain ds r r' name :
  chain enum_added ds r r' →
  map fst (default [] (variants r' !! name))
  = map fst (default [] (variants r !! name)) ++ owners ds name.
Proof.
  revert r. induction ds as [|d ds IH]; simpl; intros r.
  - intros ->. by rewrite app_nil_r.
  - intros (r1 & [_ Ho _] & Hc). rewrite (IH _ Hc), Ho, <- app_assoc. f_equal. simpl.
    unfold owners. rewrite filter_cons.
    destruct (decide _) as [Hin|Hin]; [by rewrite bool_decide_true|by rewrite bool_decide_false].
Qed.

Lemma world_owners p name :
  default [] (world_variants (world_of p) !! name) = owners (program_enums p) name.
Proof.
  simpl. rewrite list_to_map_const. case_bool_decide as Hin; [done|]. simpl. unfold owners.
  enough (filter (λ d, name ∈ map variant_name (enum_variants d)) (program_enums p) = []) as ->
    by done.
  destruct (filter _ _) as [|d ds] eqn:Hf; [done|].
  assert (d ∈ filter (λ d, name ∈ map variant_name (enum_variants d)) (program_enums p))
    as [Hn Hd]%list_elem_of_filter by (rewrite Hf; left).
  exfalso. apply Hin, list_elem_of_In, in_flat_map. exists d. by rewrite <- !list_elem_of_In.
Qed.

Lemma forall_not_in (a b l : list string) :
  Forall (λ k, k ∉ (list_to_set (a ++ b) : gset string)) l
  ↔ Forall (λ n, n ∉ a ∧ n ∉ b) l.
Proof.
  rewrite !Forall_forall. setoid_rewrite elem_of_list_to_set. by setoid_rewrite not_elem_of_app.
Qed.

Lemma enum_phase p r :
  structs_ready p r →
  phase (NoDup (map enum_name (program_enums p))
         ∧ Forall (λ n, n ∉ map struct_name (program_structs p) ∧ n ∉ builtins)
             (map enum_name (program_enums p))
         ∧ Forall (λ d, NoDup (map variant_name (enum_variants d))) (program_enums p))
    (world_ready p []) (iterS declare_enum (program_enums p)) r.
Proof.
  intros Hr. pose proof (ready_taken _ _ Hr) as Htaken.
  destruct Hr as [Ho Ht Hda Hty Hva].
  eapply phase_mono; [apply (phase_unique enum_name type_taken
    (λ d, NoDup (map variant_name (enum_variants d))) enum_added); apply phase_enum| |].
  - rewrite Htaken, forall_not_in. tauto.
  - intros r' (Hnd & _) Hc.
    pose (T r r' := traits r' = traits r ∧ data_fields r' = data_fields r ∧
                    (outside [] r → outside [] r')).
    assert (PreOrder T) by (split; [by intros r0|]; intros ? ? ? (?&?&?) (?&?&?); split_and!;
                            [congruence..|auto]).
    assert (T r r') as (Htr & Hda' & Ho').
    { refine (chain_keeps enum_added T _ _ _ _ Hc). intros d r1 r2 [Hp _ ->].
      split_and!; [done..|]. intros []. split; try done.
      eapply fixed_prefix; [..|exact outside_fixed0]; done. }
    pose proof (chain_inserts enum_added enum_name (λ d, length (enum_generics d))
      (λ r, snd <$> types r) _ _ _
      ltac:(intros d r1 r2 [_ _ ->]; simpl; by rewrite fmap_insert) Hc Hnd) as Hty'.
    simpl in Hty'. rewrite Hty, <- list_to_map_app in Hty'.
    specialize (Ho' Ho). split; [done| |].
    + apply outside_agrees; [done|done|by rewrite Htr| |by rewrite Hda'].
      intros name. rewrite world_owners, (enum_owners_chain _ _ _ _ Hc), Hva.
      by rewrite lookup_empty.
    + rewrite <- (dom_fmap_L snd), Hty', dom_list_to_map_L, fmap_app, !fmap_fst_pairs.
      unfold type_names. set_solver.
Qed.

Lemma functions_chain fs r r' :
  chain function_added fs r r' →
  (∃ res gl, r' = set_globals gl (set_resolution res r))
  ∧ dom (globals r') = list_to_set (map fn_name fs) ∪ dom (globals r)
  ∧ (globals_fixed r → globals_fixed r').
Proof.
  revert r. induction fs as [|f fs IH]; simpl; intros r.
  - intros ->. split_and!; [|set_solver|done]. exists (resolution r), (globals r). by destruct r.
  - intros (r1 & [Hp (id & Hg & Hid) E] & Hc). destruct (IH r1 Hc) as ((res & gl & ->) & Hd & Hf).
    split_and!.
    + exists res, gl. rewrite E. done.
    + rewrite Hd, Hg, dom_insert_L. set_solver.
    + intros H. apply Hf. intros name i. rewrite Hg.
      destruct (decide (name = fn_name f)) as [->|Hne].
      * rewrite lookup_insert_eq. by intros [= <-].
      * rewrite lookup_insert_ne by done. intros Hn. specialize (H _ _ Hn).
        rewrite (id_mutable_prefix r); [done|done|]. by eapply id_mutable_lt.
Qed.

Lemma function_phase p r :
  world_ready p [] r →
  phase (NoDup (map fn_name (program_functions p))
         ∧ Forall (λ n, n ∉ builtins ∧ n ∉ type_names p) (map fn_name (program_functions p)))
    (world_ready p (program_functions p)) (iterS declare_function (program_functions p)) r.
Proof.
  intros [Ho Ha Ht].
  eapply phase_mono; [apply (phase_unique fn_name function_taken (λ _, True) function_added);
                      apply phase_function| |].
  - unfold function_taken. rewrite (outside_globals _ _ Ho), Ht.
    change (map fn_name [] ++ builtins) with builtins.
    rewrite <- list_to_set_app_L, forall_not_in. pose proof (Forall_true (λ _, True)
      (program_functions p) ltac:(done)). tauto.
  - intros r' _ Hc. destruct (functions_chain _ _ _ Hc) as ((res & gl & ->) & Hd & Hf).
    assert (outside (program_functions p) (set_globals gl (set_resolution res r))) as Ho'.
    { destruct Ho. split; try done; [by apply Hf|]. rewrite Hd, outside_globals0.
      by rewrite <- list_to_set_app_L. }
    split; [done| |done]. destruct Ha. by apply outside_agrees.
Qed.

Lemma ready_same p fs r r' : world_ready p fs r → same r r' → world_ready p fs r'.
Proof.
  intros [Ho Ha Ht] Hs. split; [by eapply outside_same|by eapply agrees_same|].
  by destruct Hs as [_ ->].
Qed.

(** A loop over declarations that only checks them. *)
Lemma check_phase {A} p fs (b : A → bool) (f : A → R unit) l r :
  (∀ a, decides (world_of p) (global_scope fs) (b a) (f a)) → world_ready p fs r →
  phase (forallb b l = true) (world_ready p fs) (iterS f l) r.
Proof.
  intros Hd Hr. eapply phase_mono; [eapply decides_phase; [|apply (world_agrees _ _ _ Hr)]|done|].
  - apply decides_iterS, Forall_true, Hd.
  - intros r' _ Hs. by eapply ready_same.
Qed.

Lemma scoped_parts p :
  scoped_program p ↔
  (NoDup (map trait_name (program_traits p)) ∧ "Meta" ∉ map trait_name (program_traits p))
  ∧ True
  ∧ (NoDup (map struct_name (program_structs p))
     ∧ Forall (λ n, n ∉ builtins) (map struct_name (program_structs p))
     ∧ Forall (λ d, NoDup (map field_name (struct_fields d))) (program_structs p))
  ∧ (NoDup (map enum_name (program_enums p))
     ∧ Forall (λ n, n ∉ map struct_name (program_structs p) ∧ n ∉ builtins)
         (map enum_name (program_enums p))
     ∧ Forall (λ d, NoDup (map variant_name (enum_variants d))) (program_enums p))
  ∧ forallb (scoped_struct (world_of p) (global_scope [])) (program_structs p) = true
  ∧ forallb (scoped_enum (world_of p) (global_scope [])) (program_enums p) = true
  ∧ (NoDup (map fn_name (program_functions p))
     ∧ Forall (λ n, n ∉ builtins ∧ n ∉ type_names p) (map fn_name (program_functions p)))
  ∧ forallb (scoped_function (world_of p) (global_scope (program_functions p)))
      (program_functions p) = true
  ∧ forallb (scoped_trait (world_of p) (global_scope (program_functions p)))
      (program_traits p) = true
  ∧ forallb (scoped_implementation (world_of p) (global_scope (program_functions p)))
      (program_implementations p) = true.
Proof.
  assert (NoDup (type_names p) ∧ Forall (λ n, n ∉ builtins) (type_names p)
    ↔ NoDup (map struct_name (program_structs p))
      ∧ Forall (λ n, n ∉ builtins) (map struct_name (program_structs p))
      ∧ NoDup (map enum_name (program_enums p))
      ∧ Forall (λ n, n ∉ map struct_name (program_structs p) ∧ n ∉ builtins)
          (map enum_name (program_enums p))) as Htypes.
  { unfold type_names. rewrite NoDup_app, Forall_app, Forall_and. generalize builtins.
    intros l. rewrite !Forall_forall. naive_solver. }
  split.
  - intros []. tauto.
  - intros H. split; tauto.
Qed.

Lemma program_phase p : phase (scoped_program p) (λ _, True) (resolve_program p) new_resolver.
Proof.
  eapply phase_mono; [|symmetry; apply scoped_parts|done]. unfold resolve_program.
  eapply phase_bind; [apply trait_phase|]. intros r1 _ [Hf1 Ht1].
  eapply phase_bind; [by apply (copy_phase p)|]. intros r2 _ [Hf2 Ht2].
  eapply phase_bind; [by apply struct_phase|]. intros r3 _ Hr3.
  eapply phase_bind; [by apply enum_phase|]. intros r4 _ Hr4.
  eapply phase_bind; [apply (check_phase p []); [apply struct_decided|done]|]. intros r5 _ Hr5.
  eapply phase_bind; [apply (check_phase p []); [apply enum_decided|done]|]. intros r6 _ Hr6.
  eapply phase_bind; [by apply function_phase|]. intros r7 _ Hr7.
  eapply phase_bind; [by apply check_phase; [apply function_decided|]|]. intros r8 _ Hr8.
  eapply phase_bind; [by apply check_phase; [apply trait_decided|]|]. intros r9 _ Hr9.
  eapply phase_mono; [by apply check_phase; [apply implementation_decided|]|done|done].
Qed.

(** C17: Name resolution decides lexical scoping: on every program the resolver returns, and
    it accepts exactly the programs whose names are used correctly.  Accepted programs
    declare every type, trait, field, variant and function once, use only names, types,
    traits, variants and data schemas in scope with the right arity, declare a local once
    per block, assign only mutable locals, and leave loops only from inside them. *)
Theorem resolve_decides_scoping (p : Program) :
  match resolve p with
  | Ok _ => scoped_program p
  | Err _ => ¬ scoped_program p
  | Panic => False
  end.
Proof.
  pose proof (program_phase p) as H. unfold phase in H. unfold resolve.
  destruct (resolve_program p new_resolver) as [ [ [] r] | | ]; simpl; tauto.
Qed.
