(* ===== verification/Frontend.v ===== *)
(** * From source text to resolved names ([compiler/src/lib.rs])

    [validate_source] runs the lexer, the parser, the expansion and the resolver before the
    checkers; [front_end] is that prefix of it.  The passes fit: the resolver never meets
    the pattern it treats as an internal error, and no source makes any of them panic. *)

From S2P Require Import Prelude Machine Diagnostics StateM Limits Ast Lexer Parser ParserProps Expansion ExpansionProps ExpansionTotal Resolver ResolverSpec ResolverDecides ResolverProgram.
#[local] Open Scope string_scope.
#[local] Open Scope list_scope.

(** ** The passes in order *)

Section passes.
Context `{Unicode, TokenText}.

(** [validate_source], before [validate_program]. *)
Definition source_program (src : string) : outcome Diagnostic Program :=
  if (MAX_SOURCE_BYTES <? Z.of_nat (String.length src))%Z then
    Err (new_diagnostic Lex
           ("source is " +:+ display_Z (Z.of_nat (String.length src))
            +:+ " bytes; the current safety limit is " +:+ display_Z MAX_SOURCE_BYTES
            +:+ " bytes") (point 1 1))
  else
    tokens ← lex src;
    program ← parse tokens;
    match program_imports program with
    | import :: _ =>
      Err (with_help
             (new_diagnostic Resolve "module imports require a source path or project directory"
                (import_span import))
             "use `check_path`, `lower_path`, or the `disp` command for multi-file code")
    | [] => Ok program
    end.

(** [validate_program] up to and including the resolver. *)
Definition front_end (src : string)
    : outcome Diagnostic (Program * ExpansionReport * Resolution) :=
  program ← source_program src;
  '(program, report) ← expand program;
  resolution ← resolve program;
  Ok (program, report, resolution).
End passes.

(** ** Errors of the resolver

    [raises m]: the errors of [m] are errors of the program, not of the compiler. *)
Definition of_program (d : Diagnostic) : Prop := diag_kind d ≠ Internal.
Definition raises {A} (m : R A) : Prop := ∀ r d, m r = Err d → of_program d.

Lemma raises_ret {A} (a : A) : raises (mret a).
Proof. by intros r d. Qed.
Lemma raises_panic {A} : raises (panic (A:=A)).
Proof. by intros r d. Qed.
Lemma raises_gets {A} (f : Resolver → A) : raises (gets f).
Proof. by intros r d. Qed.
Lemma raises_modify f : raises (modify f).
Proof. by intros r d. Qed.
Lemma raises_throw {A} e : of_program e → raises (throw (A:=A) e).
Proof. by intros He r d [= <-]. Qed.
Lemma raises_bind {A B} (m : R A) (f : A → R B) :
  raises m → (∀ a, raises (f a)) → raises (m ≫= f).
Proof.
  intros Hm Hf r d. unfold mbind, SM_bind. destruct (m r) as [ [a r'] |e|] eqn:He; simpl.
  - apply Hf.
  - intros [= <-]. by eapply Hm.
  - done.
Qed.
Lemma raises_iterS {A} (f : A → R unit) l : Forall (λ a, raises (f a)) l → raises (iterS f l).
Proof. induction 1; simpl; [apply raises_ret|]. by apply raises_bind. Qed.
Lemma raises_whenS {A} (f : A → R unit) o : on_some (λ a, raises (f a)) o → raises (whenS f o).
Proof. destruct o; simpl; [done|]. intros _. apply raises_ret. Qed.

(** Methods that only read raise errors of the program. *)
Definition fails_well {A} (m : outcome Diagnostic A) : Prop :=
  match m with Err d => of_program d | _ => True end.

Lemma fails_each {A} (f : A → outcome Diagnostic unit) l :
  Forall (λ a, fails_well (f a)) l → fails_well (each f l).
Proof. induction 1 as [|a l Ha _ IH]; simpl; [done|]. by destruct (f a). Qed.

Lemma raises_lift {A} (m : outcome Diagnostic A) : fails_well m → raises (lift m).
Proof. intros Hm r d. unfold lift. destruct m; simpl; [done| |done]. by intros [= <-]. Qed.
Lemma raises_reading m : (∀ r, fails_well (m r)) → raises (reading m).
Proof.
  intros Hm r d. unfold reading, lift. specialize (Hm r). destruct (m r); simpl; [done| |done].
  by intros [= <-].
Qed.

Lemma fails_type r ty : fails_well (resolve_type_name r ty).
Proof.
  induction ty as [name arguments qualifier s IH] using type_induction. simpl.
  pose proof (fails_each _ _ IH) as Hall.
  assert (∀ (b : bool) (d : Diagnostic) (m : outcome Diagnostic unit), of_program d → fails_well m →
            fails_well (if b then Err d else m)) as Hif by by intros [].
  destruct (String.eqb name "str"); [by destruct qualifier, arguments|].
  destruct qualifier; try (destruct (String.eqb name "fn"); [by apply Hif|];
    destruct (expected_arguments r name); [by apply Hif|done]).
  all: destruct arguments as [|a [] ]; try done; destruct (String.eqb name "ptr"); [|done];
    by inversion IH.
Qed.

Lemma fails_trait r ty : fails_well (resolve_trait_name r ty).
Proof.
  unfold resolve_trait_name. destruct (traits r !! type_name ty) as [ [s arity] |]; [|done].
  destruct (negb _); [done|]. apply fails_each, Forall_true, fails_type.
Qed.

Create HintDb raises discriminated.
#[local] Hint Resolve raises_ret raises_panic raises_gets raises_modify : raises.
#[local] Hint Resolve fails_type fails_trait : raises.

(** Walk through a method: split binds and branches, close calls by the hints. *)
Ltac raise_step :=
  match goal with
  | |- raises (_ ≫= _) => apply raises_bind; [|intros ?]
  | |- raises (throw _) => by apply raises_throw
  | |- raises (match ?x with _ => _ end) => destruct x
  | |- raises ((match ?x with _ => _ end) _) => destruct x
  | |- raises (lift (ok_or ?o _)) => apply raises_lift; by destruct o
  | |- raises (reading _) => apply raises_reading; intros ?
  | |- raises (iterS _ _) => apply raises_iterS, Forall_true; intros ?
  | |- fails_well (each _ _) => apply fails_each, Forall_true; intros ?
  | |- _ => progress cbv beta zeta
  | |- _ => solve [auto with raises]
  end.
Ltac raise_steps := repeat raise_step.

Lemma raises_add name kind s : raises (add_symbol name kind s).
Proof. unfold add_symbol. raise_steps. Qed.
Lemma raises_insert_use s id : raises (insert_use s id).
Proof. apply raises_modify. Qed.
Lemma raises_insert_declaration s id : raises (insert_declaration s id).
Proof. apply raises_modify. Qed.
#[local] Hint Resolve raises_add raises_insert_use raises_insert_declaration : raises.

Lemma raises_declare_local name s kind : raises (declare_local name s kind).
Proof. unfold declare_local. raise_steps. Qed.
Lemma raises_identifier name s : raises (resolve_identifier name s).
Proof. unfold resolve_identifier. raise_steps. Qed.
Lemma raises_variant type_name variant s : raises (resolve_variant type_name variant s).
Proof. unfold resolve_variant. raise_steps. Qed.
Lemma raises_schema schema s : raises (schema_fields schema s).
Proof. unfold schema_fields. raise_steps. Qed.
Lemma raises_static type_name field s : raises (resolve_static type_name field s).
Proof. unfold resolve_static. raise_steps. Qed.
Lemma raises_target name s operator : raises (resolve_target name s operator).
Proof. unfold resolve_target. raise_steps. Qed.
Lemma raises_parameter_types ps : raises (resolve_parameter_types ps).
Proof. unfold resolve_parameter_types. raise_steps. Qed.
Lemma raises_optional_type o : raises (resolve_optional_type o).
Proof. unfold resolve_optional_type. raise_steps. Qed.
#[local] Hint Resolve raises_declare_local raises_identifier raises_variant raises_schema : raises.
#[local] Hint Resolve raises_static raises_target raises_parameter_types : raises.
#[local] Hint Resolve raises_optional_type : raises.

Lemma raises_parameters kind ps : raises (declare_parameters kind ps).
Proof. unfold declare_parameters. raise_steps. Qed.
Lemma raises_in_scope m : raises m → raises (in_scope m).
Proof. intros. unfold in_scope, begin_scope, end_scope. raise_steps. Qed.
Lemma raises_with_loop m : raises m → raises (with_loop m).
Proof. intros. unfold with_loop. raise_steps. Qed.
Lemma raises_outside_loops m : raises m → raises (outside_loops m).
Proof. intros. unfold outside_loops. raise_steps. Qed.
Lemma raises_access object field s m : raises m → raises (resolve_access object field s m).
Proof. intros. unfold resolve_access. raise_steps. Qed.
#[local] Hint Resolve raises_parameters raises_in_scope raises_with_loop : raises.
#[local] Hint Resolve raises_outside_loops raises_access : raises.

Lemma raises_data fields e sp : raises (resolve_data_expression fields e sp).
Proof.
  revert sp. induction e using Expression_mind with
    (P0 := λ _, True) (P1 := λ _, True) (P2 := λ _, True) (P3 := λ _, True) (P4 := λ _, True)
    (P5 := λ _, True); try done; intros sp; nested; cbn [resolve_data_expression]; raise_steps.
Qed.
#[local] Hint Resolve raises_data : raises.

Lemma raises_pattern p sp : or_free p = true → raises (resolve_pattern p sp).
Proof.
  revert sp. apply (Pattern_mind
    (λ p, ∀ sp, or_free p = true → raises (resolve_pattern p sp))
    (λ f, match f with mkStructPatternField _ _ p =>
            ∀ sp, or_free (node p) = true → raises (resolve_pattern (node p) sp) end));
    intros; nested; cbn [resolve_pattern or_free] in *; auto with raises; try done.
  - apply raises_iterS. rewrite forallb_forall in H0. rewrite Forall_forall in H |- *.
    intros [name s q] Hin. apply (H _ Hin). by apply (H0 (mkStructPatternField name s q)), list_elem_of_In.
  - apply raises_bind; [auto with raises|]. intros _. apply raises_iterS.
    rewrite forallb_forall in H0. rewrite Forall_forall in H |- *.
    intros a Hin. apply (H _ Hin). by apply (H0 _), list_elem_of_In.
Qed.
#[local] Hint Resolve raises_pattern : raises.

(** ** Expanded syntax raises no internal error *)

Definition expr_raises (e : Expression) : Prop :=
  expanded_expr e = true → ∀ sp, raises (resolve_expression e sp).
Definition statement_raises (s : Statement) : Prop :=
  expanded_statement s = true → ∀ sp, raises (resolve_statement s sp).
Definition block_raises (b : Block) : Prop :=
  expanded_block b = true → raises (resolve_block_contents b).

Lemma raises_all {A} (f : A → R unit) (p : A → bool) (P : A → Prop) l :
  (∀ a, P a → p a = true → raises (f a)) → Forall P l → forallb p l = true →
  raises (iterS f l).
Proof.
  intros Hf Hl Hp. apply raises_iterS. rewrite forallb_forall in Hp. rewrite Forall_forall in *.
  intros a Ha. apply Hf; [by apply Hl|]. by apply Hp, list_elem_of_In.
Qed.

Lemma raises_some (o : option Expr) :
  on_some (λ e : Expr, expr_raises (node e)) o →
  match o with Some e => expanded_expr (node e) | None => true end = true →
  raises (whenS (λ e, resolve_expression (node e) (span e)) o).
Proof. destruct o; intros H He; apply raises_whenS; [by apply H|done]. Qed.

Lemma raises_condition fields (o : option Expr) :
  raises (whenS (λ e, resolve_data_expression fields (node e) (span e)) o).
Proof. apply raises_whenS. destruct o; [apply raises_data|done]. Qed.
Lemma raises_order fields (o : option DataOrder) :
  raises (whenS (λ o, match o with
                      | mkDataOrder key _ _ => resolve_data_expression fields (node key) (span key)
                      end) o).
Proof. apply raises_whenS. destruct o as [ [] |]; [apply raises_data|done]. Qed.
#[local] Hint Resolve raises_some raises_condition raises_order : raises.

Ltac split_bools :=
  repeat match goal with
  | H : (_ && _)%bool = true |- _ => apply andb_true_iff in H as [? ?]
  end.

Ltac syntax_step :=
  match goal with
  | H : expr_raises ?e |- raises (resolve_expression ?e _) => by apply H
  | H : block_raises ?b |- raises (resolve_block_contents ?b) => by apply H
  | H : Forall _ ?l |- raises (iterS _ ?l) =>
    first [ by apply (raises_all _ (λ e : Expr, expanded_expr (node e))
                        (λ e : Expr, expr_raises (node e))); [intros ? Ha ?; apply Ha| |]
          | by apply (raises_all _ (λ s : Stmt, expanded_statement (node s))
                        (λ s : Stmt, statement_raises (node s))); [intros ? Ha ?; apply Ha| |] ]
  | |- raises (in_scope _) => apply raises_in_scope
  | |- raises (with_loop _) => apply raises_with_loop
  | |- raises (outside_loops _) => apply raises_outside_loops
  | |- raises (resolve_access _ _ _ _) => apply raises_access
  | _ => raise_step
  end.

Lemma syntax_raises :
  (∀ e, expr_raises e) ∧
  (∀ o : DataOrder, True) ∧
  (∀ body : ClosureBody,
     match body with CExpression e => expr_raises (node e) | CBlock b => block_raises b end) ∧
  (∀ f : StructFieldValue, match f with mkStructFieldValue _ _ v => expr_raises (node v) end) ∧
  (∀ a : MatchArm, match a with
                   | mkMatchArm _ _ guard v _ =>
                     on_some (λ g : Expr, expr_raises (node g)) guard ∧ expr_raises (node v)
                   end) ∧
  (∀ s, statement_raises s) ∧
  (∀ b, block_raises b).
Proof.
  apply syntax_mind; intros; nested; try done;
    try match goal with
    | |- expr_raises _ => intros Hx sp
    | |- statement_raises _ => intros Hx sp
    | |- block_raises _ => intros Hx
    end;
    cbn [expanded_expr expanded_statement expanded_block] in *; split_bools;
    cbn [resolve_expression resolve_statement resolve_block_contents];
    try by (repeat syntax_step).
  - apply raises_bind; [auto with raises|]. intros types.
    destruct (bool_decide _); [|by apply raises_throw].
    eapply raises_all; [|eassumption..]. intros [field s v] Hv Ha. by apply Hv.
  - apply raises_bind; [by apply H|]. intros _.
    refine (raises_all _ _ _ _ _ H0 H3). intros [pattern group guard v sp'] [Hg Hv] Ha.
    split_bools. by repeat syntax_step.
  - apply raises_bind; [by apply H|]. intros _. apply raises_bind; [by repeat syntax_step|].
    intros _. apply raises_whenS. destruct else_branch; [|done]. simpl in *.
    by apply raises_in_scope, H1.
Qed.

(** ** Whole programs *)

Lemma raises_begin ps : raises (begin_generics ps).
Proof.
  unfold begin_generics. apply raises_bind.
  - apply raises_lift. generalize (∅ : gmap string Span). induction ps as [|p ps IH]; intros scope;
      simpl; [done|]. by case_bool_decide.
  - intros scope. raise_steps.
Qed.

Lemma raises_generics ps (m : R unit) : raises m → raises (_ ← begin_generics ps; m).
Proof. intros Hm. apply raises_bind; [apply raises_begin|done]. Qed.

Lemma raises_self s : raises (insert_self s).
Proof. unfold insert_self. raise_steps. Qed.
Lemma raises_pop : raises pop_generics.
Proof. apply raises_modify. Qed.
Lemma raises_unique names : raises (lift (validate_unique_fields names)).
Proof.
  apply raises_lift. unfold validate_unique_fields. generalize (∅ : gset string).
  induction names as [|[name s] names IH]; intros seen; simpl; [done|]. by case_bool_decide.
Qed.
Lemma raises_type name s arity : raises (declare_type name s arity).
Proof. unfold declare_type. raise_steps. Qed.
#[local] Hint Resolve raises_begin raises_self raises_pop raises_unique raises_type : raises.

(** A body without [Meta] calls and [|] patterns. *)
Definition body_expanded (f : Function) : bool := expanded_block (fn_body f).
Definition bodies_expanded (p : Program) : bool :=
  (forallb body_expanded (program_functions p)
   && forallb (λ i, forallb body_expanded (impl_methods i)) (program_implementations p))%bool.

Lemma raises_function f : body_expanded f = true → raises (resolve_function f).
Proof.
  intros Hf. unfold resolve_function. apply raises_generics.
  apply raises_bind; [auto with raises|]. intros _.
  apply raises_bind; [auto with raises|]. intros _.
  apply raises_bind; [|intros; auto with raises]. apply raises_in_scope.
  apply raises_bind; [auto with raises|]. intros _. by apply syntax_raises.
Qed.

Lemma raises_functions l : forallb body_expanded l = true → raises (iterS resolve_function l).
Proof.
  intros Hl. refine (raises_all _ _ (λ _, True) _ _ (Forall_true _ _ (λ _, I)) Hl).
  intros f _. apply raises_function.
Qed.

Lemma raises_implementation i :
  forallb body_expanded (impl_methods i) = true → raises (resolve_implementation i).
Proof.
  intros Hi. unfold resolve_implementation. apply raises_generics.
  apply raises_bind; [raise_steps|]. intros _.
  apply raises_bind; [raise_steps|]. intros _.
  apply raises_bind; [auto with raises|]. intros _.
  apply raises_bind.
  { apply raises_reading. intros r. apply fails_each, Forall_true. intros [ [name ty] s].
    apply fails_type. }
  intros _. apply raises_bind; [by apply raises_functions|]. intros _. auto with raises.
Qed.

Lemma raises_declarations p :
  raises (iterS declare_trait (program_traits p)) ∧ raises declare_copy
  ∧ raises (iterS declare_struct (program_structs p))
  ∧ raises (iterS declare_enum (program_enums p))
  ∧ raises (iterS declare_function (program_functions p)).
Proof.
  unfold declare_trait, declare_copy, declare_struct, declare_enum, declare_variant,
    declare_function. split_and!; raise_steps.
Qed.

Lemma raises_checks p :
  raises (iterS resolve_struct (program_structs p))
  ∧ raises (iterS resolve_enum (program_enums p))
  ∧ raises (iterS resolve_trait (program_traits p)).
Proof.
  unfold resolve_struct, resolve_enum, resolve_trait, resolve_signature.
  split_and!; raise_steps.
Qed.

Lemma raises_program p : bodies_expanded p = true → raises (resolve_program p).
Proof.
  intros Hp. unfold bodies_expanded in Hp. split_bools.
  destruct (raises_declarations p) as (?&?&?&?&?). destruct (raises_checks p) as (?&?&?).
  unfold resolve_program. repeat (apply raises_bind; [|intros _]); try done.
  - by apply raises_functions.
  - refine (raises_all _ _ (λ _, True) _ _ (Forall_true _ _ (λ _, I)) H0).
    intros i _. apply raises_implementation.
Qed.

(** ** The passes together *)

(** What the parser guarantees of an external function: it has no body. *)
Lemma parsed_external `{TokenText} f :
  ParserForm.function_ok f = true → is_Some (fn_external f) → body_expanded f = true.
Proof.
  unfold ParserForm.function_ok, ParserForm.external_ok, body_expanded. intros Hf [x Hx].
  rewrite Hx in Hf. split_bools. destruct (fn_body f) as [ [|s l] sp]; [done|].
  by rewrite orb_false_l in *.
Qed.

Section parsed.
Context `{Unicode, TokenText}.

Lemma yields_parsed f :
  ParserForm.function_ok f = true →
  yields (λ f', body_expanded f' = true) (expand_function f).
Proof.
  intros Hf. unfold expand_function. destruct (fn_external f) eqn:He.
  - apply ensures_ret. apply parsed_external; [done|]. by rewrite He.
  - eapply ensures_bind; [apply yields_body|]. intros b Hb. by apply ensures_ret.
Qed.

Lemma yields_parsed_functions l :
  forallb ParserForm.function_ok l = true →
  yields (λ l, forallb body_expanded l = true) (mapS expand_function l).
Proof.
  intros Hl. eapply ensures_mono; [apply ensures_mapS|intros l'; apply forall_forallb].
  apply Forall_forall. intros f Hf. rewrite forallb_forall in Hl.
  by apply yields_parsed, Hl, list_elem_of_In.
Qed.

Lemma yields_parsed_items p :
  ParserForm.program_ok p = true →
  yields (λ '(functions, implementations),
      forallb body_expanded functions = true
      ∧ forallb (λ i, forallb body_expanded (impl_methods i)) implementations = true)
    (expand_items p).
Proof.
  intros Hp. unfold ParserForm.program_ok in Hp. split_bools.
  eapply ensures_bind; [by apply yields_parsed_functions|]. intros fs Hfs.
  apply (ensures_bind _ _ (λ l, forallb (λ i, forallb body_expanded (impl_methods i)) l = true));
    [|intros impls Himpls; by apply ensures_ret].
  eapply ensures_mono; [apply ensures_mapS|intros l'; apply forall_forallb].
  apply Forall_forall. intros i Hi. cbv beta.
  eapply ensures_bind; [|intros ms Hms; apply ensures_ret; exact Hms].
  apply yields_parsed_functions.
  match goal with H : forallb ParserForm.implementation_ok _ = true |- _ =>
    rewrite forallb_forall in H; specialize (H i ltac:(by apply list_elem_of_In)) as Hi' end.
  unfold ParserForm.implementation_ok in Hi'. by split_bools.
Qed.

Lemma expand_parsed p :
  ParserForm.program_ok p = true → safe (expand p) (λ '(p', _), bodies_expanded p' = true).
Proof.
  intros Hp. unfold expand. pose proof (yields_parsed_items p Hp _ initial_within) as H1.
  destruct (expand_items p initial_expander) as [ [ [fs impls] x] | | ]; simpl in *; [|done..].
  destruct H1 as [_ [Hf Hi] ]. unfold bodies_expanded. simpl. by rewrite Hf, Hi.
Qed.

Lemma source_program_safe src :
  safe (source_program src) (λ p, ParserForm.program_ok p = true).
Proof.
  unfold source_program. case_match; [done|].
  pose proof (parse_source_safe src) as Hs. unfold parse_source in Hs.
  destruct (lex src) as [ts| |]; simpl in *; [|done..].
  destruct (parse ts) as [p| |]; simpl in *; [|done..]. by destruct (program_imports p).
Qed.

(** C16: The front end is sound on every source text.  Lexing, parsing, expansion and name
    resolution together neither panic nor diverge.  The program they accept is the expansion
    of the parsed source, all its bodies are expanded and it is well scoped; a diagnostic is
    the one of the lexer, the parser or the expansion, or else the expanded program is not
    well scoped and the diagnostic speaks of it: the resolver's own internal error, an
    unexpanded [|] pattern, is never raised. *)
Theorem front_end_sound (src : string) :
  match front_end src with
  | Ok (p, report, _) =>
    (p ← source_program src; expand p) = Ok (p, report)
    ∧ bodies_expanded p = true ∧ scoped_program p
  | Err d =>
    match p ← source_program src; expand p with
    | Ok (p, _) => diag_kind d ≠ Internal ∧ ¬ scoped_program p
    | Err d' => d' = d
    | Panic => False
    end
  | Panic => False
  end.
Proof.
  unfold front_end. pose proof (source_program_safe src) as Hs.
  destruct (source_program src) as [p| |]; simpl in *; [|done..].
  pose proof (expand_parsed p Hs) as He.
  destruct (expand p) as [ [p' r] | | ]; simpl in *; [|done..].
  pose proof (program_phase p') as Hr. pose proof (raises_program p' He) as Hd.
  unfold phase in Hr. unfold resolve. specialize (Hd new_resolver).
  destruct (resolve_program p' new_resolver) as [ [ [] r'] |d| ]; simpl in *; [|..|done].
  - by destruct Hr.
  - split; [by apply Hd|done].
Qed.
End parsed.
