(* ===== verification/FrontendExamples.v ===== *)
(** * Inputs on which expansion does not do what its documentation says

    [docs/language/COMPTIME.md] promises that generated syntax is capped at
    [MAX_GENERATED_NODES] and that [Meta.map] substitutes the references to its parameter.
    The charge ignores the blocks of closures and the arms copied for [|] patterns, and the
    substitution does not enter the blocks of closures. *)

From S2P Require Import Prelude Machine Diagnostics StateM Limits Ast Lexer LexerProps Parser ParserProps Expansion ExpansionProps ExpansionTotal Resolver ResolverSpec Frontend.
#[local] Open Scope string_scope.
#[local] Open Scope list_scope.
#[local] Open Scope Z_scope.

(** ** The size of generated syntax *)

(** Every expression of a syntax tree, those in blocks included. *)
Fixpoint real_nodes (e : Expression) : Z :=
  let nodes (e : Expr) := real_nodes (node e) in
  let optional (o : option Expr) :=
    match o with Some e => real_nodes (node e) | None => 0 end in
  let sum (l : list Expr) := foldr Z.add 0 (map (λ e, real_nodes (node e)) l) in
  1 + match e with
  | EArray values => sum values
  | EStructConstruct _ _ fields =>
    foldr Z.add 0 (map (λ f, match f with
                             | mkStructFieldValue _ _ v => real_nodes (node v)
                             end) fields)
  | EFieldAccess e _ _ | ETry e | EAwait e | ESpawn e | EMove e | EBorrow _ e
  | EDereference e | EUnary _ e => nodes e
  | EIndex object index => nodes object + nodes index
  | ESubslice object start end_ => nodes object + nodes start + nodes end_
  | EMatch value arms =>
    nodes value
    + foldr Z.add 0 (map (λ arm,
        match arm with
        | mkMatchArm _ _ guard value _ =>
          match guard with Some g => real_nodes (node g) | None => 0 end
          + real_nodes (node value)
        end) arms)
  | EBinary l _ r => nodes l + nodes r
  | ECall callee arguments => nodes callee + sum arguments
  | EClosure _ _ _ body =>
    match body with CExpression e => nodes e | CBlock b => block_nodes b end
  | EDataStore path => optional path
  | EDataWrite value store _ => nodes value + nodes store
  | EDataQuery _ _ _ aggregate store predicate order limit =>
    optional aggregate + nodes store + optional predicate
    + match order with Some (mkDataOrder key _ _) => nodes key | None => 0 end
    + optional limit
  | EDataRemove _ _ store predicate => nodes store + nodes predicate
  | EInteger _ | EFloat _ | EString _ | ECharacter _ | EBool _ | EIdentifier _ => 0
  end
with statement_nodes (s : Statement) : Z :=
  let nodes (e : Expr) := real_nodes (node e) in
  match s with
  | SBinding _ _ _ _ value | SReturn value =>
    match value with Some e => nodes e | None => 0 end
  | SAssignment _ _ _ value | SExpression value => nodes value
  | SPlaceAssignment target _ value => nodes target + nodes value
  | SIf condition then_branch else_branch =>
    nodes condition + block_nodes then_branch
    + match else_branch with Some b => block_nodes b | None => 0 end
  | SWhile condition body => nodes condition + block_nodes body
  | SFor _ _ start end_ _ body => nodes start + nodes end_ + block_nodes body
  | SForEach _ _ iterable body => nodes iterable + block_nodes body
  | SLoop body | SUnsafe _ body => block_nodes body
  | SBreak | SContinue => 0
  end
with block_nodes (b : Block) : Z :=
  match b with
  | mkBlock statements _ => foldr Z.add 0 (map (λ s, statement_nodes (node s)) statements)
  end.

(** What a source generates: the nodes charged and the nodes there are. *)
Definition generated (src : string) : option (Z * Z) :=
  match p ← @source_program ascii_unicode ascii_text src; expand p with
  | Ok (p, r) =>
    Some (generated_nodes r,
          foldr Z.add 0 (map (λ f, block_nodes (fn_body f)) (program_functions p)))
  | _ => None
  end.

(** Six nested repetitions of a closure with a block. *)
Fixpoint nested_repeat (n : nat) : string :=
  match n with
  | O => "0"
  | S n =>
    "Meta.repeat(8, |x: int| -> int { let y = " +:+ nested_repeat n +:+ " return 0 })"
  end.

(** The blocks of closures are not charged: 102 nodes on the account stand for almost
    nine hundred thousand. *)
Theorem blocks_are_not_charged :
  generated ("fn main() { let a = " +:+ nested_repeat 6 +:+ " }") = Some (102, 898777).
Proof. vm_compute. reflexivity. Qed.

(** [n] nested matches, each with one arm of two alternatives. *)
Fixpoint nested_match (n : nat) : string :=
  match n with
  | O => "0"
  | S n => "match x { 1 | 2 => " +:+ nested_match n +:+ ", _ => 0 }"
  end.

(** The arms copied for [|] patterns are not charged either: the size of the program
    doubles with every level, and nothing is on the account. *)
Theorem alternatives_are_not_charged :
  generated ("fn main() { let x = 1 let a = " +:+ nested_match 16 +:+ " }") = Some (0, 262142).
Proof. vm_compute. reflexivity. Qed.

(** ** The parameter of a mapper *)

Definition front_end_error (src : string) : option string :=
  match @front_end ascii_unicode ascii_text src with
  | Err d => Some (diag_message d)
  | _ => None
  end.

(** A reference in the expression of a closure is substituted; in the block of a closure it
    is left behind, and the program is rejected for an unknown name. *)
Theorem map_skips_blocks :
  front_end_error "fn main() { let a = Meta.map(2, |i: int| |x: int| i) }" = None
  ∧ front_end_error "fn main() { let a = Meta.map(2, |i: int| |x: int| -> int { return i }) }"
    = Some "unknown name `i`".
Proof. vm_compute. split; reflexivity. Qed.
