(* ===== verification/Link.v ===== *)
(** * Linking the modules of a project ([compiler/src/project.rs], [link])

    A loaded project is a set of units, one per module, and an order in which every unit
    comes after the units it imports.  Linking gives every item of a module other than the
    root a canonical name, computes what each module exports and sees, and rewrites the
    names of every unit; the linked program is the concatenation of the units. *)

From S2P Require Import Prelude Machine Diagnostics BTree Ast Expansion.
#[local] Open Scope string_scope.
#[local] Open Scope list_scope.

(** ** Data *)

Record ModuleUnit := mkUnit {
  unit_path : list string;
  unit_import_targets : list string;
  unit_program : Program;
  unit_root : bool }.

Inductive DefinitionKind := DItem | DEnum | DVariant (owner : string).

Record Defn := mkDefn {
  defn_canonical : string;
  defn_kind : DefinitionKind;
  defn_span : Span }.

Abbreviation Namespace := (btree Defn).
Abbreviation Variants := (gmap (string * string) string).

Definition is_variant (d : Defn) : bool :=
  match defn_kind d with DVariant _ => true | _ => false end.
Definition is_enum (d : Defn) : bool :=
  match defn_kind d with DEnum => true | _ => false end.

Definition project_error (message : string) (s : Span) : Diagnostic :=
  new_diagnostic Resolve message s.

(** ** Canonical names *)

Definition canonical_name_parts (root : bool) (path : list string) (name : string) : string :=
  if root then name else "$disp$" +:+ String.concat "$" path +:+ "$" +:+ name.
Definition canonical_name (u : ModuleUnit) (name : string) : string :=
  canonical_name_parts (unit_root u) (unit_path u) name.

Definition canonical_variant_parts (root : bool) (path : list string) (owner variant : string)
    : string :=
  if root then variant
  else "$disp$" +:+ String.concat "$" path +:+ "$" +:+ owner +:+ "$" +:+ variant.
Definition canonical_variant (u : ModuleUnit) (owner variant : string) : string :=
  canonical_variant_parts (unit_root u) (unit_path u) owner variant.

(** ** Definitions of a module *)

Definition insert_definition (definitions : Namespace) (name : string) (d : Defn)
    : outcome Diagnostic Namespace :=
  match bt_get name definitions with
  | Some previous =>
    Err (with_help (project_error ("duplicate module item `" +:+ name +:+ "`") (defn_span d))
           ("the previous declaration begins at "
            +:+ display_Z (line (start (defn_span previous))) +:+ ":"
            +:+ display_Z (column (start (defn_span previous)))))
  | None => Ok (bt_insert name d definitions)
  end.

Definition insert_item (u : ModuleUnit) (definitions : Namespace) (name : string) (s : Span)
    : outcome Diagnostic Namespace :=
  insert_definition definitions name (mkDefn (canonical_name u name) DItem s).

(** A variant is a name of the module unless two enums of the module have it. *)
Definition define_variant (u : ModuleUnit) (owner : string)
    (st : Namespace * Variants) (v : VariantDeclaration) : Namespace * Variants :=
  let '(definitions, variants) := st in
  let enum_name := canonical_name u owner in
  let canonical := canonical_variant u owner (variant_name v) in
  let variants := <[(enum_name, variant_name v) := canonical]> variants in
  let d := mkDefn canonical (DVariant enum_name) (variant_name_span v) in
  match bt_get (variant_name v) definitions with
  | None => (bt_insert (variant_name v) d definitions, variants)
  | Some previous =>
    if is_variant previous then (bt_remove (variant_name v) definitions, variants)
    else (definitions, variants)
  end.

Definition define_enum (u : ModuleUnit) (st : Namespace * Variants) (d : EnumDeclaration)
    : outcome Diagnostic (Namespace * Variants) :=
  definitions ← insert_definition st.1 (enum_name d)
                  (mkDefn (canonical_name u (enum_name d)) DEnum (enum_name_span d));
  Ok (fold_left (define_variant u (enum_name d)) (enum_variants d) (definitions, st.2)).

(** The definitions of one unit, and the variants of all units so far. *)
Definition own_definitions (u : ModuleUnit) (variants : Variants)
    : outcome Diagnostic (Namespace * Variants) :=
  let p := unit_program u in
  definitions ← for_each (λ ds d, insert_item u ds (struct_name d) (struct_name_span d))
                  (program_structs p) [];
  '(definitions, variants) ← for_each (define_enum u) (program_enums p) (definitions, variants);
  definitions ← for_each (λ ds d, insert_item u ds (trait_name d) (trait_name_span d))
                  (program_traits p) definitions;
  definitions ← for_each (λ ds f, insert_item u ds (fn_name f) (fn_name_span f))
                  (program_functions p) definitions;
  Ok (definitions, variants).

Definition own_step (st : btree Namespace * Variants) (entry : string * ModuleUnit)
    : outcome Diagnostic (btree Namespace * Variants) :=
  '(definitions, variants) ← own_definitions entry.2 st.2;
  Ok (bt_insert entry.1 definitions st.1, variants).

Definition all_definitions (units : btree ModuleUnit)
    : outcome Diagnostic (btree Namespace * Variants) := for_each own_step units ([], ∅).

(** ** What a module exports and sees *)

Definition insert_visible (surface : Namespace) (name : string) (d : Defn) (s : Span)
    : outcome Diagnostic Namespace :=
  match bt_get name surface with
  | Some previous =>
    if String.eqb (defn_canonical previous) (defn_canonical d) then Ok surface
    else
      Err (with_help
             (project_error
                ("module namespace contains conflicting items named `" +:+ name +:+ "`") s)
             "use selective imports so every visible name has one unambiguous meaning")
  | None => Ok (bt_insert name d surface)
  end.

Definition module_text (import : ImportDeclaration) : string :=
  String.concat "." (map node (import_path import)).

Definition import_item (source : Namespace) (import : ImportDeclaration)
    (destination : Namespace) (item : ImportItem) : outcome Diagnostic Namespace :=
  d ← ok_or (bt_get (item_name item) source)
        (project_error
           ("module `" +:+ module_text import +:+ "` has no public item `"
            +:+ item_name item +:+ "`") (item_name_span item));
  insert_visible destination (item_alias item) d (item_alias_span item).

Definition import_surface (destination source : Namespace) (import : ImportDeclaration)
    : outcome Diagnostic Namespace :=
  match import_items import with
  | Some items => for_each (import_item source import) items destination
  | None =>
    for_each (λ destination entry,
                insert_visible destination entry.1 entry.2 (import_span import))
      source destination
  end.

(** The variants of a public enum are public. *)
Definition export_variant (variants : Variants) (d : Defn) (surface : Namespace)
    (v : VariantDeclaration) : outcome Diagnostic Namespace :=
  canonical ← expect (variants !! (defn_canonical d, variant_name v));
  insert_visible surface (variant_name v)
    (mkDefn canonical (DVariant (defn_canonical d)) (variant_name_span v)) (variant_name_span v).

Definition export_item (u : ModuleUnit) (definitions : Namespace) (variants : Variants)
    (surface : Namespace) (public : Spanned string) : outcome Diagnostic Namespace :=
  d ← ok_or (bt_get (node public) definitions)
        (project_error ("public item `" +:+ node public +:+ "` has no declaration")
           (span public));
  surface ← insert_visible surface (node public) d (span public);
  if is_enum d then
    enum ← expect (List.find (λ e, String.eqb (enum_name e) (node public))
                     (program_enums (unit_program u)));
    for_each (export_variant variants d) (enum_variants enum) surface
  else Ok surface.

(** [exports[dependency]] panics unless the dependency was exported before. *)
Definition import_from (exports : btree Namespace) (destination : Namespace)
    (entry : ImportDeclaration * string) : outcome Diagnostic Namespace :=
  source ← expect (bt_get entry.2 exports);
  import_surface destination source entry.1.

(** [program.imports.iter().zip(&unit.import_targets)]. *)
Definition unit_imports (u : ModuleUnit) : list (ImportDeclaration * string) :=
  zip (program_imports (unit_program u)) (unit_import_targets u).

Definition export_surface (u : ModuleUnit) (definitions : Namespace) (variants : Variants)
    (exports : btree Namespace) : outcome Diagnostic Namespace :=
  surface ← for_each (export_item u definitions variants)
              (program_public_items (unit_program u)) [];
  for_each (import_from exports)
    (List.filter (λ entry, import_public entry.1) (unit_imports u)) surface.

Definition export_step (units : btree ModuleUnit) (own : btree Namespace) (variants : Variants)
    (exports : btree Namespace) (key : string) : outcome Diagnostic (btree Namespace) :=
  u ← expect (bt_get key units);
  definitions ← expect (bt_get key own);
  surface ← export_surface u definitions variants exports;
  Ok (bt_insert key surface exports).

Definition all_exports (units : btree ModuleUnit) (own : btree Namespace) (variants : Variants)
    (order : list string) : outcome Diagnostic (btree Namespace) :=
  for_each (export_step units own variants) order [].

Definition namespace_of (u : ModuleUnit) (own : Namespace) (exports : btree Namespace)
    : outcome Diagnostic Namespace :=
  for_each (import_from exports) (unit_imports u) own.

(** ** The public interface of a module *)

Section public.
Context (namespace : Namespace) (public : gset string).

Definition exposes_private (ty : TypeName) : Diagnostic :=
  with_help
    (project_error ("public API exposes private type or trait `" +:+ type_name ty +:+ "`")
       (type_span ty))
    "mark the declaration `pub` or publicly re-export the imported type".

Fixpoint validate_public_type (generics : gset string) (ty : TypeName)
    : outcome Diagnostic unit :=
  match ty with
  | mkTypeName name arguments _ _ =>
    _ ← for_each (λ _ argument, validate_public_type generics argument) arguments tt;
    if (String.eqb name "Self" || bool_decide (name ∈ generics))%bool then Ok tt
    else
      match bt_get name namespace with
      | Some d =>
        if (negb (is_variant d) && negb (bool_decide (defn_canonical d ∈ public)))%bool
        then Err (exposes_private ty) else Ok tt
      | None => Ok tt
      end
  end.

Definition generic_names (parameters : list GenericParameter) : gset string :=
  list_to_set (map generic_name parameters).

Definition validate_types (generics : gset string) (types : list TypeName)
    : outcome Diagnostic unit :=
  for_each (λ _ ty, validate_public_type generics ty) types tt.

Definition validate_generic_constraints (parameters : list GenericParameter)
    (generics : gset string) : outcome Diagnostic unit :=
  for_each (λ _ p, validate_types generics (generic_constraints p)) parameters tt.

Definition validate_optional_type (generics : gset string) (ty : option TypeName)
    : outcome Diagnostic unit :=
  match ty with Some ty => validate_public_type generics ty | None => Ok tt end.

Definition validate_struct (d : StructDeclaration) : outcome Diagnostic unit :=
  let generics := generic_names (struct_generics d) in
  _ ← validate_generic_constraints (struct_generics d) generics;
  for_each (λ _ f, validate_public_type generics (field_ty f)) (struct_fields d) tt.

Definition validate_enum (d : EnumDeclaration) : outcome Diagnostic unit :=
  let generics := generic_names (enum_generics d) in
  _ ← validate_generic_constraints (enum_generics d) generics;
  for_each (λ _ v, validate_types generics (variant_payload v)) (enum_variants d) tt.

Definition validate_method (trait_generics : gset string) (m : FunctionSignature)
    : outcome Diagnostic unit :=
  let generics := trait_generics ∪ generic_names (sig_generics m) in
  _ ← validate_generic_constraints (sig_generics m) generics;
  _ ← for_each (λ _ p, validate_public_type generics (parameter_ty p)) (sig_parameters m) tt;
  validate_optional_type generics (sig_return_type m).

Definition validate_trait (d : TraitDeclaration) : outcome Diagnostic unit :=
  let generics := generic_names (trait_generics d) in
  _ ← validate_generic_constraints (trait_generics d) generics;
  for_each (λ _ m, validate_method generics m) (trait_methods d) tt.

Definition validate_function (f : Function) : outcome Diagnostic unit :=
  let generics := generic_names (fn_generics f) in
  _ ← validate_generic_constraints (fn_generics f) generics;
  _ ← for_each (λ _ p, validate_public_type generics (parameter_ty p)) (fn_parameters f) tt;
  validate_optional_type generics (fn_return_type f).
End public.

(** [if !public_names.contains(name) { continue; }]. *)
Definition when_public {A} (names : gset string) (name : A → string)
    (validate : A → outcome Diagnostic unit) (l : list A) : outcome Diagnostic unit :=
  for_each (λ _ a, if bool_decide (name a ∈ names) then validate a else Ok tt) l tt.

Definition validate_public_api (u : ModuleUnit) (namespace exports : Namespace)
    : outcome Diagnostic unit :=
  let p := unit_program u in
  let names : gset string := list_to_set (map node (program_public_items p)) in
  let public : gset string := list_to_set (map (λ entry, defn_canonical entry.2) exports) in
  _ ← when_public names struct_name (validate_struct namespace public) (program_structs p);
  _ ← when_public names enum_name (validate_enum namespace public) (program_enums p);
  _ ← when_public names trait_name (validate_trait namespace public) (program_traits p);
  when_public names fn_name (validate_function namespace public) (program_functions p).

(** ** Renaming

    The scopes and generics of the [Renamer] are stacks, the innermost first; its methods
    leave the stacks as they found them, except that a binding adds a name to the
    innermost scope.  A statement is only renamed inside a block, which has pushed that
    scope, so a statement takes the innermost scope apart from the others and returns it. *)

Abbreviation NameScope := (gset string).

Section renamer.
Context (namespace : Namespace) (variants : Variants).

Definition in_scopes (scopes : list NameScope) (name : string) : bool :=
  existsb (λ scope, bool_decide (name ∈ scope)) scopes.

(** A name that is looked up whatever kind of item it is. *)
Definition rename_item (name : string) : string :=
  match bt_get name namespace with Some d => defn_canonical d | None => name end.

Section generics.
Context (generics : list NameScope).

Fixpoint rename_type (ty : TypeName) : TypeName :=
  match ty with
  | mkTypeName name arguments qualifier s =>
    let arguments := map rename_type arguments in
    let name :=
      if (String.eqb name "Self" || in_scopes generics name)%bool then name
      else
        match bt_get name namespace with
        | Some d => if is_variant d then name else defn_canonical d
        | None => name
        end in
    mkTypeName name arguments qualifier s
  end.

Definition rename_parameter (p : Param) : Param :=
  mkParam (parameter_name p) (parameter_name_span p) (rename_type (parameter_ty p)).

Definition rename_constraints (p : GenericParameter) : GenericParameter :=
  mkGenericParameter (generic_name p) (generic_name_span p)
    (map rename_type (generic_constraints p)).

(** The tree [rename_pattern] leaves; the names it collects are those of
    [pattern_binding_names]. *)
Definition rename_variant (type_name : option string) (variant : string)
    : option string * string :=
  match type_name with
  | Some owner =>
    match bt_get owner namespace with
    | Some d =>
      (Some (defn_canonical d), default variant (variants !! (defn_canonical d, variant)))
    | None => (type_name, variant)
    end
  | None =>
    match bt_get variant namespace with
    | Some d => (None, if is_variant d then defn_canonical d else variant)
    | None => (None, variant)
    end
  end.

Fixpoint rename_pattern (p : Pattern) : Pattern :=
  match p with
  | POr alternatives =>
    POr (map (λ a, mkSpanned (rename_pattern (node a)) (span a)) alternatives)
  | PStruct type_name fields rest =>
    PStruct (rename_item type_name)
      (map (λ f, match f with
                 | mkStructPatternField name name_span p =>
                   mkStructPatternField name name_span
                     (mkSpanned (rename_pattern (node p)) (span p))
                 end) fields) rest
  | PVariant type_name variant arguments =>
    let '(type_name, variant) := rename_variant type_name variant in
    PVariant type_name variant
      (map (λ a, mkSpanned (rename_pattern (node a)) (span a)) arguments)
  | _ => p
  end.

(** The field of an access: a variant, when the object names an enum. *)
Definition rename_field (scopes : list NameScope) (object : Expression) (field : string)
    : string :=
  match object with
  | EIdentifier owner =>
    if in_scopes scopes owner then field
    else
      match bt_get owner namespace with
      | Some d => if is_enum d then default field (variants !! (defn_canonical d, field))
                  else field
      | None => field
      end
  | _ => field
  end.

Definition parameter_scope (parameters : list Param) : NameScope :=
  list_to_set (map parameter_name parameters).

Fixpoint rename_expr (scopes : list NameScope) (e : Expression) {struct e} : Expression :=
  let rename (e : Expr) := mkSpanned (rename_expr scopes (node e)) (span e) in
  match e with
  | EArray values => EArray (map rename values)
  | EClosure move_captures parameters return_type body =>
    let inner := parameter_scope parameters :: scopes in
    EClosure move_captures (map rename_parameter parameters) (option_map rename_type return_type)
      (match body with
       | CExpression value =>
         CExpression (mkSpanned (rename_expr inner (node value)) (span value))
       | CBlock block => CBlock (rename_block inner ∅ block)
       end)
  | EIdentifier name =>
    EIdentifier (if in_scopes scopes name then name else rename_item name)
  | EStructConstruct name name_span fields =>
    EStructConstruct (rename_item name) name_span
      (map (λ f, match f with
                 | mkStructFieldValue field field_span value =>
                   mkStructFieldValue field field_span (rename value)
                 end) fields)
  | EDataWrite value store replace => EDataWrite (rename value) (rename store) replace
  | EDataStore path => EDataStore (option_map rename path)
  | EDataQuery kind schema schema_span aggregate store predicate order limit =>
    EDataQuery kind (rename_item schema) schema_span (option_map rename aggregate)
      (rename store) (option_map rename predicate)
      (option_map (λ o, match o with
                        | mkDataOrder key descending s => mkDataOrder (rename key) descending s
                        end) order)
      (option_map rename limit)
  | EDataRemove schema schema_span store predicate =>
    EDataRemove (rename_item schema) schema_span (rename store) (rename predicate)
  | EFieldAccess object field field_span =>
    EFieldAccess (rename object) (rename_field scopes (node object) field) field_span
  | EIndex object index => EIndex (rename object) (rename index)
  | ESubslice object start end_ => ESubslice (rename object) (rename start) (rename end_)
  | EMatch value arms =>
    EMatch (rename value)
      (map (λ arm,
         match arm with
         | mkMatchArm pattern group guard value s =>
           let inner := pattern_binding_names (node pattern) :: scopes in
           let rename (e : Expr) := mkSpanned (rename_expr inner (node e)) (span e) in
           mkMatchArm (mkSpanned (rename_pattern (node pattern)) (span pattern)) group
             (option_map rename guard) (rename value) s
         end) arms)
  | ETry value => ETry (rename value)
  | EAwait value => EAwait (rename value)
  | ESpawn value => ESpawn (rename value)
  | EMove value => EMove (rename value)
  | EDereference value => EDereference (rename value)
  | EUnary operator value => EUnary operator (rename value)
  | EBorrow mutable target => EBorrow mutable (rename target)
  | EBinary lhs operator rhs => EBinary (rename lhs) operator (rename rhs)
  | ECall callee arguments => ECall (rename callee) (map rename arguments)
  | EInteger _ | EFloat _ | EString _ | ECharacter _ | EBool _ => e
  end
with rename_statement (scopes : list NameScope) (local : NameScope) (s : Statement) {struct s}
    : Statement * NameScope :=
  let inner := local :: scopes in
  let rename (e : Expr) := mkSpanned (rename_expr inner (node e)) (span e) in
  match s with
  | SBinding kind name name_span annotation value =>
    (SBinding kind name name_span (option_map rename_type annotation) (option_map rename value),
     {[name]} ∪ local)
  | SAssignment name name_span operator value =>
    (SAssignment name name_span operator (rename value), local)
  | SPlaceAssignment target operator value =>
    (SPlaceAssignment (rename target) operator (rename value), local)
  | SExpression value => (SExpression (rename value), local)
  | SReturn value => (SReturn (option_map rename value), local)
  | SIf condition then_branch else_branch =>
    (SIf (rename condition) (rename_block inner ∅ then_branch)
       (option_map (rename_block inner ∅) else_branch), local)
  | SWhile condition body => (SWhile (rename condition) (rename_block inner ∅ body), local)
  | SFor name name_span start end_ inclusive body =>
    (SFor name name_span (rename start) (rename end_) inclusive
       (rename_block inner {[name]} body), local)
  | SForEach name name_span iterable body =>
    (SForEach name name_span (rename iterable) (rename_block inner {[name]} body), local)
  | SLoop body => (SLoop (rename_block inner ∅ body), local)
  | SUnsafe capabilities body => (SUnsafe capabilities (rename_block inner ∅ body), local)
  | SBreak => (SBreak, local)
  | SContinue => (SContinue, local)
  end
with rename_block (scopes : list NameScope) (local : NameScope) (b : Block) {struct b} : Block :=
  match b with
  | mkBlock statements s =>
    mkBlock
      ((fix rename_all (local : NameScope) (statements : list Stmt) : list Stmt :=
          match statements with
          | [] => []
          | st :: statements =>
            let r := rename_statement scopes local (node st) in
            mkSpanned r.1 (span st) :: rename_all r.2 statements
          end) local statements) s
  end.
End generics.

Definition rename_generics (generics : list GenericParameter) : list GenericParameter :=
  map (rename_constraints [generic_names generics]) generics.

(** The generics of the function and the scope of its parameters are the only ones. *)
Definition rename_function (f : Function) : Function :=
  let generics := [generic_names (fn_generics f)] in
  mkFunction (fn_asynchronous f) (fn_name f) (fn_name_span f)
    (map (rename_constraints generics) (fn_generics f))
    (map (rename_parameter generics) (fn_parameters f))
    (option_map (rename_type generics) (fn_return_type f))
    (fn_capabilities f)
    (rename_block generics [parameter_scope (fn_parameters f)] ∅ (fn_body f))
    (fn_external f) (fn_exported f) (fn_span f).
End renamer.

(** ** Renaming a unit *)

Section unit.
Context (namespace : Namespace) (variants : Variants) (root : bool) (path : list string).

Definition canonical (name : string) : string := canonical_name_parts root path name.

Definition rename_struct (d : StructDeclaration) : StructDeclaration :=
  mkStructDeclaration (canonical (struct_name d)) (struct_name_span d) (struct_data d)
    (struct_c_abi d) (rename_generics namespace (struct_generics d))
    (map (λ f, mkFieldDeclaration (field_name f) (field_name_span f)
                 (rename_type namespace [] (field_ty f)) (field_primary f) (field_unique f)
                 (field_indexed f) (field_migration_from f) (field_migration_default f))
       (struct_fields d))
    (struct_data_constraints d) (struct_span d).

Definition rename_enum (d : EnumDeclaration) : EnumDeclaration :=
  mkEnumDeclaration (canonical (enum_name d)) (enum_name_span d)
    (rename_generics namespace (enum_generics d))
    (map (λ v, mkVariantDeclaration
                 (canonical_variant_parts root path (enum_name d) (variant_name v))
                 (variant_name_span v) (map (rename_type namespace []) (variant_payload v)))
       (enum_variants d))
    (enum_span d).

Definition rename_signature (m : FunctionSignature) : FunctionSignature :=
  mkFunctionSignature (sig_asynchronous m) (sig_name m) (sig_name_span m)
    (rename_generics namespace (sig_generics m))
    (map (rename_parameter namespace []) (sig_parameters m))
    (option_map (rename_type namespace []) (sig_return_type m))
    (sig_capabilities m) (sig_span m).

Definition rename_trait (d : TraitDeclaration) : TraitDeclaration :=
  mkTraitDeclaration (canonical (trait_name d)) (trait_name_span d)
    (rename_generics namespace (trait_generics d)) (trait_associated_types d)
    (map rename_signature (trait_methods d)) (trait_span d).

Definition rename_implementation (i : Implementation) : Implementation :=
  mkImplementation (rename_generics namespace (impl_generics i))
    (option_map (rename_type namespace []) (impl_trait_name i))
    (rename_type namespace [] (impl_target i))
    (map (λ '(name, ty, s), (name, rename_type namespace [] ty, s)) (impl_associated_types i))
    (map (rename_function namespace variants) (impl_methods i))
    (impl_span i).

(** A top-level function: its contents, then its own name. *)
Definition rename_top_level (f : Function) : Function :=
  let f := rename_function namespace variants f in
  mkFunction (fn_asynchronous f) (canonical (fn_name f)) (fn_name_span f) (fn_generics f)
    (fn_parameters f) (fn_return_type f) (fn_capabilities f) (fn_body f) (fn_external f)
    (fn_exported f) (fn_span f).

Definition rename_program (p : Program) : Program :=
  mkProgram (program_source_files p) (program_module p) (program_imports p)
    (program_public_items p) (map rename_struct (program_structs p))
    (map rename_enum (program_enums p)) (map rename_trait (program_traits p))
    (map rename_implementation (program_implementations p))
    (map rename_top_level (program_functions p)).
End unit.

Definition rename_unit (namespace : Namespace) (variants : Variants) (u : ModuleUnit)
    : ModuleUnit :=
  mkUnit (unit_path u) (unit_import_targets u)
    (rename_program namespace variants (unit_root u) (unit_path u) (unit_program u))
    (unit_root u).

(** ** Linking *)

Definition link_step (own exports : btree Namespace) (variants : Variants)
    (units : btree ModuleUnit) (key : string) : outcome Diagnostic (btree ModuleUnit) :=
  u ← expect (bt_get key units);
  definitions ← expect (bt_get key own);
  namespace ← namespace_of u definitions exports;
  surface ← expect (bt_get key exports);
  _ ← validate_public_api u namespace surface;
  Ok (bt_insert key (rename_unit namespace variants u) units).

Definition append_program (linked p : Program) : Program :=
  mkProgram (program_source_files linked) (program_module linked) (program_imports linked)
    (program_public_items linked) (program_structs linked ++ program_structs p)
    (program_enums linked ++ program_enums p) (program_traits linked ++ program_traits p)
    (program_implementations linked ++ program_implementations p)
    (program_functions linked ++ program_functions p).

Definition empty_program : Program := mkProgram [] None [] [] [] [] [] [] [].

(** [units.remove(key).unwrap()], then the [append]s. *)
Definition append_unit (st : btree ModuleUnit * Program) (key : string)
    : outcome Diagnostic (btree ModuleUnit * Program) :=
  u ← expect (bt_get key st.1);
  Ok (bt_remove key st.1, append_program st.2 (unit_program u)).

Definition link (units : btree ModuleUnit) (order : list string) : outcome Diagnostic Program :=
  '(own, variants) ← all_definitions units;
  exports ← all_exports units own variants order;
  units ← for_each (link_step own exports variants) order units;
  '(_, linked) ← for_each append_unit order (units, empty_program);
  Ok linked.
