(* ===== verification/LinkProps.v ===== *)
(** * Linking does not fail inside ([compiler/src/project.rs], [link])

    The maps [link] indexes ([units[key]], [exports[dependency]], [variants[..]], the
    [unwrap]s) hold what it asks for, provided that the order lists every module once and
    after the modules it imports; [Loader] shows that it does. *)

From S2P Require Import Prelude Machine Diagnostics BTree Ast Expansion Link.
#[local] Open Scope string_scope.
#[local] Open Scope list_scope.

(** ** Loops and ordered maps *)

(** A loop with an invariant on the elements already seen. *)
Lemma safe_for_each_prefix {E A S} (I : list A → S → Prop) (body : S → A → outcome E S) l s :
  (∀ done a rest s, l = done ++ a :: rest → I done s → safe (body s a) (I (done ++ [a]))) →
  I [] s → safe (for_each body l s) (I l).
Proof.
  intros Hstep. cut (∀ done rest s, l = done ++ rest → I done s →
    safe (for_each body rest s) (I l)); [intros H; by apply (H [] l)|].
  intros done rest. revert done. induction rest as [|a rest IH]; intros done s' ->; simpl.
  { by rewrite app_nil_r. }
  intros HI. eapply safe_bind; [by apply (Hstep done a rest)|]. intros s'' _ HI'.
  apply (IH (done ++ [a])); [by rewrite <- app_assoc|done].
Qed.

Lemma fold_left_inv {A S} (I : S → Prop) (f : S → A → S) l s :
  (∀ s a, a ∈ l → I s → I (f s a)) → I s → I (fold_left f l s).
Proof.
  revert s. induction l as [|a l IH]; intros s Hstep HI; simpl; [done|].
  apply IH; [|apply Hstep; [left|done] ]. intros; apply Hstep; [by right|done].
Qed.

Lemma bt_remove_keys {V} k (m : btree V) j : j ∈ (bt_remove k m).*1 → j ∈ m.*1.
Proof.
  induction m as [|[i w] m IH]; simpl; [done|].
  destruct (String.eqb k i); simpl; rewrite ?elem_of_cons; naive_solver.
Qed.

Lemma bt_remove_sorted {V} k (m : btree V) : bt_sorted m → bt_sorted (bt_remove k m).
Proof.
  induction m as [|[j w] m IH]; simpl; [done|]. intros [Hm Hj]%bt_sorted_cons.
  destruct (String.eqb k j); [done|]. apply bt_sorted_cons. split; [auto|].
  apply Forall_forall. intros i Hi%bt_remove_keys. rewrite Forall_forall in Hj. auto.
Qed.

Lemma bt_get_remove {V} k k' (m : btree V) :
  bt_sorted m → bt_get k (bt_remove k' m) = if String.eqb k k' then None else bt_get k m.
Proof.
  induction m as [|[j w] m IH]; simpl; [by destruct (String.eqb k k')|].
  intros [Hm Hj]%bt_sorted_cons.
  destruct (String.eqb_spec k' j) as [->|Hne]; simpl.
  - destruct (String.eqb_spec k j) as [->|]; [|done].
    apply bt_get_not_in. intros Hin. rewrite Forall_forall in Hj.
    by apply (str_lt_irrefl j), Hj.
  - rewrite IH by done. destruct (String.eqb_spec k j) as [->|]; [|done].
    destruct (String.eqb_spec j k'); congruence.
Qed.

Lemma bt_get_In {V} k (v : V) m : bt_get k m = Some v → (k, v) ∈ m.
Proof.
  induction m as [|[j w] m IH]; simpl; [done|].
  destruct (String.eqb_spec k j) as [->|]; [intros [= ->]; left|right; auto].
Qed.

Lemma elem_of_bt_insert {V} k (v : V) m e : e ∈ bt_insert k v m → e = (k, v) ∨ e ∈ m.
Proof.
  induction m as [|[j w] m IH]; simpl; [by intros ?%list_elem_of_singleton; left|].
  destruct (String.compare k j); rewrite !elem_of_cons; naive_solver.
Qed.

Lemma elem_of_bt_remove {V} k (m : btree V) e : e ∈ bt_remove k m → e ∈ m.
Proof.
  induction m as [|[j w] m IH]; simpl; [done|].
  destruct (String.eqb k j); rewrite !elem_of_cons; naive_solver.
Qed.

Lemma sorted_distinct {V} (l r : btree V) k v w :
  bt_sorted (l ++ (k, v) :: r) → (k, w) ∈ l → False.
Proof.
  intros Hs Hin. pose proof (bt_sorted_app_l (l ++ [(k, v)]) r) as Hl.
  rewrite <- app_assoc in Hl. specialize (Hl Hs). apply bt_sorted_app_last in Hl.
  rewrite Forall_forall in Hl. apply (str_lt_irrefl k), Hl.
  apply list_elem_of_fmap. by exists (k, w).
Qed.

Lemma find_app {A} (f : A → bool) l1 l2 :
  List.find f (l1 ++ l2)
  = match List.find f l1 with Some a => Some a | None => List.find f l2 end.
Proof. induction l1 as [|a l1 IH]; simpl; [done|]. by destruct (f a). Qed.

(** ** The definitions of a unit *)

(** An enum in the namespace is declared in the unit, and its variants are known. *)
Definition enums_known (enums : list EnumDeclaration) (ds : Namespace) (vs : Variants) : Prop :=
  ∀ name d, bt_get name ds = Some d → is_enum d = true →
    ∃ e, List.find (λ e, String.eqb (enum_name e) name) enums = Some e ∧
      ∀ v, v ∈ enum_variants e → is_Some (vs !! (defn_canonical d, variant_name v)).

Lemma enums_known_mono enums ds vs vs' :
  enums_known enums ds vs → dom vs ⊆ dom vs' → enums_known enums ds vs'.
Proof.
  intros H Hsub name d Hd He. destruct (H name d Hd He) as (e & Hf & Hv).
  exists e. split; [done|]. intros v Hin. apply elem_of_dom, Hsub, elem_of_dom. auto.
Qed.

Definition defining (enums : list EnumDeclaration) (st : Namespace * Variants) : Prop :=
  bt_sorted st.1 ∧ enums_known enums st.1 st.2 ∧
  ∀ e, e ∈ enums → ∃ d, bt_get (enum_name e) st.1 = Some d ∧ is_enum d = true.

(** An item that is not an enum changes nothing about enums. *)
Lemma insert_item_safe u enums ds vs name s :
  defining enums (ds, vs) → safe (insert_item u ds name s) (λ ds', defining enums (ds', vs)).
Proof.
  intros (Hs & Hk & He). unfold insert_item, insert_definition.
  destruct (bt_get name ds) eqn:Hget; simpl; [done|]. split_and!; simpl.
  - by apply bt_insert_sorted.
  - intros x d. rewrite bt_get_insert. destruct (String.eqb_spec x name); [|apply Hk].
    by intros [= <-].
  - intros e Hin. destruct (He e Hin) as (d & Hd & Hen). exists d. simpl in *.
    rewrite bt_get_insert. destruct (String.eqb_spec (enum_name e) name); [congruence|done].
Qed.

Lemma insert_items_safe {A} u enums vs (name : A → string) (sp : A → Span) l ds :
  defining enums (ds, vs) →
  safe (for_each (λ ds a, insert_item u ds (name a) (sp a)) l ds)
    (λ ds', defining enums (ds', vs)).
Proof.
  intros H. apply (safe_for_each (λ ds, defining enums (ds, vs))); [|done].
  intros ds' a _ H'. by apply insert_item_safe.
Qed.
Arguments insert_items_safe {A} u enums vs name sp l ds.

(** A variant only adds and removes variants. *)
Lemma define_variant_get u owner v st name d :
  bt_sorted st.1 → is_enum d = true →
  bt_get name (define_variant u owner st v).1 = Some d ↔ bt_get name st.1 = Some d.
Proof.
  intros Hs He. destruct st as [ds vs]. unfold define_variant. simpl in *.
  destruct (bt_get (variant_name v) ds) as [previous|] eqn:Hget; simpl.
  - destruct (is_variant previous) eqn:Hv; simpl; [|done]. rewrite bt_get_remove by done.
    destruct (String.eqb_spec name (variant_name v)) as [->|]; [|done].
    split; [done|]. intros Hd. rewrite Hget in Hd. injection Hd as ->.
    by destruct d as [? [] ?].
  - rewrite bt_get_insert. destruct (String.eqb_spec name (variant_name v)) as [->|]; [|done].
    split; [intros [= <-]; done|]. congruence.
Qed.

Lemma define_variant_sorted u owner v st :
  bt_sorted st.1 → bt_sorted (define_variant u owner st v).1.
Proof.
  destruct st as [ds vs]. unfold define_variant. simpl. intros Hs.
  destruct (bt_get _ ds) as [p|]; simpl; [|by apply bt_insert_sorted].
  destruct (is_variant p); [by apply bt_remove_sorted|done].
Qed.

Lemma define_variant_known u owner v st :
  (define_variant u owner st v).2
  = <[(canonical_name u owner, variant_name v) := canonical_variant u owner (variant_name v)]>
      st.2.
Proof.
  destruct st as [ds vs]. unfold define_variant.
  destruct (bt_get _ ds) as [p|]; [destruct (is_variant p)|]; done.
Qed.

Lemma define_variants u owner vars st :
  bt_sorted st.1 →
  let st' := fold_left (define_variant u owner) vars st in
  bt_sorted st'.1 ∧ dom st.2 ⊆ dom st'.2
  ∧ (∀ v, v ∈ vars → is_Some (st'.2 !! (canonical_name u owner, variant_name v)))
  ∧ ∀ name d, is_enum d = true → bt_get name st'.1 = Some d ↔ bt_get name st.1 = Some d.
Proof.
  revert st. induction vars as [|v vars IH]; intros st Hs; simpl.
  { split_and!; try done. by intros v ?%not_elem_of_nil. }
  destruct (IH (define_variant u owner st v)) as (H1 & H2 & H3 & H4);
    [by apply define_variant_sorted|]. split_and!; [done|..].
  - etrans; [|done]. rewrite define_variant_known. set_solver.
  - intros x [->|Hx]%elem_of_cons; [|auto]. apply elem_of_dom, H2.
    rewrite define_variant_known, dom_insert. set_solver.
  - intros name d He. rewrite H4 by done. by apply define_variant_get.
Qed.

Lemma define_enum_safe u enums st e :
  defining enums st →
  safe (define_enum u st e) (λ st', defining (enums ++ [e]) st' ∧ dom st.2 ⊆ dom st'.2).
Proof.
  intros (Hs & Hk & He). unfold define_enum, insert_definition.
  destruct (bt_get (enum_name e) st.1) eqn:Hget; simpl; [done|].
  set (d := mkDefn _ DEnum _). set (ds := bt_insert (enum_name e) d st.1).
  destruct (define_variants u (enum_name e) (enum_variants e) (ds, st.2)) as (H1 & H2 & H3 & H4).
  { by apply bt_insert_sorted. }
  simpl in *. split; [|done]. split_and!; [done|..].
  - intros name d' Hd' Hen. rewrite H4 in Hd' by done. unfold ds in Hd'.
    rewrite bt_get_insert in Hd'. rewrite find_app.
    destruct (String.eqb_spec name (enum_name e)) as [->|Hne].
    + injection Hd' as <-. exists e. simpl. rewrite String.eqb_refl.
      destruct (List.find _ enums) as [e'|] eqn:Hf; [|done].
      apply List.find_some in Hf as [Hin Hname%String.eqb_eq].
      destruct (He e') as (? & Hd2 & _); [by apply list_elem_of_In|]. congruence.
    + destruct (Hk name d' Hd' Hen) as (e' & Hf & Hv). exists e'. rewrite Hf.
      split; [done|]. intros v Hin. apply elem_of_dom, H2, elem_of_dom. auto.
  - intros e' [Hin|Heq%list_elem_of_singleton]%elem_of_app.
    + destruct (He e' Hin) as (d' & Hd' & Hen). exists d'. split; [|done]. apply H4; [done|].
      unfold ds. rewrite bt_get_insert.
      destruct (String.eqb_spec (enum_name e') (enum_name e)); [congruence|done].
    + subst e'. exists d. split; [|done]. apply H4; [done|]. unfold ds.
      by rewrite bt_get_insert, String.eqb_refl.
Qed.

Lemma own_definitions_safe u vs :
  safe (own_definitions u vs) (λ st,
    enums_known (program_enums (unit_program u)) st.1 st.2 ∧ dom vs ⊆ dom st.2).
Proof.
  unfold own_definitions. set (p := unit_program u).
  eapply safe_bind.
  { apply (insert_items_safe u [] vs struct_name struct_name_span). split_and!; [constructor|..].
    - intros name d. done.
    - by intros e ?%not_elem_of_nil. }
  intros ds _ Hds. eapply (safe_bind _ _ (λ st, defining (program_enums p) st ∧ dom vs ⊆ dom st.2)).
  { apply (safe_for_each_prefix (λ enums st, defining enums st ∧ dom vs ⊆ dom st.2)); [|done].
    intros done_ e rest st _ [Hd Hsub]. eapply safe_mono; [by apply define_enum_safe|].
    intros st' [? ?]. split; [done|]. by etrans. }
  intros [ds' vs'] _ [Hd Hsub]. cbv beta iota.
  eapply safe_bind; [by apply (insert_items_safe u (program_enums p) vs' trait_name trait_name_span)|].
  intros ds2 _ Hd2.
  eapply safe_bind; [by apply (insert_items_safe u (program_enums p) vs' fn_name fn_name_span)|].
  intros ds3 _ (_ & Hk & _). by split.
Qed.

(** ** The definitions of all units *)

Definition owned (done_ : list (string * ModuleUnit)) (st : btree Namespace * Variants) : Prop :=
  ∀ key u, (key, u) ∈ done_ → ∃ ds, bt_get key st.1 = Some ds ∧
    enums_known (program_enums (unit_program u)) ds st.2.

Lemma all_definitions_safe units :
  bt_sorted units → safe (all_definitions units) (owned units).
Proof.
  intros Hs. apply safe_for_each_prefix; [|by intros key u ?%not_elem_of_nil].
  intros done_ [key u] rest [own vs] Heq Hown. unfold own_step. simpl.
  eapply safe_bind; [apply own_definitions_safe|]. intros [ds vs'] _ [Hk Hsub]. simpl in *.
  intros key' u' [Hin|Hnew%list_elem_of_singleton]%elem_of_app; simpl; rewrite bt_get_insert.
  - destruct (Hown key' u' Hin) as (ds' & Hget & Hk'). simpl in *.
    destruct (String.eqb_spec key' key) as [->|].
    + exfalso. subst units. by apply (sorted_distinct _ _ _ _ _ Hs Hin).
    + exists ds'. split; [done|]. by eapply enums_known_mono.
  - injection Hnew as -> ->. rewrite String.eqb_refl. eauto.
Qed.

(** ** Order *)

(** Every module of the order is a unit and comes after the modules it imports. *)
Definition imports_first (units : btree ModuleUnit) (order : list string) : Prop :=
  ∀ l key r, order = l ++ key :: r →
    ∃ u, bt_get key units = Some u ∧ Forall (λ t, t ∈ l) (unit_import_targets u).

Lemma imports_first_get units order key :
  imports_first units order → key ∈ order → ∃ u, bt_get key units = Some u.
Proof.
  intros H (l & r & ->)%list_elem_of_split. destruct (H l key r eq_refl) as (u & Hu & _).
  eauto.
Qed.

(** ** Exports and namespaces *)

Lemma insert_visible_safe surface name d s : safe (insert_visible surface name d s) (λ _, True).
Proof. unfold insert_visible. by repeat case_match. Qed.

Lemma import_surface_safe destination source import :
  safe (import_surface destination source import) (λ _, True).
Proof.
  unfold import_surface. destruct (import_items import).
  - apply safe_for_each; [|done]. intros s item _ _. unfold import_item.
    eapply safe_bind; [apply safe_ok_or|]. intros. apply insert_visible_safe.
  - apply safe_for_each; [|done]. intros. apply insert_visible_safe.
Qed.

(** What a unit imports has been exported. *)
Definition available (exports : btree Namespace) (u : ModuleUnit) : Prop :=
  Forall (λ t, is_Some (bt_get t exports)) (unit_import_targets u).

Lemma import_from_safe exports entries destination :
  Forall (λ entry : ImportDeclaration * string, is_Some (bt_get entry.2 exports)) entries →
  safe (for_each (import_from exports) entries destination) (λ _, True).
Proof.
  intros H. apply safe_for_each; [|done]. intros s entry Hin _.
  rewrite Forall_forall in H. destruct (H entry Hin) as [source Hs].
  unfold import_from. rewrite Hs. simpl. apply import_surface_safe.
Qed.

Lemma unit_imports_available exports u :
  available exports u →
  Forall (λ entry : ImportDeclaration * string, is_Some (bt_get entry.2 exports)) (unit_imports u).
Proof.
  intros H. apply Forall_forall. intros [import t] Hin%elem_of_zip_r.
  unfold available in H. rewrite Forall_forall in H. by apply H.
Qed.

Lemma namespace_of_safe u ds exports :
  available exports u → safe (namespace_of u ds exports) (λ _, True).
Proof. intros H. by apply import_from_safe, unit_imports_available. Qed.

Lemma export_surface_safe u ds vs exports :
  enums_known (program_enums (unit_program u)) ds vs → available exports u →
  safe (export_surface u ds vs exports) (λ _, True).
Proof.
  intros Hk Ha. unfold export_surface. eapply (safe_bind _ _ (λ _, True)).
  - apply safe_for_each; [|done]. intros surface public _ _. unfold export_item.
    eapply safe_bind; [apply safe_ok_or|]. intros d _ Hd.
    eapply safe_bind; [apply insert_visible_safe|]. intros surface' _ _.
    destruct (is_enum d) eqn:He; [|done].
    destruct (Hk _ _ Hd He) as (e & -> & Hv). simpl.
    apply safe_for_each; [|done]. intros s v Hin _. unfold export_variant.
    destruct (Hv v Hin) as [c ->]. apply insert_visible_safe.
  - intros surface _ _. apply import_from_safe, Forall_forall. intros entry Hin.
    apply list_elem_of_In, List.filter_In in Hin as [Hin _].
    pose proof (unit_imports_available _ _ Ha) as H. rewrite Forall_forall in H.
    by apply H, list_elem_of_In.
Qed.

Lemma all_exports_safe units own vs order :
  owned units (own, vs) → imports_first units order →
  safe (all_exports units own vs order)
    (λ exports, ∀ key, key ∈ order → is_Some (bt_get key exports)).
Proof.
  intros Hown Hfirst.
  apply (safe_for_each_prefix (λ l exports, ∀ key, key ∈ l → is_Some (bt_get key exports)));
    [|by intros key ?%not_elem_of_nil].
  intros l key r exports Heq Hdone. unfold export_step.
  destruct (Hfirst l key r Heq) as (u & Hu & Ht). rewrite Hu. simpl.
  destruct (Hown key u) as (ds & Hds & Hk); [by apply bt_get_In|]. simpl in *. rewrite Hds. simpl.
  eapply safe_bind.
  { apply export_surface_safe; [done|]. eapply Forall_impl; [exact Ht|]. auto. }
  intros surface _ _. simpl. intros key' Hin. rewrite bt_get_insert.
  destruct (String.eqb_spec key' key) as [->|Hne]; [eauto|].
  apply elem_of_app in Hin as [Hin|Hin%list_elem_of_singleton]; [auto|done].
Qed.

(** ** Validation *)

Lemma for_each_unit_safe {A} (f : A → outcome Diagnostic unit) l :
  Forall (λ a, safe (f a) (λ _, True)) l → safe (for_each (λ _ a, f a) l tt) (λ _, True).
Proof.
  intros H. apply safe_for_each; [|done]. intros _ a Hin _. rewrite Forall_forall in H. auto.
Qed.

Section validation.
Context (namespace : Namespace) (public : gset string).

Lemma validate_public_type_safe generics ty :
  safe (validate_public_type namespace public generics ty) (λ _, True).
Proof.
  induction ty as [name arguments qualifier s IH] using type_induction. simpl.
  eapply safe_bind; [by apply for_each_unit_safe|]. intros _ _ _. by repeat case_match.
Qed.

Lemma validate_types_safe generics l :
  safe (validate_types namespace public generics l) (λ _, True).
Proof. apply for_each_unit_safe, Forall_true. intros. apply validate_public_type_safe. Qed.

Lemma validate_constraints_safe ps generics :
  safe (validate_generic_constraints namespace public ps generics) (λ _, True).
Proof. apply for_each_unit_safe, Forall_true. intros. apply validate_types_safe. Qed.

Lemma validate_optional_safe generics ty :
  safe (validate_optional_type namespace public generics ty) (λ _, True).
Proof. destruct ty; [apply validate_public_type_safe|done]. Qed.
End validation.

#[local] Hint Resolve validate_public_type_safe validate_types_safe validate_constraints_safe
  validate_optional_safe : disp.

Ltac validating :=
  repeat (eapply safe_bind; [solve [eauto with disp]|]; intros _ _ _);
  first [solve [eauto with disp] | apply for_each_unit_safe, Forall_true; intros].

Lemma validate_public_api_safe u namespace exports :
  safe (validate_public_api u namespace exports) (λ _, True).
Proof.
  assert (∀ A names (name : A → string) f l, (∀ a, safe (f a) (λ _ : unit, True)) →
    safe (when_public names name f l) (λ _, True)) as Hwhen.
  { intros A names name f l Hf. apply for_each_unit_safe, Forall_true. intros a.
    by case_bool_decide. }
  unfold validate_public_api.
  eapply safe_bind; [apply Hwhen; intros d; unfold validate_struct; validating; eauto with disp|].
  intros _ _ _.
  eapply safe_bind; [apply Hwhen; intros d; unfold validate_enum; validating; eauto with disp|].
  intros _ _ _.
  eapply safe_bind.
  { apply Hwhen. intros d. unfold validate_trait. validating. unfold validate_method.
    eapply safe_bind; [eauto with disp|]. intros _ _ _.
    eapply safe_bind; [|intros _ _ _; eauto with disp].
    apply for_each_unit_safe, Forall_true. eauto with disp. }
  intros _ _ _. apply Hwhen. intros f. unfold validate_function.
  eapply safe_bind; [eauto with disp|]. intros _ _ _.
  eapply safe_bind; [|intros _ _ _; eauto with disp].
  apply for_each_unit_safe, Forall_true. eauto with disp.
Qed.

(** ** The linked program *)

(** The unit [u'] that linking makes of the module [key]. *)
Definition linked_as (units : btree ModuleUnit) (own exports : btree Namespace)
    (variants : Variants) (key : string) (u' : ModuleUnit) : Prop :=
  ∃ u definitions namespace,
    bt_get key units = Some u ∧ bt_get key own = Some definitions ∧
    namespace_of u definitions exports = Ok namespace ∧
    u' = rename_unit namespace variants u.

(** The state of the renaming loop: the modules seen are renamed, the others are not. *)
Definition renaming (units : btree ModuleUnit) (own exports : btree Namespace)
    (variants : Variants) (done_ : list string) (current : btree ModuleUnit) : Prop :=
  bt_sorted current ∧
  (∀ key, key ∈ done_ →
     ∃ u', bt_get key current = Some u' ∧ linked_as units own exports variants key u') ∧
  ∀ key, key ∉ done_ → bt_get key current = bt_get key units.

Lemma link_step_safe units own exports variants order l key r current :
  owned units (own, variants) → imports_first units order → NoDup order →
  (∀ k, k ∈ order → is_Some (bt_get k exports)) →
  order = l ++ key :: r →
  renaming units own exports variants l current →
  safe (link_step own exports variants current key)
    (renaming units own exports variants (l ++ [key])).
Proof.
  intros Hown Hfirst Hnd Hexports Heq (Hs & Hdone & Hrest). unfold link_step.
  assert (key ∉ l) as Hnew.
  { subst order. apply NoDup_app in Hnd as (_ & Hd & _). intros Hin. apply (Hd key Hin). left. }
  destruct (Hfirst l key r Heq) as (u & Hu & Ht). rewrite (Hrest key Hnew), Hu. simpl.
  destruct (Hown key u) as (ds & Hds & _); [by apply bt_get_In|]. simpl in Hds. rewrite Hds. simpl.
  eapply safe_bind.
  { apply namespace_of_safe. eapply Forall_impl; [exact Ht|]. intros t Hin. apply Hexports.
    subst order. apply elem_of_app. by left. }
  intros ns Hns _. destruct (Hexports key) as [surface Hsurface].
  { subst order. apply elem_of_app. right. left. }
  rewrite Hsurface. simpl. eapply safe_bind; [apply validate_public_api_safe|]. intros _ _ _.
  simpl. split_and!.
  - by apply bt_insert_sorted.
  - intros k Hin. rewrite bt_get_insert. destruct (String.eqb_spec k key) as [->|Hne].
    + exists (rename_unit ns variants u). split; [done|]. by exists u, ds, ns.
    + apply Hdone. apply elem_of_app in Hin as [Hin|Hin%list_elem_of_singleton]; done.
  - intros k [Hk1 Hk2]%not_elem_of_app. rewrite bt_get_insert.
    destruct (String.eqb_spec k key) as [->|]; [|by apply Hrest].
    exfalso. by apply Hk2, list_elem_of_singleton.
Qed.

Lemma append_units_safe (P : string → ModuleUnit → Prop) current order linked :
  bt_sorted current → NoDup order →
  (∀ key, key ∈ order → ∃ u, bt_get key current = Some u ∧ P key u) →
  safe (for_each append_unit order (current, linked)) (λ st,
    ∃ us, Forall2 P order us ∧ st.2 = fold_left append_program (map unit_program us) linked).
Proof.
  revert current linked. induction order as [|key order IH]; intros current linked Hs Hnd Hget.
  { exists []. by split. }
  apply NoDup_cons in Hnd as [Hnew Hnd]. simpl. unfold append_unit at 2. simpl.
  destruct (Hget key) as (u & Hu & HP); [left|]. rewrite Hu. simpl.
  eapply safe_mono; [apply IH; [by apply bt_remove_sorted|done|]|].
  - intros k Hk. destruct (Hget k) as (u' & Hu' & HP'); [by right|]. exists u'. split; [|done].
    rewrite bt_get_remove by done. destruct (String.eqb_spec k key) as [->|]; done.
  - intros st (us & HF & Heq). exists (u :: us). split; [by constructor|done].
Qed.

Lemma link_safe units order :
  bt_sorted units → NoDup order → imports_first units order →
  safe (link units order) (λ p, ∃ own variants exports us,
    all_definitions units = Ok (own, variants) ∧
    all_exports units own variants order = Ok exports ∧
    Forall2 (linked_as units own exports variants) order us ∧
    p = fold_left append_program (map unit_program us) empty_program).
Proof.
  intros Hs Hnd Hfirst. unfold link.
  eapply safe_bind; [by apply all_definitions_safe|]. intros [own vs] Hown Howned. cbv beta iota.
  eapply safe_bind; [by apply all_exports_safe|]. intros exports Hex Hexports. cbv beta in Hexports.
  eapply safe_bind.
  { apply (safe_for_each_prefix (renaming units own exports vs)).
    - intros l key r current Heq. by eapply link_step_safe.
    - split_and!; [done| |done]. by intros key ?%not_elem_of_nil. }
  intros current _ (Hs' & Hdone & _).
  eapply safe_bind; [by apply (append_units_safe (linked_as units own exports vs))|].
  intros [rest linked] _ (us & HF & Heq). simpl in *. by exists own, vs, exports, us.
Qed.
