(* ===== verification/LinkScope.v ===== *)
(** * What the modules of a project see ([compiler/src/project.rs], [link])

    An account of module scopes that does not look at how [link] collects them: what a
    module declares, what it makes public (its public items, the variants of its public
    enums and what it imports publicly), and what it sees (what it declares and what it
    imports).  The namespaces [link] computes hold exactly that. *)

From S2P Require Import Prelude Machine Diagnostics BTree Ast Link LinkProps.
#[local] Open Scope string_scope.
#[local] Open Scope list_scope.

(** ** Scopes *)

(** The item a name stands for. *)
Abbreviation Meaning := (string * DefinitionKind)%type.
Definition view (d : Defn) : Meaning := (defn_canonical d, defn_kind d).

(** The names a module declares, each with whether it is an enum. *)
Definition item_names (p : Program) : list (string * bool) :=
  map (λ d, (struct_name d, false)) (program_structs p)
  ++ map (λ d, (enum_name d, true)) (program_enums p)
  ++ map (λ d, (trait_name d, false)) (program_traits p)
  ++ map (λ f, (fn_name f, false)) (program_functions p).

(** The variants of its enums, with the enum before each. *)
Definition enum_occurrences (e : EnumDeclaration) : list (string * string) :=
  map (λ v, (enum_name e, variant_name v)) (enum_variants e).
Definition variant_occurrences (p : Program) : list (string * string) :=
  flat_map enum_occurrences (program_enums p).

Definition item_kind (items : list (string * bool)) (name : string) : option bool :=
  snd <$> List.find (λ i, String.eqb name i.1) items.
Definition owners (occurrences : list (string * string)) (name : string) : list string :=
  map fst (List.filter (λ o, String.eqb name o.2) occurrences).

(** The meaning of a declared name: the item with that name, or else a variant.  A variant
    that two enums share has no meaning of its own (but one that three share has). *)
Definition meaning (u : ModuleUnit) (items : list (string * bool))
    (occurrences : list (string * string)) (name : string) : option Meaning :=
  match item_kind items name with
  | Some enum => Some (canonical_name u name, if enum then DEnum else DItem)
  | None =>
    if Nat.odd (length (owners occurrences name)) then
      owner ← last (owners occurrences name);
      Some (canonical_variant u owner name, DVariant (canonical_name u owner))
    else None
  end.
Definition declared (u : ModuleUnit) : string → option Meaning :=
  meaning u (item_names (unit_program u)) (variant_occurrences (unit_program u)).

(** The canonical names of the variants of all enums. *)
Definition unit_variants (u : ModuleUnit) : list ((string * string) * string) :=
  map (λ o, ((canonical_name u o.1, o.2), canonical_variant u o.1 o.2))
    (variant_occurrences (unit_program u)).
Definition variant_names (units : btree ModuleUnit) : Variants :=
  list_to_map (reverse (flat_map (λ entry, unit_variants entry.2) units)).

Section scopes.
Context (units : btree ModuleUnit).

Definition imports_of (key : string) (import : ImportDeclaration) (target : string) : Prop :=
  ∃ u, bt_get key units = Some u ∧ (import, target) ∈ unit_imports u.

Inductive exported : string → string → Meaning → Prop :=
| exported_item key u name m :
    bt_get key units = Some u → name ∈ map node (program_public_items (unit_program u)) →
    declared u name = Some m → exported key name m
| exported_variant key u name e v owner canonical :
    bt_get key units = Some u → name ∈ map node (program_public_items (unit_program u)) →
    declared u name = Some (owner, DEnum) →
    List.find (λ e, String.eqb (enum_name e) name) (program_enums (unit_program u)) = Some e →
    v ∈ enum_variants e → variant_names units !! (owner, variant_name v) = Some canonical →
    exported key (variant_name v) (canonical, DVariant owner)
| exported_all key import target name m :
    imports_of key import target → import_public import = true → import_items import = None →
    exported target name m → exported key name m
| exported_selected key import target items item m :
    imports_of key import target → import_public import = true →
    import_items import = Some items → item ∈ items →
    exported target (item_name item) m → exported key (item_alias item) m.

(** What an import brings in of what its target exports. *)
Definition brings_in (P : string → Meaning → Prop) (import : ImportDeclaration)
    (name : string) (m : Meaning) : Prop :=
  match import_items import with
  | None => P name m
  | Some items => ∃ item, item ∈ items ∧ item_alias item = name ∧ P (item_name item) m
  end.

Definition sees (key name : string) (m : Meaning) : Prop :=
  (∃ u, bt_get key units = Some u ∧ declared u name = Some m)
  ∨ ∃ import target, imports_of key import target ∧ brings_in (exported target) import name m.
End scopes.

(** The namespace holds the meanings in [P]; two meanings of a name have one canonical
    name. *)
Record holds (ns : Namespace) (P : string → Meaning → Prop) : Prop := {
  holds_sorted : bt_sorted ns;
  holds_only : ∀ name d, bt_get name ns = Some d → P name (view d);
  holds_all : ∀ name m, P name m → ∃ d, bt_get name ns = Some d ∧ defn_canonical d = m.1 }.

Lemma holds_iff ns (P Q : string → Meaning → Prop) :
  holds ns P → (∀ name m, P name m ↔ Q name m) → holds ns Q.
Proof. intros [Hs Ho Ha] H. split; [done|..]; intros; [by apply H, Ho|by apply Ha, H]. Qed.

Lemma holds_canonical ns (P Q : string → Meaning → Prop) :
  holds ns P → (∀ name m, P name m → Q name m) →
  (∀ name m, Q name m → ∃ m', P name m' ∧ m'.1 = m.1) → holds ns Q.
Proof.
  intros [Hs Ho Ha] HPQ HQP. split; [done|by intros; apply HPQ, Ho|].
  intros name m (m' & Hm' & <-)%HQP. by apply Ha.
Qed.

(** ** What a module declares *)

Definition declares_exactly (u : ModuleUnit) (items : list (string * bool))
    (occurrences : list (string * string)) (ds : Namespace) : Prop :=
  bt_sorted ds ∧ ∀ name, view <$> bt_get name ds = meaning u items occurrences name.

Lemma item_kind_app items name i :
  item_kind (items ++ [i]) name
  = match item_kind items name with
    | Some k => Some k
    | None => if String.eqb name i.1 then Some i.2 else None
    end.
Proof.
  unfold item_kind. rewrite find_app. destruct (List.find _ items); simpl; [done|].
  by destruct (String.eqb name i.1).
Qed.

Lemma owners_app occurrences o name :
  owners (occurrences ++ [o]) name
  = owners occurrences name ++ (if String.eqb name o.2 then [o.1] else []).
Proof.
  unfold owners. rewrite List.filter_app, map_app. simpl. by destruct (String.eqb name o.2).
Qed.

Lemma insert_definition_exactly u items occurrences ds name (enum : bool) s ds' :
  declares_exactly u items occurrences ds →
  insert_definition ds name
    (mkDefn (canonical_name u name) (if enum then DEnum else DItem) s) = Ok ds' →
  declares_exactly u (items ++ [(name, enum)]) occurrences ds'.
Proof.
  intros [Hs He] H. unfold insert_definition in H.
  destruct (bt_get name ds) eqn:Hget; [done|]. injection H as <-.
  split; [by apply bt_insert_sorted|]. intros x. specialize (He x) as Hx.
  rewrite bt_get_insert. unfold meaning in *. rewrite item_kind_app. simpl.
  destruct (String.eqb_spec x name) as [->|]; simpl.
  - rewrite Hget in Hx. simpl in Hx. by destruct (item_kind items name).
  - rewrite Hx. by destruct (item_kind items x).
Qed.

Lemma insert_items_exactly {A} u (name : A → string) (sp : A → Span) l items occurrences ds ds' :
  declares_exactly u items occurrences ds →
  for_each (λ ds a, insert_item u ds (name a) (sp a)) l ds = Ok ds' →
  declares_exactly u (items ++ map (λ a, (name a, false)) l) occurrences ds'.
Proof.
  revert items ds. induction l as [|a l IH]; intros items ds Hds H; simpl in H.
  { injection H as <-. by rewrite app_nil_r. }
  inv_ok H. simpl. change ((name a, false) :: ?r) with ([(name a, false)] ++ r).
  rewrite app_assoc. eapply IH; [|done].
  by eapply (insert_definition_exactly u items occurrences ds (name a) false).
Qed.

Lemma define_variant_exactly u items occurrences owner ds vs v :
  declares_exactly u items occurrences ds →
  declares_exactly u items (occurrences ++ [(owner, variant_name v)])
    (define_variant u owner (ds, vs) v).1.
Proof.
  intros [Hs He]. unfold define_variant. specialize (He (variant_name v)) as Hv.
  assert (∀ x, x ≠ variant_name v →
    meaning u items (occurrences ++ [(owner, variant_name v)]) x = meaning u items occurrences x)
    as Hother.
  { intros x Hx%String.eqb_neq. unfold meaning. rewrite owners_app. simpl. rewrite Hx.
    by rewrite app_nil_r. }
  unfold meaning in Hv.
  assert (meaning u items (occurrences ++ [(owner, variant_name v)]) (variant_name v)
    = match item_kind items (variant_name v) with
      | Some enum => Some (canonical_name u (variant_name v), if enum then DEnum else DItem)
      | None =>
        if Nat.odd (length (owners occurrences (variant_name v))) then None
        else Some (canonical_variant u owner (variant_name v), DVariant (canonical_name u owner))
      end) as Hnew.
  { unfold meaning. rewrite owners_app. simpl. rewrite String.eqb_refl, length_app, last_snoc.
    simpl. rewrite Nat.add_1_r, Nat.odd_succ, <- Nat.negb_odd.
    destruct (item_kind items _); [done|]. by destruct (Nat.odd _). }
  destruct (bt_get (variant_name v) ds) as [d|] eqn:Hget; simpl in Hv.
  - destruct (is_variant d) eqn:Hd; simpl.
    + split; [by apply bt_remove_sorted|]. intros x. rewrite bt_get_remove by done.
      destruct (String.eqb_spec x (variant_name v)) as [->|]; [|by rewrite Hother].
      rewrite Hnew. destruct (item_kind items _) as [ []|].
      * injection Hv as _ Hk. unfold is_variant in Hd. by rewrite Hk in Hd.
      * injection Hv as _ Hk. unfold is_variant in Hd. by rewrite Hk in Hd.
      * by destruct (Nat.odd _).
    + split; [done|]. intros x. destruct (decide (x = variant_name v)) as [->|]; [|by rewrite Hother].
      rewrite Hget, Hnew. simpl. destruct (item_kind items _) as [enum|]; [done|].
      destruct (Nat.odd _); [|done]. destruct (last _); simpl in Hv; [|done].
      injection Hv as _ Hk. unfold is_variant in Hd. by rewrite Hk in Hd.
  - split; [by apply bt_insert_sorted|]. intros x. simpl. rewrite bt_get_insert.
    destruct (String.eqb_spec x (variant_name v)) as [->|]; [|by rewrite Hother].
    rewrite Hnew. destruct (item_kind items _); [done|]. destruct (Nat.odd _) eqn:Hodd; [|done].
    destruct (last _) eqn:Hl; [done|]. apply last_None in Hl. by rewrite Hl in Hodd.
Qed.

(** [HashMap::insert] for each entry. *)
Definition add_variants (vs : Variants) (l : list ((string * string) * string)) : Variants :=
  fold_left (λ vs e, <[e.1 := e.2]> vs) l vs.

Lemma add_variants_app vs l1 l2 :
  add_variants vs (l1 ++ l2) = add_variants (add_variants vs l1) l2.
Proof. apply fold_left_app. Qed.

Lemma add_variants_map l : add_variants ∅ l = list_to_map (reverse l).
Proof.
  induction l as [|[k x] l IH] using rev_ind; [done|].
  rewrite add_variants_app, IH, reverse_snoc. done.
Qed.

(** What a list of occurrences adds to the variants. *)
Definition occurrence_variants (u : ModuleUnit) (occurrences : list (string * string))
    : list ((string * string) * string) :=
  map (λ o, ((canonical_name u o.1, o.2), canonical_variant u o.1 o.2)) occurrences.

Lemma define_variants_exactly u items owner vars occurrences ds vs ds' vs' :
  declares_exactly u items occurrences ds →
  fold_left (define_variant u owner) vars (ds, vs) = (ds', vs') →
  let more := map (λ v, (owner, variant_name v)) vars in
  declares_exactly u items (occurrences ++ more) ds'
  ∧ vs' = add_variants vs (occurrence_variants u more).
Proof.
  revert occurrences ds vs. induction vars as [|v vars IH]; intros occurrences ds vs Hds H.
  { simpl in *. injection H as <- <-. by rewrite app_nil_r. }
  cbn [fold_left map] in *. pose proof (define_variant_exactly u items occurrences owner ds vs v Hds) as Hv.
  pose proof (define_variant_known u owner v (ds, vs)) as Hk.
  destruct (define_variant u owner (ds, vs) v) as [ds1 vs1]. simpl in Hv, Hk. subst vs1.
  destruct (IH _ _ _ Hv H) as [H1 H2]. rewrite <- app_assoc in H1. done.
Qed.

Lemma define_enums_exactly u enums items occurrences ds vs ds' vs' :
  declares_exactly u items occurrences ds →
  for_each (define_enum u) enums (ds, vs) = Ok (ds', vs') →
  let more := flat_map enum_occurrences enums in
  declares_exactly u (items ++ map (λ d, (enum_name d, true)) enums) (occurrences ++ more) ds'
  ∧ vs' = add_variants vs (occurrence_variants u more).
Proof.
  revert items occurrences ds vs. induction enums as [|e enums IH]; intros items occurrences ds vs Hds H.
  { simpl in *. injection H as <- <-. by rewrite !app_nil_r. }
  cbn [for_each] in H. inv_ok H. unfold define_enum in Hv. inv_ok Hv. cbn [fst snd] in *.
  injection Hv as Hv. destruct v as [ds1 vs1].
  eapply (insert_definition_exactly u items occurrences ds (enum_name e) true) in Hv0; [|done].
  destruct (define_variants_exactly _ _ _ _ _ _ _ _ _ Hv0 Hv) as [H1 ->].
  destruct (IH _ _ _ _ H1 H) as [H2 ->]. simpl.
  rewrite <- !app_assoc in H2. unfold occurrence_variants. rewrite map_app, add_variants_app. done.
Qed.

Lemma own_definitions_exactly u vs ds vs' :
  own_definitions u vs = Ok (ds, vs') →
  declares_exactly u (item_names (unit_program u)) (variant_occurrences (unit_program u)) ds
  ∧ vs' = add_variants vs (unit_variants u).
Proof.
  intros H. unfold own_definitions in H. inv_ok H. injection H as -> ->.
  assert (declares_exactly u [] [] []) as H0 by (split; [constructor|done]).
  eapply (insert_items_exactly u struct_name struct_name_span) in Hv; [|exact H0].
  destruct (define_enums_exactly _ _ _ _ _ _ _ _ Hv Hv0) as [H1 ->].
  eapply (insert_items_exactly u trait_name trait_name_span) in Hv1; [|exact H1].
  eapply (insert_items_exactly u fn_name fn_name_span) in Hv2; [|exact Hv1].
  split; [|done]. simpl in Hv2. by rewrite <- !app_assoc in Hv2.
Qed.

Lemma all_definitions_exactly units own vs :
  bt_sorted units → all_definitions units = Ok (own, vs) →
  vs = variant_names units ∧ ∀ key u ds, bt_get key units = Some u → bt_get key own = Some ds →
    declares_exactly u (item_names (unit_program u)) (variant_occurrences (unit_program u)) ds.
Proof.
  intros Hs H.
  assert (safe (all_definitions units) (λ st,
    st.2 = add_variants ∅ (flat_map (λ entry, unit_variants entry.2) units) ∧
    ∀ key u, (key, u) ∈ units → ∃ ds, bt_get key st.1 = Some ds ∧ declares_exactly u
      (item_names (unit_program u)) (variant_occurrences (unit_program u)) ds)) as Hsafe.
  { apply (safe_for_each_prefix (λ l st,
      st.2 = add_variants ∅ (flat_map (λ entry, unit_variants entry.2) l) ∧
      ∀ key u, (key, u) ∈ l → ∃ ds, bt_get key st.1 = Some ds ∧ declares_exactly u
        (item_names (unit_program u)) (variant_occurrences (unit_program u)) ds));
      [|split; [done|by intros key u ?%not_elem_of_nil] ].
    intros l [key u] r [own' vs'] Heq [Hvs Hown]. unfold own_step. simpl in *. subst vs'.
    eapply safe_bind; [apply own_definitions_safe|]. intros [ds vs2] Hst _.
    apply own_definitions_exactly in Hst as [Hds ->]. simpl. split.
    { rewrite flat_map_app, add_variants_app. simpl. by rewrite app_nil_r. }
    intros key' u' [Hin|Hnew%list_elem_of_singleton]%elem_of_app; rewrite bt_get_insert.
    - destruct (String.eqb_spec key' key) as [->|]; [exfalso|auto].
      subst units. by apply (sorted_distinct _ _ _ _ _ Hs Hin).
    - injection Hnew as -> ->. rewrite String.eqb_refl. eauto. }
  rewrite H in Hsafe. simpl in Hsafe. destruct Hsafe as [-> Hown].
  split; [apply add_variants_map|]. intros key u ds Hu Hds.
  destruct (Hown key u) as (ds' & Hds' & He); [by apply bt_get_In|]. congruence.
Qed.

(** ** What a module exports *)

Lemma sorted_get {V} (m : btree V) k v : bt_sorted m → (k, v) ∈ m → bt_get k m = Some v.
Proof.
  induction m as [|[j w] m IH]; [by intros _ ?%not_elem_of_nil|].
  intros [Hm Hj]%bt_sorted_cons [[= -> ->]|Hin]%elem_of_cons; simpl; [by rewrite String.eqb_refl|].
  destruct (String.eqb_spec k j) as [->|]; [|auto]. rewrite Forall_forall in Hj.
  destruct (str_lt_irrefl j). apply Hj, list_elem_of_fmap. by exists (j, v).
Qed.

Lemma insert_visible_holds ns P name d s ns' :
  holds ns P → insert_visible ns name d s = Ok ns' →
  holds ns' (λ x m, P x m ∨ (x = name ∧ m = view d)).
Proof.
  intros [Hs Ho Ha] H. unfold insert_visible in H.
  destruct (bt_get name ns) as [previous|] eqn:Hget.
  - destruct (String.eqb_spec (defn_canonical previous) (defn_canonical d)) as [Heq|]; [|done].
    injection H as <-. split; [done|by left; apply Ho|]. intros x m [|[-> ->] ]; [auto|eauto].
  - injection H as <-. split; [by apply bt_insert_sorted|..].
    + intros x d'. rewrite bt_get_insert. destruct (String.eqb_spec x name) as [->|]; [|by left; apply Ho].
      intros [= <-]. by right.
    + intros x m Hx. rewrite bt_get_insert. destruct (String.eqb_spec x name) as [->|Hne].
      * exists d. split; [done|]. destruct Hx as [Hx|[_ ->] ]; [|done].
        destruct (Ha _ _ Hx) as (d' & Hd' & _). congruence.
      * destruct Hx as [Hx|[-> _] ]; [|done]. auto.
Qed.

(** A loop that makes things visible, one after the other. *)
Lemma for_each_holds {A} (body : Namespace → A → outcome Diagnostic Namespace)
    (Q : A → string → Meaning → Prop) l ns P ns' :
  (∀ a ns P ns', a ∈ l → holds ns P → body ns a = Ok ns' → holds ns' (λ x m, P x m ∨ Q a x m)) →
  holds ns P → for_each body l ns = Ok ns' →
  holds ns' (λ x m, P x m ∨ ∃ a, a ∈ l ∧ Q a x m).
Proof.
  intros Hstep. revert ns P. induction l as [|a l IH]; intros ns P Hns H; simpl in H.
  - injection H as <-. eapply holds_iff; [exact Hns|]. intros x m. split; [by left|].
    by intros [|(a & ?%not_elem_of_nil & _)].
  - inv_ok H. eapply Hstep in Hv; [|by left|exact Hns].
    eapply IH in H; [|intros; eapply Hstep; [by right|done|done]|exact Hv].
    eapply holds_iff; [exact H|]. intros x m. setoid_rewrite elem_of_cons. naive_solver.
Qed.

Lemma import_surface_holds ns P src Q import ns' :
  holds ns P → holds src Q → import_surface ns src import = Ok ns' →
  holds ns' (λ x m, P x m ∨ brings_in Q import x m).
Proof.
  intros Hns Hsrc H. unfold import_surface, brings_in in *. destruct (import_items import) as [items|].
  - eapply (for_each_holds _ (λ item x m, x = item_alias item ∧
      ∃ d, bt_get (item_name item) src = Some d ∧ m = view d)) in H; [|clear H|exact Hns].
    + eapply holds_canonical; [exact H|..].
      * intros x m [Hx|(item & Hin & -> & d & Hd & ->)]; [by left|right].
        exists item. split_and!; [done|done|]. by apply (holds_only _ _ Hsrc).
      * intros x m [Hx|(item & Hin & <- & Hq)]; [by eauto|].
        destruct (holds_all _ _ Hsrc _ _ Hq) as (d & Hd & Hc). exists (view d).
        split; [|done]. right. eauto 6.
    + intros item s R s' Hin Hs H. unfold import_item in H. inv_ok H.
      destruct (bt_get (item_name item) src) as [d|]; [|done]. injection Hv as <-.
      eapply insert_visible_holds in H; [|exact Hs]. eapply holds_iff; [exact H|]. naive_solver.
  - eapply (for_each_holds _ (λ entry x m, x = entry.1 ∧ m = view entry.2)) in H; [| |exact Hns].
    + eapply holds_canonical; [exact H|..].
      * intros x m [Hx|([y d] & Hin & -> & ->)]; [by left|right]. simpl.
        apply (holds_only _ _ Hsrc). by apply sorted_get; [apply Hsrc|].
      * intros x m [Hx|Hq]; [by eauto|].
        destruct (holds_all _ _ Hsrc _ _ Hq) as (d & Hd & Hc). exists (view d).
        split; [|done]. right. exists (x, d). split; [by apply bt_get_In|done].
    + intros entry s R s' Hin Hs Hv. by eapply insert_visible_holds.
Qed.

Section exports.
Context (units : btree ModuleUnit) (own : btree Namespace).
Context (Hown : ∀ key u ds, bt_get key units = Some u → bt_get key own = Some ds →
  declares_exactly u (item_names (unit_program u)) (variant_occurrences (unit_program u)) ds).

Lemma declares_holds u ds :
  declares_exactly u (item_names (unit_program u)) (variant_occurrences (unit_program u)) ds →
  holds ds (λ x m, declared u x = Some m).
Proof.
  intros [Hs He]. split; [done|..].
  - intros x d Hd. specialize (He x). by rewrite Hd in He.
  - intros x m Hm. specialize (He x). unfold declared in Hm. rewrite Hm in He.
    destruct (bt_get x ds) as [d|]; [|done]. injection He as <-. eauto.
Qed.

(** What [export_item] adds for a public name. *)
Definition publishes (u : ModuleUnit) (public : Spanned string) (x : string) (m : Meaning) : Prop :=
  x = node public ∧ declared u x = Some m
  ∨ ∃ e v owner canonical, declared u (node public) = Some (owner, DEnum)
      ∧ List.find (λ e, String.eqb (enum_name e) (node public)) (program_enums (unit_program u)) = Some e
      ∧ v ∈ enum_variants e ∧ variant_names units !! (owner, variant_name v) = Some canonical
      ∧ x = variant_name v ∧ m = (canonical, DVariant owner).

Lemma export_item_holds u ds public ns P ns' :
  holds ds (λ x m, declared u x = Some m) → holds ns P →
  export_item u ds (variant_names units) ns public = Ok ns' →
  holds ns' (λ x m, P x m ∨ publishes u public x m).
Proof.
  intros Hds Hns H. unfold export_item in H. inv_ok H.
  destruct (bt_get (node public) ds) as [d|] eqn:Hget; [|done]. injection Hv as <-.
  pose proof (holds_only _ _ Hds _ _ Hget) as Hd. simpl in Hd.
  eapply insert_visible_holds in Hv0; [|exact Hns]. destruct (is_enum d) eqn:Henum.
  - inv_ok H. destruct (List.find _ _) as [e|] eqn:Hfind; [|done]. injection Hv as <-.
    assert (defn_kind d = DEnum) as Hkind by (unfold is_enum in Henum; by destruct (defn_kind d)).
    unfold view in Hd. rewrite Hkind in Hd.
    eapply (for_each_holds _ (λ v x m, x = variant_name v ∧ ∃ canonical,
      variant_names units !! (defn_canonical d, variant_name v) = Some canonical
      ∧ m = (canonical, DVariant (defn_canonical d)))) in H; [| |exact Hv0].
    + eapply holds_iff; [exact H|]. intros x m. unfold publishes. unfold view. rewrite Hkind.
      split.
      * intros [ [?|[-> ->] ]|(v & Hin & -> & c & Hc & ->)]; [by left|by right; left|right; right].
        by exists e, v, (defn_canonical d), c.
      * intros [?|[ [-> Hm]|(e' & v & owner & c & Ho & He & Hin & Hc & -> & ->)] ]; [by left; left|..].
        -- left. right. split; [done|]. congruence.
        -- right. rewrite Hd in Ho. injection Ho as <-. rewrite Hfind in He. injection He as <-.
           eauto 6.
    + intros v s R s' Hin Hs Hstep. unfold export_variant in Hstep. inv_ok Hstep.
      destruct (variant_names units !! _) as [c|] eqn:Hc; [|done]. injection Hv as <-.
      eapply insert_visible_holds in Hstep; [|exact Hs]. eapply holds_iff; [exact Hstep|].
      unfold view. simpl. intros x m. split; [naive_solver|].
      intros [?|(-> & c' & Hc' & ->)]; [by left|right]. by injection Hc' as <-.
  - injection H as <-. eapply holds_iff; [exact Hv0|]. intros x m. unfold publishes. split.
    + intros [?|[-> ->] ]; [by left|by right; left].
    + intros [?|[ [-> Hm]|(e & v & owner & c & Ho & _)] ]; [by left|right; split; congruence|].
      rewrite Hd in Ho. injection Ho as _ Hk. unfold is_enum in Henum. by rewrite Hk in Henum.
Qed.

(** The surfaces of [exports] hold what their modules export. *)
Definition exports_exactly (exports : btree Namespace) : Prop :=
  ∀ key surface, bt_get key exports = Some surface → holds surface (exported units key).

Lemma import_from_holds exports entries ns P ns' :
  exports_exactly exports → holds ns P → for_each (import_from exports) entries ns = Ok ns' →
  holds ns' (λ x m, P x m ∨ ∃ entry : ImportDeclaration * string,
    entry ∈ entries ∧ brings_in (exported units entry.2) entry.1 x m).
Proof.
  intros Hex. apply for_each_holds. intros entry s R s' _ Hs H. unfold import_from in H. inv_ok H.
  destruct (bt_get entry.2 exports) as [src|] eqn:Hsrc; [|done]. injection Hv as <-.
  eapply import_surface_holds; [done|by apply Hex|done].
Qed.

Lemma exported_parts key u x m :
  bt_get key units = Some u →
  exported units key x m ↔
  (∃ public, public ∈ program_public_items (unit_program u) ∧ publishes u public x m)
  ∨ ∃ entry, entry ∈ List.filter (λ entry, import_public entry.1) (unit_imports u)
      ∧ brings_in (exported units entry.2) entry.1 x m.
Proof.
  intros Hu. split.
  - intros H. inversion H as [key' u' name m' Hu' Hin Hd|key' u' name e v owner c Hu' Hin Hd Hf Hv Hc|
      key' import target name m' (u' & Hu' & Hin) Hp Hi He|
      key' import target items item m' (u' & Hu' & Hin) Hp Hi Hitem He]; subst;
      rewrite Hu in Hu'; injection Hu' as <-.
    + apply list_elem_of_fmap in Hin as (public & -> & Hin). left. exists public. split; [done|by left].
    + apply list_elem_of_fmap in Hin as (public & -> & Hin). left. exists public. split; [done|right].
      by exists e, v, owner, c.
    + right. exists (import, target). split.
      * by apply list_elem_of_In, List.filter_In; split; [apply list_elem_of_In|].
      * unfold brings_in. simpl. by rewrite Hi.
    + right. exists (import, target). split.
      * by apply list_elem_of_In, List.filter_In; split; [apply list_elem_of_In|].
      * unfold brings_in. simpl. rewrite Hi. by exists item.
  - intros [(public & Hin & [ [-> Hd]|(e & v & owner & c & Ho & Hf & Hv & Hc & -> & ->)])|
      ([import target] & Hin & Hb)].
    + eapply exported_item; [done| |done]. by apply list_elem_of_fmap_2.
    + eapply exported_variant; [done| |done..]. by apply list_elem_of_fmap_2.
    + apply list_elem_of_In, List.filter_In in Hin as [Hin Hp]. apply list_elem_of_In in Hin.
      assert (imports_of units key import target) as Himp by by exists u.
      unfold brings_in in Hb. simpl in *. destruct (import_items import) as [items|] eqn:Hi.
      * destruct Hb as (item & Hitem & <- & He). by eapply exported_selected.
      * by eapply exported_all.
Qed.

Lemma all_exports_exactly order exports :
  all_exports units own (variant_names units) order = Ok exports → exports_exactly exports.
Proof.
  apply for_each_inv; [|by intros key surface]. intros ex key ex' _ Hex Hstep.
  unfold export_step in Hstep. inv_ok Hstep.
  destruct (bt_get key units) as [u|] eqn:Hu; [injection Hv as <-|done].
  destruct (bt_get key own) as [ds|] eqn:Hds; [injection Hv0 as <-|done].
  injection Hstep as <-. intros key' surface. rewrite bt_get_insert.
  destruct (String.eqb_spec key' key) as [->|]; [|by apply Hex]. intros [= <-].
  pose proof (declares_holds u ds (Hown _ _ _ Hu Hds)) as Hdecl.
  unfold export_surface in Hv1. inv_ok Hv1.
  eapply (for_each_holds _ (publishes u) _ _ (λ _ _, False)) in Hv;
    [|intros; by eapply export_item_holds|by split; [constructor|..] ].
  eapply import_from_holds in Hv1; [|done|exact Hv].
  eapply holds_iff; [exact Hv1|]. intros x m. rewrite (exported_parts key u) by done. naive_solver.
Qed.

(** The namespace of a module holds what the module sees. *)
Lemma namespace_holds exports key u ds ns :
  exports_exactly exports → bt_get key units = Some u → bt_get key own = Some ds →
  namespace_of u ds exports = Ok ns → holds ns (sees units key).
Proof.
  intros Hex Hu Hds Hns. pose proof (declares_holds u ds (Hown _ _ _ Hu Hds)) as Hdecl.
  eapply import_from_holds in Hns; [|done|exact Hdecl].
  eapply holds_iff; [exact Hns|]. intros x m. unfold sees, imports_of. split.
  - intros [Hd|([import target] & Hin & Hb)]; [by left; exists u|right]. by exists import, target; eauto.
  - intros [(u' & Hu' & Hd)|(import & target & (u' & Hu' & Hin) & Hb)];
      rewrite Hu in Hu'; injection Hu' as <-; [by left|right]. by exists (import, target).
Qed.
End exports.
