(* ===== verification/LinkNames.v ===== *)
(** * Linking respects scopes ([compiler/src/project.rs], [Renamer])

    The names a piece of code mentions, apart from the variables it binds itself, are what
    it needs from the modules around it.  Renaming maps each mentioned name to the item the
    module sees under that name, and leaves every use of a local variable alone; no item is
    captured by a variable. *)

From S2P Require Import Prelude Machine Diagnostics BTree Ast Expansion ExpansionProps Link LinkProps LinkScope.
#[local] Open Scope string_scope.
#[local] Open Scope list_scope.

(** ** The names code mentions *)

Inductive Mention :=
| NName (name : string)                    (* a name used as a value *)
| NField (object field : string)           (* a field of a name *)
| NAssigned (name : string)                (* the target of an assignment *)
| NType (name : string)
| NStruct (name : string)                  (* a struct built or matched *)
| NSchema (name : string)                  (* the schema of a data query *)
| NVariant (owner : option string) (variant : string).

(** Uses of variables that a scope with the variables [bound] keeps to itself. *)
Definition hides (bound : NameScope) (m : Mention) : bool :=
  match m with
  | NName x | NField x _ | NAssigned x => bool_decide (x ∈ bound)
  | _ => false
  end.
Definition outside (bound : NameScope) (l : list Mention) : list Mention :=
  List.filter (λ m, negb (hides bound m)) l.

Definition optional {A} (f : A → list Mention) (o : option A) : list Mention :=
  match o with Some a => f a | None => [] end.

Fixpoint pattern_mentions (p : Pattern) : list Mention :=
  match p with
  | POr alternatives => flat_map (λ a, pattern_mentions (node a)) alternatives
  | PStruct type_name fields _ =>
    NStruct type_name
      :: flat_map (λ f, match f with
                        | mkStructPatternField _ _ p => pattern_mentions (node p)
                        end) fields
  | PVariant type_name variant arguments =>
    NVariant type_name variant :: flat_map (λ a, pattern_mentions (node a)) arguments
  | _ => []
  end.

Definition field_mention (object : Expression) (field : string) : list Mention :=
  match object with EIdentifier x => [NField x field] | _ => [] end.

Definition statement_binds (s : Statement) : NameScope :=
  match s with SBinding _ name _ _ _ => {[name]} | _ => ∅ end.

Section mentions.
Context (generics : list NameScope).

Fixpoint type_mentions (ty : TypeName) : list Mention :=
  match ty with
  | mkTypeName name arguments _ _ =>
    flat_map type_mentions arguments
      ++ if (String.eqb name "Self" || in_scopes generics name)%bool then [] else [NType name]
  end.
Definition parameter_mentions (ps : list Param) : list Mention :=
  flat_map (λ p, type_mentions (parameter_ty p)) ps.

Fixpoint mentions (e : Expression) {struct e} : list Mention :=
  let of_ (e : Expr) := mentions (node e) in
  match e with
  | EArray values => flat_map of_ values
  | EClosure _ parameters return_type body =>
    parameter_mentions parameters ++ optional type_mentions return_type
      ++ outside (parameter_scope parameters)
           (match body with
            | CExpression value => of_ value
            | CBlock block => block_mentions block
            end)
  | EIdentifier name => [NName name]
  | EStructConstruct name _ fields =>
    NStruct name
      :: flat_map (λ f, match f with mkStructFieldValue _ _ value => of_ value end) fields
  | EDataWrite value store _ => of_ value ++ of_ store
  | EDataStore path => optional of_ path
  | EDataQuery _ schema _ aggregate store predicate order limit =>
    NSchema schema :: optional of_ aggregate ++ of_ store ++ optional of_ predicate
      ++ optional (λ o, match o with mkDataOrder key _ _ => of_ key end) order
      ++ optional of_ limit
  | EDataRemove schema _ store predicate => NSchema schema :: of_ store ++ of_ predicate
  | EFieldAccess object field _ => field_mention (node object) field ++ of_ object
  | EIndex object index => of_ object ++ of_ index
  | ESubslice object start end_ => of_ object ++ of_ start ++ of_ end_
  | EMatch value arms =>
    of_ value
      ++ flat_map (λ arm,
           match arm with
           | mkMatchArm pattern _ guard value _ =>
             pattern_mentions (node pattern)
               ++ outside (pattern_binding_names (node pattern)) (optional of_ guard ++ of_ value)
           end) arms
  | ETry value | EAwait value | ESpawn value | EMove value | EDereference value
  | EUnary _ value | EBorrow _ value => of_ value
  | EBinary lhs _ rhs => of_ lhs ++ of_ rhs
  | ECall callee arguments => of_ callee ++ flat_map of_ arguments
  | EInteger _ | EFloat _ | EString _ | ECharacter _ | EBool _ => []
  end
with statement_mentions (s : Statement) {struct s} : list Mention :=
  let of_ (e : Expr) := mentions (node e) in
  match s with
  | SBinding _ _ _ annotation value => optional type_mentions annotation ++ optional of_ value
  | SAssignment name _ _ value => NAssigned name :: of_ value
  | SPlaceAssignment target _ value => of_ target ++ of_ value
  | SExpression value => of_ value
  | SReturn value => optional of_ value
  | SIf condition then_branch else_branch =>
    of_ condition ++ block_mentions then_branch ++ optional block_mentions else_branch
  | SWhile condition body => of_ condition ++ block_mentions body
  | SFor name _ start end_ _ body =>
    of_ start ++ of_ end_ ++ outside {[name]} (block_mentions body)
  | SForEach name _ iterable body => of_ iterable ++ outside {[name]} (block_mentions body)
  | SLoop body | SUnsafe _ body => block_mentions body
  | SBreak | SContinue => []
  end
with block_mentions (b : Block) {struct b} : list Mention :=
  match b with
  | mkBlock statements _ =>
    fold_right (λ s rest, statement_mentions (node s) ++ outside (statement_binds (node s)) rest)
      [] statements
  end.
End mentions.

(** What a function needs from outside of it. *)
Definition function_mentions (f : Function) : list Mention :=
  let generics := [generic_names (fn_generics f)] in
  flat_map (λ p, flat_map (type_mentions generics) (generic_constraints p)) (fn_generics f)
    ++ parameter_mentions generics (fn_parameters f)
    ++ optional (type_mentions generics) (fn_return_type f)
    ++ outside (parameter_scope (fn_parameters f)) (block_mentions generics (fn_body f)).

(** ** The variables code binds *)

Fixpoint binders (e : Expression) {struct e} : list string :=
  let of_ (e : Expr) := binders (node e) in
  let maybe (o : option Expr) := match o with Some e => binders (node e) | None => [] end in
  match e with
  | EArray values => flat_map of_ values
  | EClosure _ parameters _ body =>
    map parameter_name parameters
      ++ match body with CExpression value => of_ value | CBlock block => block_binders block end
  | EStructConstruct _ _ fields =>
    flat_map (λ f, match f with mkStructFieldValue _ _ value => of_ value end) fields
  | EDataWrite value store _ => of_ value ++ of_ store
  | EDataStore path => maybe path
  | EDataQuery _ _ _ aggregate store predicate order limit =>
    maybe aggregate ++ of_ store ++ maybe predicate
      ++ match order with Some (mkDataOrder key _ _) => of_ key | None => [] end
      ++ maybe limit
  | EDataRemove _ _ store predicate => of_ store ++ of_ predicate
  | EFieldAccess object _ _ => of_ object
  | EIndex object index => of_ object ++ of_ index
  | ESubslice object start end_ => of_ object ++ of_ start ++ of_ end_
  | EMatch value arms =>
    of_ value
      ++ flat_map (λ arm,
           match arm with
           | mkMatchArm pattern _ guard value _ =>
             elements (pattern_binding_names (node pattern)) ++ maybe guard ++ of_ value
           end) arms
  | ETry value | EAwait value | ESpawn value | EMove value | EDereference value
  | EUnary _ value | EBorrow _ value => of_ value
  | EBinary lhs _ rhs => of_ lhs ++ of_ rhs
  | ECall callee arguments => of_ callee ++ flat_map of_ arguments
  | EIdentifier _ | EInteger _ | EFloat _ | EString _ | ECharacter _ | EBool _ => []
  end
with statement_binders (s : Statement) {struct s} : list string :=
  let of_ (e : Expr) := binders (node e) in
  let maybe (o : option Expr) := match o with Some e => binders (node e) | None => [] end in
  match s with
  | SBinding _ name _ _ value => name :: maybe value
  | SAssignment _ _ _ value | SExpression value => of_ value
  | SPlaceAssignment target _ value => of_ target ++ of_ value
  | SReturn value => maybe value
  | SIf condition then_branch else_branch =>
    of_ condition ++ block_binders then_branch
      ++ match else_branch with Some b => block_binders b | None => [] end
  | SWhile condition body => of_ condition ++ block_binders body
  | SFor name _ start end_ _ body => name :: of_ start ++ of_ end_ ++ block_binders body
  | SForEach name _ iterable body => name :: of_ iterable ++ block_binders body
  | SLoop body | SUnsafe _ body => block_binders body
  | SBreak | SContinue => []
  end
with block_binders (b : Block) {struct b} : list string :=
  match b with mkBlock statements _ => flat_map (λ s, statement_binders (node s)) statements end.

(** The names of the source language do not begin with [$]. *)
Definition reserved (name : string) : bool := String.prefix "$" name.
Definition plain (names : list string) : Prop := Forall (λ x, reserved x = false) names.

(** A namespace in which a name means itself or a canonical name. *)
Definition canonical_namespace (ns : Namespace) : Prop :=
  ∀ x d, bt_get x ns = Some d → defn_canonical d = x ∨ reserved (defn_canonical d) = true.

(** ** Renaming relabels what is mentioned *)

Section relabel.
Context (ns : Namespace) (vs : Variants).

(** The item a name stands for, and the variant a pattern names. *)
Definition item_label (x : string) : string :=
  match bt_get x ns with Some d => defn_canonical d | None => x end.
Definition variant_label (owner : option string) (v : string) : option string * string :=
  match owner with
  | Some o =>
    match bt_get o ns with
    | Some d => (Some (defn_canonical d), default v (vs !! (defn_canonical d, v)))
    | None => (owner, v)
    end
  | None =>
    (None, match bt_get v ns with
           | Some d => if is_variant d then defn_canonical d else v
           | None => v
           end)
  end.

Lemma rename_item_label x : rename_item ns x = item_label x.
Proof. done. Qed.
Lemma rename_variant_label owner v : rename_variant ns vs owner v = variant_label owner v.
Proof. destruct owner as [o|]; simpl; [done|]. by destruct (bt_get v ns). Qed.

(** What the module's namespace makes of a mention, under the local [scopes]. *)
Definition relabel (scopes : list NameScope) (m : Mention) : Mention :=
  match m with
  | NName x => NName (if in_scopes scopes x then x else item_label x)
  | NField x f =>
    if in_scopes scopes x then m
    else
      match bt_get x ns with
      | Some d => NField (defn_canonical d)
                    (if is_enum d then default f (vs !! (defn_canonical d, f)) else f)
      | None => m
      end
  | NAssigned x => NAssigned x
  | NType x =>
    NType (match bt_get x ns with
           | Some d => if is_variant d then x else defn_canonical d
           | None => x
           end)
  | NStruct x => NStruct (item_label x)
  | NSchema x => NSchema (item_label x)
  | NVariant owner variant =>
    let '(owner, variant) := variant_label owner variant in NVariant owner variant
  end.

Context (Hns : canonical_namespace ns).

Lemma item_label_cases x : item_label x = x ∨ reserved (item_label x) = true.
Proof. unfold item_label. destruct (bt_get x ns) eqn:E; [by eapply Hns|by left]. Qed.

Lemma item_label_fresh (bound : NameScope) x :
  plain (elements bound) → x ∉ bound → item_label x ∉ bound.
Proof.
  intros Hp Hx. destruct (item_label_cases x) as [->|Hr]; [done|]. intros Hin.
  unfold plain in Hp. rewrite Forall_forall in Hp. rewrite Hp in Hr; [done|].
  by apply elem_of_elements.
Qed.

Lemma in_scopes_cons scope scopes x :
  in_scopes (scope :: scopes) x = (bool_decide (x ∈ scope) || in_scopes scopes x)%bool.
Proof. done. Qed.

(** Relabelling depends only on which names are local. *)
Lemma relabel_ext s1 s2 m :
  (∀ x, in_scopes s1 x = in_scopes s2 x) → relabel s1 m = relabel s2 m.
Proof. intros H. destruct m; simpl; by rewrite ?H. Qed.

Lemma map_relabel_ext s1 s2 l :
  (∀ x, in_scopes s1 x = in_scopes s2 x) → map (relabel s1) l = map (relabel s2) l.
Proof. intros H. apply map_ext. intros m. by apply relabel_ext. Qed.

Lemma relabel_empty scopes l : map (relabel (∅ :: scopes)) l = map (relabel scopes) l.
Proof.
  apply map_relabel_ext. intros x. rewrite in_scopes_cons. by rewrite bool_decide_eq_false_2.
Qed.

(** Nothing is captured: what a scope hides, it hides before and after. *)
Lemma hides_relabel bound scopes m :
  plain (elements bound) → hides bound (relabel (bound :: scopes) m) = hides bound m.
Proof.
  intros Hp.
  assert (∀ x, x ∉ bound → bool_decide (item_label x ∈ bound) = false) as Hfresh.
  { intros x Hx. apply bool_decide_eq_false. by apply item_label_fresh. }
  assert (∀ x, bool_decide (x ∈ bound) = false → x ∉ bound) as Hout
    by (intros x; apply bool_decide_eq_false).
  destruct m as [x|x f|x|x|x|x|owner v]; simpl; try done;
    [destruct (bool_decide (x ∈ bound)) eqn:E; simpl; [done|]; specialize (Hfresh x (Hout x E))..|].
  - by destruct (in_scopes scopes x).
  - destruct (in_scopes scopes x); simpl; [done|]. unfold item_label in Hfresh.
    by destruct (bt_get x ns).
  - by destruct (variant_label owner v).
Qed.

Lemma relabel_unhidden bound scopes m :
  hides bound m = false → relabel (bound :: scopes) m = relabel scopes m.
Proof.
  destruct m; simpl; try done; intros ->; done.
Qed.

Lemma outside_relabel bound scopes l :
  plain (elements bound) →
  outside bound (map (relabel (bound :: scopes)) l) = map (relabel scopes) (outside bound l).
Proof.
  intros Hp. induction l as [|m l IH]; simpl; [done|]. rewrite hides_relabel by done.
  destruct (hides bound m) eqn:Hm; simpl; [done|]. by rewrite IH, relabel_unhidden.
Qed.

(** ** Lists of parts *)

Lemma flat_map_relabel {A B} (f : A → list Mention) (g : B → list Mention) (r : A → B) ρ l :
  Forall (λ a, g (r a) = map ρ (f a)) l → flat_map g (map r l) = map ρ (flat_map f l).
Proof. induction 1 as [|a l Ha Hl IH]; simpl; [done|]. by rewrite map_app, Ha, IH. Qed.

Lemma optional_relabel {A} (f : A → list Mention) (r : A → A) ρ o :
  on_some (λ a, f (r a) = map ρ (f a)) o →
  optional f (option_map r o) = map ρ (optional f o).
Proof. by destruct o. Qed.

Lemma plain_names_app l1 l2 : plain (l1 ++ l2) ↔ plain l1 ∧ plain l2.
Proof. unfold plain. by rewrite Forall_app. Qed.
Lemma plain_cons x l : plain (x :: l) ↔ reserved x = false ∧ plain l.
Proof. unfold plain. by rewrite Forall_cons. Qed.
Lemma plain_flat_map {A} (f : A → list string) l :
  plain (flat_map f l) ↔ Forall (λ a, plain (f a)) l.
Proof.
  induction l as [|a l IH]; simpl; [split; constructor|].
  by rewrite plain_names_app, Forall_cons, IH.
Qed.

Lemma plain_singleton x : reserved x = false → plain (elements ({[x]} : NameScope)).
Proof. intros H. rewrite elements_singleton. by repeat constructor. Qed.

Lemma plain_list_to_set l : plain l → plain (elements (list_to_set l : NameScope)).
Proof.
  unfold plain. rewrite !Forall_forall. intros H x Hx%elem_of_elements.
  apply elem_of_list_to_set in Hx. auto.
Qed.

(** ** Types and patterns *)

Section generics.
Context (g : list NameScope) (Hg : Forall (λ scope, plain (elements scope)) g).

Lemma generic_plain x : in_scopes g x = true → reserved x = false.
Proof.
  unfold in_scopes. intros (scope & Hin & Hx)%existsb_exists. apply bool_decide_eq_true in Hx.
  rewrite Forall_forall in Hg. specialize (Hg scope ltac:(by apply list_elem_of_In)).
  unfold plain in Hg. rewrite Forall_forall in Hg. by apply Hg, elem_of_elements.
Qed.

Lemma type_relabel scopes ty :
  type_mentions g (rename_type ns g ty) = map (relabel scopes) (type_mentions g ty).
Proof.
  induction ty as [name arguments qualifier s IH] using type_induction. simpl.
  rewrite map_app. f_equal; [by apply flat_map_relabel|].
  destruct (String.eqb name "Self" || in_scopes g name)%bool eqn:Hlocal; [by rewrite Hlocal|].
  simpl. destruct (bt_get name ns) as [d|] eqn:Hget; [|by rewrite Hlocal].
  destruct (is_variant d); [by rewrite Hlocal|].
  destruct (Hns _ _ Hget) as [->|Hr]; [by rewrite Hlocal|].
  destruct (String.eqb_spec (defn_canonical d) "Self") as [Heq|]; [by rewrite Heq in Hr|].
  destruct (in_scopes g (defn_canonical d)) eqn:Hin; [|done].
  apply generic_plain in Hin. congruence.
Qed.

Lemma parameters_relabel scopes ps :
  parameter_mentions g (map (rename_parameter ns g) ps)
  = map (relabel scopes) (parameter_mentions g ps).
Proof. apply flat_map_relabel, Forall_true. intros p. apply type_relabel. Qed.

Lemma parameter_scope_renamed ps :
  parameter_scope (map (rename_parameter ns g) ps) = parameter_scope ps.
Proof. unfold parameter_scope. by rewrite map_map. Qed.

Lemma optional_type_relabel scopes ty :
  optional (type_mentions g) (option_map (rename_type ns g) ty)
  = map (relabel scopes) (optional (type_mentions g) ty).
Proof. apply optional_relabel. destruct ty; simpl; [apply type_relabel|done]. Qed.
End generics.

Lemma pattern_relabel scopes p :
  pattern_mentions (rename_pattern ns vs p) = map (relabel scopes) (pattern_mentions p).
Proof.
  induction p as [p Hp|alternatives IH|type_name fields rest IH|type_name variant arguments IH]
    using pattern_induction.
  - by destruct p.
  - simpl. apply flat_map_relabel. by apply Forall_map in IH.
  - simpl. f_equal. apply flat_map_relabel. apply Forall_map in IH.
    eapply Forall_impl; [exact IH|]. by intros [] H.
  - simpl. rewrite rename_variant_label. destruct (variant_label type_name variant). simpl. f_equal.
    apply flat_map_relabel. by apply Forall_map in IH.
Qed.

Lemma all_names_renamed {A} (g : A → Pattern) (r : A → A) l :
  Forall (λ a, pattern_binding_names (g (r a)) = pattern_binding_names (g a)) l →
  all_names (map g (map r l)) = all_names (map g l).
Proof.
  intros H. unfold all_names. f_equal. rewrite !map_map. apply map_ext_Forall.
  by rewrite Forall_forall in H |- *.
Qed.

(** Renaming does not touch what a pattern binds. *)
Lemma pattern_names_renamed p :
  pattern_binding_names (rename_pattern ns vs p) = pattern_binding_names p.
Proof.
  induction p as [p Hp|alternatives IH|type_name fields rest IH|type_name variant arguments IH]
    using pattern_induction.
  - by destruct p.
  - simpl. rewrite !names_or. apply all_names_renamed. by apply Forall_map in IH.
  - simpl. rewrite !names_struct. apply all_names_renamed. apply Forall_map in IH.
    eapply Forall_impl; [exact IH|]. by intros [] H.
  - simpl. destruct (rename_variant ns vs type_name variant). rewrite !names_variant.
    apply all_names_renamed. by apply Forall_map in IH.
Qed.

(** ** Expressions, statements and blocks *)

Section body.
Context (g : list NameScope) (Hg : Forall (λ scope, plain (elements scope)) g).

Definition expr_relabels (e : Expression) : Prop := ∀ scopes, plain (binders e) →
  mentions g (rename_expr ns vs g scopes e) = map (relabel scopes) (mentions g e).

Definition statement_relabels (s : Statement) : Prop := ∀ scopes local,
  plain (statement_binders s) →
  let r := rename_statement ns vs g scopes local s in
  statement_mentions g r.1 = map (relabel (local :: scopes)) (statement_mentions g s)
  ∧ statement_binds r.1 = statement_binds s ∧ r.2 = statement_binds s ∪ local.

Definition block_relabels (b : Block) : Prop := ∀ scopes local, plain (block_binders b) →
  block_mentions g (rename_block ns vs g scopes local b)
  = map (relabel (local :: scopes)) (block_mentions g b).

(** The statements of a block, each under the variables bound before it. *)
Lemma statements_relabel scopes local statements s :
  Forall (λ st, statement_relabels (node st)) statements →
  plain (block_binders (mkBlock statements s)) →
  block_mentions g (rename_block ns vs g scopes local (mkBlock statements s))
  = map (relabel (local :: scopes)) (block_mentions g (mkBlock statements s)).
Proof.
  simpl. intros H. revert local. induction H as [|st statements Hst _ IH]; intros local; simpl;
    [done|]. rewrite plain_names_app. intros [Hp1 Hp2].
  destruct (Hst scopes local Hp1) as (-> & -> & ->). rewrite map_app. f_equal.
  rewrite IH by done. rewrite <- outside_relabel.
  - f_equal. apply map_relabel_ext. intros x. rewrite !in_scopes_cons, orb_assoc. f_equal.
    rewrite <- bool_decide_or. apply bool_decide_ext. set_solver.
  - destruct (node st); simpl; try apply Forall_nil_2. simpl in Hp1.
    apply plain_cons in Hp1 as [? _]. by apply plain_singleton.
Qed.

Lemma exprs_relabel scopes l :
  Forall (λ e : Expr, expr_relabels (node e)) l →
  plain (flat_map (λ e : Expr, binders (node e)) l) →
  flat_map (λ e : Expr, mentions g (node e))
    (map (λ e : Expr, mkSpanned (rename_expr ns vs g scopes (node e)) (span e)) l)
  = map (relabel scopes) (flat_map (λ e : Expr, mentions g (node e)) l).
Proof.
  intros H Hp%plain_flat_map. apply flat_map_relabel. rewrite Forall_forall in H, Hp |- *.
  intros e Hin. simpl. apply H; auto.
Qed.

Lemma optional_expr_relabel scopes o :
  on_some (λ e : Expr, expr_relabels (node e)) o →
  plain (match o with Some e => binders (node e) | None => [] end) →
  optional (λ e : Expr, mentions g (node e))
    (option_map (λ e : Expr, mkSpanned (rename_expr ns vs g scopes (node e)) (span e)) o)
  = map (relabel scopes) (optional (λ e : Expr, mentions g (node e)) o).
Proof. destruct o; simpl; [|done]. intros H Hp. by apply H. Qed.

Ltac plain_split :=
  repeat match goal with
  | H : plain (_ ++ _) |- _ => apply plain_names_app in H as [? ?]
  | H : plain (_ :: _) |- _ => apply plain_cons in H as [? ?]
  end.

(** Rewrite with the hypotheses on the parts. *)
Ltac relabels :=
  simpl in *; plain_split; rewrite ?map_app; simpl; rewrite ?map_app;
  repeat match goal with
  | H : expr_relabels ?e |- context [mentions g (rename_expr _ _ _ _ ?e)] =>
      rewrite H by done
  | H : block_relabels ?b |- context [block_mentions g (rename_block _ _ _ _ _ ?b)] =>
      rewrite H by done
  end;
  rewrite ?exprs_relabel, ?optional_expr_relabel, ?relabel_empty by done; try done.

Lemma field_relabel scopes object field :
  field_mention (rename_expr ns vs g scopes object) (rename_field ns vs scopes object field)
  = map (relabel scopes) (field_mention object field).
Proof.
  destruct object; try done. simpl. unfold rename_item.
  destruct (in_scopes scopes name); [done|]. destruct (bt_get name ns); simpl; done.
Qed.

Lemma order_relabel scopes o :
  on_some (λ o, match o with mkDataOrder key _ _ => expr_relabels (node key) end) o →
  plain (match o with Some (mkDataOrder key _ _) => binders (node key) | None => [] end) →
  optional (λ o, match o with mkDataOrder key _ _ => mentions g (node key) end)
    (option_map (λ o, match o with
       | mkDataOrder key descending s =>
         mkDataOrder (mkSpanned (rename_expr ns vs g scopes (node key)) (span key)) descending s
       end) o)
  = map (relabel scopes)
      (optional (λ o, match o with mkDataOrder key _ _ => mentions g (node key) end) o).
Proof. destruct o as [ [] | ]; simpl; [|done]. intros H Hp. by apply H. Qed.

Lemma fields_relabel scopes fields :
  Forall (λ f, match f with mkStructFieldValue _ _ v => expr_relabels (node v) end) fields →
  plain (flat_map (λ f, match f with mkStructFieldValue _ _ v => binders (node v) end) fields) →
  flat_map (λ f, match f with mkStructFieldValue _ _ v => mentions g (node v) end)
    (map (λ f, match f with
       | mkStructFieldValue field field_span v =>
         mkStructFieldValue field field_span
           (mkSpanned (rename_expr ns vs g scopes (node v)) (span v))
       end) fields)
  = map (relabel scopes)
      (flat_map (λ f, match f with mkStructFieldValue _ _ v => mentions g (node v) end) fields).
Proof.
  intros H Hp%plain_flat_map. apply flat_map_relabel. rewrite Forall_forall in H, Hp |- *.
  intros [field s v] Hin. specialize (H _ Hin). specialize (Hp _ Hin). simpl in *. by apply H.
Qed.

(** A body under the variables [bound]. *)
Lemma inner_relabel bound scopes (l l' : list Mention) :
  plain (elements bound) → l' = map (relabel (bound :: scopes)) l →
  outside bound l' = map (relabel scopes) (outside bound l).
Proof. intros Hp ->. by apply outside_relabel. Qed.

Lemma arm_relabel scopes pattern group guard value s :
  on_some (λ e : Expr, expr_relabels (node e)) guard → expr_relabels (node value) →
  plain (elements (pattern_binding_names (node pattern))
         ++ match guard with Some e => binders (node e) | None => [] end
         ++ binders (node value)) →
  mentions g (rename_expr ns vs g scopes
                (EMatch (mkSpanned (EBool true) s)
                   [mkMatchArm pattern group guard value s]))
  = map (relabel scopes)
      (mentions g (EMatch (mkSpanned (EBool true) s) [mkMatchArm pattern group guard value s])).
Proof.
  intros Hg' Hv Hp. plain_split. simpl. rewrite !app_nil_r, map_app. f_equal.
  - apply pattern_relabel.
  - rewrite pattern_names_renamed. apply inner_relabel; [done|]. rewrite map_app.
    by rewrite optional_expr_relabel, Hv.
Qed.

Lemma syntax_relabels :
  (∀ e, expr_relabels e) ∧ (∀ s, statement_relabels s) ∧ (∀ b, block_relabels b).
Proof.
  destruct (syntax_mind expr_relabels
    (λ o, match o with mkDataOrder key _ _ => expr_relabels (node key) end)
    (λ c, match c with
          | CExpression v => expr_relabels (node v)
          | CBlock b => block_relabels b
          end)
    (λ f, match f with mkStructFieldValue _ _ v => expr_relabels (node v) end)
    (λ a, match a with
          | mkMatchArm _ _ guard value _ =>
            on_some (λ e : Expr, expr_relabels (node e)) guard ∧ expr_relabels (node value)
          end)
    statement_relabels block_relabels) as (He & _ & _ & _ & _ & Hs & Hb);
    [..|done]; intros; nested; try done;
    try (intros scopes Hp; relabels; fail);
    try (intros scopes local Hp; split_and!; [relabels|done|simpl; set_solver]; fail).
  - (* data query *)
    intros scopes Hp. relabels. by rewrite order_relabel.
  - (* closure *)
    intros scopes Hp. relabels.
    rewrite (parameters_relabel g Hg scopes), (optional_type_relabel g Hg scopes).
    rewrite parameter_scope_renamed. do 2 f_equal.
    apply inner_relabel; [by apply plain_list_to_set|]. destruct body; relabels.
  - (* struct *)
    intros scopes Hp. relabels. by rewrite fields_relabel.
  - (* field access *)
    intros scopes Hp. relabels. by rewrite field_relabel.
  - (* match *)
    intros scopes Hp. relabels. f_equal. apply flat_map_relabel.
    match goal with H : plain (flat_map _ _) |- _ => apply plain_flat_map in H as Hp' end.
    rewrite Forall_forall in *. intros [pattern group guard v s] Hin.
    match goal with H : ∀ x, x ∈ arms → match x with _ => _ end |- _ =>
      destruct (H _ Hin) as [Hgd Hv] end.
    pose proof (arm_relabel scopes pattern group guard v s Hgd Hv (Hp' _ Hin)) as H'.
    simpl in H'. by rewrite !app_nil_r in H'.
  - (* binding *)
    intros scopes local Hp. split_and!; [relabels|done|done].
    by rewrite (optional_type_relabel g Hg (local :: scopes)).
  - (* if *)
    intros scopes local Hp. split_and!; [|done|simpl; set_solver].
    destruct else_branch; relabels.
  - (* for *)
    intros scopes local Hp. split_and!; [|done|simpl; set_solver]. relabels. do 2 f_equal.
    apply inner_relabel; [by apply plain_singleton|done].
  - (* for each *)
    intros scopes local Hp. split_and!; [|done|simpl; set_solver]. relabels. f_equal.
    apply inner_relabel; [by apply plain_singleton|done].
  - (* block *)
    intros scopes local Hp. by apply statements_relabel.
Qed.
End body.
End relabel.

(** ** Functions *)

Definition plain_function (f : Function) : Prop :=
  plain (map generic_name (fn_generics f)) ∧ plain (map parameter_name (fn_parameters f))
  ∧ plain (block_binders (fn_body f)).

Lemma generic_names_renamed ns g ps :
  generic_names (map (rename_constraints ns g) ps) = generic_names ps.
Proof. unfold generic_names. by rewrite map_map. Qed.

Lemma function_relabel ns vs f :
  canonical_namespace ns → plain_function f →
  function_mentions (rename_function ns vs f) = map (relabel ns vs []) (function_mentions f).
Proof.
  intros Hns (Hg & Hp & Hb). unfold function_mentions. simpl.
  rewrite generic_names_renamed, parameter_scope_renamed. set (g := [generic_names _]).
  assert (Forall (λ scope : NameScope, plain (elements scope)) g) as Hg'
    by (repeat constructor; by apply plain_list_to_set).
  destruct (syntax_relabels ns vs Hns g Hg') as (_ & _ & Hblock).
  rewrite !map_app. f_equal; [|f_equal; [|f_equal] ].
  - apply flat_map_relabel, Forall_true. intros p. simpl.
    apply flat_map_relabel, Forall_true. intros ty. by apply type_relabel.
  - by apply parameters_relabel.
  - by apply optional_type_relabel.
  - apply inner_relabel; [done|by apply plain_list_to_set|].
    rewrite Hblock by done. apply relabel_empty.
Qed.

(** ** Canonical names in namespaces *)

(** Every entry of a namespace satisfies [P]. *)
Definition entries (P : string → Defn → Prop) (ns : Namespace) : Prop :=
  ∀ x d, (x, d) ∈ ns → P x d.

Lemma entries_nil P : entries P [].
Proof. by intros x d ?%not_elem_of_nil. Qed.
Lemma entries_insert P ns name d : entries P ns → P name d → entries P (bt_insert name d ns).
Proof. intros H Hd x d' [[= -> ->]|Hin]%elem_of_bt_insert; auto. Qed.
Lemma entries_remove P ns name : entries P ns → entries P (bt_remove name ns).
Proof. intros H x d Hin%elem_of_bt_remove. auto. Qed.
Lemma entries_mono (P Q : string → Defn → Prop) ns :
  entries P ns → (∀ x d, P x d → Q x d) → entries Q ns.
Proof. intros H HPQ x d Hin. auto. Qed.
Lemma entries_get P ns x d : entries P ns → bt_get x ns = Some d → P x d.
Proof. intros H Hget%bt_get_In. auto. Qed.

Lemma insert_definition_entries P ns name d ns' :
  entries P ns → P name d → insert_definition ns name d = Ok ns' → entries P ns'.
Proof.
  unfold insert_definition. intros H Hd. case_match; [done|]. intros [= <-].
  by apply entries_insert.
Qed.

Lemma insert_visible_entries P ns name d s ns' :
  entries P ns → P name d → insert_visible ns name d s = Ok ns' → entries P ns'.
Proof.
  unfold insert_visible. intros H Hd. repeat case_match; try done; intros [= <-]; [done|].
  by apply entries_insert.
Qed.

(** What is imported satisfies [P] under any name. *)
Lemma import_surface_entries P dst src import dst' :
  entries (λ _ d, ∀ x, P x d) src → entries P dst →
  import_surface dst src import = Ok dst' → entries P dst'.
Proof.
  intros Hsrc Hdst. unfold import_surface. destruct (import_items import) as [items|].
  - apply for_each_inv; [|done]. intros ns item ns' _ Hns Hstep. unfold import_item in Hstep.
    inv_ok Hstep. destruct (bt_get (item_name item) src) eqn:Hget; [|done].
    injection Hv as ->. eapply insert_visible_entries; [done| |done].
    by apply (entries_get _ _ _ _ Hsrc Hget).
  - apply for_each_inv; [|done]. intros ns [x d] ns' Hin Hns Hstep.
    eapply insert_visible_entries; [done| |done]. by apply (Hsrc x).
Qed.

Lemma import_from_entries P exports l dst dst' :
  (∀ i t src, (i, t) ∈ l → bt_get t exports = Some src → entries (λ _ d, ∀ x, P x d) src) →
  entries P dst → for_each (import_from exports) l dst = Ok dst' → entries P dst'.
Proof.
  intros Hl. apply for_each_inv. intros ns [i t] ns' Hin Hns Hstep. unfold import_from in Hstep.
  simpl in Hstep. destruct (bt_get t exports) as [src|] eqn:Hget; [|done]. simpl in Hstep.
  eapply import_surface_entries; [by eapply Hl|done|done].
Qed.

(** The canonical name of an item of a module: its own name in the root, and otherwise a
    name that no source can spell. *)
Definition own_label (root : bool) (x : string) (d : Defn) : Prop :=
  if root then defn_canonical d = x else reserved (defn_canonical d) = true.

Lemma canonical_name_label u name k s : own_label (unit_root u) name (mkDefn (canonical_name u name) k s).
Proof. unfold own_label, canonical_name, canonical_name_parts. by destruct (unit_root u). Qed.

(** A variant of an enum with a canonical name has a canonical name. *)
Definition variants_labelled (vs : Variants) : Prop :=
  ∀ c v w, vs !! (c, v) = Some w → reserved c = true → reserved w = true.

Definition plain_items (u : ModuleUnit) : Prop :=
  plain (map enum_name (program_enums (unit_program u))).

Definition labelled (root : bool) (st : Namespace * Variants) : Prop :=
  entries (own_label root) st.1 ∧ variants_labelled st.2.

Lemma insert_items_labelled {A} u (name : A → string) (sp : A → Span) l ds ds' :
  entries (own_label (unit_root u)) ds →
  for_each (λ ds a, insert_item u ds (name a) (sp a)) l ds = Ok ds' →
  entries (own_label (unit_root u)) ds'.
Proof.
  apply for_each_inv. intros ns a ns' _ Hns. apply insert_definition_entries; [done|].
  apply canonical_name_label.
Qed.

Lemma define_variant_labelled u owner st v :
  (unit_root u = true → reserved owner = false) →
  labelled (unit_root u) st → labelled (unit_root u) (define_variant u owner st v).
Proof.
  intros Howner [Hds Hvs]. split.
  - destruct st as [ds vs]. unfold define_variant. simpl in *.
    destruct (bt_get _ ds) as [p|]; [destruct (is_variant p)|]; simpl;
      [by apply entries_remove|done|]. apply entries_insert; [done|].
    unfold own_label, canonical_variant, canonical_variant_parts. by destruct (unit_root u).
  - rewrite define_variant_known. intros c x w.
    destruct (decide ((c, x) = (canonical_name u owner, variant_name v))) as [Heq|Hne].
    + rewrite Heq, lookup_insert_eq. intros [= <-]. injection Heq as -> ->.
      unfold canonical_name, canonical_name_parts, canonical_variant, canonical_variant_parts.
      destruct (unit_root u); [|done]. by rewrite Howner.
    + rewrite lookup_insert_ne by done. apply Hvs.
Qed.

Lemma own_definitions_labelled u vs st :
  (unit_root u = true → plain_items u) → variants_labelled vs →
  own_definitions u vs = Ok st → labelled (unit_root u) st.
Proof.
  intros Hp Hvs H. unfold own_definitions in H. inv_ok H. injection H as <-.
  assert (labelled (unit_root u) (v1, v2)) as [Hds Hvs'].
  { eapply for_each_inv; [| |exact Hv0].
    - intros st e st' Hin [Hst1 Hst2] Hstep. unfold define_enum in Hstep. inv_ok Hstep.
      injection Hstep as <-.
      assert (unit_root u = true → reserved (enum_name e) = false) as Howner.
      { intros Hr. specialize (Hp Hr). unfold plain_items, plain in Hp.
        rewrite Forall_map, Forall_forall in Hp. auto. }
      apply (fold_left_inv (labelled (unit_root u))).
      + intros st' v' _ Hst'. by apply define_variant_labelled.
      + split; [|done]. eapply insert_definition_entries; [done| |done].
        apply canonical_name_label.
    - split; [|done]. eapply (insert_items_labelled u); [apply entries_nil|exact Hv]. }
  split; [|done]. simpl in *. eapply (insert_items_labelled u); [|exact Hv2].
  eapply (insert_items_labelled u); [|exact Hv1]. done.
Qed.

(** ** The namespaces of a project *)

(** What linking relies on, and the loader provides. *)
Record linkable (units : btree ModuleUnit) (order : list string) : Prop := {
  linkable_sorted : bt_sorted units;
  linkable_once : NoDup order;
  linkable_order : imports_first units order;
  linkable_roots : ∀ key u t ut, bt_get key units = Some u → t ∈ unit_import_targets u →
    bt_get t units = Some ut → unit_root ut = false }.

Section project.
Context (units : btree ModuleUnit) (order : list string) (Hlink : linkable units order).
Context (Hplain : ∀ key u, (key, u) ∈ units → plain_items u).

Lemma all_definitions_labelled own vs :
  all_definitions units = Ok (own, vs) →
  variants_labelled vs ∧ ∀ key u ds, bt_get key units = Some u → bt_get key own = Some ds →
    entries (own_label (unit_root u)) ds.
Proof.
  intros H.
  assert (safe (all_definitions units) (λ st, variants_labelled st.2 ∧
    ∀ key u, (key, u) ∈ units → ∃ ds, bt_get key st.1 = Some ds
      ∧ entries (own_label (unit_root u)) ds)) as Hs.
  { apply (safe_for_each_prefix (λ l st, variants_labelled st.2 ∧
      ∀ key u, (key, u) ∈ l → ∃ ds, bt_get key st.1 = Some ds
        ∧ entries (own_label (unit_root u)) ds)).
    - intros l [key u] r [own' vs'] Heq [Hvs Hown]. unfold own_step. simpl in *.
      eapply safe_bind; [apply own_definitions_safe|]. intros st Hst _.
      apply own_definitions_labelled in Hst as [Hds Hvs'].
      + destruct st as [ds vs2]. simpl in *. split; [done|].
        intros key' u' [Hin|Hnew%list_elem_of_singleton]%elem_of_app; rewrite bt_get_insert.
        * destruct (String.eqb_spec key' key) as [->|]; [exfalso|auto].
          pose proof (linkable_sorted _ _ Hlink) as Hsorted. rewrite Heq in Hsorted.
          by apply (sorted_distinct _ _ _ _ _ Hsorted Hin).
        * injection Hnew as -> ->. rewrite String.eqb_refl. eauto.
      + intros _. apply (Hplain key). rewrite Heq. apply elem_of_app. right. left.
      + done.
    - split; [|by intros key u ?%not_elem_of_nil]. by intros c v w. }
  rewrite H in Hs. simpl in Hs. destruct Hs as [Hvs Hown]. split; [done|].
  intros key u ds Hu Hds. destruct (Hown key u) as (ds' & Hds' & He); [by apply bt_get_In|].
  simpl in Hds'. rewrite Hds in Hds'. by injection Hds' as ->.
Qed.

(** No source can spell the canonical name of an item of a module other than the root. *)
Definition reserved_entry (_ : string) (d : Defn) : Prop := reserved (defn_canonical d) = true.

Lemma export_item_labelled u ds vs surface public surface' :
  entries reserved_entry ds → variants_labelled vs → entries reserved_entry surface →
  export_item u ds vs surface public = Ok surface' → entries reserved_entry surface'.
Proof.
  intros Hds Hvs Hs H. unfold export_item in H. inv_ok H.
  destruct (bt_get (node public) ds) as [d|] eqn:Hget; [|done]. injection Hv as ->.
  pose proof (entries_get _ _ _ _ Hds Hget) as Hd.
  apply insert_visible_entries with (P := reserved_entry) in Hv0; [|done|done].
  destruct (is_enum v); [|injection H as <-; done]. inv_ok H.
  revert H. apply for_each_inv; [|done]. intros ns w ns' _ Hns Hstep.
  unfold export_variant in Hstep. inv_ok Hstep.
  destruct (vs !! _) as [c|] eqn:Hc; [|done]. injection Hv1 as ->.
  eapply insert_visible_entries; [done| |done]. by eapply Hvs.
Qed.

Section exports.
Context (own : btree Namespace) (vs : Variants) (Hvs : variants_labelled vs).
Context (Hown : ∀ key u ds, bt_get key units = Some u → bt_get key own = Some ds →
  entries (own_label (unit_root u)) ds).

(** Everything a module other than the root exports has a canonical name. *)
Definition exports_labelled (exports : btree Namespace) : Prop :=
  ∀ key u surface, bt_get key units = Some u → unit_root u = false →
    bt_get key exports = Some surface → entries reserved_entry surface.

(** What a module imports comes from modules other than the root. *)
Lemma imported_entries exports key u i t src :
  exports_labelled exports → bt_get key units = Some u → key ∈ order →
  (i, t) ∈ unit_imports u → bt_get t exports = Some src → entries reserved_entry src.
Proof.
  intros Hex Hu Hkey Hin%elem_of_zip_r Hsrc.
  apply list_elem_of_split in Hkey as (l & r & Heq).
  destruct (linkable_order _ _ Hlink l key r Heq) as (u' & Hu' & Ht).
  rewrite Hu in Hu'. injection Hu' as <-. rewrite Forall_forall in Ht.
  destruct (imports_first_get units order t) as (ut & Hut); [apply Hlink|..].
  { rewrite Heq. apply elem_of_app. left. auto. }
  eapply Hex; [exact Hut| |exact Hsrc]. by eapply (linkable_roots _ _ Hlink key u t).
Qed.

Lemma all_exports_labelled exports :
  all_exports units own vs order = Ok exports → exports_labelled exports.
Proof.
  apply for_each_inv; [|by intros key u surface]. intros ex key ex' Hin Hex Hstep.
  unfold export_step in Hstep. inv_ok Hstep.
  destruct (bt_get key units) as [u|] eqn:Hu; [injection Hv as ->|done].
  destruct (bt_get key own) as [ds|] eqn:Hds; [injection Hv0 as ->|done].
  injection Hstep as <-. intros key' u' surface Hu' Hroot. rewrite bt_get_insert.
  destruct (String.eqb_spec key' key) as [->|]; [|by eapply Hex]. intros [= <-].
  rewrite Hu in Hu'. injection Hu' as ->.
  assert (entries reserved_entry v0) as Hds'.
  { eapply entries_mono; [by eapply Hown|]. unfold own_label. by rewrite Hroot. }
  unfold export_surface in Hv1. inv_ok Hv1. eapply import_from_entries; [| |exact Hv1].
  - intros i t src Hit Hsrc. apply list_elem_of_In, List.filter_In in Hit as [Hit _].
    apply list_elem_of_In in Hit. eapply entries_mono; [by eapply imported_entries|].
    by intros x d Hd y.
  - revert Hv. apply for_each_inv; [|apply entries_nil].
    intros s0 public s1 _ Hs0. by apply export_item_labelled.
Qed.

Lemma namespace_canonical exports key u ds ns :
  exports_labelled exports → key ∈ order → bt_get key units = Some u →
  bt_get key own = Some ds → namespace_of u ds exports = Ok ns → canonical_namespace ns.
Proof.
  intros Hex Hkey Hu Hds Hns x d Hd%bt_get_In. revert x d Hd.
  eapply (import_from_entries (λ x d, defn_canonical d = x ∨ reserved (defn_canonical d) = true));
    [| |exact Hns].
  - intros i t src Hit Hsrc. eapply entries_mono; [by eapply imported_entries|].
    intros x d Hd y. by right.
  - eapply entries_mono; [by eapply Hown|]. intros x d. unfold own_label.
    destruct (unit_root u); auto.
Qed.
End exports.
End project.

(** ** Linking *)

(** The function [f'] that linking makes of [f]: what it mentions is what [f] mentions, as
    the namespace of the module sees it. *)
Definition follows (ns : Namespace) (vs : Variants) (f f' : Function) : Prop :=
  function_mentions f' = map (relabel ns vs []) (function_mentions f).

Definition functions_follow (ns : Namespace) (vs : Variants) (p p' : Program) : Prop :=
  Forall2 (follows ns vs) (program_functions p) (program_functions p') ∧
  Forall2 (λ i i', Forall2 (follows ns vs) (impl_methods i) (impl_methods i'))
    (program_implementations p) (program_implementations p').

(** Names of the source: nothing declared begins with [$]. *)
Definition plain_unit (u : ModuleUnit) : Prop :=
  plain_items u ∧ Forall plain_function (program_functions (unit_program u)) ∧
  Forall (λ i, Forall plain_function (impl_methods i)) (program_implementations (unit_program u)).

Lemma Forall2_map_r {A B} (R : A → B → Prop) (f : A → B) l :
  Forall (λ a, R a (f a)) l → Forall2 R l (map f l).
Proof. by induction 1; constructor. Qed.

Lemma rename_program_follows ns vs u :
  canonical_namespace ns → plain_unit u →
  functions_follow ns vs (unit_program u) (unit_program (rename_unit ns vs u)).
Proof.
  intros Hns (_ & Hf & Hm). split; apply Forall2_map_r.
  - eapply Forall_impl; [exact Hf|]. intros f Hpf. exact (function_relabel ns vs f Hns Hpf).
  - eapply Forall_impl; [exact Hm|]. intros i Hi. apply Forall2_map_r.
    eapply Forall_impl; [exact Hi|]. intros f Hpf. exact (function_relabel ns vs f Hns Hpf).
Qed.

Lemma linked_functions us linked :
  program_functions (fold_left append_program (map unit_program us) linked)
  = program_functions linked ++ flat_map (λ u, program_functions (unit_program u)) us.
Proof.
  revert linked. induction us as [|u us IH]; intros linked; simpl; [by rewrite app_nil_r|].
  rewrite IH. simpl. by rewrite <- app_assoc.
Qed.

Lemma linked_implementations us linked :
  program_implementations (fold_left append_program (map unit_program us) linked)
  = program_implementations linked ++ flat_map (λ u, program_implementations (unit_program u)) us.
Proof.
  revert linked. induction us as [|u us IH]; intros linked; simpl; [by rewrite app_nil_r|].
  rewrite IH. simpl. by rewrite <- app_assoc.
Qed.

