(* ===== verification/Paths.v ===== *)
(** * Paths and the file system

    The part of [std::path] and [std::fs] the project code uses, on Unix: a path is the
    list of its components ([Path::components]), and [Files] is the file system as the
    compiler finds it, each of whose calls may fail with the text of its cause.  The
    compiler only reads sources, so the file system does not change. *)

From S2P Require Import Prelude Machine Utf8.
#[local] Open Scope string_scope.
#[local] Open Scope list_scope.

Inductive Component := RootDir | CurDir | ParentDir | Normal (name : string).
#[export] Instance Component_eq_dec : EqDecision Component.
Proof. solve_decision. Defined.
#[export] Instance Component_countable : Countable Component.
Proof.
  refine (inj_countable'
    (λ c, match c with
          | RootDir => inl 0 | CurDir => inl 1 | ParentDir => inl 2 | Normal s => inr s
          end)
    (λ x, match x with
          | inl 0 => RootDir | inl 1 => CurDir | inl _ => ParentDir | inr s => Normal s
          end) _).
  by intros [].
Defined.

Abbreviation Path := (list Component).

(** ** Text *)

Fixpoint split_chars (separator : char) (l : list char) : list (list char) :=
  match l with
  | [] => [[]]
  | c :: rest =>
    if (c =? separator)%Z then [] :: split_chars separator rest
    else match split_chars separator rest with
         | piece :: more => (c :: piece) :: more
         | [] => [[c]]
         end
  end.

(** [Path::new(text).components()]: empty components and inner [.] are dropped. *)
Definition component (first : bool) (name : string) : list Component :=
  if String.eqb name "" then []
  else if String.eqb name "." then (if first then [CurDir] else [])
  else if String.eqb name ".." then [ParentDir]
  else [Normal name].

Definition path_of (text : string) : Path :=
  match map of_chars (split_chars 47 (chars text)) with
  | "" :: (_ :: _) as pieces => RootDir :: flat_map (component false) pieces
  | first :: pieces => component true first ++ flat_map (component false) pieces
  | [] => []
  end.

Definition component_text (c : Component) : string :=
  match c with RootDir => "" | CurDir => "." | ParentDir => ".." | Normal name => name end.

(** [Path::display]. *)
Definition display_path (p : Path) : string :=
  match p with
  | [RootDir] => "/"
  | _ => String.concat "/" (map component_text p)
  end.

(** ** Operations *)

Definition is_absolute (p : Path) : bool :=
  match p with RootDir :: _ => true | _ => false end.

Definition join (p q : Path) : Path :=
  match q with
  | RootDir :: _ => q
  | CurDir :: q' => if bool_decide (p = []) then q else p ++ q'
  | _ => p ++ q
  end.

(** [push] of one identifier or file name. *)
Definition push (p : Path) (name : string) : Path := p ++ [Normal name].

Definition starts_with (p base : Path) : bool := bool_decide (base = take (length base) p).

Definition strip_prefix (p base : Path) : option Path :=
  if starts_with p base then Some (drop (length base) p) else None.

Definition parent (p : Path) : option Path :=
  match last p with
  | Some RootDir | None => None
  | Some _ => Some (removelast p)
  end.

Definition file_name (p : Path) : option string :=
  match last p with Some (Normal name) => Some name | _ => None end.

(** A file name before and after its last dot; a leading dot does not count. *)
Fixpoint rsplit_dot (l : list char) : option (list char * list char) :=
  match l with
  | [] => None
  | c :: rest =>
    match rsplit_dot rest with
    | Some (before, after) => Some (c :: before, after)
    | None => if (c =? 46)%Z then Some ([], rest) else None
    end
  end.

Definition split_extension (name : string) : string * option string :=
  match rsplit_dot (chars name) with
  | Some (_ :: _ as before, after) => (of_chars before, Some (of_chars after))
  | _ => (name, None)
  end.

Definition file_stem (p : Path) : option string :=
  name ← file_name p; Some (split_extension name).1.
Definition extension (p : Path) : option string :=
  name ← file_name p; (split_extension name).2.

Definition set_extension (p : Path) (ext : string) : Path :=
  match file_name p with
  | Some name => removelast p ++ [Normal ((split_extension name).1 +:+ "." +:+ ext)]
  | None => p
  end.

(** [OsStr::to_str]. *)
Definition to_str (name : string) : option string := from_utf8 (as_bytes name).

(** ** The file system *)

Record Metadata := mkMetadata {
  is_file : bool;
  is_dir : bool;
  is_symlink : bool;
  file_len : Z }.

Class Files := {
  canonicalize : Path → string + Path;
  metadata : Path → string + Metadata;
  symlink_metadata : Path → string + Metadata;
  read_bytes : Path → string + list byte;
  read_to_string : Path → string + string;
  read_dir : Path → string + list string;
  path_exists : Path → bool }.

(** [call.map_err(|cause| ..)]. *)
Definition or_else {E A} (call : string + A) (error : string → E) : outcome E A :=
  match call with inl cause => Err (error cause) | inr a => Ok a end.

Lemma safe_or_else {E A} (call : string + A) (error : string → E) :
  safe (or_else call error) (λ a, call = inr a).
Proof. by destruct call. Qed.
#[export] Hint Resolve safe_or_else : disp.
