(* ===== verification/Manifest.v ===== *)
(** * Package manifests ([compiler/src/project.rs], [parse_manifest], [migrate])

    A manifest is a small subset of TOML, read line by line.  Lines are handled as lists
    of characters. *)

From S2P Require Import Prelude Machine Utf8 Diagnostics Limits StateM BTree Lexer Formatter Link Paths.
#[local] Open Scope string_scope.
#[local] Open Scope list_scope.
#[local] Open Scope Z_scope.

Record DependencySpec := mkDependencySpec { dep_path : Path; dep_line : Z }.

Record PackageManifest := mkPackageManifest {
  manifest_name : string;
  manifest_version : string;
  manifest_edition : string;
  manifest_features : btree unit;
  manifest_entry : Path;
  manifest_dependencies : btree DependencySpec }.

Definition manifest_error (path : Path) (line : Z) (message : string) : Diagnostic :=
  with_file (new_diagnostic Resolve message (point line 1)) (display_path path).

(** ** Text *)

Abbreviation QUOTE := 34.
Abbreviation HASH := 35.
Abbreviation COMMA := 44.
Abbreviation DOT := 46.
Abbreviation EQUALS := 61.
Abbreviation LBRACKET := 91.
Abbreviation BACKSLASH := 92.
Abbreviation RBRACKET := 93.
Abbreviation LBRACE := 123.
Abbreviation RBRACE := 125.

Definition starts (c : char) (l : list char) : bool :=
  match l with c' :: _ => c' =? c | [] => false end.
Definition ends (c : char) (l : list char) : bool :=
  match last l with Some c' => c' =? c | None => false end.

(** [str::lines]: pieces between line feeds, each without a final carriage return. *)
Definition strip_cr (l : list char) : list char := if ends CR l then removelast l else l.
Definition text_lines (l : list char) : list (list char) := map strip_cr (lines l).

(** [str::split_once] at a character. *)
Fixpoint split_once (separator : char) (l : list char) : option (list char * list char) :=
  match l with
  | [] => None
  | c :: rest =>
    if c =? separator then Some ([], rest)
    else '(before, after) ← split_once separator rest; Some (c :: before, after)
  end.

Definition strip_prefix_char (c : char) (l : list char) : option (list char) :=
  if starts c l then Some (tail l) else None.
Definition strip_suffix_char (c : char) (l : list char) : option (list char) :=
  if ends c l then Some (removelast l) else None.

Definition is_control (c : char) : bool := (c <=? 31) || ((127 <=? c) && (c <=? 159)).
Definition is_ascii_lowercase (c : char) : bool := (97 <=? c) && (c <=? 122).
Definition byte_length (l : list char) : Z := str_len (of_chars l).

(** ** Values *)

Definition parse_manifest_string (value : list char) : option (list char) :=
  rest ← strip_prefix_char QUOTE value;
  '(parsed, after) ← split_once QUOTE rest;
  if (existsb (Z.eqb BACKSLASH) parsed || existsb is_control parsed)%bool then None
  else
    let trailing := trim after in
    if (negb (bool_decide (trailing = [])) && negb (starts HASH trailing))%bool then None
    else Some parsed.

Definition feature_byte (c : char) : bool := is_ascii_lowercase c || is_ascii_digit c || (c =? 45).

Definition starts_lowercase (l : list char) : bool :=
  match l with c :: _ => is_ascii_lowercase c | [] => false end.

(** The loop of [parse_manifest_features]. *)
Fixpoint parse_feature_list (features : btree unit) (raw : list (list char))
    : option (btree unit) :=
  match raw with
  | [] => Some features
  | piece :: raw =>
    if 64 <=? zlen features then None
    else
      feature ← parse_manifest_string (trim piece);
      if ((bool_decide (feature = []) || (64 <? byte_length feature)
           || negb (starts_lowercase feature) || negb (forallb feature_byte feature))
          || bool_decide (is_Some (bt_get (of_chars feature) features)))%bool
      then None
      else parse_feature_list (bt_insert (of_chars feature) tt features) raw
  end.

Definition parse_manifest_features (value : list char) : option (btree unit) :=
  inner ← strip_prefix_char LBRACKET value;
  inner ← strip_suffix_char RBRACKET inner;
  let inner := trim inner in
  if bool_decide (inner = []) then Some [] else parse_feature_list [] (split_chars COMMA inner).

Definition parse_path_dependency (value : list char) : option Path :=
  inner ← strip_prefix_char LBRACE value;
  inner ← strip_suffix_char RBRACE inner;
  '(key, value) ← split_once EQUALS (trim inner);
  if negb (String.eqb (of_chars (trim key)) "path") then None
  else
    value ← parse_manifest_string (trim value);
    let path := path_of (of_chars value) in
    if (is_absolute path || bool_decide (value = [])
        || existsb (λ part, bool_decide (part = RootDir)) path)%bool
    then None else Some path.

Definition package_name_byte (c : char) : bool :=
  is_ascii_lowercase c || is_ascii_digit c || (c =? 45) || (c =? 95).

(** [validate_package_name] without its diagnostic. *)
Definition package_name_ok (name : list char) : bool :=
  match name with
  | [] => false
  | c :: _ =>
    ((byte_length name <=? 64) && (is_ascii_lowercase c || is_ascii_digit c)
     && forallb package_name_byte name)%bool
  end.
Definition validate_package_name (name : string) (s : Span) : outcome Diagnostic unit :=
  bail_if (negb (package_name_ok (chars name)))
    (project_error "package names must be 1-64 lowercase ASCII letters, digits, `-`, or `_`" s).

Definition alias_byte (c : char) : bool := is_ascii_lowercase c || is_ascii_digit c || (c =? 95).
Definition alias_ok (name : list char) : bool :=
  (negb (bool_decide (name = [])) && (byte_length name <=? 64) && starts_lowercase name
   && forallb alias_byte name)%bool.
Definition validate_dependency_alias (name : list char) (s : Span) : outcome Diagnostic unit :=
  bail_if (negb (alias_ok name))
    (project_error "dependency aliases must be valid lowercase DISP identifiers" s).

(** One component of a version: digits of a [u64] without a leading zero. *)
Definition version_part_ok (part : list char) : bool :=
  (negb (bool_decide (part = [])) && forallb is_ascii_digit part
   && negb ((1 <? zlen part) && starts 48 part)
   && bool_decide (is_Some (try_from U64_MAX (digits_value part))))%bool.
Definition version_ok (version : list char) : bool :=
  let parts := split_chars DOT version in
  ((length parts =? 3)%nat && forallb version_part_ok parts)%bool.

Definition is_extension_manifest_name (name : string) : bool :=
  existsb (String.eqb name)
    ["build"; "build-script"; "build-scripts"; "macro"; "macros"; "plugin"; "plugins";
     "proc-macro"; "procedural-macro"; "procedural-macros"].

Definition extension_manifest_error (path : Path) (line : Z) (name : string) : Diagnostic :=
  with_help
    (manifest_error path line
       ("compiler extension `" +:+ name +:+ "` is disabled in DISP edition 1"))
    ("build scripts, procedural macros, and compiler plugins never execute in the compiler "
     +:+ "process; use ordinary DISP source or an explicitly sandboxed out-of-process tool").

(** ** Lines *)

Record ManifestState := mkManifestState {
  section : option string;
  saw_package_section : bool;
  saw_dependencies_section : bool;
  values : btree (string * Z);
  features : option (btree unit * Z);
  dependencies : btree DependencySpec }.

Definition empty_manifest : ManifestState := mkManifestState None false false [] None [].

Definition set_section (st : ManifestState) (name : string) : ManifestState :=
  mkManifestState (Some name) (saw_package_section st || String.eqb name "package")
    (saw_dependencies_section st || String.eqb name "dependencies")
    (values st) (features st) (dependencies st).
Definition add_value (st : ManifestState) (key value : string) (line : Z) : ManifestState :=
  mkManifestState (section st) (saw_package_section st) (saw_dependencies_section st)
    (bt_insert key (value, line) (values st)) (features st) (dependencies st).
Definition add_features (st : ManifestState) (parsed : btree unit) (line : Z) : ManifestState :=
  mkManifestState (section st) (saw_package_section st) (saw_dependencies_section st)
    (values st) (Some (parsed, line)) (dependencies st).
Definition add_dependency (st : ManifestState) (key : string) (d : DependencySpec)
    : ManifestState :=
  mkManifestState (section st) (saw_package_section st) (saw_dependencies_section st)
    (values st) (features st) (bt_insert key d (dependencies st)).

Definition count (c : char) (l : list char) : Z := zlen (List.filter (Z.eqb c) l).

Section lines.
Context (path : Path).

(** A line that begins with a bracket. *)
Definition section_line (line_number : Z) (st : ManifestState) (line : list char)
    : outcome Diagnostic ManifestState :=
  _ ← bail_if (negb (ends RBRACKET line) || negb (count LBRACKET line =? 1)
               || negb (count RBRACKET line =? 1))
        (manifest_error path line_number "malformed manifest section");
  let name := of_chars (trim (removelast (tail line))) in
  if negb (String.eqb name "package" || String.eqb name "dependencies") then
    if is_extension_manifest_name name then
      Err (extension_manifest_error path line_number name)
    else
      Err (manifest_error path line_number
             ("unsupported manifest section `[" +:+ name +:+ "]`"))
  else if (String.eqb name "package" && saw_package_section st)%bool then
    Err (manifest_error path line_number "duplicate `[package]` section")
  else if (String.eqb name "dependencies" && saw_dependencies_section st)%bool then
    Err (manifest_error path line_number "duplicate `[dependencies]` section")
  else Ok (set_section st name).

Definition dependency_line (line_number : Z) (st : ManifestState) (key value : list char)
    : outcome Diagnostic ManifestState :=
  _ ← map_err (λ error, with_file error (display_path path))
        (validate_dependency_alias key (point line_number 1));
  let key := of_chars key in
  _ ← bail_if (bool_decide (is_Some (bt_get key (dependencies st))))
        (manifest_error path line_number ("duplicate dependency `" +:+ key +:+ "`"));
  dependency ← ok_or (parse_path_dependency value)
    (manifest_error path line_number
       ("a local dependency must use `{ path = " +:+ quote +:+ "relative/path" +:+ quote
        +:+ " }`"));
  Ok (add_dependency st key (mkDependencySpec dependency line_number)).

Definition package_fields : list string := ["name"; "version"; "edition"; "features"; "entry"].

Definition package_line (line_number : Z) (st : ManifestState) (key : string)
    (value : list char) : outcome Diagnostic ManifestState :=
  if negb (existsb (String.eqb key) package_fields) then
    if is_extension_manifest_name key then Err (extension_manifest_error path line_number key)
    else Err (manifest_error path line_number ("unknown package field `" +:+ key +:+ "`"))
  else if (bool_decide (is_Some (bt_get key (values st)))
           || (String.eqb key "features" && bool_decide (is_Some (features st))))%bool then
    Err (manifest_error path line_number ("duplicate package field `" +:+ key +:+ "`"))
  else if String.eqb key "features" then
    parsed ← ok_or (parse_manifest_features value)
      (manifest_error path line_number
         "package features must be a bounded array of unique quoted names");
    Ok (add_features st parsed line_number)
  else
    parsed ← ok_or (parse_manifest_string value)
      (manifest_error path line_number
         "manifest values must be quoted strings without escapes");
    Ok (add_value st key (of_chars parsed) line_number).

Definition expected_pair : string := "expected `key = " +:+ quote +:+ "value" +:+ quote +:+ "`".

(** The body of the loop over [source.lines().enumerate()]. *)
Definition manifest_line (st : ManifestState) (entry : Z * list char)
    : outcome Diagnostic ManifestState :=
  let '(line_number, raw) := entry in
  let line := trim raw in
  if (bool_decide (line = []) || starts HASH line)%bool then Ok st
  else if starts LBRACKET line then section_line line_number st line
  else
    match section st with
    | None =>
      Err (manifest_error path line_number "manifest values must appear under `[package]`")
    | Some section =>
      '(key, raw_value) ← ok_or (split_once EQUALS line)
        (manifest_error path line_number expected_pair);
      let key := trim key in
      let value := trim raw_value in
      if String.eqb section "dependencies" then dependency_line line_number st key value
      else if negb (String.eqb section "package") then
        Err (manifest_error path line_number
               "manifest values must appear under `[package]` or `[dependencies]`")
      else package_line line_number st (of_chars key) value
    end.

Definition required_manifest_value (st : ManifestState) (key : string)
    : outcome Diagnostic (string * Z) :=
  ok_or (bt_get key (values st))
    (manifest_error path 1 ("missing required package field `" +:+ key +:+ "`")).

(** The line a value was given on, or the first. *)
Definition value_line (st : ManifestState) (key : string) : Z :=
  match bt_get key (values st) with Some (_, line) => line | None => 1 end.

Definition entry_ok (entry : Path) : bool :=
  (negb (is_absolute entry) && bool_decide (extension entry = Some "disp")
   && forallb (λ c, match c with Normal _ => true | _ => false end) entry)%bool.

(** The checks after the loop. *)
Definition finish_manifest (st : ManifestState) : outcome Diagnostic PackageManifest :=
  '(name, name_line) ← required_manifest_value st "name";
  _ ← map_err (λ error, with_file error (display_path path))
        (validate_package_name name (point name_line 1));
  '(version, version_line) ← required_manifest_value st "version";
  _ ← bail_if (negb (version_ok (chars version)))
        (manifest_error path version_line
           "package version must use `MAJOR.MINOR.PATCH` with numeric components");
  let edition := match bt_get "edition" (values st) with Some (e, _) => e | None => "1" end in
  _ ← bail_if (negb (String.eqb edition "1"))
        (manifest_error path (value_line st "edition")
           ("unsupported DISP edition `" +:+ edition
            +:+ "`; this compiler supports edition `1`"));
  let '(features, features_line) := default ([], 1) (features st) in
  _ ← match features with
      | (feature, _) :: _ =>
        Err (manifest_error path features_line
               ("unsupported DISP feature `" +:+ feature
                +:+ "`; edition `1` currently has no unstable opt-in features"))
      | [] => Ok tt
      end;
  let entry := path_of (match bt_get "entry" (values st) with
                        | Some (value, _) => value
                        | None => "src/main.disp"
                        end) in
  _ ← bail_if (negb (entry_ok entry))
        (manifest_error path (value_line st "entry")
           "package entry must be a relative `.disp` path without `.` or `..` components");
  Ok (mkPackageManifest name version edition features entry (dependencies st)).

Definition number_lines (l : list (list char)) : list (Z * list char) :=
  zip (seqZ 1 (zlen l)) l.

(** [parse_manifest], once the text has been read. *)
Definition parse_manifest_text (source : string) : outcome Diagnostic PackageManifest :=
  st ← for_each manifest_line (number_lines (text_lines (chars source))) empty_manifest;
  finish_manifest st.
End lines.

Section files.
Context `{Files}.

Definition parse_manifest (path : Path) : outcome Diagnostic PackageManifest :=
  metadata ← or_else (metadata path) (λ cause,
    manifest_error path 1
      ("could not open required package manifest `DISP.toml`: " +:+ cause));
  _ ← bail_if (MAX_MANIFEST_BYTES <? file_len metadata)
        (manifest_error path 1
           ("package manifest exceeds the " +:+ display_Z MAX_MANIFEST_BYTES
            +:+ "-byte safety limit"));
  source ← or_else (read_to_string path) (λ cause,
    manifest_error path 1 ("manifest is not valid UTF-8: " +:+ cause));
  parse_manifest_text path source.
End files.
