(* ===== verification/ManifestProps.v ===== *)
(** * Reading manifests ([compiler/src/project.rs]) *)

From S2P Require Import Prelude Machine Utf8 Diagnostics Limits StateM BTree Lexer Formatter Link LinkProps Paths Manifest.
#[local] Open Scope string_scope.
#[local] Open Scope list_scope.
#[local] Open Scope Z_scope.

(** ** Reading a manifest never panics *)

Lemma safe_map_err {E F A} (f : E → F) (m : outcome E A) Q : safe m Q → safe (map_err f m) Q.
Proof. by destruct m. Qed.

Section safe.
Context (path : Path).

(** Reading a line keeps the dependencies in order. *)
Lemma section_line_safe n st line :
  safe (section_line path n st line) (λ st', dependencies st' = dependencies st).
Proof.
  unfold section_line. eapply safe_bind; [apply safe_bail_if|]. intros _ _ _.
  by repeat case_match.
Qed.

Lemma dependency_line_safe n st key value :
  bt_sorted (dependencies st) →
  safe (dependency_line path n st key value) (λ st', bt_sorted (dependencies st')).
Proof.
  intros Hs. unfold dependency_line.
  eapply safe_bind; [apply safe_map_err, safe_bail_if|]. intros _ _ _.
  eapply safe_bind; [apply safe_bail_if|]. intros _ _ _.
  eapply safe_bind; [apply safe_ok_or|]. intros d _ _. by apply bt_insert_sorted.
Qed.

Lemma package_line_safe n st key value :
  safe (package_line path n st key value) (λ st', dependencies st' = dependencies st).
Proof.
  unfold package_line. repeat case_match; try done;
    (eapply safe_bind; [apply safe_ok_or|]; done).
Qed.

Lemma manifest_line_safe st entry :
  bt_sorted (dependencies st) →
  safe (manifest_line path st entry) (λ st', bt_sorted (dependencies st')).
Proof.
  intros Hs. unfold manifest_line. destruct entry as [n raw]. case_match; [done|].
  case_match; [by eapply safe_mono; [apply section_line_safe|intros ? ->]|].
  destruct (section st); [|done].
  eapply safe_bind; [apply safe_ok_or|]. intros [key value] _ _.
  case_match; [by apply dependency_line_safe|]. case_match; [done|].
  by eapply safe_mono; [apply package_line_safe|intros ? ->].
Qed.

Lemma finish_manifest_safe st :
  safe (finish_manifest path st) (λ m, manifest_dependencies m = dependencies st).
Proof.
  unfold finish_manifest. eapply safe_bind; [apply safe_ok_or|]. intros [name line] _ _.
  eapply safe_bind; [apply safe_map_err, safe_bail_if|]. intros _ _ _.
  eapply safe_bind; [apply safe_ok_or|]. intros [version line'] _ _.
  eapply safe_bind; [apply safe_bail_if|]. intros _ _ _.
  eapply safe_bind; [apply safe_bail_if|]. intros _ _ _.
  destruct (default _ _) as [fs line'']. eapply (safe_bind _ _ (λ _, True)); [by destruct fs as [|[] ]|].
  intros _ _ _. eapply safe_bind; [apply safe_bail_if|]. done.
Qed.

Lemma parse_manifest_text_safe source :
  safe (parse_manifest_text path source) (λ m, bt_sorted (manifest_dependencies m)).
Proof.
  eapply safe_bind; [apply (safe_for_each (λ st, bt_sorted (dependencies st)))|].
  - intros. by apply manifest_line_safe.
  - constructor.
  - intros st _ Hs. by eapply safe_mono; [apply finish_manifest_safe|intros ? ->].
Qed.
End safe.

Lemma parse_manifest_safe `{Files} path :
  safe (parse_manifest path) (λ m, bt_sorted (manifest_dependencies m)).
Proof.
  eapply safe_bind; [apply safe_or_else|]. intros m _ _.
  eapply safe_bind; [apply safe_bail_if|]. intros _ _ _.
  eapply safe_bind; [apply safe_or_else|]. intros source _ _. apply parse_manifest_text_safe.
Qed.
