(* ===== verification/Migrate.v ===== *)
(** * Migrating manifests ([compiler/src/project.rs], [migrate])

    [disp migrate] writes the defaults of a manifest out: the edition after the version, and
    the features after the edition.  Other lines are kept, and line endings become line
    feeds. *)

From S2P Require Import Prelude Machine Utf8 Diagnostics Limits StateM BTree Lexer Formatter Link Paths Manifest.
#[local] Open Scope string_scope.
#[local] Open Scope list_scope.

Record MigrationReport := mkMigrationReport {
  report_manifest : Path;
  report_edition : string;
  report_changed : bool }.

(** What the loop over the lines has seen. *)
Record Migration := mkMigration {
  mg_section : option string;
  explicit_edition : bool;
  explicit_features : bool;
  version_line : option nat;
  edition_line : option nat }.

Definition start_migration : Migration := mkMigration None false false None None.

Definition see_key (st : Migration) (index : nat) (key : string) : Migration :=
  if String.eqb key "edition" then
    mkMigration (mg_section st) true (explicit_features st) (version_line st) (Some index)
  else if String.eqb key "features" then
    mkMigration (mg_section st) (explicit_edition st) true (version_line st) (edition_line st)
  else if String.eqb key "version" then
    mkMigration (mg_section st) (explicit_edition st) (explicit_features st) (Some index)
      (edition_line st)
  else st.

Definition see_line (st : Migration) (index : nat) (raw : list char) : Migration :=
  let line := trim raw in
  if (starts LBRACKET line && ends RBRACKET line)%bool then
    mkMigration (Some (of_chars (trim (removelast (tail line))))) (explicit_edition st)
      (explicit_features st) (version_line st) (edition_line st)
  else if bool_decide (mg_section st = Some "package") then
    match split_once EQUALS line with
    | Some (key, _) => see_key st index (of_chars (trim key))
    | None => st
    end
  else st.

(** [for (index, raw) in lines.iter().enumerate()]. *)
Fixpoint see_lines (index : nat) (lines : list (list char)) (st : Migration) : Migration :=
  match lines with
  | [] => st
  | raw :: lines => see_lines (S index) lines (see_line st index raw)
  end.

(** [Vec::insert]. *)
Definition vec_insert {E A} (index : nat) (a : A) (l : list A) : outcome E (list A) :=
  if (index <=? length l)%nat then Ok (take index l ++ a :: drop index l) else Panic.

Definition edition_text (edition : string) : list char :=
  chars ("edition = " +:+ quote +:+ edition +:+ quote).
Definition features_text : list char := chars "features = []".

(** The lines with the missing fields. *)
Definition add_fields (edition : string) (st : Migration) (version_line : nat)
    (lines : list (list char)) : outcome Diagnostic (list (list char)) :=
  '(migrated, edition_line) ←
    if explicit_edition st then Ok (lines, edition_line st)
    else
      migrated ← vec_insert (version_line + 1) (edition_text edition) lines;
      Ok (migrated, Some (version_line + 1)%nat);
  if explicit_features st then Ok migrated
  else
    edition_line ← expect edition_line;
    vec_insert (edition_line + 1) features_text migrated.

(** [join("\n") + "\n"]. *)
Fixpoint join_lines (lines : list (list char)) : list char :=
  match lines with
  | [] => []
  | [line] => line
  | line :: lines => line ++ LF :: join_lines lines
  end.

(** The line of the version and the new text, unless the manifest has both fields. *)
Definition migrated_text (edition source : string) : outcome Diagnostic (option (nat * string)) :=
  let lines := text_lines (chars source) in
  let st := see_lines 0 lines start_migration in
  if (explicit_edition st && explicit_features st)%bool then Ok None
  else
    version_line ← expect (version_line st);
    migrated ← add_fields edition st version_line lines;
    Ok (Some (version_line, of_chars (join_lines migrated ++ [LF]))).

Section migrate.
Context `{Files} (write : Path → string → string + unit).

(** The report, and the text written to the manifest, if any. *)
Definition migrate (path : Path) (check : bool)
    : outcome Diagnostic (MigrationReport * option string) :=
  metadata ← or_else (metadata path) (λ cause,
    with_file (project_error ("could not inspect project `" +:+ display_path path +:+ "`: "
                              +:+ cause) (point 1 1)) (display_path path));
  _ ← bail_if (negb (is_dir metadata))
        (with_file (project_error "`disp migrate` requires a project directory" (point 1 1))
           (display_path path));
  let manifest_path := join path [Normal "DISP.toml"] in
  manifest ← parse_manifest manifest_path;
  source ← or_else (read_to_string manifest_path) (λ cause,
    manifest_error manifest_path 1
      ("could not read package manifest for migration: " +:+ cause));
  migrated ← migrated_text (manifest_edition manifest) source;
  match migrated with
  | None => Ok (mkMigrationReport manifest_path (manifest_edition manifest) false, None)
  | Some (version_line, text) =>
    let report := mkMigrationReport manifest_path (manifest_edition manifest) true in
    if check then Ok (report, None)
    else
      _ ← or_else (write manifest_path text) (λ cause,
        manifest_error manifest_path (Z.of_nat version_line + 2)
          ("could not write migrated package manifest: " +:+ cause));
      Ok (report, Some text)
  end.
End migrate.
