(* ===== verification/MigrateProps.v ===== *)
(** * Migration keeps the meaning of a manifest ([compiler/src/project.rs], [migrate])

    Reading a line of a manifest is split into what the line says, which depends on the
    section and the text only, and whether it may be said at that point.  Two runs over the
    same lines, of which one has seen an additional field, then agree but for that field and
    the numbers of the lines. *)

From S2P Require Import Prelude Machine Utf8 Diagnostics Limits StateM BTree Lexer Formatter FormatterProps Link LinkProps Paths Manifest ManifestProps Migrate.
#[local] Open Scope string_scope.
#[local] Open Scope list_scope.
#[local] Open Scope Z_scope.

(** ** What a line says *)

Inductive Edit :=
| Keep
| Enter (name : string)
| Depend (alias : string) (path : Path)
| Give (key value : string)
| Opt (features : btree unit).

Definition header_name (line : list char) : option string :=
  if negb (ends RBRACKET line) || negb (count LBRACKET line =? 1) || negb (count RBRACKET line =? 1)
  then None
  else
    let name := of_chars (trim (removelast (tail line))) in
    if String.eqb name "package" || String.eqb name "dependencies" then Some name else None.

Definition field_edit (key : string) (value : list char) : option Edit :=
  if negb (existsb (String.eqb key) package_fields) then None
  else if String.eqb key "features" then Opt <$> parse_manifest_features value
  else Give key ∘ of_chars <$> parse_manifest_string value.

Definition line_edit (section : option string) (line : list char) : option Edit :=
  if (bool_decide (line = []) || starts HASH line) then Some Keep
  else if starts LBRACKET line then Enter <$> header_name line
  else
    section ← section;
    '(key, value) ← split_once EQUALS line;
    let key := trim key in
    let value := trim value in
    if String.eqb section "dependencies" then
      if alias_ok key then Depend (of_chars key) <$> parse_path_dependency value else None
    else if String.eqb section "package" then field_edit (of_chars key) value
    else None.

Definition allowed (st : ManifestState) (e : Edit) : bool :=
  match e with
  | Keep => true
  | Enter name =>
    negb (String.eqb name "package" && saw_package_section st)
    && negb (String.eqb name "dependencies" && saw_dependencies_section st)
  | Depend alias _ => bool_decide (bt_get alias (dependencies st) = None)
  | Give key _ => bool_decide (bt_get key (values st) = None)
  | Opt _ => bool_decide (bt_get "features" (values st) = None) && bool_decide (features st = None)
  end.

Definition edited (n : Z) (st : ManifestState) (e : Edit) : ManifestState :=
  match e with
  | Keep => st
  | Enter name => set_section st name
  | Depend alias path => add_dependency st alias (mkDependencySpec path n)
  | Give key value => add_value st key value n
  | Opt features => add_features st features n
  end.

(** [Some st'] when the step succeeds. *)
Definition ok {A} (m : outcome Diagnostic A) : option A :=
  match m with Ok a => Some a | _ => None end.

Definition edit_step (n : Z) (st : ManifestState) (e : Edit) : option ManifestState :=
  if allowed st e then Some (edited n st e) else None.

Definition line_step (n : Z) (st : ManifestState) (line : list char) : option ManifestState :=
  e ← line_edit (section st) line; edit_step n st e.

Lemma manifest_line_edit path st n raw :
  ok (manifest_line path st (n, raw)) = line_step n st (trim raw).
Proof.
  unfold line_step, manifest_line, line_edit. set (line := trim raw). clearbody line.
  destruct (bool_decide (line = []) || _); [done|]. destruct (starts LBRACKET line).
  - unfold section_line, header_name.
    destruct (negb (ends RBRACKET line) || _ || _); simpl; [done|].
    generalize (of_chars (trim (removelast (tail line)))). intros name.
    unfold edit_step. simpl.
    destruct (String.eqb_spec name "package") as [->|]; simpl;
      [by destruct (saw_package_section st)|].
    destruct (String.eqb_spec name "dependencies") as [->|]; simpl;
      [by destruct (saw_dependencies_section st)|]. by case_match.
  - destruct (section st) as [section|]; simpl; [|done].
    destruct (split_once EQUALS line) as [ [key value]|]; simpl; [|done].
    destruct (String.eqb_spec section "dependencies") as [->|].
    + unfold dependency_line, validate_dependency_alias.
      destruct (alias_ok (trim key)); simpl; [|done].
      unfold edit_step. simpl. destruct (parse_path_dependency (trim value)) as [p|] eqn:Hp; simpl;
        destruct (bt_get _ (dependencies st)); simpl; done.
    + destruct (String.eqb section "package"); simpl; [|done].
      unfold package_line, field_edit. generalize (of_chars (trim key)). intros k.
      destruct (existsb _ _); simpl; [|by case_match].
      unfold edit_step. destruct (String.eqb_spec k "features") as [->|]; simpl.
      * destruct (bt_get "features" (values st)) eqn:Hk, (features st) eqn:Hf; simpl;
          destruct (parse_manifest_features _); simpl; rewrite ?Hk, ?Hf; done.
      * rewrite orb_false_r. destruct (bt_get k (values st)) eqn:Hk; simpl;
          destruct (parse_manifest_string _); simpl; rewrite ?Hk; done.
Qed.
(** A run over lines, the first of which has number [n]. *)
Fixpoint run (n : Z) (st : ManifestState) (ls : list (list char)) : option ManifestState :=
  match ls with
  | [] => Some st
  | raw :: ls => st ← line_step n st (trim raw); run (n + 1) st ls
  end.

Lemma ok_bind {A B} (m : outcome Diagnostic A) (f : A → outcome Diagnostic B) :
  ok (m ≫= f) = (ok m ≫= λ a, ok (f a)).
Proof. by destruct m. Qed.

Lemma lines_run path source :
  ok (for_each (manifest_line path) (number_lines (text_lines (chars source))) empty_manifest)
  = run 1 empty_manifest (text_lines (chars source)).
Proof.
  unfold number_lines. generalize (text_lines (chars source)) 1 empty_manifest. intros ls.
  induction ls as [|raw ls IH]; intros n st; [by vm_compute|].
  unfold zlen. cbn [length run]. rewrite Nat2Z.inj_succ, seqZ_cons by lia.
  replace (Z.pred (Z.succ (Z.of_nat (length ls)))) with (zlen ls) by (unfold zlen; lia).
  cbn [zip zip_with for_each]. rewrite ok_bind, manifest_line_edit.
  destruct (line_step _ _ _) as [st1|]; [|done]. simpl. by rewrite IH.
Qed.

Lemma parse_run path source :
  ok (parse_manifest_text path source)
  = (run 1 empty_manifest (text_lines (chars source)) ≫= λ st, ok (finish_manifest path st)).
Proof. unfold parse_manifest_text. by rewrite ok_bind, lines_run. Qed.

Lemma run_app n st ls1 ls2 :
  run n st (ls1 ++ ls2) = (run n st ls1 ≫= λ st, run (n + zlen ls1) st ls2).
Proof.
  revert n st. induction ls1 as [|raw ls1 IH]; intros n st.
  { simpl. unfold zlen. simpl. by rewrite Z.add_0_r. }
  cbn [run app]. destruct (line_step _ _ _) as [st1|]; [|done]. simpl. rewrite IH.
  unfold zlen. cbn [length]. by replace (n + 1 + Z.of_nat (length ls1))
    with (n + Z.of_nat (S (length ls1))) by lia.
Qed.

(** Only the trimmed lines matter. *)
Lemma run_ext n st ls ls' : map trim ls = map trim ls' → run n st ls = run n st ls'.
Proof.
  revert n st ls'. induction ls as [|raw ls IH]; intros n st [|raw' ls'] H; try done.
  injection H as Heq H. cbn [run]. rewrite Heq.
  destruct (line_step _ _ _) as [st1|]; [|done]. simpl. auto.
Qed.

(** ** An additional field *)

Definition lacks (k : string) (st : ManifestState) : Prop :=
  bt_get k (values st) = None ∧ (k = "features" → features st = None).

Definition dependency_paths (st : btree DependencySpec) : btree Path :=
  map (λ entry, (entry.1, dep_path entry.2)) st.

Record sim (k : string) (st st' : ManifestState) : Prop := {
  sim_section : section st' = section st;
  sim_package : saw_package_section st' = saw_package_section st;
  sim_dependency : saw_dependencies_section st' = saw_dependencies_section st;
  sim_values : ∀ x, x ≠ k → fst <$> bt_get x (values st') = fst <$> bt_get x (values st);
  sim_features : k ≠ "features" → fst <$> features st' = fst <$> features st;
  sim_dependencies : dependency_paths (dependencies st') = dependency_paths (dependencies st) }.

Lemma dependency_paths_get k d : bt_get k (dependency_paths d) = dep_path <$> bt_get k d.
Proof. induction d as [|[j w] d IH]; simpl; [done|]. by destruct (String.eqb k j). Qed.
Lemma dependency_paths_insert k d w :
  dependency_paths (bt_insert k w d) = bt_insert k (dep_path w) (dependency_paths d).
Proof.
  induction d as [|[j v] d IH]; simpl; [done|].
  destruct (String.compare k j); simpl; [done..|]. by rewrite <- IH.
Qed.

Lemma step_lacks k n st e st1 : edit_step n st e = Some st1 → lacks k st1 → lacks k st.
Proof.
  unfold edit_step, lacks. destruct (allowed st e); [|done]. intros [= <-] [Hv Hf].
  destruct e; simpl in *; try done.
  - rewrite bt_get_insert in Hv. by destruct (String.eqb_spec k key).
  - split; [done|]. intros Hk. by specialize (Hf Hk).
Qed.

Lemma step_keeps x v n st e st1 :
  edit_step n st e = Some st1 → bt_get x (values st) = Some v → bt_get x (values st1) = Some v.
Proof.
  unfold edit_step. destruct (allowed st e) eqn:Ha; [|done]. intros [= <-] Hx.
  destruct e; simpl in *; try done. rewrite bt_get_insert. reflect_bools.
  destruct (String.eqb_spec x key); [congruence|done].
Qed.

Lemma step_keeps_features fs n st e st1 :
  edit_step n st e = Some st1 → features st = Some fs → features st1 = Some fs.
Proof.
  unfold edit_step. destruct (allowed st e) eqn:Ha; [|done]. intros [= <-] Hx.
  destruct e; simpl in *; try done. reflect_bools. congruence.
Qed.

Lemma allowed_sim k n st st' e :
  sim k st st' → lacks k (edited n st e) → allowed st e = true → allowed st' e = true.
Proof.
  intros Hs [Hv Hf]. destruct e as [|name|alias p|key value|fs]; simpl in *; try done.
  - by rewrite (sim_package _ _ _ Hs), (sim_dependency _ _ _ Hs).
  - rewrite !bool_decide_eq_true. pose proof (sim_dependencies _ _ _ Hs) as Hd.
    intros H. apply (f_equal (bt_get alias)) in Hd. rewrite !dependency_paths_get, H in Hd.
    by destruct (bt_get alias (dependencies st')).
  - rewrite !bool_decide_eq_true. intros H. rewrite bt_get_insert in Hv.
    destruct (String.eqb_spec k key) as [|Hne]; [done|].
    pose proof (sim_values _ _ _ Hs key ltac:(congruence)) as Hx. rewrite H in Hx.
    by destruct (bt_get key (values st')).
  - rewrite !andb_true_iff, !bool_decide_eq_true. intros [H1 H2].
    destruct (decide (k = "features")) as [->|Hne]; [by specialize (Hf eq_refl)|].
    pose proof (sim_values _ _ _ Hs "features" ltac:(congruence)) as Hx. rewrite H1 in Hx.
    pose proof (sim_features _ _ _ Hs Hne) as Hy. rewrite H2 in Hy.
    by destruct (bt_get _ (values st')), (features st').
Qed.

Lemma edited_sim k n n' st st' e : sim k st st' → sim k (edited n st e) (edited n' st' e).
Proof.
  intros Hs. destruct e as [|name|alias p|key value|fs]; simpl; [done|..]; split; simpl;
    try apply Hs.
  - done.
  - by rewrite (sim_package _ _ _ Hs).
  - by rewrite (sim_dependency _ _ _ Hs).
  - by rewrite !dependency_paths_insert, (sim_dependencies _ _ _ Hs).
  - intros x Hx. rewrite !bt_get_insert. destruct (String.eqb x key); [done|]. by apply Hs.
  - done.
Qed.

Lemma run_lacks k n st ls st1 : run n st ls = Some st1 → lacks k st1 → lacks k st.
Proof.
  revert n st. induction ls as [|raw ls IH]; intros n st H; [by injection H as ->|].
  apply bind_Some in H as (st2 & (e & _ & He)%bind_Some & H). intros Hl.
  eapply step_lacks; [exact He|]. eauto.
Qed.

Lemma run_keeps x v n st ls st1 :
  run n st ls = Some st1 → bt_get x (values st) = Some v → bt_get x (values st1) = Some v.
Proof.
  revert n st. induction ls as [|raw ls IH]; intros n st H; [by injection H as ->|].
  apply bind_Some in H as (st2 & (e & _ & He)%bind_Some & H). eauto using step_keeps.
Qed.

Lemma run_keeps_features fs n st ls st1 :
  run n st ls = Some st1 → features st = Some fs → features st1 = Some fs.
Proof.
  revert n st. induction ls as [|raw ls IH]; intros n st H; [by injection H as ->|].
  apply bind_Some in H as (st2 & (e & _ & He)%bind_Some & H). eauto using step_keeps_features.
Qed.

Lemma run_sim k n n' st st' ls st1 :
  run n st ls = Some st1 → sim k st st' → lacks k st1 →
  ∃ st1', run n' st' ls = Some st1' ∧ sim k st1 st1'.
Proof.
  revert n n' st st'. induction ls as [|raw ls IH]; intros n n' st st' H Hs Hl.
  { injection H as ->. by exists st'. }
  apply bind_Some in H as (st2 & (e & Hedit & He)%bind_Some & H). cbn [run].
  unfold line_step. rewrite (sim_section _ _ _ Hs), Hedit. unfold edit_step in He |- *. simpl.
  destruct (allowed st e) eqn:Ha; [|done]. injection He as <-.
  rewrite (allowed_sim k n st st' e Hs); [|by eapply run_lacks|done]. simpl.
  eapply IH; [exact H|by apply edited_sim|done].
Qed.

(** [features] is not among the values. *)
Lemma line_edit_give section line key value :
  line_edit section line = Some (Give key value) → key ≠ "features".
Proof.
  unfold line_edit. destruct (_ || _); [done|]. destruct (starts LBRACKET line).
  { by intros (? & _ & ?)%fmap_Some. }
  intros (s & _ & H)%bind_Some. apply bind_Some in H as ([k v] & _ & H).
  destruct (String.eqb s "dependencies").
  { destruct (alias_ok _); [|done]. by apply fmap_Some in H as (? & _ & ?). }
  destruct (String.eqb s "package"); [|done]. unfold field_edit in H.
  destruct (existsb _ _); [|done]. simpl in H.
  destruct (String.eqb_spec (of_chars (trim k)) "features"); [by apply fmap_Some in H as (? & _ & ?)|].
  apply fmap_Some in H as (? & _ & ?). simpl in *. congruence.
Qed.

Lemma run_no_features n st ls st1 :
  run n st ls = Some st1 → bt_get "features" (values st) = None →
  bt_get "features" (values st1) = None.
Proof.
  revert n st. induction ls as [|raw ls IH]; intros n st H; [by injection H as ->|].
  apply bind_Some in H as (st2 & (e & Hedit & He)%bind_Some & H). intros Hst.
  apply (IH _ _ H). unfold edit_step in He. destruct (allowed st e); [|done].
  injection He as <-. destruct e; simpl; try done. apply line_edit_give in Hedit.
  by rewrite bt_get_insert, (proj2 (String.eqb_neq _ _)).
Qed.

(** ** What the migration sees *)

(** The line of index [i] is in the [[package]] section. *)
Definition in_package (ls : list (list char)) (i : nat) : Prop :=
  ∃ a b st, ls = a ++ b ∧ length a = S i ∧ run 1 empty_manifest a = Some st
    ∧ section st = Some "package".

Lemma in_package_app ls ls' i : in_package ls i → in_package (ls ++ ls') i.
Proof.
  intros (a & b & st & -> & Ha & Hst). exists a, (b ++ ls'), st. by rewrite <- app_assoc.
Qed.

Record seen (ls : list (list char)) (st : ManifestState) (mg : Migration) : Prop := {
  seen_section : mg_section mg = section st;
  seen_edition : explicit_edition mg = true ↔ is_Some (bt_get "edition" (values st));
  seen_features : explicit_features mg = true ↔ is_Some (features st);
  seen_version : is_Some (bt_get "version" (values st)) →
    ∃ i, version_line mg = Some i ∧ in_package ls i;
  seen_edition_line : is_Some (bt_get "edition" (values st)) →
    ∃ i, edition_line mg = Some i ∧ in_package ls i }.

Lemma seen_app ls ls' st mg : seen ls st mg → seen (ls ++ ls') st mg.
Proof.
  intros [H1 H2 H3 H4 H5]. split; [done..| |].
  - intros (i & Hi & Hp)%H4. eauto using in_package_app.
  - intros (i & Hi & Hp)%H5. eauto using in_package_app.
Qed.

Lemma trim_start_last l c : is_whitespace c = false → trim_start (l ++ [c]) = trim_start l ++ [c].
Proof.
  intros Hc. induction l as [|d l IH]; simpl; [by rewrite Hc|].
  by destruct (is_whitespace d).
Qed.

Lemma trim_cons c l : is_whitespace c = false → ∃ l', trim (c :: l) = c :: l'.
Proof.
  intros Hc. unfold trim. simpl. rewrite Hc. simpl. rewrite trim_start_last by done.
  rewrite rev_app_distr. simpl. eauto.
Qed.

(** A comment is not seen: its key is no field. *)
Lemma see_keep line mg i :
  (bool_decide (line = []) || starts HASH line) = true →
  (if starts LBRACKET line && ends RBRACKET line then
     mkMigration (Some (of_chars (trim (removelast (tail line))))) (explicit_edition mg)
       (explicit_features mg) (version_line mg) (edition_line mg)
   else if bool_decide (mg_section mg = Some "package") then
     match split_once EQUALS line with
     | Some (key, _) => see_key mg i (of_chars (trim key))
     | None => mg
     end
   else mg) = mg.
Proof.
  intros H. destruct line as [|c line]; simpl; [by case_match|].
  rewrite bool_decide_eq_false_2 in H by done. simpl in H.
  rewrite (proj1 (Z.eqb_eq c HASH) H). simpl. case_match; [|done].
  destruct (split_once EQUALS line) as [ [before after]|]; simpl; [|done].
  destruct (trim_cons HASH before eq_refl) as [l' ->]. done.
Qed.

Lemma see_give pre raw n st mg key value :
  seen pre st mg → run 1 empty_manifest (pre ++ [raw]) = Some (add_value st key value n) →
  section st = Some "package" → key ≠ "features" →
  seen (pre ++ [raw]) (add_value st key value n) (see_key mg (length pre) key).
Proof.
  intros Hs Hrun Hp Hk. apply (seen_app _ [raw]) in Hs. destruct Hs as [H1 H2 H3 H4 H5].
  assert (in_package (pre ++ [raw]) (length pre)) as Hin.
  { exists (pre ++ [raw]), [], (add_value st key value n). rewrite app_nil_r, length_app. simpl.
    split_and!; [done|lia|done|done]. }
  unfold see_key. destruct (String.eqb_spec key "edition") as [->|]; [|
    destruct (String.eqb_spec key "features") as [->|]; [done|];
    destruct (String.eqb_spec key "version") as [->|] ].
  - split; simpl; rewrite ?bt_get_insert; simpl; eauto. by split; eauto.
  - split; simpl; rewrite ?bt_get_insert; simpl; eauto.
  - assert (∀ x, x ≠ key → bt_get x (bt_insert key (value, n) (values st)) = bt_get x (values st))
      as Hother by (intros x Hx; by rewrite bt_get_insert, (proj2 (String.eqb_neq x key))).
    split; cbn [values section features add_value]; rewrite ?Hother by congruence; eauto.
Qed.

Lemma see_opt pre raw n st mg fs :
  seen pre st mg → seen (pre ++ [raw]) (add_features st fs n) (see_key mg (length pre) "features").
Proof.
  intros Hs. apply (seen_app _ [raw]) in Hs. destruct Hs as [H1 H2 H3 H4 H5].
  split; simpl; eauto. split; eauto.
Qed.

Lemma see_step pre raw st mg st1 :
  run 1 empty_manifest pre = Some st → line_step (1 + zlen pre) st (trim raw) = Some st1 →
  seen pre st mg → seen (pre ++ [raw]) st1 (see_line mg (length pre) raw).
Proof.
  intros Hrun Hstep Hs.
  assert (run 1 empty_manifest (pre ++ [raw]) = Some st1) as Hrun1.
  { rewrite run_app, Hrun. simpl. by rewrite Hstep. }
  apply bind_Some in Hstep as (e & Hedit & He). unfold edit_step in He.
  destruct (allowed st e); [|done]. injection He as <-.
  unfold line_edit in Hedit. unfold see_line. set (line := trim raw) in *. clearbody line.
  destruct (bool_decide (line = []) || _) eqn:Hkeep.
  { injection Hedit as <-. rewrite see_keep by done. by apply seen_app. }
  destruct (starts LBRACKET line).
  { apply fmap_Some in Hedit as (name & Hname & ->). unfold header_name in Hname.
    destruct (ends RBRACKET line); [|done]. simpl in *. destruct (negb _ || _); [done|].
    destruct (String.eqb _ "package" || _); [|done]. injection Hname as <-. apply (seen_app _ [raw]) in Hs.
    destruct Hs as [H1 H2 H3 H4 H5]. by split. }
  apply bind_Some in Hedit as (s & Hsec & Hedit).
  apply bind_Some in Hedit as ([key value] & Hsplit & Hedit). simpl. rewrite Hsplit.
  rewrite (seen_section _ _ _ Hs), Hsec.
  destruct (String.eqb_spec s "dependencies") as [->|].
  { destruct (alias_ok _); [|done]. apply fmap_Some in Hedit as (p & _ & ->). simpl.
    apply (seen_app _ [raw]) in Hs. destruct Hs as [H1 H2 H3 H4 H5]. by split. }
  destruct (String.eqb_spec s "package") as [->|]; [|done].
  rewrite bool_decide_eq_true_2 by done. unfold field_edit in Hedit.
  destruct (existsb _ _); [|done]. simpl in Hedit.
  destruct (String.eqb_spec (of_chars (trim key)) "features") as [Hk|Hk].
  - apply fmap_Some in Hedit as (fs & _ & ->). rewrite Hk. by apply see_opt.
  - apply fmap_Some in Hedit as (v & _ & ->). by apply see_give.
Qed.

Lemma see_lines_app i ls1 ls2 mg :
  see_lines i (ls1 ++ ls2) mg = see_lines (i + length ls1) ls2 (see_lines i ls1 mg).
Proof.
  revert i mg. induction ls1 as [|raw ls1 IH]; intros i mg; simpl; [by rewrite Nat.add_0_r|].
  rewrite IH. f_equal. lia.
Qed.

Lemma see_run ls st :
  run 1 empty_manifest ls = Some st → seen ls st (see_lines 0 ls start_migration).
Proof.
  revert st. induction ls as [|raw ls IH] using rev_ind; intros st H.
  { injection H as <-. split; simpl; try done; split; intros Hx; try done; by destruct Hx. }
  rewrite run_app in H. apply bind_Some in H as (st1 & Hrun & H).
  cbn [run] in H. apply bind_Some in H as (st2 & Hstep & [= <-]).
  rewrite see_lines_app. simpl. eapply see_step; eauto.
Qed.

(** ** Inserting a field *)

(** The default of the field. *)
Definition has (k : string) (st : ManifestState) : Prop :=
  if String.eqb k "features" then fst <$> features st = Some []
  else fst <$> bt_get k (values st) = Some "1".

Lemma run_has k n st ls st1 : run n st ls = Some st1 → has k st → has k st1.
Proof.
  unfold has. intros Hrun. destruct (String.eqb k "features"); intros (x & Hx & Heq)%fmap_Some.
  - by rewrite (run_keeps_features _ _ _ _ _ Hrun Hx), Heq.
  - by rewrite (run_keeps _ _ _ _ _ _ Hrun Hx), Heq.
Qed.

(** A line that gives the default of the field. *)
Definition gives_default (k : string) (line : list char) : Prop :=
  ∀ n st, section st = Some "package" → lacks k st →
    ∃ st', line_step n st (trim line) = Some st' ∧ sim k st st' ∧ has k st'.

Lemma insert_field k line ls i st :
  gives_default k line → in_package ls i → run 1 empty_manifest ls = Some st → lacks k st →
  ∃ st', vec_insert (E := Diagnostic) (i + 1) line ls
           = Ok (take (i + 1) ls ++ line :: drop (i + 1) ls)
    ∧ run 1 empty_manifest (take (i + 1) ls ++ line :: drop (i + 1) ls) = Some st'
    ∧ sim k st st' ∧ has k st' ∧ in_package (take (i + 1) ls ++ line :: drop (i + 1) ls) (i + 1).
Proof.
  intros Hline (a & b & sta & -> & Ha & Hsta & Hp) Hrun Hl.
  rewrite run_app, Hsta in Hrun. simpl in Hrun.
  destruct (Hline (1 + zlen a) sta Hp) as (stl & Hstep & Hs & Hh); [by eapply run_lacks|].
  destruct (run_sim k _ (1 + zlen a + 1) _ _ _ _ Hrun Hs Hl) as (st' & Hrun' & Hs').
  rewrite take_app_length', drop_app_length' by lia. exists st'. split_and!.
  - unfold vec_insert. rewrite (proj2 (Nat.leb_le _ _)) by (rewrite length_app; lia).
    by rewrite take_app_length', drop_app_length' by lia.
  - rewrite run_app, Hsta. cbn [mbind option_bind run]. rewrite Hstep. simpl. exact Hrun'.
  - done.
  - by eapply run_has.
  - exists (a ++ [line]), b, stl. rewrite <- app_assoc, length_app. simpl. split_and!; [done|lia| |].
    + rewrite run_app, Hsta. simpl. by rewrite Hstep.
    + by rewrite (sim_section _ _ _ Hs).
Qed.

Lemma edition_default : gives_default "edition" (edition_text "1").
Proof.
  intros n st Hp [Hv _]. exists (add_value st "edition" "1" n).
  unfold line_step. rewrite Hp.
  replace (line_edit (Some "package") (trim (edition_text "1"))) with (Some (Give "edition" "1"))
    by (vm_compute; reflexivity).
  cbn [mbind option_bind]. unfold edit_step. simpl. rewrite bool_decide_eq_true_2 by done.
  split_and!; [done| |unfold has; simpl; by rewrite bt_get_insert].
  split; simpl; try done. intros x Hx. by rewrite bt_get_insert, (proj2 (String.eqb_neq _ _)).
Qed.

Lemma features_default : gives_default "features" features_text.
Proof.
  intros n st Hp [Hv Hf]. exists (add_features st [] n).
  unfold line_step. rewrite Hp.
  replace (line_edit (Some "package") (trim features_text)) with (Some (Opt []))
    by (vm_compute; reflexivity).
  cbn [mbind option_bind]. unfold edit_step. simpl.
  rewrite (bool_decide_eq_true_2 (bt_get _ _ = _)) by done.
  rewrite bool_decide_eq_true_2 by auto. by split_and!.
Qed.

(** ** The manifest *)

Definition field (st : ManifestState) (k : string) : option string := fst <$> bt_get k (values st).
Definition edition_of (st : ManifestState) : string := default "1" (field st "edition").
Definition features_of (st : ManifestState) : btree unit := default [] (fst <$> features st).
Definition entry_of (st : ManifestState) : Path :=
  path_of (default "src/main.disp" (field st "entry")).

#[local] Arguments entry_ok : simpl never.
Lemma finish_ok path st :
  ok (finish_manifest path st)
  = (name ← field st "name"; version ← field st "version";
     if package_name_ok (chars name) && version_ok (chars version)
        && String.eqb (edition_of st) "1" && bool_decide (features_of st = [])
        && entry_ok (entry_of st)
     then Some (mkPackageManifest name version (edition_of st) (features_of st) (entry_of st)
                  (dependencies st))
     else None).
Proof.
  unfold finish_manifest, required_manifest_value, field at 1 2. rewrite ok_bind.
  destruct (bt_get "name" (values st)) as [ [name l1]|]; simpl; [|done].
  unfold validate_package_name. destruct (package_name_ok (chars name)); simpl;
    [|by destruct (bt_get "version" (values st)) as [ []|] ].
  destruct (bt_get "version" (values st)) as [ [version l2]|]; simpl; [|done].
  destruct (version_ok (chars version)); simpl; [|done].
  replace (match bt_get "edition" (values st) with Some (e, _) => e | None => "1" end)
    with (edition_of st) by (unfold edition_of, field; by destruct (bt_get _ _) as [ []|]).
  destruct (String.eqb (edition_of st) "1"); simpl; [|done].
  unfold features_of. destruct (features st) as [ [ [|[f []] fs] l3]|]; simpl; [|done|].
  all: unfold entry_of, field; destruct (bt_get "entry" (values st)) as [ [e l4]|]; simpl;
    try done; by destruct (entry_ok (path_of e)).
Qed.

(** The same but for the lines of the dependencies. *)
Definition same_manifest (m m' : PackageManifest) : Prop :=
  manifest_name m' = manifest_name m ∧ manifest_version m' = manifest_version m
  ∧ manifest_edition m' = manifest_edition m ∧ manifest_features m' = manifest_features m
  ∧ manifest_entry m' = manifest_entry m
  ∧ dependency_paths (manifest_dependencies m') = dependency_paths (manifest_dependencies m).

Lemma same_manifest_trans m1 m2 m3 :
  same_manifest m1 m2 → same_manifest m2 m3 → same_manifest m1 m3.
Proof.
  intros (?&?&?&?&?&?) (?&?&?&?&?&?). split_and!; congruence.
Qed.

Lemma finish_sim path k st st' m :
  k = "edition" ∨ k = "features" → sim k st st' → lacks k st → has k st' →
  ok (finish_manifest path st) = Some m →
  ∃ m', ok (finish_manifest path st') = Some m' ∧ same_manifest m m'.
Proof.
  intros Hk Hs [Hv Hf] Hh. rewrite !finish_ok.
  assert (∀ x, x ≠ k → field st' x = field st x) as Hfield by exact (sim_values _ _ _ Hs).
  assert (edition_of st' = edition_of st ∧ features_of st' = features_of st) as [Hed Hfe].
  { unfold edition_of, features_of, has in *. destruct Hk as [-> | ->]; simpl in Hh.
    - unfold field. rewrite Hh, Hv. split; [done|]. f_equal. by apply (sim_features _ _ _ Hs).
    - rewrite (Hf eq_refl), Hfield by done. split; [done|].
      transitivity (default [] (Some (A := btree unit) [])); [by f_equal|done]. }
  assert (entry_of st' = entry_of st) as Hen
    by (unfold entry_of; rewrite Hfield; [done|destruct Hk; congruence]).
  rewrite !Hfield, Hed, Hfe, Hen by (destruct Hk; congruence).
  intros (name & -> & H)%bind_Some. apply bind_Some in H as (version & -> & H). simpl.
  destruct (_ && _); [|done]. injection H as <-. eexists. split; [done|].
  split_and!; try done. simpl. apply Hs.
Qed.

(** ** The text *)

Lemma join_render ls : ls ≠ [] → join_lines ls ++ [LF] = render_lines ls.
Proof.
  induction ls as [|l ls IH]; [done|]. intros _. unfold render_lines in *. simpl.
  destruct ls as [|l' ls]; [by rewrite app_nil_r|]. rewrite <- IH by done.
  by rewrite <- !app_assoc.
Qed.

Lemma trim_white l c : is_whitespace c = true → trim (l ++ [c]) = trim l.
Proof.
  intros Hc. unfold trim. induction l as [|d l IH]; simpl; [by rewrite Hc|].
  destruct (is_whitespace d); [done|]. simpl. rewrite rev_app_distr. simpl. by rewrite Hc.
Qed.

Lemma trim_strip_cr l : trim (strip_cr l) = trim l.
Proof.
  unfold strip_cr, ends. destruct l as [|c l] using rev_ind; [done|]. clear IHl.
  rewrite last_snoc. destruct (Z.eqb_spec c CR) as [->|]; [|done].
  rewrite removelast_last. by rewrite trim_white.
Qed.

Lemma strip_cr_chars (P : char → Prop) l : Forall P l → Forall P (strip_cr l).
Proof.
  unfold strip_cr. destruct (ends CR l); [|done]. destruct l as [|c l] using rev_ind; [done|].
  rewrite removelast_last. by intros [? _]%Forall_app.
Qed.

(** Lines that can be read back. *)
Definition good_line (l : list char) : Prop := single l ∧ scalars l.

Lemma good_text_lines text : scalars text → Forall good_line (text_lines text).
Proof.
  intros Ht. unfold text_lines. apply Forall_map, Forall_forall. intros l Hl.
  pose proof (lines_single text) as H1. pose proof (lines_chars _ text Ht) as H2.
  rewrite Forall_forall in H1, H2. specialize (H1 l Hl). specialize (H2 l Hl).
  split; [|by apply strip_cr_chars]. unfold single in *. intros Hin.
  assert (Forall (λ c, c ≠ LF) l) as Hall by (apply Forall_forall; intros c Hc ->; auto).
  apply strip_cr_chars in Hall. rewrite Forall_forall in Hall. by apply (Hall LF).
Qed.

Lemma joined_lines ls :
  ls ≠ [] → Forall good_line ls →
  text_lines (chars (of_chars (join_lines ls ++ [LF]))) = map strip_cr ls.
Proof.
  intros Hne Hg. rewrite join_render, chars_of_chars; [|clear Hne|done].
  - unfold text_lines. rewrite lines_render_lines; [done|].
    eapply Forall_impl; [exact Hg|]. by intros l [].
  - unfold render_lines. induction Hg as [|l ls [_ Hl] _ IH]; simpl; [constructor|].
    apply Forall_app. split; [|exact IH]. apply Forall_app. split; [done|by repeat constructor].
Qed.

(** ** Migration *)

(** Lines that say the manifest [m]. *)
Record says (path : Path) (ls : list (list char)) (st : ManifestState) (m : PackageManifest)
    : Prop := {
  says_run : run 1 empty_manifest ls = Some st;
  says_finish : ok (finish_manifest path st) = Some m;
  says_good : Forall good_line ls }.

Lemma insert_default path k line ls i st m :
  k = "edition" ∨ k = "features" → gives_default k line → good_line line →
  says path ls st m → in_package ls i → lacks k st →
  ∃ ls' st' m', vec_insert (E := Diagnostic) (i + 1) line ls = Ok ls'
    ∧ says path ls' st' m' ∧ same_manifest m m' ∧ sim k st st' ∧ has k st'
    ∧ in_package ls' (i + 1).
Proof.
  intros Hk Hdef Hgood [Hrun Hfin Hls] Hin Hl.
  destruct (insert_field k line ls i st) as (st' & Hins & Hrun' & Hs & Hh & Hin'); [done..|].
  destruct (finish_sim path k st st' m) as (m' & Hfin' & Hsame); [done..|].
  eexists _, st', m'. split_and!; [exact Hins| |done..]. split; [done..|].
  apply Forall_app. rewrite <- (take_drop (i + 1) ls) in Hls. apply Forall_app in Hls as [Ha Hb].
  split; [done|by constructor].
Qed.

Lemma good_texts : good_line (edition_text "1") ∧ good_line features_text.
Proof.
  assert (∀ l, bool_decide (LF ∉ l) && forallb is_scalar l = true → good_line l) as H.
  { intros l [H1%bool_decide_eq_true H2]%andb_true_iff. split; [done|].
    apply Forall_forall. intros c Hc%list_elem_of_In. rewrite forallb_forall in H2. auto. }
  split; apply H; vm_compute; reflexivity.
Qed.

Lemma says_fields path ls st m :
  says path ls st m → manifest_edition m = "1" ∧ is_Some (bt_get "version" (values st)).
Proof.
  intros [_ Hfin _]. rewrite finish_ok in Hfin. apply bind_Some in Hfin as (name & _ & Hfin).
  apply bind_Some in Hfin as (version & Hv & Hfin).
  destruct (_ && _ && _ && _ && _) eqn:Hb; [|done]. injection Hfin as <-. reflect_bools. split.
  - simpl. by apply String.eqb_eq.
  - unfold field in Hv. destruct (bt_get "version" (values st)); [by eexists|done].
Qed.

Lemma not_explicit b {A} (o : option A) : (b = true ↔ is_Some o) → b = false → o = None.
Proof. intros H ->. destruct o; [|done]. by discriminate (proj2 H (mk_is_Some _ _ eq_refl)). Qed.

(** The lines with the missing fields say the same, and have the fields. *)
Lemma add_fields_says path ls st m i :
  says path ls st m → version_line (see_lines 0 ls start_migration) = Some i → in_package ls i →
  ∃ ls' st' m', add_fields (manifest_edition m) (see_lines 0 ls start_migration) i ls = Ok ls'
    ∧ says path ls' st' m' ∧ same_manifest m m'
    ∧ is_Some (bt_get "edition" (values st')) ∧ is_Some (features st').
Proof.
  intros Hsays Hv Hin. pose proof (see_run ls st (says_run _ _ _ _ Hsays)) as Hseen.
  destruct (says_fields _ _ _ _ Hsays) as [-> _]. unfold add_fields.
  destruct (see_lines 0 ls start_migration) as [sec ee ef vl el] eqn:Hmg. simpl in *.
  assert (∃ ls1 st1 m1 j,
    (if ee then Ok (ls, el)
     else migrated ← vec_insert (i + 1) (edition_text "1") ls; Ok (migrated, Some (i + 1)%nat))
    = Ok (ls1, Some j) ∧ says path ls1 st1 m1 ∧ same_manifest m m1 ∧ in_package ls1 j
    ∧ is_Some (bt_get "edition" (values st1)) ∧ (ef = true ↔ is_Some (features st1)))
    as (ls1 & st1 & m1 & j & -> & Hsays1 & Hsame1 & Hin1 & Hed1 & Hf1).
  { destruct ee eqn:Hee.
    - destruct (seen_edition_line _ _ _ Hseen) as (j & Hj & Hinj);
        [by apply (seen_edition _ _ _ Hseen)|].
      simpl in Hj. subst el. exists ls, st, m, j. split_and!; try done.
      + by apply (seen_edition _ _ _ Hseen).
      + apply (seen_features _ _ _ Hseen).
    - destruct (insert_default path "edition" (edition_text "1") ls i st m)
        as (ls1 & st1 & m1 & -> & Hsays1 & Hsame1 & Hs1 & Hh1 & Hin1);
        [by left|apply edition_default|apply good_texts|done|done| |].
      { split; [|done]. by apply (not_explicit _ _ (seen_edition _ _ _ Hseen)). }
      exists ls1, st1, m1, (i + 1)%nat. split_and!; try done.
      + unfold has in Hh1. simpl in Hh1. apply fmap_Some in Hh1 as (x & Hx & _). by eexists.
      + pose proof (sim_features _ _ _ Hs1 ltac:(done)) as Hf.
        rewrite (seen_features _ _ _ Hseen). rewrite <- !(fmap_is_Some fst). by rewrite Hf. }
  cbn [mbind outcome_bind]. destruct ef eqn:Hef.
  - exists ls1, st1, m1. split_and!; try done. by apply Hf1.
  - destruct (insert_default path "features" features_text ls1 j st1 m1)
      as (ls2 & st2 & m2 & Hins & Hsays2 & Hsame2 & Hs2 & Hh2 & Hin2);
      [by right|apply features_default|apply good_texts|done|done| |].
    { split; [|intros _; by apply (not_explicit _ _ Hf1)].
      by apply (run_no_features _ _ _ _ (says_run _ _ _ _ Hsays1)). }
    exists ls2, st2, m2. split_and!; try done.
    + by eapply same_manifest_trans.
    + pose proof (sim_values _ _ _ Hs2 "edition" ltac:(done)) as Hx.
      rewrite <- (fmap_is_Some fst), Hx. by apply fmap_is_Some.
    + unfold has in Hh2. simpl in Hh2. apply fmap_Some in Hh2 as (x & Hx & _). by eexists.
Qed.

(** The manifest gives its edition and its features. *)
Definition explicit (path : Path) (source : string) : Prop :=
  ∃ st, for_each (manifest_line path) (number_lines (text_lines (chars source))) empty_manifest
          = Ok st
    ∧ is_Some (bt_get "edition" (values st)) ∧ is_Some (features st).

Lemma explicit_run path source st :
  run 1 empty_manifest (text_lines (chars source)) = Some st →
  explicit path source ↔ is_Some (bt_get "edition" (values st)) ∧ is_Some (features st).
Proof.
  intros Hrun. rewrite <- (lines_run path) in Hrun. unfold explicit.
  destruct (for_each _ _ _) as [st'| |]; [|done..]. injection Hrun as ->. naive_solver.
Qed.

(** Every line is kept, but for white space around it. *)
Definition keeps_lines (source out : string) : Prop :=
  sublist (map trim (text_lines (chars source))) (map trim (text_lines (chars out))).

Lemma vec_insert_keeps {E} i (a : list char) l l' :
  @vec_insert E _ i a l = Ok l' → sublist l l'.
Proof.
  unfold vec_insert. case_match; [|done]. intros [= <-]. rewrite <- (take_drop i l) at 1.
  apply sublist_app; [done|]. by apply sublist_cons.
Qed.

Lemma add_fields_keeps edition mg v ls ls' : add_fields edition mg v ls = Ok ls' → sublist ls ls'.
Proof.
  unfold add_fields. intros H. inv_ok H. rename v1 into ls1.
  assert (sublist ls ls1) as H1.
  { destruct (explicit_edition mg); [by injection Hv as -> _|]. inv_ok Hv.
    injection Hv as -> _. by eapply vec_insert_keeps. }
  destruct (explicit_features mg); [by injection H as <-|]. inv_ok H.
  etrans; [exact H1|]. by eapply vec_insert_keeps.
Qed.

Lemma sublist_map {A B} (f : A → B) l l' : sublist l l' → sublist (map f l) (map f l').
Proof. induction 1; simpl; by constructor. Qed.

Lemma migrated_text_says path text m :
  scalars text → ok (parse_manifest_text path (of_chars text)) = Some m →
  safe (migrated_text (manifest_edition m) (of_chars text)) (λ migrated,
    (migrated = None ↔ explicit path (of_chars text)) ∧
    ∀ i out, migrated = Some (i, out) → ∃ m',
      parse_manifest_text path out = Ok m' ∧ same_manifest m m'
      ∧ explicit path out ∧ keeps_lines (of_chars text) out).
Proof.
  intros Ht Hm. rewrite parse_run in Hm. apply bind_Some in Hm as (st & Hrun & Hfin).
  pose proof (explicit_run path _ _ Hrun) as Hexplicit. unfold keeps_lines.
  rewrite chars_of_chars in * by done.
  assert (says path (text_lines text) st m) as Hsays by (split; eauto using good_text_lines).
  destruct (says_fields _ _ _ _ Hsays) as [_ Hversion]. pose proof (see_run _ _ Hrun) as Hseen.
  rewrite <- (seen_edition _ _ _ Hseen), <- (seen_features _ _ _ Hseen), <- andb_true_iff in Hexplicit.
  unfold migrated_text. rewrite chars_of_chars by done. cbv zeta.
  destruct (_ && _); [by split; [rewrite Hexplicit|]|].
  destruct (seen_version _ _ _ Hseen Hversion) as (i & Hi & Hin).
  destruct (add_fields_says path _ st m i Hsays Hi Hin)
    as (ls & st' & m' & Hadd & [Hrun' Hfin' Hgood] & Hsame & Hed & Hfe).
  rewrite Hi. cbn [Prelude.expect mbind outcome_bind]. rewrite Hadd. simpl.
  split; [by rewrite Hexplicit|]. intros i' out [= <- <-].
  assert (ls ≠ []) as Hne by (intros ->; injection Hrun' as <-; by destruct Hed).
  pose proof (joined_lines ls Hne Hgood) as Hjoined.
  assert (run 1 empty_manifest (map strip_cr ls) = Some st') as Hread.
  { rewrite <- Hrun'. apply run_ext. rewrite map_map. apply map_ext, trim_strip_cr. }
  rewrite <- Hjoined in Hread. exists m'. split_and!; [|done|by apply (explicit_run _ _ _ Hread)|].
  - pose proof (parse_run path (of_chars (join_lines ls ++ [LF]))) as Hp.
    rewrite Hread in Hp. simpl in Hp. rewrite Hfin' in Hp.
    destruct (parse_manifest_text _ _); [|done..]. by injection Hp as ->.
  - rewrite Hjoined, map_map. rewrite (map_ext (λ l, trim (strip_cr l)) trim) by apply trim_strip_cr.
    by eapply sublist_map, add_fields_keeps.
Qed.

(** C40: Migrating a project returns.  It changes the manifest exactly when the edition or
    the features are missing, and writes nothing when only a check was asked for.  What it
    writes is a manifest that gives both, so that a second migration changes nothing; it
    keeps every line but for white space around it, and has the same meaning: the same
    package, entry, edition, features and dependencies. *)
Theorem migrate_preserves `{Files} (write : Path → string → string + unit)
    (path : Path) (check : bool) (text : list char) :
  let manifest := join path [Normal "DISP.toml"] in
  scalars text → read_to_string manifest = inr (of_chars text) →
  match migrate write path check with
  | Ok (report, written) => ∃ m,
      report_manifest report = manifest ∧ parse_manifest manifest = Ok m
      ∧ report_edition report = manifest_edition m
      ∧ (report_changed report = false ↔ explicit manifest (of_chars text))
      ∧ (is_Some written ↔ report_changed report = true ∧ check = false)
      ∧ ∀ out, written = Some out → ∃ m',
          parse_manifest_text manifest out = Ok m' ∧ same_manifest m m'
          ∧ explicit manifest out ∧ keeps_lines (of_chars text) out
  | Err _ => True
  | Panic => False
  end.
Proof.
  intros manifest Ht Hread. unfold migrate. fold manifest.
  clearbody manifest. destruct (metadata path) as [|md]; simpl; [done|].
  destruct (is_dir md); simpl; [|done].
  pose proof (parse_manifest_safe manifest) as Hsafe.
  destruct (parse_manifest manifest) as [m| |] eqn:Hparse; simpl in Hsafe |- *; [|done..].
  rewrite Hread. simpl. pose proof Hparse as Htext. unfold parse_manifest in Htext.
  rewrite Hread in Htext. inv_ok Htext. simpl in Hv1. injection Hv1 as <-.
  pose proof (migrated_text_says manifest text m Ht) as Hmig.
  rewrite Htext in Hmig. specialize (Hmig eq_refl).
  destruct (migrated_text _ _) as [ [ [i out]|]| |]; simpl in Hmig |- *; [..|done|done];
    destruct Hmig as [Hexplicit Hmig].
  - assert (true = false ↔ explicit manifest (of_chars text)) as Hchanged
      by (rewrite <- Hexplicit; by split).
    destruct check; simpl; [|destruct (write _ out); simpl; [done|] ]; exists m; split_and!;
      try done.
    + split; [by intros []|by intros [_ ?] ].
    + by intros out' [= <-]; apply (Hmig i).
  - exists m. split_and!; try done; [by rewrite <- Hexplicit|]. split; [by intros []|by intros [? _] ].
Qed.
