(* ===== verification/Package.v ===== *)
(** * Package graphs and lock files ([compiler/src/package.rs])

    A package is a directory with a manifest; its dependencies are other directories.
    [resolve_packages] walks the dependencies depth first and returns the graph of
    packages, each with a digest of its sources; [render_lock] is the text of the lock file
    that pins it, and [verify] compares that text with the file.

    SHA-256 (the [sha2] crate) is a parameter.  The depth of the walk is bounded by
    [MAX_DEPENDENCY_DEPTH] in the code, and by [levels] in the model, one more than that;
    the number of directories of a package is not bounded in the code, and [directories]
    bounds it in the model. *)

From S2P Require Import Prelude Machine Utf8 Diagnostics Limits StateM BTree Formatter Link Paths Manifest.
#[local] Open Scope string_scope.
#[local] Open Scope list_scope.
#[local] Open Scope Z_scope.

Record ResolvedPackage := mkResolvedPackage {
  rp_id : string;
  rp_root : Path;
  rp_source_root : Path;
  rp_manifest : PackageManifest;
  rp_dependencies : btree string;
  rp_digest : string;
  rp_root_package : bool }.

Record PackageGraph := mkPackageGraph {
  project_root : Path;
  root_id : string;
  packages : btree ResolvedPackage;
  manifest_digest : string }.

Definition LOCKFILE_NAME : string := "DISP.lock".
Definition LOCK_VERSION : string := "1".

Definition package_error (path : Path) (message : string) : Diagnostic :=
  with_file (new_diagnostic Resolve message (point 1 1)) (display_path path).
Definition lock_error (path : Path) (message : string) : Diagnostic :=
  package_error path message.

Definition manifest_in (root : Path) : Path := join root [Normal "DISP.toml"].

(** [self.packages[id]]. *)
Definition package {E} (g : PackageGraph) (id : string) : outcome E ResolvedPackage :=
  expect (bt_get id (packages g)).
Definition graph_root {E} (g : PackageGraph) : outcome E ResolvedPackage :=
  package g (root_id g).

Definition has_dependencies {E} (g : PackageGraph) : outcome E bool :=
  if 1 <? zlen (packages g) then Ok true
  else root ← graph_root g; Ok (negb (bool_decide (rp_dependencies root = []))).

(** ** Digests *)

Class Sha256 := sha256 : list byte → string.

(** [text.replace("\r\n", "\n")]. *)
Definition canonical_text (bytes : list byte) : outcome string string :=
  text ← ok_or (from_utf8 bytes) "source is not valid UTF-8";
  Ok (of_chars (replace_crlf (chars text))).

Section digests.
Context `{Sha256, Files}.

Definition sha256_text (bytes : list byte) : outcome string string :=
  text ← canonical_text bytes; Ok (sha256 (as_bytes text)).

Definition normalized_relative (root path : Path) : string :=
  String.concat "/"
    (omap (λ c, match c with Normal part => to_str part | _ => None end)
       (default path (strip_prefix path root))).

(** The files of a package that are hashed, found so far, with their total size. *)
Record Sources := mkSources {
  pending : list Path;
  source_files : list Path;
  source_bytes : Z }.

Definition ignored_directories : list string := ["build"; ".git"; "target"].

Definition inspect_entry (root directory : Path) (st : Sources) (name : string)
    : outcome Diagnostic Sources :=
  let path := push directory name in
  let manifest := manifest_in root in
  _ ← bail_if (bool_decide (to_str name = None))
        (package_error manifest
           ("package source path is not valid UTF-8: `" +:+ display_path path +:+ "`"));
  metadata ← or_else (symlink_metadata path) (λ cause,
    package_error manifest ("could not inspect `" +:+ display_path path +:+ "`: " +:+ cause));
  _ ← bail_if (is_symlink metadata)
        (package_error manifest
           ("package source may not contain symbolic link `" +:+ display_path path +:+ "`"));
  if is_dir metadata then
    if existsb (String.eqb name) ignored_directories then Ok st
    else Ok (mkSources (pending st ++ [path]) (source_files st) (source_bytes st))
  else if (is_file metadata
           && (String.eqb name "DISP.toml" || bool_decide (extension path = Some "disp")))%bool
  then
    bytes ← ok_or (checked_add USIZE_MAX (source_bytes st) (file_len metadata))
      (package_error manifest "package source size overflow");
    _ ← bail_if (MAX_PACKAGE_SOURCE_BYTES <? bytes)
          (package_error manifest
             ("package source exceeds the " +:+ display_Z MAX_PACKAGE_SOURCE_BYTES
              +:+ "-byte safety limit"));
    let files := source_files st ++ [path] in
    _ ← bail_if (MAX_PACKAGE_FILES <? zlen files)
          (package_error manifest
             ("package exceeds the safety limit of " +:+ display_Z MAX_PACKAGE_FILES
              +:+ " source files"));
    Ok (mkSources (pending st) files bytes)
  else Ok st.

(** [entries.sort_by_key(|entry| entry.file_name())], and the same for the files below. *)
Fixpoint insert_by {A} (key : A → string) (a : A) (l : list A) : list A :=
  match l with
  | [] => [a]
  | b :: l' =>
    match String.compare (key a) (key b) with
    | Lt => a :: l
    | _ => b :: insert_by key a l'
    end
  end.
Definition sort_by {A} (key : A → string) (l : list A) : list A :=
  fold_left (λ sorted a, insert_by key a sorted) l [].

(** The [while let Some(directory) = pending.pop()] loop. *)
Fixpoint collect_sources (directories : nat) (root : Path) (st : Sources)
    : outcome Diagnostic (list Path) :=
  match last (pending st) with
  | None => Ok (source_files st)
  | Some directory =>
    match directories with
    | O => Panic
    | S directories =>
      entries ← or_else (read_dir directory) (λ cause,
        package_error (manifest_in root) ("could not inspect package source: " +:+ cause));
      let st := mkSources (removelast (pending st)) (source_files st) (source_bytes st) in
      st ← for_each (inspect_entry root directory) (sort_by id entries) st;
      collect_sources directories root st
    end
  end.

Definition DIGEST_PREFIX : list byte := as_bytes "DISP-PACKAGE-SHA256" ++ [x00].

(** A text with its length before it. *)
Definition framed_text (text : string) : list byte :=
  to_le_bytes 8 (str_len text) ++ as_bytes text.

Definition hash_file (root : Path) (digest : list byte) (path : Path)
    : outcome Diagnostic (list byte) :=
  let relative := normalized_relative root path in
  content ← or_else (read_bytes path) (λ cause,
    package_error (manifest_in root)
      ("could not hash `" +:+ display_path path +:+ "`: " +:+ cause));
  content ← map_err (λ message,
      package_error (manifest_in root)
        ("could not hash `" +:+ display_path path +:+ "`: " +:+ message))
    (canonical_text content);
  Ok (digest ++ framed_text relative ++ framed_text content).

(** What the digest is taken of. *)
Definition digest_input (root : Path) (files : list Path) : outcome Diagnostic (list byte) :=
  for_each (hash_file root) (sort_by (normalized_relative root) files) DIGEST_PREFIX.

Definition hash_package (directories : nat) (root : Path) : outcome Diagnostic string :=
  files ← collect_sources directories root (mkSources [root] [] 0);
  bytes ← digest_input root files;
  Ok (sha256 bytes).
End digests.
#[global] Arguments framed_text : simpl never.

(** ** The walk *)

Inductive Visit := Visiting | Complete.
#[export] Instance Visit_eq_dec : EqDecision Visit.
Proof. solve_decision. Defined.

Record PackageResolver := mkPackageResolver {
  pr_packages : btree ResolvedPackage;
  pr_paths : gmap Path string;
  pr_identities : gmap string Path;
  pr_visits : gmap Path Visit;
  pr_stack : list Path }.

Definition PR : Type → Type := SM PackageResolver Diagnostic.

Definition visit_error (message : string) (from : Path) (line : Z) : Diagnostic :=
  with_file (new_diagnostic Resolve message (point line 1)) (display_path from).

Definition package_label (p : Path) : string :=
  match file_name p with
  | Some name => default "<package>" (to_str name)
  | None => "<package>"
  end.

(** [stack.iter().position(..).unwrap_or(0)], and the names from there on. *)
Definition stack_from {A} `{EqDecision A} (a : A) (stack : list A) : list A :=
  match list_find (λ b, b = a) stack with
  | Some (start, _) => drop start stack
  | None => stack
  end.

Definition enter_package (root : Path) (id : string) (r : PackageResolver) : PackageResolver :=
  mkPackageResolver (pr_packages r) (<[root := id]> (pr_paths r))
    (<[id := root]> (pr_identities r)) (<[root := Visiting]> (pr_visits r))
    (pr_stack r ++ [root]).
Definition leave_package (root : Path) (r : PackageResolver) : PackageResolver :=
  mkPackageResolver (pr_packages r) (pr_paths r) (pr_identities r)
    (<[root := Complete]> (pr_visits r)) (removelast (pr_stack r)).
Definition add_package (p : ResolvedPackage) (r : PackageResolver) : PackageResolver :=
  mkPackageResolver (bt_insert (rp_id p) p (pr_packages r)) (pr_paths r) (pr_identities r)
    (pr_visits r) (pr_stack r).

Section walk.
Context `{Sha256, Files} (directories : nat).

Definition root_digest (manifest_path : Path) : outcome Diagnostic string :=
  bytes ← or_else (read_bytes manifest_path) (λ cause,
    package_error manifest_path ("could not hash package manifest: " +:+ cause));
  map_err (package_error manifest_path) (sha256_text bytes).

(** The part of [visit] before the package is entered: its manifest, its identity and the
    directory of its sources. *)
Definition open_package (root from : Path) (line : Z)
    : PR (PackageManifest * string * Path) :=
  let manifest_path := manifest_in root in
  manifest ← lift (parse_manifest manifest_path);
  let id := manifest_name manifest +:+ "@" +:+ manifest_version manifest in
  identities ← gets pr_identities;
  _ ← match identities !! id with
      | Some previous =>
        if bool_decide (previous = root) then mret tt
        else throw (with_help
          (visit_error ("package identity `" +:+ id +:+ "` resolves to both `"
             +:+ display_path previous +:+ "` and `" +:+ display_path root +:+ "`") from line)
          "package name and version together must identify exactly one source tree")
      | None => mret tt
      end;
  let entry := join root (manifest_entry manifest) in
  entry ← lift (or_else (canonicalize entry) (λ cause,
    package_error manifest_path
      ("could not resolve package entry `" +:+ display_path entry +:+ "`: " +:+ cause)));
  _ ← lift (bail_if (negb (starts_with entry root))
              (package_error manifest_path "package entry resolves outside its package root"));
  source_root ← lift (ok_or (parent entry)
    (package_error manifest_path "package entry has no source root"));
  mret (manifest, id, source_root).

Fixpoint visit_package (levels : nat) (root : Path) (root_package : bool) (from : Path) (line : Z)
    : PR string :=
  match levels with
  | O => panic
  | S levels =>
    root ← lift (or_else (canonicalize root) (λ cause,
      visit_error ("could not resolve local dependency `" +:+ display_path root +:+ "`: "
        +:+ cause) from line));
    r ← gets id;
    match pr_visits r !! root with
    | Some Complete => lift (expect (pr_paths r !! root))
    | Some Visiting =>
      throw (visit_error ("package dependency cycle: "
        +:+ String.concat " -> " (map package_label (stack_from root (pr_stack r) ++ [root])))
        from line)
    | None =>
      if MAX_PACKAGES <=? Z.of_nat (size (pr_visits r)) then
        throw (visit_error ("package graph exceeds the safety limit of "
          +:+ display_Z MAX_PACKAGES +:+ " packages") from line)
      else if MAX_DEPENDENCY_DEPTH <=? zlen (pr_stack r) then
        throw (visit_error ("package graph exceeds the maximum depth of "
          +:+ display_Z MAX_DEPENDENCY_DEPTH) from line)
      else
        '(manifest, id, source_root) ← open_package root from line;
        _ ← modify (enter_package root id);
        dependencies ← foldS (λ dependencies '(alias, specification),
            dependency ← visit_package levels (join root (dep_path specification)) false
                           (manifest_in root) (dep_line specification);
            mret (bt_insert alias dependency dependencies))
          (manifest_dependencies manifest) [];
        _ ← modify (leave_package root);
        digest ← lift (if root_package then root_digest (manifest_in root)
                       else hash_package directories root);
        _ ← modify (add_package (mkResolvedPackage id root source_root manifest dependencies
                                   digest root_package));
        mret id
    end
  end.

Definition package_levels : nat := S (Z.to_nat MAX_DEPENDENCY_DEPTH).

Definition resolve_packages (path : Path) : outcome Diagnostic PackageGraph :=
  root ← or_else (canonicalize path) (λ cause,
    package_error (manifest_in path) ("could not resolve package root: " +:+ cause));
  let manifest_path := manifest_in root in
  bytes ← or_else (read_bytes manifest_path) (λ cause,
    package_error manifest_path ("could not read root package manifest: " +:+ cause));
  digest ← map_err (λ message,
      package_error manifest_path ("could not hash manifest: " +:+ message)) (sha256_text bytes);
  '(id, r) ← visit_package package_levels root true manifest_path 1
               (mkPackageResolver [] ∅ ∅ ∅ []);
  Ok (mkPackageGraph root id (pr_packages r) digest).
End walk.

(** ** Lock files *)

(** The number of components two paths share. *)
Fixpoint common_components (p q : Path) : nat :=
  match p, q with
  | a :: p, b :: q => if bool_decide (a = b) then S (common_components p q) else O
  | _, _ => O
  end.

Definition source_part (project_root : Path) (parts : list string) (c : Component)
    : outcome Diagnostic (list string) :=
  match c with
  | Normal part =>
    part ← ok_or (to_str part)
      (package_error (manifest_in project_root) "local dependency paths must be valid UTF-8");
    if existsb (λ c, (c =? 34) || (c =? 92) || is_control c)%bool (chars part) then
      Err (package_error (manifest_in project_root)
             "local dependency paths contain unsupported characters")
    else Ok (parts ++ [part])
  | _ => Ok parts
  end.

Definition relative_source (project_root package_root : Path) : outcome Diagnostic string :=
  if bool_decide (project_root = package_root) then Ok "."
  else
    let common := common_components project_root package_root in
    if (common =? 0)%nat then
      Err (package_error (manifest_in project_root)
             "local dependencies must be on the same filesystem volume as the project")
    else
      parts ← for_each (source_part project_root) (drop common package_root)
                (replicate (length project_root - common) "..");
      Ok (String.concat "/" parts).

(** [key = "value"], on a line of its own. *)
Definition lock_field (key value : string) : string :=
  key +:+ " = " +:+ quote +:+ value +:+ quote +:+ newline.

Definition render_package (project_root : Path) (output : string) (p : ResolvedPackage)
    : outcome Diagnostic string :=
  let m := rp_manifest p in
  source ← relative_source project_root (rp_root p);
  Ok (output +:+ newline +:+ "[[package]]" +:+ newline
      +:+ lock_field "id" (rp_id p) +:+ lock_field "name" (manifest_name m)
      +:+ lock_field "version" (manifest_version m) +:+ lock_field "source" source
      +:+ lock_field "sha256" (rp_digest p)
      +:+ "dependencies = ["
      +:+ String.concat ", "
            (map (λ '(alias, id), quote +:+ alias +:+ "=" +:+ id +:+ quote) (rp_dependencies p))
      +:+ "]" +:+ newline).

Definition render_lock (g : PackageGraph) : outcome Diagnostic string :=
  for_each (λ output entry, render_package (project_root g) output entry.2) (packages g)
    ("# Generated by DISP. Do not edit by hand." +:+ newline
     +:+ lock_field "lock-version" LOCK_VERSION +:+ lock_field "root" (root_id g)
     +:+ lock_field "manifest-sha256" (manifest_digest g)).

Section verify.
Context `{Sha256, Files} (directories : nat).

Definition verify (path : Path) : outcome Diagnostic PackageGraph :=
  graph ← resolve_packages directories path;
  let lock_path := join (project_root graph) [Normal LOCKFILE_NAME] in
  dependent ← has_dependencies graph;
  if (negb dependent && negb (path_exists lock_path))%bool then Ok graph
  else
    metadata ← or_else (metadata lock_path) (λ cause,
      with_help
        (lock_error lock_path
           ("package dependencies require `" +:+ LOCKFILE_NAME +:+ "`: " +:+ cause))
        "run `disp lock <project-directory>` and commit the generated lockfile");
    _ ← bail_if (MAX_LOCKFILE_BYTES <? file_len metadata)
          (lock_error lock_path
             ("lockfile exceeds the " +:+ display_Z MAX_LOCKFILE_BYTES +:+ "-byte safety limit"));
    actual ← or_else (read_to_string lock_path) (λ cause,
      lock_error lock_path ("lockfile is not valid UTF-8: " +:+ cause));
    expected ← render_lock graph;
    if negb (String.eqb actual expected) then
      Err (with_help
             (lock_error lock_path
                "lockfile does not match the package manifests or dependency contents")
             ("review the manifest/source changes, then run `disp lock <project-directory>` "
              +:+ "explicitly"))
    else Ok graph.
End verify.

(** ** The dependency tree *)

Record DependencyTreeLine := mkDependencyTreeLine {
  tree_depth : Z;
  tree_alias : option string;
  tree_id : string }.

(** [walk] of [PackageGraph::tree]: the lines so far and the packages expanded so far. *)
Fixpoint walk (levels : nat) (g : PackageGraph) (id : string) (alias : option string) (depth : Z)
    (st : gset string * list DependencyTreeLine)
    : outcome Empty_set (gset string * list DependencyTreeLine) :=
  match levels with
  | O => Panic
  | S levels =>
    let '(expanded, output) := st in
    let output := output ++ [mkDependencyTreeLine depth alias id] in
    if bool_decide (id ∈ expanded) then Ok (expanded, output)
    else
      p ← package g id;
      for_each (λ st entry, walk levels g entry.2 (Some entry.1) (depth + 1) st)
        (rp_dependencies p) ({[id]} ∪ expanded, output)
  end.

Definition tree (g : PackageGraph) : outcome Empty_set (list DependencyTreeLine) :=
  '(_, output) ← walk (S (length (packages g))) g (root_id g) None 0 (∅, []);
  Ok output.
