(* ===== verification/PackageProps.v ===== *)
(** * What the package walk returns ([compiler/src/package.rs])

    The walk returns on every file system, and its graph is closed under dependencies and
    has no cycle: its packages can be listed so that each comes after those it depends on. *)

From stdpp Require Import relations.
From S2P Require Import Prelude Machine Utf8 Diagnostics Limits StateM BTree Link LinkProps Paths Manifest ManifestProps Package.
#[local] Open Scope string_scope.
#[local] Open Scope list_scope.
#[local] Open Scope Z_scope.

(** ** Graphs *)

(** [order] lists the packages, each after its dependencies. *)
Record dependency_order (ps : btree ResolvedPackage) (order : list string) : Prop := {
  order_once : NoDup order;
  order_all : ∀ id, id ∈ order ↔ is_Some (bt_get id ps);
  order_after : ∀ l id r, order = l ++ id :: r → ∃ p, bt_get id ps = Some p ∧
    ∀ alias dependency, (alias, dependency) ∈ rp_dependencies p → dependency ∈ l }.

Definition well_founded_graph (ps : btree ResolvedPackage) : Prop := ∃ order, dependency_order ps order.

Lemma dependency_order_nil : dependency_order [] [].
Proof.
  split; [constructor| |by intros [|? ?] id r].
  intros id. simpl. split; [by intros ?%not_elem_of_nil|by intros [] ].
Qed.

Lemma dependency_order_add ps order p :
  dependency_order ps order → bt_get (rp_id p) ps = None →
  (∀ alias dependency, (alias, dependency) ∈ rp_dependencies p → is_Some (bt_get dependency ps)) →
  dependency_order (bt_insert (rp_id p) p ps) (order ++ [rp_id p]).
Proof.
  intros [Honce Hall Hafter] Hnew Hdeps.
  assert (rp_id p ∉ order) as Hfresh by (rewrite Hall, Hnew; by intros []).
  split.
  - apply NoDup_app. split_and!; [done| |apply NoDup_singleton].
    intros x Hx Hx'%list_elem_of_singleton. congruence.
  - intros id. rewrite elem_of_app, list_elem_of_singleton, bt_get_insert, Hall.
    destruct (String.eqb_spec id (rp_id p)) as [->|]; naive_solver.
  - intros l id r Heq. destruct r as [|x r] using rev_ind.
    + apply app_inj_tail in Heq as [<- <-]. exists p.
      rewrite bt_get_insert, String.eqb_refl. split; [done|].
      intros alias dep Hin. by apply Hall, (Hdeps alias).
    + clear IHr. change (id :: r ++ [x]) with ((id :: r) ++ [x]) in Heq.
      rewrite app_assoc in Heq.
      apply app_inj_tail in Heq as [Heq _]. destruct (Hafter l id r Heq) as (p' & Hp' & Hd).
      exists p'. split; [|done]. rewrite bt_get_insert.
      destruct (String.eqb_spec id (rp_id p)) as [->|]; [congruence|done].
Qed.

(** ** What the graph says of the packages *)

Definition depends (ps : btree ResolvedPackage) (a b : string) : Prop :=
  ∃ p alias, bt_get a ps = Some p ∧ (alias, b) ∈ rp_dependencies p.

Definition extends (ps ps' : btree ResolvedPackage) : Prop :=
  ∀ id p, bt_get id ps = Some p → bt_get id ps' = Some p.

Lemma depends_extends ps ps' a b : extends ps ps' → depends ps a b → depends ps' a b.
Proof. intros He (p & alias & Hp & Hin). exists p, alias. auto. Qed.

Lemma rtc_depends_extends ps ps' a b :
  extends ps ps' → rtc (depends ps) a b → rtc (depends ps') a b.
Proof. intros He. apply rtc_subrel. intros x y. by apply depends_extends. Qed.

Definition supplies `{Files} (ps : btree ResolvedPackage) (root : Path)
    (wanted : string * DependencySpec) (given : string * string) : Prop :=
  wanted.1 = given.1 ∧ ∃ p, bt_get given.2 ps = Some p
    ∧ canonicalize (join root (dep_path wanted.2)) = inr (rp_root p).

(** The package under an identity is the one its directory holds: the manifest found there
    gives its identity, its entry (inside the directory) and its dependencies, each of them
    the package at the directory the manifest names, and the digest is that of the
    directory, or of the manifest alone for the project itself. *)
Record describes `{Sha256, Files} (directories : nat) (ps : btree ResolvedPackage)
    (id : string) (p : ResolvedPackage) : Prop := {
  describes_manifest : parse_manifest (manifest_in (rp_root p)) = Ok (rp_manifest p);
  describes_identity : rp_id p = id
    ∧ id = manifest_name (rp_manifest p) +:+ "@" +:+ manifest_version (rp_manifest p);
  describes_entry : ∃ entry,
    canonicalize (join (rp_root p) (manifest_entry (rp_manifest p))) = inr entry
    ∧ starts_with entry (rp_root p) = true ∧ parent entry = Some (rp_source_root p);
  describes_dependencies :
    Forall2 (supplies ps (rp_root p)) (manifest_dependencies (rp_manifest p)) (rp_dependencies p);
  describes_digest :
    (if rp_root_package p then root_digest (manifest_in (rp_root p))
     else hash_package directories (rp_root p)) = Ok (rp_digest p) }.

Section resolved.
Context `{Sha256, Files} (directories : nat).

Lemma supplies_extends ps ps' root : extends ps ps' → ∀ wanted given,
  supplies ps root wanted given → supplies ps' root wanted given.
Proof. intros He wanted given (Heq & p & Hp & Hc). split; [done|]. exists p. auto. Qed.

Lemma supplied_known ps root wanted given :
  Forall2 (supplies ps root) wanted given →
  ∀ alias id, (alias, id) ∈ given → is_Some (bt_get id ps).
Proof.
  intros HF alias id [i Hi]%list_elem_of_lookup_1.
  destruct (Forall2_lookup_r _ _ _ _ _ HF Hi) as (w & _ & _ & p & Hp & _). eauto.
Qed.

Lemma supplied_keys ps root wanted given :
  Forall2 (supplies ps root) wanted given → wanted.*1 = given.*1.
Proof. induction 1 as [|w g ws gs [Heq _] _ IH]; csimpl; [done|]. by rewrite Heq, IH. Qed.

Lemma describes_extends ps ps' id p :
  extends ps ps' → describes directories ps id p → describes directories ps' id p.
Proof.
  intros He [Hm Hid Hentry Hdeps Hdigest]. split; try done.
  eapply Forall2_impl; [exact Hdeps|]. by apply supplies_extends.
Qed.

(** ** The state of the walk *)

Record resolving (r : PackageResolver) : Prop := {
  resolving_complete : ∀ root, pr_visits r !! root = Some Complete →
    ∃ id p, pr_paths r !! root = Some id ∧ bt_get id (pr_packages r) = Some p ∧ rp_root p = root;
  resolving_visited : ∀ id root, pr_identities r !! id = Some root →
    is_Some (pr_visits r !! root);
  resolving_known : ∀ id p, bt_get id (pr_packages r) = Some p →
    is_Some (pr_identities r !! id) ∧ is_Some (pr_visits r !! rp_root p)
    ∧ pr_paths r !! rp_root p = Some id;
  resolving_described : ∀ id p, bt_get id (pr_packages r) = Some p →
    describes directories (pr_packages r) id p;
  resolving_graph : well_founded_graph (pr_packages r) }.

(** What a visit leaves alone: the stack, and whatever was there before. *)
Record advances (r r' : PackageResolver) : Prop := {
  advances_stack : pr_stack r' = pr_stack r;
  advances_identities : pr_identities r ⊆ pr_identities r';
  advances_visits : ∀ root v, pr_visits r !! root = Some v →
    pr_visits r' !! root = Some v ∧ pr_paths r' !! root = pr_paths r !! root;
  advances_packages : ∀ id, is_Some (pr_identities r !! id) →
    bt_get id (pr_packages r') = bt_get id (pr_packages r);
  advances_kept : extends (pr_packages r) (pr_packages r') }.

Lemma advances_refl r : advances r r.
Proof. split; [done..|]. by intros id p. Qed.
Lemma advances_trans r1 r2 r3 : advances r1 r2 → advances r2 r3 → advances r1 r3.
Proof.
  intros [S1 I1 V1 P1 K1] [S2 I2 V2 P2 K2]. split.
  - congruence.
  - by etrans.
  - intros root v Hv. destruct (V1 _ _ Hv) as [Hv' Hp]. destruct (V2 _ _ Hv') as [Hv'' Hp'].
    split; congruence.
  - intros id Hid. rewrite P2; [auto|]. destruct Hid as [x Hx]. exists x.
    by eapply lookup_weaken.
  - intros id p Hp. auto.
Qed.

Lemma initial_resolving : resolving (mkPackageResolver [] ∅ ∅ ∅ []).
Proof.
  split; simpl.
  - by intros root ?%lookup_empty_Some.
  - by intros id root ?%lookup_empty_Some.
  - done.
  - done.
  - exists []. apply dependency_order_nil.
Qed.

(** Entering a package whose root has not been visited. *)
Lemma enter_resolving root id r :
  resolving r → pr_visits r !! root = None → resolving (enter_package root id r).
Proof.
  intros [Hc Hv Hk Hd Hg] Hnew. split; simpl; [..|done|done].
  - intros root' Hroot'. destruct (decide (root' = root)) as [->|].
    + rewrite lookup_insert_eq in Hroot'. done.
    + rewrite lookup_insert_ne in Hroot' by done. rewrite lookup_insert_ne by done. auto.
  - intros id' root'. destruct (decide (id' = id)) as [->|].
    + rewrite lookup_insert_eq. intros [= <-]. rewrite lookup_insert_eq. eauto.
    + rewrite lookup_insert_ne by done. intros H'. destruct (decide (root' = root)) as [->|].
      * rewrite lookup_insert_eq. eauto.
      * rewrite lookup_insert_ne by done. eauto.
  - intros id' p Hp. destruct (Hk id' p Hp) as (Hi & [v Hvp] & Hpath).
    assert (rp_root p ≠ root) by congruence. rewrite !(lookup_insert_ne _ root) by done.
    split_and!; [|eauto|done].
    destruct (decide (id' = id)) as [->|]; [rewrite lookup_insert_eq; eauto|].
    by rewrite lookup_insert_ne.
Qed.

(** Leaving it, with its package. *)
Definition leave_with (root : Path) (p : ResolvedPackage) (r : PackageResolver)
    : PackageResolver := add_package p (leave_package root r).

Lemma insert_extends p ps :
  bt_get (rp_id p) ps = None → extends ps (bt_insert (rp_id p) p ps).
Proof.
  intros Hnew id q Hq. rewrite bt_get_insert.
  destruct (String.eqb_spec id (rp_id p)) as [->|]; [congruence|done].
Qed.

Lemma leave_resolving p r :
  resolving r → pr_paths r !! rp_root p = Some (rp_id p) →
  is_Some (pr_identities r !! rp_id p) → bt_get (rp_id p) (pr_packages r) = None →
  describes directories (pr_packages r) (rp_id p) p →
  resolving (leave_with (rp_root p) p r).
Proof.
  intros [Hc Hv Hk Hd [order Hg] ] Hpath Hid Hnew Hdesc.
  pose proof (insert_extends p _ Hnew) as Hext. split; simpl.
  - intros root' Hroot'. destruct (decide (root' = rp_root p)) as [->|].
    + exists (rp_id p), p. by rewrite bt_get_insert, String.eqb_refl.
    + rewrite lookup_insert_ne in Hroot' by done. destruct (Hc _ Hroot') as (id & q & Hi & Hq & <-).
      exists id, q. auto.
  - intros id root' H'. destruct (Hv _ _ H') as [v Hv']. destruct (decide (root' = rp_root p)) as [->|].
    + rewrite lookup_insert_eq. eauto.
    + rewrite lookup_insert_ne by done. eauto.
  - intros id p'. rewrite bt_get_insert. destruct (String.eqb_spec id (rp_id p)) as [->|].
    + intros [= <-]. rewrite lookup_insert_eq. eauto.
    + intros Hp'. destruct (Hk _ _ Hp') as (? & [v Hvp] & ?). split_and!; [done| |done].
      destruct (decide (rp_root p' = rp_root p)) as [->|]; [rewrite lookup_insert_eq; eauto|].
      rewrite lookup_insert_ne by done. eauto.
  - intros id p'. rewrite bt_get_insert. destruct (String.eqb_spec id (rp_id p)) as [->|].
    + intros [= <-]. by eapply describes_extends.
    + intros Hp'. eapply describes_extends; eauto.
  - exists (order ++ [rp_id p]). apply dependency_order_add; [done..|].
    by eapply supplied_known, describes_dependencies.
Qed.

(** What [open_package] finds in the directory. *)
Definition opened (root : Path) (m : PackageManifest) (id : string) (source_root : Path) : Prop :=
  parse_manifest (manifest_in root) = Ok m ∧ bt_sorted (manifest_dependencies m)
  ∧ id = manifest_name m +:+ "@" +:+ manifest_version m
  ∧ ∃ entry, canonicalize (join root (manifest_entry m)) = inr entry
      ∧ starts_with entry root = true ∧ parent entry = Some source_root.

Lemma open_package_safe root from line r :
  safe (open_package root from line r) (λ '((m, id, source_root), r'),
    r' = r ∧ (pr_identities r !! id = None ∨ pr_identities r !! id = Some root)
    ∧ opened root m id source_root).
Proof.
  unfold open_package.
  eapply safe_liftS; [apply parse_manifest_safe|].
  intros manifest Hm Hsorted. set (id := _ +:+ _). eapply (safe_bindS _ _ _ (λ ids r', ids = pr_identities r ∧ r' = r)); [done|].
  intros ids r' [-> ->].
  eapply (safe_bindS _ _ _ (λ _ r', r' = r ∧
    (pr_identities r !! id = None ∨ pr_identities r !! id = Some root))).
  { destruct (pr_identities r !! id) as [previous|] eqn:Hid; simpl; [|auto].
    case_bool_decide; simpl; [subst; auto|done]. }
  intros _ r' [-> Hid].
  eapply safe_liftS; [apply safe_or_else|]. intros entry _ Hentry.
  eapply safe_liftS; [apply safe_bail_if|]. intros u _ Hin. apply negb_false_iff in Hin. clear u.
  eapply safe_liftS; [apply safe_ok_or|]. intros source_root _ Hparent.
  simpl. unfold opened. split_and!; try done. by exists entry.
Qed.

(** A visit that enters [root], visits its dependencies and leaves it. *)
Lemma visited_advances root p r s :
  resolving r → pr_visits r !! root = None → pr_identities r !! rp_id p = None →
  advances (enter_package root (rp_id p) r) s → advances r (leave_with root p s).
Proof.
  intros Hr Hnew Hid [Hstack Hi Hv Hp Hk]. simpl in *. split; simpl.
  - rewrite Hstack. apply removelast_last.
  - etrans; [|exact Hi]. by apply insert_subseteq.
  - intros root' v Hroot'. assert (root' ≠ root) as Hne by congruence.
    destruct (Hv root' v) as [Hv' Hp']; [by rewrite lookup_insert_ne|].
    rewrite lookup_insert_ne by done. rewrite lookup_insert_ne in Hp' by done. done.
  - intros id' [x Hx]. assert (id' ≠ rp_id p) as Hne by congruence.
    rewrite bt_get_insert. apply String.eqb_neq in Hne as Hne'. rewrite Hne'. apply Hp.
    rewrite lookup_insert_ne by done. eauto.
  - intros id' p' Hp'. destruct (resolving_known _ Hr _ _ Hp') as [ [x Hx] _].
    assert (id' ≠ rp_id p) as Hne by congruence.
    rewrite bt_get_insert. apply String.eqb_neq in Hne. rewrite Hne. auto.
Qed.

Context (Hhash : ∀ root, hash_package directories root ≠ Panic).

Lemma digest_safe (rp : bool) root :
  safe (if rp then root_digest (manifest_in root) else hash_package directories root)
    (λ _, True).
Proof using Hhash.
  destruct rp.
  - eapply safe_bind; [apply safe_or_else|]. intros bytes _ _. apply safe_map_err.
    unfold sha256_text, canonical_text. by destruct (from_utf8 bytes).
  - pose proof (Hhash root). by destruct (hash_package directories root).
Qed.

Definition depth_left (levels : nat) (r : PackageResolver) : Prop :=
  zlen (pr_stack r) <= MAX_DEPENDENCY_DEPTH < Z.of_nat levels + zlen (pr_stack r).

(** The packages a visit of [id] adds: those [id] depends on. *)
Definition brings (rp : bool) (id : string) (r r' : PackageResolver) : Prop :=
  ∀ id' p', bt_get id' (pr_packages r') = Some p' →
    bt_get id' (pr_packages r) = Some p'
    ∨ rtc (depends (pr_packages r')) id id' ∧ rp_root_package p' = (rp && String.eqb id' id)%bool.

(** The dependencies of a package, each visited in turn. *)
Record visiting (r1 : PackageResolver) (root : Path) (wanted : btree DependencySpec)
    (ids : btree string) (s : PackageResolver) : Prop := {
  visiting_resolving : resolving s;
  visiting_advances : advances r1 s;
  visiting_supplies : Forall2 (supplies (pr_packages s) root) wanted ids;
  visiting_brings : ∀ id' p', bt_get id' (pr_packages s) = Some p' →
    bt_get id' (pr_packages r1) = Some p'
    ∨ (∃ alias dep, (alias, dep) ∈ ids ∧ rtc (depends (pr_packages s)) dep id')
      ∧ rp_root_package p' = false }.

Lemma visiting_step r1 root wanted alias spec ids s id p s' :
  bt_sorted (wanted ++ [(alias, spec)]) → visiting r1 root wanted ids s →
  resolving s' → advances s s' → bt_get id (pr_packages s') = Some p →
  canonicalize (join root (dep_path spec)) = inr (rp_root p) → brings false id s s' →
  visiting r1 root (wanted ++ [(alias, spec)]) (bt_insert alias id ids) s'.
Proof.
  intros Hsorted [Hr Ha Hsup Hold] Hr' Ha' Hp Hc Hnew.
  pose proof (advances_kept _ _ Ha') as Hext.
  assert (bt_insert alias id ids = ids ++ [(alias, id)]) as ->.
  { apply bt_insert_last. rewrite <- (supplied_keys _ _ _ _ Hsup).
    by eapply bt_sorted_app_last. }
  split; [done|by eapply advances_trans|..].
  - apply Forall2_app.
    + eapply Forall2_impl; [exact Hsup|]. by apply supplies_extends.
    + constructor; [|constructor]. split; [done|]. by exists p.
  - intros id' p' Hp'. destruct (Hnew id' p' Hp') as [Hs|[Hreach Hflag] ].
    + destruct (Hold id' p' Hs) as [|[(a & dep & Hin & Hreach) Hflag] ]; [by left|right].
      split; [|done]. exists a, dep. rewrite elem_of_app. split; [by left|].
      by eapply rtc_depends_extends.
    + right. split; [|done]. exists alias, id. rewrite elem_of_app, list_elem_of_singleton. auto.
Qed.

Lemma left_package p r s :
  resolving r → pr_visits r !! rp_root p = None → pr_identities r !! rp_id p = None →
  opened (rp_root p) (rp_manifest p) (rp_id p) (rp_source_root p) →
  (if rp_root_package p then root_digest (manifest_in (rp_root p))
   else hash_package directories (rp_root p)) = Ok (rp_digest p) →
  visiting (enter_package (rp_root p) (rp_id p) r) (rp_root p)
    (manifest_dependencies (rp_manifest p)) (rp_dependencies p) s →
  resolving (leave_with (rp_root p) p s) ∧ advances r (leave_with (rp_root p) p s)
  ∧ bt_get (rp_id p) (pr_packages (leave_with (rp_root p) p s)) = Some p
  ∧ brings (rp_root_package p) (rp_id p) r (leave_with (rp_root p) p s).
Proof.
  intros Hr Hnew Hid (Hm & _ & Hident & Hentry) Hdigest [Hrs Has Hsup Hold].
  pose proof Has as [Hstack Hi Hv Hp Hk].
  set (r1 := enter_package (rp_root p) (rp_id p) r) in *.
  assert (pr_identities r1 !! rp_id p = Some (rp_root p)) as Hid1 by apply lookup_insert_eq.
  assert (bt_get (rp_id p) (pr_packages s) = None) as Hfresh.
  { rewrite Hp by eauto. destruct (bt_get (rp_id p) (pr_packages r1)) as [p'|] eqn:Hp'; [|done].
    destruct (resolving_known r Hr (rp_id p) p' Hp') as [ [x Hx] _]. congruence. }
  assert (bt_get (rp_id p) (pr_packages (leave_with (rp_root p) p s)) = Some p) as Hself.
  { simpl. by rewrite bt_get_insert, String.eqb_refl. }
  split_and!; [..|done|].
  - apply leave_resolving; [done|..|done|by split].
    + destruct (Hv (rp_root p) Visiting) as [_ ->]; apply lookup_insert_eq.
    + exists (rp_root p). by eapply lookup_weaken.
  - by apply visited_advances.
  - intros id' p' Hp'. destruct (String.eqb_spec id' (rp_id p)) as [->|Hne].
    { right. rewrite Hself in Hp'. injection Hp' as <-. by rewrite andb_true_r. }
    simpl in Hp'. rewrite bt_get_insert in Hp'. apply String.eqb_neq in Hne. rewrite Hne in Hp'.
    destruct (Hold id' p' Hp') as [|[(alias & dep & Hin & Hreach) Hflag] ]; [by left|right].
    rewrite andb_false_r. split; [|done]. eapply rtc_l; [exists p, alias; by split|].
    eapply rtc_depends_extends; [by apply insert_extends|done].
Qed.

Lemma visit_package_safe levels root rp from line r :
  resolving r → depth_left levels r →
  safe (visit_package directories levels root rp from line r) (λ '(id, r'),
    resolving r' ∧ advances r r' ∧ brings rp id r r'
    ∧ ∃ p, bt_get id (pr_packages r') = Some p ∧ canonicalize root = inr (rp_root p)).
Proof using Hhash.
  revert root rp from line r. induction levels as [|levels IH]; intros root0 rp from line r Hr Hd.
  { unfold depth_left in Hd. lia. }
  cbn [visit_package]. eapply safe_liftS; [apply safe_or_else|]. intros root _ Hroot.
  eapply (safe_bindS _ _ _ (λ r0 r', r0 = r ∧ r' = r)); [done|]. intros ? ? [-> ->].
  destruct (pr_visits r !! root) as [ [|]|] eqn:Hvisit; [done|..].
  { destruct (resolving_complete r Hr root Hvisit) as (id & p & Hpath & Hp & <-).
    rewrite Hpath. simpl. split_and!; [done|apply advances_refl|by left|by exists p]. }
  destruct (MAX_PACKAGES <=? _); [done|].
  destruct (MAX_DEPENDENCY_DEPTH <=? zlen (pr_stack r)) eqn:Hdepth; [done|]. reflect_bools.
  eapply (safe_bindS _ _ _ (λ '(m, id, source_root) r',
    r' = r ∧ pr_identities r !! id = None ∧ opened root m id source_root)).
  { eapply safe_mono; [apply open_package_safe|]. intros [ [ [m id] sr] r'] (-> & Hid & Hopen).
    split_and!; [done| |done]. destruct Hid as [|Hid]; [done|].
    destruct (resolving_visited r Hr _ _ Hid). congruence. }
  intros [ [manifest id] source_root] ? (-> & Hid & Hopen). cbv beta iota.
  set (r1 := enter_package root id r).
  eapply (safe_bindS _ _ _ (λ _ r', r' = r1)); [done|]. intros _ ? ->.
  assert (resolving r1) as Hr1 by by apply enter_resolving.
  assert (depth_left levels r1) as Hd1.
  { unfold depth_left, r1, zlen in *. simpl. rewrite length_app. simpl. lia. }
  eapply (safe_bindS _ _ _ (visiting r1 root (manifest_dependencies manifest))).
  { apply (safe_foldS _ (visiting r1 root)).
    - intros done_ [alias spec] rest ids s Heq Hs. pose proof Hs as [Hrs Has _ _].
      eapply safe_bindS; [apply IH; [done|]|].
      + unfold depth_left in *. rewrite (advances_stack _ _ Has). done.
      + intros dep s' (Hr' & Ha' & Hb' & p & Hp & Hc). simpl. eapply visiting_step; eauto.
        destruct Hopen as (_ & Hsorted & _). rewrite Heq in Hsorted.
        apply (bt_sorted_app_l _ rest). by rewrite <- app_assoc.
    - split; [done|apply advances_refl|constructor|]. auto. }
  intros ids s Hs.
  eapply (safe_bindS _ _ _ (λ _ r', r' = leave_package root s)); [done|]. intros _ ? ->.
  eapply safe_liftS; [apply digest_safe|]. intros digest Hdigest _.
  destruct (left_package (mkResolvedPackage id root source_root manifest ids digest rp) r s)
    as (? & ? & ? & ?); try done.
  split_and!; try done. eauto.
Qed.
End resolved.

(** ** Dependency trees *)

(** The dependencies of every package are packages. *)
Definition closed_graph (ps : btree ResolvedPackage) : Prop :=
  ∀ id p alias dependency, bt_get id ps = Some p → (alias, dependency) ∈ rp_dependencies p →
    is_Some (bt_get dependency ps).

Lemma well_founded_closed ps : well_founded_graph ps → closed_graph ps.
Proof.
  intros [order [_ Hall Hafter] ] id p alias dependency Hp Hin.
  assert (id ∈ order) as (l & r & Heq)%list_elem_of_split by (apply Hall; eauto).
  destruct (Hafter l id r Heq) as (p' & Hp' & Hd). rewrite Hp in Hp'. injection Hp' as <-.
  apply Hall. rewrite Heq. apply elem_of_app. left. by eapply Hd.
Qed.

Lemma size_list_to_set_le (l : list string) :
  (size (list_to_set l : gset string) ≤ length l)%nat.
Proof.
  induction l as [|x l IH]; [done|]. rewrite list_to_set_cons. cbn [length].
  destruct (decide (x ∈ (list_to_set l : gset string))).
  - rewrite subseteq_union_1_L by set_solver. lia.
  - rewrite size_union, size_singleton by set_solver. lia.
Qed.

Section tree.
Context (g : PackageGraph) (Hclosed : closed_graph (packages g)).

Definition known_ids (ids : gset string) : Prop := ∀ id, id ∈ ids → is_Some (bt_get id (packages g)).

Lemma known_size ids : known_ids ids → (size ids ≤ length (packages g))%nat.
Proof.
  intros H. rewrite <- (length_fmap fst (packages g)).
  assert (ids ⊆ list_to_set (packages g).*1) as Hsub.
  { intros id Hid. apply elem_of_list_to_set, bt_get_is_Some. auto. }
  etrans; [by apply subseteq_size|]. apply size_list_to_set_le.
Qed.

Lemma walk_safe levels id alias depth st :
  is_Some (bt_get id (packages g)) → known_ids st.1 →
  (length (packages g) < levels + size st.1)%nat →
  safe (walk levels g id alias depth st) (λ st', known_ids st'.1 ∧ st.1 ⊆ st'.1
    ∧ ∃ more, st'.2 = st.2 ++ mkDependencyTreeLine depth alias id :: more).
Proof.
  revert id alias depth st. induction levels as [|levels IH]; intros id alias depth [ids output] Hid Hk Hl.
  { apply known_size in Hk. simpl in *. lia. }
  simpl in *. case_bool_decide as Hin; simpl; [by split_and!; eauto|].
  unfold package. destruct Hid as [p Hp]. rewrite Hp. simpl.
  assert (size ({[id]} ∪ ids) = S (size ids)) as Hsize.
  { rewrite size_union by set_solver. by rewrite size_singleton. }
  eapply safe_mono; [apply (safe_for_each (λ st', known_ids st'.1 ∧ {[id]} ∪ ids ⊆ st'.1 ∧
    ∃ more, st'.2 = (output ++ [mkDependencyTreeLine depth alias id]) ++ more))|].
  - intros st' [alias' dep] Hdep (Hk' & Hsub & more & Hmore).
    eapply safe_mono; [apply IH; [by eapply Hclosed|done|]|].
    + apply subseteq_size in Hsub. lia.
    + intros st'' (Hk'' & Hsub' & more' & Hmore'). split_and!; [done|set_solver|].
      rewrite Hmore', Hmore, <- (app_assoc _ more). eauto.
  - split_and!; [|done|exists []; by rewrite app_nil_r]. intros id'. simpl.
    rewrite elem_of_union, elem_of_singleton. intros [->|]; eauto.
  - intros st' (Hk' & Hsub & more & Hmore). split_and!; [done|set_solver|].
    rewrite Hmore, <- app_assoc. simpl. eauto.
Qed.

Lemma tree_safe : is_Some (bt_get (root_id g) (packages g)) →
  safe (tree g) (λ lines, ∃ more, lines = mkDependencyTreeLine 0 None (root_id g) :: more).
Proof.
  intros Hroot. unfold tree. eapply safe_bind; [apply walk_safe; [done|..]|].
  - intros id. set_solver.
  - simpl. lia.
  - intros [ids output] _ (_ & _ & more & Heq). simpl in *. eauto.
Qed.
End tree.

(** ** The graph of a project *)

(** The graph of the project at [path]. *)
Record graph_of `{Sha256, Files} (directories : nat) (path : Path) (g : PackageGraph) : Prop := {
  graph_at : canonicalize path = inr (project_root g);
  graph_digest : ∃ bytes, read_bytes (manifest_in (project_root g)) = inr bytes
    ∧ sha256_text bytes = Ok (manifest_digest g);
  graph_project : ∃ p, bt_get (root_id g) (packages g) = Some p
    ∧ canonicalize (project_root g) = inr (rp_root p);
  graph_packages : ∀ id p, bt_get id (packages g) = Some p →
    describes directories (packages g) id p ∧ rtc (depends (packages g)) (root_id g) id
    ∧ rp_root_package p = String.eqb id (root_id g);
  graph_distinct : ∀ id id' p p', bt_get id (packages g) = Some p →
    bt_get id' (packages g) = Some p' → rp_root p = rp_root p' → id = id';
  graph_acyclic : well_founded_graph (packages g) }.

Lemma resolve_packages_safe `{Sha256, Files} (directories : nat) (path : Path) :
  (∀ root, hash_package directories root ≠ Panic) →
  safe (resolve_packages directories path) (graph_of directories path).
Proof.
  intros Hhash. eapply safe_bind; [apply safe_or_else|]. intros root _ Hroot.
  eapply safe_bind; [apply safe_or_else|]. intros bytes _ Hbytes.
  eapply (safe_bind _ _ (λ digest, sha256_text bytes = Ok digest)).
  { apply safe_map_err. unfold sha256_text, canonical_text. by destruct (from_utf8 bytes). }
  intros digest _ Hdigest. eapply safe_bind.
  { apply (visit_package_safe directories Hhash); [apply initial_resolving|].
    by split; vm_compute. }
  intros [id r] _ (Hr & _ & Hb & p & Hp & Hc). split; simpl; try done; [by exists bytes|by exists p|..].
  - intros id' p' Hp'. split; [by apply (resolving_described _ _ Hr)|].
    by destruct (Hb id' p' Hp') as [|[] ].
  - intros id1 id2 p1 p2 (_ & _ & H1)%(resolving_known _ _ Hr)
      (_ & _ & H2)%(resolving_known _ _ Hr) Heq. congruence.
  - apply (resolving_graph _ _ Hr).
Qed.

(** C38: Resolving packages returns on every file system whose directories are finite (so
    that hashing them returns): a diagnostic, or the graph of the project.  The graph holds
    the project and what it depends on and nothing else, each directory once; every package
    is described by the manifest, the entry and the sources of its directory; its
    dependencies are the packages at the directories its manifest names; and no package
    depends on itself, directly or through others (the packages can be listed so that each
    comes after its dependencies), so that the dependency tree can be printed. *)
Theorem resolve_packages_sound `{Sha256, Files} (directories : nat) (path : Path) :
  (∀ root, hash_package directories root ≠ Panic) →
  match resolve_packages directories path with
  | Ok g => graph_of directories path g ∧ tree g ≠ Panic
  | Err _ => True
  | Panic => False
  end.
Proof.
  intros Hhash. pose proof (resolve_packages_safe directories path Hhash) as Hs.
  destruct (resolve_packages directories path) as [g| |]; simpl in *; [|done..].
  split; [done|]. destruct Hs as [_ _ (p & Hp & _) _ _ Hg].
  eapply safe_no_panic, tree_safe; [by apply well_founded_closed|eauto].
Qed.

(** ** Lock files *)

Lemma relative_source_safe root p : safe (relative_source root p) (λ _, True).
Proof.
  unfold relative_source. case_match; [done|]. case_match; [done|].
  eapply safe_bind; [apply (safe_for_each (λ _, True)); [|done]|done].
  intros parts c _ _. unfold source_part. destruct c; try done.
  eapply safe_bind; [apply safe_ok_or|]. intros part _ _. by case_match.
Qed.

Lemma render_lock_safe g : safe (render_lock g) (λ _, True).
Proof.
  apply (safe_for_each (λ _, True)); [|done]. intros output entry _ _.
  eapply safe_bind; [apply relative_source_safe|]. done.
Qed.

(** The lock file holds exactly what the graph says; a project without dependencies may do
    without one. *)
Definition locked `{Files} (g : PackageGraph) : Prop :=
  let lock := join (project_root g) [Normal "DISP.lock"] in
  (∃ text, read_to_string lock = inr text ∧ render_lock g = Ok text)
  ∨ path_exists lock = false
    ∧ ∀ id p, bt_get id (packages g) = Some p → id = root_id g ∧ rp_dependencies p = [].

Lemma independent_project `{Sha256, Files} directories path g :
  graph_of directories path g → @has_dependencies Diagnostic g = Ok false →
  ∀ id p, bt_get id (packages g) = Some p → id = root_id g ∧ rp_dependencies p = [].
Proof.
  intros Hg Hno. destruct (graph_project _ _ _ Hg) as (root & Hroot & _).
  unfold has_dependencies, graph_root, package in Hno. rewrite Hroot in Hno. simpl in Hno.
  case_match eqn:Hlen; [done|]. injection Hno as Hdeps%negb_false_iff%bool_decide_eq_true.
  apply Z.ltb_ge in Hlen. intros id p Hp.
  assert (id = root_id g) as ->; [|split; congruence].
  assert (id ∈ (packages g).*1) as Hin by (apply bt_get_is_Some; eauto).
  assert (root_id g ∈ (packages g).*1) as Hin' by (apply bt_get_is_Some; eauto).
  unfold zlen in Hlen. destruct (packages g) as [|x [|y l] ]; simpl in *; [|set_solver|lia].
  by apply not_elem_of_nil in Hin.
Qed.

Lemma verify_safe `{Sha256, Files} (directories : nat) (path : Path) :
  (∀ root, hash_package directories root ≠ Panic) →
  safe (verify directories path) (λ g, graph_of directories path g ∧ locked g).
Proof.
  intros Hhash. eapply safe_bind; [by apply resolve_packages_safe|]. intros g _ Hg.
  eapply (safe_bind _ _ (λ _, True)).
  { unfold has_dependencies, graph_root, package. case_match; [done|].
    destruct (graph_project _ _ _ Hg) as (p & -> & _). done. }
  intros dependent Hdep _. case_match eqn:Hlock.
  { apply andb_true_iff in Hlock as [Hd%negb_true_iff Hl%negb_true_iff]. subst dependent.
    split; [done|]. right. split; [done|]. by eapply independent_project. }
  eapply safe_bind; [apply safe_or_else|]. intros m _ _.
  eapply safe_bind; [apply safe_bail_if|]. intros _ _ _.
  eapply safe_bind; [apply safe_or_else|]. intros actual _ Hactual.
  eapply safe_bind; [apply render_lock_safe|]. intros expected Hexpected _.
  destruct (String.eqb_spec actual expected) as [->|]; simpl; [|done].
  split; [done|]. left. by exists expected.
Qed.

(** ** Digests *)

Lemma framed_text_inj t1 t2 rest1 rest2 :
  str_len t1 < 2 ^ 64 → str_len t2 < 2 ^ 64 →
  framed_text t1 ++ rest1 = framed_text t2 ++ rest2 → t1 = t2 ∧ rest1 = rest2.
Proof.
  intros H1 H2 H. unfold framed_text in H. rewrite <- !app_assoc in H.
  apply app_inj_1 in H as [Hlen H]; [|by rewrite !length_to_le_bytes].
  apply (f_equal from_le_bytes) in Hlen. unfold str_len in *.
  rewrite !from_to_le_bytes in Hlen by (unfold zlen in *; change (256 ^ Z.of_nat 8) with (2 ^ 64); lia).
  apply app_inj_1 in H as [Ht Hr]; [|unfold zlen in Hlen; lia]. split; [|done].
  by apply (f_equal of_bytes) in Ht; rewrite !of_as_bytes in Ht.
Qed.

(** What is hashed of a file: its path in the package and its text. *)
Definition hashed_source (F : Files) (root path : Path) : outcome string (string * string) :=
  content ← or_else (read_bytes path) id;
  text ← canonical_text content;
  Ok (normalized_relative root path, text).

Definition frame_source (s : string * string) : list byte := framed_text s.1 ++ framed_text s.2.

Lemma frame_source_eq path text :
  frame_source (path, text) = framed_text path ++ framed_text text.
Proof. done. Qed.

Lemma frame_source_nonempty s rest : frame_source s ++ rest ≠ [].
Proof.
  intros H. apply (f_equal length) in H. destruct s as [path text].
  rewrite frame_source_eq, !length_app in H. unfold framed_text in H.
  rewrite length_app, length_to_le_bytes in H. simpl in H. lia.
Qed.

(** The files of a package as they are hashed. *)
Definition package_sources (F : Files) (root : Path) (files : list Path)
    : list (outcome string (string * string)) :=
  map (hashed_source F root) (sort_by (normalized_relative root) files).

Lemma digest_input_frames (F : Files) root files bytes :
  digest_input root files = Ok bytes →
  ∃ ss, package_sources F root files = map Ok ss
    ∧ bytes = DIGEST_PREFIX ++ flat_map frame_source ss.
Proof.
  unfold digest_input, package_sources. generalize (sort_by (normalized_relative root) files).
  intros l. generalize DIGEST_PREFIX. induction l as [|path l IH]; simpl; intros prefix H.
  { injection H as <-. exists []. split; [done|]. simpl. by rewrite app_nil_r. }
  inv_ok H. unfold hash_file in Hv. inv_ok Hv. unfold or_else in Hv0.
  destruct (read_bytes path) as [|content] eqn:Hread; [done|]. injection Hv0 as <-.
  destruct (canonical_text content) as [text| |] eqn:Htext; [|done..]. injection Hv1 as <-.
  match type of Hv with Ok ?b = _ => assert (v = b) as -> by congruence end.
  destruct (IH _ H) as (ss & Hss & ->).
  exists ((normalized_relative root path, text) :: ss). cbn [map flat_map]. split.
  - rewrite Hss. unfold hashed_source. rewrite Hread. simpl. by rewrite Htext.
  - rewrite frame_source_eq. by rewrite <- !app_assoc.
Qed.

Definition small_source (s : string * string) : Prop := str_len s.1 < 2 ^ 64 ∧ str_len s.2 < 2 ^ 64.

Lemma frames_inj ss1 ss2 :
  Forall small_source ss1 → Forall small_source ss2 →
  flat_map frame_source ss1 = flat_map frame_source ss2 → ss1 = ss2.
Proof.
  intros H1. revert ss2. induction H1 as [|[p1 t1] ss1 [Hp1 Ht1] _ IH]; intros ss2 H2 Heq;
    destruct H2 as [|[p2 t2] ss2 [Hp2 Ht2] H2]; [done|..].
  1: symmetry in Heq.
  1, 2: by apply frame_source_nonempty in Heq.
  cbn [flat_map fst snd] in *. rewrite !frame_source_eq, <- !app_assoc in Heq.
  apply framed_text_inj in Heq as [-> Heq]; [|done..].
  apply framed_text_inj in Heq as [-> Heq]; [|done..]. f_equal. by apply IH.
Qed.

(** C39: The digest of a package is taken of a faithful encoding of its sources: when two
    packages (in any two file systems) have the same digest input, they have the same files
    under the same relative paths with the same texts up to line endings, in the same order.
    No file can be moved, split or renamed without changing the input. *)
Theorem digest_input_injective (F1 F2 : Files) root1 root2 files1 files2 bytes :
  @digest_input F1 root1 files1 = Ok bytes → @digest_input F2 root2 files2 = Ok bytes →
  (∀ s, Ok s ∈ package_sources F1 root1 files1 → small_source s) →
  (∀ s, Ok s ∈ package_sources F2 root2 files2 → small_source s) →
  package_sources F1 root1 files1 = package_sources F2 root2 files2.
Proof.
  intros (ss1 & Hss1 & ->)%digest_input_frames (ss2 & Hss2 & Heq)%digest_input_frames.
  rewrite Hss1, Hss2. intros H1 H2. apply app_inv_head in Heq. f_equal.
  apply frames_inj; [..|done]; apply Forall_forall; intros s Hs; [apply H1|apply H2];
    apply list_elem_of_fmap; eauto.
Qed.
