(* ===== verification/Loader.v ===== *)
(** * Loading a project ([compiler/src/project.rs], [Loader], [load])

    Starting from its entry, the loader reads a module, lexes and parses it with its own
    range of global lines, and then loads the modules it imports, depth first.  Imports are
    found in the source directory of the package, or in a dependency when the first part of
    the path is one of its aliases.

    The depth of imports is bounded by [MAX_MODULE_DEPTH] in the code, and by [levels] in
    the model, one more than that. *)

From S2P Require Import Prelude Machine Utf8 Diagnostics Limits StateM BTree Ast Lexer LexerShift Parser Link Paths Manifest Package.
#[local] Open Scope string_scope.
#[local] Open Scope list_scope.
#[local] Open Scope Z_scope.

Definition module_key (path : list string) : string :=
  match path with [] => "<root>" | _ => String.concat "." path end.
Definition display_module (path : list string) : string :=
  match path with [] => "root" | _ => String.concat "." path end.

(** The fields of the [Loader] that change. *)
Record Loader := mkLoader {
  ld_units : btree ModuleUnit;
  ld_visits : gmap string Visit;
  ld_stack : list string;
  ld_order : list string;
  ld_files : gmap Path string;
  ld_lines : Lines;
  ld_total_bytes : Z }.

Definition initial_loader : Loader := mkLoader [] ∅ [] [] ∅ initial_lines 0.

(** An error comes with the files registered when it was raised: [load] maps its lines back
    with them. *)
Definition LD : Type → Type := SM Loader (Diagnostic * list SourceFile).
Definition attempt {A} (m : outcome Diagnostic A) : LD A :=
  λ l, lift (map_err (λ d, (d, sources (ld_lines l))) m) l.
Definition fail {A} (d : Diagnostic) : LD A := attempt (Err d).

Definition set_lines (lines : Lines) (l : Loader) : Loader :=
  mkLoader (ld_units l) (ld_visits l) (ld_stack l) (ld_order l) (ld_files l) lines
    (ld_total_bytes l).
Definition set_total_bytes (n : Z) (l : Loader) : Loader :=
  mkLoader (ld_units l) (ld_visits l) (ld_stack l) (ld_order l) (ld_files l) (ld_lines l) n.
Definition enter_module (canonical : Path) (key : string) (l : Loader) : Loader :=
  mkLoader (ld_units l) (<[key := Visiting]> (ld_visits l)) (ld_stack l ++ [key]) (ld_order l)
    (<[canonical := key]> (ld_files l)) (ld_lines l) (ld_total_bytes l).
Definition insert_unit (key : string) (u : ModuleUnit) (l : Loader) : Loader :=
  mkLoader (bt_insert key u (ld_units l)) (ld_visits l) (ld_stack l) (ld_order l) (ld_files l)
    (ld_lines l) (ld_total_bytes l).
Definition leave_module (key : string) (l : Loader) : Loader :=
  mkLoader (ld_units l) (<[key := Complete]> (ld_visits l)) (removelast (ld_stack l))
    (ld_order l ++ [key]) (ld_files l) (ld_lines l) (ld_total_bytes l).

(** What an import refers to: a package, a module of it, its file, and whether it is the
    root. *)
Abbreviation Target := (option string * list string * Path * bool)%type.

Section loader.
Context `{Unicode, TokenText, Files}.
Context (root : Path) (graph : option PackageGraph).

Definition identity_path (package_id : option string) (local_path : list string) (is_root : bool)
    : outcome Diagnostic (list string) :=
  match graph with
  | None => Ok local_path
  | Some g =>
    if (is_root || bool_decide (package_id = Some (root_id g)))%bool then Ok local_path
    else id ← Prelude.expect package_id; Ok (("package:" +:+ id) :: local_path)
  end.

Definition source_root (package_id : option string) : outcome Diagnostic Path :=
  match graph, package_id with
  | Some g, Some id => p ← package g id; Ok (rp_source_root p)
  | _, _ => Ok root
  end.

Definition diagnostic_path (package_id : option string) (canonical : Path)
    : outcome Diagnostic Path :=
  base ← source_root package_id;
  let relative := default canonical (strip_prefix canonical base) in
  match graph with
  | None => Ok relative
  | Some g =>
    if bool_decide (package_id = Some (root_id g)) then Ok relative
    else
      id ← Prelude.expect package_id;
      p ← package g id;
      Ok (join (join [Normal "dependencies"] [Normal (rp_id p)]) relative)
  end.

Definition module_file (base : Path) (parts : list string) : Path :=
  set_extension (fold_left push parts base) "disp".

Definition ambiguous_import (import_path : list string) (alias : string) (s : Span)
    : Diagnostic :=
  with_help
    (project_error ("import `" +:+ String.concat "." import_path
       +:+ "` is ambiguous between dependency alias `" +:+ alias +:+ "` and a local module") s)
    "rename the dependency alias or the local module".

Definition resolve_import (package_id : option string) (import_path : list string) (s : Span)
    : outcome Diagnostic Target :=
  match graph with
  | None => Ok (None, import_path, module_file root import_path, false)
  | Some g =>
    let package_id := default (root_id g) package_id in
    p ← package g package_id;
    '(target_id, local_path) ←
      match import_path with
      | alias :: rest =>
        match bt_get alias (rp_dependencies p) with
        | Some target =>
          if path_exists (module_file (rp_source_root p) import_path) then
            Err (ambiguous_import import_path alias s)
          else Ok (target, rest)
        | None => Ok (package_id, import_path)
        end
      | [] => Ok (package_id, import_path)
      end;
    target ← package g target_id;
    let file := match local_path with
                | [] => join (rp_root target) (manifest_entry (rp_manifest target))
                | _ => module_file (rp_source_root target) local_path
                end in
    Ok (Some target_id, local_path, file, false)
  end.

(** [load_unit] up to the text of the module: the file is found, is inside the sources, is
    no other module's file and keeps the limits. *)
Definition read_module (package_id : option string) (local_path : list string) (file : Path)
    (import_span : Span) (key : string) : LD (Path * string) :=
  base ← attempt (source_root package_id);
  canonical ← attempt (or_else (canonicalize file) (λ cause,
    project_error ("could not load module `" +:+ display_module local_path +:+ "`: " +:+ cause)
      import_span));
  _ ← attempt (bail_if (negb (starts_with canonical base))
              (project_error ("module `" +:+ display_module local_path
                 +:+ "` resolves outside the project source root") import_span));
  files ← gets ld_files;
  _ ← match files !! canonical with
      | Some previous =>
        attempt (bail_if (negb (String.eqb previous key))
                (project_error ("module paths `" +:+ previous +:+ "` and `" +:+ key
                   +:+ "` resolve to the same source file") import_span))
      | None => mret tt
      end;
  metadata ← attempt (or_else (metadata canonical) (λ cause,
    project_error ("could not inspect module `" +:+ display_path canonical +:+ "`: " +:+ cause)
      import_span));
  _ ← attempt (bail_if (MAX_SOURCE_BYTES <? file_len metadata)
              (project_error ("module `" +:+ display_path canonical +:+ "` is "
                 +:+ display_Z (file_len metadata) +:+ " bytes; the per-file safety limit is "
                 +:+ display_Z MAX_SOURCE_BYTES +:+ " bytes") import_span));
  total ← gets ld_total_bytes;
  total ← attempt (ok_or (checked_add USIZE_MAX total (file_len metadata))
                  (project_error "project source size overflow" import_span));
  _ ← modify (set_total_bytes total);
  _ ← attempt (bail_if (MAX_PROJECT_BYTES <? total)
              (project_error ("project exceeds the source safety limit of "
                 +:+ display_Z MAX_PROJECT_BYTES +:+ " bytes") import_span));
  source ← attempt (or_else (read_to_string canonical) (λ cause,
    project_error ("could not read `" +:+ display_path canonical +:+ "` as UTF-8: " +:+ cause)
      import_span));
  mret (canonical, source).

(** The module is given its lines, lexed and parsed. *)
Definition parse_module (package_id : option string) (canonical : Path) (source : string)
    : LD Program :=
  shown ← attempt (diagnostic_path package_id canonical);
  lines ← gets ld_lines;
  let '(start_line, lines) :=
    register lines (display_path shown) (display_path canonical) source in
  _ ← modify (set_lines lines);
  '(tokens, _) ← attempt (tokenize (with_start_line source start_line));
  attempt (parse tokens).

(** A declared module path must be the path the module was found at. *)
Definition check_declaration (local_path : list string) (canonical : Path) (p : Program)
    : outcome Diagnostic unit :=
  let expected :=
    match local_path with
    | [] => [match file_stem canonical with
             | Some stem => default "main" (to_str stem)
             | None => "main"
             end]
    | _ => local_path
    end in
  match program_module p with
  | Some declared =>
    let actual := map node (module_path declared) in
    bail_if (negb (bool_decide (actual = expected)))
      (project_error ("module declaration `" +:+ String.concat "." actual
         +:+ "` does not match source path `" +:+ String.concat "." expected +:+ "`")
         (module_span declared))
  | None => Ok tt
  end.

Definition import_target (package_id : option string) (import : ImportDeclaration)
    : outcome Diagnostic Target :=
  resolve_import package_id (map node (import_path import)) (import_span import).

Definition target_key (target : Target) : outcome Diagnostic string :=
  let '(package_id, local_path, _, is_root) := target in
  path ← identity_path package_id local_path is_root; Ok (module_key path).

(** [iter().map(..).collect::<Result<_, _>>()]. *)
Fixpoint collect_all {A B} (f : A → outcome Diagnostic B) (l : list A)
    : outcome Diagnostic (list B) :=
  match l with
  | [] => Ok []
  | a :: l => b ← f a; bs ← collect_all f l; Ok (b :: bs)
  end.

Definition module_cycle (key : string) (stack : list string) (s : Span) : Diagnostic :=
  with_help
    (project_error ("module import cycle: "
       +:+ String.concat " -> " (stack_from key stack ++ [key])) s)
    "move shared declarations into a module outside the cycle".

Fixpoint load_unit (levels : nat) (package_id : option string) (local_path : list string)
    (file : Path) (import_span : Span) (is_root : bool) : LD unit :=
  match levels with
  | O => panic
  | S levels =>
    path ← attempt (identity_path package_id local_path is_root);
    let key := module_key path in
    l ← gets id;
    match ld_visits l !! key with
    | Some Complete => mret tt
    | Some Visiting => fail (module_cycle key (ld_stack l) import_span)
    | None =>
      if MAX_PROJECT_MODULES <=? Z.of_nat (size (ld_visits l)) then
        fail (project_error ("project exceeds the safety limit of "
          +:+ display_Z MAX_PROJECT_MODULES +:+ " modules") import_span)
      else if MAX_MODULE_DEPTH <=? zlen (ld_stack l) then
        fail (project_error ("module imports exceed the maximum depth of "
          +:+ display_Z MAX_MODULE_DEPTH) import_span)
      else
        '(canonical, source) ← read_module package_id local_path file import_span key;
        program ← parse_module package_id canonical source;
        _ ← attempt (check_declaration local_path canonical program);
        _ ← modify (enter_module canonical key);
        targets ← attempt (collect_all (import_target package_id) (program_imports program));
        import_targets ← attempt (collect_all target_key targets);
        _ ← modify (insert_unit key (mkUnit path import_targets program is_root));
        _ ← iterS (λ '(import, (target_package, target_path, module_file, target_root)),
               load_unit levels target_package target_path module_file
                 (Ast.import_span import) target_root)
             (zip (program_imports program) targets);
        modify (leave_module key)
    end
  end.

Definition module_levels : nat := S (Z.to_nat MAX_MODULE_DEPTH).

(** [load_all]: the loaded modules, linked, with the files they came from. *)
Definition load_all (entry : Path) : LD Program :=
  let package_id := root_id <$> graph in
  _ ← load_unit module_levels package_id [] entry (point 1 1) true;
  l ← gets id;
  linked ← attempt (link (ld_units l) (ld_order l));
  mret (mkProgram (sources (ld_lines l)) (program_module linked) (program_imports linked)
          (program_public_items linked) (program_structs linked) (program_enums linked)
          (program_traits linked) (program_implementations linked)
          (program_functions linked)).

(** ** Entry points *)

Record Project := mkProject {
  project_program : Program;
  project_sources : SourceMap;
  project_entry : Path;
  project_package : option PackageManifest }.
End loader.

Definition input_error (message : string) (input : Path) : Diagnostic :=
  with_file (new_diagnostic Resolve message (point 1 1)) (display_path input).

Section entry_points.
Context `{Unicode, TokenText, Files, Sha256} (directories : nat).

Definition resolve_input (input : Path)
    : outcome Diagnostic (Path * option PackageManifest) :=
  m ← or_else (metadata input) (λ cause,
    input_error ("could not inspect `" +:+ display_path input +:+ "`: " +:+ cause) input);
  if is_file m then
    if bool_decide (extension input ≠ Some "disp") then
      Err (input_error "DISP source files must end with `.disp`" input)
    else Ok (input, None)
  else
    _ ← bail_if (negb (is_dir m))
          (input_error "DISP input must be a source file or project directory" input);
    root ← or_else (canonicalize input) (λ cause,
      input_error ("could not resolve project directory: " +:+ cause) input);
    let manifest_path := manifest_in root in
    manifest ← parse_manifest manifest_path;
    let entry := join root (manifest_entry manifest) in
    canonical_entry ← or_else (canonicalize entry) (λ cause,
      input_error ("could not open package entry `" +:+ display_path entry +:+ "`: " +:+ cause)
        manifest_path);
    _ ← bail_if (negb (starts_with canonical_entry root))
          (input_error "package entry resolves outside the project directory" manifest_path);
    Ok (canonical_entry, Some manifest).

(** The graph of a project directory; a source file has none. *)
Definition project_graph (input : Path) : outcome Diagnostic (option PackageGraph) :=
  m ← or_else (metadata input) (λ cause,
    input_error ("could not inspect `" +:+ display_path input +:+ "`: " +:+ cause) input);
  if is_dir m then graph ← verify directories input; Ok (Some graph) else Ok None.

Definition project_input (input : Path) (graph : option PackageGraph)
    : outcome Diagnostic (Path * option PackageManifest) :=
  match graph with
  | Some g =>
    root ← graph_root g;
    Ok (join (rp_root root) (manifest_entry (rp_manifest root)), Some (rp_manifest root))
  | None => resolve_input input
  end.

(** The root directory of the [Loader]. *)
Definition loader_root (entry : Path) (graph : option PackageGraph) : outcome Diagnostic Path :=
  match graph with
  | Some g => root ← graph_root g; Ok (rp_source_root root)
  | None =>
    ok_or (parent entry) (project_error "project entry has no parent directory" (point 1 1))
  end.

(** The lines of an error are mapped back to the file they are in. *)
Definition remap_error (e : Diagnostic * list SourceFile) : outcome Diagnostic Project :=
  match remap (mkSourceMap e.2) e.1 with
  | Ok d => Err d
  | Err x => match x : Empty_set with end
  | Panic => Panic
  end.

Definition load_project (input : Path) : outcome Diagnostic Project :=
  graph ← project_graph input;
  '(entry, manifest) ← project_input input graph;
  entry ← or_else (canonicalize entry) (λ cause,
    input_error ("could not open project entry `" +:+ display_path entry +:+ "`: " +:+ cause)
      entry);
  _ ← ok_or (parent entry) (project_error "project entry has no parent directory" (point 1 1));
  root ← loader_root entry graph;
  match load_all root graph entry initial_loader with
  | Ok (program, l) =>
    Ok (mkProject program (mkSourceMap (sources (ld_lines l))) entry manifest)
  | Err e => remap_error e
  | Panic => Panic
  end.
End entry_points.
