(* ===== verification/LoaderProps.v ===== *)
(** * What the loader returns ([compiler/src/project.rs])

    Loading returns on every file system.  When it succeeds, every module has been loaded
    once and after the modules it imports, which is what [Link] relies on. *)

From S2P Require Import Prelude Machine Utf8 Diagnostics Limits StateM BTree Ast Lexer LexerProps LexerShift Parser ParserForm ParserLogic ParserTotal ParserProps Link LinkProps LinkNames Paths Manifest ManifestProps Package PackageProps Loader.
#[local] Open Scope string_scope.
#[local] Open Scope list_scope.
#[local] Open Scope Z_scope.

(** ** Runs of the loader *)

(** The files an error comes with begin at line 1 or later, so that lines can be mapped. *)
Definition mappable (files : list SourceFile) : Prop := Forall (λ f, 1 <= sf_start_line f) files.

Definition lines_good (l : Loader) : Prop := lines_ok (ld_lines l).

Lemma lines_mappable l : lines_good l → mappable (sources (ld_lines l)).
Proof. intros [_ H]. eapply Forall_impl; [exact H|]. by intros f []. Qed.

(** [loads m l Q]: from [l], [m] does not panic, its errors can be mapped, and its result and
    the state it leaves satisfy [Q]. *)
Definition loads {A} (m : LD A) (l : Loader) (Q : A → Loader → Prop) : Prop :=
  match m l with Ok (a, l') => Q a l' | Err e => mappable e.2 | Panic => False end.

Lemma loads_bind {A B} (m : LD A) (f : A → LD B) l Q R :
  loads m l Q → (∀ a l', Q a l' → loads (f a) l' R) → loads (m ≫= f) l R.
Proof.
  unfold loads, mbind, SM_bind. destruct (m l) as [ [a l'] | | ]; simpl; [|done..].
  intros HQ Hf. by apply Hf.
Qed.

Lemma loads_mono {A} (m : LD A) l (Q R : A → Loader → Prop) :
  loads m l Q → (∀ a l', Q a l' → R a l') → loads m l R.
Proof. unfold loads. destruct (m l) as [ [] | | ]; auto. Qed.

Lemma loads_attempt {A} (m : outcome Diagnostic A) l (Q : A → Prop) :
  lines_good l → safe m Q → loads (attempt m) l (λ a l', m = Ok a ∧ Q a ∧ l' = l).
Proof.
  intros Hl%lines_mappable Hm. unfold loads, attempt, lift. by destruct m.
Qed.

Lemma loads_gets {A} (f : Loader → A) l : loads (gets f) l (λ a l', a = f l ∧ l' = l).
Proof. done. Qed.
Lemma loads_modify (f : Loader → Loader) l : loads (modify f) l (λ _ l', l' = f l).
Proof. done. Qed.
Lemma loads_fail {A} d l (Q : A → Loader → Prop) : lines_good l → loads (fail d) l Q.
Proof. by intros Hl%lines_mappable. Qed.

Lemma loads_iterS {A} (f : A → LD unit) (I : list A → Loader → Prop) xs l :
  (∀ done x rest l, xs = done ++ x :: rest → I done l →
     loads (f x) l (λ _ l', I (done ++ [x]) l')) →
  I [] l → loads (iterS f xs) l (λ _ l', I xs l').
Proof.
  intros Hstep. cut (∀ rest done l, xs = done ++ rest → I done l →
    loads (iterS f rest) l (λ _ l', I xs l')); [intros H; by apply (H xs [])|].
  induction rest as [|x rest IH]; intros done l' ->; simpl.
  { unfold loads. simpl. by rewrite app_nil_r. }
  intros HI. eapply loads_bind; [by apply (Hstep done x rest)|]. intros [] l'' HI'.
  apply (IH (done ++ [x])); [by rewrite <- app_assoc|done].
Qed.

(** ** Results of pure steps *)

Lemma collect_all_safe {A B} (f : A → outcome Diagnostic B) (Q : A → B → Prop) xs :
  (∀ a, a ∈ xs → safe (f a) (Q a)) → safe (collect_all f xs) (λ ys, Forall2 Q xs ys).
Proof.
  induction xs as [|a xs IH]; simpl; intros H; [constructor|].
  eapply safe_bind; [apply H; left|]. intros b _ Hb.
  eapply safe_bind; [apply IH; intros; apply H; by right|]. intros bs _ Hbs. by constructor.
Qed.

Section parsing.
Context `{Unicode, TokenText}.

Lemma module_tokens_safe src start_line :
  safe (tokenize (with_start_line src start_line)) (λ '(ts, _), token_kind <$> last ts = Some Eof).
Proof.
  pose proof (tokenize_safe src start_line) as Hs. unfold lsafe in Hs.
  destruct (tokenize (with_start_line src start_line)) as [ [ts l] | | ]; simpl in *; [|done..].
  destruct Hs as (_ & ts' & -> & _). by rewrite last_snoc.
Qed.
End parsing.

(** ** The state of the loader *)

Definition root_key : string := "<root>".

Record loading (l : Loader) : Prop := {
  loading_lines : lines_good l;
  loading_sorted : bt_sorted (ld_units l);
  loading_once : NoDup (ld_order l);
  loading_stack : NoDup (ld_stack l);
  loading_order : imports_first (ld_units l) (ld_order l);
  loading_complete : ∀ key, ld_visits l !! key = Some Complete ↔ key ∈ ld_order l;
  loading_visiting : ∀ key, ld_visits l !! key = Some Visiting ↔ key ∈ ld_stack l;
  loading_units : ∀ key u, bt_get key (ld_units l) = Some u →
    is_Some (ld_visits l !! key) ∧ (unit_root u = true → key = root_key) }.

(** What loading a module leaves alone. *)
Record grows (l l' : Loader) : Prop := {
  grows_stack : ld_stack l' = ld_stack l;
  grows_order : ∃ more, ld_order l' = ld_order l ++ more;
  grows_visits : ∀ key v, ld_visits l !! key = Some v → ld_visits l' !! key = Some v;
  grows_units : ∀ key u, bt_get key (ld_units l) = Some u → bt_get key (ld_units l') = Some u;
  grows_files : ld_files l ⊆ ld_files l';
  grows_sources : ∀ f, f ∈ sources (ld_lines l) → f ∈ sources (ld_lines l') }.

Lemma grows_refl l : grows l l.
Proof. split; try done. exists []. by rewrite app_nil_r. Qed.
Lemma grows_trans l1 l2 l3 : grows l1 l2 → grows l2 l3 → grows l1 l3.
Proof.
  intros [S1 [m1 O1] V1 U1 F1 L1] [S2 [m2 O2] V2 U2 F2 L2]. split; [congruence| |auto..|by etrans|auto].
  exists (m1 ++ m2). by rewrite O2, O1, app_assoc.
Qed.

Lemma initial_loading : loading initial_loader.
Proof.
  split; simpl.
  - by split; [|constructor].
  - constructor.
  - constructor.
  - constructor.
  - by intros [|? ?] key r.
  - intros key. rewrite lookup_empty. by split; [|intros ?%not_elem_of_nil].
  - intros key. rewrite lookup_empty. by split; [|intros ?%not_elem_of_nil].
  - done.
Qed.

(** Bookkeeping that [loading] does not look at. *)
Definition same_modules (l l' : Loader) : Prop :=
  ld_units l' = ld_units l ∧ ld_visits l' = ld_visits l ∧ ld_stack l' = ld_stack l
  ∧ ld_order l' = ld_order l.

Lemma same_loading l l' : loading l → same_modules l l' → lines_good l' → loading l'.
Proof.
  intros [] (Hu & Hv & Hs & Ho) Hl. split; [done|..]; by rewrite ?Hu, ?Hv, ?Hs, ?Ho.
Qed.

Lemma same_modules_trans l1 l2 l3 : same_modules l1 l2 → same_modules l2 l3 → same_modules l1 l3.
Proof. unfold same_modules. intuition congruence. Qed.
Lemma same_grows l l' : same_modules l l' → ld_files l' = ld_files l →
  (∀ f, f ∈ sources (ld_lines l) → f ∈ sources (ld_lines l')) → grows l l'.
Proof.
  intros (Hu & Hv & Hs & Ho) Hf Hl. split; rewrite ?Hu, ?Hv, ?Hs, ?Hf; try done.
  exists []. by rewrite Ho, app_nil_r.
Qed.

(** A module is entered, with its unit. *)
Definition entered (canonical : Path) (key : string) (u : ModuleUnit) (l : Loader) : Loader :=
  insert_unit key u (enter_module canonical key l).

Lemma fresh_unit l key : loading l → ld_visits l !! key = None → bt_get key (ld_units l) = None.
Proof.
  intros Hl Hnew. destruct (bt_get key (ld_units l)) as [u|] eqn:Hu; [|done].
  destruct (loading_units l Hl key u Hu) as [ [v Hv] _]. congruence.
Qed.

Lemma imports_first_mono units units' order :
  imports_first units order → (∀ key u, bt_get key units = Some u → bt_get key units' = Some u) →
  imports_first units' order.
Proof. intros H Hsub l key r Heq. destruct (H l key r Heq) as (u & Hu & Ht). eauto. Qed.

Lemma entered_loading canonical key u l :
  loading l → ld_visits l !! key = None → (unit_root u = true → key = root_key) →
  loading (entered canonical key u l).
Proof.
  intros Hl Hnew Hroot. pose proof (fresh_unit l key Hl Hnew) as Hfresh.
  destruct Hl as [Hlines Hs Ho Hnd Hfirst Hc Hv Hu]. split; simpl; try done.
  - by apply bt_insert_sorted.
  - apply NoDup_app. split_and!; [done| |apply NoDup_singleton].
    intros x Hx%Hv Hx'%list_elem_of_singleton. congruence.
  - eapply imports_first_mono; [done|]. intros key' u' Hu'. rewrite bt_get_insert.
    destruct (String.eqb_spec key' key); congruence.
  - intros key'. destruct (decide (key' = key)) as [->|].
    + rewrite lookup_insert_eq, <- Hc, Hnew. done.
    + by rewrite lookup_insert_ne.
  - intros key'. rewrite elem_of_app, list_elem_of_singleton. destruct (decide (key' = key)) as [->|].
    + rewrite lookup_insert_eq. naive_solver.
    + rewrite lookup_insert_ne by done. rewrite Hv. naive_solver.
  - intros key' u'. rewrite bt_get_insert. destruct (String.eqb_spec key' key) as [->|].
    + intros [= <-]. rewrite lookup_insert_eq. eauto.
    + rewrite lookup_insert_ne by done. apply Hu.
Qed.

(** A module is left after the modules it imports. *)
Lemma left_loading key u l :
  loading l → last (ld_stack l) = Some key →
  bt_get key (ld_units l) = Some u →
  Forall (λ t, t ∈ ld_order l) (unit_import_targets u) → loading (leave_module key l).
Proof.
  intros [Hlines Hs Ho Hnd Hfirst Hc Hv Hu] Hlast Hget Ht.
  apply last_Some in Hlast as [stack Hstack].
  assert (ld_visits l !! key = Some Visiting) as Hvk.
  { apply Hv. rewrite Hstack. apply elem_of_app. right. left. }
  assert (key ∉ ld_order l) as Hnew by (rewrite <- Hc; congruence).
  split; simpl; try done.
  - apply NoDup_app. split_and!; [done| |apply NoDup_singleton].
    intros x Hx Hx'%list_elem_of_singleton. congruence.
  - rewrite Hstack in Hnd |- *. rewrite removelast_last. by apply NoDup_app in Hnd as [? _].
  - intros a k b Heq. destruct b as [|x b] using rev_ind.
    + apply app_inj_tail in Heq as [<- <-]. eauto.
    + clear IHb. change (k :: b ++ [x]) with ((k :: b) ++ [x]) in Heq. rewrite app_assoc in Heq.
      apply app_inj_tail in Heq as [Heq _]. by apply (Hfirst a k b).
  - intros key'. rewrite elem_of_app, list_elem_of_singleton.
    destruct (decide (key' = key)) as [->|].
    + rewrite lookup_insert_eq. naive_solver.
    + rewrite lookup_insert_ne by done. rewrite Hc. naive_solver.
  - intros key'. rewrite Hstack in Hnd |- *. rewrite removelast_last.
    apply NoDup_app in Hnd as (_ & Hnd & _). destruct (decide (key' = key)) as [->|].
    + rewrite lookup_insert_eq. split; [done|]. intros Hin. exfalso. apply (Hnd key Hin). left.
    + rewrite lookup_insert_ne by done. rewrite Hv, Hstack, elem_of_app, list_elem_of_singleton.
      naive_solver.
  - intros key' u' Hu'. destruct (Hu key' u' Hu') as [ [v Hv'] Hr]. split; [|done].
    destruct (decide (key' = key)) as [->|]; [rewrite lookup_insert_eq; eauto|].
    rewrite lookup_insert_ne by done. eauto.
Qed.

(** ** Loading a module *)

Section loader.
Context `{Unicode, TokenText, Files} (root : Path) (graph : option PackageGraph).

(** The package graph comes from [Package]. *)
Definition usable_graph : Prop :=
  match graph with
  | Some g => closed_graph (packages g) ∧ is_Some (bt_get (root_id g) (packages g))
  | None => True
  end.

Definition package_ok (package_id : option string) : Prop :=
  match graph with
  | Some g => ∃ id, package_id = Some id ∧ is_Some (bt_get id (packages g))
  | None => True
  end.

(** ** Where modules come from *)

(** The file of a module of a package: its entry, or a path below its sources. *)
Definition module_home (p : ResolvedPackage) (local : list string) : Path :=
  match local with
  | [] => join (rp_root p) (manifest_entry (rp_manifest p))
  | _ => module_file (rp_source_root p) local
  end.

(** What an import in a module of [pid] leads to: the package, the path in it and the
    file.  The alias of a dependency comes before the modules of the package itself, and
    must not be the name of one of them. *)
Inductive leads (pid : option string) : list string → option string * list string * Path → Prop :=
| leads_alone path : graph = None → leads pid path (None, path, module_file root path)
| leads_dependency g p alias rest id target :
    graph = Some g → bt_get (default (root_id g) pid) (packages g) = Some p →
    bt_get alias (rp_dependencies p) = Some id →
    path_exists (module_file (rp_source_root p) (alias :: rest)) = false →
    bt_get id (packages g) = Some target →
    leads pid (alias :: rest) (Some id, rest, module_home target rest)
| leads_local g p path :
    graph = Some g → bt_get (default (root_id g) pid) (packages g) = Some p →
    (∀ alias, head path = Some alias → bt_get alias (rp_dependencies p) = None) →
    leads pid path (Some (default (root_id g) pid), path, module_home p path).

(** [u] is the module [local] of the package. *)
Definition unit_of (u : ModuleUnit) (pid : option string) (local : list string) : Prop :=
  identity_path graph pid local (unit_root u) = Ok (unit_path u).

(** The entry, or what an import of a module that was loaded leads to. *)
Definition asked_for (entry : Path) (units : btree ModuleUnit) (is_root : bool)
    (pid : option string) (local : list string) (file : Path) : Prop :=
  is_root = true ∧ pid = root_id <$> graph ∧ local = [] ∧ file = entry
  ∨ is_root = false ∧ ∃ key0 u0 pid0 local0 import,
      bt_get key0 units = Some u0 ∧ unit_of u0 pid0 local0
      ∧ import ∈ program_imports (unit_program u0)
      ∧ leads pid0 (map node (import_path import)) (pid, local, file).

Definition expected_name (local : list string) (canonical : Path) : list string :=
  match local with [] => [default "main" (file_stem canonical ≫= to_str)] | _ => local end.

(** A module of the project: its file was asked for, is inside the sources of its package
    and belongs to no other module; the program is the text of that file, lexed at the lines
    the source map gives to the file, and parsed; the module has the name it declares; and
    its imports lead to its targets. *)
Definition unit_read (entry : Path) (units : btree ModuleUnit) (files : gmap Path string)
    (sources : list SourceFile) (key : string) (u : ModuleUnit) : Prop :=
  ∃ pid local file base canonical source shown start tokens lexer,
    key = module_key (unit_path u) ∧ unit_of u pid local
    ∧ asked_for entry units (unit_root u) pid local file
    ∧ source_root root graph pid = Ok base ∧ canonicalize file = inr canonical
    ∧ starts_with canonical base = true ∧ files !! canonical = Some key
    ∧ read_to_string canonical = inr source
    ∧ mkSourceFile shown (display_path canonical) start (start + line_count source) ∈ sources
    ∧ tokenize (with_start_line source start) = Ok (tokens, lexer)
    ∧ parse tokens = Ok (unit_program u)
    ∧ (∀ declared, program_module (unit_program u) = Some declared →
         map node (module_path declared) = expected_name local canonical)
    ∧ Forall2 (λ import target, ∃ pid' local' file',
          leads pid (map node (import_path import)) (pid', local', file')
          ∧ target_key graph (pid', local', file', false) = Ok target)
        (program_imports (unit_program u)) (unit_import_targets u).

Definition reads (entry : Path) (l : Loader) : Prop := ∀ key u,
  bt_get key (ld_units l) = Some u →
  unit_read entry (ld_units l) (ld_files l) (sources (ld_lines l)) key u.

Lemma asked_for_mono entry units units' r pid local file :
  (∀ key u, bt_get key units = Some u → bt_get key units' = Some u) →
  asked_for entry units r pid local file → asked_for entry units' r pid local file.
Proof.
  intros Hsub [Hroot|(Hr & key0 & u0 & pid0 & local0 & import & Hu0 & H')]; [by left|right].
  split; [done|]. exists key0, u0, pid0, local0, import. auto.
Qed.

Lemma unit_read_grows entry l l' key u :
  grows l l' → unit_read entry (ld_units l) (ld_files l) (sources (ld_lines l)) key u →
  unit_read entry (ld_units l') (ld_files l') (sources (ld_lines l')) key u.
Proof.
  intros Hg (pid & local & file & base & canonical & source & shown & start & tokens & lexer
    & Hkey & Hof & Hasked & Hbase & Hcan & Hin & Hfile & Hread & Hshown & Hrest).
  exists pid, local, file, base, canonical, source, shown, start, tokens, lexer.
  split_and!; try done.
  - eapply asked_for_mono; [apply Hg|done].
  - eapply lookup_weaken; [done|apply Hg].
  - by apply Hg.
  - apply Hrest.
  - apply Hrest.
  - apply Hrest.
  - apply Hrest.
Qed.

Lemma reads_same entry l l' : reads entry l → grows l l' → ld_units l' = ld_units l → reads entry l'.
Proof. intros Hr Hg Hu key u. rewrite Hu. intros Hk. rewrite <- Hu. by eapply unit_read_grows, Hr. Qed.

Context (Hgraph : usable_graph).

Lemma identity_path_safe pid path r :
  package_ok pid → safe (identity_path graph pid path r) (λ _, True).
Proof.
  unfold package_ok, identity_path. destruct graph as [g|]; [|done].
  intros (id & -> & _). by case_match.
Qed.

Lemma source_root_safe pid : package_ok pid → safe (source_root root graph pid) (λ _, True).
Proof.
  unfold package_ok, source_root, package. destruct graph as [g|]; [|done].
  intros (id & -> & p & Hp). by rewrite Hp.
Qed.

Lemma diagnostic_path_safe pid canonical :
  package_ok pid → safe (diagnostic_path root graph pid canonical) (λ _, True).
Proof.
  intros Hpid. eapply safe_bind; [by apply source_root_safe|]. intros base _ _.
  unfold package_ok, package in *. destruct graph as [g|]; [|done].
  destruct Hpid as (id & -> & p & Hp). case_match; [done|]. simpl. by rewrite Hp.
Qed.

Lemma resolve_import_safe pid path s :
  package_ok pid →
  safe (resolve_import root graph pid path s) (λ '(pid', local', file', r),
    package_ok pid' ∧ r = false ∧ leads pid path (pid', local', file')).
Proof.
  unfold package_ok, usable_graph, resolve_import, package in *.
  destruct graph as [g|] eqn:Hg; [|simpl; eauto using leads]. destruct Hgraph as [Hclosed _].
  intros (id & -> & p & Hp). simpl. rewrite Hp. simpl.
  eapply (safe_bind _ _ (λ '(target, local), ∃ t, bt_get target (packages g) = Some t
    ∧ leads (Some id) path (Some target, local, module_home t local))).
  - destruct path as [|alias rest]; [exists p; split; [done|by eapply (leads_local (Some id))]|].
    destruct (bt_get alias (rp_dependencies p)) as [target|] eqn:Ht.
    + case_match eqn:Hex; [done|]. simpl.
      destruct (Hclosed id p alias target) as [t Htarget]; [exact Hp|by eapply bt_get_In|].
      exists t. split; [done|]. by eapply leads_dependency.
    + exists p. split; [done|]. eapply (leads_local (Some id)); [done|done|].
      by intros ? [= <-].
  - intros [target local] _ (t & Ht & Hl). simpl. rewrite Ht. simpl. eauto.
Qed.

Lemma read_module_loads pid local file s key l :
  package_ok pid → loading l →
  loads (read_module root graph pid local file s key) l
    (λ '(canonical, source) l', same_modules l l' ∧ lines_good l' ∧ ld_lines l' = ld_lines l
       ∧ ld_files l' = ld_files l ∧ (∀ k, ld_files l !! canonical = Some k → k = key)
       ∧ canonicalize file = inr canonical ∧ read_to_string canonical = inr source
       ∧ ∃ base, source_root root graph pid = Ok base ∧ starts_with canonical base = true).
Proof.
  intros Hpid Hl. pose proof (loading_lines l Hl) as Hlines. unfold read_module.
  eapply loads_bind; [by apply loads_attempt, source_root_safe|]. intros base ? (Hbase & _ & ->).
  eapply loads_bind; [by apply loads_attempt, safe_or_else|]. intros canonical ? (_ & Hcan & ->).
  eapply loads_bind; [by apply loads_attempt, safe_bail_if|].
  intros _ ? (_ & Hin%negb_false_iff & ->).
  eapply loads_bind; [apply loads_gets|]. intros files ? [-> ->].
  eapply (loads_bind _ _ _ (λ _ l', l' = l ∧ ∀ k, ld_files l !! canonical = Some k → k = key)).
  { destruct (ld_files l !! canonical) as [previous|]; [|done].
    eapply loads_mono; [by apply loads_attempt, safe_bail_if|].
    intros _ l' (_ & Hk%negb_false_iff%String.eqb_eq & ->). split; [done|]. by intros k [= <-]. }
  intros _ ? [-> Hkey].
  eapply loads_bind; [by apply loads_attempt, safe_or_else|]. intros m ? (_ & _ & ->).
  eapply loads_bind; [by apply loads_attempt, safe_bail_if|]. intros _ ? (_ & _ & ->).
  eapply loads_bind; [apply loads_gets|]. intros total ? [-> ->].
  eapply loads_bind; [by apply loads_attempt, safe_ok_or|]. intros total ? (_ & _ & ->).
  eapply loads_bind; [apply loads_modify|]. intros _ ? ->.
  assert (lines_good (set_total_bytes total l)) as Hlines' by done.
  eapply loads_bind; [by apply loads_attempt, safe_bail_if|]. intros _ ? (_ & _ & ->).
  eapply loads_bind; [by apply loads_attempt, safe_or_else|]. intros source ? (_ & Hsource & ->).
  unfold loads. simpl. split_and!; try done. by exists base.
Qed.

Lemma parse_module_loads pid canonical source l :
  package_ok pid → loading l →
  loads (parse_module root graph pid canonical source) l
    (λ p l', same_modules l l' ∧ lines_good l' ∧ ld_files l' = ld_files l
       ∧ ∃ shown start tokens lexer,
           sources (ld_lines l') = sources (ld_lines l)
             ++ [mkSourceFile shown (display_path canonical) start (start + line_count source)]
           ∧ tokenize (with_start_line source start) = Ok (tokens, lexer) ∧ parse tokens = Ok p).
Proof.
  intros Hpid Hl. pose proof (loading_lines l Hl) as Hlines. unfold parse_module.
  eapply loads_bind; [by apply loads_attempt, diagnostic_path_safe|]. intros shown ? (_ & _ & ->).
  eapply loads_bind; [apply loads_gets|]. intros lines ? [-> ->].
  pose proof (register_ok (ld_lines l) (display_path shown) (display_path canonical) source Hlines)
    as Hok. unfold register in *. set (start_line := next_line (ld_lines l)) in *.
  set (lines := mkLines _ _) in *. simpl in Hok.
  eapply loads_bind; [apply loads_modify|]. intros _ ? ->.
  assert (lines_good (set_lines lines l)) as Hlines' by done.
  eapply loads_bind; [apply loads_attempt; [done|apply module_tokens_safe]|].
  intros [tokens lexer] ? (Htokens & Hlast & ->).
  eapply loads_mono; [apply loads_attempt; [done|]|].
  - apply (safe_mono _ _ _ (parse_safe tokens Hlast)). intros p _. exact I.
  - intros p l' (Hp & _ & ->). split_and!; try done.
    by exists (display_path shown), start_line, tokens, lexer.
Qed.

Lemma root_identity pid path : identity_path graph pid [] true = Ok path → path = [].
Proof. unfold identity_path. destruct graph; simpl; by intros [= <-]. Qed.

Definition module_depth (levels : nat) (l : Loader) : Prop :=
  zlen (ld_stack l) <= MAX_MODULE_DEPTH < Z.of_nat levels + zlen (ld_stack l).

(** The module a target stands for has been loaded. *)
Definition loaded (l : Loader) (t : Target) : Prop :=
  ∃ key, target_key graph t = Ok key ∧ key ∈ ld_order l.

Lemma loaded_grows l l' t : grows l l' → loaded l t → loaded l' t.
Proof.
  intros [_ [more Ho] _ _] (key & Hk & Hin). exists key. split; [done|]. rewrite Ho.
  apply elem_of_app. by left.
Qed.

(** A target of an import. *)
Definition import_ok (pid : option string) (import : ImportDeclaration) (t : Target) : Prop :=
  let '(pid', local', file', r) := t in
  package_ok pid' ∧ r = false ∧ leads pid (map node (import_path import)) (pid', local', file').

Context (entry : Path).

(** What is known of the modules imported so far. *)
Definition importing (l1 : Loader) (done_ : list (ImportDeclaration * Target)) (l : Loader)
    : Prop :=
  loading l ∧ reads entry l ∧ grows l1 l ∧ Forall (λ e, loaded l e.2) done_.

(** The module is left when all its imports are loaded. *)
Lemma leave_loaded canonical key u l0 l imports targets :
  loading l0 → ld_visits l0 !! key = None →
  (∀ k, ld_files l0 !! canonical = Some k → k = key) →
  length imports = length targets →
  Forall2 (λ t k, target_key graph t = Ok k) targets (unit_import_targets u) →
  importing (entered canonical key u l0) (zip imports targets) l →
  loading (leave_module key l) ∧ reads entry (leave_module key l) ∧ grows l0 (leave_module key l)
  ∧ key ∈ ld_order (leave_module key l).
Proof.
  intros Hl0 Hnew Hfile Hlen Hkeys (Hl & Hreads & Hg & Hdone).
  assert (bt_get key (ld_units l) = Some u) as Hu.
  { apply Hg. simpl. by rewrite bt_get_insert, String.eqb_refl. }
  split_and!.
  - eapply left_loading; [done| |exact Hu|].
    + rewrite (grows_stack _ _ Hg). simpl. apply last_snoc.
    + apply Forall_forall. intros t Ht. apply list_elem_of_lookup in Ht as [i Hi].
      destruct (Forall2_lookup_r _ _ _ _ _ Hkeys Hi) as (target & Htarget & Hk).
      assert (target ∈ (zip imports targets).*2) as Hin.
      { rewrite snd_zip by lia. by eapply list_elem_of_lookup_2. }
      apply list_elem_of_fmap in Hin as ([imp target'] & Heq & Hin). simpl in Heq. subst target'.
      rewrite Forall_forall in Hdone. destruct (Hdone _ Hin) as (k & Hk' & Horder).
      simpl in Hk'. congruence.
  - exact Hreads.
  - destruct Hg as [Hs [more Ho] Hv Hunits Hfiles Hsources]. simpl in *. split; simpl.
    + rewrite Hs. apply removelast_last.
    + exists (more ++ [key]). by rewrite Ho, app_assoc.
    + intros k v Hk. assert (k ≠ key) by congruence. rewrite lookup_insert_ne by done.
      apply Hv. by rewrite lookup_insert_ne.
    + intros k u' Hk. apply Hunits. rewrite bt_get_insert.
      destruct (String.eqb_spec k key) as [->|]; [|done].
      rewrite (fresh_unit l0 key Hl0 Hnew) in Hk. done.
    + etrans; [|exact Hfiles]. apply map_subseteq_spec. intros c k Hk.
      destruct (decide (c = canonical)) as [->|]; [|by rewrite lookup_insert_ne].
      by rewrite lookup_insert_eq, (Hfile _ Hk).
    + done.
  - simpl. apply elem_of_app. right. left.
Qed.

(** Entering a module that has been read. *)
Lemma entered_reads canonical key u l :
  loading l → reads entry l → ld_visits l !! key = None →
  (∀ k, ld_files l !! canonical = Some k → k = key) →
  unit_read entry (ld_units l) (<[canonical := key]> (ld_files l)) (sources (ld_lines l)) key u →
  reads entry (entered canonical key u l).
Proof.
  intros Hl Hreads Hnew Hfile Hu.
  assert (∀ k v, bt_get k (ld_units l) = Some v →
    bt_get k (bt_insert key u (ld_units l)) = Some v) as Hsub.
  { intros k v Hk. rewrite bt_get_insert. destruct (String.eqb_spec k key) as [->|]; [|done].
    by rewrite (fresh_unit l key Hl Hnew) in Hk. }
  assert (ld_files l ⊆ <[canonical := key]> (ld_files l)) as Hfiles.
  { apply map_subseteq_spec. intros c k Hk. destruct (decide (c = canonical)) as [->|].
    - by rewrite lookup_insert_eq, (Hfile _ Hk).
    - by rewrite lookup_insert_ne. }
  set (l' := mkLoader (bt_insert key u (ld_units l)) (ld_visits l) (ld_stack l) (ld_order l)
    (<[canonical := key]> (ld_files l)) (ld_lines l) (ld_total_bytes l)).
  intros k v Hk. change (unit_read entry (ld_units l') (ld_files l') (sources (ld_lines l')) k v).
  simpl in Hk. rewrite bt_get_insert in Hk. destruct (String.eqb_spec k key) as [->|].
  - injection Hk as <-. apply (unit_read_grows entry (mkLoader (ld_units l) (ld_visits l)
      (ld_stack l) (ld_order l) (<[canonical := key]> (ld_files l)) (ld_lines l) (ld_total_bytes l)));
      [|done]. split; try done. exists []. by rewrite app_nil_r.
  - apply (unit_read_grows entry l); [|auto]. split; try done. exists []. by rewrite app_nil_r.
Qed.

(** The state when the imports of a module are about to be loaded. *)
Lemma module_entered canonical path pid local file is_root keys program l l2 :
  loading l → same_modules l l2 → loading l2 →
  identity_path graph pid local is_root = Ok path → (is_root = true → local = []) →
  ld_visits l !! module_key path = None →
  ld_visits l2 !! module_key path = None
  ∧ loading (entered canonical (module_key path) (mkUnit path keys program is_root) l2)
  ∧ target_key graph (pid, local, file, is_root) = Ok (module_key path).
Proof.
  intros Hl (_ & Hv & _) Hl2 Hpath Hroot Hnew. rewrite Hv. split_and!; [done| |].
  - apply entered_loading; [done|by rewrite Hv|]. simpl. intros ->.
    rewrite (Hroot eq_refl) in Hpath. by apply root_identity in Hpath as ->.
  - simpl. by rewrite Hpath.
Qed.

Lemma import_targets_safe pid program :
  package_ok pid →
  safe (collect_all (import_target root graph pid) (program_imports program))
    (Forall2 (import_ok pid) (program_imports program)).
Proof using Hgraph.
  intros Hpid. apply collect_all_safe. intros import _. by apply resolve_import_safe.
Qed.

Lemma target_keys_safe pid imports targets :
  Forall2 (import_ok pid) imports targets →
  safe (collect_all (target_key graph) targets)
    (Forall2 (λ t k, target_key graph t = Ok k) targets).
Proof.
  intros Htargets. apply collect_all_safe. intros t Ht. apply list_elem_of_lookup in Ht as [i Hi].
  destruct (Forall2_lookup_r _ _ _ _ _ Htargets Hi) as (import & _ & Hok).
  destruct t as [ [ [pid' local'] file'] r']. destruct Hok as (Hpid' & -> & _).
  simpl. pose proof (identity_path_safe pid' local' false Hpid') as Hsafe.
  by destruct (identity_path graph pid' local' false).
Qed.

(** The imports lead to the targets. *)
Lemma imports_lead pid imports targets keys :
  Forall2 (import_ok pid) imports targets →
  Forall2 (λ t k, target_key graph t = Ok k) targets keys →
  Forall2 (λ import target, ∃ pid' local' file',
      leads pid (map node (import_path import)) (pid', local', file')
      ∧ target_key graph (pid', local', file', false) = Ok target) imports keys.
Proof.
  intros HF. revert keys. induction HF as [|import [ [ [pid' local'] file'] r'] imports targets
    (_ & -> & Hl) _ IH]; intros keys Hk; inversion Hk; subst; constructor; [eauto 6|auto].
Qed.

(** Loading the imports of a module, given that loading a module works one level down. *)
Lemma imports_load levels l1 key u pid local imports targets :
  (∀ pid local file s l, package_ok pid → loading l → reads entry l → module_depth levels l →
     asked_for entry (ld_units l) false pid local file →
     loads (load_unit root graph levels pid local file s false) l (λ _ l',
       loading l' ∧ reads entry l' ∧ grows l l' ∧ loaded l' (pid, local, file, false))) →
  Forall2 (import_ok pid) imports targets →
  loading l1 → reads entry l1 → module_depth levels l1 →
  bt_get key (ld_units l1) = Some u → unit_of u pid local →
  program_imports (unit_program u) = imports →
  loads (iterS (λ '(import, (target_package, target_path, module_file, target_root)),
           load_unit root graph levels target_package target_path module_file
             (Ast.import_span import) target_root) (zip imports targets)) l1
    (λ _, importing l1 (zip imports targets)).
Proof.
  intros IH Htargets Hl1 Hr1 Hd Hu Hof Himports. apply (loads_iterS _ (importing l1)).
  - intros done_ [import t] rest l5 Heq (Hl5 & Hr5 & Hg5 & Hdone).
    assert ((import, t) ∈ zip imports targets) as Hin
      by (rewrite Heq; apply elem_of_app; right; left).
    assert (import ∈ imports ∧ import_ok pid import t) as [Himport Hok].
    { apply list_elem_of_lookup in Hin as [i Hi].
      apply lookup_zip_with_Some in Hi as (import' & t' & [= <- <-] & Hi & Ht).
      split; [by eapply list_elem_of_lookup_2|].
      destruct (Forall2_lookup_l _ _ _ _ _ Htargets Hi) as (t' & Ht' & Hok).
      rewrite Ht in Ht'. by injection Ht' as <-. }
    destruct t as [ [ [pid' local'] file'] r']. destruct Hok as (Hpid' & -> & Hleads).
    eapply loads_mono; [apply IH; [done|done|done|..]|].
    + unfold module_depth in *. by rewrite (grows_stack _ _ Hg5).
    + right. split; [done|]. exists key, u, pid, local, import. split_and!; [by apply Hg5|done|by rewrite Himports|done].
    + intros _ l6 (Hl6 & Hr6 & Hg6 & Hin6). split_and!; [done|done|by eapply grows_trans|].
      apply Forall_app. split; [|by repeat constructor].
      eapply Forall_impl; [exact Hdone|]. intros e. by apply loaded_grows.
  - split_and!; [done|done|apply grows_refl|constructor].
Qed.

Lemma check_declaration_safe local canonical p :
  safe (check_declaration local canonical p) (λ _, ∀ declared, program_module p = Some declared →
    map node (module_path declared) = expected_name local canonical).
Proof.
  unfold check_declaration, expected_name. destruct (program_module p) as [declared|]; [|done].
  eapply safe_mono; [apply safe_bail_if|]. intros _ Heq%negb_false_iff%bool_decide_eq_true ? [= <-].
  rewrite Heq. destruct local; [|done]. by destruct (file_stem canonical).
Qed.

(** A module that was not loaded before is the last one loaded. *)
Definition loaded_last (l l' : Loader) (t : Target) : Prop :=
  ∃ key, target_key graph t = Ok key ∧ key ∈ ld_order l' ∧
    (ld_visits l !! key = None → last (ld_order l') = Some key).

(** Loading the imports of a module that was entered, and leaving it. *)
Lemma imports_then_leave levels canonical key u pid local l0 targets :
  (∀ pid local file s l, package_ok pid → loading l → reads entry l → module_depth levels l →
     asked_for entry (ld_units l) false pid local file →
     loads (load_unit root graph levels pid local file s false) l (λ _ l',
       loading l' ∧ reads entry l' ∧ grows l l' ∧ loaded l' (pid, local, file, false))) →
  loading l0 → ld_visits l0 !! key = None →
  (∀ k, ld_files l0 !! canonical = Some k → k = key) →
  Forall2 (import_ok pid) (program_imports (unit_program u)) targets →
  Forall2 (λ t k, target_key graph t = Ok k) targets (unit_import_targets u) →
  loading (entered canonical key u l0) → reads entry (entered canonical key u l0) →
  module_depth levels (entered canonical key u l0) → unit_of u pid local →
  loads (_ ← iterS (λ '(import, (target_package, target_path, module_file, target_root)),
                 load_unit root graph levels target_package target_path module_file
                   (Ast.import_span import) target_root)
               (zip (program_imports (unit_program u)) targets);
         modify (leave_module key)) (entered canonical key u l0)
    (λ _ l', loading l' ∧ reads entry l' ∧ grows l0 l' ∧ key ∈ ld_order l'
       ∧ last (ld_order l') = Some key).
Proof.
  intros IH Hl0 Hnew Hfile Ht Hkeys Hl1 Hr1 Hd Hof. eapply loads_bind.
  { eapply (imports_load levels _ key u pid local); try done.
    simpl. by rewrite bt_get_insert, String.eqb_refl. }
  intros [] l5 Himporting.
  destruct (leave_loaded canonical key u l0 l5 (program_imports (unit_program u)) targets)
    as (Hleft & Hread & Hgrown & Horder); [done|done|done|by eapply Forall2_length|done|done|].
  unfold loads. simpl. split_and!; [done..|]. simpl. apply last_snoc.
Qed.

Lemma load_unit_loads levels pid local file s is_root l :
  package_ok pid → (is_root = true → local = []) → loading l → reads entry l →
  module_depth levels l → asked_for entry (ld_units l) is_root pid local file →
  loads (load_unit root graph levels pid local file s is_root) l (λ _ l',
    loading l' ∧ reads entry l' ∧ grows l l' ∧ loaded_last l l' (pid, local, file, is_root)).
Proof using Hgraph.
  revert pid local file s is_root l.
  induction levels as [|levels IH]; intros pid local file s is_root l Hpid Hroot Hl Hr Hd Hasked.
  { unfold module_depth in Hd. lia. }
  pose proof (loading_lines l Hl) as Hlines. cbn [load_unit].
  eapply loads_bind; [by apply loads_attempt, identity_path_safe|]. intros path ? (Hpath & _ & ->).
  eapply loads_bind; [apply loads_gets|]. intros l0 ? [-> ->]. cbv beta delta [id].
  destruct (ld_visits l !! module_key path) as [ [|]|] eqn:Hvisit; [by apply loads_fail|..].
  { split_and!; [done|done|apply grows_refl|]. exists (module_key path). simpl. rewrite Hpath.
    split_and!; [done|by apply (loading_complete l Hl)|congruence]. }
  destruct (MAX_PROJECT_MODULES <=? _); [by apply loads_fail|].
  destruct (MAX_MODULE_DEPTH <=? zlen (ld_stack l)) eqn:Hdepth; [by apply loads_fail|]. reflect_bools.
  eapply loads_bind; [by apply read_module_loads|].
  intros [canonical source] l1 (Hs1 & Hl1 & Hlines1 & Hf1 & Hfile & Hcan & Hsource & base & Hbase & Hin).
  assert (loading l1) as Hload1 by by eapply same_loading.
  eapply loads_bind; [by apply parse_module_loads|].
  intros program l2 (Hs2 & Hl2 & Hf2 & shown & start & tokens & lexer & Hsources & Htokens & Hparse).
  assert (loading l2) as Hload2 by by eapply same_loading.
  pose proof (same_modules_trans _ _ _ Hs1 Hs2) as Hs.
  assert (grows l l2) as Hgl2.
  { apply same_grows; [done|congruence|]. intros f Hf. rewrite Hsources, Hlines1.
    apply elem_of_app. by left. }
  assert (reads entry l2) as Hr2 by (eapply reads_same; [exact Hr|done|apply Hs]).
  eapply loads_bind; [apply loads_attempt; [done|apply check_declaration_safe]|].
  intros _ ? (_ & Hdeclared & ->). eapply loads_bind; [apply loads_modify|]. intros _ ? ->.
  eapply loads_bind; [by apply loads_attempt, import_targets_safe|]. intros targets ? (_ & Ht & ->).
  eapply loads_bind; [by eapply loads_attempt, target_keys_safe|]. intros keys ? (_ & Hkeys & ->).
  eapply loads_bind; [apply loads_modify|]. intros _ ? ->.
  destruct (module_entered canonical path pid local file is_root keys program l l2)
    as (Hnew & Hentered & Hkey); try done.
  assert (∀ k, ld_files l2 !! canonical = Some k → k = module_key path) as Hfile2
    by (rewrite Hf2, Hf1; done).
  assert (reads entry (entered canonical (module_key path) (mkUnit path keys program is_root) l2))
    as Hre.
  { apply entered_reads; try done.
    exists pid, local, file, base, canonical, source, shown, start, tokens, lexer.
    split_and!; try done; [..|by eapply imports_lead].
    - by eapply asked_for_mono; [apply Hgl2|].
    - apply lookup_insert_eq.
    - rewrite Hsources. apply elem_of_app. right. left. }
  eapply loads_mono.
  { eapply (imports_then_leave levels canonical (module_key path)
      (mkUnit path keys program is_root) pid local l2 targets); try done.
    - intros pid' local' file' s' l' Hpid' Hl' Hr' Hd' Hask'. eapply loads_mono; [by apply IH|].
      intros _ l'' (H1' & H2' & H3' & key & Hk & Hin' & _). split_and!; [done..|by exists key].
    - unfold module_depth in *. simpl. destruct Hs as (_ & _ & -> & _).
      unfold zlen in *. rewrite length_app. simpl. lia. }
  intros _ l' (Hleft & Hread & Hgrown & Horder & Hlast).
  split_and!; [done|done|by eapply grows_trans|]. exists (module_key path). by split_and!.
Qed.
End loader.

(** ** Whole projects *)

Lemma loading_linkable l :
  loading l → ld_stack l = [] → last (ld_order l) = Some root_key →
  linkable (ld_units l) (ld_order l).
Proof.
  intros Hl Hstack Hlast. split; [apply Hl..|]. intros key u t ut Hu Ht Hut.
  destruct (unit_root ut) eqn:Hroot; [|done]. exfalso.
  destruct (loading_units l Hl t ut Hut) as [_ Hkey]. specialize (Hkey Hroot). subst t.
  destruct (loading_units l Hl key u Hu) as [ [v Hv] _].
  assert (key ∈ ld_order l) as (a & b & Heq)%list_elem_of_split.
  { apply (loading_complete l Hl). destruct v; [|done].
    apply (loading_visiting l Hl) in Hv. rewrite Hstack in Hv. by apply not_elem_of_nil in Hv. }
  destruct (loading_order l Hl a key b Heq) as (u' & Hu' & Htargets).
  rewrite Hu in Hu'. injection Hu' as <-. rewrite Forall_forall in Htargets.
  specialize (Htargets _ Ht). apply last_Some in Hlast as [o Ho].
  pose proof (loading_once l Hl) as Hnd. rewrite Ho in Hnd, Heq.
  destruct b as [|x b] using rev_ind.
  - apply app_inj_tail in Heq as [-> _]. apply NoDup_app in Hnd as (_ & Hnd & _).
    apply (Hnd _ Htargets). left.
  - clear IHb. change (key :: b ++ [x]) with ((key :: b) ++ [x]) in Heq. rewrite app_assoc in Heq.
    apply app_inj_tail in Heq as [-> _]. apply NoDup_app in Hnd as (_ & Hnd & _).
    apply (Hnd root_key); [|left]. apply elem_of_app. by left.
Qed.

(** The program is the linked units, with the files they came from. *)
Definition links_to (units : btree ModuleUnit) (order : list string) (files : list SourceFile)
    (p : Program) : Prop :=
  ∃ linked, link units order = Ok linked
    ∧ p = mkProgram files (program_module linked) (program_imports linked)
        (program_public_items linked) (program_structs linked) (program_enums linked)
        (program_traits linked) (program_implementations linked) (program_functions linked).

Section projects.
Context `{Unicode, TokenText, Files, Sha256}.

Lemma load_all_loads root graph entry :
  usable_graph graph →
  loads (load_all root graph entry) initial_loader (λ p l,
    linkable (ld_units l) (ld_order l) ∧ last (ld_order l) = Some root_key
    ∧ (∀ key, is_Some (bt_get key (ld_units l)) ↔ key ∈ ld_order l)
    ∧ reads root graph entry l ∧ links_to (ld_units l) (ld_order l) (sources (ld_lines l)) p).
Proof.
  intros Hgraph. unfold load_all. eapply loads_bind.
  { apply (load_unit_loads root graph Hgraph entry);
      [|done|apply initial_loading|done|by split; vm_compute|by left].
    unfold usable_graph, package_ok in *. destruct graph as [g|]; [|done]. simpl.
    destruct Hgraph. eauto. }
  intros _ l (Hl & Hr & Hg & key & Hkey & _ & Hlast).
  assert (key = root_key) as ->.
  { simpl in Hkey. destruct (identity_path graph _ [] true) as [path| |] eqn:Hpath; [|done..].
    apply root_identity in Hpath as ->. by injection Hkey as <-. }
  specialize (Hlast (lookup_empty _)). pose proof (grows_stack _ _ Hg) as Hstack.
  assert (linkable (ld_units l) (ld_order l)) as Hlink by by apply loading_linkable.
  eapply loads_bind; [apply loads_gets|]. intros l0 ? [-> ->]. cbv beta delta [id].
  eapply loads_bind.
  { apply loads_attempt; [apply Hl|]. eapply safe_mono; [apply link_safe; apply Hlink|].
    intros p _. exact I. }
  intros linked ? (Heq & _ & ->). unfold loads. simpl. split_and!; try done; [|by exists linked].
  intros key. split; [intros [u Hu]|by apply imports_first_get, Hl].
  destruct (loading_units l Hl key u Hu) as [ [v Hv] _]. apply (loading_complete l Hl).
  destruct v; [|done]. apply (loading_visiting l Hl) in Hv. rewrite Hstack in Hv.
  by apply not_elem_of_nil in Hv.
Qed.

Lemma project_graph_safe directories input :
  (∀ root, hash_package directories root ≠ Panic) →
  safe (project_graph directories input) (λ graph, match graph with
    | Some g => graph_of directories input g ∧ locked g
    | None => ∃ m, metadata input = inr m ∧ is_dir m = false
    end).
Proof.
  intros Hhash. unfold project_graph. eapply safe_bind; [apply safe_or_else|]. intros m _ Hm.
  case_match eqn:Hdir; [|by exists m]. eapply safe_bind; [by apply verify_safe|]. done.
Qed.

Lemma graph_usable directories input g : graph_of directories input g → usable_graph (Some g).
Proof.
  intros Hg. split; [apply well_founded_closed, Hg|].
  destruct (graph_project _ _ _ Hg) as (p & -> & _). eauto.
Qed.

Lemma remap_error_safe e : mappable e.2 → safe (remap_error e) (λ _, False).
Proof.
  unfold remap_error, remap. intros Hm. destruct (diag_file e.1); [done|].
  destruct (List.find _ _) as [f|] eqn:Hf; [|done].
  apply List.find_some in Hf as [Hin _]. unfold mappable in Hm. rewrite Forall_forall in Hm.
  specialize (Hm f ltac:(by apply list_elem_of_In)). unfold unsigned_sub.
  by apply Z.leb_le in Hm as ->.
Qed.

(** What a project is loaded from: a package whose lock file is up to date, or a single
    source file. *)
Definition project_source (directories : nat) (input root : Path) (graph : option PackageGraph)
    (project : Project) : Prop :=
  match graph with
  | Some g =>
    graph_of directories input g ∧ locked g ∧ ∃ p, bt_get (root_id g) (packages g) = Some p
      ∧ root = rp_source_root p ∧ project_package project = Some (rp_manifest p)
      ∧ canonicalize (join (rp_root p) (manifest_entry (rp_manifest p)))
        = inr (project_entry project)
  | None =>
    extension input = Some "disp" ∧ canonicalize input = inr (project_entry project)
      ∧ parent (project_entry project) = Some root ∧ project_package project = None
  end.

Record project_of (directories : nat) (input : Path) (project : Project) (root : Path)
    (graph : option PackageGraph) (units : btree ModuleUnit) (order : list string)
    (files : gmap Path string) : Prop := {
  project_is : project_source directories input root graph project;
  project_modules : ∀ key, is_Some (bt_get key units) ↔ key ∈ order;
  project_read : ∀ key u, bt_get key units = Some u →
    unit_read root graph (project_entry project) units files
      (map_files (project_sources project)) key u;
  project_order : linkable units order ∧ last order = Some root_key;
  project_links : links_to units order (map_files (project_sources project))
    (project_program project) }.

Lemma project_input_safe directories input graph :
  match graph with
  | Some g => graph_of directories input g ∧ locked g
  | None => ∃ m, metadata input = inr m ∧ is_dir m = false
  end →
  safe (project_input input graph) (λ '(entry, manifest), match graph with
    | Some g => ∃ p, bt_get (root_id g) (packages g) = Some p
        ∧ entry = join (rp_root p) (manifest_entry (rp_manifest p)) ∧ manifest = Some (rp_manifest p)
    | None => extension input = Some "disp" ∧ entry = input ∧ manifest = None
    end).
Proof.
  unfold project_input. destruct graph as [g|].
  - intros [Hg _]. destruct (graph_project _ _ _ Hg) as (p & Hp & _).
    unfold graph_root, package. rewrite Hp. simpl. eauto.
  - intros (m & Hm & Hdir). unfold resolve_input. rewrite Hm. simpl.
    destruct (is_file m); [|by rewrite Hdir].
    by case_bool_decide.
Qed.

Lemma loader_root_safe directories input graph entry :
  match graph with
  | Some g => graph_of directories input g ∧ locked g
  | None => ∃ m, metadata input = inr m ∧ is_dir m = false
  end →
  safe (loader_root entry graph) (λ root, match graph with
    | Some g => ∃ p, bt_get (root_id g) (packages g) = Some p ∧ root = rp_source_root p
    | None => parent entry = Some root
    end).
Proof.
  unfold loader_root. destruct graph as [g|]; [|intros _; apply safe_ok_or].
  intros [Hg _]. destruct (graph_project _ _ _ Hg) as (p & Hp & _).
  unfold graph_root, package. rewrite Hp. simpl. eauto.
Qed.

(** C37: Loading a project returns on every file system whose directories are finite: no
    index or [unwrap] of the loader, the linker, the lexer or the parser fails, and the
    lines of every error can be mapped back.  What it returns is the project at the input: a
    package whose lock file is up to date, or a source file.  Every module was loaded once,
    after the modules it imports and without a cycle, the entry last and imported by none;
    its program is the text of a file of its own, inside the sources of its package, to
    which the entry or an import leads; and the program is the link of these modules. *)
Theorem load_project_sound (directories : nat) (input : Path) :
  (∀ root, hash_package directories root ≠ Panic) →
  match load_project directories input with
  | Ok project => ∃ root graph units order files,
      project_of directories input project root graph units order files
  | Err _ => True
  | Panic => False
  end.
Proof.
  intros Hhash. cut (safe (load_project directories input) (λ project,
    ∃ root graph units order files,
      project_of directories input project root graph units order files)); [done|].
  eapply safe_bind; [by apply project_graph_safe|]. intros graph _ Hgraph.
  eapply safe_bind; [by apply (project_input_safe directories)|].
  intros [entry manifest] _ Hinput. eapply safe_bind; [apply safe_or_else|]. intros entry' _ Hentry.
  eapply safe_bind; [apply safe_ok_or|]. intros _ _ _.
  eapply safe_bind; [by apply (loader_root_safe directories input)|]. intros root _ Hroot.
  assert (usable_graph graph) as Husable.
  { destruct graph as [g|]; [|done]. eapply graph_usable, Hgraph. }
  pose proof (load_all_loads root graph entry' Husable) as Hload. unfold loads in Hload.
  destruct (load_all root graph entry' initial_loader) as [ [p l]|e|] eqn:Hrun; [|..|done].
  - destruct Hload as (Hlink & Hlast & Hall & Hreads & Hlinks).
    exists root, graph, (ld_units l), (ld_order l), (ld_files l). split; try done.
    unfold project_source. simpl. destruct graph as [g|].
    + destruct Hgraph as [Hg Hlock], Hinput as (p1 & Hp1 & -> & ->), Hroot as (p2 & Hp2 & ->).
      rewrite Hp1 in Hp2. injection Hp2 as <-. split_and!; [done..|]. by exists p1.
    + destruct Hinput as (Hext & -> & ->). done.
  - eapply safe_mono; [by apply remap_error_safe|done].
Qed.
End projects.
