(* ===== verification/ProjectExamples.v ===== *)
(** * Projects on a concrete file system

    A file system given by the list of its files, a digest that keeps its input, and small
    projects on it: the hypotheses of the theorems on packages, linking and loading hold
    there.  The last part runs the loader on projects whose linked program is not what the
    modules say. *)

From S2P Require Import Prelude Machine Utf8 Diagnostics Limits StateM BTree Ast Lexer LexerProps LexerShift Parser ParserProps Expansion Resolver Link LinkProps LinkScope LinkNames Paths Manifest ManifestProps Migrate MigrateProps Package PackageProps Loader LoaderProps.
#[local] Open Scope string_scope.
#[local] Open Scope list_scope.
#[local] Open Scope Z_scope.

(** ** A file system *)

Abbreviation FileTree := (list (Path * string)).

Section tree.
Context (t : FileTree).

(** Every prefix of a file is a directory. *)
Definition directories_of (p : Path) : list Path := map (λ n, take n p) (seq 0 (length p)).
Definition tree_directories : list Path := flat_map (λ f, directories_of f.1) t.

Definition tree_file (p : Path) : option string :=
  snd <$> List.find (λ f, bool_decide (f.1 = p)) t.
Definition tree_is_dir (p : Path) : bool := bool_decide (p ∈ tree_directories).

Definition up (p : Path) (c : Component) : Path :=
  match c with ParentDir => removelast p | CurDir => p | _ => p ++ [c] end.
Definition normalized (p : Path) : Path := fold_left up p [].

Definition tree_metadata (p : Path) : string + Metadata :=
  match tree_file (normalized p) with
  | Some text => inr (mkMetadata true false false (str_len text))
  | None =>
    if tree_is_dir (normalized p) then inr (mkMetadata false true false 0)
    else inl "no such file"
  end.

Definition child_of (p : Path) (q : Path) : option string :=
  if starts_with q p then
    match drop (length p) q with Normal name :: _ => Some name | _ => None end
  else None.

#[export] Instance tree_files : Files := {|
  canonicalize p := match tree_metadata p with inr _ => inr (normalized p) | inl e => inl e end;
  metadata := tree_metadata;
  symlink_metadata := tree_metadata;
  read_bytes p :=
    match tree_file p with Some text => inr (as_bytes text) | None => inl "no such file" end;
  read_to_string p :=
    match tree_file p with Some text => inr text | None => inl "no such file" end;
  read_dir p :=
    if tree_is_dir p then inr (remove_dups (omap (λ f, child_of p f.1) t))
    else inl "not a directory";
  path_exists p := match tree_metadata p with inr _ => true | inl _ => false end |}.
End tree.

(** The bytes themselves, as text. *)
#[export] Instance kept_bytes : Sha256 := λ bytes, String.concat "" (map (λ b, display_Z (Z.of_N (Byte.to_N b))) bytes).

Definition panics {E A} (m : outcome E A) : bool := match m with Panic => true | _ => false end.

(** Only the directories of the tree can be read. *)
Lemma hash_package_returns (t : FileTree) (n : nat) :
  forallb (λ root, negb (panics (@hash_package kept_bytes (tree_files t) (S n) root)))
    (tree_directories t) = true →
  ∀ root, @hash_package kept_bytes (tree_files t) (S n) root ≠ Panic.
Proof.
  intros Hall root. destruct (decide (root ∈ tree_directories t)) as [Hin|Hout].
  - rewrite forallb_forall in Hall. specialize (Hall root ltac:(by apply list_elem_of_In)).
    intros Hp. by rewrite Hp in Hall.
  - unfold hash_package. cbn [collect_sources pending last read_dir tree_files].
    unfold tree_is_dir. by rewrite bool_decide_eq_false_2.
Qed.

(** ** A project with two packages and three modules *)

Definition file (path text : string) : Path * string := (path_of path, text).

Definition lines_of (l : list string) : string := String.concat newline l +:+ newline.
Definition quoted (s : string) : string := quote +:+ s +:+ quote.

Definition app_manifest : string := lines_of
  ["[package]"; "name = " +:+ quoted "app"; "version = " +:+ quoted "1.0.0";
   "[dependencies]"; "numbers = { path = " +:+ quoted "../numbers" +:+ " }"].
Definition numbers_manifest : string := lines_of
  ["[package]"; "name = " +:+ quoted "numbers"; "version = " +:+ quoted "0.2.0"; 
   "entry = " +:+ quoted "src/lib.disp"].

Definition unlocked : FileTree :=
  [file "/w/app/DISP.toml" app_manifest;
   file "/w/app/src/main.disp"
     "use numbers use shapes fn main() { let n = double(21) print(n) print(area(n)) }";
   file "/w/app/src/shapes.disp"
     "module shapes use numbers pub fn area(n: int) -> int { let half = n return double(half) }";
   file "/w/numbers/DISP.toml" numbers_manifest;
   file "/w/numbers/src/lib.disp" "pub fn double(n: int) -> int = n * 2"].

Definition app : Path := path_of "/w/app".
Definition app_graph (t : FileTree) : outcome Diagnostic PackageGraph :=
  @resolve_packages kept_bytes (tree_files t) 8 app.
Definition app_lock : string :=
  match g ← app_graph unlocked; render_lock g with Ok text => text | _ => "" end.
Definition app_files : FileTree := file "/w/app/DISP.lock" app_lock :: unlocked.

Lemma app_hashes root : @hash_package kept_bytes (tree_files app_files) 8 root ≠ Panic.
Proof. apply hash_package_returns. vm_compute. reflexivity. Qed.

(** Hypotheses of [resolve_packages_sound] hold, and the graph has both packages. *)
Lemma resolve_packages_sound_witness :
  match @resolve_packages kept_bytes (tree_files app_files) 8 app with
  | Ok g =>
    map fst (packages g) = ["app@1.0.0"; "numbers@0.2.0"]
    ∧ @graph_of kept_bytes (tree_files app_files) 8 app g ∧ tree g ≠ Panic
  | _ => False
  end.
Proof.
  pose proof (@resolve_packages_sound kept_bytes (tree_files app_files) 8 app app_hashes) as H.
  destruct (@resolve_packages _ _ 8 app) as [g| |] eqn:E; [|vm_compute in E; discriminate E..].
  split; [|exact H]. vm_compute in E. injection E as <-. reflexivity.
Defined.

(** The project loads: the dependency before the module that uses it, the entry last. *)
Lemma load_project_sound_witness :
  match @load_project ascii_unicode ascii_text (tree_files app_files) kept_bytes 8 app with
  | Ok project =>
    map fn_name (program_functions (project_program project))
    = ["$disp$package:numbers@0.2.0$double"; "$disp$shapes$area"; "main"]
    ∧ ∃ root graph units order files,
        @project_of ascii_unicode ascii_text (tree_files app_files) kept_bytes 8 app project
          root graph units order files
  | _ => False
  end.
Proof.
  pose proof (@load_project_sound ascii_unicode ascii_text (tree_files app_files) kept_bytes 8 app
    app_hashes) as H.
  destruct (@load_project _ _ _ _ 8 app) as [project| |] eqn:E;
    [|vm_compute in E; discriminate E..].
  split; [|exact H]. vm_compute in E. injection E as <-. reflexivity.
Defined.

(** ** Migration *)

Definition written (_ : Path) (_ : string) : string + unit := inr tt.
Definition app_migrated : string := lines_of
  ["[package]"; "name = " +:+ quoted "app"; "version = " +:+ quoted "1.0.0";
   "edition = " +:+ quoted "1"; "features = []";
   "[dependencies]"; "numbers = { path = " +:+ quoted "../numbers" +:+ " }"].

Lemma migrate_preserves_witness :
  match @migrate (tree_files unlocked) written app false with
  | Ok (report, out) =>
    out = Some app_migrated ∧ ∃ m,
      let manifest := join app [Normal "DISP.toml"] in
      report_manifest report = manifest
      ∧ @parse_manifest (tree_files unlocked) manifest = Ok m
      ∧ report_edition report = manifest_edition m
      ∧ (report_changed report = false ↔ explicit manifest (of_chars (chars app_manifest)))
      ∧ (is_Some out ↔ report_changed report = true ∧ false = false)
      ∧ ∀ out', out = Some out' → ∃ m',
          parse_manifest_text manifest out' = Ok m' ∧ same_manifest m m'
          ∧ explicit manifest out' ∧ keeps_lines (of_chars (chars app_manifest)) out'
  | _ => False
  end.
Proof.
  pose proof (@migrate_preserves (tree_files unlocked) written app false (chars app_manifest)) as H.
  assert (scalars (chars app_manifest)) as Hs
    by (apply (bool_decide_eq_true_1 _); vm_compute; reflexivity).
  specialize (H Hs ltac:(vm_compute; reflexivity)).
  destruct (@migrate (tree_files unlocked) written app false) as [ [report out]| |] eqn:E;
    [|vm_compute in E; discriminate E..].
  split; [|exact H]. vm_compute in E. injection E as _ <-. vm_compute. reflexivity.
Defined.

(** A manifest of the greatest size that is accepted is migrated to one that is not: the
    size of what is written is not checked. *)
Definition comment_line : string := "#--------------" +:+ newline.
Definition full_manifest : string :=
  numbers_manifest
  +:+ String.concat "" (repeat comment_line (Z.to_nat ((64 * 1024 - str_len numbers_manifest) / 16))).
Definition numbers_tree (manifest : string) : FileTree := [file "/n/DISP.toml" manifest].
Definition accepted (manifest : string) : bool :=
  match @parse_manifest (tree_files (numbers_tree manifest)) (path_of "/n/DISP.toml") with
  | Ok _ => true
  | _ => false
  end.
Definition migrated_manifest (manifest : string) : option string :=
  match @migrate (tree_files (numbers_tree manifest)) written (path_of "/n") false with
  | Ok (_, out) => out
  | _ => None
  end.
Theorem migration_exceeds_limit :
  accepted full_manifest = true
  ∧ accepted <$> migrated_manifest full_manifest = Some false.
Proof. vm_compute. split; reflexivity. Qed.

(** ** Digests *)

(** The same package in two places, with the line endings of two platforms. *)
Definition unix_package : FileTree :=
  [file "/a/DISP.toml" numbers_manifest;
   file "/a/src/lib.disp" (lines_of ["fn f() {"; "}"])].
Definition dos_package : FileTree :=
  [file "/b/src/lib.disp" (of_chars (flat_map (λ c, if c =? 10 then [13; 10] else [c])
                                       (chars (lines_of ["fn f() {"; "}"]))));
   file "/b/DISP.toml" numbers_manifest].

Definition small_sourceb (s : outcome string (string * string)) : bool :=
  match s with Ok s => (str_len s.1 <? 2 ^ 64) && (str_len s.2 <? 2 ^ 64) | _ => true end.

Lemma small_sources (F : Files) root files :
  forallb small_sourceb (package_sources F root files) = true →
  ∀ s, Ok s ∈ package_sources F root files → small_source s.
Proof.
  rewrite forallb_forall. intros H s Hs%list_elem_of_In%H. simpl in Hs. by reflect_bools.
Qed.

Lemma digest_input_injective_witness :
  package_sources (tree_files unix_package) (path_of "/a") (map fst unix_package)
  = package_sources (tree_files dos_package) (path_of "/b") (map fst dos_package).
Proof.
  destruct (@digest_input (tree_files unix_package) (path_of "/a") (map fst unix_package))
    as [bytes| |] eqn:E; [|vm_compute in E; discriminate E..].
  apply (digest_input_injective _ _ _ _ _ _ bytes E).
  - rewrite <- E. vm_compute. reflexivity.
  - apply small_sources. vm_compute. reflexivity.
  - apply small_sources. vm_compute. reflexivity.
Defined.

(** ** Linking *)

#[local] Instance plain_unit_dec u : Decision (plain_unit u).
Proof. unfold plain_unit, plain_items, plain_function, plain. apply _. Defined.

(** An entry with its module, without packages. *)
Definition shapes_files : FileTree :=
  [file "/p/main.disp"
     "use shapes.{area, Square} fn main() { let s = Square { side: 4 } print(area(s)) }";
   file "/p/shapes.disp"
     "pub struct Square { side: int } fn side(s: Square) -> int = s.side
      pub fn area(s: Square) -> int { let area = side(s) return area * side(s) }"].

Definition shapes_run : outcome (Diagnostic * list SourceFile) (Program * Loader) :=
  @load_all ascii_unicode ascii_text (tree_files shapes_files) (path_of "/p") None
    (path_of "/p/main.disp") initial_loader.

Lemma shapes_plain :
  match shapes_run with
  | Ok (_, l) => bool_decide (Forall (λ entry, plain_unit entry.2) (ld_units l))
  | _ => false
  end = true.
Proof. vm_compute. reflexivity. Qed.


(** ** Modules whose linked program differs *)

Definition linked (t : FileTree) (entry : string) : option Program :=
  match @load_project ascii_unicode ascii_text (tree_files t) kept_bytes 8 (path_of entry) with
  | Ok project => Some (project_program project)
  | _ => None
  end.
Definition resolves (p : Program) : bool := match resolve p with Ok _ => true | _ => false end.

(** What the statements of a function return. *)
Definition returned_names (f : Function) : list string :=
  omap (λ s, match node s with
             | SReturn (Some e) => match node e with EIdentifier x => Some x | _ => None end
             | _ => None
             end) (match fn_body f with mkBlock statements _ => statements end).

(** The canonical names of a variant [V] of an enum [E] of module [m] and of a function [V]
    of module [m.E] are the same: [f] returns the variant in its module, and linked it
    returns a name that is both. *)
Definition colliding : FileTree :=
  [file "/p/main.disp" "use m use m.E fn main() { let x = f() }";
   file "/p/m.disp" "pub enum E { V, W } pub fn f() -> E { return V }";
   file "/p/m/E.disp" "pub fn V() -> int = 1"].
Theorem canonical_names_collide :
  match linked colliding "/p/main.disp" with
  | Some p =>
    resolves p
    && bool_decide (flat_map (λ d, map variant_name (enum_variants d)) (program_enums p)
                    = ["$disp$m$E$V"; "$disp$m$E$W"])
    && bool_decide (map (λ f, (fn_name f, returned_names f)) (program_functions p)
                    = [("$disp$m$f", ["$disp$m$E$V"]); ("$disp$m$E$V", []); ("main", [])])
  | None => false
  end = true.
Proof. vm_compute. reflexivity. Qed.

(** The type parameter of [Box] hides the struct [T] in the root module; in any other
    module its field becomes a field of the struct. *)
Definition shadowing : string := "pub struct T { a: int } pub struct Box<T> { value: T }".
Definition field_types (p : Program) : list (list string) :=
  map (λ d, map (λ f, type_name (field_ty f)) (struct_fields d)) (program_structs p).
Theorem generics_are_renamed :
  (field_types <$> linked [file "/p/main.disp" (shadowing +:+ " fn main() {}")] "/p/main.disp")
  = Some [["int"]; ["T"]]
  ∧ (field_types <$> linked [file "/p/main.disp" "use m fn main() {}";
                             file "/p/m.disp" shadowing] "/p/main.disp")
    = Some [["int"]; ["$disp$m$T"]].
Proof. vm_compute. split; reflexivity. Qed.

(** An assignment that declares a variable does not put it in the scope of the renamer: in
    the root module the assignment to a function is an error, in any other module the
    variable is written and the function is read. *)
Definition assigning : string :=
  "fn total() -> int = 1 pub fn f() -> int { total = 2 return total }".
Theorem assigned_variables_are_renamed :
  match linked [file "/p/main.disp" (assigning +:+ " fn main() {}")] "/p/main.disp",
        linked [file "/p/main.disp" "use m fn main() {}"; file "/p/m.disp" assigning]
          "/p/main.disp" with
  | Some alone, Some imported =>
    negb (resolves alone) && resolves imported
    && bool_decide (map returned_names (program_functions imported)
                    = [[]; ["$disp$m$total"]; []])
  | _, _ => false
  end = true.
Proof. vm_compute. reflexivity. Qed.

(** A variant that two enums of a module share cannot be named alone; shared by three, it
    is the variant of the last one. *)
Definition sharing (enums : string) : FileTree :=
  [file "/p/main.disp" "use m fn main() {}";
   file "/p/m.disp" (enums +:+ " enum Z { V } pub fn f() { return V }")].
Theorem third_variant_is_unambiguous :
  match linked (sharing "enum X { V }") "/p/main.disp",
        linked (sharing "enum X { V } enum Y { V }") "/p/main.disp" with
  | Some two, Some three =>
    bool_decide (map returned_names (program_functions two) = [["V"]; []])
    && bool_decide (map returned_names (program_functions three) = [["$disp$m$Z$V"]; []])
  | _, _ => false
  end = true.
Proof. vm_compute. reflexivity. Qed.
