(* ===== verification/DataFormat.v ===== *)
(** * The DISP Data file format ([compiler/src/data_store.rs], codec part)

    Snapshots of typed tables, their payload encoding, the fixed-page image
    around a payload, and the decoder with its integrity checks.  Every
    operation of the source is a function here, with the panics a slice or an
    index could raise kept visible as [Panic]. *)

From S2P Require Import Prelude Machine.
#[local] Open Scope string_scope.
#[local] Open Scope list_scope.
#[local] Open Scope Z_scope.

(** ** Constants *)

Definition MAGIC : list byte := map byte_of_Z [68; 73; 83; 80; 68; 66; 26; 10].
Definition LEGACY_VERSION : Z := 1.
Definition PAGE_VERSION : Z := 2.
Definition UNIQUE_VERSION : Z := 3.
Definition INDEX_VERSION : Z := 4.
Definition VERSION : Z := 5.
Definition LEGACY_HEADER_SIZE : Z := 32.
Definition PAGE_SIZE : Z := 4096.
Definition PAGE_HEADER_SIZE : Z := 32.
Definition PAGE_PAYLOAD_SIZE : Z := PAGE_SIZE - PAGE_HEADER_SIZE.
Definition MAX_FILE_BYTES : Z := 64 * 1024 * 1024.
Definition MAX_PAGES : Z := MAX_FILE_BYTES / PAGE_SIZE.
Definition MAX_TABLES : Z := 4096.
Definition MAX_FIELDS : Z := 4096.
Definition MAX_ROWS : Z := 100000.
Definition MAX_NAME_BYTES : Z := 1024.
Definition MAX_TYPE_BYTES : Z := 128.
Definition MAX_ROW_BYTES : Z := 16 * 1024 * 1024.

(** ** Data *)

Record Field := mkField {
  field_name : string;
  field_storage : string;
  field_optional : bool;
  field_primary : bool;
  field_unique : bool;
  field_indexed : bool }.

Record Constraint := mkConstraint {
  constraint_name : string;
  constraint_unique : bool;
  constraint_fields : list string }.

Record Table := mkTable {
  table_name : string;
  table_fields : list Field;
  table_constraints : list Constraint;
  table_rows : list (list byte) }.

Record Snapshot := mkSnapshot { tables : list Table }.

Definition empty_snapshot : Snapshot := mkSnapshot [].

#[export] Instance Field_eq_dec : EqDecision Field.
Proof. solve_decision. Defined.
#[export] Instance Constraint_eq_dec : EqDecision Constraint.
Proof. solve_decision. Defined.
#[export] Instance Table_eq_dec : EqDecision Table.
Proof. solve_decision. Defined.
#[export] Instance Snapshot_eq_dec : EqDecision Snapshot.
Proof. solve_decision. Defined.

(** ** Errors *)

(** The kinds of [io::ErrorKind] the module distinguishes. *)
Inductive ErrorKind := InvalidData | NotFound | AlreadyExists | OtherIo.
Record io_error := mkIoError { kind : ErrorKind; message : string }.

#[export] Instance ErrorKind_eq_dec : EqDecision ErrorKind.
Proof. solve_decision. Defined.
#[export] Instance io_error_eq_dec : EqDecision io_error.
Proof. solve_decision. Defined.

Abbreviation io := (outcome io_error).

Definition invalid (msg : string) : io_error := mkIoError InvalidData msg.

(** ** Checksums and primitive encoders *)

Definition fnv1a (bytes : list byte) : Z :=
  fold_left (λ hash b, wrapping_mul 64 (Z.lxor hash (Z_of_byte b)) 0x100000001b3)
    bytes 0xcbf29ce484222325.

Arguments fnv1a : simpl never.

Definition push_u32 (output : list byte) (value : Z) (context : string) : io (list byte) :=
  value ← ok_or (try_from U32_MAX value) (invalid (context +:+ " is too large"));
  Ok (output ++ to_le_bytes 4 value).

Definition push_u64 (output : list byte) (value : Z) (context : string) : io (list byte) :=
  value ← ok_or (try_from U64_MAX value) (invalid (context +:+ " is too large"));
  Ok (output ++ to_le_bytes 8 value).

Definition push_bytes (output value : list byte) (limit : Z) (context : string)
    : io (list byte) :=
  _ ← bail_if (zlen value >? limit) (invalid (context +:+ " exceeds its storage limit"));
  output ← push_u32 output (zlen value) context;
  Ok (output ++ value).

(** ** Payload encoder *)

(** [tables.sort_by(|left, right| left.name.cmp(&right.name))]: a stable sort on
    the byte order of the names. *)
Fixpoint insert_table (t : Table) (l : list Table) : list Table :=
  match l with
  | [] => [t]
  | u :: l' => if String.leb (table_name t) (table_name u) then t :: l
               else u :: insert_table t l'
  end.
Definition sort_tables (l : list Table) : list Table := foldr insert_table [] l.

Definition bit (b : bool) : Z := if b then 1 else 0.

Definition field_flags (f : Field) : Z :=
  Z.lor (Z.lor (Z.lor (bit (field_optional f)) (Z.shiftl (bit (field_primary f)) 1))
    (Z.shiftl (bit (field_unique f)) 2)) (Z.shiftl (bit (field_indexed f)) 3).

(** One iteration of the field loop: state is (payload, field_names, primary_count). *)
Definition encode_field (st : list byte * gset string * Z) (f : Field)
    : io (list byte * gset string * Z) :=
  let '(payload, names, primary_count) := st in
  _ ← bail_if (bool_decide (field_name f ∈ names))
        (invalid "DISP Data table contains a duplicate field");
  payload ← push_bytes payload (as_bytes (field_name f)) MAX_NAME_BYTES "field name";
  payload ← push_bytes payload (as_bytes (field_storage f)) MAX_TYPE_BYTES "field storage type";
  Ok (payload ++ [byte_of_Z (field_flags f)], {[field_name f]} ∪ names,
      primary_count + bit (field_primary f)).

Definition encode_constraint_field (field_names : gset string)
    (st : list byte * gset string) (f : string) : io (list byte * gset string) :=
  let '(payload, constrained) := st in
  _ ← bail_if (negb (bool_decide (f ∈ field_names)) || bool_decide (f ∈ constrained))
        (invalid "DISP Data composite constraint references invalid fields");
  payload ← push_bytes payload (as_bytes f) MAX_NAME_BYTES "constraint field";
  Ok (payload, {[f]} ∪ constrained).

Definition encode_constraint (fields : list Field) (st : list byte * gset string)
    (c : Constraint) : io (list byte * gset string) :=
  let '(payload, names) := st in
  let field_names : gset string := list_to_set (map field_name fields) in
  payload ← push_bytes payload (as_bytes (constraint_name c)) MAX_NAME_BYTES "constraint name";
  _ ← bail_if (bool_decide (constraint_name c ∈ names)
               || bool_decide (constraint_name c ∈ field_names))
        (invalid "DISP Data table contains a duplicate field or constraint name");
  let payload := payload ++ [byte_of_Z (bit (constraint_unique c))] in
  _ ← bail_if ((zlen (constraint_fields c) <? 2) || (zlen (constraint_fields c) >? zlen fields))
        (invalid "DISP Data composite constraint has an invalid field count");
  payload ← push_u32 payload (zlen (constraint_fields c)) "constraint field count";
  '(payload, _) ← for_each (encode_constraint_field field_names) (constraint_fields c) (payload, ∅);
  Ok (payload, {[constraint_name c]} ∪ names).

(** The constraint section of a table. *)
Definition encode_constraints (supports_constraints : bool) (t : Table) (payload : list byte)
    : io (list byte) :=
  if supports_constraints then
    payload ← push_u32 payload (zlen (table_constraints t)) "constraint count";
    '(payload, _) ← for_each (encode_constraint (table_fields t)) (table_constraints t)
                      (payload, ∅);
    Ok payload
  else
    _ ← bail_if (negb (zlen (table_constraints t) =? 0))
          (invalid "legacy DISP Data formats cannot encode composite constraints");
    Ok payload.

Definition encode_row (payload : list byte) (row : list byte) : io (list byte) :=
  push_bytes payload row MAX_ROW_BYTES "stored row".

Definition encode_table (supports_constraints : bool) (st : list byte * gset string)
    (t : Table) : io (list byte * gset string) :=
  let '(payload, table_names) := st in
  _ ← bail_if (bool_decide (table_name t ∈ table_names))
        (invalid "DISP Data snapshot contains a duplicate table");
  payload ← push_bytes payload (as_bytes (table_name t)) MAX_NAME_BYTES "table name";
  _ ← bail_if ((zlen (table_fields t) =? 0) || (zlen (table_fields t) >? MAX_FIELDS))
        (invalid "DISP Data table must contain between 1 and 4096 fields");
  payload ← push_u32 payload (zlen (table_fields t)) "field count";
  '(payload, _, primary_count) ← for_each encode_field (table_fields t) (payload, ∅, 0);
  _ ← bail_if (negb (primary_count =? 1))
        (invalid "DISP Data table must contain exactly one primary field");
  _ ← bail_if (zlen (table_rows t) >? MAX_ROWS)
        (invalid "DISP Data table exceeds 100000 rows");
  payload ← encode_constraints supports_constraints t payload;
  payload ← push_u64 payload (zlen (table_rows t)) "row count";
  payload ← for_each encode_row (table_rows t) payload;
  _ ← bail_if (zlen payload >? MAX_FILE_BYTES - PAGE_SIZE)
        (invalid "DISP Data snapshot exceeds 64 MiB");
  Ok (payload, {[table_name t]} ∪ table_names).

Definition encode_payload_with_constraints (s : Snapshot) (supports_constraints : bool)
    : io (list byte) :=
  _ ← bail_if (zlen (tables s) >? MAX_TABLES)
        (invalid "DISP Data snapshot exceeds 4096 tables");
  let sorted := sort_tables (tables s) in
  payload ← push_u32 [] (zlen sorted) "table count";
  '(payload, _) ← for_each (encode_table supports_constraints) sorted (payload, ∅);
  Ok payload.

(** ** Page encoder *)

Definition copy_le (n : nat) (out : list byte) (at_ : Z) (value : Z) : io (list byte) :=
  copy_into out at_ (at_ + Z.of_nat n) (to_le_bytes n value).

(** The body of the page loop for data page [page] (counted from 0). *)
Definition write_data_page (payload : list byte) (data_pages : Z) (out : list byte) (page : Z)
    : io (list byte) :=
  let logical_start := page * PAGE_PAYLOAD_SIZE in
  let logical_end := Z.min (logical_start + PAGE_PAYLOAD_SIZE) (zlen payload) in
  data ← slice payload logical_start logical_end;
  let start := (page + 1) * PAGE_SIZE in
  out ← copy_into out start (start + 1) [byte_of_Z 1];
  out ← copy_le 4 out (start + 4) (page + 1);
  out ← copy_le 4 out (start + 8) (zlen data);
  let next := if page + 1 =? data_pages then 0 else page + 2 in
  out ← copy_le 4 out (start + 12) next;
  out ← copy_le 8 out (start + 16) (fnv1a data);
  copy_into out (start + PAGE_HEADER_SIZE) (start + PAGE_HEADER_SIZE + zlen data) data.

(** [0..n] *)
Definition range (n : Z) : list Z := map Z.of_nat (seq 0 (Z.to_nat n)).

Definition encode_pages_version (s : Snapshot) (generation version : Z)
    (supports_constraints : bool) : io (list byte) :=
  payload ← encode_payload_with_constraints s supports_constraints;
  let data_pages := Z.max (div_ceil (zlen payload) PAGE_PAYLOAD_SIZE) 1 in
  page_count ← ok_or
    (count ← checked_add USIZE_MAX data_pages 1;
     if count <=? MAX_PAGES then Some count else None)
    (invalid "DISP Data page count exceeds its storage limit");
  let output := zeros (page_count * PAGE_SIZE) in
  output ← copy_into output 0 8 MAGIC;
  output ← copy_le 4 output 8 version;
  output ← copy_le 4 output 12 PAGE_SIZE;
  output ← copy_le 8 output 16 generation;
  output ← copy_le 8 output 24 (zlen payload);
  output ← copy_le 8 output 32 page_count;
  output ← copy_le 8 output 40 (fnv1a payload);
  output ← copy_le 8 output 48 0;
  header ← slice output 0 56;
  output ← copy_le 8 output 56 (fnv1a header);
  for_each (write_data_page payload data_pages) (range data_pages) output.

Definition encode_pages (s : Snapshot) (generation : Z) : io (list byte) :=
  encode_pages_version s generation VERSION true.

(** ** Reader *)

Record Reader := mkReader { reader_bytes : list byte; reader_at : Z }.

Definition reader_take (r : Reader) (length : Z) (context : string) : io (list byte * Reader) :=
  end_ ← ok_or
    (e ← checked_add USIZE_MAX (reader_at r) length;
     if e <=? zlen (reader_bytes r) then Some e else None)
    (invalid ("DISP Data snapshot is truncated in " +:+ context));
  value ← slice (reader_bytes r) (reader_at r) end_;
  Ok (value, mkReader (reader_bytes r) end_).

Definition reader_u8 (r : Reader) (context : string) : io (Z * Reader) :=
  '(bs, r) ← reader_take r 1 context;
  b ← index bs 0;
  Ok (Z_of_byte b, r).

Definition reader_u32 (r : Reader) (context : string) : io (Z * Reader) :=
  '(bs, r) ← reader_take r 4 context;
  Ok (from_le_bytes bs, r).

Definition reader_u64 (r : Reader) (context : string) : io (Z * Reader) :=
  '(bs, r) ← reader_take r 8 context;
  v ← ok_or (try_from USIZE_MAX (from_le_bytes bs))
        (invalid (context +:+ " does not fit this target"));
  Ok (v, r).

Definition reader_text (r : Reader) (limit : Z) (context : string) : io (string * Reader) :=
  '(length, r) ← reader_u32 r context;
  _ ← bail_if (length >? limit) (invalid (context +:+ " exceeds its storage limit"));
  '(bs, r) ← reader_take r length context;
  s ← ok_or (from_utf8 bs) (invalid (context +:+ " is not valid UTF-8"));
  Ok (s, r).

Definition reader_data (r : Reader) (limit : Z) (context : string) : io (list byte * Reader) :=
  '(length, r) ← reader_u32 r context;
  _ ← bail_if (length >? limit) (invalid (context +:+ " exceeds its storage limit"));
  reader_take r length context.

(** ** Payload decoder *)

(** State of the field loop: reader, fields so far, names seen, primary count. *)
Definition decode_field (allowed_flags : Z) (st : Reader * list Field * gset string * Z)
    : io (Reader * list Field * gset string * Z) :=
  let '(r, fields, names, primary_count) := st in
  '(name, r) ← reader_text r MAX_NAME_BYTES "field name";
  _ ← bail_if (bool_decide (name ∈ names))
        (invalid "DISP Data table contains a duplicate field");
  '(storage, r) ← reader_text r MAX_TYPE_BYTES "field storage type";
  '(flags, r) ← reader_u8 r "field flags";
  _ ← bail_if (negb (Z.land flags (Z.lxor 0xFF allowed_flags) =? 0))
        (invalid "DISP Data field uses unknown required flags");
  let primary := negb (Z.land flags 2 =? 0) in
  let field := mkField name storage (negb (Z.land flags 1 =? 0)) primary
                 (negb (Z.land flags 4 =? 0)) (negb (Z.land flags 8 =? 0)) in
  Ok (r, fields ++ [field], {[name]} ∪ names, primary_count + bit primary).

Definition decode_constraint_field (field_names : gset string)
    (st : Reader * list string * gset string) : io (Reader * list string * gset string) :=
  let '(r, names, constrained) := st in
  '(field, r) ← reader_text r MAX_NAME_BYTES "constraint field";
  _ ← bail_if (negb (bool_decide (field ∈ field_names)) || bool_decide (field ∈ constrained))
        (invalid "DISP Data composite constraint references invalid fields");
  Ok (r, names ++ [field], {[field]} ∪ constrained).

Definition decode_constraint (fields : list Field)
    (st : Reader * list Constraint * gset string) : io (Reader * list Constraint * gset string) :=
  let '(r, constraints, constraint_names) := st in
  let field_names : gset string := list_to_set (map field_name fields) in
  '(name, r) ← reader_text r MAX_NAME_BYTES "constraint name";
  _ ← bail_if (bool_decide (name ∈ field_names) || bool_decide (name ∈ constraint_names))
        (invalid "DISP Data table contains a duplicate field or constraint name");
  '(flags, r) ← reader_u8 r "constraint flags";
  _ ← bail_if (negb (Z.land flags (Z.lxor 0xFF 1) =? 0))
        (invalid "DISP Data constraint uses unknown required flags");
  '(field_count, r) ← reader_u32 r "constraint field count";
  _ ← bail_if ((field_count <? 2) || (field_count >? zlen fields))
        (invalid "DISP Data composite constraint has an invalid field count");
  '(r, names, _) ← repeat_n (Z.to_nat field_count) (decode_constraint_field field_names) (r, [], ∅);
  Ok (r, constraints ++ [mkConstraint name (negb (Z.land flags 1 =? 0)) names],
      {[name]} ∪ constraint_names).

Definition decode_constraints (supports_constraints : bool) (fields : list Field) (r : Reader)
    : io (Reader * list Constraint) :=
  '(constraint_count, r) ←
     (if supports_constraints then reader_u32 r "constraint count" else Ok (0, r));
  _ ← bail_if (constraint_count >? MAX_FIELDS)
        (invalid "DISP Data table exceeds 4096 constraints");
  '(r, constraints, _) ←
     repeat_n (Z.to_nat constraint_count) (decode_constraint fields) (r, [], ∅);
  Ok (r, constraints).

Definition decode_row (st : Reader * list (list byte)) : io (Reader * list (list byte)) :=
  let '(r, rows) := st in
  '(row, r) ← reader_data r MAX_ROW_BYTES "stored row";
  Ok (r, rows ++ [row]).

Definition decode_table (allowed_flags : Z) (supports_constraints : bool)
    (st : Reader * list Table * gset string) : io (Reader * list Table * gset string) :=
  let '(r, tables, table_names) := st in
  '(name, r) ← reader_text r MAX_NAME_BYTES "table name";
  _ ← bail_if (bool_decide (name ∈ table_names))
        (invalid "DISP Data snapshot contains a duplicate table");
  '(field_count, r) ← reader_u32 r "field count";
  _ ← bail_if ((field_count =? 0) || (field_count >? MAX_FIELDS))
        (invalid "DISP Data table must contain between 1 and 4096 fields");
  '(r, fields, _, primary_count) ←
     repeat_n (Z.to_nat field_count) (decode_field allowed_flags) (r, [], ∅, 0);
  _ ← bail_if (negb (primary_count =? 1))
        (invalid "DISP Data table must contain exactly one primary field");
  '(r, constraints) ← decode_constraints supports_constraints fields r;
  '(row_count, r) ← reader_u64 r "row count";
  _ ← bail_if (row_count >? MAX_ROWS) (invalid "DISP Data table exceeds 100000 rows");
  '(r, rows) ← repeat_n (Z.to_nat row_count) decode_row (r, []);
  Ok (r, tables ++ [mkTable name fields constraints rows], {[name]} ∪ table_names).

Definition decode_payload (payload : list byte) (allowed_flags : Z)
    (supports_constraints : bool) : io Snapshot :=
  '(table_count, r) ← reader_u32 (mkReader payload 0) "table count";
  _ ← bail_if (table_count >? MAX_TABLES) (invalid "DISP Data snapshot exceeds 4096 tables");
  '(r, tables, _) ←
     repeat_n (Z.to_nat table_count) (decode_table allowed_flags supports_constraints) (r, [], ∅);
  _ ← bail_if (negb (reader_at r =? zlen payload))
        (invalid "DISP Data snapshot contains trailing payload bytes");
  Ok (mkSnapshot tables).

(** ** Image decoder *)

Definition read_u32 (bytes : list byte) (start : Z) : io Z :=
  bs ← slice bytes start (start + 4); Ok (from_le_bytes bs).
Definition read_u64 (bytes : list byte) (start : Z) : io Z :=
  bs ← slice bytes start (start + 8); Ok (from_le_bytes bs).

(** [bytes[a..b].iter().any(|byte| *byte != 0)] *)
Definition any_nonzero (bs : list byte) : bool :=
  existsb (λ b, negb (Z_of_byte b =? 0)) bs.

Definition decode_legacy (bytes : list byte) : io Snapshot :=
  _ ← bail_if (zlen bytes <? LEGACY_HEADER_SIZE)
        (invalid "DISP Data snapshot header is truncated");
  flags ← read_u32 bytes 12;
  _ ← bail_if (negb (flags =? 0)) (invalid "DISP Data snapshot uses unknown required flags");
  length ← read_u64 bytes 16;
  payload_length ← ok_or (try_from USIZE_MAX length)
    (invalid "DISP Data snapshot length does not fit this target");
  rest ← unsigned_sub (zlen bytes) LEGACY_HEADER_SIZE;
  _ ← bail_if (negb (payload_length =? rest))
        (invalid "DISP Data snapshot length is inconsistent");
  payload ← slice bytes LEGACY_HEADER_SIZE (zlen bytes);
  checksum ← read_u64 bytes 24;
  _ ← bail_if (negb (fnv1a payload =? checksum))
        (invalid "DISP Data snapshot integrity check failed");
  decode_payload payload 3 false.

(** The body of the page loop of [decode_pages] for page [page]. *)
Definition decode_page (bytes : list byte) (payload_length page_count : Z)
    (payload : list byte) (page : Z) : io (list byte) :=
  let start := page * PAGE_SIZE in
  ty ← index bytes start;
  bad ← (if negb (Z_of_byte ty =? 1) then Ok true
         else flags ← slice bytes (start + 1) (start + 4);
              Ok (negb (bool_decide (flags = [x00; x00; x00]))));
  _ ← bail_if bad (invalid "DISP Data page has an invalid type or flags");
  id ← read_u32 bytes (start + 4);
  _ ← bail_if (negb (id =? page)) (invalid "DISP Data page identity is inconsistent");
  used ← read_u32 bytes (start + 8);
  remaining ← unsigned_sub payload_length (zlen payload);
  let expected_used := Z.min remaining PAGE_PAYLOAD_SIZE in
  _ ← bail_if (negb (used =? expected_used))
        (invalid "DISP Data page used length is inconsistent");
  let expected_next := if page + 1 =? page_count then 0 else page + 1 in
  next ← read_u32 bytes (start + 12);
  bad ← (if negb (next =? expected_next) then Ok true
         else reserved ← read_u64 bytes (start + 24); Ok (negb (reserved =? 0)));
  _ ← bail_if bad (invalid "DISP Data page chain is inconsistent");
  data ← slice bytes (start + PAGE_HEADER_SIZE) (start + PAGE_HEADER_SIZE + used);
  checksum ← read_u64 bytes (start + 16);
  _ ← bail_if (negb (fnv1a data =? checksum))
        (invalid "DISP Data page integrity check failed");
  unused ← slice bytes (start + PAGE_HEADER_SIZE + used) (start + PAGE_SIZE);
  _ ← bail_if (any_nonzero unused)
        (invalid "DISP Data page contains non-zero unused bytes");
  Ok (payload ++ data).

Definition decode_pages (bytes : list byte) (allowed_flags : Z) (supports_constraints : bool)
    : io Snapshot :=
  _ ← bail_if (zlen bytes <? PAGE_SIZE) (invalid "DISP Data page header is truncated");
  page_size ← read_u32 bytes 12;
  _ ← bail_if (negb (page_size =? PAGE_SIZE))
        (invalid "DISP Data snapshot uses an unsupported page size");
  flags ← read_u64 bytes 48;
  _ ← bail_if (negb (flags =? 0)) (invalid "DISP Data snapshot uses unknown required flags");
  header ← slice bytes 0 56;
  checksum ← read_u64 bytes 56;
  _ ← bail_if (negb (fnv1a header =? checksum))
        (invalid "DISP Data page header integrity check failed");
  reserved ← slice bytes 64 PAGE_SIZE;
  _ ← bail_if (any_nonzero reserved)
        (invalid "DISP Data page header contains unknown metadata");
  length ← read_u64 bytes 24;
  payload_length ← ok_or (try_from USIZE_MAX length)
    (invalid "DISP Data payload length does not fit this target");
  count ← read_u64 bytes 32;
  page_count ← ok_or (try_from USIZE_MAX count)
    (invalid "DISP Data page count does not fit this target");
  _ ← bail_if (negb ((2 <=? page_count) && (page_count <=? MAX_PAGES))
               || negb (zlen bytes =? page_count * PAGE_SIZE))
        (invalid "DISP Data page count is inconsistent");
  _ ← bail_if (payload_length >? (page_count - 1) * PAGE_PAYLOAD_SIZE)
        (invalid "DISP Data payload exceeds its page chain");
  payload ← for_each (decode_page bytes payload_length page_count)
              (map (λ p, p + 1) (range (page_count - 1))) [];
  checksum ← read_u64 bytes 40;
  _ ← bail_if (negb (fnv1a payload =? checksum))
        (invalid "DISP Data payload integrity check failed");
  decode_payload payload allowed_flags supports_constraints.

Definition decode (bytes : list byte) : io Snapshot :=
  _ ← bail_if (zlen bytes <? 12) (invalid "DISP Data snapshot header is truncated");
  _ ← bail_if (zlen bytes >? MAX_FILE_BYTES) (invalid "DISP Data snapshot exceeds 64 MiB");
  magic ← slice bytes 0 8;
  _ ← bail_if (negb (bool_decide (magic = MAGIC))) (invalid "file is not a DISP Data snapshot");
  version ← read_u32 bytes 8;
  if version =? LEGACY_VERSION then decode_legacy bytes
  else if version =? PAGE_VERSION then decode_pages bytes 3 false
  else if version =? UNIQUE_VERSION then decode_pages bytes 7 false
  else if version =? INDEX_VERSION then decode_pages bytes 15 false
  else if version =? VERSION then decode_pages bytes 15 true
  else Err (invalid ("unsupported DISP Data snapshot version " +:+ display_Z version)).
