(* ===== verification/DataCodec.v ===== *)
(** * Round trip and safety of the DISP Data payload codec

    [decode_payload] inverts [encode_payload_with_constraints] on every snapshot
    the format version can represent, and neither routine can panic. *)

From S2P Require Import Prelude Machine DataFormat.
#[local] Open Scope string_scope.
#[local] Open Scope list_scope.
#[local] Open Scope Z_scope.

(** ** What a format version can represent *)

(** Rust strings are valid UTF-8. *)
Definition text_valid (s : string) : Prop := utf8_valid (as_bytes s) = true.

Definition field_valid (allowed : Z) (f : Field) : Prop :=
  text_valid (field_name f) ∧ text_valid (field_storage f) ∧
  Z.land (field_flags f) (Z.lxor 0xFF allowed) = 0.

Definition constraint_valid (c : Constraint) : Prop :=
  text_valid (constraint_name c) ∧ Forall text_valid (constraint_fields c).

(** The decoder bounds the constraints of a table by [MAX_FIELDS]; the encoder
    does not. *)
Definition table_valid (allowed : Z) (t : Table) : Prop :=
  text_valid (table_name t) ∧ Forall (field_valid allowed) (table_fields t) ∧
  Forall constraint_valid (table_constraints t) ∧
  zlen (table_constraints t) <= MAX_FIELDS.

Definition snapshot_valid (allowed : Z) (s : Snapshot) : Prop :=
  Forall (table_valid allowed) (tables s).

#[export] Instance text_valid_dec s : Decision (text_valid s) := decide (_ = _).
#[export] Instance field_valid_dec a f : Decision (field_valid a f).
Proof. unfold field_valid. solve_decision. Defined.
#[export] Instance constraint_valid_dec c : Decision (constraint_valid c).
Proof. unfold constraint_valid. solve_decision. Defined.
#[export] Instance table_valid_dec a t : Decision (table_valid a t).
Proof. unfold table_valid. solve_decision. Defined.
#[export] Instance snapshot_valid_dec a s : Decision (snapshot_valid a s).
Proof. unfold snapshot_valid. solve_decision. Defined.

(** ** A reader positioned between what it consumed and what is left *)

Definition rd (pre post : list byte) : Reader := mkReader (pre ++ post) (zlen pre).

Definition fits (l : list byte) : Prop := zlen l <= USIZE_MAX.

Lemma reader_take_rd pre x post n ctx :
  n = zlen x → fits (pre ++ x ++ post) →
  reader_take (rd pre (x ++ post)) n ctx = Ok (x, rd (pre ++ x) post).
Proof.
  unfold fits. intros -> Hf. unfold reader_take, rd, checked_add. simpl.
  pose proof (zlen_nonneg pre). pose proof (zlen_nonneg x). pose proof (zlen_nonneg post).
  rewrite !zlen_app in *.
  rewrite try_from_in by lia. simpl.
  rewrite (proj2 (Z.leb_le _ _)) by lia. simpl.
  rewrite slice_ok by (rewrite ?zlen_app; lia). simpl.
  rewrite sub_list_mid by lia. by rewrite <- app_assoc.
Qed.

Lemma reader_u32_rd pre v post ctx :
  0 <= v <= U32_MAX → fits (pre ++ to_le_bytes 4 v ++ post) →
  reader_u32 (rd pre (to_le_bytes 4 v ++ post)) ctx = Ok (v, rd (pre ++ to_le_bytes 4 v) post).
Proof.
  intros Hv Hf. unfold reader_u32.
  rewrite reader_take_rd by (rewrite ?zlen_to_le_bytes; done). cbn -[to_le_bytes].
  rewrite from_to_le_bytes by (unfold U32_MAX in Hv; simpl; lia). done.
Qed.

Lemma reader_u64_rd pre v post ctx :
  0 <= v <= U64_MAX → fits (pre ++ to_le_bytes 8 v ++ post) →
  reader_u64 (rd pre (to_le_bytes 8 v ++ post)) ctx = Ok (v, rd (pre ++ to_le_bytes 8 v) post).
Proof.
  intros Hv Hf. unfold reader_u64.
  rewrite reader_take_rd by (rewrite ?zlen_to_le_bytes; done). cbn -[to_le_bytes try_from].
  rewrite from_to_le_bytes by (unfold U64_MAX in Hv; simpl; lia).
  rewrite try_from_in by done. done.
Qed.

Lemma reader_u8_rd pre b post ctx :
  fits (pre ++ b :: post) →
  reader_u8 (rd pre (b :: post)) ctx = Ok (Z_of_byte b, rd (pre ++ [b]) post).
Proof.
  intros Hf. unfold reader_u8. change (b :: post) with ([b] ++ post).
  by rewrite reader_take_rd.
Qed.

(** A length-prefixed byte string. *)
Definition enc_bytes (v : list byte) : list byte := to_le_bytes 4 (zlen v) ++ v.

Lemma push_u32_ok out v ctx out' :
  push_u32 out v ctx = Ok out' → out' = out ++ to_le_bytes 4 v ∧ 0 <= v <= U32_MAX.
Proof.
  unfold push_u32. destruct (try_from U32_MAX v) as [w|] eqn:E; simpl; [|done].
  apply try_from_some in E as [-> ?]. by intros [= <-].
Qed.

Lemma push_u64_ok out v ctx out' :
  push_u64 out v ctx = Ok out' → out' = out ++ to_le_bytes 8 v ∧ 0 <= v <= U64_MAX.
Proof.
  unfold push_u64. destruct (try_from U64_MAX v) as [w|] eqn:E; simpl; [|done].
  apply try_from_some in E as [-> ?]. by intros [= <-].
Qed.

Lemma push_bytes_ok out v limit ctx out' :
  push_bytes out v limit ctx = Ok out' →
  out' = out ++ enc_bytes v ∧ zlen v <= limit ∧ zlen v <= U32_MAX.
Proof.
  unfold push_bytes. intros H. inv_ok H. injection H as <-.
  apply bail_if_ok in Hv. apply push_u32_ok in Hv0 as [-> ?]. reflect_bools.
  unfold enc_bytes. rewrite app_assoc. repeat split; lia || done.
Qed.

Lemma reader_data_rd pre v post limit ctx :
  zlen v <= limit → zlen v <= U32_MAX → fits (pre ++ enc_bytes v ++ post) →
  reader_data (rd pre (enc_bytes v ++ post)) limit ctx = Ok (v, rd (pre ++ enc_bytes v) post).
Proof.
  intros Hl Hu Hf. unfold reader_data, enc_bytes in *. pose proof (zlen_nonneg v).
  rewrite <- !app_assoc in *. rewrite reader_u32_rd by (done || lia). simpl.
  unfold bail_if. destruct (zlen v >? limit) eqn:E; [reflect_bools; lia|]. simpl.
  rewrite reader_take_rd; [|done|by rewrite <- app_assoc]. by rewrite <- app_assoc.
Qed.

Lemma reader_text_rd pre s post limit ctx :
  text_valid s → zlen (as_bytes s) <= limit → zlen (as_bytes s) <= U32_MAX →
  fits (pre ++ enc_bytes (as_bytes s) ++ post) →
  reader_text (rd pre (enc_bytes (as_bytes s) ++ post)) limit ctx
  = Ok (s, rd (pre ++ enc_bytes (as_bytes s)) post).
Proof.
  intros Hs Hl Hu Hf. pose proof (reader_data_rd pre _ post limit ctx Hl Hu Hf) as H.
  unfold reader_data in H. unfold reader_text.
  destruct (reader_u32 _ ctx) as [[n r]| |]; simpl in *; [|done..].
  destruct (bail_if _ _); simpl in *; [|done..]. rewrite H. simpl.
  by rewrite from_utf8_as_bytes.
Qed.

(** ** Encoder loop against decoder loop *)

Section loop.
Context {A SE SD X : Type}.
Context (pay : SE → list byte) (mk : Reader → X → SD).
Context (enc : SE → A → io SE) (dec : SD → io SD) (upd : X → A → X).
Context (rel : SE → X → Prop) (valid : A → Prop).

(** One encoder iteration appends bytes that one decoder iteration reads back. *)
Definition step_inverse : Prop := ∀ a se se',
  valid a → enc se a = Ok se' →
  ∃ e, pay se' = pay se ++ e ∧
    (∀ pre post x, rel se x → fits (pre ++ e ++ post) →
      dec (mk (rd pre (e ++ post)) x) = Ok (mk (rd (pre ++ e) post) (upd x a))) ∧
    (∀ x, rel se x → rel se' (upd x a)).

Lemma loop_inverse : step_inverse → ∀ l se se',
  Forall valid l → for_each enc l se = Ok se' →
  ∃ e, pay se' = pay se ++ e ∧
    (∀ pre post x, rel se x → fits (pre ++ e ++ post) →
      repeat_n (length l) dec (mk (rd pre (e ++ post)) x)
      = Ok (mk (rd (pre ++ e) post) (foldl upd x l))) ∧
    (∀ x, rel se x → rel se' (foldl upd x l)).
Proof.
  intros Hstep l; induction l as [|a l IH]; intros se se' Hval; simpl.
  - intros [= <-]. exists []. rewrite app_nil_r. split_and!; [done| |done].
    intros. by rewrite app_nil_r.
  - inversion Hval as [|?? Ha Hl]; subst. intros H. inv_ok H.
    apply Hstep in Hv as (e1 & Hp1 & H1 & Hr1); [|done].
    apply IH in H as (e2 & Hp2 & H2 & Hr2); [|done].
    exists (e1 ++ e2). rewrite Hp2, Hp1, app_assoc. split_and!; [done| |by auto].
    intros pre post x Hr Hf. rewrite <- app_assoc in *.
    rewrite H1 by done. simpl. rewrite H2; [by rewrite <- app_assoc|auto|].
    by rewrite <- app_assoc.
Qed.
End loop.

Lemma field_flags_range f : 0 <= field_flags f < 256.
Proof. destruct f as [n s [] [] [] []]; vm_compute; split; congruence. Qed.

Lemma Z_of_field_flags f : Z_of_byte (byte_of_Z (field_flags f)) = field_flags f.
Proof. rewrite Z_of_byte_of_Z. apply Z.mod_small, field_flags_range. Qed.

Lemma field_of_flags f :
  mkField (field_name f) (field_storage f) (negb (Z.land (field_flags f) 1 =? 0))
    (negb (Z.land (field_flags f) 2 =? 0)) (negb (Z.land (field_flags f) 4 =? 0))
    (negb (Z.land (field_flags f) 8 =? 0)) = f.
Proof. destruct f as [n s [] [] [] []]; reflexivity. Qed.

Lemma primary_of_flags f : negb (Z.land (field_flags f) 2 =? 0) = field_primary f.
Proof. destruct f as [n s [] [] [] []]; reflexivity. Qed.

Definition field_upd (x : list Field * gset string * Z) (f : Field) :=
  let '(fs, names, pc) := x in
  (fs ++ [f], {[field_name f]} ∪ names, pc + bit (field_primary f)).

Lemma field_inverse allowed :
  step_inverse (λ st, st.1.1) (λ r x, (r, x.1.1, x.1.2, x.2))
    encode_field (decode_field allowed) field_upd
    (λ st x, st.1.2 = x.1.2 ∧ st.2 = x.2) (field_valid allowed).
Proof.
  intros f [[p names] pc] se' (Hn & Hs & Hfl) H. simpl in H. inv_ok H.
  injection H as <-. apply bail_if_ok in Hv.
  apply push_bytes_ok in Hv0 as (-> & ? & ?). apply push_bytes_ok in Hv1 as (-> & ? & ?).
  exists (enc_bytes (as_bytes (field_name f)) ++ enc_bytes (as_bytes (field_storage f))
          ++ [byte_of_Z (field_flags f)]).
  cbn [fst snd]. rewrite <- !app_assoc. split_and!; [done| |].
  2: { intros [[fs names'] pc'] [Hr1 Hr2]. simpl in *. by subst. }
  intros pre post [[fs names'] pc'] [Hr1 Hr2] Hf. cbn [fst snd] in *. subst names' pc'.
  unfold decode_field. rewrite <- !app_assoc in *.
  rewrite reader_text_rd by done. cbn -[enc_bytes]. rewrite Hv. cbn -[enc_bytes].
  rewrite reader_text_rd; [|done..|by rewrite <- !app_assoc]. cbn -[enc_bytes].
  rewrite reader_u8_rd; [|by rewrite <- !app_assoc]. cbn -[enc_bytes].
  rewrite Z_of_field_flags, Hfl. cbn -[enc_bytes].
  rewrite primary_of_flags, <- (primary_of_flags f), field_of_flags, primary_of_flags.
  by rewrite <- !app_assoc.
Qed.

Definition constraint_field_upd (x : list string * gset string) (f : string) :=
  (x.1 ++ [f], {[f]} ∪ x.2).

Lemma constraint_field_inverse names :
  step_inverse fst (λ r x, (r, x.1, x.2))
    (encode_constraint_field names) (decode_constraint_field names) constraint_field_upd
    (λ st x, st.2 = x.2) text_valid.
Proof.
  intros f [p seen] se' Hf H. simpl in H. inv_ok H. injection H as <-.
  apply bail_if_ok in Hv. apply push_bytes_ok in Hv0 as (-> & ? & ?).
  exists (enc_bytes (as_bytes f)). split_and!; [done| |].
  2: { intros [fs seen'] Hr. simpl in *. by subst. }
  intros pre post [fs seen'] Hr Hfit. cbn [fst snd] in *. subst seen'.
  unfold decode_constraint_field.
  rewrite reader_text_rd by done. cbn -[enc_bytes]. by rewrite Hv.
Qed.

Lemma foldl_snoc_acc {A B} (f : list A * B → A → B) l acc b :
  (foldl (λ x a, (x.1 ++ [a], f x a)) (acc, b) l).1 = acc ++ l.
Proof.
  revert acc b; induction l as [|a l IH]; intros acc b; simpl; [by rewrite app_nil_r|].
  rewrite IH. by rewrite <- app_assoc.
Qed.

Lemma bool_flag b :
  negb (Z.land (Z_of_byte (byte_of_Z (bit b))) 1 =? 0) = b ∧
  Z.land (Z_of_byte (byte_of_Z (bit b))) (Z.lxor 255 1) = 0.
Proof. by destruct b. Qed.

Definition constraint_upd (x : list Constraint * gset string) (c : Constraint) :=
  (x.1 ++ [c], {[constraint_name c]} ∪ x.2).

Lemma constraint_inverse fields :
  step_inverse fst (λ r x, (r, x.1, x.2))
    (encode_constraint fields) (decode_constraint fields) constraint_upd
    (λ st x, st.2 = x.2) constraint_valid.
Proof.
  intros [cn cu cf] [p seen] se' [Hn Hcf] H. simpl in Hn, Hcf. cbn -[list_to_set map] in H.
  inv_ok H. injection H as <-.
  apply push_bytes_ok in Hv as (-> & ? & ?). apply bail_if_ok in Hv0, Hv1.
  apply push_u32_ok in Hv2 as (-> & ?).
  eapply loop_inverse in Hv3 as (e & Hp & Hloop & _);
    [|apply constraint_field_inverse|done]. cbn [fst] in Hp.
  subst_lhs Hp.
  exists (enc_bytes (as_bytes cn) ++ [byte_of_Z (bit cu)] ++ to_le_bytes 4 (zlen cf) ++ e).
  rewrite <- !app_assoc. split_and!; [done| |].
  2: { intros [cs seen'] Hr. simpl in *. by subst. }
  intros pre post [cs seen'] Hr Hfit. cbn [fst snd] in *. subst seen'.
  unfold decode_constraint. rewrite <- !app_assoc in *.
  rewrite reader_text_rd by done. cbn -[enc_bytes to_le_bytes list_to_set].
  rewrite orb_comm, Hv0. cbn -[enc_bytes to_le_bytes list_to_set].
  rewrite reader_u8_rd; [|by rewrite <- !app_assoc]. cbn -[enc_bytes to_le_bytes list_to_set Z.land Z_of_byte].
  destruct (bool_flag cu) as [Hu ->]. cbn -[enc_bytes to_le_bytes list_to_set Z.land].
  rewrite reader_u32_rd; [|lia|by rewrite <- !app_assoc].
  cbn -[enc_bytes to_le_bytes list_to_set Z.land]. rewrite Hv1.
  cbn -[enc_bytes to_le_bytes list_to_set Z.land]. unfold zlen. rewrite Nat2Z.id.
  pose proof (λ a b, Hloop a b ([], ∅) eq_refl) as Hl. cbn [fst snd] in Hl.
  rewrite Hl by (rewrite <- !app_assoc; done). cbn -[enc_bytes to_le_bytes list_to_set Z.land].
  unfold constraint_field_upd at 1. rewrite foldl_snoc_acc.
  rewrite Hu. by rewrite <- !app_assoc.
Qed.

Lemma row_inverse :
  step_inverse id (λ r x, (r, x)) encode_row decode_row (λ x row, x ++ [row])
    (λ _ _, True) (λ _, True).
Proof.
  intros row p p' _ H. unfold encode_row in H. apply push_bytes_ok in H as (-> & ? & ?).
  exists (enc_bytes row). split_and!; [done| |done].
  intros pre post rows _ Hfit. unfold decode_row. by rewrite reader_data_rd.
Qed.

Lemma foldl_snoc {A} (l acc : list A) : foldl (λ x a, x ++ [a]) acc l = acc ++ l.
Proof.
  revert acc; induction l as [|a l IH]; intros acc; simpl; [by rewrite app_nil_r|].
  by rewrite IH, <- app_assoc.
Qed.

Lemma field_upd_fields l acc names pc :
  (foldl field_upd (acc, names, pc) l).1.1 = acc ++ l.
Proof.
  revert acc names pc; induction l as [|a l IH]; intros; simpl; [by rewrite app_nil_r|].
  by rewrite IH, <- app_assoc.
Qed.

Definition table_upd (x : list Table * gset string) (t : Table) :=
  (x.1 ++ [t], {[table_name t]} ∪ x.2).

Lemma constraints_inverse sc t p p' :
  Forall constraint_valid (table_constraints t) → zlen (table_constraints t) <= MAX_FIELDS →
  encode_constraints sc t p = Ok p' →
  ∃ e, p' = p ++ e ∧ ∀ pre post, fits (pre ++ e ++ post) →
    decode_constraints sc (table_fields t) (rd pre (e ++ post))
    = Ok (rd (pre ++ e) post, table_constraints t).
Proof.
  intros Hval Hlen. unfold encode_constraints, decode_constraints. destruct sc; intros H; inv_ok H.
  - injection H as <-. apply push_u32_ok in Hv as [-> ?].
    eapply loop_inverse in Hv0 as (e & Hp & Hloop & _); [|apply constraint_inverse|done].
    cbn [fst] in Hp. subst_lhs Hp.
    exists (to_le_bytes 4 (zlen (table_constraints t)) ++ e). rewrite <- !app_assoc. split; [done|].
    intros pre post Hf. rewrite <- !app_assoc in *.
    rewrite reader_u32_rd by done. cbn -[to_le_bytes].
    unfold bail_if. destruct (_ >? _) eqn:E; [reflect_bools; lia|]. cbn -[to_le_bytes].
    pose proof (λ a b, Hloop a b ([], ∅) eq_refl) as Hl. cbn [fst snd] in Hl.
    unfold zlen in *. rewrite Nat2Z.id. rewrite Hl by (rewrite <- !app_assoc; done).
    cbn -[to_le_bytes]. unfold constraint_upd at 1. rewrite foldl_snoc_acc.
    by rewrite <- !app_assoc.
  - injection H as <-. apply bail_if_ok in Hv. reflect_bools.
    destruct (table_constraints t); [|rewrite zlen_cons in Hv; pose proof (zlen_nonneg l); lia].
    exists []. rewrite app_nil_r. split; [done|]. intros. by rewrite app_nil_r.
Qed.

Lemma table_inverse allowed sc :
  step_inverse fst (λ r x, (r, x.1, x.2))
    (encode_table sc) (decode_table allowed sc) table_upd
    (λ st x, st.2 = x.2) (table_valid allowed).
Proof.
  intros [tn fs cs rows] [p seen] se' (Htn & Hfs & Hcs & Hlen) H.
  cbn [table_name table_fields table_constraints table_rows] in *.
  unfold encode_table in H. cbn [table_name table_fields table_rows] in H. inv_ok H.
  injection H as <-.
  apply bail_if_ok in Hv, Hv1, Hv4, Hv5, Hv9.
  apply push_bytes_ok in Hv0 as (-> & ? & ?). apply push_u32_ok in Hv2 as (-> & ?).
  eapply loop_inverse in Hv3 as (ef & Hpf & Hlf & Hrf); [|apply field_inverse|done].
  cbn [fst] in Hpf. subst_lhs Hpf. destruct (Hrf ([], ∅, 0)) as [_ Hpc]; [done|].
  cbn [fst snd] in Hpc.
  apply constraints_inverse in Hv6 as (ec & -> & Hlc); [|done..].
  apply push_u64_ok in Hv7 as (-> & ?).
  eapply loop_inverse in Hv8 as (er & Hpr & Hlr & _);
    [|apply row_inverse|by apply Forall_true]. cbn [id] in Hpr.
  subst_lhs Hpr.
  exists (enc_bytes (as_bytes tn) ++ to_le_bytes 4 (zlen fs) ++ ef ++ ec
          ++ to_le_bytes 8 (zlen rows) ++ er).
  rewrite <- !app_assoc. split_and!; [done| |].
  2: { intros [ts seen'] Hr. simpl in *. by subst. }
  intros pre post [ts seen'] Hr Hfit. cbn [fst snd] in *. subst seen'.
  unfold decode_table. rewrite <- !app_assoc in *.
  rewrite reader_text_rd by done. cbn -[enc_bytes to_le_bytes]. rewrite Hv.
  cbn -[enc_bytes to_le_bytes].
  rewrite reader_u32_rd; [|lia|by rewrite <- !app_assoc]. cbn -[enc_bytes to_le_bytes].
  rewrite Hv1. cbn -[enc_bytes to_le_bytes].
  pose proof (λ a b, Hlf a b ([], ∅, 0) (conj eq_refl eq_refl)) as Hl. cbn [fst snd] in Hl.
  replace (Z.to_nat (zlen fs)) with (length fs) by (unfold zlen; lia).
  rewrite Hl by (rewrite <- !app_assoc; done). cbn -[enc_bytes to_le_bytes].
  rewrite <- Hpc, Hv4, field_upd_fields. cbn -[enc_bytes to_le_bytes].
  rewrite Hlc by (rewrite <- !app_assoc; done). cbn -[enc_bytes to_le_bytes].
  rewrite reader_u64_rd; [|lia|by rewrite <- !app_assoc]. cbn -[enc_bytes to_le_bytes].
  rewrite Hv5. cbn -[enc_bytes to_le_bytes].
  replace (Z.to_nat (zlen rows)) with (length rows) by (unfold zlen; lia).
  rewrite Hlr; [|done|by rewrite <- !app_assoc]. cbn -[enc_bytes to_le_bytes].
  rewrite foldl_snoc. by rewrite <- !app_assoc.
Qed.

(** ** The payload round trip *)

Lemma sort_tables_perm l : sort_tables l ≡ₚ l.
Proof.
  induction l as [|t l IH]; [done|]. simpl.
  assert (∀ t l, insert_table t l ≡ₚ t :: l) as Hins.
  { clear. intros t l. induction l as [|u l IH]; [done|]. simpl.
    destruct (String.leb _ _); [done|]. rewrite IH. constructor. }
  rewrite Hins. by rewrite IH.
Qed.

Definition canonical (s : Snapshot) : Snapshot := mkSnapshot (sort_tables (tables s)).

Lemma zlen_sort_tables l : zlen (sort_tables l) = zlen l.
Proof. unfold zlen. by rewrite (Permutation_length (sort_tables_perm l)). Qed.

(** Every payload that was produced fits a data file. *)
Lemma encode_payload_bound s sc p :
  encode_payload_with_constraints s sc = Ok p → zlen p <= MAX_FILE_BYTES - PAGE_SIZE.
Proof.
  unfold encode_payload_with_constraints. intros H. inv_ok H.
  injection H as ->. apply push_u32_ok in Hv0 as [-> _].
  eapply (for_each_inv (λ st, zlen st.1 <= MAX_FILE_BYTES - PAGE_SIZE)) in Hv1; [done| |].
  - intros [q n] t st' _ _ Ht. unfold encode_table in Ht. inv_ok Ht.
    injection Ht as <-. simpl. by reflect_bools.
  - vm_compute. congruence.
Qed.

Lemma payload_round_trip s allowed sc p :
  snapshot_valid allowed s → encode_payload_with_constraints s sc = Ok p →
  decode_payload p allowed sc = Ok (canonical s).
Proof.
  intros Hval H. pose proof (encode_payload_bound _ _ _ H) as Hb.
  unfold encode_payload_with_constraints in H. inv_ok H. injection H as ->.
  apply bail_if_ok in Hv. rewrite zlen_sort_tables in Hv0.
  apply push_u32_ok in Hv0 as [-> ?].
  eapply loop_inverse in Hv1 as (e & Hp & Hl & _); [|apply (table_inverse allowed)|].
  2: { unfold snapshot_valid in Hval. by rewrite sort_tables_perm. }
  cbn [fst] in Hp. subst_lhs Hp. unfold decode_payload.
  assert (fits (to_le_bytes 4 (zlen (tables s)) ++ e ++ [])) as Hf.
  { unfold fits. rewrite app_nil_r. etransitivity; [exact Hb|]. vm_compute. congruence. }
  change (mkReader (([] ++ to_le_bytes 4 (zlen (tables s))) ++ e) 0)
    with (rd [] (to_le_bytes 4 (zlen (tables s)) ++ e)).
  rewrite <- (app_nil_r e). rewrite reader_u32_rd by done. cbn -[to_le_bytes].
  rewrite Hv. cbn -[to_le_bytes].
  replace (Z.to_nat (zlen (tables s))) with (length (sort_tables (tables s)))
    by (rewrite (Permutation_length (sort_tables_perm _)); unfold zlen; lia).
  pose proof (λ a b, Hl a b ([], ∅) eq_refl) as Hl'. cbn [fst snd] in Hl'.
  rewrite Hl' by done. cbn -[to_le_bytes].
  rewrite app_nil_r, Z.eqb_refl. simpl. unfold table_upd. by rewrite foldl_snoc_acc.
Qed.

(** ** The payload decoder never panics *)

Definition reader_ok (r : Reader) : Prop := 0 <= reader_at r.

Lemma reader_take_safe r n ctx : reader_ok r → 0 <= n →
  safe (reader_take r n ctx) (λ x, reader_ok x.2 ∧ zlen x.1 = n).
Proof.
  unfold reader_ok. intros Hr Hn. unfold reader_take. safe_step.
  unfold checked_add in Hq. destruct (try_from _ _) as [e|] eqn:Hc; [|done]. simpl in *.
  apply try_from_some in Hc as [<- ?]. destruct (_ <=? zlen _) eqn:Hle; [|done].
  injection Hq as <-. reflect_bools. rewrite slice_ok by lia. simpl.
  split; [lia|]. rewrite zlen_sub_list; lia.
Qed.
#[local] Hint Resolve reader_take_safe : disp.

Lemma reader_u8_safe r ctx : reader_ok r → safe (reader_u8 r ctx) (λ x, reader_ok x.2).
Proof.
  intros Hr. unfold reader_u8. eapply safe_bind; [by apply reader_take_safe|].
  intros [[|b bs] r'] _ [H1 H2]; [done|]. exact H1.
Qed.

Lemma reader_u32_safe r ctx :
  reader_ok r → safe (reader_u32 r ctx) (λ x, reader_ok x.2 ∧ 0 <= x.1).
Proof.
  intros Hr. unfold reader_u32. eapply safe_bind; [by apply reader_take_safe|].
  intros [bs r'] _ [H1 _]. split; [done|]. apply from_le_bytes_range.
Qed.

Lemma reader_u64_safe r ctx :
  reader_ok r → safe (reader_u64 r ctx) (λ x, reader_ok x.2 ∧ 0 <= x.1).
Proof.
  intros Hr. unfold reader_u64. eapply safe_bind; [by apply reader_take_safe|].
  intros [bs r'] _ [H1 _]. safe_steps. apply try_from_some in Hq as [<- ?]. split; simpl; [done|lia].
Qed.
#[local] Hint Resolve reader_u8_safe reader_u32_safe reader_u64_safe : disp.

Lemma reader_text_safe r limit ctx :
  reader_ok r → safe (reader_text r limit ctx) (λ x, reader_ok x.2 ∧ text_valid x.1).
Proof.
  intros Hr. unfold reader_text. safe_steps. split; [done|].
  by apply from_utf8_some in Hq0 as [_ ?].
Qed.

Lemma reader_data_safe r limit ctx :
  reader_ok r → safe (reader_data r limit ctx) (λ x, reader_ok x.2).
Proof.
  intros Hr. unfold reader_data. safe_steps.
  eapply safe_mono; [by apply reader_take_safe|]. by intros ? [? _].
Qed.
#[local] Hint Resolve reader_text_safe reader_data_safe : disp.

(** The loops of the decoder keep the reader in range. *)
Lemma decode_field_safe allowed st :
  reader_ok st.1.1.1 → safe (decode_field allowed st) (λ st', reader_ok st'.1.1.1).
Proof.
  destruct st as [[[r fs] ns] pc]. simpl. intros Hr. unfold decode_field.
  by safe_steps.
Qed.

Lemma decode_constraint_field_safe names st :
  reader_ok st.1.1 → safe (decode_constraint_field names st) (λ st', reader_ok st'.1.1).
Proof.
  destruct st as [[r fs] ns]. simpl. intros Hr. unfold decode_constraint_field.
  by safe_steps.
Qed.

Lemma decode_constraint_safe fields st :
  reader_ok st.1.1 → safe (decode_constraint fields st) (λ st', reader_ok st'.1.1).
Proof.
  destruct st as [[r cs] ns]. simpl. intros Hr. unfold decode_constraint.
  safe_steps. eapply safe_bind.
  { apply (safe_repeat_n (λ st, reader_ok st.1.1)); [|done]. apply decode_constraint_field_safe. }
  intros [[r' fs'] ns'] _ Hr'. exact Hr'.
Qed.

Lemma decode_constraints_safe sc fields r :
  reader_ok r → safe (decode_constraints sc fields r) (λ x, reader_ok x.1).
Proof.
  intros Hr. unfold decode_constraints. eapply (safe_bind _ _ (λ x, reader_ok x.2)).
  { destruct sc; [|exact Hr]. eapply safe_mono; [by apply reader_u32_safe|]. by intros ? [? _]. }
  intros [n r1] _ Hr1. simpl in Hr1. safe_step. eapply safe_bind.
  { apply (safe_repeat_n (λ st, reader_ok st.1.1)); [|done]. apply decode_constraint_safe. }
  intros [[r' fs'] ns'] _ Hr'. exact Hr'.
Qed.

Lemma decode_row_safe st : reader_ok st.1 → safe (decode_row st) (λ st', reader_ok st'.1).
Proof. destruct st as [r rows]. simpl. intros Hr. unfold decode_row. by safe_steps. Qed.

Lemma decode_table_safe allowed sc st :
  reader_ok st.1.1 → safe (decode_table allowed sc st) (λ st', reader_ok st'.1.1).
Proof.
  destruct st as [[r ts] ns]. simpl. intros Hr. unfold decode_table.
  safe_steps. eapply safe_bind.
  { apply (safe_repeat_n (λ st, reader_ok st.1.1.1)); [|done]. apply decode_field_safe. }
  intros [[[r' fs'] ns'] pc'] _ Hr'. simpl in Hr'. safe_steps.
  eapply safe_bind; [by apply decode_constraints_safe|]. intros [r2 cs] _ Hr3.
  safe_steps. eapply safe_bind.
  { apply (safe_repeat_n (λ st, reader_ok st.1)); [|done]. apply decode_row_safe. }
  intros [r3 rows] _ Hr5. exact Hr5.
Qed.

Lemma decode_payload_no_panic p allowed sc : decode_payload p allowed sc ≠ Panic.
Proof.
  eapply (safe_no_panic _ (λ _, True)). unfold decode_payload.
  assert (reader_ok (mkReader p 0)) as Hr by (unfold reader_ok; simpl; lia).
  safe_steps. eapply safe_bind.
  { apply (safe_repeat_n (λ st, reader_ok st.1.1)); [|done]. apply decode_table_safe. }
  intros [[r ts] ns] _ _. by safe_steps.
Qed.
