(* ===== verification/DataPages.v ===== *)
(** * The page image: round trip and safety

    [encode_pages_version] writes a header page and a chain of data pages;
    [decode] reads every such image back, and never panics on any input. *)

From S2P Require Import Prelude Machine DataFormat DataCodec.
#[local] Open Scope list_scope.
#[local] Open Scope Z_scope.

(** ** The image as a concatenation of pages *)

Definition header_fields (generation version : Z) (payload : list byte) (page_count : Z)
    : list byte :=
  MAGIC ++ to_le_bytes 4 version ++ to_le_bytes 4 PAGE_SIZE ++ to_le_bytes 8 generation
  ++ to_le_bytes 8 (zlen payload) ++ to_le_bytes 8 page_count
  ++ to_le_bytes 8 (fnv1a payload) ++ to_le_bytes 8 0.

Definition header_page (generation version : Z) (payload : list byte) (page_count : Z)
    : list byte :=
  let h := header_fields generation version payload page_count in
  h ++ to_le_bytes 8 (fnv1a h) ++ zeros (PAGE_SIZE - 64).

(** The payload segment of data page [page]. *)
Definition page_data (payload : list byte) (page : Z) : list byte :=
  sub_list payload (page * PAGE_PAYLOAD_SIZE)
    (Z.min (page * PAGE_PAYLOAD_SIZE + PAGE_PAYLOAD_SIZE) (zlen payload)).

Definition data_page (payload : list byte) (data_pages page : Z) : list byte :=
  let data := page_data payload page in
  [byte_of_Z 1] ++ zeros 3 ++ to_le_bytes 4 (page + 1) ++ to_le_bytes 4 (zlen data)
  ++ to_le_bytes 4 (if page + 1 =? data_pages then 0 else page + 2)
  ++ to_le_bytes 8 (fnv1a data) ++ zeros 8 ++ data ++ zeros (PAGE_PAYLOAD_SIZE - zlen data).

Arguments header_page : simpl never.
Arguments data_page : simpl never.

Definition page_total (payload : list byte) : Z :=
  Z.max (div_ceil (zlen payload) PAGE_PAYLOAD_SIZE) 1.

Definition image (generation version : Z) (payload : list byte) : list byte :=
  let n := page_total payload in
  header_page generation version payload (n + 1)
  ++ concat (map (data_page payload n) (range n)).

Ltac run :=
  cbn [negb andb orb ok_or]; repeat first [rewrite bind_Ok; cbv beta | rewrite bail_if_false].

(** ** Sizes *)

Lemma MAX_PAGES_eq : MAX_PAGES = 16384.
Proof. done. Qed.
Lemma USIZE_MAX_eq : USIZE_MAX = 18446744073709551615.
Proof. done. Qed.

Lemma zlen_MAGIC : zlen MAGIC = 8.
Proof. done. Qed.
#[local] Hint Rewrite zlen_MAGIC : zlen.

Ltac zl := autorewrite with zlen; rewrite ?zlen_zeros by (unfold PAGE_SIZE in *; lia).

Lemma zlen_header_fields g v p n : zlen (header_fields g v p n) = 56.
Proof. unfold header_fields. zl. lia. Qed.

Lemma zlen_header_page g v p n : zlen (header_page g v p n) = PAGE_SIZE.
Proof.
  unfold header_page. autorewrite with zlen. rewrite zlen_header_fields.
  rewrite zlen_zeros by (unfold PAGE_SIZE; lia). unfold PAGE_SIZE. lia.
Qed.

Lemma page_data_size payload page :
  0 <= page → page * PAGE_PAYLOAD_SIZE <= zlen payload →
  zlen (page_data payload page) = Z.min PAGE_PAYLOAD_SIZE (zlen payload - page * PAGE_PAYLOAD_SIZE).
Proof.
  intros. unfold page_data. unfold PAGE_PAYLOAD_SIZE, PAGE_SIZE, PAGE_HEADER_SIZE in *.
  rewrite zlen_sub_list; lia.
Qed.

Lemma zlen_data_page payload n page :
  0 <= page → page * PAGE_PAYLOAD_SIZE <= zlen payload →
  zlen (data_page payload n page) = PAGE_SIZE.
Proof.
  intros H1 H2. unfold data_page. pose proof (page_data_size payload page H1 H2) as Hs.
  pose proof (zlen_nonneg (page_data payload page)).
  autorewrite with zlen. rewrite !zlen_zeros by lia.
  unfold PAGE_PAYLOAD_SIZE, PAGE_SIZE, PAGE_HEADER_SIZE in *. lia.
Qed.

Lemma page_total_bounds payload page :
  0 <= page < page_total payload → page * PAGE_PAYLOAD_SIZE <= zlen payload.
Proof.
  unfold page_total, div_ceil, PAGE_PAYLOAD_SIZE, PAGE_SIZE, PAGE_HEADER_SIZE.
  pose proof (zlen_nonneg payload). intros.
  pose proof (Z.div_mod (zlen payload + (4096 - 32) - 1) (4096 - 32)).
  pose proof (Z.mod_pos_bound (zlen payload + (4096 - 32) - 1) (4096 - 32)). lia.
Qed.

Lemma page_total_covers payload : zlen payload <= page_total payload * PAGE_PAYLOAD_SIZE.
Proof.
  unfold page_total, div_ceil, PAGE_PAYLOAD_SIZE, PAGE_SIZE, PAGE_HEADER_SIZE.
  pose proof (zlen_nonneg payload).
  pose proof (Z.div_mod (zlen payload + (4096 - 32) - 1) (4096 - 32)).
  pose proof (Z.mod_pos_bound (zlen payload + (4096 - 32) - 1) (4096 - 32)). lia.
Qed.

Lemma page_total_pos payload : 1 <= page_total payload.
Proof. unfold page_total. lia. Qed.

Lemma elem_of_range n i : i ∈ range n ↔ 0 <= i < n.
Proof.
  unfold range. rewrite list_elem_of_fmap. setoid_rewrite elem_of_seq. split.
  - intros (k & -> & ?). lia.
  - intros. exists (Z.to_nat i). lia.
Qed.

Lemma range_S n : 0 <= n → range (n + 1) = range n ++ [n].
Proof.
  intros. unfold range. rewrite Z2Nat.inj_add by lia.
  change (Z.to_nat 1) with 1%nat. rewrite seq_app, map_app. simpl.
  f_equal. f_equal. lia.
Qed.

(** ** The encoder builds the image *)

(** Discharge the side conditions of an overwrite. *)
Tactic Notation "overwrite" uconstr(lem) :=
  rewrite lem by (rewrite <- ?app_assoc; first [reflexivity | zl; lia]);
  cbn [mbind outcome_bind]; rewrite <- ?app_assoc.

(** One overwrite of a segment, with the surrounding segments given. *)
Lemma copy_at {A} (out l1 l2 l3 src : list A) a b :
  out = l1 ++ l2 ++ l3 → a = zlen l1 → b = a + zlen l2 → zlen src = zlen l2 →
  @copy_into io_error A out a b src = Ok (l1 ++ src ++ l3).
Proof. intros ->. apply copy_into_ok. Qed.

Lemma copy_le_at n v (out l1 l2 l3 : list byte) a :
  out = l1 ++ l2 ++ l3 → a = zlen l1 → zlen l2 = Z.of_nat n →
  copy_le n out a v = Ok (l1 ++ to_le_bytes n v ++ l3).
Proof.
  intros -> -> H. unfold copy_le. apply copy_at with (l2 := l2); [done|done|lia|].
  by rewrite zlen_to_le_bytes.
Qed.

Lemma write_data_page_ok payload n page A B :
  0 <= page → page * PAGE_PAYLOAD_SIZE <= zlen payload → zlen A = (page + 1) * PAGE_SIZE →
  write_data_page payload n (A ++ zeros PAGE_SIZE ++ B) page
  = Ok (A ++ data_page payload n page ++ B).
Proof.
  intros Hp Hb HA. unfold write_data_page.
  pose proof (page_data_size payload page Hp Hb) as Hs.
  rewrite slice_ok by (unfold PAGE_PAYLOAD_SIZE, PAGE_SIZE, PAGE_HEADER_SIZE in *; lia).
  cbn [mbind outcome_bind]. fold (page_data payload page). unfold data_page.
  set (data := page_data payload page) in *. set (d := zlen data) in *.
  assert (0 <= d <= PAGE_PAYLOAD_SIZE) as Hd.
  { pose proof (zlen_nonneg data). unfold PAGE_PAYLOAD_SIZE, PAGE_SIZE, PAGE_HEADER_SIZE in *. lia. }
  assert (zeros PAGE_SIZE = zeros 1 ++ zeros 3 ++ zeros 4 ++ zeros 4 ++ zeros 4 ++ zeros 8
            ++ zeros 8 ++ zeros d ++ zeros (PAGE_PAYLOAD_SIZE - d)) as ->.
  { unfold PAGE_PAYLOAD_SIZE, PAGE_SIZE, PAGE_HEADER_SIZE in *.
    rewrite <- !zeros_add by lia. f_equal. lia. }
  rewrite <- !app_assoc.
  overwrite (copy_at _ A (zeros 1) _).
  overwrite (copy_le_at 4 (page + 1) _ (A ++ [byte_of_Z 1] ++ zeros 3) (zeros 4) _).
  overwrite (copy_le_at 4 d _ (A ++ [byte_of_Z 1] ++ zeros 3 ++ to_le_bytes 4 (page + 1)) (zeros 4) _).
  set (next := if page + 1 =? n then 0 else page + 2).
  overwrite (copy_le_at 4 next _ (A ++ [byte_of_Z 1] ++ zeros 3 ++ to_le_bytes 4 (page + 1)
    ++ to_le_bytes 4 d) (zeros 4) _).
  overwrite (copy_le_at 8 (fnv1a data) _ (A ++ [byte_of_Z 1] ++ zeros 3
    ++ to_le_bytes 4 (page + 1) ++ to_le_bytes 4 d ++ to_le_bytes 4 next) (zeros 8) _).
  rewrite (copy_at _ (A ++ [byte_of_Z 1] ++ zeros 3 ++ to_le_bytes 4 (page + 1)
    ++ to_le_bytes 4 d ++ to_le_bytes 4 next ++ to_le_bytes 8 (fnv1a data) ++ zeros 8) (zeros d)
    (zeros (PAGE_PAYLOAD_SIZE - d) ++ B)).
  - by rewrite <- !app_assoc.
  - by rewrite <- !app_assoc.
  - zl. unfold PAGE_HEADER_SIZE. lia.
  - zl. unfold PAGE_HEADER_SIZE. lia.
  - zl. done.
Qed.

Lemma zlen_data_pages payload n k :
  0 <= k <= page_total payload →
  zlen (concat (map (data_page payload n) (range k))) = k * PAGE_SIZE.
Proof.
  intros Hk. assert (∀ l, (∀ i, i ∈ l → 0 <= i < k) →
    zlen (concat (map (data_page payload n) l)) = zlen l * PAGE_SIZE) as Hc.
  { induction l as [|i l IH]; intros Hl; [done|]. cbn [map concat].
    assert (0 <= i < k) by (apply Hl; by left).
    rewrite zlen_app, zlen_cons, IH by (intros j Hj; apply Hl; by right).
    rewrite zlen_data_page; [lia|lia|]. apply page_total_bounds. lia. }
  rewrite Hc by (intros i Hi%elem_of_range; lia).
  unfold range, zlen. by rewrite length_map, length_seq, Z2Nat.id by lia.
Qed.

Lemma write_data_pages_ok payload n k A :
  n = page_total payload → 0 <= k <= n → zlen A = PAGE_SIZE →
  for_each (write_data_page payload n) (range k) (A ++ zeros (n * PAGE_SIZE))
  = Ok (A ++ concat (map (data_page payload n) (range k)) ++ zeros ((n - k) * PAGE_SIZE)).
Proof.
  intros Hn [Hk0 Hk] HA. revert Hk. pattern k. revert k Hk0.
  apply natlike_ind; [intros; by rewrite Z.sub_0_r|].
  intros k Hk0 IH Hk. unfold Z.succ. rewrite range_S, for_each_app, IH by lia.
  cbn [mbind outcome_bind for_each]. rewrite map_app, concat_app. simpl.
  replace ((n - k) * PAGE_SIZE) with (PAGE_SIZE + (n - (k + 1)) * PAGE_SIZE) by lia.
  rewrite zeros_add by (unfold PAGE_SIZE; lia). rewrite !app_assoc.
  rewrite <- (app_assoc _ (zeros PAGE_SIZE)).
  assert (k * PAGE_PAYLOAD_SIZE <= zlen payload) by (apply page_total_bounds; lia).
  rewrite write_data_page_ok; [|done..|].
  - cbn [mbind outcome_bind]. by rewrite app_nil_r, <- !app_assoc.
  - rewrite zlen_app, HA, zlen_data_pages by lia. lia.
Qed.

(** The encoder's output is the image of the payload, unless it needs too many
    pages. *)
Lemma encode_pages_version_image s g v sc payload :
  encode_payload_with_constraints s sc = Ok payload →
  page_total payload + 1 <= MAX_PAGES →
  encode_pages_version s g v sc = Ok (image g v payload).
Proof.
  intros Hp Hmax. unfold encode_pages_version. rewrite Hp. cbn [mbind outcome_bind].
  fold (page_total payload). pose proof (page_total_pos payload) as Hpos.
  set (n := page_total payload) in *. unfold checked_add.
  rewrite try_from_in by (rewrite MAX_PAGES_eq in *; rewrite USIZE_MAX_eq; lia).
  cbn [mbind option_bind]. rewrite (proj2 (Z.leb_le _ _)) by done. cbn [ok_or mbind outcome_bind].
  assert (zeros ((n + 1) * PAGE_SIZE) = zeros 8 ++ zeros 4 ++ zeros 4 ++ zeros 8 ++ zeros 8
    ++ zeros 8 ++ zeros 8 ++ zeros 8 ++ zeros 8 ++ zeros (PAGE_SIZE - 64)
    ++ zeros (n * PAGE_SIZE)) as ->.
  { unfold PAGE_SIZE. rewrite <- !zeros_add by lia. f_equal. lia. }
  overwrite (copy_at _ [] (zeros 8) _).
  overwrite (copy_le_at 4 v _ MAGIC (zeros 4) _).
  overwrite (copy_le_at 4 PAGE_SIZE _ (MAGIC ++ to_le_bytes 4 v) (zeros 4) _).
  overwrite (copy_le_at 8 g _ (MAGIC ++ to_le_bytes 4 v ++ to_le_bytes 4 PAGE_SIZE) (zeros 8) _).
  overwrite (copy_le_at 8 (zlen payload) _ (MAGIC ++ to_le_bytes 4 v ++ to_le_bytes 4 PAGE_SIZE
    ++ to_le_bytes 8 g) (zeros 8) _).
  overwrite (copy_le_at 8 (n + 1) _ (MAGIC ++ to_le_bytes 4 v ++ to_le_bytes 4 PAGE_SIZE
    ++ to_le_bytes 8 g ++ to_le_bytes 8 (zlen payload)) (zeros 8) _).
  overwrite (copy_le_at 8 (fnv1a payload) _ (MAGIC ++ to_le_bytes 4 v ++ to_le_bytes 4 PAGE_SIZE
    ++ to_le_bytes 8 g ++ to_le_bytes 8 (zlen payload) ++ to_le_bytes 8 (n + 1)) (zeros 8) _).
  overwrite (copy_le_at 8 0 _ (MAGIC ++ to_le_bytes 4 v ++ to_le_bytes 4 PAGE_SIZE
    ++ to_le_bytes 8 g ++ to_le_bytes 8 (zlen payload) ++ to_le_bytes 8 (n + 1)
    ++ to_le_bytes 8 (fnv1a payload)) (zeros 8) _).
  set (rest := zeros 8 ++ zeros (PAGE_SIZE - 64) ++ zeros (n * PAGE_SIZE)).
  assert (MAGIC ++ to_le_bytes 4 v ++ to_le_bytes 4 PAGE_SIZE ++ to_le_bytes 8 g
    ++ to_le_bytes 8 (zlen payload) ++ to_le_bytes 8 (n + 1) ++ to_le_bytes 8 (fnv1a payload)
    ++ to_le_bytes 8 0 ++ rest = header_fields g v payload (n + 1) ++ rest) as ->
    by (unfold header_fields; by rewrite <- !app_assoc).
  pose proof (zlen_header_fields g v payload (n + 1)) as Hh. pose proof (zlen_nonneg rest).
  rewrite slice_ok by (rewrite ?zlen_app; lia). cbn [mbind outcome_bind].
  rewrite sub_list_head by done. subst rest.
  overwrite (copy_le_at 8 (fnv1a (header_fields g v payload (n + 1))) _
    (header_fields g v payload (n + 1)) (zeros 8) _).
  pose proof (write_data_pages_ok payload n n (header_page g v payload (n + 1)) eq_refl) as Hw.
  unfold header_page in Hw. rewrite <- !app_assoc in Hw. rewrite Hw; [|lia|].
  - rewrite Z.sub_diag, Z.mul_0_l. unfold image, header_page. fold n.
    by rewrite <- !app_assoc, app_nil_r.
  - apply (zlen_header_page g v payload (n + 1)).
Qed.

(** ** The decoder reads the image back *)

Lemma fnv1a_range bs : 0 <= fnv1a bs < 2 ^ 64.
Proof.
  unfold fnv1a. set (h := 0xcbf29ce484222325). assert (0 <= h < 2 ^ 64) as Hh by (subst h; lia).
  clearbody h. revert h Hh. induction bs as [|b bs IH]; intros h Hh; simpl; [done|].
  apply IH. apply Z.mod_pos_bound. lia.
Qed.

Lemma u64_round z : 0 <= z < 2 ^ 64 → from_le_bytes (to_le_bytes 8 z) = z.
Proof. intros. apply from_to_le_bytes. exact H. Qed.
Lemma u32_round z : 0 <= z < 2 ^ 32 → from_le_bytes (to_le_bytes 4 z) = z.
Proof. intros. apply from_to_le_bytes. exact H. Qed.

(** A range read inside a known segment. *)
Lemma slice_in {E A} (l l1 x l3 : list A) a b a' b' :
  l = l1 ++ x ++ l3 → a' = zlen l1 + a → b' = zlen l1 + b → 0 <= a <= b → b <= zlen x →
  @slice E A l a' b' = Ok (sub_list x a b).
Proof.
  intros -> -> -> Hab Hb. pose proof (zlen_nonneg l1). pose proof (zlen_nonneg l3).
  rewrite slice_ok by (rewrite ?zlen_app; lia). f_equal.
  rewrite (sub_list_skip _ _ _ _ (zlen l1)) by lia.
  rewrite sub_list_app_l by lia. f_equal; lia.
Qed.

Lemma sub_list_first {A} (l1 l2 : list A) a b :
  a = 0 → b = zlen l1 → sub_list (l1 ++ l2) a b = l1.
Proof. intros ->. apply sub_list_head. Qed.

Lemma sub_list_whole {A} (l : list A) a b : a = 0 → b = zlen l → sub_list l a b = l.
Proof. intros ->. apply sub_list_all. Qed.

(** Compute a sub-list of a right-nested concatenation of segments of known size. *)
Ltac sub_seg :=
  repeat first
    [ rewrite sub_list_first by (zl; lia)
    | rewrite (sub_list_skip _ _ _ _ _ eq_refl) by (zl; lia); autorewrite with zlen;
      rewrite ?zlen_zeros by lia ].

Lemma any_nonzero_zeros n : any_nonzero (zeros n) = false.
Proof. unfold any_nonzero, zeros. induction (Z.to_nat n); done. Qed.

Lemma ztake_page payload page :
  0 <= page → page * PAGE_PAYLOAD_SIZE <= zlen payload →
  ztake (page * PAGE_PAYLOAD_SIZE) payload ++ page_data payload page
  = ztake ((page + 1) * PAGE_PAYLOAD_SIZE) payload.
Proof.
  intros Hp Hb. unfold page_data, sub_list.
  set (m := page * PAGE_PAYLOAD_SIZE) in *.
  assert (0 <= m) by (unfold m, PAGE_PAYLOAD_SIZE, PAGE_SIZE, PAGE_HEADER_SIZE; lia).
  replace ((page + 1) * PAGE_PAYLOAD_SIZE) with (m + PAGE_PAYLOAD_SIZE) by lia.
  assert (0 <= PAGE_PAYLOAD_SIZE) by done.
  unfold ztake, zdrop, zlen in *. rewrite take_take_drop.
  destruct (decide (m + PAGE_PAYLOAD_SIZE <= Z.of_nat (length payload))).
  - f_equal. lia.
  - rewrite !take_ge; [done|lia..].
Qed.

(** Where the fields of a data page lie. *)
Lemma data_page_fields payload n page :
  0 <= page → page * PAGE_PAYLOAD_SIZE <= zlen payload →
  let data := page_data payload page in let p := data_page payload n page in
  p !! 0%nat = Some (byte_of_Z 1) ∧ sub_list p 1 4 = [x00; x00; x00] ∧
  sub_list p 4 8 = to_le_bytes 4 (page + 1) ∧
  sub_list p 8 12 = to_le_bytes 4 (zlen data) ∧
  sub_list p 12 16 = to_le_bytes 4 (if page + 1 =? n then 0 else page + 2) ∧
  sub_list p 16 24 = to_le_bytes 8 (fnv1a data) ∧
  sub_list p 24 32 = zeros 8 ∧
  sub_list p 32 (32 + zlen data) = data ∧
  sub_list p (32 + zlen data) PAGE_SIZE = zeros (PAGE_PAYLOAD_SIZE - zlen data).
Proof.
  intros Hp Hb data p. pose proof (page_data_size payload page Hp Hb) as Hs. fold data in Hs.
  assert (0 <= zlen data <= 4064) as Hd.
  { pose proof (zlen_nonneg data). unfold PAGE_PAYLOAD_SIZE, PAGE_SIZE, PAGE_HEADER_SIZE in *. lia. }
  subst p. unfold data_page. fold data. split; [done|].
  change ([x00; x00; x00]) with (zeros 3).
  split_and!; sub_seg; [done..|].
  apply sub_list_whole; rewrite ?zlen_zeros;
    unfold PAGE_PAYLOAD_SIZE, PAGE_SIZE, PAGE_HEADER_SIZE; lia.
Qed.

Lemma decode_page_ok bytes A B payload n page :
  bytes = A ++ data_page payload n (page - 1) ++ B → zlen A = page * PAGE_SIZE →
  n = page_total payload → 1 <= page <= n → n < MAX_PAGES →
  decode_page bytes (zlen payload) (n + 1) (ztake ((page - 1) * PAGE_PAYLOAD_SIZE) payload) page
  = Ok (ztake (page * PAGE_PAYLOAD_SIZE) payload).
Proof.
  intros Hb HA Hn Hp Hmax. rewrite MAX_PAGES_eq in Hmax.
  assert ((page - 1) * PAGE_PAYLOAD_SIZE <= zlen payload) as Hle by (apply page_total_bounds; lia).
  assert (0 <= page - 1) as Hp0 by lia.
  pose proof (page_data_size payload (page - 1) Hp0 Hle) as Hs.
  pose proof (zlen_data_page payload n (page - 1) Hp0 Hle) as Hz.
  destruct (data_page_fields payload n (page - 1) Hp0 Hle)
    as (F0 & F1 & F4 & F8 & F12 & F16 & F24 & F32 & FU).
  set (P := data_page payload n (page - 1)) in *. set (data := page_data payload (page - 1)) in *.
  assert (0 <= zlen data <= 4064) as Hd.
  { pose proof (zlen_nonneg data). unfold PAGE_PAYLOAD_SIZE, PAGE_SIZE, PAGE_HEADER_SIZE in *. lia. }
  assert (∀ a b s e, s = page * PAGE_SIZE + a → e = page * PAGE_SIZE + b → 0 <= a <= b →
    b <= PAGE_SIZE → @slice io_error _ bytes s e = Ok (sub_list P a b)) as Hsl.
  { intros a b s e -> -> H1 H2. apply (slice_in bytes A P B); lia || done. }
  assert (PAGE_SIZE = 4096) as HPS by done.
  unfold decode_page, read_u32, read_u64, index, PAGE_HEADER_SIZE.
  rewrite (proj2 (Z.leb_le _ _)) by (unfold PAGE_SIZE; lia).
  replace (bytes !! Z.to_nat (page * PAGE_SIZE)) with (Some (byte_of_Z 1)).
  2: { subst bytes. unfold zlen in HA. rewrite <- HA, Nat2Z.id.
       rewrite lookup_app_r, Nat.sub_diag by lia. rewrite lookup_app_l; [done|].
       unfold zlen, PAGE_SIZE in Hz. lia. }
  cbn [expect mbind outcome_bind]. rewrite Z_of_byte_of_Z. cbn [Z.modulo Z.eqb negb].
  change (negb (1 mod 256 =? 1)) with false. set (st := page * PAGE_SIZE) in *.
  rewrite (Hsl 1 4 (st + 1) (st + 4)), F1 by lia. cbn.
  rewrite (Hsl 4 8 (st + 4) (st + 4 + 4)), F4 by lia. cbn. rewrite Z.sub_add, u32_round, Z.eqb_refl by lia. cbn.
  rewrite (Hsl 8 12 (st + 8) (st + 8 + 4)), F8 by lia. cbn. rewrite u32_round by lia.
  assert (zlen (ztake ((page - 1) * PAGE_PAYLOAD_SIZE) payload) = (page - 1) * PAGE_PAYLOAD_SIZE)
    as Hacc.
  { apply zlen_ztake. split; [|done]. unfold PAGE_PAYLOAD_SIZE, PAGE_SIZE, PAGE_HEADER_SIZE. lia. }
  unfold unsigned_sub. rewrite Hacc, (proj2 (Z.leb_le _ _)) by done. cbn.
  rewrite Z.min_comm, <- Hs, Z.eqb_refl. cbn.
  rewrite (Hsl 12 16 (st + 12) (st + 12 + 4)), F12 by lia. cbn.
  replace (if page - 1 + 1 =? n then 0 else page - 1 + 2)
    with (if page + 1 =? n + 1 then 0 else page + 1)
    by (destruct (Z.eqb_spec (page + 1) (n + 1)), (Z.eqb_spec (page - 1 + 1) n); lia).
  rewrite u32_round, Z.eqb_refl by (destruct (Z.eqb_spec (page + 1) (n + 1)); lia). cbn.
  rewrite (Hsl 24 32 (st + 24) (st + 24 + 8)), F24 by lia. cbn.
  rewrite (Hsl 32 (32 + zlen data) (st + 32) (st + 32 + zlen data)), F32 by lia. cbn.
  rewrite (Hsl 16 24 (st + 16) (st + 16 + 8)), F16 by lia. cbn. rewrite u64_round, Z.eqb_refl by apply fnv1a_range. cbn.
  rewrite (Hsl (32 + zlen data) PAGE_SIZE (st + 32 + zlen data) (st + PAGE_SIZE)), FU by lia.
  cbn [mbind outcome_bind]. rewrite any_nonzero_zeros. cbn.
  rewrite ztake_page by done. by rewrite Z.sub_add.
Qed.

(** The data pages of an image, read in sequence, give the payload. *)
Lemma decode_page_loop bytes H payload n k :
  bytes = H ++ concat (map (data_page payload n) (range n)) → zlen H = PAGE_SIZE →
  n = page_total payload → 0 <= k <= n → n < MAX_PAGES →
  for_each (decode_page bytes (zlen payload) (n + 1)) (map (λ p, p + 1) (range k)) []
  = Ok (ztake (k * PAGE_PAYLOAD_SIZE) payload).
Proof.
  intros Hb HH Hn [Hk0 Hk] Hmax. revert Hk. pattern k. revert k Hk0.
  apply natlike_ind; [done|]. intros k Hk0 IH Hk. unfold Z.succ in *.
  rewrite range_S, map_app, for_each_app, IH by lia. cbn [mbind outcome_bind map for_each].
  assert (∃ l, range n = range k ++ k :: l) as [l Hl].
  { exists (map Z.of_nat (seq (S (Z.to_nat k)) (Z.to_nat n - S (Z.to_nat k)))).
    unfold range. rewrite <- (Z2Nat.id k) at 2 by done. rewrite <- map_cons, <- map_app. f_equal.
    replace (Z.to_nat n) with (Z.to_nat k + S (Z.to_nat n - S (Z.to_nat k)))%nat at 1 by lia.
    by rewrite seq_app. }
  rewrite Hl, map_app, concat_app in Hb. cbn [map concat] in Hb. rewrite app_assoc in Hb.
  assert (k + 1 - 1 = k) as Hk1 by lia.
  pose proof (decode_page_ok bytes (H ++ concat (map (data_page payload n) (range k)))
    (concat (map (data_page payload n) l)) payload n (k + 1)) as Hd.
  rewrite Hk1 in Hd. rewrite Hd; [done|done| |done|lia|done].
  rewrite zlen_app, HH, zlen_data_pages by lia. lia.
Qed.

(** Where the fields of the header page lie. *)
Lemma header_page_fields g v payload n :
  let h := header_page g v payload n in
  sub_list h 0 8 = MAGIC ∧ sub_list h 8 12 = to_le_bytes 4 v ∧
  sub_list h 12 16 = to_le_bytes 4 PAGE_SIZE ∧ sub_list h 16 24 = to_le_bytes 8 g ∧
  sub_list h 24 32 = to_le_bytes 8 (zlen payload) ∧ sub_list h 32 40 = to_le_bytes 8 n ∧
  sub_list h 40 48 = to_le_bytes 8 (fnv1a payload) ∧ sub_list h 48 56 = to_le_bytes 8 0 ∧
  sub_list h 0 56 = header_fields g v payload n ∧
  sub_list h 56 64 = to_le_bytes 8 (fnv1a (header_fields g v payload n)) ∧
  sub_list h 64 PAGE_SIZE = zeros (PAGE_SIZE - 64).
Proof.
  intros h. pose proof (zlen_header_fields g v payload n) as Hh. subst h. unfold header_page.
  assert (∀ a b, 0 <= a → b <= 56 →
    sub_list (header_fields g v payload n ++ to_le_bytes 8 (fnv1a (header_fields g v payload n))
      ++ zeros (PAGE_SIZE - 64)) a b = sub_list (header_fields g v payload n) a b) as Hin.
  { intros. by rewrite sub_list_app_l by lia. }
  split_and!; rewrite ?Hin by lia; [unfold header_fields; sub_seg; done..| | | |].
  - unfold header_fields. sub_seg. by rewrite sub_list_whole by (zl; lia).
  - by rewrite sub_list_all.
  - rewrite (sub_list_skip _ _ _ _ 56) by lia. by rewrite sub_list_first by (zl; lia).
  - rewrite (sub_list_skip _ _ _ _ 56), (sub_list_skip _ _ _ _ 8) by (zl; lia).
    apply sub_list_whole; rewrite ?zlen_zeros; unfold PAGE_SIZE; lia.
Qed.

Lemma decode_pages_image g v payload allowed sc :
  0 <= g < 2 ^ 64 → page_total payload + 1 <= MAX_PAGES → zlen payload <= MAX_FILE_BYTES →
  decode_pages (image g v payload) allowed sc = decode_payload payload allowed sc.
Proof.
  intros Hg Hmax Hlen. pose proof (page_total_pos payload) as Hpos.
  unfold image. set (n := page_total payload) in *. rewrite MAX_PAGES_eq in Hmax.
  set (H := header_page g v payload (n + 1)).
  set (D := concat (map (data_page payload n) (range n))).
  destruct (header_page_fields g v payload (n + 1))
    as (_ & _ & F12 & _ & F24 & F32 & F40 & F48 & F56 & FC & FZ).
  fold H in F12, F24, F32, F40, F48, F56, FC, FZ.
  assert (zlen H = 4096) as HH by apply zlen_header_page.
  assert (zlen D = n * PAGE_SIZE) as HD by (apply zlen_data_pages; lia).
  assert (PAGE_SIZE = 4096) as HPS by done.
  assert (D = concat (map (data_page payload n) (range n))) as HDdef by reflexivity.
  pose proof (page_total_covers payload) as Hc. fold n in Hc.
  assert (n = page_total payload) as Hn by reflexivity.
  set (hf := header_fields g v payload (n + 1)) in *.
  clearbody H D hf n.
  assert (zlen (H ++ D) = (n + 1) * 4096) as Htot by (rewrite zlen_app; lia).
  assert (∀ a b, 0 <= a <= b → b <= 4096 → @slice io_error _ (H ++ D) a b = Ok (sub_list H a b))
    as Hsl by (intros; apply (slice_in _ [] H D); done || lia).
  unfold decode_pages, read_u32, read_u64.
  change (12 + 4) with 16. change (48 + 8) with 56. change (56 + 8) with 64.
  change (24 + 8) with 32. change (32 + 8) with 40. change (40 + 8) with 48.
  rewrite (bail_if_pass (_ <? _)) by (apply Z.ltb_ge; lia). run.
  rewrite (Hsl 12 16), F12 by lia. run.
  rewrite (Hsl 48 56), F48 by lia. run.
  rewrite (Hsl 0 56), F56 by lia. run.
  rewrite (Hsl 56 64), FC by lia. run. rewrite u64_round, Z.eqb_refl by apply fnv1a_range. run.
  rewrite (Hsl 64 PAGE_SIZE), FZ by lia. run.
  pose proof (zlen_nonneg payload). assert (MAX_FILE_BYTES = 67108864) as HMF by done.
  rewrite (Hsl 24 32), F24 by lia. run. rewrite u64_round by lia.
  rewrite try_from_in by (rewrite USIZE_MAX_eq; lia). run.
  rewrite (Hsl 32 40), F32 by lia. run. rewrite u64_round by lia.
  rewrite try_from_in by (rewrite USIZE_MAX_eq; lia). run.
  rewrite MAX_PAGES_eq, (proj2 (Z.leb_le 2 _)), (proj2 (Z.leb_le (n + 1) _)) by lia.
  rewrite Htot, HPS, Z.eqb_refl. run.
  replace (n + 1 - 1) with n by lia.
  rewrite bail_if_pass by (rewrite Z.gtb_ltb; apply Z.ltb_ge; lia).
  run.
  rewrite (decode_page_loop (H ++ D) H payload n n);
    [|by rewrite HDdef|lia|exact Hn|lia|rewrite MAX_PAGES_eq; lia].
  run.
  assert (ztake (n * PAGE_PAYLOAD_SIZE) payload = payload) as ->.
  { unfold ztake. apply take_ge. unfold zlen in Hc. lia. }
  rewrite (Hsl 40 48), F40 by lia. run.
  by rewrite u64_round, Z.eqb_refl by apply fnv1a_range.
Qed.

(** Which flag bits and sections each page version carries. *)
Definition version_flags (version : Z) : option (Z * bool) :=
  if version =? PAGE_VERSION then Some (3, false)
  else if version =? UNIQUE_VERSION then Some (7, false)
  else if version =? INDEX_VERSION then Some (15, false)
  else if version =? VERSION then Some (15, true) else None.

Lemma decode_image g v payload allowed sc :
  version_flags v = Some (allowed, sc) →
  0 <= g < 2 ^ 64 → page_total payload + 1 <= MAX_PAGES → zlen payload <= MAX_FILE_BYTES →
  decode (image g v payload) = decode_payload payload allowed sc.
Proof.
  intros Hv Hg Hmax Hlen.
  assert (zlen (image g v payload) = (page_total payload + 1) * 4096) as Htot.
  { unfold image. pose proof (page_total_pos payload).
    rewrite zlen_app, zlen_header_page, zlen_data_pages by lia. unfold PAGE_SIZE. lia. }
  assert (∀ a b, 0 <= a <= b → b <= 4096 → @slice io_error _ (image g v payload) a b
    = Ok (sub_list (header_page g v payload (page_total payload + 1)) a b)) as Hsl.
  { intros. eapply (slice_in _ [] _ (concat _)); [reflexivity|done..|].
    rewrite zlen_header_page. unfold PAGE_SIZE. lia. }
  destruct (header_page_fields g v payload (page_total payload + 1)) as (F0 & F8 & _).
  pose proof (page_total_pos payload). rewrite MAX_PAGES_eq in Hmax.
  unfold decode, read_u32. change (8 + 4) with 12. rewrite Htot.
  rewrite (bail_if_pass (_ <? _)) by (apply Z.ltb_ge; lia). run.
  assert (MAX_FILE_BYTES = 67108864) by done.
  rewrite (bail_if_pass (_ >? _)) by (rewrite Z.gtb_ltb; apply Z.ltb_ge; lia). run.
  rewrite (Hsl 0 8), F0 by lia. run.
  rewrite (Hsl 8 12), F8 by lia. run.
  assert (0 <= v < 2 ^ 32) as Hvr.
  { unfold version_flags, PAGE_VERSION, UNIQUE_VERSION, INDEX_VERSION, VERSION in Hv.
    repeat match type of Hv with context [?x =? ?y] => destruct (Z.eqb_spec x y); [lia|] end.
    done. }
  rewrite u32_round by done.
  rewrite <- (decode_pages_image g v payload allowed sc) by (rewrite ?MAX_PAGES_eq; done).
  unfold version_flags in Hv. unfold LEGACY_VERSION.
  destruct (Z.eqb_spec v PAGE_VERSION) as [->|]; [by injection Hv as <- <-|].
  destruct (Z.eqb_spec v UNIQUE_VERSION) as [->|]; [by injection Hv as <- <-|].
  destruct (Z.eqb_spec v INDEX_VERSION) as [->|]; [by injection Hv as <- <-|].
  destruct (Z.eqb_spec v VERSION) as [->|]; [by injection Hv as <- <-|done].
Qed.

(** The outcome of the page encoder on every snapshot. *)
Lemma encode_pages_version_ok s g v sc bytes :
  encode_pages_version s g v sc = Ok bytes →
  ∃ payload, encode_payload_with_constraints s sc = Ok payload ∧
    page_total payload + 1 <= MAX_PAGES ∧ bytes = image g v payload.
Proof.
  intros H. pose proof H as H'. unfold encode_pages_version in H. inv_ok H.
  fold (page_total v0) in *. exists v0. split; [done|].
  destruct (checked_add _ _ _) as [c|] eqn:Hc; [|done]. apply try_from_some in Hc as [<- _].
  simpl in Hv0. destruct (_ <=? MAX_PAGES) eqn:Hle; [|done]. apply Z.leb_le in Hle.
  split; [done|]. rewrite (encode_pages_version_image s g v sc v0) in H' by done.
  by injection H' as <-.
Qed.

Lemma pages_round_trip s g v allowed sc bytes :
  version_flags v = Some (allowed, sc) → snapshot_valid allowed s → 0 <= g < 2 ^ 64 →
  encode_pages_version s g v sc = Ok bytes → decode bytes = Ok (canonical s).
Proof.
  intros Hv Hs Hg (payload & Hp & Hmax & ->)%encode_pages_version_ok.
  pose proof (encode_payload_bound _ _ _ Hp).
  rewrite (decode_image g v payload allowed sc); [|done..|].
  - by apply payload_round_trip.
  - unfold PAGE_SIZE in *. lia.
Qed.

(** ** The image decoder never panics *)

Lemma slice_safe {E A} (l : list A) a b :
  0 <= a <= b → b <= zlen l → safe (@slice E A l a b) (λ x, x = sub_list l a b).
Proof. intros. by rewrite slice_ok. Qed.

Lemma read_u32_safe bytes a :
  0 <= a → a + 4 <= zlen bytes → safe (read_u32 bytes a) (λ v, 0 <= v < 2 ^ 32).
Proof.
  intros. unfold read_u32. eapply safe_bind; [apply slice_safe; lia|]. intros bs _ ->. simpl.
  pose proof (from_le_bytes_range (sub_list bytes a (a + 4))) as Hr.
  rewrite zlen_sub_list in Hr by lia. replace (a + 4 - a) with 4 in Hr by lia. exact Hr.
Qed.

Lemma read_u64_safe bytes a :
  0 <= a → a + 8 <= zlen bytes → safe (read_u64 bytes a) (λ v, 0 <= v < 2 ^ 64).
Proof.
  intros. unfold read_u64. eapply safe_bind; [apply slice_safe; lia|]. intros bs _ ->. simpl.
  pose proof (from_le_bytes_range (sub_list bytes a (a + 8))) as Hr.
  rewrite zlen_sub_list in Hr by lia. replace (a + 8 - a) with 8 in Hr by lia. exact Hr.
Qed.

Lemma index_safe {E A} (l : list A) i : 0 <= i < zlen l → safe (@index E A l i) (λ _, True).
Proof.
  intros. unfold index. rewrite (proj2 (Z.leb_le 0 i)) by lia.
  destruct (lookup_lt_is_Some_2 l (Z.to_nat i)) as [x ->]; [unfold zlen in *; lia|done].
Qed.

Lemma unsigned_sub_safe {E} a b : b <= a → safe (@unsigned_sub E a b) (λ v, v = a - b).
Proof. intros. unfold unsigned_sub. by rewrite (proj2 (Z.leb_le b a)). Qed.

(** The page loop appends at most one page of payload per page, and stops at the
    announced length. *)
Lemma decode_page_safe bytes plen count payload page :
  zlen bytes = count * PAGE_SIZE → 1 <= page < count → zlen payload <= plen →
  safe (decode_page bytes plen count payload page) (λ p, zlen p <= plen).
Proof.
  intros Hb Hp Hl. assert (PAGE_SIZE = 4096) as HPS by done.
  assert (page * 4096 + 4096 <= zlen bytes) as Hin by nia.
  unfold decode_page, PAGE_HEADER_SIZE. rewrite HPS.
  eapply safe_bind; [apply index_safe; lia|]. intros ty _ _.
  eapply (safe_bind _ _ (λ _, True)).
  { safe_step; [done|]. eapply safe_bind; [apply slice_safe; lia|]. done. }
  intros bad _ _. safe_step.
  eapply safe_bind; [apply read_u32_safe; lia|]. intros id _ _. safe_step.
  eapply safe_bind; [apply read_u32_safe; lia|]. intros used _ Hu.
  eapply safe_bind; [by apply unsigned_sub_safe|]. intros rem _ ->. safe_step.
  apply negb_false_iff, Z.eqb_eq in Hq1.
  assert (0 <= used <= 4064 ∧ zlen payload + used <= plen) as [Hused Hfit].
  { unfold PAGE_PAYLOAD_SIZE, PAGE_SIZE, PAGE_HEADER_SIZE in Hq1. lia. }
  eapply safe_bind; [apply read_u32_safe; lia|]. intros next _ _.
  eapply (safe_bind _ _ (λ _, True)).
  { safe_step; [done|]. eapply safe_bind; [apply read_u64_safe; lia|]. done. }
  intros bad2 _ _. safe_step.
  eapply safe_bind; [apply slice_safe; lia|]. intros data _ ->.
  eapply safe_bind; [apply read_u64_safe; lia|]. intros sum _ _. safe_step.
  eapply safe_bind; [apply slice_safe; lia|]. intros rest _ _. safe_step. simpl.
  rewrite zlen_app, zlen_sub_list; lia.
Qed.

Lemma decode_pages_no_panic bytes allowed sc : decode_pages bytes allowed sc ≠ Panic.
Proof.
  eapply (safe_no_panic _ (λ _, True)). unfold decode_pages.
  assert (PAGE_SIZE = 4096) as HPS by done. rewrite HPS.
  safe_step. apply Z.ltb_ge in Hq.
  eapply safe_bind; [apply read_u32_safe; lia|]. intros ps _ _. safe_step.
  eapply safe_bind; [apply read_u64_safe; lia|]. intros fl _ _. safe_step.
  eapply safe_bind; [apply slice_safe; lia|]. intros h _ _.
  eapply safe_bind; [apply read_u64_safe; lia|]. intros c _ _. safe_step.
  eapply safe_bind; [apply slice_safe; lia|]. intros z _ _. safe_step.
  eapply safe_bind; [apply read_u64_safe; lia|]. intros pl _ [Hpl0 Hpl]. safe_step.
  apply try_from_some in Hq4 as [<- _].
  eapply safe_bind; [apply read_u64_safe; lia|]. intros pc _ [Hpc0 Hpc]. safe_step.
  apply try_from_some in Hq4 as [<- _]. safe_step. reflect_bools. safe_step. reflect_bools.
  eapply safe_bind.
  { apply (safe_for_each (λ p, zlen p <= pl)); [|rewrite zlen_nil; lia].
    intros p i Hi Hp. apply list_elem_of_fmap in Hi as (k & -> & Hk%elem_of_range).
    apply decode_page_safe; rewrite ?HPS; lia. }
  intros p _ _. eapply safe_bind; [apply read_u64_safe; lia|]. intros c2 _ _. safe_step.
  pose proof (decode_payload_no_panic p allowed sc). by destruct (decode_payload _ _ _).
Qed.

Lemma decode_legacy_no_panic bytes : decode_legacy bytes ≠ Panic.
Proof.
  eapply (safe_no_panic _ (λ _, True)). unfold decode_legacy, LEGACY_HEADER_SIZE.
  safe_step. apply Z.ltb_ge in Hq.
  eapply safe_bind; [apply read_u32_safe; lia|]. intros fl _ _. safe_step.
  eapply safe_bind; [apply read_u64_safe; lia|]. intros pl _ _. safe_step.
  eapply safe_bind; [apply unsigned_sub_safe; lia|]. intros r _ _. safe_step.
  eapply safe_bind; [apply slice_safe; lia|]. intros p _ _.
  eapply safe_bind; [apply read_u64_safe; lia|]. intros c _ _. safe_step.
  pose proof (decode_payload_no_panic p 3 false). by destruct (decode_payload _ _ _).
Qed.

Lemma decode_safe bytes : decode bytes ≠ Panic.
Proof.
  eapply (safe_no_panic _ (λ _, True)). unfold decode.
  safe_step. apply Z.ltb_ge in Hq. safe_step.
  eapply safe_bind; [apply slice_safe; lia|]. intros m _ _. safe_step.
  eapply safe_bind; [apply read_u32_safe; lia|]. intros w _ _.
  assert (∀ m : io Snapshot, m ≠ Panic → safe m (λ _, True)) as Hs by (by intros []).
  repeat match goal with |- safe (if ?b then _ else _) _ => destruct b end;
    auto using decode_legacy_no_panic, decode_pages_no_panic; done.
Qed.

(** ** The encoder never panics *)

Lemma push_u32_safe out v ctx : safe (push_u32 out v ctx) (λ _, True).
Proof. unfold push_u32. by safe_steps. Qed.
Lemma push_u64_safe out v ctx : safe (push_u64 out v ctx) (λ _, True).
Proof. unfold push_u64. by safe_steps. Qed.
#[local] Hint Resolve push_u32_safe push_u64_safe : disp.
Lemma push_bytes_safe out v limit ctx : safe (push_bytes out v limit ctx) (λ _, True).
Proof. unfold push_bytes. by safe_steps. Qed.
#[local] Hint Resolve push_bytes_safe : disp.

Lemma safe_loop {E A S} (body : S → A → outcome E S) l s :
  (∀ s a, safe (body s a) (λ _, True)) → safe (for_each body l s) (λ _, True).
Proof. intros H. by apply (safe_for_each (λ _, True)). Qed.
#[local] Hint Resolve safe_loop : disp.

Lemma encode_field_safe st f : safe (encode_field st f) (λ _, True).
Proof. unfold encode_field. by safe_steps. Qed.
Lemma encode_constraint_field_safe names st f : safe (encode_constraint_field names st f) (λ _, True).
Proof. unfold encode_constraint_field. by safe_steps. Qed.
#[local] Hint Resolve encode_field_safe encode_constraint_field_safe : disp.
Lemma encode_constraint_safe fields st c : safe (encode_constraint fields st c) (λ _, True).
Proof. unfold encode_constraint. by safe_steps. Qed.
#[local] Hint Resolve encode_constraint_safe : disp.
Lemma encode_constraints_safe sc t p : safe (encode_constraints sc t p) (λ _, True).
Proof. unfold encode_constraints. by safe_steps. Qed.
#[local] Hint Resolve encode_constraints_safe : disp.
Lemma encode_row_safe p r : safe (encode_row p r) (λ _, True).
Proof. apply push_bytes_safe. Qed.
#[local] Hint Resolve encode_row_safe : disp.
Lemma encode_table_safe sc st t : safe (encode_table sc st t) (λ _, True).
Proof. unfold encode_table. by safe_steps. Qed.
#[local] Hint Resolve encode_table_safe : disp.
Lemma encode_payload_safe s sc : safe (encode_payload_with_constraints s sc) (λ _, True).
Proof. unfold encode_payload_with_constraints. by safe_steps. Qed.

Lemma encode_pages_no_panic s g v sc : encode_pages_version s g v sc ≠ Panic.
Proof.
  destruct (encode_payload_with_constraints s sc) as [p|e|] eqn:Hp.
  - destruct (decide (page_total p + 1 <= MAX_PAGES)).
    + by erewrite encode_pages_version_image.
    + unfold encode_pages_version. rewrite Hp, bind_Ok. fold (page_total p).
      destruct (checked_add _ _ _) as [c|] eqn:Hc; [|done]. apply try_from_some in Hc as [<- _].
      cbn [mbind option_bind]. rewrite (proj2 (Z.leb_gt _ _)) by lia. done.
  - unfold encode_pages_version. by rewrite Hp.
  - pose proof (encode_payload_safe s sc) as H. by rewrite Hp in H.
Qed.

Lemma zlen_image g v payload :
  zlen (image g v payload) = (page_total payload + 1) * PAGE_SIZE.
Proof.
  unfold image. pose proof (page_total_pos payload).
  rewrite zlen_app, zlen_header_page, zlen_data_pages by lia. lia.
Qed.
