(* ===== verification/DataStore.v ===== *)
(** * The durable DISP Data store ([compiler/src/data_store.rs], store part)

    The write-ahead log, recovery, [load] and [commit], over a model of the file
    system in which any system call may fail: the [n]-th call of a run fails when
    the fault plan says so, a failed write leaving an arbitrary prefix of its
    bytes.  A crash is a plan under which every later call fails. *)

From S2P Require Import Prelude Machine DataFormat.
#[local] Open Scope string_scope.
#[local] Open Scope list_scope.
#[local] Open Scope Z_scope.

Definition WAL_MAGIC : list byte := map byte_of_Z [68; 73; 83; 80; 87; 65; 76; 10].
Definition WAL_HEADER_SIZE : Z := 64.
Definition WAL_RECORD_SIZE : Z := 8 + PAGE_SIZE.
Definition MAX_WAL_BYTES : Z := WAL_HEADER_SIZE + MAX_PAGES * WAL_RECORD_SIZE.

(** ** Paths and the file system *)

(** A path: its parent directory, and its file name when it has one that is valid
    UTF-8. *)
Abbreviation Path := (string * option string)%type.

#[export] Instance Path_countable : Countable Path | 0 := _.

Definition suffix (path : Path) (s : string) : io Path :=
  name ← ok_or (snd path) (invalid "DISP Data path has no valid UTF-8 file name");
  Ok (fst path, Some (name +:+ s)).

(** Files, the number of system calls made so far, and the process-wide
    [NEXT_TEMPORARY] counter. *)
Record world := mkWorld {
  files : gmap Path (list byte);
  clock : nat;
  next_temporary : Z }.

(** A computation on the world; it keeps its effects when it fails. *)
Definition M (A : Type) : Type := world → io A * world.

#[export] Instance M_ret : MRet M := λ A a w, (Ok a, w).
#[export] Instance M_bind : MBind M := λ A B f m w,
  match m w with
  | (Ok a, w') => f a w'
  | (Err e, w') => (Err e, w')
  | (Panic, w') => (Panic, w')
  end.

Definition lift {A} (m : io A) : M A := λ w, (m, w).

(** Run [m] and hand its result over as a value, as a [match] on a [Result] does. *)
Definition catch {A} (m : M A) : M (io A) := λ w,
  match m w with
  | (Ok a, w') => (Ok (Ok a), w')
  | (Err e, w') => (Ok (Err e), w')
  | (Panic, w') => (Panic, w')
  end.

(** [let _ = m;] *)
Definition ignore {A} (m : M A) : M unit := _ ← catch m; mret tt.

Fixpoint for_each_M {A} (body : A → M unit) (l : list A) : M unit :=
  match l with
  | [] => mret tt
  | a :: l => _ ← body a; for_each_M body l
  end.

Section store.
(** [fault n = Some k]: the [n]-th system call fails; if it is a write, its first
    [k] bytes have reached the file. *)
Context (fault : nat → option Z) (pid : Z).

Definition os_error : io_error := mkIoError OtherIo "operating system error".
Definition not_found : io_error := mkIoError NotFound "entity not found".
Definition already_exists : io_error := mkIoError AlreadyExists "entity already exists".

Definition sys {A} (act : gmap Path (list byte) → io A * gmap Path (list byte))
    (torn : Z → gmap Path (list byte) → gmap Path (list byte)) : M A := λ w,
  match fault (clock w) with
  | Some k => (Err os_error, mkWorld (torn k (files w)) (S (clock w)) (next_temporary w))
  | None => let '(r, fs) := act (files w) in (r, mkWorld fs (S (clock w)) (next_temporary w))
  end.

(** Overwrite [data] at [offset], filling a gap with zeros. *)
Definition splice (f : list byte) (offset : Z) (data : list byte) : list byte :=
  ztake offset (f ++ zeros (offset - zlen f)) ++ data ++ zdrop (offset + zlen data) f.

Definition fs_read (path : Path) : M (list byte) :=
  sys (λ fs, (match fs !! path with Some b => Ok b | None => Err not_found end, fs)) (λ _ fs, fs).
Definition fs_len (path : Path) : M Z :=
  sys (λ fs, (match fs !! path with Some b => Ok (zlen b) | None => Err not_found end, fs))
    (λ _ fs, fs).
Definition fs_create_new (path : Path) : M unit :=
  sys (λ fs, match fs !! path with
             | Some _ => (Err already_exists, fs)
             | None => (Ok tt, <[path := []]> fs)
             end) (λ _ fs, fs).
(** [OpenOptions::new().read(true).write(true).create(true).truncate(false)] *)
Definition fs_open_or_create (path : Path) : M unit :=
  sys (λ fs, (Ok tt, match fs !! path with Some _ => fs | None => <[path := []]> fs end))
    (λ _ fs, fs).
Definition fs_write_at (path : Path) (offset : Z) (data : list byte) : M unit :=
  sys (λ fs, (Ok tt, alter (λ f, splice f offset data) path fs))
    (λ k fs, alter (λ f, splice f offset (ztake k data)) path fs).
Definition fs_set_len (path : Path) (n : Z) : M unit :=
  sys (λ fs, (Ok tt, alter (λ f, ztake n f ++ zeros (n - zlen f)) path fs)) (λ _ fs, fs).
(** [sync_all] and [create_dir_all] change no file. *)
Definition fs_sync : M unit := sys (λ fs, (Ok tt, fs)) (λ _ fs, fs).
Definition fs_rename (a b : Path) : M unit :=
  sys (λ fs, match fs !! a with
             | Some f => (Ok tt, <[b := f]> (delete a fs))
             | None => (Err not_found, fs)
             end) (λ _ fs, fs).
Definition fs_remove (path : Path) : M unit :=
  sys (λ fs, match fs !! path with
             | Some _ => (Ok tt, delete path fs)
             | None => (Err not_found, fs)
             end) (λ _ fs, fs).
(** [path.is_file()]: [false] when the query itself fails. *)
Definition fs_is_file (path : Path) : M bool :=
  r ← catch (fs_len path); mret (is_ok r).

Definition read_bytes (path : Path) (limit : Z) : M (list byte) :=
  len ← fs_len path;
  _ ← lift (bail_if (len >? limit) (invalid "DISP Data file exceeds its storage limit"));
  fs_read path.

Definition read_snapshot (path : Path) : M Snapshot :=
  bytes ← read_bytes path MAX_FILE_BYTES;
  lift (decode bytes).

(** ** Locks *)

Record Lock := mkLock { lock_path : Path }.
Definition protects (lock : Lock) (path : Path) : io bool :=
  p ← suffix path ".lock"; Ok (bool_decide (lock_path lock = p)).

(** ** The write-ahead log *)

(** [new.chunks_exact(PAGE_SIZE).enumerate()] *)
Definition pages_of (bytes : list byte) : list (Z * list byte) :=
  map (λ i, (i, sub_list bytes (i * PAGE_SIZE) (i * PAGE_SIZE + PAGE_SIZE)))
    (range (zlen bytes / PAGE_SIZE)).

Definition wal_records (old new : list byte) : list (Z * list byte) :=
  filter (λ pb, get_range old (pb.1 * PAGE_SIZE) (pb.1 * PAGE_SIZE + PAGE_SIZE) ≠ Some pb.2)
    (pages_of new).

Definition record_bytes (pb : Z * list byte) : list byte := to_le_bytes 8 pb.1 ++ pb.2.

Definition encode_wal (old new : list byte) (generation : Z) : io (list byte) :=
  let records := wal_records old new in
  _ ← ok_or
    (length ← checked_add USIZE_MAX WAL_HEADER_SIZE (zlen records * WAL_RECORD_SIZE);
     if length <=? MAX_WAL_BYTES then Some length else None)
    (invalid "DISP Data write-ahead log exceeds its storage limit");
  let output :=
    WAL_MAGIC ++ to_le_bytes 4 1 ++ to_le_bytes 4 PAGE_SIZE ++ to_le_bytes 8 generation
    ++ to_le_bytes 8 (zlen new / PAGE_SIZE) ++ to_le_bytes 8 (zlen records)
    ++ to_le_bytes 8 0 ++ to_le_bytes 8 0 ++ to_le_bytes 8 0
    ++ concat (map record_bytes records) in
  body ← slice output WAL_HEADER_SIZE (zlen output);
  output ← copy_le 8 output 40 (fnv1a body);
  header ← slice output 0 56;
  copy_le 8 output 56 (fnv1a header).

Definition current_generation (bytes : list byte) : io Z :=
  if zlen bytes >=? PAGE_SIZE then
    magic ← slice bytes 0 8;
    if bool_decide (magic = MAGIC) then
      version ← read_u32 bytes 8;
      if version =? VERSION then read_u64 bytes 16 else Ok 0
    else Ok 0
  else Ok 0.

(** The loop that reads the records of a log: state is (records, seen). *)
Definition read_record (bytes : list byte) (page_count : Z)
    (st : list (Z * list byte) * gset Z) (record : Z) : io (list (Z * list byte) * gset Z) :=
  let '(records, seen) := st in
  let start := WAL_HEADER_SIZE + record * WAL_RECORD_SIZE in
  id ← read_u64 bytes start;
  page ← ok_or (try_from USIZE_MAX id)
    (invalid "DISP Data WAL page identity does not fit this target");
  _ ← bail_if ((page >=? page_count) || bool_decide (page ∈ seen))
        (invalid "DISP Data WAL contains an invalid page identity");
  data ← slice bytes (start + 8) (start + WAL_RECORD_SIZE);
  Ok (records ++ [(page, data)], {[page]} ∪ seen).

(** The checks on a log that precede any access to the data file. *)
Definition parse_wal (bytes : list byte) : io (Z * list (Z * list byte)) :=
  _ ← bail_if ((zlen bytes <? WAL_HEADER_SIZE) || (zlen bytes >? MAX_WAL_BYTES))
        (invalid "DISP Data write-ahead log header is truncated");
  magic ← slice bytes 0 8;
  version ← read_u32 bytes 8;
  page_size ← read_u32 bytes 12;
  reserved ← read_u64 bytes 48;
  header ← slice bytes 0 56;
  checksum ← read_u64 bytes 56;
  _ ← bail_if (negb (bool_decide (magic = WAL_MAGIC)) || negb (version =? 1)
               || negb (page_size =? PAGE_SIZE) || negb (reserved =? 0)
               || negb (fnv1a header =? checksum))
        (invalid "DISP Data write-ahead log header is invalid");
  count ← read_u64 bytes 24;
  page_count ← ok_or (try_from USIZE_MAX count)
    (invalid "DISP Data WAL page count does not fit this target");
  records ← read_u64 bytes 32;
  record_count ← ok_or (try_from USIZE_MAX records)
    (invalid "DISP Data WAL record count does not fit this target");
  expected_length ← ok_or
    (checked_add USIZE_MAX WAL_HEADER_SIZE (saturating_mul USIZE_MAX record_count WAL_RECORD_SIZE))
    (invalid "DISP Data WAL length overflow");
  body ← slice bytes WAL_HEADER_SIZE (zlen bytes);
  body_checksum ← read_u64 bytes 40;
  _ ← bail_if (negb ((2 <=? page_count) && (page_count <=? MAX_PAGES))
               || negb (expected_length =? zlen bytes)
               || negb (fnv1a body =? body_checksum))
        (invalid "DISP Data write-ahead log is inconsistent");
  '(records, seen) ← for_each (read_record bytes page_count) (range record_count) ([], ∅);
  _ ← bail_if (negb (bool_decide (0 ∈ seen)))
        (invalid "DISP Data WAL does not contain its commit page");
  Ok (page_count, records).

(** The image after the log: the current file cut or zero-extended to the final
    length, with the logged pages copied over it. *)
Definition copy_record (committed : list byte) (pb : Z * list byte) : io (list byte) :=
  copy_into committed (pb.1 * PAGE_SIZE) (pb.1 * PAGE_SIZE + PAGE_SIZE) pb.2.

Definition merge_wal (current : list byte) (page_count : Z) (records : list (Z * list byte))
    : io (list byte) :=
  let final_length := page_count * PAGE_SIZE in
  let committed := zeros final_length in
  let copied := Z.min (zlen current) final_length in
  src ← slice current 0 copied;
  committed ← copy_into committed 0 copied src;
  for_each copy_record records committed.

(** [apply_wal] from the moment the current file is known: check the merged image,
    then write the logged pages in place. *)
Definition checkpoint (path : Path) (bytes : list byte) (page_count : Z)
    (records : list (Z * list byte)) (current : list byte) : M unit :=
  committed ← lift (merge_wal current page_count records);
  generation ← lift (current_generation committed);
  expected ← lift (read_u64 bytes 16);
  _ ← lift (bail_if (negb (generation =? expected))
        (invalid "DISP Data WAL generation does not match its commit page"));
  _ ← lift (map_err (λ e, invalid ("DISP Data WAL committed image is invalid: " +:+ message e))
        (decode committed));
  _ ← fs_open_or_create path;
  _ ← for_each_M (λ pb, fs_write_at path (pb.1 * PAGE_SIZE) pb.2) records;
  _ ← fs_set_len path (page_count * PAGE_SIZE);
  fs_sync.

(** [match read_bytes(path) { Ok(b) => b, Err(e) if e.kind() == NotFound => vec![],
    Err(e) => return Err(e) }] *)
Definition read_or_empty (path : Path) : M (list byte) :=
  r ← catch (read_bytes path MAX_FILE_BYTES);
  lift
    (match r with
     | Ok current => Ok current
     | Err error => if bool_decide (kind error = NotFound) then Ok [] else Err error
     | Panic => Panic
     end).

Definition apply_wal (path : Path) (bytes : list byte) : M unit :=
  '(page_count, records) ← lift (parse_wal bytes);
  current ← read_or_empty path;
  checkpoint path bytes page_count records current.

Definition recover_wal (path : Path) : M unit :=
  wal ← lift (suffix path ".wal");
  r ← catch (read_bytes wal MAX_WAL_BYTES);
  match r with
  | Ok bytes => _ ← apply_wal path bytes; fs_remove wal
  | Err error => if bool_decide (kind error = NotFound) then mret tt else lift (Err error)
  | Panic => lift Panic
  end.

(** ** Opening and committing *)

Definition load (path : Path) (lock : Lock) : M Snapshot :=
  ok ← lift (protects lock path);
  _ ← lift (bail_if (negb ok) (invalid "DISP Data lock does not protect this store"));
  _ ← recover_wal path;
  backup ← lift (suffix path ".backup");
  r ← catch (read_snapshot path);
  match r with
  | Ok snapshot => mret snapshot
  | Err error =>
    if bool_decide (kind error = NotFound) then
      is_file ← fs_is_file backup;
      if (is_file : bool) then
        b ← catch (read_snapshot backup);
        snapshot ← lift (map_err (λ backup_error, invalid
          ("DISP Data snapshot and recovery backup are unavailable: " +:+ message error
           +:+ "; " +:+ message backup_error))
          (match b with Ok s => Ok s | Err e => Err e | Panic => Panic end));
        _ ← fs_rename backup path;
        mret snapshot
      else mret empty_snapshot
    else lift (Err error)
  | Panic => lift Panic
  end.

Definition fetch_temporary : M Z := λ w,
  (Ok (next_temporary w), mkWorld (files w) (clock w) (next_temporary w + 1)).

(** The body of [commit] from the creation of the temporary file on. *)
Definition commit_log (path temporary wal : Path) (wal_bytes : list byte) : M unit :=
  _ ← fs_create_new temporary;
  _ ← fs_write_at temporary 0 wal_bytes;
  _ ← fs_sync;
  _ ← fs_rename temporary wal;
  _ ← ignore fs_sync;
  r ← catch (apply_wal path wal_bytes);
  if is_ok r then
    _ ← fs_remove wal;
    backup ← lift (suffix path ".backup");
    ignore (fs_remove backup)
  else mret tt.

Definition commit (path : Path) (snapshot : Snapshot) (lock : Lock) : M unit :=
  ok ← lift (protects lock path);
  _ ← lift (bail_if (negb ok) (invalid "DISP Data lock does not protect this store"));
  _ ← recover_wal path;
  _ ← fs_sync;
  old ← read_or_empty path;
  current ← lift (current_generation old);
  generation ← lift (ok_or (checked_add U64_MAX current 1)
                       (invalid "DISP Data generation counter is exhausted"));
  new ← lift (encode_pages snapshot generation);
  wal_bytes ← lift (encode_wal old new generation);
  id ← fetch_temporary;
  temporary ← lift (suffix path (".wal.tmp-" +:+ display_Z pid +:+ "-" +:+ display_Z id));
  wal ← lift (suffix path ".wal");
  result ← catch (commit_log path temporary wal wal_bytes);
  match result with
  | Err e => _ ← ignore (fs_remove temporary); lift (Err e)
  | r => lift r
  end.
End store.
