(* ===== verification/DataWal.v ===== *)
(** * The write-ahead log of the DISP Data store: bytes

    What a log means: replaying it over any file that already agrees with the new
    image on the pages the log leaves out yields exactly the new image, and a log
    written by [encode_wal] is read back by [parse_wal] as the pages it was built
    from. *)

From S2P Require Import Prelude Machine DataFormat DataCodec DataPages DataStore.
#[local] Open Scope list_scope.
#[local] Open Scope Z_scope.

(** ** Lookups in slices *)

Lemma lookup_ztake {A} n (l : list A) (k : nat) :
  Z.of_nat k < n → ztake n l !! k = l !! k.
Proof. intros. apply lookup_take_lt. lia. Qed.

Lemma lookup_sub_list {A} (l : list A) a b (k : nat) :
  0 <= a → Z.of_nat k < b - a → sub_list l a b !! k = l !! (Z.to_nat a + k)%nat.
Proof.
  intros. unfold sub_list, zdrop. rewrite lookup_ztake by lia. apply lookup_drop.
Qed.

Lemma lookup_splice_in f off data (k : nat) :
  0 <= off <= Z.of_nat k → Z.of_nat k < off + zlen data →
  splice f off data !! k = data !! (k - Z.to_nat off)%nat.
Proof.
  intros H1 H2. unfold splice. pose proof (zlen_nonneg f).
  assert (length (ztake off (f ++ zeros (off - zlen f))) = Z.to_nat off) as Hl.
  { unfold ztake. rewrite length_take, length_app. unfold zeros. rewrite length_replicate.
    unfold zlen in *. lia. }
  rewrite lookup_app_r by lia. rewrite Hl. rewrite lookup_app_l; [done|].
  unfold zlen in *. lia.
Qed.

(** A byte outside the written range survives. *)
Lemma lookup_splice_out f off data (k : nat) x :
  0 <= off → (Z.of_nat k < off ∨ off + zlen data <= Z.of_nat k) →
  f !! k = Some x → splice f off data !! k = Some x.
Proof.
  intros H1 H2 Hk. unfold splice. pose proof (lookup_lt_Some _ _ _ Hk) as Hlen.
  pose proof (zlen_nonneg data).
  assert (length (ztake off (f ++ zeros (off - zlen f))) = Z.to_nat off) as Hl.
  { unfold ztake. rewrite length_take, length_app. unfold zeros. rewrite length_replicate.
    unfold zlen in *. lia. }
  destruct H2 as [H2|H2].
  - rewrite lookup_app_l by lia. rewrite lookup_ztake by lia. by rewrite lookup_app_l.
  - rewrite lookup_app_r by lia. rewrite Hl.
    rewrite lookup_app_r by (unfold zlen in *; lia).
    unfold zdrop. rewrite lookup_drop, <- Hk. f_equal. unfold zlen in *. lia.
Qed.

Lemma zlen_splice f off data :
  0 <= off → zlen (splice f off data) = Z.max (zlen f) (off + zlen data).
Proof.
  intros. unfold splice, zlen, ztake, zdrop, zeros.
  rewrite !length_app, length_take, length_drop, length_app, length_replicate. lia.
Qed.

Lemma lookup_resize f n (k : nat) x :
  f !! k = Some x → Z.of_nat k < n → (ztake n f ++ zeros (n - zlen f)) !! k = Some x.
Proof.
  intros Hk Hn. pose proof (lookup_lt_Some _ _ _ Hk).
  rewrite lookup_app_l; [by rewrite lookup_ztake|].
  unfold ztake. rewrite length_take. lia.
Qed.

Lemma zlen_resize f n : 0 <= n → zlen (ztake n f ++ zeros (n - zlen f)) = n.
Proof.
  intros. unfold zlen, ztake, zeros. rewrite length_app, length_take, length_replicate. lia.
Qed.

(** ** Replaying records *)

Definition page_at (l : list byte) (i : Z) : list byte :=
  sub_list l (i * PAGE_SIZE) (i * PAGE_SIZE + PAGE_SIZE).

(** [cur] and [new] hold the same bytes on page [i]. *)
Definition agree (new cur : list byte) (i : Z) : Prop :=
  ∀ k : nat, i * PAGE_SIZE <= Z.of_nat k < i * PAGE_SIZE + PAGE_SIZE →
  cur !! k = new !! k.

(** [records] are pages of [new]. *)
Definition pages_from (new : list byte) (n : Z) (records : list (Z * list byte)) : Prop :=
  zlen new = n * PAGE_SIZE ∧
  Forall (λ pb, 0 <= pb.1 < n ∧ pb.2 = page_at new pb.1) records.

Definition covered (new cur : list byte) (n : Z) (records : list (Z * list byte)) : Prop :=
  ∀ i, 0 <= i < n → i ∉ records.*1 → agree new cur i.

Section replay.
Context (new : list byte) (n : Z).
Hypothesis Hlen : zlen new = n * PAGE_SIZE.

Lemma lookup_new i (k : nat) :
  0 <= i < n → i * PAGE_SIZE <= Z.of_nat k < i * PAGE_SIZE + PAGE_SIZE →
  ∃ x, new !! k = Some x.
Proof.
  intros Hi Hk. apply lookup_lt_is_Some_2. unfold zlen, PAGE_SIZE in *. nia.
Qed.

Lemma zlen_page_at i : 0 <= i < n → zlen (page_at new i) = PAGE_SIZE.
Proof. intros. unfold page_at, PAGE_SIZE in *. rewrite zlen_sub_list; nia. Qed.

Lemma agree_write cur i : 0 <= i < n →
  agree new (splice cur (i * PAGE_SIZE) (page_at new i)) i.
Proof.
  intros Hi k Hk. pose proof (zlen_page_at i Hi).
  rewrite lookup_splice_in by (unfold PAGE_SIZE in *; lia).
  unfold page_at. rewrite lookup_sub_list by (unfold PAGE_SIZE in *; lia).
  f_equal. unfold PAGE_SIZE in *. lia.
Qed.

(** A write to page [j], torn or not, keeps the agreement on any other page. *)
Lemma agree_write_other cur i j data : 0 <= i < n → 0 <= j → i ≠ j →
  zlen data <= PAGE_SIZE → agree new cur i → agree new (splice cur (j * PAGE_SIZE) data) i.
Proof.
  intros Hi Hj Hne Hd Ha k Hk. destruct (lookup_new i k Hi Hk) as [x Hx].
  rewrite Hx. apply lookup_splice_out.
  - unfold PAGE_SIZE in *. lia.
  - unfold PAGE_SIZE in *. nia.
  - by rewrite (Ha k Hk).
Qed.

Lemma agree_resize cur i : 0 <= i < n → agree new cur i →
  agree new (ztake (n * PAGE_SIZE) cur ++ zeros (n * PAGE_SIZE - zlen cur)) i.
Proof.
  intros Hi Ha k Hk. destruct (lookup_new i k Hi Hk) as [x Hx]. rewrite Hx.
  apply lookup_resize; [by rewrite (Ha k Hk)|]. unfold PAGE_SIZE in *. nia.
Qed.

(** A file of the right length that agrees on every page is the image. *)
Lemma agree_all cur :
  zlen cur = n * PAGE_SIZE → (∀ i, 0 <= i < n → agree new cur i) → cur = new.
Proof.
  intros Hc Ha. apply list_eq_same_length with (length cur); [unfold zlen in *; lia|done|].
  intros k x y Hk Hx Hy.
  assert (0 <= Z.of_nat k / PAGE_SIZE < n) as Hi.
  { split; [apply Z.div_pos; unfold PAGE_SIZE; lia|].
    apply Z.div_lt_upper_bound; unfold PAGE_SIZE, zlen in *; lia. }
  pose proof (Z.div_mod (Z.of_nat k) PAGE_SIZE). pose proof (Z.mod_pos_bound (Z.of_nat k) PAGE_SIZE).
  rewrite (Ha _ Hi k) in Hx; [congruence|]. unfold PAGE_SIZE in *. lia.
Qed.

Lemma covered_write cur records i data :
  0 <= i < n → zlen data <= PAGE_SIZE → i ∈ records.*1 →
  covered new cur n records → covered new (splice cur (i * PAGE_SIZE) data) n records.
Proof.
  intros Hi Hd Hin Hcov j Hj Hnot. apply agree_write_other; [done|lia| |done|by apply Hcov].
  intros ->. done.
Qed.

(** Writing a record in full removes it from the log's obligations. *)
Lemma covered_step cur i rest :
  0 <= i < n → covered new cur n ((i, page_at new i) :: rest) →
  covered new (splice cur (i * PAGE_SIZE) (page_at new i)) n rest.
Proof.
  intros Hi Hcov j Hj Hnot. destruct (decide (j = i)) as [->|Hne].
  - by apply agree_write.
  - apply agree_write_other; [done|lia|done|by rewrite zlen_page_at|].
    apply Hcov; [done|]. cbn. rewrite not_elem_of_cons. done.
Qed.
End replay.

Lemma copy_into_splice {E} out a b src :
  0 <= a <= b → b <= zlen out → b - a = zlen src →
  @copy_into E byte out a b src = Ok (splice out a src).
Proof.
  intros Ha Hb Hs. unfold copy_into, splice.
  rewrite !(proj2 (Z.leb_le _ _)), (proj2 (Z.eqb_eq _ _)) by lia. cbn [andb].
  replace (a + zlen src) with b by lia.
  replace (zeros (a - zlen out)) with (@nil byte); [by rewrite app_nil_r|].
  unfold zeros. by replace (Z.to_nat (a - zlen out)) with 0%nat by lia.
Qed.

Lemma replay_records new n records cur :
  pages_from new n records → covered new cur n records → zlen cur = n * PAGE_SIZE →
  for_each copy_record records cur = Ok new.
Proof.
  intros [Hlen Hrec]. revert cur. induction Hrec as [|[i d] rest [Hi Hd] _ IH]; intros cur Hcov Hc.
  - cbn [for_each]. f_equal. apply (agree_all new n Hlen); [done|].
    intros j Hj. apply Hcov; [done|]. apply not_elem_of_nil.
  - cbn [fst snd] in *. subst d. pose proof (zlen_page_at new n Hlen i Hi) as Hp.
    cbn [for_each]. change (copy_record cur (i, page_at new i))
      with (@copy_into io_error byte cur (i * PAGE_SIZE) (i * PAGE_SIZE + PAGE_SIZE) (page_at new i)).
    rewrite copy_into_splice by (unfold PAGE_SIZE in *; nia). rewrite bind_Ok. apply IH.
    + by apply covered_step.
    + rewrite zlen_splice by (unfold PAGE_SIZE in *; lia). rewrite Hp.
      unfold PAGE_SIZE in *. nia.
Qed.

(** The image [apply_wal] checks before it writes anything. *)
Lemma merge_wal_ok new n records cur :
  pages_from new n records → covered new cur n records →
  merge_wal cur n records = Ok new.
Proof.
  intros Hp Hcov. pose proof (proj1 Hp) as Hlen. pose proof (zlen_nonneg new).
  pose proof (zlen_nonneg cur). unfold merge_wal.
  set (m := Z.min (zlen cur) (n * PAGE_SIZE)).
  assert (0 <= m <= zlen cur ∧ m <= n * PAGE_SIZE) as [Hm Hm'] by lia.
  rewrite slice_ok by lia. rewrite bind_Ok.
  assert (sub_list cur 0 m = ztake m cur) as Hs.
  { unfold sub_list. by rewrite zdrop_0, Z.sub_0_r. }
  rewrite Hs. rewrite copy_into_splice;
    [|lia|rewrite zlen_zeros; lia|rewrite zlen_ztake; lia].
  rewrite bind_Ok.
  assert (splice (zeros (n * PAGE_SIZE)) 0 (ztake m cur)
    = ztake (n * PAGE_SIZE) cur ++ zeros (n * PAGE_SIZE - zlen cur)) as ->.
  { unfold splice. rewrite zlen_ztake by lia. rewrite Z.add_0_l.
    change (ztake 0 ?l) with (@nil byte). rewrite app_nil_l.
    unfold ztake, zdrop, zeros. rewrite drop_replicate. subst m.
    destruct (Z.le_gt_cases (zlen cur) (n * PAGE_SIZE)).
    - rewrite Z.min_l by lia. rewrite !take_ge by (unfold zlen in *; lia).
      f_equal. f_equal. lia.
    - rewrite Z.min_r by lia. f_equal. f_equal. lia. }
  apply (replay_records _ n); [done| |apply zlen_resize; lia].
  intros i Hi Hn. apply agree_resize; auto.
Qed.

(** ** The bytes of a log *)

Definition wal_fields (generation page_count : Z) (records : list (Z * list byte)) : list byte :=
  WAL_MAGIC ++ to_le_bytes 4 1 ++ to_le_bytes 4 PAGE_SIZE ++ to_le_bytes 8 generation
  ++ to_le_bytes 8 page_count ++ to_le_bytes 8 (zlen records)
  ++ to_le_bytes 8 (fnv1a (concat (map record_bytes records))) ++ to_le_bytes 8 0.

Definition wal_header (generation page_count : Z) (records : list (Z * list byte)) : list byte :=
  let h := wal_fields generation page_count records in h ++ to_le_bytes 8 (fnv1a h).

Definition wal_image (generation page_count : Z) (records : list (Z * list byte)) : list byte :=
  wal_header generation page_count records ++ concat (map record_bytes records).

Arguments wal_header : simpl never.
Arguments wal_fields : simpl never.

Lemma zlen_WAL_MAGIC : zlen WAL_MAGIC = 8.
Proof. done. Qed.
#[local] Hint Rewrite zlen_WAL_MAGIC : zlen.

Lemma zlen_wal_fields g n r : zlen (wal_fields g n r) = 56.
Proof. unfold wal_fields. zl. lia. Qed.
Lemma zlen_wal_header g n r : zlen (wal_header g n r) = 64.
Proof. unfold wal_header. rewrite zlen_app, zlen_wal_fields. zl. lia. Qed.

Lemma zlen_records records :
  Forall (λ pb, zlen pb.2 = PAGE_SIZE) records →
  zlen (concat (map record_bytes records)) = zlen records * WAL_RECORD_SIZE.
Proof.
  induction 1 as [|[i d] l Hd _ IH]; [done|]. cbn [map concat]. unfold record_bytes at 1.
  cbn [fst snd] in *. autorewrite with zlen. rewrite IH, Hd. unfold WAL_RECORD_SIZE. lia.
Qed.

(** Where the fields of the log header lie. *)
Lemma wal_header_fields g n r :
  let h := wal_header g n r in
  sub_list h 0 8 = WAL_MAGIC ∧ sub_list h 8 12 = to_le_bytes 4 1 ∧
  sub_list h 12 16 = to_le_bytes 4 PAGE_SIZE ∧ sub_list h 16 24 = to_le_bytes 8 g ∧
  sub_list h 24 32 = to_le_bytes 8 n ∧ sub_list h 32 40 = to_le_bytes 8 (zlen r) ∧
  sub_list h 40 48 = to_le_bytes 8 (fnv1a (concat (map record_bytes r))) ∧
  sub_list h 48 56 = to_le_bytes 8 0 ∧ sub_list h 0 56 = wal_fields g n r ∧
  sub_list h 56 64 = to_le_bytes 8 (fnv1a (wal_fields g n r)).
Proof.
  intros h. pose proof (zlen_wal_fields g n r) as Hh. subst h. unfold wal_header.
  set (c := fnv1a (wal_fields g n r)). clearbody c.
  assert (∀ a b, 0 <= a → b <= 56 →
    sub_list (wal_fields g n r ++ to_le_bytes 8 c) a b = sub_list (wal_fields g n r) a b) as Hin.
  { intros. by rewrite sub_list_app_l by lia. }
  split_and!; rewrite ?Hin by lia; [unfold wal_fields; sub_seg; done..| | |].
  - unfold wal_fields. sub_seg. by rewrite sub_list_whole by (zl; lia).
  - by rewrite sub_list_all.
  - rewrite (sub_list_skip _ _ _ _ 56) by lia. apply sub_list_whole; zl; lia.
Qed.

Lemma encode_wal_image old new g :
  WAL_HEADER_SIZE + zlen (wal_records old new) * WAL_RECORD_SIZE <= MAX_WAL_BYTES →
  encode_wal old new g = Ok (wal_image g (zlen new / PAGE_SIZE) (wal_records old new)).
Proof.
  unfold encode_wal. set (r := wal_records old new). set (n := zlen new / PAGE_SIZE).
  pose proof (zlen_nonneg r). clearbody n r. intros Hmax. unfold checked_add.
  assert (MAX_WAL_BYTES = 67240000 ∧ WAL_RECORD_SIZE = 4104 ∧ WAL_HEADER_SIZE = 64)
    as (E1 & E2 & E3) by done.
  rewrite try_from_in by (rewrite USIZE_MAX_eq; lia). cbn [mbind option_bind].
  rewrite (proj2 (Z.leb_le _ _)) by done. cbn [ok_or]. rewrite bind_Ok.
  set (body := concat (map record_bytes r)) in *.
  pose proof (zlen_nonneg body).
  set (h40 := WAL_MAGIC ++ to_le_bytes 4 1 ++ to_le_bytes 4 PAGE_SIZE ++ to_le_bytes 8 g
    ++ to_le_bytes 8 n ++ to_le_bytes 8 (zlen r)).
  assert (zlen h40 = 40) as H40 by (subst h40; zl; lia).
  assert (WAL_MAGIC ++ to_le_bytes 4 1 ++ to_le_bytes 4 PAGE_SIZE ++ to_le_bytes 8 g
      ++ to_le_bytes 8 n ++ to_le_bytes 8 (zlen r) ++ to_le_bytes 8 0 ++ to_le_bytes 8 0
      ++ to_le_bytes 8 0 ++ body
    = h40 ++ to_le_bytes 8 0 ++ to_le_bytes 8 0 ++ to_le_bytes 8 0 ++ body) as ->
    by (subst h40; by rewrite <- !app_assoc).
  assert (wal_image g n r = h40 ++ to_le_bytes 8 (fnv1a body) ++ to_le_bytes 8 0
    ++ to_le_bytes 8 (fnv1a (h40 ++ to_le_bytes 8 (fnv1a body) ++ to_le_bytes 8 0)) ++ body)
    as Himg.
  { unfold wal_image, wal_header, wal_fields. fold body. subst h40. by rewrite <- !app_assoc. }
  rewrite Himg. clear Himg. clearbody h40 body. rewrite E3.
  rewrite slice_ok by (zl; lia). rewrite bind_Ok.
  assert (sub_list (h40 ++ to_le_bytes 8 0 ++ to_le_bytes 8 0 ++ to_le_bytes 8 0 ++ body) 64
    (zlen (h40 ++ to_le_bytes 8 0 ++ to_le_bytes 8 0 ++ to_le_bytes 8 0 ++ body)) = body) as ->.
  { sub_seg. apply sub_list_whole; zl; lia. }
  set (c := fnv1a body). clearbody c.
  overwrite (copy_le_at 8 c _ h40 (to_le_bytes 8 0) _).
  rewrite slice_ok by (zl; lia). rewrite bind_Ok.
  rewrite (app_assoc _ _ (to_le_bytes 8 0 ++ body)), (app_assoc h40).
  rewrite sub_list_head by (zl; lia). rewrite <- app_assoc.
  set (hf := h40 ++ to_le_bytes 8 c ++ to_le_bytes 8 0).
  rewrite (copy_le_at 8 (fnv1a hf) _ hf (to_le_bytes 8 0) body);
    [|subst hf; by rewrite <- ?app_assoc|subst hf; zl; lia|zl; lia].
  subst hf. by rewrite <- !app_assoc.
Qed.

(** ** Reading a log back *)

(** A list of records as [apply_wal] accepts it. *)
Definition records_valid (n : Z) (records : list (Z * list byte)) : Prop :=
  NoDup records.*1 ∧ Forall (λ pb, 0 <= pb.1 < n ∧ zlen pb.2 = PAGE_SIZE) records.

Lemma read_records_ok H n records bytes :
  zlen H = WAL_HEADER_SIZE → 0 <= n <= MAX_PAGES → records_valid n records →
  bytes = H ++ concat (map record_bytes records) →
  for_each (read_record bytes n) (range (zlen records)) ([], ∅)
  = Ok (records, list_to_set records.*1).
Proof.
  intros HH Hn [Hdup Hrec] ->.
  assert (∀ l1 l2, records = l1 ++ l2 →
    for_each (read_record (H ++ concat (map record_bytes records)) n) (range (zlen l1)) ([], ∅)
    = Ok (l1, list_to_set l1.*1)) as Hpre; [|apply (Hpre _ []); by rewrite app_nil_r].
  intros l1. induction l1 as [|[i d] l1 IH] using rev_ind; intros l2 Hl; [done|].
  rewrite <- app_assoc in Hl. rewrite zlen_app. change (zlen [(i, d)]) with 1.
  rewrite range_S by apply zlen_nonneg. rewrite for_each_app, (IH _ Hl), bind_Ok.
  cbn [for_each]. unfold read_record.
  assert (Forall (λ pb : Z * list byte, zlen pb.2 = PAGE_SIZE) l1 ∧ 0 <= i < n
    ∧ zlen d = PAGE_SIZE ∧ i ∉ l1.*1) as (Hl1 & Hi & Hd & Hnot).
  { subst records. apply Forall_app in Hrec as [H1 H2]. apply Forall_cons in H2 as [[? ?] _].
    rewrite fmap_app in Hdup. apply NoDup_app in Hdup as (_ & Hdup & _).
    split; [|split; [done|split; [done|]]].
    - eapply Forall_impl; [exact H1|]. by intros ? [??].
    - intros Hin. apply (Hdup _ Hin). left. }
  pose proof (zlen_records l1 Hl1) as Hz. rewrite Hl, map_app, concat_app. cbn [map concat app].
  set (P := H ++ concat (map record_bytes l1)).
  set (S := concat (map record_bytes l2)).
  assert (H ++ concat (map record_bytes l1) ++ record_bytes (i, d) ++ S
    = P ++ to_le_bytes 8 i ++ d ++ S) as ->.
  { subst P. unfold record_bytes at 2. cbn [fst snd]. by rewrite <- !app_assoc. }
  assert (zlen P = WAL_HEADER_SIZE + zlen l1 * WAL_RECORD_SIZE) as HP
    by (subst P; rewrite zlen_app; lia).
  set (start := WAL_HEADER_SIZE + zlen l1 * WAL_RECORD_SIZE) in *. clearbody P S start.
  rewrite MAX_PAGES_eq in Hn.
  unfold read_u64.
  rewrite (slice_in _ P (to_le_bytes 8 i) (d ++ S) 0 8 start) by first [done | zl; lia].
  rewrite sub_list_whole by (zl; lia). run. rewrite u64_round by lia.
  rewrite try_from_in by (rewrite USIZE_MAX_eq; lia). run.
  rewrite bail_if_pass.
  2:{ apply orb_false_iff; split; [rewrite Z.geb_leb; apply Z.leb_gt; lia|].
      apply bool_decide_eq_false. by rewrite elem_of_list_to_set. }
  run. rewrite (slice_in _ (P ++ to_le_bytes 8 i) d S 0 PAGE_SIZE);
    [|by rewrite <- app_assoc|zl; lia|zl; unfold WAL_RECORD_SIZE; lia|unfold PAGE_SIZE; lia|lia].
  rewrite sub_list_whole by lia. run. f_equal. f_equal.
  rewrite fmap_app, list_to_set_app_L. cbn [fmap list_fmap fst list_to_set].
  rewrite union_empty_r_L. apply union_comm_L.
Qed.

Lemma parse_wal_image g n records :
  0 <= g < 2 ^ 64 → 2 <= n <= MAX_PAGES → records_valid n records → 0 ∈ records.*1 →
  WAL_HEADER_SIZE + zlen records * WAL_RECORD_SIZE <= MAX_WAL_BYTES →
  parse_wal (wal_image g n records) = Ok (n, records) ∧
  read_u64 (wal_image g n records) 16 = Ok g ∧
  zlen (wal_image g n records) = WAL_HEADER_SIZE + zlen records * WAL_RECORD_SIZE.
Proof.
  intros Hg Hn Hrec H0 Hmax.
  pose proof (wal_header_fields g n records) as F. cbv zeta in F.
  destruct F as (F0 & F8 & F12 & F16 & F24 & F32 & F40 & F48 & F56 & FC).
  pose proof (zlen_wal_header g n records) as HH.
  pose proof (λ b, read_records_ok (wal_header g n records) n records b HH) as Hread.
  assert (zlen (concat (map record_bytes records)) = zlen records * WAL_RECORD_SIZE) as HB.
  { apply zlen_records. eapply Forall_impl; [apply Hrec|]. by intros ? [??]. }
  unfold wal_image. set (H := wal_header g n records) in *.
  set (B := concat (map record_bytes records)) in *.
  set (hf := wal_fields g n records) in *. pose proof (zlen_nonneg records).
  rewrite MAX_PAGES_eq in *.
  assert (WAL_RECORD_SIZE = 4104) as HR by done. assert (WAL_HEADER_SIZE = 64) as HW by done.
  assert (MAX_WAL_BYTES = 67240000) as HM by done.
  clearbody H B hf. rewrite HR, HW, HM in *.
  assert (zlen (H ++ B) = 64 + zlen records * 4104) as Htot by (rewrite zlen_app; lia).
  assert (∀ a b, 0 <= a <= b → b <= 64 → @slice io_error _ (H ++ B) a b = Ok (sub_list H a b))
    as Hsl by (intros; apply (slice_in _ [] H B); done || lia).
  split_and!; [|unfold read_u64; rewrite (Hsl 16 (16 + 8)) by lia; change (16 + 8) with 24;
    rewrite F16; run; by rewrite u64_round|done].
  unfold parse_wal, read_u32, read_u64. rewrite HR, HW, HM.
  change (8 + 4) with 12. change (12 + 4) with 16. change (48 + 8) with 56.
  change (56 + 8) with 64. change (24 + 8) with 32. change (32 + 8) with 40.
  change (40 + 8) with 48.
  rewrite bail_if_pass by (apply orb_false_iff; split;
    [apply Z.ltb_ge|rewrite Z.gtb_ltb; apply Z.ltb_ge]; lia). run.
  rewrite (Hsl 0 8), F0 by lia. run.
  rewrite (Hsl 8 12), F8 by lia. run. rewrite u32_round by lia.
  rewrite (Hsl 12 16), F12 by lia. run.
  rewrite (u32_round PAGE_SIZE) by (unfold PAGE_SIZE; lia).
  rewrite (Hsl 48 56), F48 by lia. run. rewrite (u64_round 0) by lia.
  rewrite (Hsl 0 56), F56 by lia. run.
  rewrite (Hsl 56 64), FC by lia. run. rewrite u64_round, Z.eqb_refl by apply fnv1a_range.
  rewrite bool_decide_eq_true_2 by done. rewrite !Z.eqb_refl. run.
  rewrite (Hsl 24 32), F24 by lia. run. rewrite u64_round by lia.
  rewrite try_from_in by (rewrite USIZE_MAX_eq; lia). run.
  rewrite (Hsl 32 40), F32 by lia. run. rewrite u64_round by lia.
  rewrite try_from_in by (rewrite USIZE_MAX_eq; lia). run.
  unfold saturating_mul, checked_add. rewrite Z.min_r by (rewrite USIZE_MAX_eq; lia).
  rewrite try_from_in by (rewrite USIZE_MAX_eq; lia). run.
  rewrite (slice_ok _ 64) by lia. run.
  rewrite (Hsl 40 48), F40 by lia. run. rewrite u64_round by apply fnv1a_range.
  replace (sub_list (H ++ B) 64 (zlen (H ++ B))) with B.
  2:{ rewrite (sub_list_skip _ _ _ _ 64) by lia. symmetry. apply sub_list_whole; lia. }
  rewrite (proj2 (Z.leb_le 2 n)), (proj2 (Z.leb_le n _)) by (rewrite ?MAX_PAGES_eq; lia).
  rewrite Htot, !Z.eqb_refl. run.
  rewrite Hread by (done || lia). run.
  rewrite bool_decide_eq_true_2 by (by rewrite elem_of_list_to_set). run. done.
Qed.

(** ** The records of a log *)

Lemma elem_of_pages_of new i d :
  (i, d) ∈ pages_of new ↔ 0 <= i < zlen new / PAGE_SIZE ∧ d = page_at new i.
Proof.
  unfold pages_of. rewrite list_elem_of_fmap. split.
  - intros (j & [= -> ->] & Hj). by apply elem_of_range in Hj.
  - intros [Hi ->]. exists i. by rewrite elem_of_range.
Qed.

Lemma NoDup_range n : NoDup (range n).
Proof.
  unfold range. apply (NoDup_fmap_2 Z.of_nat), NoDup_seq.
Qed.

Lemma NoDup_filter_fst (P : Z * list byte → Prop) `{∀ x, Decision (P x)} l :
  NoDup l.*1 → NoDup (filter P l).*1.
Proof.
  induction l as [|x l IH]; intros Hd; [done|]. cbn in Hd. apply NoDup_cons in Hd as [Hx Hd].
  rewrite filter_cons. destruct (decide (P x)); [|by apply IH]. cbn. apply NoDup_cons.
  split; [|by apply IH]. intros (y & Hxy & Hy)%list_elem_of_fmap. apply Hx. rewrite Hxy.
  apply list_elem_of_filter in Hy as [_ Hy]. by apply list_elem_of_fmap_2.
Qed.

Lemma wal_records_from old new n :
  zlen new = n * PAGE_SIZE → pages_from new n (wal_records old new) ∧
  records_valid n (wal_records old new).
Proof.
  intros Hlen. assert (zlen new / PAGE_SIZE = n) as Hn by (rewrite Hlen; by apply Z.div_mul).
  assert (Forall (λ pb, 0 <= pb.1 < n ∧ pb.2 = page_at new pb.1) (wal_records old new)) as Hf.
  { apply Forall_forall. intros [i d] Hin. unfold wal_records in Hin.
    apply list_elem_of_filter in Hin as [_ Hin]. apply elem_of_pages_of in Hin.
    by rewrite Hn in Hin. }
  split; [done|]. split.
  - unfold wal_records. apply NoDup_filter_fst. unfold pages_of.
    rewrite <- list_fmap_compose. rewrite (list_fmap_ext _ id); [|done].
    rewrite list_fmap_id. apply NoDup_range.
  - eapply Forall_impl; [exact Hf|]. intros [i d] [Hi Hd]. cbn [fst snd] in *. subst d.
    split; [done|]. by apply zlen_page_at with n.
Qed.

(** A page the log leaves out is the same in the old file. *)
Lemma wal_records_covered old new n :
  zlen new = n * PAGE_SIZE → covered new old n (wal_records old new).
Proof.
  intros Hlen i Hi Hnot k Hk.
  assert (zlen new / PAGE_SIZE = n) as Hn by (rewrite Hlen; by apply Z.div_mul).
  destruct (decide (get_range old (i * PAGE_SIZE) (i * PAGE_SIZE + PAGE_SIZE)
    = Some (page_at new i))) as [Heq|Hne].
  - unfold get_range in Heq. destruct (_ && _); [|done]. injection Heq as Heq.
    assert (∀ l : list byte, l !! k = page_at l i !! (k - Z.to_nat (i * PAGE_SIZE))%nat) as Hl.
    { intros l. unfold page_at. rewrite lookup_sub_list by (unfold PAGE_SIZE in *; lia).
      f_equal. unfold PAGE_SIZE in *. lia. }
    rewrite (Hl old), (Hl new). unfold page_at in *. by rewrite Heq.
  - destruct Hnot. apply list_elem_of_fmap. exists (i, page_at new i). split; [done|].
    unfold wal_records. apply list_elem_of_filter. split; [done|].
    apply elem_of_pages_of. rewrite Hn. done.
Qed.

Lemma wal_records_first old new n :
  zlen new = n * PAGE_SIZE → 0 < n → ¬ agree new old 0 → 0 ∈ (wal_records old new).*1.
Proof.
  intros Hlen Hn Hd. destruct (decide (0 ∈ (wal_records old new).*1)) as [|Hnot]; [done|].
  destruct Hd. apply (wal_records_covered old new n); [done|lia|done].
Qed.

(** ** Generations *)

Lemma slice_agree {E} new cur n a b :
  agree new cur 0 → zlen new = n * PAGE_SIZE → 0 < n → PAGE_SIZE <= zlen cur →
  0 <= a <= b → b <= PAGE_SIZE → @slice E byte cur a b = slice new a b.
Proof.
  intros Ha Hl Hn Hc Hab Hb. rewrite !slice_ok by (unfold PAGE_SIZE in *; lia). f_equal.
  apply list_eq. intros k. destruct (decide (Z.of_nat k < b - a)).
  - rewrite !lookup_sub_list by lia. apply Ha. unfold PAGE_SIZE in *. lia.
  - rewrite !lookup_ge_None_2; [done| |];
      unfold sub_list, ztake, zdrop; rewrite length_take; lia.
Qed.

Lemma current_generation_safe bytes :
  safe (current_generation bytes) (λ g, 0 <= g < 2 ^ 64).
Proof.
  unfold current_generation. rewrite Z.geb_leb. destruct (PAGE_SIZE <=? zlen bytes) eqn:E; [|simpl; lia].
  apply Z.leb_le in E. unfold PAGE_SIZE in E.
  eapply safe_bind; [apply slice_safe; lia|]. intros m _ _.
  destruct (bool_decide _); [|simpl; lia].
  eapply safe_bind; [apply read_u32_safe; lia|]. intros v _ _.
  destruct (v =? VERSION); [|simpl; lia]. apply read_u64_safe; lia.
Qed.

Lemma current_generation_total bytes :
  ∃ g, current_generation bytes = Ok g ∧ 0 <= g < 2 ^ 64.
Proof.
  pose proof (current_generation_safe bytes) as Hs.
  destruct (current_generation bytes) as [g|e|] eqn:Hg; [by exists g| |done].
  exfalso. revert Hg. unfold current_generation, read_u32, read_u64, slice, mbind, outcome_bind.
  repeat case_match; discriminate.
Qed.

(** Files that agree on the header page have the same generation. *)
Lemma current_generation_agree new cur n :
  agree new cur 0 → zlen new = n * PAGE_SIZE → 0 < n → PAGE_SIZE <= zlen cur →
  current_generation cur = current_generation new.
Proof.
  intros Ha Hl Hn Hc. unfold current_generation, read_u32, read_u64.
  rewrite !Z.geb_leb, !(proj2 (Z.leb_le _ _)) by (unfold PAGE_SIZE in *; lia).
  by rewrite !(slice_agree new cur n) by (done || (unfold PAGE_SIZE in *; lia)).
Qed.

Lemma current_generation_image g payload :
  0 <= g < 2 ^ 64 → current_generation (image g VERSION payload) = Ok g.
Proof.
  intros Hg. pose proof (header_page_fields g VERSION payload (page_total payload + 1)) as F.
  cbv zeta in F. destruct F as (F0 & F8 & _ & F16 & _). unfold image.
  set (H := header_page _ _ _ _) in *. set (D := concat _).
  assert (zlen H = 4096) as HH by apply zlen_header_page.
  pose proof (zlen_nonneg D). clearbody H D.
  assert (∀ a b, 0 <= a <= b → b <= 4096 → @slice io_error _ (H ++ D) a b = Ok (sub_list H a b))
    as Hsl by (intros; apply (slice_in _ [] H D); done || lia).
  unfold current_generation, read_u32, read_u64. change (8 + 4) with 12. change (16 + 8) with 24.
  rewrite Z.geb_leb, (proj2 (Z.leb_le _ _)) by (rewrite zlen_app; unfold PAGE_SIZE; lia).
  rewrite (Hsl 0 8), F0 by lia. run. rewrite bool_decide_eq_true_2 by done.
  rewrite (Hsl 8 12), F8 by lia. run. rewrite u32_round, Z.eqb_refl by (unfold VERSION; lia).
  rewrite (Hsl 16 24), F16 by lia. run. by rewrite u64_round.
Qed.
