(* ===== verification/DataRecovery.v ===== *)
(** * Crash atomicity and durability of the DISP Data store

    The abstract view of a store is the image a later fault-free access recovers.
    Every operation, under every fault plan, keeps that view or replaces it by the
    committed image; nothing on disk makes [load] panic. *)

From S2P Require Import Prelude Machine DataFormat DataCodec DataPages DataStore DataWal.
#[local] Open Scope list_scope.
#[local] Open Scope Z_scope.

(** ** Log parsing on arbitrary bytes *)

Lemma read_record_safe bytes n st record count :
  zlen bytes = WAL_HEADER_SIZE + count * WAL_RECORD_SIZE → 0 <= record < count →
  Forall (λ pb, 0 <= pb.1 < n ∧ zlen pb.2 = PAGE_SIZE) st.1 →
  safe (read_record bytes n st record)
    (λ st, Forall (λ pb, 0 <= pb.1 < n ∧ zlen pb.2 = PAGE_SIZE) st.1).
Proof.
  intros Hb Hr Hst. destruct st as [records seen]. cbn [fst] in *. unfold read_record.
  assert (WAL_HEADER_SIZE = 64 ∧ WAL_RECORD_SIZE = 4104 ∧ PAGE_SIZE = 4096) as (-> & -> & HP) by done.
  assert (WAL_HEADER_SIZE = 64 ∧ WAL_RECORD_SIZE = 4104) as (E1 & E2) by done.
  rewrite E1, E2 in Hb.
  eapply safe_bind; [apply read_u64_safe; nia|]. intros id _ Hid. safe_step.
  apply try_from_some in Hq as [<- Hid']. safe_step. apply orb_false_iff in Hq as [Hq _].
  rewrite Z.geb_leb in Hq. apply Z.leb_gt in Hq.
  eapply safe_bind; [apply slice_safe; nia|]. intros d _ ->. cbn [safe fst].
  apply Forall_app; split; [done|]. apply Forall_singleton. cbn [fst snd].
  split; [lia|]. rewrite zlen_sub_list by nia. lia.
Qed.

Lemma parse_wal_safe bytes :
  safe (parse_wal bytes) (λ x, 2 <= x.1 <= MAX_PAGES ∧
    Forall (λ pb, 0 <= pb.1 < x.1 ∧ zlen pb.2 = PAGE_SIZE) x.2).
Proof.
  unfold parse_wal. assert (WAL_HEADER_SIZE = 64) as E1 by done. rewrite E1.
  safe_step. apply orb_false_iff in Hq as [Hq _]. apply Z.ltb_ge in Hq.
  eapply safe_bind; [apply slice_safe; lia|]. intros m _ _.
  do 2 (eapply safe_bind; [apply read_u32_safe; lia|]; intros ? _ _).
  eapply safe_bind; [apply read_u64_safe; lia|]. intros rs _ _.
  eapply safe_bind; [apply slice_safe; lia|]. intros hd _ _.
  eapply safe_bind; [apply read_u64_safe; lia|]. intros cs _ _. safe_step.
  eapply safe_bind; [apply read_u64_safe; lia|]. intros pc _ _. safe_step.
  eapply safe_bind; [apply read_u64_safe; lia|]. intros rc _ _. safe_step.
  apply try_from_some in Hq2 as [<- Hrc]. safe_step. apply try_from_some in Hq2 as [<- Hlen].
  eapply safe_bind; [apply slice_safe; lia|]. intros bd _ _.
  eapply safe_bind; [apply read_u64_safe; lia|]. intros bc _ _. safe_step.
  reflect_bools. unfold saturating_mul in *.
  assert (zlen bytes = WAL_HEADER_SIZE + rc * WAL_RECORD_SIZE) as Hsz.
  { rewrite E1. rewrite USIZE_MAX_eq in *. unfold WAL_RECORD_SIZE, PAGE_SIZE in *. lia. }
  eapply safe_bind; [eapply (safe_for_each
    (λ st, Forall (λ pb, 0 <= pb.1 < v1 ∧ zlen pb.2 = PAGE_SIZE) st.1)); [|by constructor]|].
  - intros st r Hr Hst. apply elem_of_range in Hr. by eapply read_record_safe.
  - intros [records seen] _ Hst. cbn [fst] in Hst. safe_step. cbn [safe fst snd]. done.
Qed.

Lemma merge_wal_safe cur n records :
  2 <= n → Forall (λ pb, 0 <= pb.1 < n ∧ zlen pb.2 = PAGE_SIZE) records →
  safe (merge_wal cur n records) (λ c, zlen c = n * PAGE_SIZE).
Proof.
  intros Hn Hrec. pose proof (zlen_nonneg cur). unfold merge_wal.
  assert (0 <= n * PAGE_SIZE) by (unfold PAGE_SIZE; lia).
  eapply safe_bind; [apply slice_safe; lia|]. intros src _ ->.
  rewrite copy_into_splice; [|lia|rewrite zlen_zeros; lia|rewrite zlen_sub_list; lia].
  rewrite bind_Ok. eapply (safe_for_each (λ c, zlen c = n * PAGE_SIZE)).
  - intros c [i d] Hin Hc. rewrite Forall_forall in Hrec. destruct (Hrec _ Hin) as [Hi Hd].
    cbn [fst snd] in *. change (copy_record c (i, d)) with
      (@copy_into io_error byte c (i * PAGE_SIZE) (i * PAGE_SIZE + PAGE_SIZE) d).
    rewrite copy_into_splice by (unfold PAGE_SIZE in *; nia). cbn [safe].
    rewrite zlen_splice by (unfold PAGE_SIZE in *; lia). unfold PAGE_SIZE in *. nia.
  - rewrite zlen_splice, zlen_zeros, zlen_sub_list by lia. lia.
Qed.

(** ** Weakest preconditions of store computations

    [runs m fs R]: from files [fs], whatever the clock and the counter of
    temporary names, [m] ends in a result and files that satisfy [R]. *)
Abbreviation disk := (gmap Path (list byte)).

Definition runs {A} (m : M A) (fs : disk)
    (R : io A → disk → Prop) : Prop :=
  ∀ w, files w = fs → R (m w).1 (files (m w).2).

Lemma runs_mono {A} (m : M A) (fs : disk) (Q R : io A → disk → Prop) :
  runs m fs Q → (∀ r fs', Q r fs' → R r fs') → runs m fs R.
Proof. unfold runs. auto. Qed.

Lemma runs_bind {A B} (m : M A) (f : A → M B) (fs : disk) R :
  runs m fs (λ r fs', match r with
                      | Ok a => runs (f a) fs' R
                      | Err e => R (Err e) fs'
                      | Panic => R Panic fs'
                      end) → runs (m ≫= f) fs R.
Proof.
  unfold runs, mbind, M_bind. intros H w Hw. specialize (H w Hw).
  destruct (m w) as [[] w']; cbn in *; auto.
Qed.

Lemma runs_ret {A} (a : A) (fs : disk) R : R (Ok a) fs → runs (mret a) fs R.
Proof. by intros H w <-. Qed.

Lemma runs_lift {A} (m : io A) (fs : disk) R : R m fs → runs (lift m) fs R.
Proof. by intros H w <-. Qed.

Lemma runs_lift_bind {A B} (m : io A) (f : A → M B) (fs : disk) R :
  match m with Ok a => runs (f a) fs R | Err e => R (Err e) fs | Panic => R Panic fs end →
  runs (lift m ≫= f) fs R.
Proof. intros H. apply runs_bind, runs_lift. by destruct m. Qed.

Lemma runs_catch {A} (m : M A) (fs : disk) R :
  runs m fs (λ r fs', match r with Panic => R Panic fs' | _ => R (Ok r) fs' end) →
  runs (catch m) fs R.
Proof.
  unfold runs, catch. intros H w Hw. specialize (H w Hw). by destruct (m w) as [[] w'].
Qed.

Lemma runs_ignore {A} (m : M A) (fs : disk) R :
  runs m fs (λ r fs', match r with Panic => R Panic fs' | _ => R (Ok tt) fs' end) →
  runs (ignore m) fs R.
Proof.
  intros H. unfold ignore. apply runs_bind, runs_catch. eapply runs_mono; [exact H|].
  intros [a|e|] fs' HR; [by apply runs_ret|by apply runs_ret|done].
Qed.

(** A loop over records with an invariant on the records still to come. *)
Lemma runs_for_each {A} (body : A → M unit) (I : list A → disk → Prop) (R : io unit → disk → Prop) (l : list A) (fs : disk) :
  (∀ a rest (fs : disk), I (a :: rest) fs → runs (body a) fs (λ r fs',
     match r with Ok _ => I rest fs' | Err e => R (Err e) fs' | Panic => R Panic fs' end)) →
  (∀ fs : disk, I [] fs → R (Ok tt) fs) → I l fs → runs (for_each_M body l) fs R.
Proof.
  intros Hstep Hend. revert fs. induction l as [|a l IH]; intros fs HI.
  - apply runs_ret. by apply Hend.
  - cbn [for_each_M]. apply runs_bind. eapply runs_mono; [by apply Hstep|].
    intros [u|e|] fs'; [apply IH|done|done].
Qed.

Section recovery.
Context (fault : nat → option Z) (pid : Z).

(** Some system call fails under the plan. *)
Definition faulty : Prop := ∃ n k, fault n = Some k.

Lemma runs_sys {A} (act : disk → io A * disk) (torn : Z → disk → disk) (fs : disk)
    (R : io A → disk → Prop) :
  (∀ k, faulty → R (Err os_error) (torn k fs)) → R (act fs).1 (act fs).2 →
  runs (sys fault act torn) fs R.
Proof.
  intros Hf Ha w <-. unfold sys. destruct (fault (clock w)) as [k|] eqn:E; cbn.
  - apply Hf. by eexists _, _.
  - by destruct (act (files w)).
Qed.

Lemma runs_read_bytes (p : Path) (limit : Z) (fs : disk) (R : io (list byte) → disk → Prop) :
  (faulty → R (Err os_error) fs) →
  (fs !! p = None → R (Err not_found) fs) →
  (∀ b, fs !! p = Some b →
     if zlen b >? limit then R (Err (invalid "DISP Data file exceeds its storage limit"%string)) fs
     else R (Ok b) fs) →
  runs (read_bytes fault p limit) fs R.
Proof.
  intros Hf Hn Hs. unfold read_bytes. apply runs_bind. apply runs_sys; [auto|]. cbn.
  destruct (fs !! p) as [b|] eqn:E; [|by apply Hn]. specialize (Hs b eq_refl).
  apply runs_lift_bind. destruct (zlen b >? limit); [done|]. cbn [bail_if].
  apply runs_sys; [auto|]. cbn. by rewrite E.
Qed.

(** ** The abstract view of a store *)

(** [bytes] is a well-formed log that commits the image [new]. *)
Record log_of (bytes new : list byte) (n : Z) (records : list (Z * list byte)) : Prop := {
  log_parse : parse_wal bytes = Ok (n, records);
  log_pages : pages_from new n records;
  log_generation : ∃ g, read_u64 bytes 16 = Ok g ∧ current_generation new = Ok g;
  log_decodes : ∃ s, decode new = Ok s;
  log_count : 0 <= n <= MAX_PAGES;
  log_size : zlen bytes <= MAX_WAL_BYTES }.

(** The log commits [new] and the pages it leaves out are in [cur] already. *)
Definition pending (cur bytes new : list byte) : Prop :=
  ∃ n records, log_of bytes new n records ∧ covered new cur n records ∧
    zlen cur <= MAX_FILE_BYTES.

Context (dir name : string).
Let path : Path := (dir, Some name).
Let wal : Path := (dir, Some (name +:+ ".wal")).
Let backup : Path := (dir, Some (name +:+ ".backup")).

(** [Store fs v]: the store recovers to the image [v], or to no image. *)
Definition Store (fs : disk) (v : option (list byte)) : Prop :=
  match fs !! wal with
  | None => v = match fs !! path with Some b => Some b | None => fs !! backup end ∧
            match v with Some b => ∃ s, decode b = Ok s | None => True end
  | Some bytes => ∃ new, v = Some new ∧ pending (default [] (fs !! path)) bytes new
  end.

(** The snapshot of a view. *)
Definition view (v : option (list byte)) : io Snapshot :=
  match v with Some b => decode b | None => Ok empty_snapshot end.

Lemma Store_ext (fs fs' : disk) (v : option (list byte)) :
  fs' !! path = fs !! path → fs' !! wal = fs !! wal → fs' !! backup = fs !! backup →
  Store fs v → Store fs' v.
Proof. unfold Store. by intros -> -> ->. Qed.

(** ** Recovery *)

Lemma decode_size b s : decode b = Ok s → zlen b <= MAX_FILE_BYTES.
Proof. unfold decode. intros H. inv_ok H. reflect_bools. lia. Qed.

Lemma covered_weaken new cur n (rest records : list (Z * list byte)) :
  (∀ i, i ∈ rest.*1 → i ∈ records.*1) → covered new cur n rest → covered new cur n records.
Proof. intros Hsub Hc i Hi Hnot. apply Hc; auto. Qed.

(** The invariant of the write loop of [apply_wal]. *)
Definition checkpointing (fs0 : disk) (new : list byte) (n : Z)
    (records rest : list (Z * list byte)) (fs : disk) : Prop :=
  (∀ p, p ≠ path → fs !! p = fs0 !! p) ∧
  Forall (λ pb, 0 <= pb.1 < n ∧ pb.2 = page_at new pb.1) rest ∧
  (∀ i, i ∈ rest.*1 → i ∈ records.*1) ∧
  ∃ cur, fs !! path = Some cur ∧ covered new cur n rest ∧ zlen cur <= MAX_FILE_BYTES.

Lemma checkpointing_covered fs0 new n records rest (fs : disk) :
  checkpointing fs0 new n records rest fs →
  (∀ p, p ≠ path → fs !! p = fs0 !! p) ∧ covered new (default [] (fs !! path)) n records ∧
  zlen (default [] (fs !! path)) <= MAX_FILE_BYTES.
Proof.
  intros (Hp & _ & Hsub & cur & -> & Hc & Hz). cbn. split_and!; [done| |done].
  by eapply covered_weaken.
Qed.

(** Writing any part of the next record's page keeps the invariant. *)
Lemma checkpointing_torn fs0 new n records i d rest (fs : disk) data :
  zlen new = n * PAGE_SIZE → 0 <= n <= MAX_PAGES → zlen data <= PAGE_SIZE →
  checkpointing fs0 new n records ((i, d) :: rest) fs →
  checkpointing fs0 new n records ((i, d) :: rest)
    (alter (λ f, splice f (i * PAGE_SIZE) data) path fs).
Proof.
  intros Hlen Hn Hd (Hp & Hf & Hsub & cur & Hcur & Hc & Hz).
  pose proof (Forall_inv Hf) as [Hi _]. cbn [fst] in Hi. split_and!; [|done|done|].
  - intros p Hne. rewrite lookup_alter_ne by done. auto.
  - exists (splice cur (i * PAGE_SIZE) data). rewrite lookup_alter_eq, Hcur. split; [done|]. split.
    + apply covered_write; try done. cbn. left.
    + rewrite zlen_splice by (unfold PAGE_SIZE; lia). rewrite MAX_PAGES_eq in Hn.
      assert (MAX_FILE_BYTES = 16384 * PAGE_SIZE) as HM by done. unfold PAGE_SIZE in *. nia.
Qed.

Lemma checkpointing_written fs0 new n records i d rest (fs : disk) :
  zlen new = n * PAGE_SIZE → 0 <= n <= MAX_PAGES →
  checkpointing fs0 new n records ((i, d) :: rest) fs →
  checkpointing fs0 new n records rest (alter (λ f, splice f (i * PAGE_SIZE) d) path fs).
Proof.
  intros Hlen Hn Hck. pose proof Hck as (_ & Hf & Hsub & _ & _).
  apply Forall_cons in Hf as [[Hi Hd] Hf]. cbn [fst snd] in Hi, Hd.
  pose proof (zlen_page_at new n Hlen i Hi) as Hpg. rewrite <- Hd in Hpg.
  pose proof Hck as (_ & _ & _ & cur & Hcur & Hc & _).
  apply (checkpointing_torn _ _ _ _ _ _ _ _ d) in Hck as (Hp & _ & _ & cur' & Hcur' & _ & Hz);
    [|done|done|lia].
  split_and!; [done|done| |].
  - intros j Hj. apply Hsub. cbn. by right.
  - exists cur'. split; [done|]. split; [|done]. rewrite lookup_alter_eq, Hcur in Hcur'.
    injection Hcur' as <-. subst d. by apply covered_step.
Qed.

(** The write phase of [apply_wal]. *)
Lemma checkpoint_spec (fs0 fs : disk) new n records :
  zlen new = n * PAGE_SIZE → 0 <= n <= MAX_PAGES →
  checkpointing fs0 new n records records fs →
  runs (_ ← for_each_M (λ pb, fs_write_at fault path (pb.1 * PAGE_SIZE) pb.2) records;
        _ ← fs_set_len fault path (n * PAGE_SIZE); fs_sync fault) fs
    (λ r fs', (∀ p, p ≠ path → fs' !! p = fs0 !! p) ∧
       covered new (default [] (fs' !! path)) n records ∧
       zlen (default [] (fs' !! path)) <= MAX_FILE_BYTES ∧
       match r with Ok _ => fs' !! path = Some new | Err _ => faulty | Panic => False end).
Proof.
  intros Hlen Hn Hck. assert (∀ rest (fs' : disk), checkpointing fs0 new n records rest fs' →
    (∀ p, p ≠ path → fs' !! p = fs0 !! p) ∧ covered new (default [] (fs' !! path)) n records ∧
    zlen (default [] (fs' !! path)) <= MAX_FILE_BYTES) as Hout
    by (intros *; apply checkpointing_covered).
  apply runs_bind, (runs_for_each _ (checkpointing fs0 new n records)); [| |done].
  - intros [i d] rest fs' Hck'. pose proof Hck' as (_ & Hf & _).
    apply Forall_inv in Hf as [Hi Hd]. cbn [fst snd] in *.
    pose proof (zlen_page_at new n Hlen i Hi) as Hpg. rewrite <- Hd in Hpg.
    apply runs_sys; [|by apply (checkpointing_written _ _ _ _ _ d)].
    intros k Hfault. edestruct (Hout ((i, d) :: rest)) as (? & ? & ?);
      [|split_and!; done]. apply checkpointing_torn; try done.
    unfold ztake, zlen in *. rewrite length_take. lia.
  - intros fs' (Hp & _ & _ & cur & Hcur & Hc & Hz). apply runs_bind, runs_sys.
    { intros _ Hf. rewrite Hcur. cbn. split_and!; try done. eapply covered_weaken; [|exact Hc].
      cbn. set_solver. }
    cbn. set (fs2 := alter _ path fs').
    assert (fs2 !! path = Some new) as Hnew.
    { subst fs2. rewrite lookup_alter_eq, Hcur. cbn. f_equal.
      pose proof (zlen_nonneg new). apply (agree_all new n Hlen); [apply zlen_resize; lia|].
      intros i Hi. apply agree_resize; [done|done|]. apply Hc; [done|]. apply not_elem_of_nil. }
    assert (∀ p, p ≠ path → fs2 !! p = fs0 !! p) as Hother.
    { intros p Hne. subst fs2. rewrite lookup_alter_ne by done. auto. }
    assert (zlen new <= MAX_FILE_BYTES) as Hnz.
    { rewrite Hlen. rewrite MAX_PAGES_eq in Hn.
      assert (MAX_FILE_BYTES = 16384 * PAGE_SIZE) as -> by done. unfold PAGE_SIZE. lia. }
    clearbody fs2. apply runs_sys; [intros _ Hf|]; cbn; rewrite Hnew; cbn;
      (split_and!; try done); intros i Hi Hnot k Hk; done.
Qed.

Lemma runs_read_or_empty (p : Path) (fs : disk) (R : io (list byte) → disk → Prop) :
  (faulty → R (Err os_error) fs) → zlen (default [] (fs !! p)) <= MAX_FILE_BYTES →
  R (Ok (default [] (fs !! p))) fs → runs (read_or_empty fault p) fs R.
Proof.
  intros Hf Hz Hr. apply runs_bind, runs_catch, runs_read_bytes.
  - intros Hfault. apply runs_lift. cbn. auto.
  - intros Hnone. apply runs_lift. cbn. by rewrite Hnone in Hr.
  - intros b Hb. rewrite Hb in Hz, Hr. cbn in Hz, Hr.
    rewrite Z.gtb_ltb, (proj2 (Z.ltb_ge _ _)) by done. by apply runs_lift.
Qed.

(** [apply_wal] on a pending log: only the data file changes, the log stays
    pending whatever fails, and success leaves exactly the committed image. *)
Lemma apply_wal_spec (fs : disk) bytes new :
  pending (default [] (fs !! path)) bytes new →
  runs (apply_wal fault path bytes) fs (λ r fs',
    (∀ p, p ≠ path → fs' !! p = fs !! p) ∧ pending (default [] (fs' !! path)) bytes new ∧
    match r with Ok _ => fs' !! path = Some new | Err _ => faulty | Panic => False end).
Proof.
  intros Hpend. pose proof Hpend as (n & records & Hlog & Hcov & Hsz).
  pose proof Hlog as [Hparse Hpages (g & Hg & Hgen) (s & Hdec) Hn _].
  pose proof Hpages as [Hlen Hrec].
  unfold apply_wal. apply runs_lift_bind. rewrite Hparse.
  apply runs_bind, runs_read_or_empty; [done|done|]. unfold checkpoint.
  apply runs_lift_bind. rewrite (merge_wal_ok new n records) by done.
  apply runs_lift_bind. rewrite Hgen. apply runs_lift_bind. rewrite Hg.
  rewrite Z.eqb_refl. apply runs_lift_bind; cbn [negb bail_if].
  apply runs_lift_bind. rewrite Hdec. cbn [map_err].
  apply runs_bind, runs_sys; [intros _ Hf; by split_and!|]. cbn.
  eapply runs_mono; [apply (checkpoint_spec fs _ new n records); [done|done|]|].
  - destruct (fs !! path) as [cur|] eqn:E; cbn in Hcov, Hsz.
    + split_and!; [done|done|done|]. by exists cur.
    + split_and!; [intros; by rewrite lookup_insert_ne|done|done|].
      exists []. by rewrite lookup_insert_eq.
  - intros r fs' (Hp & Hc & Hz & Hr). split_and!; [done| |done]. by exists n, records.
Qed.

(** ** Opening *)

Lemma path_wal : path ≠ wal.
Proof. intros [= H]. by apply append_neq in H. Qed.
Lemma path_backup : path ≠ backup.
Proof. intros [= H]. by apply append_neq in H. Qed.
Lemma wal_backup : wal ≠ backup.
Proof. by intros [= H%(inj (String.append name))]. Qed.

(** [recover_wal] keeps the view, and completes unless a system call fails. *)
Lemma recover_wal_spec (fs : disk) v :
  Store fs v →
  runs (recover_wal fault path) fs (λ r fs', Store fs' v ∧
    match r with
    | Ok _ => fs' !! wal = None ∧ (∀ p, p ≠ path → p ≠ wal → fs' !! p = fs !! p)
    | Err _ => faulty | Panic => False end).
Proof.
  intros HS. unfold recover_wal. apply runs_lift_bind. cbn.
  apply runs_bind, runs_catch, runs_read_bytes.
  - intros Hf. by apply runs_lift.
  - intros Hnone. by apply runs_ret.
  - intros bytes Hb. fold wal in Hb. pose proof HS as HS0. unfold Store in HS. rewrite Hb in HS.
    destruct HS as (new & -> & Hpend).
    assert (zlen bytes <= MAX_WAL_BYTES) by (destruct Hpend as (? & ? & [] & _); done).
    rewrite Z.gtb_ltb, (proj2 (Z.ltb_ge _ _)) by done.
    apply runs_bind. eapply runs_mono; [by apply apply_wal_spec|].
    intros r fs' (Hother & Hpend' & Hr).
    assert (Store fs' (Some new)) as HS'.
    { unfold Store. rewrite Hother, Hb by apply not_eq_sym, path_wal. by exists new. }
    destruct r as [[]|e|]; [|done|done].
    apply runs_sys; [done|]. fold wal. rewrite Hother, Hb by apply not_eq_sym, path_wal. cbn.
    rewrite lookup_delete_eq. split_and!; [|done|].
    + unfold Store. rewrite lookup_delete_eq, lookup_delete_ne, Hr by apply not_eq_sym, path_wal.
      split; [done|]. by destruct Hpend as (? & ? & [] & _).
    + intros p Hp Hw. rewrite lookup_delete_ne by done. by apply Hother.
Qed.

Definition lock_of : Lock := mkLock (dir, Some (name +:+ ".lock")).

Lemma protects_lock_of : protects lock_of path = Ok true.
Proof. unfold protects. cbn. by rewrite bool_decide_eq_true_2. Qed.

Lemma runs_read_snapshot (p : Path) (fs : disk) (R : io Snapshot → disk → Prop) :
  (faulty → R (Err os_error) fs) → (fs !! p = None → R (Err not_found) fs) →
  (∀ b s, fs !! p = Some b → decode b = Ok s → R (Ok s) fs) →
  (∀ b, fs !! p = Some b → ∃ s, decode b = Ok s) → runs (read_snapshot fault p) fs R.
Proof.
  intros Hf Hn Hs Hd. apply runs_bind, runs_read_bytes; [done|done|].
  intros b Hb. destruct (Hd b Hb) as [s Hdec]. pose proof (decode_size _ _ Hdec).
  rewrite Z.gtb_ltb, (proj2 (Z.ltb_ge _ _)) by done. apply runs_lift. rewrite Hdec. eauto.
Qed.

(** [load] keeps the view and returns it, unless a system call fails; the one
    case in which a failing call is not reported is the query for the backup. *)
Lemma load_spec (fs : disk) v :
  Store fs v →
  runs (load fault path lock_of) fs (λ r fs', Store fs' v ∧
    match r with
    | Ok s => view v = Ok s ∨ (s = empty_snapshot ∧ fs' !! path = None ∧ fs' !! wal = None)
    | Err _ => faulty | Panic => False end).
Proof.
  intros HS. unfold load. apply runs_lift_bind. rewrite protects_lock_of. apply runs_lift_bind.
  cbn [negb bail_if]. apply runs_bind. eapply runs_mono; [by apply recover_wal_spec|].
  clear HS. intros r fs1 [HS Hr]. destruct r as [[]|e|]; [|done|done].
  destruct Hr as [Hwal _]. clear fs. rename fs1 into fs. apply runs_lift_bind. cbn.
  pose proof HS as HS'. unfold Store in HS'. rewrite Hwal in HS'. destruct HS' as [Hv Hdec].
  apply runs_bind, runs_catch, runs_read_snapshot.
  - intros Hf. by apply runs_lift.
  - intros Hnone. cbn. unfold fs_is_file. apply runs_bind, runs_bind, runs_catch.
    rewrite Hnone in Hv.
    apply runs_sys; [intros _ Hf; apply runs_ret, runs_ret; cbn; split; [done|by right]|].
    fold backup. destruct (fs !! backup) as [b|] eqn:Hb; cbn.
    all: subst v. 2:{ apply runs_ret, runs_ret. auto. }
    destruct Hdec as [s Hdec].
    apply runs_ret, runs_bind, runs_catch, runs_read_snapshot.
    + intros Hf. apply runs_lift_bind. by cbn.
    + congruence.
    + intros b' s' Hb' Hd'. fold backup in Hb'. apply runs_lift_bind. cbn.
      assert (b' = b) as -> by congruence.
      apply runs_bind, runs_sys; [done|]. fold backup. rewrite Hb. cbn. apply runs_ret.
      split; [|by left]. unfold Store.
      rewrite lookup_insert_ne, lookup_delete_ne, Hwal, lookup_insert_eq
        by (apply path_wal || apply not_eq_sym, wal_backup). eauto.
    + fold backup. intros b' Hb'. assert (b' = b) as -> by congruence. eauto.
  - intros b s Hb Hd. apply runs_ret. rewrite Hb in Hv. subst v. split; [done|by left].
  - intros b Hb. rewrite Hb in Hv. by subst v.
Qed.

(** ** Committing *)

Lemma wal_records_bound old new n :
  zlen new = n * PAGE_SIZE → 0 <= n <= MAX_PAGES →
  WAL_HEADER_SIZE + zlen (wal_records old new) * WAL_RECORD_SIZE <= MAX_WAL_BYTES.
Proof.
  intros Hlen Hn. assert (zlen (wal_records old new) <= n) as Hcount.
  { unfold wal_records, zlen. etransitivity; [apply inj_le, length_filter|].
    unfold pages_of, range. rewrite length_map, length_map, length_seq, Hlen, Z.div_mul by done. lia. }
  assert (MAX_WAL_BYTES = WAL_HEADER_SIZE + MAX_PAGES * WAL_RECORD_SIZE) as -> by done.
  unfold WAL_RECORD_SIZE, PAGE_SIZE. lia.
Qed.

(** The log [commit] builds over the file it read is pending over that file. *)
Lemma fresh_log s old g0 new :
  zlen old <= MAX_FILE_BYTES → current_generation old = Ok g0 → g0 + 1 < 2 ^ 64 →
  encode_pages s (g0 + 1) = Ok new → (∃ s', decode new = Ok s') →
  ∃ bytes, encode_wal old new (g0 + 1) = Ok bytes ∧ pending old bytes new.
Proof.
  intros Hold Hg0 Hg Henc Hdec. pose proof (current_generation_safe old) as Hr.
  rewrite Hg0 in Hr. cbn in Hr. apply encode_pages_version_ok in Henc as (payload & _ & Hmax & ->).
  set (n := page_total payload + 1) in *. pose proof (page_total_pos payload).
  pose proof (zlen_image (g0 + 1) VERSION payload) as Hlen. fold n in Hlen.
  pose proof (current_generation_image (g0 + 1) payload) as Hgen.
  set (new := image _ _ _) in *. clearbody new.
  destruct (wal_records_from old new n Hlen) as [Hpages Hvalid].
  pose proof (wal_records_bound old new n Hlen ltac:(lia)) as Hw. rewrite MAX_PAGES_eq in Hmax.
  rewrite encode_wal_image by done. eexists. split; [done|].
  rewrite Hlen, Z.div_mul by done.
  destruct (parse_wal_image (g0 + 1) n (wal_records old new)) as (Hparse & Hread & Hsz);
    [lia|rewrite MAX_PAGES_eq; lia|done| |done|].
  { apply (wal_records_first old new n); [done|lia|]. intros Ha.
    assert (PAGE_SIZE <= zlen old) as Hp.
    { destruct (lookup_new new n Hlen 0 4095%nat) as [x Hx]; [lia|unfold PAGE_SIZE; lia|].
      rewrite <- (Ha 4095%nat) in Hx by (unfold PAGE_SIZE; lia).
      apply lookup_lt_Some in Hx. unfold zlen, PAGE_SIZE. lia. }
    pose proof (current_generation_agree new old n Ha Hlen) as He.
    rewrite Hg0, Hgen in He by lia. specialize (He ltac:(lia) Hp). injection He. lia. }
  exists n, (wal_records old new). split; [|split; [by apply wal_records_covered|done]].
  split; [done|done| |done|rewrite MAX_PAGES_eq; lia|lia]. exists (g0 + 1). rewrite Hgen by lia. done.
Qed.

Definition temporary (id : Z) : Path :=
  (dir, Some (name +:+ (".wal.tmp-" +:+ display_Z pid +:+ "-" +:+ display_Z id))).

Lemma temporary_fresh id :
  temporary id ≠ path ∧ temporary id ≠ wal ∧ temporary id ≠ backup.
Proof.
  unfold temporary. split_and!.
  - intros H. injection H as H. symmetry in H. by apply append_neq in H.
  - by intros [= H%(inj (String.append name))].
  - by intros [= H%(inj (String.append name))].
Qed.

(** What a commit leaves: on success the new image; on failure the old view, or
    the new one when a call failed after the commit point. *)
Definition outcome_spec (v : option (list byte)) (new : list byte) (excuse : Prop)
    (r : io unit) (fs' : disk) : Prop :=
  match r with
  | Ok _ => Store fs' (Some new)
  | Err _ => (Store fs' v ∧ (faulty ∨ excuse)) ∨ (Store fs' (Some new) ∧ faulty)
  | Panic => False
  end.

Lemma Store_temporary (fs fs' : disk) v id :
  (∀ p, p ≠ temporary id → fs' !! p = fs !! p) → Store fs v → Store fs' v.
Proof.
  destruct (temporary_fresh id) as (? & ? & ?). intros Hp.
  apply Store_ext; apply Hp; by apply not_eq_sym.
Qed.

(** From the rename on, the new image is what the store recovers to. *)
Lemma commit_tail_spec (fs : disk) v bytes new excuse :
  fs !! wal = Some bytes → pending (default [] (fs !! path)) bytes new →
  runs (_ ← ignore (fs_sync fault);
        r ← catch (apply_wal fault path bytes);
        if is_ok r then
          _ ← fs_remove fault wal;
          backup ← lift (suffix path ".backup");
          ignore (fs_remove fault backup)
        else mret tt) fs (outcome_spec v new excuse).
Proof.
  intros Hwal Hpend. apply runs_bind, runs_ignore.
  assert (runs (r ← catch (apply_wal fault path bytes);
        if is_ok r then
          _ ← fs_remove fault wal;
          backup ← lift (suffix path ".backup");
          ignore (fs_remove fault backup)
        else mret tt) fs (outcome_spec v new excuse)) as Hrest; [|by apply runs_sys].
  apply runs_bind, runs_catch. eapply runs_mono; [by apply apply_wal_spec|].
  intros r fs' (Hother & Hpend' & Hr).
  assert (fs' !! wal = Some bytes) as Hwal' by (rewrite Hother; [done|apply not_eq_sym, path_wal]).
  assert (Store fs' (Some new)) as HS' by (unfold Store; rewrite Hwal'; by exists new).
  destruct r as [[]|e|]; [|by apply runs_ret|done]. cbn.
  apply runs_bind, runs_sys; [by right|]. rewrite Hwal'. cbn.
  apply runs_lift_bind. cbn. fold backup. set (fs2 := delete wal fs').
  assert (fs2 !! wal = None ∧ fs2 !! path = Some new) as [Hw2 Hp2].
  { subst fs2. rewrite lookup_delete_eq, lookup_delete_ne by (apply not_eq_sym, path_wal). done. }
  assert (∃ s, decode new = Ok s) as Hdec by (by destruct Hpend as (? & ? & [] & _)).
  assert (∀ fs3 : disk, fs3 !! wal = None → fs3 !! path = Some new → Store fs3 (Some new)) as Hclean.
  { intros fs3 H1 H2. unfold Store. by rewrite H1, H2. }
  apply runs_ignore, runs_sys; [intros _ _; by apply Hclean|].
  destruct (fs2 !! backup) eqn:Hb; cbn; apply Hclean; try done.
  - rewrite lookup_delete_ne; [done|apply not_eq_sym, wal_backup].
  - rewrite lookup_delete_ne; [done|apply not_eq_sym, path_backup].
Qed.

Lemma splice_nil data : splice [] 0 data = data.
Proof.
  unfold splice. cbn. unfold zdrop. rewrite drop_ge by (cbn; lia). by rewrite app_nil_r.
Qed.

Lemma commit_log_spec (fs : disk) v bytes new id :
  Store fs v → pending (default [] (fs !! path)) bytes new →
  runs (commit_log fault path (temporary id) wal bytes) fs
    (outcome_spec v new (fs !! temporary id ≠ None)).
Proof.
  intros HS Hpend. destruct (temporary_fresh id) as (Hn1 & Hn2 & Hn3). unfold commit_log.
  assert (∀ fs' : disk, (∀ p, p ≠ temporary id → fs' !! p = fs !! p) → faulty →
    outcome_spec v new (fs !! temporary id ≠ None) (Err os_error) fs') as Herr.
  { intros fs' Hp Hf. left. split; [by eapply Store_temporary|by left]. }
  apply runs_bind, runs_sys; [intros _ Hf; by apply Herr|].
  destruct (fs !! temporary id) eqn:Ht; cbn; [left; split; [done|by right]|].
  set (fs1 := <[temporary id := []]> fs).
  assert (∀ fs' : disk, (∀ p, p ≠ temporary id → fs' !! p = fs1 !! p) →
    ∀ p, p ≠ temporary id → fs' !! p = fs !! p) as Htrans.
  { intros fs' H p Hp. rewrite H by done. subst fs1. by rewrite lookup_insert_ne. }
  apply runs_bind, runs_sys.
  { intros k Hf. apply Herr; [|done]. apply Htrans. intros p Hp. by rewrite lookup_alter_ne. }
  cbn [fst snd]. set (fs2 := alter (λ f, splice f 0 bytes) (temporary id) fs1).
  assert (∀ p, p ≠ temporary id → fs2 !! p = fs !! p) as H2
    by (intros; subst fs2 fs1; by rewrite lookup_alter_ne, lookup_insert_ne).
  assert (fs2 !! temporary id = Some bytes) as Hb
    by (subst fs2 fs1; rewrite lookup_alter_eq, lookup_insert_eq; cbn; by rewrite splice_nil).
  clearbody fs2. clear Htrans fs1.
  apply runs_bind, runs_sys; [intros _ Hf; by apply Herr|]. cbn.
  apply runs_bind, runs_sys; [intros _ Hf; by apply Herr|].
  rewrite Hb. cbn. apply commit_tail_spec.
  - by rewrite lookup_insert_eq.
  - rewrite lookup_insert_ne, lookup_delete_ne, H2 by (done || apply not_eq_sym; (done || apply path_wal)).
    done.
Qed.

(** Reasons for an error that are no system call's failure. *)
Definition refused (fs : disk) (v : option (list byte)) (s : Snapshot) : Prop :=
  (∃ g e, encode_pages s g = Err e) ∨ current_generation (default [] v) = Ok U64_MAX ∨
  ∃ id, fs !! temporary id ≠ None.

Lemma runs_remove_temporary (fs : disk) (v : option (list byte)) id (R : io unit → disk → Prop) :
  (∀ fs' : disk, (∀ v, Store fs v → Store fs' v) → R (Ok tt) fs') →
  runs (ignore (fs_remove fault (temporary id))) fs R.
Proof.
  intros H. apply runs_ignore, runs_sys; [intros _ _; by apply H|].
  destruct (fs !! temporary id); cbn; apply H; [|done]. intros v'.
  apply (Store_temporary _ _ _ id). intros p Hp. by rewrite lookup_delete_ne.
Qed.

Lemma runs_fetch (fs : disk) (R : io Z → disk → Prop) :
  (∀ id, R (Ok id) fs) → runs fetch_temporary fs R.
Proof. intros H w <-. apply H. Qed.

(** The part of [commit] that follows the choice of a generation. *)
Lemma commit_encoded_spec (fs : disk) v s old g0 :
  Store fs v → snapshot_valid 15 s → old = default [] (fs !! path) →
  zlen old <= MAX_FILE_BYTES → current_generation old = Ok g0 → g0 + 1 < 2 ^ 64 →
  runs (new ← lift (encode_pages s (g0 + 1));
        wal_bytes ← lift (encode_wal old new (g0 + 1));
        id ← fetch_temporary;
        temporary ← lift (suffix path (".wal.tmp-" +:+ display_Z pid +:+ "-" +:+ display_Z id));
        wal ← lift (suffix path ".wal");
        result ← catch (commit_log fault path temporary wal wal_bytes);
        match result with
        | Err e => _ ← ignore (fs_remove fault temporary); lift (Err e)
        | r => lift r
        end) fs (λ r fs', match r with
    | Ok _ => ∃ new, Store fs' (Some new) ∧ decode new = Ok (canonical s)
    | Err _ => (Store fs' v ∧ (faulty ∨ refused fs v s)) ∨
        (∃ new, Store fs' (Some new) ∧ decode new = Ok (canonical s) ∧ faulty)
    | Panic => False end).
Proof.
  intros HS Hs Hold Hsz Hg0 Hg. pose proof (current_generation_safe old) as Hr.
  rewrite Hg0 in Hr. cbn in Hr.
  apply runs_lift_bind. destruct (encode_pages s (g0 + 1)) as [new|e|] eqn:Henc.
  2:{ left. split; [done|]. right. left. eauto. }
  2:{ by eapply encode_pages_no_panic. }
  assert (decode new = Ok (canonical s)) as Hdec.
  { apply (pages_round_trip s (g0 + 1) VERSION 15 true); [done|done|lia|done]. }
  destruct (fresh_log s old g0 new) as (bytes & Hwal & Hpend); [done|done|done|done|eauto|].
  apply runs_lift_bind. rewrite Hwal. apply runs_bind, runs_fetch. intros id.
  apply runs_lift_bind. cbn [suffix fst snd ok_or mbind outcome_bind path]. fold (temporary id).
  apply runs_lift_bind. cbn [suffix fst snd ok_or mbind outcome_bind path]. fold wal.
  apply runs_bind, runs_catch. eapply runs_mono.
  { apply (commit_log_spec _ v _ new id); [done|by subst old]. }
  intros r fs' Hr'. destruct r as [[]|e|]; [apply runs_lift; by exists new| |done].
  apply runs_bind, (runs_remove_temporary _ v). intros fs2 Hkeep. apply runs_lift.
  destruct Hr' as [[HS' Hwhy]|[HS' Hf]].
  - left. split; [by apply Hkeep|]. destruct Hwhy as [|Hex]; [by left|].
    right. right. right. by exists id.
  - right. exists new. split_and!; [by apply Hkeep|done|done].
Qed.

Lemma commit_spec (fs : disk) v s :
  Store fs v → snapshot_valid 15 s →
  runs (commit fault pid path s lock_of) fs (λ r fs', match r with
    | Ok _ => ∃ new, Store fs' (Some new) ∧ decode new = Ok (canonical s)
    | Err _ => (Store fs' v ∧ (faulty ∨ refused fs v s)) ∨
        (∃ new, Store fs' (Some new) ∧ decode new = Ok (canonical s) ∧ faulty)
    | Panic => False end).
Proof.
  intros HS Hs. unfold commit. apply runs_lift_bind. rewrite protects_lock_of.
  apply runs_lift_bind. cbn [negb bail_if].
  apply runs_bind. eapply runs_mono; [by apply recover_wal_spec|].
  intros r fs1 [HS1 Hr]. destruct r as [[]|e|]; [|left; split; [done|by left]|done].
  destruct Hr as [Hwal Hsame].
  assert (faulty → (Store fs1 v ∧ (faulty ∨ refused fs v s)) ∨
    (∃ new, Store fs1 (Some new) ∧ decode new = Ok (canonical s) ∧ faulty)) as Herr
    by (intros Hf; left; split; [done|by left]).
  apply runs_bind, runs_sys; [intros _ Hf; by apply Herr|]. cbn.
  pose proof HS1 as HS2. unfold Store in HS2. rewrite Hwal in HS2. destruct HS2 as [Hv Hdec].
  assert (zlen (default [] (fs1 !! path)) <= MAX_FILE_BYTES) as Hsz.
  { destruct (fs1 !! path) as [b|]; [|done]. subst v. destruct Hdec as [? Hd].
    by eapply decode_size. }
  apply runs_bind, runs_read_or_empty; [intros Hf; by apply Herr|done|].
  destruct (current_generation_total (default [] (fs1 !! path))) as (g0 & Hg0 & Hgs).
  apply runs_lift_bind. rewrite Hg0.
  apply runs_lift_bind. unfold checked_add, try_from.
  destruct ((0 <=? g0 + 1) && (g0 + 1 <=? U64_MAX)) eqn:Hmax; cbn [ok_or].
  - apply andb_true_iff in Hmax as [_ Hmax]. apply Z.leb_le in Hmax.
    eapply runs_mono; [eapply (commit_encoded_spec fs1 v s); try done; unfold U64_MAX in Hmax; lia|].
    intros r fs2 Hr. destruct r as [[]|e|]; [done| |done].
    destruct Hr as [[? [?|Hre]]|?]; [left; auto| |by right].
    left. split; [done|]. right. destruct Hre as [?|[?|(id & Hid)]]; [by left|right; by left|].
    right; right. exists id. destruct (temporary_fresh id) as (? & ? & ?). by rewrite <- Hsame.
  - left. split; [done|]. right. right. left.
    assert (g0 = U64_MAX) as -> by (apply andb_false_iff in Hmax as [H|H];
      apply Z.leb_gt in H; unfold U64_MAX in *; lia).
    destruct (fs1 !! path) as [b|]; [by subst v|]. exfalso. revert Hg0. cbn.
    unfold current_generation. by cbn.
Qed.
End recovery.
