(* ===== verification/DataSafety.v ===== *)
(** * Panic freedom of the DISP Data store, and whole sessions

    Whatever bytes are on disk and whichever system calls fail, no operation of the
    store panics.  Sequences of operations, each under its own fault plan, refine an
    abstract store that holds one snapshot. *)

From S2P Require Import Prelude Machine DataFormat DataCodec DataPages DataStore DataWal DataRecovery.
#[local] Open Scope list_scope.
#[local] Open Scope Z_scope.

(** ** Computations that neither panic nor create the backup *)

Section tame.
Context (fault : nat → option Z) (pid : Z) (dir name : string).
Let path : Path := (dir, Some name).
Let wal : Path := (dir, Some (name +:+ ".wal")).
Let backup : Path := (dir, Some (name +:+ ".backup")).

(** The property kept: nothing when [K] is false, no backup file otherwise. *)
Context (K : Prop).
Definition unbacked (fs : disk) : Prop := K → fs !! backup = None.

Definition tame {A} (m : M A) : Prop :=
  ∀ fs, unbacked fs → runs m fs (λ r fs', r ≠ Panic ∧ unbacked fs').

Lemma tame_bind {A B} (m : M A) (f : A → M B) :
  tame m → (∀ a, tame (f a)) → tame (m ≫= f).
Proof.
  intros Hm Hf fs Hfs. apply runs_bind. eapply runs_mono; [by apply Hm|].
  intros [a|e|] fs' [Hr Hfs']; [by apply Hf|by split|done].
Qed.
Lemma tame_ret {A} (a : A) : tame (mret a).
Proof. intros fs Hfs. by apply runs_ret. Qed.
Lemma tame_lift {A} (m : io A) : m ≠ Panic → tame (lift m).
Proof. intros Hm fs Hfs. by apply runs_lift. Qed.
Lemma tame_lift_bind {A B} (m : io A) Q (f : A → M B) :
  safe m Q → (∀ a, m = Ok a → Q a → tame (f a)) → tame (lift m ≫= f).
Proof.
  intros Hm Hf fs Hfs. apply runs_lift_bind. destruct m as [a|e|]; [by apply Hf|by split|done].
Qed.
Lemma tame_catch {A} (m : M A) : tame m → tame (catch m).
Proof.
  intros Hm fs Hfs. apply runs_catch. eapply runs_mono; [by apply Hm|].
  by intros [a|e|] fs' [Hr Hfs'].
Qed.
Lemma tame_ignore {A} (m : M A) : tame m → tame (ignore m).
Proof. intros Hm. apply tame_bind; [by apply tame_catch|]. intros. apply tame_ret. Qed.
Lemma tame_for_each {A} (body : A → M unit) l :
  (∀ a, tame (body a)) → tame (for_each_M body l).
Proof.
  intros Hb. induction l; [apply tame_ret|]. cbn. apply tame_bind; [done|]. by intros _.
Qed.

(** A system call on a path other than the backup. *)
Lemma tame_sys {A} (act : disk → io A * disk) torn :
  (∀ fs, (act fs).1 ≠ Panic) →
  (∀ fs, fs !! backup = None → (act fs).2 !! backup = None) →
  (∀ k fs, fs !! backup = None → torn k fs !! backup = None) →
  tame (sys fault act torn).
Proof.
  intros Hp Ha Ht fs Hfs. apply runs_sys.
  - intros k _. split; [done|]. intros HK. auto.
  - split; [apply Hp|]. intros HK. auto.
Qed.

Ltac tame_call := apply tame_sys; cbn; intros; repeat case_match; cbn; simplify_map_eq; done.

Lemma tame_read p : tame (fs_read fault p).
Proof. tame_call. Qed.
Lemma tame_len p : tame (fs_len fault p).
Proof. tame_call. Qed.
Lemma tame_sync : tame (fs_sync fault).
Proof. tame_call. Qed.
Lemma tame_open p : p ≠ backup → tame (fs_open_or_create fault p).
Proof. intros. tame_call. Qed.
Lemma tame_create p : p ≠ backup → tame (fs_create_new fault p).
Proof. intros. tame_call. Qed.
Lemma tame_write p off d : p ≠ backup → tame (fs_write_at fault p off d).
Proof. intros. apply tame_sys; cbn; intros; by rewrite ?lookup_alter_ne. Qed.
Lemma tame_set_len p n : p ≠ backup → tame (fs_set_len fault p n).
Proof. intros. apply tame_sys; cbn; intros; by rewrite ?lookup_alter_ne. Qed.
Lemma tame_remove p : tame (fs_remove fault p).
Proof.
  apply tame_sys; cbn; intros; repeat case_match; cbn; try done.
  by apply lookup_delete_None; right.
Qed.
Lemma tame_rename p q : q ≠ backup → tame (fs_rename fault p q).
Proof.
  intros. apply tame_sys; cbn; intros; repeat case_match; cbn; try done.
  rewrite lookup_insert_ne by done. by apply lookup_delete_None; right.
Qed.

Lemma tame_read_bytes p limit : tame (read_bytes fault p limit).
Proof.
  apply tame_bind; [apply tame_len|]. intros len. eapply tame_lift_bind; [apply safe_bail_if|].
  intros _ _ _. apply tame_read.
Qed.
Lemma tame_read_snapshot p : tame (read_snapshot fault p).
Proof. apply tame_bind; [apply tame_read_bytes|]. intros b. apply tame_lift, decode_safe. Qed.
Lemma tame_read_or_empty p : tame (read_or_empty fault p).
Proof.
  intros fs Hfs. apply runs_bind, runs_catch. eapply runs_mono; [by apply tame_read_bytes|].
  intros [a|e|] fs' [Hr Hfs']; [by apply runs_lift| |done].
  apply runs_lift. cbn. by case_match.
Qed.

Lemma tame_apply_wal bytes : tame (apply_wal fault path bytes).
Proof.
  unfold apply_wal. eapply tame_lift_bind; [apply parse_wal_safe|].
  intros [n records] Hparse [Hn Hrec]. cbn [fst snd] in *.
  apply tame_bind; [apply tame_read_or_empty|]. intros cur. unfold checkpoint.
  eapply tame_lift_bind; [apply merge_wal_safe; [lia|done]|]. intros c _ Hc.
  eapply tame_lift_bind; [apply current_generation_safe|]. intros g _ _.
  eapply tame_lift_bind.
  { apply read_u64_safe; [lia|]. unfold parse_wal in Hparse. inv_ok Hparse.
    reflect_bools. unfold WAL_HEADER_SIZE in *. lia. }
  intros e _ _. eapply tame_lift_bind; [apply safe_bail_if|]. intros _ _ _.
  eapply (tame_lift_bind _ (λ _, True)).
  { pose proof (decode_safe c). by destruct (decode c). }
  intros _ _ _. pose proof (path_backup dir name).
  apply tame_bind; [by apply tame_open|]. intros _.
  apply tame_bind; [apply tame_for_each; intros; by apply tame_write|]. intros _.
  apply tame_bind; [by apply tame_set_len|]. intros _. apply tame_sync.
Qed.

Lemma tame_recover_wal : tame (recover_wal fault path).
Proof.
  unfold recover_wal. apply tame_bind; [by apply tame_lift|]. intros w fs Hfs.
  apply runs_bind, runs_catch. eapply runs_mono; [by apply tame_read_bytes|].
  intros [b|e|] fs' [Hr Hfs']; [|by case_match; [apply runs_ret|apply runs_lift]|done].
  apply (tame_bind (apply_wal fault path b)); [apply tame_apply_wal| |done].
  intros _. apply tame_remove.
Qed.

Lemma tame_is_file p : tame (fs_is_file fault p).
Proof. apply tame_bind; [apply tame_catch, tame_len|]. intros. apply tame_ret. Qed.

Lemma tame_load lock : tame (load fault path lock).
Proof.
  unfold load. apply tame_bind; [by apply tame_lift|]. intros ok.
  eapply tame_lift_bind; [apply safe_bail_if|]. intros _ _ _.
  apply tame_bind; [apply tame_recover_wal|]. intros _.
  eapply (tame_lift_bind _ (λ b, b = backup)); [done|]. intros b _ -> fs Hfs.
  apply runs_bind, runs_catch. eapply runs_mono; [by apply tame_read_snapshot|].
  intros [s|e|] fs' [Hr Hfs']; [by apply runs_ret| |done].
  case_match; [|by apply runs_lift].
  apply (tame_bind (fs_is_file fault backup)); [apply tame_is_file| |done]. intros [];
    [|apply tame_ret]. intros fs2 Hfs2.
  apply runs_bind, runs_catch. eapply runs_mono; [by apply tame_read_snapshot|].
  intros [s|e2|] fs3 [Hr3 Hfs3]; [|by apply runs_lift_bind|done].
  apply runs_lift_bind. cbn.
  apply (tame_bind (fs_rename fault backup path)); [| |done].
  - apply tame_rename, path_backup.
  - intros _. apply tame_ret.
Qed.

Lemma tame_commit_log id bytes :
  tame (commit_log fault path (temporary pid dir name id) wal bytes).
Proof.
  destruct (temporary_fresh pid dir name id) as (? & ? & ?). unfold commit_log.
  apply tame_bind; [by apply tame_create|]. intros _.
  apply tame_bind; [by apply tame_write|]. intros _.
  apply tame_bind; [apply tame_sync|]. intros _.
  apply tame_bind; [apply tame_rename, wal_backup|]. intros _.
  apply tame_bind; [apply tame_ignore, tame_sync|]. intros _.
  apply tame_bind; [apply tame_catch, tame_apply_wal|]. intros r.
  destruct (is_ok r); [|apply tame_ret].
  apply tame_bind; [apply tame_remove|]. intros _.
  apply tame_bind; [by apply tame_lift|]. intros b. apply tame_ignore, tame_remove.
Qed.

Lemma tame_commit s lock : tame (commit fault pid path s lock).
Proof.
  unfold commit. apply tame_bind; [by apply tame_lift|]. intros ok.
  eapply tame_lift_bind; [apply safe_bail_if|]. intros _ _ _.
  apply tame_bind; [apply tame_recover_wal|]. intros _.
  apply tame_bind; [apply tame_sync|]. intros _.
  apply tame_bind; [apply tame_read_or_empty|]. intros old.
  eapply tame_lift_bind; [apply current_generation_safe|]. intros g0 _ _.
  eapply tame_lift_bind; [apply safe_ok_or|]. intros g _ _.
  eapply (tame_lift_bind _ (λ _, True)).
  { pose proof (encode_pages_no_panic s g VERSION true) as H.
    change (encode_pages_version s g VERSION true) with (encode_pages s g) in H.
    by destruct (encode_pages s g). }
  intros new Hnew _. apply encode_pages_version_ok in Hnew as (payload & _ & Hmax & ->).
  pose proof (zlen_image g VERSION payload) as Hlen. pose proof (page_total_pos payload).
  rewrite encode_wal_image by (eapply wal_records_bound; [exact Hlen|lia]).
  eapply (tame_lift_bind _ (λ _, True)); [done|]. intros bytes _ _ fs Hfs.
  apply runs_bind, runs_fetch. intros id.
  apply runs_lift_bind. cbn [suffix fst snd ok_or mbind outcome_bind path].
  apply runs_lift_bind. cbn [suffix fst snd ok_or mbind outcome_bind path].
  apply runs_bind, runs_catch. eapply runs_mono; [by apply (tame_commit_log id bytes)|].
  intros [u|e|] fs' [Hr Hfs']; [by apply runs_lift| |done].
  apply (tame_bind (ignore (fs_remove fault (temporary pid dir name id)))); [| |done].
  - apply tame_ignore, tame_remove.
  - intros _. by apply tame_lift.
Qed.
End tame.

(** ** Sessions *)

(** What a client asks of a store, and what it is told. *)
Inductive op := OpLoad | OpCommit (s : Snapshot).
Inductive reply := Loaded (r : io Snapshot) | Committed (r : io unit).

Definition perform (fault : nat → option Z) (pid : Z) (dir name : string) (o : op)
    (w : world) : reply * world :=
  match o with
  | OpLoad => let '(r, w') := load fault (dir, Some name) (lock_of dir name) w in (Loaded r, w')
  | OpCommit s =>
    let '(r, w') := commit fault pid (dir, Some name) s (lock_of dir name) w in (Committed r, w')
  end.

(** A sequence of operations on the same files; every operation has its own fault
    plan and may run in a new process. *)
Inductive session (dir name : string) : disk → list (op * reply) → disk → Prop :=
| session_nil fs : session dir name fs [] fs
| session_op o fault pid w rep w' tr fs' :
    perform fault pid dir name o w = (rep, w') →
    session dir name (files w') tr fs' →
    session dir name (files w) ((o, rep) :: tr) fs'.

(** The abstract store: one snapshot, replaced at once or not at all; an operation
    told to have succeeded did. *)
Inductive serves : Snapshot → list (op * reply) → Snapshot → Prop :=
| serves_nil s : serves s [] s
| serves_load s r tr s' :
    r ≠ Panic → (∀ t, r = Ok t → t = s) → serves s tr s' →
    serves s ((OpLoad, Loaded r) :: tr) s'
| serves_commit s t r s1 tr s' :
    r ≠ Panic → ((s1 = s ∧ is_ok r = false) ∨ s1 = canonical t) → serves s1 tr s' →
    serves s ((OpCommit t, Committed r) :: tr) s'.

Definition op_valid (o : op) : Prop :=
  match o with OpLoad => True | OpCommit s => snapshot_valid 15 s end.

(** A store without a legacy backup file. *)
Definition holds (dir name : string) (fs : disk) (s : Snapshot) : Prop :=
  fs !! (dir, Some (name +:+ ".backup")) = None ∧
  ∃ v, Store dir name fs v ∧ view v = Ok s.

Lemma unbacked_true dir name (fs : disk) :
  unbacked dir name True fs ↔ fs !! (dir, Some (name +:+ ".backup")) = None.
Proof. unfold unbacked. naive_solver. Qed.

Lemma load_holds fault dir name w s r w' :
  holds dir name (files w) s → load fault (dir, Some name) (lock_of dir name) w = (r, w') →
  r ≠ Panic ∧ holds dir name (files w') s ∧ (∀ t, r = Ok t → t = s) ∧
  (is_ok r = false → faulty fault).
Proof.
  intros (Hb & v & HS & Hv) Hrun.
  pose proof (load_spec fault dir name (files w) v HS w eq_refl) as Hspec.
  pose proof (tame_load fault dir name True (lock_of dir name) (files w)
    (proj2 (unbacked_true _ _ _) Hb) w eq_refl) as [Hnp Hb'].
  rewrite Hrun in Hspec, Hnp, Hb'. cbn in Hspec, Hnp, Hb'.
  apply (proj1 (unbacked_true _ _ _)) in Hb'. destruct Hspec as [HS' Hr].
  split; [done|]. split; [split; [exact Hb'|exists v; by split]|]. split.
  - intros t ->. destruct Hr as [Hr|(-> & Hp & Hw)]; [congruence|].
    unfold Store in HS'. rewrite Hw, Hp, Hb' in HS'. destruct HS' as [-> _].
    cbn in Hv. congruence.
  - by destruct r.
Qed.

Lemma commit_holds fault pid dir name w s t r w' :
  holds dir name (files w) s → snapshot_valid 15 t →
  commit fault pid (dir, Some name) t (lock_of dir name) w = (r, w') →
  r ≠ Panic ∧ ∃ s1, holds dir name (files w') s1 ∧
    ((s1 = s ∧ is_ok r = false) ∨ s1 = canonical t).
Proof.
  intros (Hb & v & HS & Hv) Ht Hrun.
  pose proof (commit_spec fault pid dir name (files w) v t HS Ht w eq_refl) as Hspec.
  pose proof (tame_commit fault pid dir name True t (lock_of dir name) (files w)
    (proj2 (unbacked_true _ _ _) Hb) w eq_refl) as [Hnp Hb'].
  rewrite Hrun in Hspec, Hnp, Hb'. cbn in Hspec, Hnp, Hb'. apply (proj1 (unbacked_true _ _ _)) in Hb'.
  split; [done|]. destruct r as [[]|e|]; [| |done].
  - destruct Hspec as (new & HS' & Hd). exists (canonical t). split; [|by right].
    split; [done|]. by exists (Some new).
  - destruct Hspec as [[HS' _]|(new & HS' & Hd & _)].
    + exists s. split; [|by left]. split; [done|]. by exists v.
    + exists (canonical t). split; [|by right]. split; [done|]. by exists (Some new).
Qed.

Lemma session_serves dir name (fs fs' : disk) tr s :
  session dir name fs tr fs' → holds dir name fs s → Forall (λ x, op_valid x.1) tr →
  ∃ s', serves s tr s' ∧ holds dir name fs' s'.
Proof.
  intros Hrun. revert s. induction Hrun as [fs|o fault pid w rep w' tr fs' Hop Hrun IH];
    intros s Hs Hval.
  - exists s. split; [constructor|done].
  - apply Forall_cons in Hval as [Ho Hval]. cbn [fst] in Ho. destruct o as [|t].
    + cbn in Hop. destruct (load _ _ _ _) as [r w1] eqn:Hl. injection Hop as <- <-.
      destruct (load_holds _ _ _ _ _ _ _ Hs Hl) as (Hnp & Hs1 & Hr & _).
      destruct (IH s Hs1 Hval) as (s' & Hserv & Hs'). exists s'. split; [|done].
      by constructor.
    + cbn in Hop. destruct (commit _ _ _ _ _ _) as [r w1] eqn:Hl. injection Hop as <- <-.
      destruct (commit_holds _ _ _ _ _ _ _ _ _ Hs Ho Hl) as (Hnp & s1 & Hs1 & Hr).
      destruct (IH s1 Hs1 Hval) as (s' & Hserv & Hs'). exists s'. split; [|done].
      by econstructor.
Qed.
