(* ===== verification/DataProps.v ===== *)
(** * What the DISP Data store guarantees

    The correctness properties of [compiler/src/data_store.rs], each with a concrete
    instance. *)

From S2P Require Import Prelude Machine DataFormat DataCodec DataPages DataStore DataWal.
From S2P Require Import DataRecovery DataSafety.
#[local] Open Scope string_scope.
#[local] Open Scope list_scope.
#[local] Open Scope Z_scope.

(** ** Concrete stores *)

Definition no_faults : nat → option Z := λ _, None.
(** Exactly the [n]-th system call fails; a write leaves its first [k] bytes. *)
Definition fault_at (n : nat) (k : Z) : nat → option Z :=
  λ i, if decide (i = n) then Some k else None.

Lemma no_faults_not_faulty : ¬ faulty no_faults.
Proof. by intros (n & k & H). Qed.

Definition sample_field (n st : string) (primary : bool) : Field :=
  mkField n st false primary false false.
Definition sample (note : string) : Snapshot :=
  mkSnapshot [mkTable "User" [sample_field "id" "INTEGER" true; sample_field "name" "TEXT" false]
    [mkConstraint "id_name" true ["id"; "name"]] [as_bytes note]].

Definition empty_world : world := mkWorld ∅ 0 0.

Lemma empty_holds : holds "d" "s" (files empty_world) empty_snapshot.
Proof. split; [done|]. by exists None. Qed.

(** ** Sessions *)

(** C1: Every session of loads and commits on a store, with any system call of any
    operation failing (a crash is a plan that fails all later calls) and torn writes,
    behaves like an atomic register: a load returns the current snapshot, a commit
    that reports success installed its snapshot, one that reports an error installed
    it entirely or not at all, and nothing panics.  The store has no [.backup] file at the
    start, and the snapshots that are committed are ones the decoder accepts
    ([snapshot_valid]: among others, at most 4096 constraints per table). *)
Theorem sessions_are_atomic dir name (fs fs' : disk) tr s :
  session dir name fs tr fs' → holds dir name fs s → Forall (λ x, op_valid x.1) tr →
  ∃ s', serves s tr s' ∧ holds dir name fs' s'.
Proof. apply session_serves. Qed.

(** A commit whose checkpoint is torn, a load that recovers, and a load after it. *)
Definition torn_commit := perform (fault_at 11 100) 7 "d" "s" (OpCommit (sample "ann")) empty_world.
Definition recovery := perform no_faults 8 "d" "s" OpLoad torn_commit.2.
Definition torn_session : list (op * reply) :=
  [(OpCommit (sample "ann"), torn_commit.1); (OpLoad, recovery.1)].

Lemma sessions_are_atomic_witness :
  torn_session = [(OpCommit (sample "ann"), Committed (Ok tt)); (OpLoad, Loaded (Ok (sample "ann")))] ∧
  ∃ s', serves empty_snapshot torn_session s' ∧ holds "d" "s" (files recovery.2) s'.
Proof.
  split; [vm_compute; reflexivity|].
  apply (sessions_are_atomic "d" "s" (files empty_world) (files recovery.2) torn_session).
  - unfold torn_session. apply (session_op _ _ _ (fault_at 11 100) 7 _ _ torn_commit.2);
      [apply surjective_pairing|].
    apply (session_op _ _ _ no_faults 8 _ _ recovery.2); [apply surjective_pairing|].
    apply session_nil.
  - exact empty_holds.
  - repeat constructor. cbn. apply (bool_decide_unpack _). vm_compute. reflexivity.
Defined.

(** C2: A commit interrupted at any system call leaves a store from which a later
    load without failures returns the snapshot before or after the commit, and the
    new one whenever the commit reported success.  The store has no [.backup] file before
    the commit, and the new snapshot is one the decoder accepts ([snapshot_valid]: among
    others, at most 4096 constraints per table). *)
Theorem commit_crash_atomic fault pid dir name w s0 s r w1 :
  holds dir name (files w) s0 → snapshot_valid 15 s →
  commit fault pid (dir, Some name) s (lock_of dir name) w = (r, w1) →
  r ≠ Panic ∧ ∀ w2, files w2 = files w1 →
    ∃ s1, (load no_faults (dir, Some name) (lock_of dir name) w2).1 = Ok s1 ∧
      (s1 = s0 ∨ s1 = canonical s) ∧ (r = Ok tt → s1 = canonical s).
Proof.
  intros H0 Hs Hrun. destruct (commit_holds _ _ _ _ _ _ _ _ _ H0 Hs Hrun) as (Hnp & s1 & H1 & Hr).
  split; [done|]. intros w2 Hw2. rewrite <- Hw2 in H1.
  destruct (load _ _ _ _) as [r2 w3] eqn:Hl.
  destruct (load_holds _ _ _ _ _ _ _ H1 Hl) as (Hnp2 & _ & Hok & Hf).
  destruct r2 as [t|e|]; [|by destruct no_faults_not_faulty; auto|done].
  exists t. rewrite (Hok t eq_refl). split; [done|].
  destruct Hr as [[-> Hr]| ->]; [|auto]. split; [auto|]. by intros ->.
Qed.

Lemma commit_crash_atomic_witness :
  ∃ s1, (load no_faults ("d", Some "s") (lock_of "d" "s") torn_commit.2).1 = Ok s1 ∧
    (s1 = empty_snapshot ∨ s1 = canonical (sample "ann")).
Proof.
  destruct (commit_crash_atomic (fault_at 11 100) 7 "d" "s" empty_world empty_snapshot (sample "ann")
    (commit (fault_at 11 100) 7 ("d", Some "s") (sample "ann") (lock_of "d" "s") empty_world).1
    torn_commit.2) as [_ H].
  - exact empty_holds.
  - apply (bool_decide_unpack _). vm_compute. reflexivity.
  - unfold torn_commit, perform. by destruct (commit _ _ _ _ _ _).
  - destruct (H torn_commit.2 eq_refl) as (s1 & H1 & H2 & _). exact (ex_intro _ s1 (conj H1 H2)).
Defined.

(** C3: Without failing calls a commit of a snapshot that fits the format succeeds,
    unless the generation counter is exhausted or a temporary log of the same process
    identity was left behind; afterwards the store holds the sorted snapshot. *)
Theorem commit_succeeds pid dir name w v s :
  Store dir name (files w) v → files w !! (dir, Some (name +:+ ".backup")) = None →
  snapshot_valid 15 s → (∀ g, is_ok (encode_pages s g) = true) →
  current_generation (default [] v) ≠ Ok U64_MAX →
  (∀ id, files w !! temporary pid dir name id = None) →
  let '(r, w1) := commit no_faults pid (dir, Some name) s (lock_of dir name) w in
  r = Ok tt ∧ holds dir name (files w1) (canonical s).
Proof.
  intros HS Hb Hs Henc Hgen Htmp.
  pose proof (commit_spec no_faults pid dir name (files w) v s HS Hs w eq_refl) as Hspec.
  pose proof (tame_commit no_faults pid dir name True s (lock_of dir name) (files w)
    (proj2 (unbacked_true _ _ _) Hb) w eq_refl) as [_ Hb'].
  destruct (commit _ _ _ _ _ _) as [[[]|e|] w1]; cbn in *.
  - split; [done|]. split; [by apply (proj1 (unbacked_true _ _ _)) in Hb'|].
    destruct Hspec as (new & ? & ?). by exists (Some new).
  - exfalso. pose proof no_faults_not_faulty.
    destruct Hspec as [[_ [|[(g & e' & He)|[|(id & Hid)]]]]|(? & ? & ? & ?)]; try done.
    + specialize (Henc g). by rewrite He in Henc.
    + by destruct Hid.
  - done.
Qed.

Lemma encodes_if s g :
  match encode_payload_with_constraints s true with
  | Ok p => page_total p + 1 <=? MAX_PAGES | _ => false end = true →
  is_ok (encode_pages s g) = true.
Proof.
  destruct (encode_payload_with_constraints s true) as [p|e|] eqn:He; [|discriminate..].
  intros Hp%Z.leb_le. unfold encode_pages. by rewrite (encode_pages_version_image _ _ _ _ p He Hp).
Qed.

Lemma sample_encodes g : is_ok (encode_pages (sample "ann") g) = true.
Proof. apply encodes_if. vm_compute. reflexivity. Qed.

Lemma commit_succeeds_witness :
  let '(r, w1) := commit no_faults 7 ("d", Some "s") (sample "ann") (lock_of "d" "s") empty_world in
  r = Ok tt ∧ holds "d" "s" (files w1) (canonical (sample "ann")).
Proof.
  apply (commit_succeeds 7 "d" "s" empty_world None).
  - done.
  - done.
  - apply (bool_decide_unpack _). vm_compute. reflexivity.
  - exact sample_encodes.
  - cbn. discriminate.
  - intros id. apply lookup_empty.
Defined.

(** C4: Neither opening nor committing panics, whatever bytes the data file, its log
    and its backup hold, whichever lock is passed and whichever system calls fail. *)
Theorem store_never_panics fault pid dir name w s lock :
  (load fault (dir, Some name) lock w).1 ≠ Panic ∧
  (commit fault pid (dir, Some name) s lock w).1 ≠ Panic.
Proof.
  assert (unbacked dir name False (files w)) as Hu by (by intros []).
  split.
  - apply (tame_load fault dir name False lock (files w) Hu w eq_refl).
  - apply (tame_commit fault pid dir name False s lock (files w) Hu w eq_refl).
Qed.

(** ** The format *)

(** C5: Decoding inverts encoding, for every page version and any generation: what
    comes back is the snapshot with its tables sorted by name.  The snapshot keeps the
    limits of the decoder ([snapshot_valid]: flags the page version knows, and at most 4096
    constraints per table, which the encoder does not check). *)
Theorem decode_encode s generation version allowed supports bytes :
  version_flags version = Some (allowed, supports) → snapshot_valid allowed s →
  0 <= generation < 2 ^ 64 →
  encode_pages_version s generation version supports = Ok bytes →
  decode bytes = Ok (canonical s).
Proof. apply pages_round_trip. Qed.

Lemma decode_encode_witness :
  let bytes := match encode_pages (sample "bob") 41 with Ok b => b | _ => [] end in
  decode bytes = Ok (canonical (sample "bob")).
Proof.
  apply (decode_encode (sample "bob") 41 VERSION 15 true).
  - reflexivity.
  - apply (bool_decide_unpack _). vm_compute. reflexivity.
  - split; [discriminate|reflexivity].
  - vm_compute. reflexivity.
Defined.

(** The decoder accepts or rejects any byte string; it never panics. *)
Theorem decode_total bytes : decode bytes ≠ Panic.
Proof. apply decode_safe. Qed.

(** C6: A log written by [encode_wal] is accepted and read back as the pages that
    differ, and replaying it over any file that holds the other pages (the old file,
    or one left by any number of interrupted replays) yields the new image. *)
Theorem wal_replay old new generation n :
  zlen new = n * PAGE_SIZE → 2 <= n <= MAX_PAGES → 0 <= generation < 2 ^ 64 →
  ¬ agree new old 0 →
  ∃ bytes, encode_wal old new generation = Ok bytes ∧
    parse_wal bytes = Ok (n, wal_records old new) ∧
    covered new old n (wal_records old new) ∧
    (∀ cur, covered new cur n (wal_records old new) →
       merge_wal cur n (wal_records old new) = Ok new ∧
       ∀ i d k, (i, d) ∈ wal_records old new →
         covered new (splice cur (i * PAGE_SIZE) (ztake k d)) n (wal_records old new)).
Proof.
  intros Hlen Hn Hg Hd. destruct (wal_records_from old new n Hlen) as [Hpages Hvalid].
  pose proof (wal_records_bound old new n Hlen ltac:(lia)) as Hmax.
  rewrite encode_wal_image by done. eexists; split; [done|]. rewrite Hlen, Z.div_mul by done.
  split; [apply parse_wal_image; try done; apply (wal_records_first old new n); [done|lia|done]|].
  split; [by apply wal_records_covered|]. intros cur Hcov. split; [by apply merge_wal_ok|].
  intros i d k Hin. destruct Hpages as [_ Hf]. rewrite Forall_forall in Hf.
  destruct (Hf _ Hin) as [Hi Heq]. cbn [fst snd] in *. apply covered_write; try done.
  - pose proof (zlen_page_at new n Hlen i Hi) as Hp. rewrite <- Heq in Hp.
    unfold ztake, zlen in *. rewrite length_take. lia.
  - by apply (list_elem_of_fmap_2 fst _ (i, d)).
Qed.

Lemma wal_replay_witness :
  ∃ bytes, encode_wal [] (zeros 8192) 3 = Ok bytes ∧
    parse_wal bytes = Ok (2, wal_records [] (zeros 8192)).
Proof.
  destruct (wal_replay [] (zeros 8192) 3 2) as (b & H1 & H2 & _).
  - vm_compute. reflexivity.
  - split; vm_compute; discriminate.
  - split; [discriminate|reflexivity].
  - intros H. specialize (H 0%nat). vm_compute in H. discriminate H; split; [discriminate|reflexivity].
  - exact (ex_intro _ b (conj H1 H2)).
Defined.

(** ** Canonical form *)

Lemma leb_trans a b c : String.leb a b = true → String.leb b c = true → String.leb a c = true.
Proof.
  intros H1%Is_true_true H2%Is_true_true. apply Is_true_true.
  exact (transitivity (R := strings.String.le) H1 H2).
Qed.

Lemma leb_flip a b : String.leb a b = false → String.leb b a = true.
Proof. intros H. destruct (String.leb_total a b); congruence. Qed.

(** Inserting two tables of different names commutes. *)
Lemma insert_table_comm t u l :
  table_name t ≠ table_name u →
  insert_table t (insert_table u l) = insert_table u (insert_table t l).
Proof.
  intros Hne. assert (∀ a b, String.leb a b = true → String.leb b a = true → a = b) as Hanti
    by apply String.leb_antisym.
  assert (String.leb (table_name t) (table_name u) = negb (String.leb (table_name u) (table_name t)))
    as Htu.
  { destruct (String.leb (table_name u) (table_name t)) eqn:E; cbn.
    - destruct (String.leb (table_name t) (table_name u)) eqn:E2; [|done].
      destruct Hne. by apply Hanti.
    - by apply leb_flip. }
  induction l as [|w l IH]; cbn.
  - rewrite Htu. by destruct (String.leb (table_name u) (table_name t)).
  - destruct (String.leb (table_name u) (table_name w)) eqn:Huw,
      (String.leb (table_name t) (table_name w)) eqn:Htw; cbn; rewrite ?Huw, ?Htw.
    + rewrite Htu. destruct (String.leb (table_name u) (table_name t)); cbn;
        by rewrite ?Huw, ?Htw.
    + assert (String.leb (table_name u) (table_name t) = true) as E
        by (eapply leb_trans; [exact Huw|by apply leb_flip]).
      rewrite Htu, E. cbn. by rewrite ?Htw.
    + assert (String.leb (table_name t) (table_name u) = true) as E
        by (eapply leb_trans; [exact Htw|by apply leb_flip]).
      rewrite Htu in E. apply negb_true_iff in E. rewrite E. cbn. by rewrite ?Huw.
    + by rewrite IH.
Qed.

Lemma sort_tables_unique l1 l2 :
  NoDup (map table_name l1) → l1 ≡ₚ l2 → sort_tables l1 = sort_tables l2.
Proof.
  intros Hnd Hp. unfold sort_tables. apply (foldr_permutation (=)); [solve_proper| |exact Hp].
  intros j1 t j2 u l Hj H1 H2. apply insert_table_comm. intros Heq. apply Hj.
  eapply NoDup_lookup; [exact Hnd|..]; rewrite list_lookup_fmap; [by rewrite H1|].
  rewrite H2. cbn. by rewrite Heq.
Qed.

(** The bytes of a snapshot do not depend on the order of its tables, so equal
    contents give equal images. *)
Theorem encoding_canonical s1 s2 generation version supports :
  NoDup (map table_name (tables s1)) → tables s1 ≡ₚ tables s2 →
  encode_pages_version s1 generation version supports =
  encode_pages_version s2 generation version supports.
Proof.
  intros Hnd Hp. unfold encode_pages_version, encode_payload_with_constraints.
  rewrite (sort_tables_unique _ _ Hnd Hp).
  assert (zlen (tables s1) = zlen (tables s2)) as -> by (unfold zlen; by rewrite Hp). done.
Qed.

Lemma encoding_canonical_witness :
  let a := mkTable "a" [sample_field "id" "INTEGER" true] [] [] in
  let b := mkTable "b" [sample_field "id" "INTEGER" true] [] [] in
  encode_pages_version (mkSnapshot [a; b]) 1 VERSION true
  = encode_pages_version (mkSnapshot [b; a]) 1 VERSION true.
Proof.
  apply encoding_canonical.
  - apply (bool_decide_unpack _). vm_compute. reflexivity.
  - apply Permutation_swap.
Defined.

(** ** Where the code departs from what it says *)

(** A commit can return an error although its snapshot is durably committed:
    the removal of the log fails after the checkpoint, and the error is returned. *)
Theorem commit_error_after_commit_point :
  let run := commit (fault_at 14 0) 7 ("d", Some "s") (sample "ann") (lock_of "d" "s") empty_world in
  run.1 = Err os_error ∧
  (load no_faults ("d", Some "s") (lock_of "d" "s") run.2).1 = Ok (sample "ann").
Proof. vm_compute. split; reflexivity. Qed.

(** A table with one constraint more than the decoder allows. *)
Definition many_constraints : list Constraint :=
  map (λ i, mkConstraint ("c" +:+ pretty.pretty i) false ["id"; "name"]) (seq 0 4097).
Definition overfull : Table :=
  mkTable "User" [sample_field "id" "INTEGER" true; sample_field "name" "TEXT" false]
    many_constraints [].

Lemma encode_constraint_extends fields q names c q' names' :
  encode_constraint fields (q, names) c = Ok (q', names') → ∃ e, q' = q ++ e.
Proof.
  unfold encode_constraint. intros H. inv_ok H. injection H as <- _.
  apply push_bytes_ok in Hv as (-> & _). apply push_u32_ok in Hv2 as [-> _].
  eapply (for_each_inv (λ st : list byte * gset string, ∃ e, st.1 = q ++ e)) in Hv3; [done| |].
  - intros [p ns] f [p' ns'] _ [e He] Hf. cbn [fst] in *. subst p.
    unfold encode_constraint_field in Hf. inv_ok Hf. injection Hf as <- _.
    match goal with H : push_bytes _ _ _ _ = Ok _ |- _ => apply push_bytes_ok in H as (-> & _) end.
    exists (e ++ enc_bytes (as_bytes f)). by rewrite app_assoc.
  - cbn [fst]. eexists. rewrite <- !app_assoc. reflexivity.
Qed.

Lemma push_bytes_fits out v limit ctx :
  zlen v <= limit <= U32_MAX → push_bytes out v limit ctx = Ok (out ++ enc_bytes v).
Proof.
  intros H. unfold push_bytes, push_u32. pose proof (zlen_nonneg v).
  rewrite bail_if_pass by (rewrite Z.gtb_ltb; apply Z.ltb_ge; lia). run.
  rewrite try_from_in by lia. run. unfold enc_bytes. by rewrite app_assoc.
Qed.

Lemma encode_overfull_constraint payload names nm :
  nm ∉ names → nm ≠ "id" → nm ≠ "name" → zlen (as_bytes nm) <= 5 →
  ∃ payload', encode_constraint (table_fields overfull) (payload, names)
      (mkConstraint nm false ["id"; "name"]) = Ok (payload', {[nm]} ∪ names).
Proof.
  intros Hn Hid Hname Hlen. unfold encode_constraint.
  cbn [constraint_name constraint_fields constraint_unique].
  rewrite (push_bytes_fits payload (as_bytes nm)) by (unfold MAX_NAME_BYTES, U32_MAX; lia). run.
  rewrite (bail_if_pass (bool_decide (nm ∈ names) || _)).
  2:{ rewrite !bool_decide_eq_false_2; [done| |done]. cbn.
      rewrite !not_elem_of_union, !not_elem_of_singleton. set_solver. }
  run. eexists. reflexivity.
Qed.

Lemma overfull_name (i : nat) :
  (i < 4097)%nat → zlen (as_bytes ("c" +:+ pretty.pretty i)) <= 5.
Proof.
  intros Hi. apply Z.leb_le. revert i Hi.
  assert (forallb (λ k, zlen (as_bytes ("c" +:+ pretty.pretty k)) <=? 5) (seq 0 4097) = true) as Hall
    by (vm_compute; reflexivity).
  rewrite forallb_forall in Hall. intros i Hi. apply Hall, in_seq. lia.
Qed.

Lemma encode_overfull_prefix k payload :
  (k <= 4097)%nat → ∃ payload' names,
    for_each (encode_constraint (table_fields overfull))
      (map (λ i, mkConstraint ("c" +:+ pretty.pretty i) false ["id"; "name"]) (seq 0 k)) (payload, ∅)
    = Ok (payload', names) ∧ ∀ i : nat, (k <= i)%nat → ("c" +:+ pretty.pretty i) ∉ names.
Proof.
  induction k as [|k IH]; intros Hk; [by exists payload, ∅|].
  destruct IH as (p1 & names & Hrun & Hfresh); [lia|].
  rewrite seq_S, map_app, for_each_app, Hrun, bind_Ok. cbn [map for_each Nat.add].
  destruct (encode_overfull_constraint p1 names ("c" +:+ pretty.pretty k)) as (p2 & ->);
    [apply Hfresh; lia|done|done|apply overfull_name; lia|].
  run. eexists _, _. split; [reflexivity|]. intros i Hi.
  rewrite not_elem_of_union, not_elem_of_singleton. split; [|apply Hfresh; lia].
  intros H%(inj (String.append "c"))%(inj pretty.pretty). lia.
Qed.

(** C7: The encoder accepts a table with more than 4096 constraints, and the
    constraint section it writes is then always refused by the decoder. *)
Theorem constraint_limit_mismatch :
  is_ok (encode_constraints true overfull []) = true ∧
  ∀ t payload payload', MAX_FIELDS < zlen (table_constraints t) →
    encode_constraints true t payload = Ok payload' →
    ∃ section, payload' = payload ++ section ∧ ∀ post, fits (payload ++ section ++ post) →
      decode_constraints true (table_fields t) (rd payload (section ++ post))
      = Err (invalid "DISP Data table exceeds 4096 constraints").
Proof.
  split.
  - unfold encode_constraints. change (table_constraints overfull) with many_constraints.
    assert (zlen many_constraints = 4097) as -> by (unfold many_constraints, zlen; by rewrite length_map, length_seq).
    unfold push_u32. rewrite try_from_in by (unfold U32_MAX; lia). run.
    destruct (encode_overfull_prefix 4097 ([] ++ to_le_bytes 4 4097)) as (p & names & Hrun & _); [lia|].
    unfold many_constraints. rewrite Hrun. reflexivity.
  - intros t p p' Hmany H. unfold encode_constraints in H. inv_ok H. injection H as ->.
    apply push_u32_ok in Hv as [-> Hr].
    assert (∃ e, p' = (p ++ to_le_bytes 4 (zlen (table_constraints t))) ++ e) as [e ->].
    { eapply (for_each_inv (λ st : list byte * gset string,
        ∃ e, st.1 = (p ++ to_le_bytes 4 (zlen (table_constraints t))) ++ e)) in Hv0; [done| |].
      - intros [q names] c [q' names'] _ [e He] Hc. cbn [fst] in *. subst q.
        apply encode_constraint_extends in Hc as [e' ->]. exists (e ++ e'). by rewrite app_assoc.
      - exists []. by rewrite app_nil_r. }
    exists (to_le_bytes 4 (zlen (table_constraints t)) ++ e). rewrite <- !app_assoc.
    split; [done|]. intros post Hf. unfold decode_constraints. rewrite <- !app_assoc in *.
    rewrite reader_u32_rd by done. run. unfold bail_if. rewrite Z.gtb_ltb, (proj2 (Z.ltb_lt _ _)) by done.
    done.
Qed.

(** A store whose only image is the recovery backup. *)
Definition backup_world : world :=
  mkWorld (match encode_pages (sample "ann") 1 with
           | Ok b => {[ ("d", Some "s.backup") := b ]} | _ => ∅ end) 0 0.

(** When the query for the backup fails, [load] reports an empty store instead
    of an error, although the backup holds a snapshot. *)
Theorem backup_query_failure_hidden :
  (load no_faults ("d", Some "s") (lock_of "d" "s") backup_world).1 = Ok (sample "ann") ∧
  (load (fault_at 2 0) ("d", Some "s") (lock_of "d" "s") backup_world).1 = Ok empty_snapshot.
Proof. vm_compute. split; reflexivity. Qed.
